(* ===== verification/_CoqProject ===== *)
-Q . S2P
Prelude.v
GoInt.v
GoString.v
GoHttp.v
GoMux.v
BackendPool.v
Selector.v
SelRoundRobin.v
SelWeightedRR.v
SelLeastConn.v
SelP2C.v
SelIPHash.v
SelConsistentHash.v
GoFloat.v
FloatBounds.v
Config.v
Breaker.v
BreakerConc.v
RegistryConc.v
Health.v
HealthRound.v
CheckerConc.v
Passive.v
RateLimit.v
Trie.v
Routers.v
SNI.v
TLS.v
HttpProxy.v
Monitor.v
Transport.v
Admin.v
App.v
Main.v
AdminServer.v
Tunnel.v
TcpServer.v
Middleware.v
Metrics.v
ProxyConc.v
System.v
