(* ===== verification/Prelude.v ===== *)
(** * gobalancer: a verification development

    gobalancer is a TCP and HTTP load balancer in Go.  This library models its
    logic as executable Rocq definitions, one per Go function, and proves what
    makes each part correct.  Source paths are relative to [src/].

    ** The program and the files

    [cmd/gobalancer/main.go] reads a configuration, builds a pool of backends
    and serves HTTP through a proxy that asks a selector for a backend.  Around
    that core the repository has health checkers that change the backends'
    health, a circuit breaker, routers, middlewares, TLS termination and
    passthrough, a TCP proxy and an admin API; [main] wires only the first few
    of them together.

    - Prelude.v: panics, the state-and-panic monad [M], [defer], [lift],
      the tactics [go_step] and [go_cases], lemmas on lists and counting.
    - GoInt.v, GoFloat.v, GoString.v, GoHttp.v: what the code uses of Go and
      its standard library: 64-bit wrap-around, truncated remainder, durations
      and times; binary64 arithmetic; the functions of [strings], [strconv],
      [net.SplitHostPort], FNV-1a; header maps, context values, requests and
      responses.  FloatBounds.v: how much a binary64 operation can round up.
      GoMux.v: request targets, escaped paths and the dispatch of
      [http.ServeMux].
    - BackendPool.v: [internal/backend/backend.go], [pool.go].  Backends are
      shared by pointer, so they live in a [store] indexed by locations; the
      pool is the list of locations under its mutex.
    - Selector.v: [internal/balancer/selector.go] as the class [Selector], and
      the promises the proxy relies on as the class [SelectorLaws].
      SelRoundRobin.v, SelWeightedRR.v, SelLeastConn.v, SelP2C.v, SelIPHash.v
      and SelConsistentHash.v model the six algorithms and are its instances.
    - Breaker.v: [internal/circuitbreaker/breaker.go], [registry.go], one call
      at a time.  BreakerConc.v: the same methods cut at their atomic, mutex
      and channel operations and interleaved.  RegistryConc.v: the registry's
      [Get] by any number of goroutines, cut at its lock operations and map
      accesses.
    - Health.v: [internal/health/statemachine.go], [checker.go], [tcp.go],
      [grpc.go].  HealthRound.v: the probes of one round of the checker, in any
      order.  CheckerConc.v: [Run] with the probes it starts, cut at their
      accesses to the shared maps and to the health.  Monitor.v: rounds of
      interleaved probes and the traffic that follows them.  Passive.v:
      [internal/health/passive.go].
    - RateLimit.v: [internal/middleware/ratelimit.go], sequential and
      interleaved.
    - Trie.v: [internal/routing/trie.go].  Routers.v: [host.go], [header.go],
      [canary.go], [shadow.go] of the same directory.
    - SNI.v: [internal/tls/passthrough.go].  TLS.v: [termination.go],
      [mtls.go] and [watcher.go] of the same directory.
    - HttpProxy.v: [internal/proxy/http.go], [tcp.go] and [Chain] of
      [middleware.go], against the [Selector] interface only.
    - ProxyConc.v: [ServeHTTP] with round robin cut at its atomic and lock
      operations, interleaved with health changes and with goroutines that
      change the pool under its lock; the exchange with the upstream ends when
      the environment ends it, by an answer or by a panic, or never.
    - Transport.v: [internal/proxy/transport.go].  Tunnel.v:
      [internal/proxy/tunnel.go] and [tunnel] of [tcp.go].  TcpServer.v: the
      accept loop of [tcp.go].
    - Admin.v: the handlers of [internal/admin/server.go], [drain.go],
      [reload.go].  AdminServer.v: the admin server as its clients see it, from
      the request line to the handler.
    - Config.v: [config/config.go].  App.v: [internal/balancer/factory.go] and
      the startup of [main.go].  Main.v: [main] from the path of the
      configuration to the exit code, and hot reload.
    - Middleware.v: [internal/middleware/logger.go], [headers.go],
      [requestid.go], [gzip.go], and the recording writer and the timeout of
      [internal/proxy/middleware.go].
    - Metrics.v: [internal/metrics/metrics.go], [middleware.go], against an
      interface with laws to the Prometheus library.
    - System.v: all parts on one pool and one heap of backends, and the typing
      of that heap; a request is one event, the tunnels of TCP connections and
      the probes of the active checker take theirs turn by turn.

    The method [m] of a Go type [T] is the definition [T_m]; a struct is a record of the
    same name, an enumeration an inductive type with the source's constants.
    Where two packages use one name the definition says which it is
    ([BreakerConfig], [HealthConfig], [RateLimit_clientIP]).

    ** What the theorems show

    - Proxy and program: [ServeHTTP_correct] (for every selector that keeps its
      laws, a request reaches one healthy backend of the pool, and the
      connection count is restored on every exit, panics included),
      [reverse_request_upstream] (what the upstream gets), [NewSelector_serves],
      [loaded_config_starts] (what the validation accepts, the program can run),
      [reload_keeps_valid], and end to end [main_serves_round_robin].
    - The whole: [program_type_safe] is type soundness of the heap of backends
      under every sequence of HTTP and admin requests, TCP connections and turns
      of their tunnels, ticks, probe steps and observations, for every algorithm
      of the factory, with the two ways in which the process can end;
      [failing_backend_loses_traffic] and [recovered_backend_is_offered] compose
      the active checker with the proxy.
    - Concurrent requests: [inflight_accounting] (a conserved quantity of every
      interleaving, also of exchanges that panic), [concurrent_fairness],
      [ejected_gets_no_requests], [request_completes] (no deadlock on the lock of
      the pool, and no request waits for the upstream of another),
      [pool_lock_exclusive], and [solo_request], which ties the interleaved model
      to [HTTPProxy_ServeHTTP].
    - TCP: [tunnel_delivers] for every interleaving of the copying goroutines,
      [tunnel_terminates] (the call returns exactly when the two peers would
      finish if they were connected directly), [Serve_graceful] for the
      shutdown, [deadlines_per_operation].
    - TLS: [cert_hot_swap] for every sequence of file events,
      [MTLSConfig_fails_closed].
    - Backends: [Pool_refines_registry] (the pool is a map from ids),
      [Pool_Healthy_exact], [conns_accounting]; [SetWeight_panics].
    - Algorithms: fairness, proportionality, minimality, stickiness, clockwise
      lookup and minimal disruption; [RoundRobin_panics_iff] is the exact
      overflow behaviour.
    - Circuit breaker: [Breaker_refines_circuit] is a refinement of an abstract
      circuit with permits, [Breaker_conc_safe] an invariant of every
      interleaving, [Breaker_conc_sequential] ties the interleaved model to the
      sequential one, [Breaker_drain_deadlock] exhibits the schedule that blocks.
      Registry: [Registry_Get_shares] (one breaker per id in every interleaving),
      [Registry_Get_completes], [Registry_Get_sequential].
    - Health: legality, ejection on a streak, exponential backoff and recovery
      of the state machine; the active checker is the same automaton up to the
      backoff, and every interleaving of the probes of a tick that the program
      survives is the sequential round ([Checker_run_round]), while
      [Checker_run_races] gives the schedule that it does not survive; the
      passive window is exact and its backoff is respected.
    - Rate limiter: [RateLimiter_budget] bounds what a client gets by the burst
      and the rate times the time that has passed, floats included; the
      starvation of a steady client, the bound under concurrency and the double
      spend that concurrency allows.
    - Routing and SNI: [PathTrie_longest_prefix], [HostRouter_bare_names],
      [extractSNI_roundtrip] (against an encoder of ClientHellos),
      [extractSNI_panics_iff] and [PeekSNI_replays].
    - Admin: [admin_server_routes] (what every method and request target means),
      [admin_server_refines_map] (over HTTP the server is a map from ids to
      weights), [admin_addresses_every_id], [duplicate_survives_delete],
      [Drain_panics].
    - Middleware and metrics: [access_log_is_accurate], [late_headers_lost],
      [RequestID_in_context], [TimeoutMiddleware_all_or_nothing],
      [Metrics_New_once], [instrumentation_is_accurate], and
      [informational_miscounted] for the handlers it leaves out.

    ** Conventions and bounds

    - [int], [int64] and [time.Duration] are integers wrapped to 64 bits at
      every operation that can overflow ([wrap64]).
    - A read of a clock is an argument of the definition, one per call of
      [time.Now] or [time.Since], so theorems hold for every clock unless they
      say that it does not go back.
    - A float converted to an integer out of range gives the value amd64 gives.
    - Fuel: the binary search runs with the length of the slice as fuel and the
      interval shrinks at every step; the loop that drains the probe channel
      has the channel's length; the loop over TLS extensions has one more than
      the length of the input and every turn consumes at least four bytes
      ([extractSNI_panics_iff] states that it never runs out); the polling loop
      of [Drain] has the number of ticks before the timeout.
    - The far ends of a tunnel are scripts: a peer sends, or waits for a number
      of bytes or the end of the stream, so reads block; a write does not.
    - A handler is a program over its [ResponseWriter]: it reads and changes the
      headers, calls [WriteHeader] (informational statuses included) and [Write],
      and may panic; what the server sends is [RW_finish].
    - Code that is not in the repository is a parameter: the HTTP round trip,
      dialing, [url.Parse], [regexp], [math/rand], the JSON, gzip and Prometheus
      libraries.
      What is assumed of it is a named hypothesis of the theorems that need it,
      and their witnesses instantiate it.
    - Methods that hold a mutex for their whole body are one step.  Finer
      interleavings are modelled where the code uses atomics outside a lock or
      channels, or drops a lock in between: the breaker and its registry, the
      token bucket, the probes, the proxy and the tunnel.  A schedule is a list
      of turns, so a run is a computation; termination is stated as a number of
      turns that is enough.
    - A map access that races with a write to the same map ends the program, as
      Go's run time detects it.
    - A panic in a handler of net/http is recovered by the server and ends that
      request only; a panic anywhere else ends the program.

    ** Not modelled

    - Sockets, listening, signals and timers, which are parameters, events or
      turns; the exposition handler of [internal/metrics/metrics.go], a call of
      the Prometheus library.
    - viper, the validator library and fsnotify: Config.v states what the
      validation tags of the source demand, and the theorems assume that the
      validator reports nothing exactly when they hold.
    - Sniffed content types, declared content lengths, trailers and protocol
      upgrades; the optional interfaces of a [ResponseWriter]; redirects to
      another host by [http.ServeMux] and its wildcard patterns, which the
      program does not use; the aliasing of the pool's returned slices, which
      the callers only read.
    - A bucket of the rate limiter that is evicted between its lookup and its
      use: the interleaved model has one bucket. *)

From stdpp Require Export base tactics numbers list gmap strings fin_maps.
From Stdlib Require Export ZArith Lia.
From Stdlib Require Ascii.

#[global] Set Default Goal Selector "!".

(** ** Scopes, hint databases *)

Declare Scope go_scope.
Delimit Scope go_scope with go.

Create HintDb go_db discriminated.
Create Rewrite HintDb go_rw.

(** ** Go control flow: panics and explicit state *)

(** Why a goroutine stopped: the run-time panics that the modelled code can
    raise, and [Deadlock] for a goroutine that blocks for ever on a channel. *)
Inductive panic :=
| NilDeref
| IndexOutOfRange
| SliceOutOfRange
| NegativeSize
| TypeAssertion
| DivideByZero
| Explicit
| ConcurrentMapAccess  (* fatal: the runtime saw two accesses of a map overlap *)
| Deadlock.

(** A Go call either returns or unwinds with a panic. *)
Inductive outcome (A : Type) :=
| Ret (a : A)
| Panic (why : panic).
Arguments Ret {A} a.
Arguments Panic {A} why.

#[export] Instance panic_eq_dec : EqDecision panic.
Proof. solve_decision. Defined.

#[export] Instance outcome_eq_dec `{EqDecision A} : EqDecision (outcome A).
Proof. solve_decision. Defined.

#[export] Instance outcome_ret : MRet outcome := @Ret.
#[export] Instance outcome_bind : MBind outcome := λ A B f m,
  match m with Ret a => f a | Panic w => Panic w end.

(** State passing with panics. The state survives a panic: writes done before
    the panic stay visible, which is what deferred calls and other goroutines
    observe. *)
Definition M (S A : Type) : Type := S → outcome A * S.

#[export] Instance M_ret {S} : MRet (M S) := λ A a s, (Ret a, s).
#[export] Instance M_bind {S} : MBind (M S) := λ A B f m s,
  match m s with
  | (Ret a, s') => f a s'
  | (Panic w, s') => (Panic w, s')
  end.

Definition gets {S A} (f : S → A) : M S A := λ s, (Ret (f s), s).
Definition modify {S} (f : S → S) : M S () := λ s, (Ret tt, f s).
Definition raise {S A} (w : panic) : M S A := λ s, (Panic w, s).
Definition lift {S A} (o : outcome A) : M S A := λ s, (o, s).

(** [defer d m]: run [m], then [d] whether [m] returned or panicked; a panic
    of [m] goes on unwinding after [d].  A blocked goroutine runs nothing. *)
Definition defer {S A} (d : M S ()) (m : M S A) : M S A := λ s,
  match m s with
  | (Panic Deadlock, s') => (Panic Deadlock, s')
  | (o, s') =>
      match d s' with
      | (Ret _, s'') => (o, s'')
      | (Panic w, s'') => (Panic w, s'')
      end
  end.

(** Repeat a computation, collecting the results. *)
Fixpoint repeatM {S A} (n : nat) (m : M S A) : M S (list A) :=
  match n with
  | O => mret []
  | S k => a ← m; l ← repeatM k m; mret (a :: l)
  end.

(** [for _, x := range l { body }] over a state. *)
Fixpoint forM {S A} (l : list A) (body : A → M S ()) : M S () :=
  match l with
  | [] => mret tt
  | x :: l' => body x;; forM l' body
  end.

(** [l[i]], with Go's bounds check. *)
Definition go_index {A} (l : list A) (i : Z) : outcome A :=
  if decide (0 ≤ i)%Z then
    match l !! Z.to_nat i with Some a => Ret a | None => Panic IndexOutOfRange end
  else Panic IndexOutOfRange.

Definition zlen {A} (l : list A) : Z := Z.of_nat (length l).

(** ** Tactics *)

(** Split the conditionals and matches of the goal, closing what is trivial. *)
Ltac go_cases :=
  repeat (first [ case_decide | case_bool_decide | case_match ]; simplify_eq/=);
  try done.

(** Bind equations of both monads, by computation. *)
Ltac go_step := cbv [mbind mret M_bind M_ret outcome_bind outcome_ret gets modify raise lift] in *; simpl in *.

(** ** Lemmas on panics and states *)

Lemma bind_Ret {S A B} (m : M S A) (f : A → M S B) s a s' :
  m s = (Ret a, s') → (m ≫= f) s = f a s'.
Proof. intros H. unfold mbind, M_bind. by rewrite H. Qed.

Lemma bind_Panic {S A B} (m : M S A) (f : A → M S B) s w s' :
  m s = (Panic w, s') → (m ≫= f) s = (Panic w, s').
Proof. intros H. unfold mbind, M_bind. by rewrite H. Qed.

Lemma go_index_Ret {A} (l : list A) (i : nat) x :
  l !! i = Some x → go_index l (Z.of_nat i) = Ret x.
Proof.
  intros H. unfold go_index. rewrite decide_True by lia.
  by rewrite Nat2Z.id, H.
Qed.

Lemma go_index_inv {A} (l : list A) i x :
  go_index l i = Ret x → (0 ≤ i)%Z ∧ l !! Z.to_nat i = Some x.
Proof. unfold go_index. intros. go_cases. Qed.

Lemma go_index_in_range {A} (l : list A) i :
  (0 ≤ i < zlen l)%Z → ∃ x, go_index l i = Ret x ∧ l !! Z.to_nat i = Some x.
Proof.
  unfold zlen. intros [H1 H2].
  destruct (lookup_lt_is_Some_2 l (Z.to_nat i)) as [x Hx]; [lia|].
  exists x. split; [|done]. unfold go_index. by rewrite decide_True, Hx by lia.
Qed.

Lemma go_index_negative {A} (l : list A) i :
  (i < 0)%Z → go_index l i = Panic IndexOutOfRange.
Proof. intros H. unfold go_index. by rewrite decide_False by lia. Qed.

Lemma go_index_elem {A} (l : list A) i x : go_index l i = Ret x → x ∈ l.
Proof. intros [_ H]%go_index_inv. by eapply list_elem_of_lookup_2. Qed.

Lemma zlen_zero {A} (l : list A) : zlen l = 0%Z ↔ l = [].
Proof. unfold zlen. destruct l; simpl; split; intros; try done; lia. Qed.

Lemma zlen_pos {A} (l : list A) : l ≠ [] → (0 < zlen l)%Z.
Proof. unfold zlen. destruct l; simpl; intros; [done|lia]. Qed.

(** Reading a list cyclically: [n] consecutive positions from [c] on, modulo
    the length. *)
Fixpoint cyclic {A} (l : list A) (c n : nat) : list A :=
  match n with
  | O => []
  | S m =>
      match l !! (c mod length l) with
      | Some x => x :: cyclic l (S c) m
      | None => []
      end
  end.

Lemma cyclic_lookup {A} (l : list A) c :
  l ≠ [] → ∃ x, l !! (c mod length l) = Some x.
Proof.
  intros H. apply lookup_lt_is_Some_2, Nat.mod_upper_bound.
  by destruct l.
Qed.

Lemma cyclic_app {A} (l : list A) c m n :
  l ≠ [] → cyclic l c (m + n) = cyclic l c m ++ cyclic l (c + m) n.
Proof.
  intros H. revert c. induction m as [|m IH]; intros c; simpl.
  - by rewrite Nat.add_0_r.
  - destruct (cyclic_lookup l c H) as [x ->]. simpl. rewrite IH.
    by rewrite Nat.add_succ_r.
Qed.

Lemma cyclic_prefix {A} (l : list A) c n :
  c + n ≤ length l → cyclic l c n = take n (drop c l).
Proof.
  revert c. induction n as [|n IH]; intros c Hle; simpl; [done|].
  rewrite Nat.mod_small by lia.
  destruct (lookup_lt_is_Some_2 l c) as [x Hx]; [lia|].
  rewrite Hx, (drop_S _ _ _ Hx), IH by lia. done.
Qed.

(** One full turn visits every position once, wherever it starts. *)
Lemma cyclic_turn {A} (l : list A) c :
  l ≠ [] → cyclic l c (length l) ≡ₚ l.
Proof.
  intros H. induction c as [|c IH].
  - rewrite cyclic_prefix, drop_0, take_ge by lia. done.
  - etransitivity; [|exact IH]. destruct (cyclic_lookup l c H) as [x Hx].
    apply (Permutation_cons_inv (a := x)).
    transitivity (cyclic l c (S (length l))); [simpl; by rewrite Hx|].
    rewrite <- Nat.add_1_r, cyclic_app by done. simpl.
    replace ((c + length l) mod length l) with (c mod length l).
    + rewrite Hx. by rewrite Permutation_app_comm.
    + symmetry. rewrite <- (Nat.Div0.mod_add c 1). by rewrite Nat.mul_1_l.
Qed.

(** [k] full turns visit every position [k] times. *)
Lemma cyclic_turns {A} (l : list A) c k :
  l ≠ [] → cyclic l c (k * length l) ≡ₚ concat (replicate k l).
Proof.
  intros H. revert c. induction k as [|k IH]; intros c; simpl; [done|].
  rewrite cyclic_app by done. by rewrite cyclic_turn, IH.
Qed.

Lemma filter_none {A} (P : A → Prop) `{∀ x, Decision (P x)} (l : list A) :
  filter P l = [] ↔ Forall (λ x, ¬ P x) l.
Proof.
  induction l as [|x l IH]; [by split; [constructor|]|].
  rewrite filter_cons, Forall_cons, <- IH. case_decide; [|tauto].
  split; [done|by intros [? _]].
Qed.

Lemma filter_all {A} (P : A → Prop) `{∀ x, Decision (P x)} (l : list A) :
  Forall P l → filter P l = l.
Proof.
  induction 1 as [|x l Hx _ IH]; [done|]. by rewrite filter_cons, decide_True, IH.
Qed.

Lemma forallb_Forall {A} (f : A → bool) (l : list A) :
  forallb f l = true ↔ Forall (λ x, f x = true) l.
Proof.
  induction l as [|x l IH]; simpl; [by split; [constructor|]|].
  by rewrite andb_true_iff, Forall_cons, IH.
Qed.

(** How often [x] occurs in [l]. *)
Definition occ {A} `{EqDecision A} (x : A) (l : list A) : nat :=
  length (filter (λ y, y = x) l).

#[export] Instance occ_proper {A} `{EqDecision A} (x : A) :
  Proper ((≡ₚ) ==> (=)) (occ x).
Proof. intros l l' H. unfold occ. by rewrite H. Qed.

Lemma occ_app {A} `{EqDecision A} (x : A) l1 l2 : occ x (l1 ++ l2) = occ x l1 + occ x l2.
Proof. unfold occ. by rewrite filter_app, length_app. Qed.

Lemma occ_cons {A} `{EqDecision A} (x y : A) l :
  occ x (y :: l) = ((if decide (y = x) then 1 else 0) + occ x l)%nat.
Proof. unfold occ. rewrite filter_cons. by case_decide. Qed.

(** Replacing one element of a list. *)
Lemma occ_insert {A} `{EqDecision A} (x p q : A) l i :
  l !! i = Some p →
  (occ x (<[i := q]> l) + (if decide (p = x) then 1 else 0) =
   occ x l + (if decide (q = x) then 1 else 0))%nat.
Proof.
  revert i. induction l as [|y l IH]; intros [|i] H; simplify_eq/=.
  - rewrite !occ_cons. lia.
  - rewrite !occ_cons. specialize (IH i H). lia.
Qed.

Lemma occ_concat_replicate {A} `{EqDecision A} (x : A) k l :
  occ x (concat (replicate k l)) = k * occ x l.
Proof. induction k as [|k IH]; simpl; [done|]. by rewrite occ_app, IH. Qed.

Lemma occ_not_elem {A} `{EqDecision A} (x : A) l : x ∉ l → occ x l = 0.
Proof.
  intros H. unfold occ. apply length_zero_iff_nil, filter_none.
  rewrite Forall_forall. by intros y Hy ->.
Qed.

Lemma occ_replicate {A} `{EqDecision A} (x : A) n : occ x (replicate n x) = n.
Proof.
  induction n as [|n IH]; [done|]. unfold occ in *. simpl.
  rewrite filter_cons, decide_True by done. simpl. by f_equal.
Qed.

Lemma occ_NoDup {A} `{EqDecision A} (x : A) l : NoDup l → x ∈ l → occ x l = 1.
Proof.
  intros Hn (l1 & l2 & ->)%list_elem_of_split.
  rewrite NoDup_app, NoDup_cons in Hn. destruct Hn as (_ & Hd & Hx & _).
  rewrite occ_app, occ_cons, decide_True, (occ_not_elem _ l2), (occ_not_elem _ l1); [done| |done|done].
  intros H1. apply (Hd x H1). left.
Qed.

(** Any number of consecutive positions is balanced between the elements. *)
Lemma cyclic_balanced {A} `{EqDecision A} (x : A) l c k :
  NoDup l → x ∈ l →
  k / length l ≤ occ x (cyclic l c k) ≤ S (k / length l).
Proof.
  intros Hn Hx. assert (l ≠ []) as Hl by (intros ->; by apply elem_of_nil in Hx).
  assert (length l ≠ 0) as H0 by (by destruct l).
  pose proof (Nat.div_mod k (length l) H0) as Hk.
  pose proof (Nat.mod_upper_bound k (length l) H0) as Hr.
  set (q := k / length l) in *. set (r := k mod length l) in *.
  rewrite Hk, Nat.mul_comm, cyclic_app, occ_app, cyclic_turns, occ_concat_replicate by done.
  rewrite (occ_NoDup x l) by done.
  set (c' := c + q * length l).
  assert (occ x (cyclic l c' r) + occ x (cyclic l (c' + r) (length l - r)) = 1) as H1.
  { rewrite <- occ_app, <- cyclic_app by done.
    replace (r + (length l - r)) with (length l) by lia.
    rewrite cyclic_turn by done. by apply occ_NoDup. }
  lia.
Qed.

(** ** Streaks *)

(** [n] failures in a row somewhere in a history of outcomes ([false] is a
    failure). *)
Definition streak (n : nat) (os : list bool) : Prop :=
  ∃ i, ∀ j, (j < n)%nat → os !! (i + j)%nat = Some false.

Lemma streak_after_success n k os :
  (k < n)%nat → streak n (replicate k false ++ true :: os) ↔ streak n os.
Proof.
  intros Hk. split.
  - intros [i Hi]. destruct (decide (i ≤ k)%nat) as [Hle|Hgt].
    + exfalso. pose proof (Hi (k - i)%nat ltac:(lia)) as H.
      replace (i + (k - i))%nat with k in H by lia.
      rewrite lookup_app_r in H by (rewrite length_replicate; lia).
      by rewrite length_replicate, Nat.sub_diag in H.
    + exists (i - S k)%nat. intros j Hj. pose proof (Hi j Hj) as H.
      rewrite lookup_app_r in H by (rewrite length_replicate; lia).
      rewrite length_replicate in H.
      by replace (i + j - k)%nat with (S (i - S k + j))%nat in H by lia.
  - intros [i Hi]. exists (S k + i)%nat. intros j Hj.
    rewrite lookup_app_r by (rewrite length_replicate; lia). rewrite length_replicate.
    replace (S k + i + j - k)%nat with (S (i + j))%nat by lia. by apply Hi.
Qed.

Lemma streak_short n os : (length os < n)%nat → ¬ streak n os.
Proof.
  intros Hl [i Hi]. pose proof (lookup_lt_Some _ _ _ (Hi (n - 1)%nat ltac:(lia))). lia.
Qed.

Lemma streak_prefix n os : streak n (replicate n false ++ os).
Proof.
  exists 0%nat. intros j Hj. rewrite lookup_app_l by (rewrite length_replicate; lia).
  apply lookup_replicate. split; [done|lia].
Qed.

#[export] Hint Resolve go_index_Ret go_index_elem : go_db.
#[export] Hint Rewrite @zlen_zero : go_rw.
