(* ===== verification/GoInt.v ===== *)
(** Machine integers and time as the Go code uses them: [int] and [int64] are
    64-bit two's complement, [uint32] and [uint16] wrap modulo a power of two,
    the remainder truncates towards zero, and time is counted in
    nanoseconds. *)

From S2P Require Export Prelude.

#[local] Open Scope Z_scope.

(** ** Fixed-width integers *)

Definition max_int64 : Z := 9223372036854775807.
Definition min_int64 : Z := -9223372036854775808.

Definition wrap64 (z : Z) : Z := (z + 2 ^ 63) mod 2 ^ 64 - 2 ^ 63.
Definition u32 (z : Z) : Z := z mod 2 ^ 32.
Definition u16 (z : Z) : Z := z mod 2 ^ 16.

Definition is_int64 (z : Z) : Prop := min_int64 ≤ z ≤ max_int64.

(** [a % b] of Go for [b ≠ 0]. *)
Definition go_rem (a b : Z) : Z := Z.rem a b.

Lemma wrap64_id z : is_int64 z → wrap64 z = z.
Proof.
  unfold is_int64, min_int64, max_int64, wrap64. intros.
  rewrite Z.mod_small by lia. lia.
Qed.

Lemma wrap64_range z : is_int64 (wrap64 z).
Proof.
  unfold is_int64, min_int64, max_int64, wrap64.
  pose proof (Z.mod_pos_bound (z + 2 ^ 63) (2 ^ 64) ltac:(lia)). lia.
Qed.

Lemma wrap64_add_l a b : wrap64 (wrap64 a + b) = wrap64 (a + b).
Proof.
  unfold wrap64.
  replace ((a + 2 ^ 63) mod 2 ^ 64 - 2 ^ 63 + b + 2 ^ 63)
    with ((a + 2 ^ 63) mod 2 ^ 64 + b) by lia.
  rewrite Zplus_mod_idemp_l. f_equal. f_equal. lia.
Qed.

(** The pattern [atomic.AddInt64(&c, 1) - 1]: the value before the add, also
    when the add wrapped. *)
Lemma wrap64_succ_pred c : is_int64 c → wrap64 (wrap64 (c + 1) - 1) = c.
Proof.
  intros H. replace (wrap64 (c + 1) - 1) with (wrap64 (c + 1) + -1) by lia.
  rewrite wrap64_add_l. replace (c + 1 + -1) with c by lia. by apply wrap64_id.
Qed.

Lemma u32_range z : 0 ≤ u32 z < 2 ^ 32.
Proof. apply Z.mod_pos_bound. lia. Qed.

Lemma go_rem_range a n : 0 ≤ a → 0 < n → 0 ≤ go_rem a n < n.
Proof. intros. unfold go_rem. by apply Z.rem_bound_pos. Qed.

Lemma go_rem_mod a n : 0 ≤ a → 0 < n → go_rem a n = a mod n.
Proof. intros. unfold go_rem. rewrite Z.rem_mod_nonneg; lia. Qed.

Lemma go_rem_negative a n : a < 0 → 0 < n → go_rem a n ≤ 0.
Proof. intros. unfold go_rem. apply Z.rem_nonpos; lia. Qed.

#[export] Instance Z_divide_dec a b : Decision (a | b).
Proof.
  destruct (decide (a = 0)) as [->|Ha].
  - refine (cast_if (decide (b = 0))); [by exists 0; lia|intros [q ->]; lia].
  - refine (cast_if (decide (b mod a = 0))); by rewrite <- Z.mod_divide.
Defined.

(** ** Time and durations *)

(** A [time.Duration]: an [int64] of nanoseconds. *)
Abbreviation Duration := Z (only parsing).

Definition Nanosecond : Duration := 1.
Definition Millisecond : Duration := 1000000.
Definition Second : Duration := 1000000000.
Definition Minute : Duration := 60 * Second.

(** A [time.Time]: nanoseconds since the zero Time, January 1 of year 1, so
    that [IsZero] is a comparison with [0]. *)
Abbreviation Time := Z (only parsing).

Definition Time_zero : Time := 0.
Definition Time_IsZero (t : Time) : bool := bool_decide (t = Time_zero).
Definition Time_Add (t : Time) (d : Duration) : Time := t + d.
Definition Time_Before (t u : Time) : bool := bool_decide (t < u).

(** [t.Sub(u)] saturates at the limits of [Duration]. *)
Definition Time_Sub (t u : Time) : Duration :=
  Z.max min_int64 (Z.min max_int64 (t - u)).

(** Seconds from year 1 to 1970, in nanoseconds. *)
Definition unix_epoch : Z := 62135596800 * Second.
Definition Time_UnixNano (t : Time) : Z := wrap64 (t - unix_epoch).
(** [time.Unix(0, n)]. *)
Definition Time_of_UnixNano (n : Z) : Time := n + unix_epoch.

Lemma Time_Sub_id t u : is_int64 (t - u) → Time_Sub t u = t - u.
Proof. unfold is_int64, Time_Sub. lia. Qed.

Lemma Time_Sub_ge t u d :
  d ≤ max_int64 → min_int64 < d → (d ≤ Time_Sub t u ↔ d ≤ t - u).
Proof. unfold Time_Sub. lia. Qed.

Lemma Time_UnixNano_inv t :
  is_int64 (t - unix_epoch) → Time_of_UnixNano (Time_UnixNano t) = t.
Proof.
  intros H. unfold Time_of_UnixNano, Time_UnixNano. rewrite wrap64_id by done. lia.
Qed.

#[export] Hint Resolve wrap64_range u32_range : go_db.
#[export] Hint Rewrite wrap64_id using (by auto with go_db) : go_rw.
