(* ===== verification/GoString.v ===== *)
(** The parts of Go's [strings], [strconv], [net] and [hash/fnv] packages the
    program calls, on byte strings. *)

From Stdlib Require Import Ascii String.
From Stdlib Require Import DecimalString DecimalZ.
From S2P Require Export GoInt.

#[local] Open Scope string_scope.

(** ** Bytes and searching *)

Definition colon : ascii := ":"%char.
Definition slash : ascii := "/"%char.
Definition lbracket : ascii := "["%char.
Definition rbracket : ascii := "]"%char.

(** [strings.IndexByte], with [None] for -1. *)
Fixpoint index_byte (c : ascii) (s : string) : option nat :=
  match s with
  | EmptyString => None
  | String a s' => if decide (a = c) then Some 0%nat else S <$> index_byte c s'
  end.

(** [strings.LastIndexByte], with [None] for -1. *)
Fixpoint last_index_byte (c : ascii) (s : string) : option nat :=
  match s with
  | EmptyString => None
  | String a s' =>
      match last_index_byte c s' with
      | Some i => Some (S i)
      | None => if decide (a = c) then Some 0%nat else None
      end
  end.

(** [s[:n]] and [s[n:]]. *)
Fixpoint str_take (n : nat) (s : string) : string :=
  match n, s with
  | S n', String a s' => String a (str_take n' s')
  | _, _ => EmptyString
  end.
Fixpoint str_drop (n : nat) (s : string) : string :=
  match n, s with
  | O, _ => s
  | S n', String _ s' => str_drop n' s'
  | S _, EmptyString => EmptyString
  end.

Definition head_byte (s : string) : option ascii :=
  match s with EmptyString => None | String a _ => Some a end.
Fixpoint last_byte (s : string) : option ascii :=
  match s with
  | EmptyString => None
  | String a EmptyString => Some a
  | String _ s' => last_byte s'
  end.

(** The bytes of a string, [[]byte(s)]. *)
Definition bytes_of (s : string) : list Z :=
  (λ a, Z.of_N (N_of_ascii a)) <$> list_ascii_of_string s.

(** ** strings *)

(** [strings.Trim(s, c)] for a one-byte cutset. *)
Fixpoint trim_left (c : ascii) (s : string) : string :=
  match s with
  | EmptyString => EmptyString
  | String a s' => if decide (a = c) then trim_left c s' else s
  end.
Fixpoint trim_right (c : ascii) (s : string) : string :=
  match s with
  | EmptyString => EmptyString
  | String a s' =>
      match trim_right c s' with
      | EmptyString => if decide (a = c) then EmptyString else String a EmptyString
      | t => String a t
      end
  end.
Definition trim (c : ascii) (s : string) : string := trim_right c (trim_left c s).

(** [strings.Split(s, c)] for a one-byte separator. *)
Fixpoint split (c : ascii) (s : string) : list string :=
  match s with
  | EmptyString => [EmptyString]
  | String a s' =>
      if decide (a = c) then EmptyString :: split c s'
      else match split c s' with
           | h :: t => String a h :: t
           | [] => [String a EmptyString]
           end
  end.

Definition has_suffix (suf s : string) : bool :=
  bool_decide (String.length suf ≤ String.length s)%nat &&
  bool_decide (str_drop (String.length s - String.length suf) s = suf).

Definition trim_prefix (p s : string) : string :=
  if String.prefix p s then str_drop (String.length p) s else s.
Definition trim_suffix (suf s : string) : string :=
  if has_suffix suf s then str_take (String.length s - String.length suf) s else s.

Definition str_contains (s sub : string) : bool :=
  match String.index 0 sub s with Some _ => true | None => false end.

(** [strconv.Itoa] and the [%d] verb. *)
Definition itoa (z : Z) : string := NilZero.string_of_int (Z.to_int z).

(** ** net.SplitHostPort *)

Inductive addr_error :=
| MissingPort
| TooManyColons
| MissingBracket
| UnexpectedOpenBracket
| UnexpectedCloseBracket.

#[export] Instance addr_error_eq_dec : EqDecision addr_error.
Proof. solve_decision. Defined.

(** The result on success; on error Go returns two empty strings. *)
Definition SplitHostPort (hp : string) : (string * string) + addr_error :=
  match last_index_byte colon hp with
  | None => inr MissingPort
  | Some i =>
      let finish (host : string) (j k : nat) :=
        if decide (is_Some (index_byte lbracket (str_drop j hp)))
        then inr UnexpectedOpenBracket
        else if decide (is_Some (index_byte rbracket (str_drop k hp)))
        then inr UnexpectedCloseBracket
        else inl (host, str_drop (S i) hp) in
      if decide (head_byte hp = Some lbracket) then
        match index_byte rbracket hp with
        | None => inr MissingBracket
        | Some e =>
            if decide (S e = String.length hp) then inr MissingPort
            else if decide (S e = i) then finish (str_take (e - 1) (str_drop 1 hp)) 1%nat (S e)
            else if decide (head_byte (str_drop (S e) hp) = Some colon) then inr TooManyColons
            else inr MissingPort
        end
      else
        let host := str_take i hp in
        if decide (is_Some (index_byte colon host)) then inr TooManyColons
        else finish host 0%nat 0%nat
  end.

(** The first result of [net.SplitHostPort], as the caller sees it. *)
Definition split_host (hp : string) : string :=
  match SplitHostPort hp with inl (h, _) => h | inr _ => "" end.

Example split_v4 : SplitHostPort "10.0.0.1:80" = inl ("10.0.0.1", "80").
Proof. reflexivity. Qed.
Example split_v6 : SplitHostPort "[::1]:80" = inl ("::1", "80").
Proof. reflexivity. Qed.
Example split_bare_v6 : SplitHostPort "::1" = inr TooManyColons.
Proof. reflexivity. Qed.
Example split_list : SplitHostPort "1.2.3.4, 5.6.7.8" = inr MissingPort.
Proof. reflexivity. Qed.

(** ** hash/fnv, 32-bit FNV-1a *)

Definition fnv_offset32 : Z := 2166136261.
Definition fnv_prime32 : Z := 16777619.

Definition fnv_step (h b : Z) : Z := u32 (Z.lxor h b * fnv_prime32).
Definition fnv_sum32a (bs : list Z) : Z := fold_left fnv_step bs fnv_offset32.

Example fnv_empty : fnv_sum32a (bytes_of "") = 2166136261%Z.
Proof. reflexivity. Qed.
Example fnv_a : fnv_sum32a (bytes_of "a") = 0xE40C292C%Z.
Proof. reflexivity. Qed.
Example fnv_foobar : fnv_sum32a (bytes_of "foobar") = 0xBF9CF968%Z.
Proof. reflexivity. Qed.

(** ** Lemmas *)

Lemma fnv_sum32a_range bs : (0 ≤ fnv_sum32a bs < 2 ^ 32)%Z.
Proof.
  unfold fnv_sum32a. assert (0 ≤ fnv_offset32 < 2 ^ 32)%Z as H by (unfold fnv_offset32; lia).
  revert H. generalize fnv_offset32. induction bs as [|b bs IH]; intros h H; simpl; [done|].
  apply IH, u32_range.
Qed.

Lemma str_app_cons a s t : String a s +:+ t = String a (s +:+ t).
Proof. reflexivity. Qed.
Lemma str_app_nil_l t : "" +:+ t = t.
Proof. reflexivity. Qed.

(** Compute through appends, which stdpp keeps folded. *)
Ltac str_simp := rewrite ?str_app_nil_l, ?str_app_cons; simpl in *.

Lemma str_take_drop n s : str_take n s +:+ str_drop n s = s.
Proof. revert s. induction n; intros [|a s]; simpl; try done. by rewrite str_app_cons, IHn. Qed.

Lemma str_app_nil_r s : s +:+ "" = s.
Proof. induction s; str_simp; congruence. Qed.

Lemma str_app_assoc a b c : a +:+ (b +:+ c) = (a +:+ b) +:+ c.
Proof. induction a; str_simp; congruence. Qed.

Lemma str_length_app a b : String.length (a +:+ b) = (String.length a + String.length b)%nat.
Proof. induction a; str_simp; congruence. Qed.

Lemma str_drop_app a b : str_drop (String.length a) (a +:+ b) = b.
Proof. induction a; str_simp; auto. Qed.

Lemma str_take_app a b : str_take (String.length a) (a +:+ b) = a.
Proof. induction a; str_simp; [by destruct b|congruence]. Qed.

Lemma prefix_app a b : String.prefix a (a +:+ b) = true.
Proof. induction a as [|c a IH]; str_simp; [by destruct b|]. by destruct (ascii_dec c c). Qed.

Lemma trim_prefix_app p s : trim_prefix p (p +:+ s) = s.
Proof. unfold trim_prefix. by rewrite prefix_app, str_drop_app. Qed.

Lemma trim_suffix_app s suf : trim_suffix suf (s +:+ suf) = s.
Proof.
  unfold trim_suffix, has_suffix. rewrite str_length_app, Nat.add_sub, str_drop_app, str_take_app.
  rewrite !bool_decide_eq_true_2; (done || lia).
Qed.

Lemma split_not_nil c s : split c s ≠ [].
Proof. destruct s as [|a s]; simpl; [done|]. case_decide; [done|]. by destruct (split c s). Qed.

Lemma last_index_byte_app c a b :
  last_index_byte c b = None →
  last_index_byte c (a +:+ String c b) = Some (String.length a).
Proof.
  intros Hb. induction a as [|x a IH]; str_simp.
  - by rewrite Hb, decide_True.
  - by rewrite IH.
Qed.

Lemma index_last_None c s : index_byte c s = None ↔ last_index_byte c s = None.
Proof.
  induction s as [|a s IH]; simpl; [done|].
  destruct (index_byte c s), (last_index_byte c s); simpl in *; case_decide;
    intuition congruence.
Qed.

Lemma index_byte_app_None c a b :
  index_byte c a = None → index_byte c b = None → index_byte c (a +:+ b) = None.
Proof.
  intros Ha Hb. induction a as [|x a IH]; str_simp; [done|].
  case_decide; [done|]. destruct (index_byte c a); simpl in *; [done|]. by rewrite IH.
Qed.

(** A plain [host:port] splits at its colon. *)
Lemma SplitHostPort_plain h p :
  index_byte colon h = None → index_byte colon p = None →
  index_byte lbracket h = None → index_byte lbracket p = None →
  index_byte rbracket h = None → index_byte rbracket p = None →
  SplitHostPort (h +:+ String colon p) = inl (h, p).
Proof.
  intros Hc1 Hc2 Hl1 Hl2 Hr1 Hr2. unfold SplitHostPort.
  rewrite last_index_byte_app by (by apply index_last_None).
  assert (∀ c, c ≠ colon → index_byte c h = None → index_byte c p = None →
    index_byte c (h +:+ String colon p) = None) as Hno.
  { intros c Hne H1 H2. apply index_byte_app_None; [done|]. simpl. by rewrite decide_False, H2. }
  rewrite decide_False.
  2:{ destruct h as [|a h]; str_simp; [done|]. intros [= ->]. by rewrite decide_True in Hl1. }
  rewrite str_take_app, Hc1, decide_False by (by intros [? ?]). simpl.
  rewrite !Hno, !decide_False by (done || by intros [? ?]).
  do 2 f_equal. clear -h. induction h; str_simp; auto.
Qed.

(** Without a colon there is no port, and the caller gets an empty host. *)
Lemma SplitHostPort_no_colon s :
  index_byte colon s = None → SplitHostPort s = inr MissingPort.
Proof. intros H%index_last_None. unfold SplitHostPort. by rewrite H. Qed.

(** [strings.Join(elems, sep)]. *)
Definition strings_Join (elems : list string) (sep : string) : string :=
  match elems with
  | [] => ""
  | e :: elems' => fold_left (λ acc x, acc +:+ sep +:+ x) elems' e
  end.

#[export] Hint Rewrite trim_prefix_app trim_suffix_app str_app_nil_r : go_rw.

(** The last byte of a concatenation with a string that is not empty. *)
Lemma last_byte_app a b : b ≠ "" → last_byte (a +:+ b) = last_byte b.
Proof.
  intros Hb. induction a as [|x a IH]; [done|]. rewrite str_app_cons. cbn [last_byte]. rewrite IH.
  destruct (a +:+ b) eqn:E; [|done]. exfalso. apply Hb. by destruct a.
Qed.
