(* ===== verification/GoHttp.v ===== *)
(** HTTP headers and requests, as [net/http] and [net/textproto] define them. *)

From Stdlib Require Import Ascii String.
From S2P Require Export GoString.

#[local] Open Scope string_scope.

(** ** Canonical header names *)

Definition is_upper (a : ascii) : bool :=
  bool_decide (65 ≤ N_of_ascii a ≤ 90)%N.
Definition is_lower (a : ascii) : bool :=
  bool_decide (97 ≤ N_of_ascii a ≤ 122)%N.
Definition is_digit (a : ascii) : bool :=
  bool_decide (48 ≤ N_of_ascii a ≤ 57)%N.

(** The bytes RFC 7230 allows in a header name. *)
Definition valid_header_byte (a : ascii) : bool :=
  is_upper a || is_lower a || is_digit a ||
  bool_decide (a ∈ list_ascii_of_string "!#$%&'*+-.^_`|~").

Definition to_upper (a : ascii) : ascii :=
  if is_lower a then ascii_of_N (N_of_ascii a - 32) else a.
Definition to_lower (a : ascii) : ascii :=
  if is_upper a then ascii_of_N (N_of_ascii a + 32) else a.

(** [up]: the next letter starts a word. *)
Fixpoint canon_bytes (up : bool) (s : string) : string :=
  match s with
  | EmptyString => EmptyString
  | String a s' =>
      let a' := if up then to_upper a else to_lower a in
      String a' (canon_bytes (bool_decide (a' = "-"%char)) s')
  end.

Fixpoint all_valid (s : string) : bool :=
  match s with
  | EmptyString => true
  | String a s' => valid_header_byte a && all_valid s'
  end.

(** [textproto.CanonicalMIMEHeaderKey]: a name with an invalid byte is kept. *)
Definition canonical_key (s : string) : string :=
  if all_valid s then canon_bytes true s else s.

Example canonical_xff : canonical_key "x-forwarded-FOR" = "X-Forwarded-For".
Proof. reflexivity. Qed.
Example canonical_rid : canonical_key "X-Request-ID" = "X-Request-Id".
Proof. reflexivity. Qed.

(** ** http.Header *)

Abbreviation Header := (gmap string (list string)).

Definition Header_Get (h : Header) (k : string) : string :=
  match h !! canonical_key k with Some (v :: _) => v | _ => "" end.
Definition Header_Set (k v : string) (h : Header) : Header :=
  <[canonical_key k := [v]]> h.
Definition Header_Del (k : string) (h : Header) : Header :=
  delete (canonical_key k) h.

(** ** context.Context *)

(** Keys compare by their type and value; the values the program stores are
    strings and backend pointers. *)
Record ctx_key := mkCtxKey { key_type : string; key_value : string }.

#[export] Instance ctx_key_eq_dec : EqDecision ctx_key.
Proof. solve_decision. Defined.

Inductive ctx_value :=
| CtxString (s : string)
| CtxPointer (l : nat).

Definition context : Type := list (ctx_key * ctx_value).

Definition context_WithValue (c : context) (k : ctx_key) (v : ctx_value) : context := (k, v) :: c.

(** The innermost value of the key. *)
Fixpoint context_Value (c : context) (k : ctx_key) : option ctx_value :=
  match c with
  | [] => None
  | (k', v) :: c' => if decide (k' = k) then Some v else context_Value c' k
  end.

(** ** http.Request, the fields the program reads or writes *)

Record Request := mkRequest {
  req_Method : string;
  req_Host : string;
  req_RemoteAddr : string;
  req_Header : Header;
  req_Scheme : string;     (* URL.Scheme *)
  req_URLHost : string;    (* URL.Host *)
  req_Path : string;       (* URL.Path *)
  req_RawQuery : string;   (* URL.RawQuery *)
  req_TLS : bool;          (* TLS != nil *)
  req_Ctx : context;
}.

(** [r.WithContext(c)] *)
Definition WithContext (c : context) (r : Request) : Request :=
  mkRequest (req_Method r) (req_Host r) (req_RemoteAddr r) (req_Header r) (req_Scheme r) (req_URLHost r)
    (req_Path r) (req_RawQuery r) (req_TLS r) c.

(** ** Lemmas *)

Lemma Header_Set_lookup k k' v h :
  Header_Set k v h !! canonical_key k' =
    if decide (canonical_key k = canonical_key k') then Some [v] else h !! canonical_key k'.
Proof. unfold Header_Set. rewrite lookup_insert. by case_decide. Qed.

Lemma Header_Get_Set k k' v h :
  Header_Get (Header_Set k v h) k' =
    if decide (canonical_key k = canonical_key k') then v else Header_Get h k'.
Proof.
  unfold Header_Get, Header_Set. rewrite lookup_insert. by case_decide.
Qed.

Lemma Header_Get_Set_eq k v h : Header_Get (Header_Set k v h) k = v.
Proof. by rewrite Header_Get_Set, decide_True. Qed.

Lemma Header_Get_Del_eq k h : Header_Get (Header_Del k h) k = "".
Proof. unfold Header_Get, Header_Del. by rewrite lookup_delete_eq. Qed.

#[export] Hint Rewrite Header_Get_Set_eq Header_Get_Del_eq : go_rw.
