(* ===== verification/GoMux.v ===== *)
(** What the admin server uses of [net/url] and of [net/http.ServeMux] (Go
    1.22): percent-encoding of paths, path cleaning, patterns of a method and a
    path, and the choice of the handler, with its redirects and its 405. *)

From Stdlib Require Import Ascii String.
From S2P Require Export GoHttp.

#[local] Open Scope string_scope.

(** ** Percent-encoding *)

Definition percent : ascii := "%"%char.
Definition question : ascii := "?"%char.
Definition tab : ascii := ascii_of_N 9.

Definition unhex (a : ascii) : option N :=
  let n := N_of_ascii a in
  if decide (48 ≤ n ≤ 57)%N then Some (n - 48)%N
  else if decide (97 ≤ n ≤ 102)%N then Some (n - 87)%N
  else if decide (65 ≤ n ≤ 70)%N then Some (n - 55)%N
  else None.

(** A digit of [upperhex]. *)
Definition hex_digit (n : N) : ascii :=
  if decide (n < 10)%N then ascii_of_N (n + 48) else ascii_of_N (n + 55).

(** [url.PathUnescape], and [unescape] in path mode; nothing for an error. *)
Fixpoint path_unescape (s : string) : option string :=
  match s with
  | EmptyString => Some EmptyString
  | String a s' =>
      if decide (a = percent) then
        match s' with
        | String x (String y t) =>
            match unhex x, unhex y with
            | Some h, Some l => String (ascii_of_N (16 * h + l)) <$> path_unescape t
            | _, _ => None
            end
        | _ => None
        end
      else String a <$> path_unescape s'
  end.

(** [pathUnescape] of the mux: a segment that does not decode stays as it is. *)
Definition unesc (s : string) : string := default s (path_unescape s).

Definition percent_encode (a : ascii) (s : string) : string :=
  let n := N_of_ascii a in
  String percent (String (hex_digit (n / 16)) (String (hex_digit (n mod 16)) s)).

(** [shouldEscape(c, encodePath)]. *)
Definition should_escape (a : ascii) : bool :=
  negb (is_upper a || is_lower a || is_digit a ||
        bool_decide (a ∈ list_ascii_of_string "-_.~$&+,/:;=@")).

(** [escape(s, encodePath)]. *)
Fixpoint path_escape (s : string) : string :=
  match s with
  | EmptyString => EmptyString
  | String a s' => if should_escape a then percent_encode a (path_escape s') else String a (path_escape s')
  end.

(** [validEncoded(s, encodePath)]. *)
Fixpoint valid_encoded (s : string) : bool :=
  match s with
  | EmptyString => true
  | String a s' =>
      (bool_decide (a ∈ list_ascii_of_string "!$&'()*+,;=:@[]%") || negb (should_escape a)) &&
      valid_encoded s'
  end.

(** [u.EscapedPath()] of the URL that a request target with the path [raw]
    parses to; [path] is the decoded path. *)
Definition escaped_path (raw path : string) : string :=
  if decide (raw = path_escape path) then (if decide (path = "*") then "*" else path_escape path)
  else if valid_encoded raw then raw
  else if decide (path = "*") then "*" else path_escape path.

(** ** Request targets *)

(** The bytes a request target may contain: a space ends it in the request
    line, and [url.Parse] refuses control bytes. *)
Fixpoint target_bytes (s : string) : bool :=
  match s with
  | EmptyString => true
  | String a s' => bool_decide (32 < N_of_ascii a ∧ N_of_ascii a ≠ 127)%N && target_bytes s'
  end.

(** The index of the colon that ends a run of scheme bytes. *)
Fixpoint scheme_len (s : string) : option nat :=
  match s with
  | EmptyString => None
  | String a s' =>
      if decide (a = colon) then Some O
      else if is_upper a || is_lower a || is_digit a || bool_decide (a ∈ list_ascii_of_string "+-.")
           then S <$> scheme_len s'
           else None
  end.

(** [getScheme]: the scheme, empty when there is none, and the rest; an error
    for an empty scheme before a colon. *)
Definition get_scheme (raw : string) : option (string * string) :=
  match raw with
  | EmptyString => Some ("", raw)
  | String a _ =>
      if is_digit a || bool_decide (a ∈ list_ascii_of_string "+-.") then Some ("", raw)
      else match scheme_len raw with
           | Some O => None
           | Some n => Some (str_take n raw, str_drop (S n) raw)
           | None => Some ("", raw)
           end
  end.

(** [strings.Cut] at the first byte [c]. *)
Definition cut_at (c : ascii) (s : string) : string * string :=
  match index_byte c s with Some i => (str_take i s, str_drop (S i) s) | None => (s, "") end.

Section target.
(** Whether [url.parseAuthority] accepts an authority. *)
Variable valid_authority : string → bool.

(** [url.ParseRequestURI], up to the decoding of the path: the path as it was
    sent and the query, or an error. *)
Definition ParseRequestURI (raw : string) : option (string * string) :=
  if negb (target_bytes raw) then None
  else if decide (raw = "") then None
  else if decide (raw = "*") then Some ("*", "")
  else match get_scheme raw with
  | None => None
  | Some (scheme, rest) =>
      let '(path, query) := cut_at question rest in
      if decide (head_byte path ≠ Some slash) then
        if decide (scheme = "") then None else Some ("", query)
      else if decide (scheme ≠ "") then
        if String.prefix "//" path then
          let authority := str_drop 2 path in
          let '(host, path) :=
            match index_byte slash authority with
            | Some i => (str_take i authority, str_drop i authority)
            | None => (authority, "")
            end in
          if valid_authority host then Some (path, query) else None
        else Some (path, query)
      else Some (path, query)
  end.

(** [readRequest]: the target of CONNECT may be an authority alone. *)
Definition read_target (method target : string) : option (string * string) :=
  ParseRequestURI
    (if decide (method = "CONNECT" ∧ head_byte target ≠ Some slash) then "http://" +:+ target else target).
End target.

(** ** Paths *)

(** The loop of [path.Clean] on the elements of a rooted path; [out] holds what
    is kept, last element first. *)
Fixpoint clean_loop (out segs : list string) : list string :=
  match segs with
  | [] => rev out
  | s :: segs' =>
      if decide (s = "" ∨ s = ".") then clean_loop out segs'
      else if decide (s = "..") then clean_loop (tail out) segs'
      else clean_loop (s :: out) segs'
  end.

Fixpoint rooted (segs : list string) : string :=
  match segs with [] => "" | s :: segs' => String slash (s +:+ rooted segs') end.

(** [path.Clean] of a rooted path. *)
Definition path_Clean (p : string) : string :=
  let np := rooted (clean_loop [] (split slash p)) in
  if decide (np = "") then "/" else np.

(** [cleanPath] of [net/http]: the trailing slash is put back. *)
Definition clean_path (p : string) : string :=
  let p := if decide (head_byte p = Some slash) then p else String slash p in
  let np := path_Clean p in
  if decide (last_byte p = Some slash ∧ np ≠ "/") then np +:+ "/" else np.

(** The segments of a rooted path; a trailing slash is an empty last one. *)
Definition path_segs (p : string) : list string := split slash (str_drop 1 p).

(** ** Patterns *)

(** A method (or none), literal segments, and whether a trailing slash makes it
    a subtree. *)
Record pattern := mkPattern {
  pt_method : string;
  pt_lits : list string;
  pt_multi : bool;
}.

#[export] Instance pattern_eq_dec : EqDecision pattern.
Proof. solve_decision. Defined.

(** [parsePattern]; nothing where it fails, and for hosts and wildcards, which
    the program does not use. *)
Definition parse_pattern (s : string) : option pattern :=
  let '(method, rest) :=
    match index_byte " "%char s with
    | Some i => (str_take i s, trim_left " "%char (str_drop (S i) s))
    | None => ("", s)
    end in
  if decide (head_byte rest ≠ Some slash) then None
  else if str_contains rest "{" then None
  else if decide (method ≠ "" ∧ method ≠ "CONNECT" ∧ rest ≠ clean_path rest) then None
  else
    let segs := path_segs rest in
    if decide (last segs = Some "") then Some (mkPattern method (unesc <$> removelast segs) true)
    else Some (mkPattern method (unesc <$> segs) false).

(** Every request [q] matches, [p] matches: in the method, in the path. *)
Definition method_covers (p q : pattern) : bool :=
  bool_decide (pt_method p = "" ∨ pt_method p = pt_method q).
Definition path_covers (p q : pattern) : bool :=
  if pt_multi p
  then bool_decide (take (length (pt_lits p)) (pt_lits q) = pt_lits p) &&
       (pt_multi q || bool_decide (length (pt_lits p) < length (pt_lits q))%nat)
  else negb (pt_multi q) && bool_decide (pt_lits p = pt_lits q).
Definition pattern_covers (p q : pattern) : bool := method_covers p q && path_covers p q.

(** [conflictsWith]: some request matches both and neither is more specific. *)
Definition conflicts (p q : pattern) : bool :=
  (method_covers p q || method_covers q p) && (path_covers p q || path_covers q p) &&
  eqb (pattern_covers p q) (pattern_covers q p).

(** ** The mux *)

Section mux.
Context {H : Type}.

Abbreviation Mux := (list (pattern * H)).

(** [mux.HandleFunc(pattern, handler)] panics on a pattern that does not parse
    or conflicts with one already registered. *)
Definition HandleFunc (pat : string) (h : H) : M Mux () := λ mux,
  match parse_pattern pat with
  | None => (Panic Explicit, mux)
  | Some p =>
      if existsb (λ q, conflicts p q.1) mux then (Panic Explicit, mux)
      else (Ret tt, app mux [(p, h)])
  end.

Fixpoint match_segs (lits : list string) (multi : bool) (segs : list string) : bool :=
  match lits, segs with
  | [], [] => negb multi
  | [], _ :: _ => multi
  | l :: lits', s :: segs' => bool_decide (unesc s = l) && match_segs lits' multi segs'
  | _ :: _, [] => false
  end.

(** Of two patterns that match a path the one with more literals is more
    specific; the tree tries literals first. *)
Fixpoint most_specific (best : option (pattern * H)) (ps : Mux) : option (pattern * H) :=
  match ps with
  | [] => best
  | p :: ps' =>
      most_specific
        (match best with
         | Some b => if decide (length (pt_lits b.1) < length (pt_lits p.1))%nat then Some p else Some b
         | None => Some p
         end) ps'
  end.

(** [matchPath] below the node of the method. *)
Definition match_path (mux : Mux) (method : string) (segs : list string) : option (pattern * H) :=
  most_specific None
    (List.filter (λ p, bool_decide (pt_method p.1 = method) && match_segs (pt_lits p.1) (pt_multi p.1) segs) mux).

(** [matchMethodAndPath]: GET handlers take HEAD too; then patterns without a
    method. *)
Definition mux_match (mux : Mux) (method : string) (segs : list string) : option (pattern * H) :=
  match match_path mux method segs with
  | Some p => Some p
  | None =>
      match (if decide (method = "HEAD") then match_path mux "GET" segs else None) with
      | Some p => Some p
      | None => match_path mux "" segs
      end
  end.

(** [exactMatch]: the pattern matched without taking up more segments. *)
Definition exact_match (m : option (pattern * H)) (segs : list string) : bool :=
  match m with
  | None => false
  | Some (p, _) =>
      negb (pt_multi p) ||
      (bool_decide (last segs = Some "") && bool_decide (length segs = S (length (pt_lits p))))
  end.

Inductive dispatch :=
| DHandle (h : H)
| DRedirect (path : string)           (* 301 *)
| DMethodNotAllowed (allow : string)  (* 405, with the header Allow *)
| DNotFound.                          (* 404 *)

(** The methods of a fixed list, sorted, that some pattern would take. *)
Definition method_matches (mux : Mux) (segs : list string) (method : string) : bool :=
  existsb (λ p, bool_decide (pt_method p.1 = method ∨ (method = "HEAD" ∧ pt_method p.1 = "GET")) &&
                match_segs (pt_lits p.1) (pt_multi p.1) segs) mux.

Definition http_methods : list string :=
  ["CONNECT"; "DELETE"; "GET"; "HEAD"; "OPTIONS"; "PATCH"; "POST"; "PUT"; "TRACE"].

(** [matchingMethods]: also those that match with a slash added. *)
Definition matching_methods (mux : Mux) (path : string) : list string :=
  List.filter (λ m, method_matches mux (path_segs path) m ||
                    method_matches mux (path_segs (path +:+ "/")) m) http_methods.

(** [findHandler]; [escaped] is the escaped path of the request, [path] the
    decoded one. *)
Definition mux_dispatch (mux : Mux) (method escaped path : string) : dispatch :=
  let connect := bool_decide (method = "CONNECT") in
  let p := if connect then escaped else clean_path escaped in
  let n := mux_match mux method (path_segs p) in
  let segs' := path_segs (p +:+ "/") in
  if negb (exact_match n (path_segs p)) && negb (bool_decide (last_byte p = Some slash)) &&
     negb (bool_decide (p = "")) && exact_match (mux_match mux method segs') segs'
  then DRedirect (clean_path path +:+ "/")
  else if negb connect && negb (bool_decide (p = escaped)) then DRedirect p
  else
    match n with
    | Some (_, h) => DHandle h
    | None =>
        match matching_methods mux p with
        | [] => DNotFound
        | ms => DMethodNotAllowed (strings_Join ms ", ")
        end
    end.
End mux.
Arguments dispatch : clear implicits.

(** ** Lemmas *)

(** The sixteen values of a hexadecimal digit. *)
Ltac hex_cases n Hn :=
  let Hc := fresh in
  assert (n = 0 ∨ n = 1 ∨ n = 2 ∨ n = 3 ∨ n = 4 ∨ n = 5 ∨ n = 6 ∨ n = 7 ∨ n = 8 ∨ n = 9 ∨
          n = 10 ∨ n = 11 ∨ n = 12 ∨ n = 13 ∨ n = 14 ∨ n = 15)%N as Hc by lia;
  destruct_or! Hc; subst n.

Lemma unhex_digit n : (n < 16)%N → unhex (hex_digit n) = Some n.
Proof.
  intros Hn. hex_cases n Hn; reflexivity.
Qed.

Lemma N_of_ascii_bound a : (N_of_ascii a < 256)%N.
Proof. by destruct a as [[] [] [] [] [] [] [] []]. Qed.

(** Every byte written as a percent escape. *)
Fixpoint percent_all (s : string) : string :=
  match s with EmptyString => EmptyString | String a s' => percent_encode a (percent_all s') end.

Lemma unescape_percent_encode a s :
  path_unescape (percent_encode a s) = String a <$> path_unescape s.
Proof.
  pose proof (N_of_ascii_bound a). unfold percent_encode. cbn [path_unescape].
  rewrite decide_True by done.
  rewrite !unhex_digit by (first [apply N.Div0.div_lt_upper_bound | apply N.mod_lt]; lia).
  rewrite <- N.div_mod by lia. by rewrite ascii_N_embedding.
Qed.

(** Decoding undoes [url.PathEscape]-style encoding, for every byte string. *)
Lemma unescape_percent_all s : path_unescape (percent_all s) = Some s.
Proof. induction s as [|a s IH]; [done|]. cbn [percent_all]. by rewrite unescape_percent_encode, IH. Qed.

Lemma unescape_plain a s :
  a ≠ percent → path_unescape (String a s) = String a <$> path_unescape s.
Proof. intros Ha. cbn [path_unescape]. by rewrite decide_False. Qed.

Lemma unescape_escape s : path_unescape (path_escape s) = Some s.
Proof.
  induction s as [|a s IH]; [done|]. cbn [path_escape]. destruct (should_escape a) eqn:E.
  - by rewrite unescape_percent_encode, IH.
  - rewrite unescape_plain, IH; [done|]. intros ->. by vm_compute in E.
Qed.

(** *** Strings without a given byte *)

Lemma unescape_app_plain a b :
  index_byte percent a = None → path_unescape (a +:+ b) = (λ y, a +:+ y) <$> path_unescape b.
Proof.
  induction a as [|c a IH]; intros Ha; str_simp; [by destruct (path_unescape b)|].
  case_decide; [done|]. destruct (index_byte percent a); [done|].
  rewrite IH by done. by destruct (path_unescape b).
Qed.

Lemma valid_encoded_app a b : valid_encoded (a +:+ b) = valid_encoded a && valid_encoded b.
Proof. induction a as [|c a IH]; str_simp; [done|]. by rewrite IH, andb_assoc. Qed.

(** The bytes of an encoded string. *)
Lemma percent_encode_bytes a :
  ∃ h l : N, (h < 16)%N ∧ (l < 16)%N ∧
    ∀ s, percent_encode a s = String percent (String (hex_digit h) (String (hex_digit l) s)).
Proof.
  pose proof (N_of_ascii_bound a). exists (N_of_ascii a / 16)%N, (N_of_ascii a mod 16)%N.
  split_and!; [apply N.Div0.div_lt_upper_bound; lia|by apply N.mod_lt|done].
Qed.

Lemma hex_digit_plain n : (n < 16)%N → hex_digit n ≠ slash ∧ valid_encoded (String (hex_digit n) "") = true.
Proof.
  intros Hn. hex_cases n Hn; by split.
Qed.

Lemma percent_all_valid s : valid_encoded (percent_all s) = true.
Proof.
  induction s as [|a s IH]; [done|]. cbn [percent_all].
  destruct (percent_encode_bytes a) as (h & l & Hh & Hl & ->).
  apply hex_digit_plain in Hh as [_ Hh], Hl as [_ Hl].
  cbn [valid_encoded] in *. rewrite IH. apply andb_prop in Hh as [-> _], Hl as [-> _]. done.
Qed.

Lemma percent_all_no_slash s : index_byte slash (percent_all s) = None.
Proof.
  induction s as [|a s IH]; [done|]. cbn [percent_all].
  destruct (percent_encode_bytes a) as (h & l & Hh & Hl & ->).
  apply hex_digit_plain in Hh as [Hh _], Hl as [Hl _].
  cbn [index_byte]. rewrite IH, !decide_False by done. done.
Qed.

Lemma percent_all_head s : s ≠ "" → ∃ t, percent_all s = String percent t.
Proof. destruct s as [|a s]; [done|]. intros _. by eexists. Qed.

(** A valid encoding is kept as the client sent it. *)
Lemma escaped_path_valid raw path :
  valid_encoded raw = true → path ≠ "*" → escaped_path raw path = raw.
Proof.
  intros Hv Hp. unfold escaped_path. rewrite Hv. case_decide as Hr; [|done].
  by rewrite decide_False.
Qed.

(** *** Request targets *)

Lemma target_bytes_app a b : target_bytes (a +:+ b) = target_bytes a && target_bytes b.
Proof. induction a as [|x a IH]; [done|]. rewrite str_app_cons. cbn [target_bytes]. by rewrite IH, andb_assoc. Qed.

Lemma percent_encode_plain a s :
  target_bytes (percent_encode a s) = target_bytes s ∧
  (index_byte question s = None → index_byte question (percent_encode a s) = None).
Proof.
  destruct a as [[] [] [] [] [] [] [] []]; (split; [reflexivity|]); cbn; by intros ->.
Qed.

Lemma percent_all_target s : target_bytes (percent_all s) = true ∧ index_byte question (percent_all s) = None.
Proof.
  induction s as [|a s [IH1 IH2]]; [done|]. cbn [percent_all].
  destruct (percent_encode_plain a (percent_all s)) as [-> H]. split; [done|by apply H].
Qed.

Lemma scheme_len_no_colon s : index_byte colon s = None → scheme_len s = None.
Proof.
  induction s as [|a s IH]; [done|]. cbn [index_byte scheme_len]. intros H. case_decide; [done|].
  destruct (_ || _); [|done]. rewrite IH; [done|]. by destruct (index_byte colon s).
Qed.

Section target_lemmas.
Variable valid_authority : string → bool.

(** A target in origin form without a query is a path. *)
Lemma ParseRequestURI_path s :
  target_bytes s = true → head_byte s = Some slash → index_byte question s = None →
  ParseRequestURI valid_authority s = Some (s, "").
Proof.
  destruct s as [|a s]; [done|]. intros Hb [= ->] Hq. unfold ParseRequestURI, cut_at. rewrite Hb.
  assert (get_scheme (String slash s) = Some ("", String slash s)) as -> by reflexivity.
  cbn [negb]. rewrite Hq. reflexivity.
Qed.

Lemma ParseRequestURI_bytes s : target_bytes s = false → ParseRequestURI valid_authority s = None.
Proof. intros H. unfold ParseRequestURI. by rewrite H. Qed.

(** Neither a path nor a URL. *)
Lemma ParseRequestURI_relative s :
  head_byte s ≠ Some slash → s ≠ "*" → index_byte colon s = None → ParseRequestURI valid_authority s = None.
Proof.
  intros Hh Hs Hc. unfold ParseRequestURI. destruct (negb _); [done|]. case_decide; [done|].
  rewrite decide_False by done. assert (get_scheme s = Some ("", s)) as ->.
  { unfold get_scheme. destruct s as [|a s]; [done|]. destruct (_ || _); [done|].
    by rewrite scheme_len_no_colon. }
  unfold cut_at. destruct (index_byte question s) as [i|] eqn:Ei; [|by rewrite decide_True].
  rewrite decide_True; [done|]. destruct s as [|a s]; [done|]. destruct i as [|i]; [done|]. done.
Qed.
End target_lemmas.

(** *** Rooted paths *)

(** A segment that cleaning keeps. *)
Definition plain_seg (s : string) : Prop :=
  index_byte slash s = None ∧ s ≠ "" ∧ s ≠ "." ∧ s ≠ "..".

#[export] Instance plain_seg_dec s : Decision (plain_seg s).
Proof. unfold plain_seg. apply _. Defined.

Lemma percent_all_plain s : s ≠ "" → plain_seg (percent_all s).
Proof.
  intros Hs. split; [apply percent_all_no_slash|].
  destruct (percent_all_head s Hs) as [t ->]. done.
Qed.

Lemma split_no_sep c s : index_byte c s = None → split c s = [s].
Proof.
  induction s as [|a s IH]; simpl; [done|]. case_decide; [done|].
  destruct (index_byte c s); [done|]. intros _. by rewrite IH.
Qed.

Lemma split_app_sep c a b :
  index_byte c a = None → split c (a +:+ String c b) = a :: split c b.
Proof.
  induction a as [|x a IH]; intros Ha; str_simp.
  - by rewrite decide_True.
  - case_decide; [done|]. destruct (index_byte c a); [done|]. by rewrite IH.
Qed.

Lemma split_sep c s : split c (String c s) = "" :: split c s.
Proof. simpl. by rewrite decide_True. Qed.

Lemma split_rooted_seg s segs :
  Forall (λ s, index_byte slash s = None) (s :: segs) → split slash (s +:+ rooted segs) = s :: segs.
Proof.
  revert s. induction segs as [|s' segs IH]; intros s [Hs H]%Forall_cons; simpl.
  - by rewrite str_app_nil_r, split_no_sep.
  - rewrite split_app_sep by done. f_equal. by apply IH.
Qed.

Lemma path_segs_rooted s segs :
  Forall (λ s, index_byte slash s = None) (s :: segs) → path_segs (rooted (s :: segs)) = s :: segs.
Proof. intros H. by apply split_rooted_seg. Qed.

Lemma clean_loop_plain out segs :
  Forall plain_seg segs → clean_loop out segs = app (rev out) segs.
Proof.
  revert out. induction segs as [|s segs IH]; intros out H; simpl; [by rewrite app_nil_r|].
  apply Forall_cons in H as [(_ & H1 & H2 & H3) H].
  rewrite decide_False by (by intros [?|?]). rewrite decide_False by done.
  rewrite IH by done. simpl. by rewrite <- app_assoc.
Qed.

Lemma plain_no_slash segs : Forall plain_seg segs → Forall (λ s, index_byte slash s = None) segs.
Proof. intros H. eapply Forall_impl; [exact H|]. by intros s []. Qed.

Lemma path_Clean_rooted s segs :
  Forall plain_seg (s :: segs) → path_Clean (rooted (s :: segs)) = rooted (s :: segs).
Proof.
  intros H. unfold path_Clean. cbn [rooted]. rewrite split_sep.
  rewrite split_rooted_seg by (by apply plain_no_slash). 
  replace (clean_loop [] ("" :: s :: segs)) with (clean_loop [] (s :: segs)) by done.
  rewrite clean_loop_plain by done. cbn [rev app rooted].
  by rewrite decide_False.
Qed.

Lemma last_byte_no_slash s : index_byte slash s = None → last_byte s ≠ Some slash.
Proof.
  induction s as [|a s IH]; simpl; [done|]. case_decide as Ha; [done|].
  destruct (index_byte slash s); [done|]. intros _. destruct s; [by intros [= ?]|by apply IH].
Qed.

Lemma rooted_last_byte segs : Forall plain_seg segs → last_byte (rooted segs) ≠ Some slash.
Proof.
  induction segs as [|s segs IH]; intros H; [done|].
  apply Forall_cons in H as [(H1 & H2 & _) H]. cbn [rooted].
  change (String slash (s +:+ rooted segs)) with (String slash "" +:+ (s +:+ rooted segs)).
  rewrite last_byte_app by (destruct s; done).
  destruct segs as [|s' segs]; [rewrite str_app_nil_r; by apply last_byte_no_slash|].
  rewrite last_byte_app by done. by apply IH.
Qed.

(** Cleaning keeps a path of plain segments. *)
Lemma clean_path_rooted s segs :
  Forall plain_seg (s :: segs) → clean_path (rooted (s :: segs)) = rooted (s :: segs).
Proof.
  intros H. unfold clean_path.
  destruct (decide (head_byte (rooted (s :: segs)) = Some slash)) as [_|Hn]; [|by destruct Hn].
  rewrite path_Clean_rooted by done.
  rewrite decide_False; [done|]. intros [Hl _]. by apply rooted_last_byte in Hl.
Qed.

Lemma path_segs_slash p : path_segs (p +:+ "/") = if decide (p = "") then [""] else app (path_segs p) [""].
Proof.
  unfold path_segs. destruct p as [|a p]; [done|]. rewrite decide_False by done. str_simp.
  clear a. induction p as [|a p IH]; str_simp; [done|]. rewrite IH. case_decide; [done|].
  destruct (split slash p) eqn:E; [by apply split_not_nil in E|]. done.
Qed.

Lemma last_byte_segs p :
  p ≠ "" → head_byte p = Some slash → last_byte p = Some slash ↔ last (path_segs p) = Some "".
Proof.
  unfold path_segs. destruct p as [|a p]; [done|]. intros _ [= ->].
  change (str_drop 1 (String slash p)) with p.
  induction p as [|a p IH]; [done|]. cbn [split].
  assert (last_byte (String slash (String a p)) = last_byte (String a p)) as -> by done.
  case_decide as Ha.
  - subst a. rewrite IH. destruct (split slash p) eqn:E; [by apply split_not_nil in E|].
    by rewrite last_cons_cons.
  - destruct p as [|b p].
    + simpl. split; [intros [= ?]; done|done].
    + change (last_byte (String a (String b p))) with (last_byte (String slash (String b p))). rewrite IH.
      destruct (split slash (String b p)) as [|h t] eqn:E; [by apply split_not_nil in E|].
      destruct t as [|h' t]; [|by rewrite !last_cons_cons].
      simpl. split; [|done]. intros [= ->]. simpl in E. case_decide.
      * injection E as E. by apply split_not_nil in E.
      * by destruct (split slash p).
Qed.

(** *** Matching *)

Lemma match_segs_exact lits segs :
  match_segs lits false segs = bool_decide (unesc <$> segs = lits).
Proof.
  revert segs. induction lits as [|l lits IH]; intros [|s segs]; try done.
  cbn [match_segs]. rewrite IH, fmap_cons. by repeat case_bool_decide; simplify_eq.
Qed.

Lemma match_segs_multi lits segs :
  match_segs lits true segs =
    bool_decide (take (length lits) (unesc <$> segs) = lits ∧ (length lits < length segs)%nat).
Proof.
  revert segs. induction lits as [|l lits IH]; intros [|s segs]; cbn [match_segs length take].
  - symmetry. apply bool_decide_eq_false_2. intros [_ H]. lia.
  - symmetry. apply bool_decide_eq_true_2. split; [done|lia].
  - symmetry. apply bool_decide_eq_false_2. intros [H _]. done.
  - rewrite IH, fmap_cons. cbn [take]. rewrite <- bool_decide_and. apply bool_decide_ext.
    split; intros H; destruct_and!; simplify_eq; split_and!; try done; lia || congruence.
Qed.

Lemma exact_match_None {H : Type} segs : exact_match (H:=H) None segs = false.
Proof. done. Qed.

Lemma unesc_slash segs : unesc <$> app segs [""] = app (unesc <$> segs) [""].
Proof. by rewrite fmap_app. Qed.
