(* ===== verification/BackendPool.v ===== *)
(** The backends and the pool that owns them (internal/backend).

    Backends are shared by pointer: the pool, the slot table of the weighted
    selector and the hash ring all hold the same [*Backend].  The model keeps
    them in a [store] indexed by [loc]; a location that is not allocated reads
    as a nil pointer, so dereferencing it panics. *)

From S2P Require Export GoInt.

#[local] Open Scope Z_scope.

(** ** Data *)

Inductive Health :=
| HealthHealthy
| HealthUnhealthy
| HealthProbation
| HealthDisabled.

#[export] Instance Health_eq_dec : EqDecision Health.
Proof. solve_decision. Defined.

#[export] Instance Health_inhabited : Inhabited Health := populate HealthHealthy.

(** The parts of a [url.URL] that the program reads, with its [String()]. *)
Record URL := mkURL {
  url_Scheme : string;
  url_Host : string;
  url_Path : string;
  url_RawQuery : string;
  url_String : string;
}.

Record Backend := mkBackend {
  ID : string;
  BURL : URL;
  Weight : Z;
  activeConns : Z;
  health : Health;
}.

Definition set_activeConns (n : Z) (b : Backend) : Backend :=
  mkBackend (ID b) (BURL b) (Weight b) n (health b).
Definition set_health (h : Health) (b : Backend) : Backend :=
  mkBackend (ID b) (BURL b) (Weight b) (activeConns b) h.
Definition set_Weight (w : Z) (b : Backend) : Backend :=
  mkBackend (ID b) (BURL b) w (activeConns b) (health b).

(** ** The store *)

Abbreviation loc := nat.
Abbreviation store := (gmap loc Backend).

Definition deref (σ : store) (l : loc) : outcome Backend :=
  match σ !! l with Some b => Ret b | None => Panic NilDeref end.

Definition update (l : loc) (f : Backend → Backend) : M store () := λ σ,
  match σ !! l with
  | Some b => (Ret tt, <[l := f b]> σ)
  | None => (Panic NilDeref, σ)
  end.

(** [&Backend{...}]: a fresh location. *)
Definition alloc (b : Backend) : M store loc := λ σ,
  let l := fresh (dom σ) in (Ret l, <[l := b]> σ).

(** ** Operations of a backend *)

Section backend_new.
(** [url.Parse], with the text of its error. *)
Variable url_Parse : string → URL + string.

(** [New(id, rawURL, weight)] returns the backend or the parse error. *)
Definition Backend_New (id rawURL : string) (weight : Z) : M store (loc + string) :=
  match url_Parse rawURL with
  | inr err => mret (inr err)
  | inl u =>
      let weight := if decide (weight ≤ 0) then 1 else weight in
      l ← alloc (mkBackend id u weight 0 HealthHealthy);
      mret (inl l)
  end.
End backend_new.

Definition Backend_IncConns (l : loc) : M store () :=
  update l (λ b, set_activeConns (wrap64 (activeConns b + 1)) b).
Definition Backend_DecConns (l : loc) : M store () :=
  update l (λ b, set_activeConns (wrap64 (activeConns b + -1)) b).
Definition Backend_ActiveConns (σ : store) (l : loc) : outcome Z :=
  b ← deref σ l; mret (activeConns b).
Definition Backend_SetHealth (l : loc) (h : Health) : M store () :=
  update l (set_health h).
Definition Backend_GetHealth (σ : store) (l : loc) : outcome Health :=
  b ← deref σ l; mret (health b).
Definition Backend_IsHealthy (σ : store) (l : loc) : outcome bool :=
  b ← deref σ l; mret (bool_decide (health b = HealthHealthy)).

(** [atomic.StoreInt64(p, v)] where [p] may be nil. *)
Definition atomic_StoreInt64 (p : option loc) : M store () :=
  match p with
  | None => raise NilDeref
  | Some _ => mret tt
  end.

(** The clamped weight is stored only after a store through a nil pointer. *)
Definition Backend_SetWeight (l : loc) (w : Z) : M store () :=
  let w := if decide (w < 0) then 0 else w in
  atomic_StoreInt64 None;;
  update l (set_Weight w).

Record Snapshot := mkSnapshot {
  snap_ID : string;
  snap_Addr : string;
  snap_Weight : Z;
  snap_ActiveConns : Z;
  snap_Health : string;
}.

Definition health_name (h : Health) : string :=
  match h with
  | HealthUnhealthy => "unhealthy"
  | HealthProbation => "probation"
  | HealthDisabled => "disabled"
  | HealthHealthy => "healthy"
  end.

Definition Backend_Snapshot (σ : store) (l : loc) : outcome Snapshot :=
  b ← deref σ l;
  mret (mkSnapshot (ID b) (url_String (BURL b)) (Weight b) (activeConns b)
          (health_name (health b))).

(** ** The pool *)

Record Pool := mkPool { backends : list loc }.

Definition NewPool (bs : list loc) : Pool := mkPool bs.

Definition Pool_Backends (p : Pool) : list loc := backends p.

(** The loop of [Healthy] over the remaining backends, [out] so far. *)
Fixpoint healthy_loop (σ : store) (out bs : list loc) : outcome (list loc) :=
  match bs with
  | [] => Ret out
  | b :: bs' =>
      ok ← Backend_IsHealthy σ b;
      healthy_loop σ (if (ok : bool) then out ++ [b] else out) bs'
  end.
Definition Pool_Healthy (σ : store) (p : Pool) : outcome (list loc) :=
  healthy_loop σ [] (backends p).

Definition Pool_Add (b : loc) : M Pool () :=
  modify (λ p, mkPool (backends p ++ [b])).

(** Index of the first backend with that id. *)
Fixpoint find_id (σ : store) (id : string) (i : nat) (bs : list loc) : outcome (option nat) :=
  match bs with
  | [] => Ret None
  | l :: bs' =>
      b ← deref σ l;
      if decide (ID b = id) then Ret (Some i) else find_id σ id (S i) bs'
  end.

(** The error values of the pool; the text is [backend %q not found]. *)
Inductive pool_error := BackendNotFound (id : string).

(** [Remove] returns [None] for a nil error. *)
Definition Pool_Remove (σ : store) (id : string) : M Pool (option pool_error) :=
  bs ← gets backends;
  r ← lift (find_id σ id 0 bs);
  match r with
  | Some i => modify (λ p, mkPool (take i bs ++ drop (S i) bs));; mret None
  | None => mret (Some (BackendNotFound id))
  end.

Definition Pool_Get (σ : store) (p : Pool) (id : string) : outcome (option loc) :=
  r ← find_id σ id 0 (backends p);
  mret (r ≫= λ i, backends p !! i).

Fixpoint snapshots_loop (σ : store) (bs : list loc) : outcome (list Snapshot) :=
  match bs with
  | [] => Ret []
  | l :: bs' => s ← Backend_Snapshot σ l; ss ← snapshots_loop σ bs'; mret (s :: ss)
  end.
Definition Pool_Snapshots (σ : store) (p : Pool) : outcome (list Snapshot) :=
  snapshots_loop σ (backends p).

(** ** Specification vocabulary *)

(** The id found behind a pointer. *)
Definition id_of (σ : store) (l : loc) : option string := ID <$> σ !! l.

(** The pointer is live and the backend behind it is healthy. *)
Definition healthy_at (σ : store) (l : loc) : Prop :=
  health <$> σ !! l = Some HealthHealthy.

#[export] Instance healthy_at_dec σ l : Decision (healthy_at σ l).
Proof. unfold healthy_at. apply _. Defined.

(** Every pointer of the pool is live. *)
Definition live (σ : store) (bs : list loc) : Prop :=
  Forall (λ l, is_Some (σ !! l)) bs.

#[export] Instance live_dec σ bs : Decision (live σ bs).
Proof. unfold live. apply _. Defined.

(** The registry the pool stands for: ids to backends, the first one winning. *)
Definition registry (σ : store) (bs : list loc) : gmap string loc :=
  foldr (λ l m, match id_of σ l with Some i => <[i := l]> m | None => m end) ∅ bs.

(** No two backends of the list share an id. *)
Definition distinct_ids (σ : store) (bs : list loc) : Prop :=
  NoDup (omap (id_of σ) bs).

(** ** Lemmas on single backends *)

Lemma deref_live σ l b : σ !! l = Some b → deref σ l = Ret b.
Proof. unfold deref. by intros ->. Qed.

Lemma IsHealthy_live σ l :
  is_Some (σ !! l) → Backend_IsHealthy σ l = Ret (bool_decide (healthy_at σ l)).
Proof.
  intros [b Hb]. unfold Backend_IsHealthy. rewrite (deref_live _ _ _ Hb).
  go_step. f_equal. apply bool_decide_ext. unfold healthy_at. rewrite Hb. simpl.
  split; congruence.
Qed.

Lemma ActiveConns_live σ l b :
  σ !! l = Some b → Backend_ActiveConns σ l = Ret (activeConns b).
Proof. intros Hb. unfold Backend_ActiveConns. by rewrite (deref_live _ _ _ Hb). Qed.

Lemma update_live σ l f b :
  σ !! l = Some b → update l f σ = (Ret tt, <[l := f b]> σ).
Proof. unfold update. by intros ->. Qed.

Lemma live_elem σ bs l : live σ bs → l ∈ bs → is_Some (σ !! l).
Proof. unfold live. rewrite Forall_forall. auto. Qed.

Lemma healthy_at_live σ l : healthy_at σ l → is_Some (σ !! l).
Proof. unfold healthy_at. destruct (σ !! l); simpl; [eauto|done]. Qed.

Lemma filter_healthy_live σ bs : live σ (filter (healthy_at σ) bs).
Proof.
  unfold live. rewrite Forall_forall. intros l [H _]%list_elem_of_filter.
  by apply healthy_at_live.
Qed.

#[export] Hint Resolve live_elem healthy_at_live filter_healthy_live : go_db.

(** ** Lemmas on the loops of the pool *)

Lemma healthy_loop_spec σ out bs :
  live σ bs → healthy_loop σ out bs = Ret (out ++ filter (healthy_at σ) bs).
Proof.
  intros H. revert out. induction H as [|l bs Hl _ IH]; intros out; simpl.
  - by rewrite app_nil_r.
  - rewrite IsHealthy_live by done. simpl. rewrite IH, filter_cons.
    case_bool_decide; case_decide; try done. by rewrite <- app_assoc.
Qed.

Lemma find_id_spec σ id k bs :
  live σ bs →
  find_id σ id k bs =
    Ret ((λ ix, k + ix.1)%nat <$> (list_find (λ l, id_of σ l = Some id) bs)).
Proof.
  intros H. revert k. induction H as [|l bs [b Hb] _ IH]; intros k; simpl; [done|].
  rewrite (deref_live _ _ _ Hb). simpl.
  assert (id_of σ l = Some (ID b)) as Hid by (unfold id_of; by rewrite Hb).
  repeat case_decide; try congruence; simpl.
  - by rewrite Nat.add_0_r.
  - rewrite IH. f_equal. destruct (list_find _ bs) as [[i x]|]; simpl; [|done].
    f_equal. lia.
Qed.

Lemma registry_list_find σ bs id :
  live σ bs → registry σ bs !! id = snd <$> (list_find (λ l, id_of σ l = Some id) bs).
Proof.
  induction 1 as [|l bs [b Hb] _ IH]; simpl; [done|].
  assert (id_of σ l = Some (ID b)) as Hid by (unfold id_of; by rewrite Hb).
  rewrite Hid. case_decide; simplify_eq.
  - by rewrite lookup_insert_eq.
  - rewrite lookup_insert_ne by congruence. rewrite IH.
    by destruct (list_find _ bs) as [[i x]|].
Qed.

Lemma registry_app σ bs1 bs2 :
  registry σ (bs1 ++ bs2) = registry σ bs1 ∪ registry σ bs2.
Proof.
  induction bs1 as [|l bs IH]; simpl; [by rewrite map_empty_union|].
  rewrite IH. destruct (id_of σ l); [|done]. by rewrite insert_union_l.
Qed.

Lemma registry_dom σ bs id : id ∈ omap (id_of σ) bs ↔ is_Some (registry σ bs !! id).
Proof.
  induction bs as [|l bs IH]; simpl.
  - split; [by intros ?%elem_of_nil | intros [? ?]; done].
  - destruct (id_of σ l) as [i|]; [|done].
    rewrite elem_of_cons, IH, lookup_insert_is_Some'. split; intros [?|?]; auto.
Qed.

Lemma registry_None σ bs id : id ∉ omap (id_of σ) bs → registry σ bs !! id = None.
Proof. rewrite registry_dom. intros H. by apply eq_None_not_Some. Qed.

(** Under distinct ids, taking one backend out deletes its id. *)
Lemma registry_remove σ pre l post id :
  distinct_ids σ (pre ++ l :: post) → id_of σ l = Some id →
  registry σ (pre ++ post) = delete id (registry σ (pre ++ l :: post)).
Proof.
  unfold distinct_ids. intros Hd Hid.
  rewrite omap_app in Hd. simpl in Hd. rewrite Hid in Hd.
  apply NoDup_app in Hd as (_ & Hpre & Hpost).
  apply NoDup_cons in Hpost as [Hpost _].
  rewrite !registry_app. simpl. rewrite Hid, delete_union, delete_insert_eq.
  rewrite !delete_id; [done|..]; apply registry_None; [done|].
  intros Hin. by apply (Hpre _ Hin), elem_of_cons; left.
Qed.

Lemma distinct_ids_remove σ pre l post :
  distinct_ids σ (pre ++ l :: post) → distinct_ids σ (pre ++ post).
Proof.
  unfold distinct_ids. rewrite !omap_app. simpl. intros H.
  apply NoDup_app in H as (H1 & H2 & H3). apply NoDup_app.
  destruct (id_of σ l) as [i|]; [apply NoDup_cons in H3 as [_ H3]|]; split_and!; try done.
  intros x Hx Hx'. by apply (H2 x Hx), elem_of_cons; right.
Qed.

(** ** Connection accounting *)

(** The operations other goroutines interleave on the backends' counters. *)
Inductive conn_op :=
| OpInc (l : loc)
| OpDec (l : loc)
| OpHealth (l : loc) (h : Health).

Definition run_op (o : conn_op) : M store () :=
  match o with
  | OpInc l => Backend_IncConns l
  | OpDec l => Backend_DecConns l
  | OpHealth l h => Backend_SetHealth l h
  end.

(** What an operation adds to the counter of [l]. *)
Definition conn_delta (l : loc) (o : conn_op) : Z :=
  match o with
  | OpInc l' => if decide (l = l') then 1 else 0
  | OpDec l' => if decide (l = l') then -1 else 0
  | OpHealth _ _ => 0
  end.

Definition op_loc (o : conn_op) : loc :=
  match o with OpInc l | OpDec l | OpHealth l _ => l end.

Definition sum_delta (l : loc) (ops : list conn_op) : Z :=
  foldr (λ o n, conn_delta l o + n) 0 ops.

(** A change of one backend: what it does to the store, whichever backend we
    look at. *)
Lemma update_effect σ l f :
  is_Some (σ !! l) →
  update l f σ = (Ret tt, alter f l σ) ∧ dom (alter f l σ) = dom σ.
Proof.
  intros [b Hb]. rewrite (update_live _ _ _ _ Hb). split; [|apply dom_alter_L].
  f_equal. symmetry. apply map_eq. intros i. rewrite lookup_alter, lookup_insert.
  case_decide; simplify_eq/=; [by rewrite Hb|done].
Qed.

(** The record update behind an operation. *)
Definition op_effect (o : conn_op) (b : Backend) : Backend :=
  match o with
  | OpInc _ => set_activeConns (wrap64 (activeConns b + 1)) b
  | OpDec _ => set_activeConns (wrap64 (activeConns b + -1)) b
  | OpHealth _ h => set_health h b
  end.

Lemma run_op_update o : run_op o = update (op_loc o) (op_effect o).
Proof. by destruct o. Qed.

Lemma run_op_conns σ o l b :
  is_Some (σ !! op_loc o) → σ !! l = Some b → is_int64 (activeConns b) →
  ∃ σ' b', run_op o σ = (Ret tt, σ') ∧ σ' !! l = Some b' ∧
    activeConns b' = wrap64 (activeConns b + conn_delta l o) ∧ dom σ' = dom σ.
Proof.
  intros H0 Hb Hr.
  assert (wrap64 (activeConns b + 0) = activeConns b) as H00
    by (rewrite Z.add_0_r; by apply wrap64_id).
  rewrite run_op_update.
  destruct (update_effect σ _ (op_effect o) H0) as [-> Hdom].
  destruct (decide (l = op_loc o)) as [->|Hne].
  - eexists _, (op_effect o b). split; [done|]. rewrite lookup_alter_eq, Hb.
    split_and!; [done| |done]. destruct o; simpl in *; by rewrite ?decide_True.
  - eexists _, b. split; [done|]. rewrite lookup_alter_ne by done.
    split_and!; [done| |done]. destruct o; simpl in *; by rewrite ?decide_False.
Qed.

(** ** Properties of the pool *)

(** [Healthy] never panics on live backends and returns exactly the healthy
    ones, in pool order. *)
Lemma Pool_Healthy_filter σ p :
  live σ (backends p) →
  Pool_Healthy σ p = Ret (filter (healthy_at σ) (backends p)).
Proof. intros. unfold Pool_Healthy. by rewrite healthy_loop_spec. Qed.

Lemma Pool_Get_registry σ p id :
  live σ (backends p) → Pool_Get σ p id = Ret (registry σ (backends p) !! id).
Proof.
  intros H. unfold Pool_Get. rewrite find_id_spec, registry_list_find by done. simpl.
  unfold mret, outcome_ret. f_equal.
  destruct (list_find _ _) as [[i x]|] eqn:E; simpl; [|done].
  by apply list_find_Some in E as (?&?&?).
Qed.

(** [Remove] takes out the first backend with the id and nothing else. *)
Lemma Pool_Remove_spec σ p id :
  live σ (backends p) →
  match registry σ (backends p) !! id with
  | None => Pool_Remove σ id p = (Ret (Some (BackendNotFound id)), p)
  | Some l => ∃ pre post,
      backends p = pre ++ l :: post ∧
      id_of σ l = Some id ∧ (id ∉ omap (id_of σ) pre) ∧
      Pool_Remove σ id p = (Ret None, mkPool (pre ++ post))
  end.
Proof.
  intros H. rewrite registry_list_find by done.
  destruct p as [bs]; simpl in *.
  destruct (list_find _ bs) as [[i l]|] eqn:E; simpl.
  - pose proof E as E'. apply list_find_Some in E as (Hi & Hid & Hpre).
    exists (take i bs), (drop (S i) bs). split; [by rewrite take_drop_middle|].
    split; [done|]. split.
    + rewrite list_elem_of_omap. intros (x & Hx & Hxid).
      apply list_elem_of_lookup in Hx as [j Hj].
      apply lookup_take_Some in Hj as [Hj Hlt]. by eapply Hpre.
    + unfold Pool_Remove. go_step. rewrite find_id_spec by done. by rewrite E'.
  - unfold Pool_Remove. go_step. rewrite find_id_spec by done. by rewrite E.
Qed.

(** ** Properties *)

(** C19. The pool implements a registry of backends keyed by id: with live
    backends and distinct ids, [Get] is lookup, [Remove] of a present id
    deletes exactly that id and keeps the ids distinct, [Remove] of an absent
    id is an error that changes nothing, and [Add] inserts a backend whose id
    is new while a second backend with a known id stays invisible to [Get]. *)
Theorem Pool_refines_registry σ p :
  live σ (backends p) → distinct_ids σ (backends p) →
  let m := registry σ (backends p) in
  (∀ id, Pool_Get σ p id = Ret (m !! id)) ∧
  (∀ id, m !! id = None → Pool_Remove σ id p = (Ret (Some (BackendNotFound id)), p)) ∧
  (∀ id, is_Some (m !! id) → ∃ p',
    Pool_Remove σ id p = (Ret None, p') ∧
    registry σ (backends p') = delete id m ∧ distinct_ids σ (backends p')) ∧
  (∀ l id, id_of σ l = Some id → ∃ p',
    Pool_Add l p = (Ret tt, p') ∧
    registry σ (backends p') = (match m !! id with None => <[id := l]> m | Some _ => m end)).
Proof.
  intros Hl Hd m. split_and!.
  - intros id. by apply Pool_Get_registry.
  - intros id Hid. pose proof (Pool_Remove_spec σ p id Hl) as H. fold m in H. by rewrite Hid in H.
  - intros id [l Hid]. pose proof (Pool_Remove_spec σ p id Hl) as H. fold m in H.
    rewrite Hid in H. destruct H as (pre & post & Hbs & Hlid & _ & Hrm).
    exists (mkPool (pre ++ post)). split; [done|]. unfold m. rewrite Hbs in *.
    eauto using registry_remove, distinct_ids_remove.
  - intros l id Hid. exists (mkPool (backends p ++ [l])). split; [done|]. simpl.
    rewrite registry_app. fold m. simpl. rewrite Hid.
    destruct (m !! id) as [l'|] eqn:E.
    + apply map_eq. intros i. rewrite lookup_union.
      destruct (decide (i = id)) as [->|Hne]; [by rewrite E, lookup_insert_eq|].
      rewrite lookup_insert_ne by done. by rewrite lookup_empty; destruct (m !! i).
    + rewrite <- insert_union_r by done. by rewrite (right_id_L ∅ (∪)).
Qed.

(** [Healthy] returns, without panicking, exactly the pool's backends that
    are healthy at that moment, in pool order; so no unhealthy, probation or
    disabled backend is ever offered to a selector. *)
Theorem Pool_Healthy_exact σ p :
  live σ (backends p) →
  ∃ hs, Pool_Healthy σ p = Ret hs ∧
    hs = filter (healthy_at σ) (backends p) ∧
    (∀ l, l ∈ hs ↔ l ∈ backends p ∧ healthy_at σ l) ∧ live σ hs.
Proof.
  intros H. exists (filter (healthy_at σ) (backends p)). split_and!.
  - by apply Pool_Healthy_filter.
  - done.
  - intros l. rewrite list_elem_of_filter. tauto.
  - apply filter_healthy_live.
Qed.

(** Connection accounting: for every interleaving of increments,
    decrements and health changes on live backends, no operation panics and
    each backend's counter ends at its start plus its own increments minus its
    own decrements, in 64-bit arithmetic. *)
Theorem conns_accounting ops σ l b :
  Forall (λ o, is_Some (σ !! op_loc o)) ops → σ !! l = Some b → is_int64 (activeConns b) →
  ∃ σ' b', forM ops run_op σ = (Ret tt, σ') ∧ σ' !! l = Some b' ∧
    activeConns b' = wrap64 (activeConns b + sum_delta l ops).
Proof.
  revert σ b. induction ops as [|o ops IH]; intros σ b Hops Hb Hr; simpl.
  - exists σ, b. rewrite Z.add_0_r, wrap64_id by done. done.
  - apply Forall_cons in Hops as [Ho Hops].
    destruct (run_op_conns σ o l b Ho Hb Hr) as (σ1 & b1 & H1 & Hb1 & Hc1 & Hdom).
    destruct (IH σ1 b1) as (σ2 & b2 & H2 & Hb2 & Hc2); [..|].
    + eapply Forall_impl; [exact Hops|]. intros o' Ho'.
      apply elem_of_dom. rewrite Hdom. by apply elem_of_dom.
    + done.
    + rewrite Hc1. apply wrap64_range.
    + exists σ2, b2. rewrite (bind_Ret _ _ _ _ _ H1). split_and!; [done..|].
      rewrite Hc2, Hc1, wrap64_add_l. f_equal. lia.
Qed.

(** [SetWeight] never stores a weight: for every backend and weight it
    panics at the store through a nil pointer, before the assignment. *)
Theorem SetWeight_panics l w σ :
  Backend_SetWeight l w σ = (Panic NilDeref, σ).
Proof. reflexivity. Qed.

(** ** Witnesses *)

Definition ex_url (h : string) : URL := mkURL "http" h "" "" ("http://" +:+ h).
Definition ex_backend (id : string) (w : Z) (h : Health) : Backend :=
  mkBackend id (ex_url id) w 0 h.

(** Three backends, the second unhealthy. *)
Definition ex_store : store :=
  {[ 0%nat := ex_backend "b0" 1 HealthHealthy;
     1%nat := ex_backend "b1" 2 HealthUnhealthy;
     2%nat := ex_backend "b2" 3 HealthHealthy ]}.
Definition ex_pool : Pool := NewPool [0; 1; 2]%nat.

Lemma ex_pool_live : live ex_store (backends ex_pool).
Proof. repeat constructor; eexists; vm_compute; reflexivity. Qed.

Lemma ex_pool_distinct : distinct_ids ex_store (backends ex_pool).
Proof. apply (bool_decide_eq_true_1 _). vm_compute. reflexivity. Qed.

Lemma Pool_refines_registry_witness :
  (∃ p', Pool_Remove ex_store "b1" ex_pool = (Ret None, p') ∧ backends p' = [0; 2]%nat) ∧
  Pool_Get ex_store ex_pool "b2" = Ret (registry ex_store (backends ex_pool) !! "b2").
Proof.
  split.
  - eexists. split; vm_compute; reflexivity.
  - apply (Pool_refines_registry ex_store ex_pool ex_pool_live ex_pool_distinct).
Defined.

Lemma Pool_Healthy_exact_witness :
  ∃ hs, Pool_Healthy ex_store ex_pool = Ret hs ∧ hs = [0; 2]%nat.
Proof.
  destruct (Pool_Healthy_exact ex_store ex_pool ex_pool_live) as (hs & H1 & H2 & _).
  exists hs. split; [exact H1|]. rewrite H2. vm_compute. reflexivity.
Defined.

Lemma conns_accounting_witness :
  ∃ σ' b', forM [OpInc 0; OpInc 2; OpDec 0; OpInc 0]%nat run_op ex_store = (Ret tt, σ') ∧
    σ' !! 0%nat = Some b' ∧ activeConns b' = wrap64 (0 + 1).
Proof.
  apply (conns_accounting [OpInc 0; OpInc 2; OpDec 0; OpInc 0]%nat ex_store 0%nat
    (ex_backend "b0" 1 HealthHealthy)).
  - repeat constructor; eexists; vm_compute; reflexivity.
  - vm_compute. reflexivity.
  - vm_compute. split; discriminate.
Defined.
