(* ===== verification/Selector.v ===== *)
(** The contract between the proxy and its balancing algorithms
    (internal/balancer/selector.go, internal/proxy/http.go). *)

From S2P Require Export GoHttp BackendPool.

#[local] Open Scope Z_scope.

(** [ErrNoBackends] is the only error an algorithm returns. *)
Inductive sel_error := ErrNoBackends.

#[export] Instance sel_error_eq_dec : EqDecision sel_error.
Proof. solve_decision. Defined.

(** The two results of [Next]: a backend pointer (or nil) and an error (or
    nil). *)
Abbreviation selection := (option loc * option sel_error)%type.

(** [Next(r, backends)]: an algorithm with private state [St] reads the
    backends through the store and never writes them. *)
Class Selector (St : Type) :=
  Next : Request → list loc → store → M St selection.

(** What the proxy relies on.  [sel_ready r bs σ s] says when an algorithm in
    state [s] keeps its promise for the list [bs]; then [Next] does not panic,
    picks one of the backends it was offered, and reports [ErrNoBackends]
    exactly on the empty list. *)
Class SelectorLaws (St : Type) `{Selector St} := {
  sel_ready : Request → list loc → store → St → Prop;
  next_picks r bs σ s :
    bs ≠ [] → live σ bs → sel_ready r bs σ s →
    ∃ b s', Next r bs σ s = (Ret (Some b, None), s') ∧ b ∈ bs;
  next_empty r σ s :
    sel_ready r [] σ s → ∃ s', Next r [] σ s = (Ret (None, Some ErrNoBackends), s');
}.

(** A request with an empty header, for the examples. *)
Definition ex_request (remote : string) : Request :=
  mkRequest "GET" "lb" remote ∅ "" "" "/" "" false [].

(** [atomic.AddInt64(&c, 1) - 1] on a counter kept in the state: returns the
    index arithmetic's operand. *)
Definition ticket (c : Z) : Z := wrap64 (wrap64 (c + 1) - 1).

Lemma ticket_id c : is_int64 c → ticket c = c.
Proof. apply wrap64_succ_pred. Qed.

(** Index computed from a ticket by the truncated remainder. *)
Lemma ticket_index {A} (l : list A) c :
  l ≠ [] → 0 ≤ c ≤ max_int64 →
  go_rem (ticket c) (zlen l) = Z.of_nat (Z.to_nat c mod length l).
Proof.
  intros Hl Hc. pose proof (zlen_pos l Hl) as Hpos.
  rewrite ticket_id by (unfold is_int64, min_int64, max_int64 in *; lia).
  rewrite go_rem_mod by lia. unfold zlen in *.
  rewrite Nat2Z.inj_mod, Z2Nat.id by lia. done.
Qed.

(** A negative ticket that the length does not divide indexes out of range. *)
Lemma ticket_negative {A} (l : list A) c :
  l ≠ [] → is_int64 c → c < 0 →
  go_index l (go_rem (ticket c) (zlen l)) =
    if decide ((zlen l | c)) then go_index l 0 else Panic IndexOutOfRange.
Proof.
  intros Hl Hr Hc. pose proof (zlen_pos l Hl) as Hpos. rewrite ticket_id by done.
  unfold go_rem. destruct (decide (zlen l | c)) as [[q ->]|Hnd].
  - by rewrite Z.rem_mul by lia.
  - apply go_index_negative.
    assert (Z.rem c (zlen l) ≠ 0) as Hne.
    { intros H0. apply Hnd. apply Z.rem_divide; [lia|done]. }
    pose proof (Z.rem_nonpos c (zlen l)). lia.
Qed.
