(* ===== verification/SelRoundRobin.v ===== *)
(** Round robin (internal/balancer/roundrobin.go). *)

From S2P Require Export Selector.

#[local] Open Scope Z_scope.

Record RoundRobin := mkRoundRobin { rr_counter : Z }.

Definition NewRoundRobin : RoundRobin := mkRoundRobin 0.

Definition RoundRobin_Next (_ : Request) (bs : list loc) (_ : store)
    : M RoundRobin selection :=
  let n := zlen bs in
  if decide (n = 0) then mret (None, Some ErrNoBackends)
  else
    c ← gets rr_counter;
    modify (λ rr, mkRoundRobin (wrap64 (c + 1)));;
    let idx := go_rem (ticket c) n in
    b ← lift (go_index bs idx);
    mret (Some b, None).

#[export] Instance RoundRobin_Selector : Selector RoundRobin := RoundRobin_Next.

(** ** Lemmas *)

Lemma RoundRobin_Next_step r bs σ c :
  bs ≠ [] → 0 ≤ c ≤ max_int64 →
  ∃ b, bs !! (Z.to_nat c mod length bs)%nat = Some b ∧
    RoundRobin_Next r bs σ (mkRoundRobin c) =
      (Ret (Some b, None), mkRoundRobin (wrap64 (c + 1))).
Proof.
  intros Hbs Hc. destruct (cyclic_lookup bs (Z.to_nat c) Hbs) as [b Hb].
  exists b. split; [done|]. unfold RoundRobin_Next.
  rewrite decide_False by (by rewrite zlen_zero). go_step.
  rewrite ticket_index by done. by erewrite go_index_Ret by exact Hb.
Qed.

Lemma RoundRobin_Next_empty r σ s :
  RoundRobin_Next r [] σ s = (Ret (None, Some ErrNoBackends), s).
Proof. reflexivity. Qed.

(** Round robin is ready while its counter has not wrapped. *)
#[export, program] Instance RoundRobin_Laws : SelectorLaws RoundRobin := {|
  sel_ready _ _ _ s := 0 ≤ rr_counter s ≤ max_int64;
|}.
Next Obligation.
  intros r bs σ [c] Hbs _ Hc. destruct (RoundRobin_Next_step r bs σ c Hbs Hc) as (b & Hb & E).
  eauto using list_elem_of_lookup_2.
Qed.
Next Obligation. intros r σ s _. by exists s. Qed.

Lemma RoundRobin_run r bs σ n c :
  bs ≠ [] → 0 ≤ c → c + Z.of_nat n ≤ max_int64 →
  repeatM n (RoundRobin_Next r bs σ) (mkRoundRobin c) =
    (Ret ((λ b, (Some b, None)) <$> cyclic bs (Z.to_nat c) n),
     mkRoundRobin (c + Z.of_nat n)).
Proof.
  intros Hbs. revert c. induction n as [|n IH]; intros c Hc Hle; simpl.
  - by rewrite Z.add_0_r.
  - destruct (RoundRobin_Next_step r bs σ c) as (b & Hb & E); [done|lia|].
    rewrite (bind_Ret _ _ _ _ _ E), Hb.
    rewrite wrap64_id by (unfold is_int64, min_int64, max_int64 in *; lia).
    rewrite (bind_Ret _ _ _ _ _ (IH (c + 1) ltac:(lia) ltac:(lia))).
    replace (Z.to_nat (c + 1)) with (S (Z.to_nat c)) by lia.
    unfold mret, M_ret. simpl. do 2 f_equal. lia.
Qed.

(** ** Properties *)

(** Fairness of round robin: as long as the counter does not wrap, any
    [k * n] consecutive calls over [n] backends all succeed and choose every
    backend exactly [k] times, wherever the counter starts. *)
Theorem RoundRobin_fair r bs σ k c :
  bs ≠ [] → 0 ≤ c → c + Z.of_nat (k * length bs) ≤ max_int64 →
  ∃ picks s', repeatM (k * length bs) (RoundRobin_Next r bs σ) (mkRoundRobin c)
      = (Ret ((λ b, (Some b, None)) <$> picks), s') ∧
    ∀ b, occ b picks = (k * occ b bs)%nat.
Proof.
  intros Hbs Hc Hle. eexists _, _. split; [by apply RoundRobin_run|].
  intros b. by rewrite cyclic_turns, occ_concat_replicate.
Qed.

(** C25. Overflow of the round-robin counter: on a nonempty list [Next] panics
    with an index out of range exactly when the counter has wrapped to a
    negative value that the number of backends does not divide; otherwise it
    selects one of the backends. *)
Theorem RoundRobin_panics_iff r bs σ c :
  bs ≠ [] → is_int64 c →
  ((RoundRobin_Next r bs σ (mkRoundRobin c)).1 = Panic IndexOutOfRange
     ↔ c < 0 ∧ ¬ (zlen bs | c)) ∧
  (¬ (c < 0 ∧ ¬ (zlen bs | c)) →
     ∃ b, (RoundRobin_Next r bs σ (mkRoundRobin c)).1 = Ret (Some b, None) ∧ b ∈ bs).
Proof.
  intros Hbs Hr. destruct (decide (0 ≤ c)) as [Hc|Hc].
  - destruct (RoundRobin_Next_step r bs σ c) as (b & Hb & E); [done|unfold is_int64 in Hr; lia|].
    rewrite E. simpl. split; [split; [done|lia]|]. intros _.
    eauto using list_elem_of_lookup_2.
  - unfold RoundRobin_Next. rewrite decide_False by (by rewrite zlen_zero). go_step.
    rewrite ticket_negative by (done || lia).
    destruct (decide (zlen bs | c)) as [Hd|Hd].
    + destruct bs as [|b bs]; [done|]. simpl. split; [split; [done|tauto]|].
      intros _. exists b. split; [done|]. left.
    + simpl. split; [split; [intros _; split; [lia|done]|done]|]. intros H. exfalso. apply H. split; [lia|done].
Qed.

(** ** Witnesses *)

Lemma RoundRobin_fair_witness :
  ∃ picks s', repeatM (2 * 3) (RoundRobin_Next (ex_request "1.2.3.4:5") [0; 1; 2]%nat ∅) (mkRoundRobin 7)
      = (Ret ((λ b, (Some b, None)) <$> picks), s') ∧
    ∀ b, occ b picks = (2 * occ b [0; 1; 2])%nat.
Proof.
  apply (RoundRobin_fair (ex_request "1.2.3.4:5") [0; 1; 2]%nat ∅ 2 7); [done|lia|].
  vm_compute. discriminate.
Defined.

Lemma RoundRobin_panics_iff_witness :
  (RoundRobin_Next (ex_request "1.2.3.4:5") [0; 1; 2]%nat ∅ (mkRoundRobin min_int64)).1
    = Panic IndexOutOfRange.
Proof.
  apply (RoundRobin_panics_iff (ex_request "1.2.3.4:5") [0; 1; 2]%nat ∅ min_int64).
  - done.
  - unfold is_int64, min_int64, max_int64. lia.
  - split; [vm_compute; reflexivity|]. intros [q Hq].
    assert (min_int64 mod 3 = (q * 3) mod 3) as H by (f_equal; exact Hq).
    rewrite Z.mod_mul in H by lia. vm_compute in H. discriminate.
Defined.
