(* ===== verification/SelWeightedRR.v ===== *)
(** Weighted round robin (internal/balancer/weightedrr.go). *)

From S2P Require Export Selector.

#[local] Open Scope Z_scope.

Record WeightedRoundRobin := mkWRR { wrr_slots : list loc; wrr_counter : Z }.

Definition NewWeightedRoundRobin : WeightedRoundRobin := mkWRR [] 0.

(** [for i := 0; i < weight; i++ { slots = append(slots, b) }] *)
Fixpoint append_slots (n : nat) (b : loc) (slots : list loc) : list loc :=
  match n with
  | O => slots
  | S n' => append_slots n' b (slots ++ [b])
  end.

(** The outer loop of [Rebuild]. *)
Fixpoint rebuild_loop (σ : store) (slots bs : list loc) : outcome (list loc) :=
  match bs with
  | [] => Ret slots
  | b :: bs' =>
      bk ← deref σ b;
      let weight := if decide (Weight bk ≤ 0) then 1 else Weight bk in
      rebuild_loop σ (append_slots (Z.to_nat weight) b slots) bs'
  end.

Definition WeightedRoundRobin_Rebuild (σ : store) (bs : list loc) : M WeightedRoundRobin () :=
  slots ← lift (rebuild_loop σ [] bs);
  modify (λ w, mkWRR slots (wrr_counter w)).

(** The fallback loop: first healthy backend of the list passed in. *)
Fixpoint first_healthy (σ : store) (bs : list loc) : outcome selection :=
  match bs with
  | [] => Ret (None, Some ErrNoBackends)
  | fb :: bs' =>
      ok ← Backend_IsHealthy σ fb;
      if (ok : bool) then Ret (Some fb, None) else first_healthy σ bs'
  end.

Definition WeightedRoundRobin_Next (_ : Request) (bs : list loc) (σ : store)
    : M WeightedRoundRobin selection :=
  slots ← gets wrr_slots;
  (if decide (zlen slots = 0) then WeightedRoundRobin_Rebuild σ bs else mret tt);;
  slots ← gets wrr_slots;
  if decide (zlen slots = 0) then mret (None, Some ErrNoBackends)
  else
    c ← gets wrr_counter;
    modify (λ w, mkWRR (wrr_slots w) (wrap64 (c + 1)));;
    b ← lift (go_index slots (go_rem (ticket c) (zlen slots)));
    ok ← lift (Backend_IsHealthy σ b);
    if negb ok then lift (first_healthy σ bs) else mret (Some b, None).

#[export] Instance WeightedRoundRobin_Selector : Selector WeightedRoundRobin :=
  WeightedRoundRobin_Next.

(** ** Specification: the slot table *)

(** Number of slots a backend gets: its weight, at least one. *)
Definition slot_count (σ : store) (l : loc) : nat :=
  match σ !! l with Some b => Z.to_nat (Z.max 1 (Weight b)) | None => 0%nat end.

Definition slot_table (σ : store) (bs : list loc) : list loc :=
  bs ≫= λ l, replicate (slot_count σ l) l.

(** ** Lemmas *)

Lemma append_slots_spec n b slots : append_slots n b slots = slots ++ replicate n b.
Proof.
  revert slots. induction n as [|n IH]; intros slots; simpl.
  - by rewrite app_nil_r.
  - by rewrite IH, <- app_assoc.
Qed.

Lemma rebuild_loop_spec σ slots bs :
  live σ bs → rebuild_loop σ slots bs = Ret (slots ++ slot_table σ bs).
Proof.
  intros H. revert slots. induction H as [|l bs [b Hb] _ IH]; intros slots; simpl.
  - by rewrite app_nil_r.
  - rewrite (deref_live _ _ _ Hb). simpl. rewrite append_slots_spec, IH, <- app_assoc.
    do 3 f_equal. unfold slot_count. rewrite Hb. f_equal. case_decide; lia.
Qed.

Lemma slot_table_cons σ x bs :
  slot_table σ (x :: bs) = replicate (slot_count σ x) x ++ slot_table σ bs.
Proof. reflexivity. Qed.

Lemma slot_table_elem σ bs l : l ∈ slot_table σ bs → l ∈ bs.
Proof.
  unfold slot_table. intros (x & Hl & Hx)%list_elem_of_bind.
  apply elem_of_replicate in Hl as [-> _]. done.
Qed.

Lemma slot_table_nil σ bs : live σ bs → slot_table σ bs = [] → bs = [].
Proof.
  destruct 1 as [|l bs [b Hb] _]; [done|]. unfold slot_table. simpl.
  unfold slot_count. rewrite Hb.
  destruct (Z.to_nat _) eqn:E; [lia|done].
Qed.

Lemma first_healthy_spec σ bs :
  live σ bs →
  first_healthy σ bs =
    Ret (match filter (healthy_at σ) bs with
         | [] => (None, Some ErrNoBackends) | b :: _ => (Some b, None) end).
Proof.
  induction 1 as [|l bs Hl _ IH]; simpl; [done|].
  rewrite IsHealthy_live by done. simpl. rewrite filter_cons.
  destruct (decide (healthy_at σ l)); [by rewrite bool_decide_eq_true_2|].
  rewrite bool_decide_eq_false_2 by done. done.
Qed.

(** One call when a slot table is installed and the counter has not wrapped:
    the slot, if healthy, else the first healthy backend offered. *)
Lemma WeightedRoundRobin_Next_slot r bs σ slots c b :
  slots ≠ [] → live σ slots → live σ bs → 0 ≤ c ≤ max_int64 →
  slots !! (Z.to_nat c mod length slots)%nat = Some b →
  WeightedRoundRobin_Next r bs σ (mkWRR slots c) =
    (Ret (if decide (healthy_at σ b) then (Some b, None)
          else match filter (healthy_at σ) bs with
               | [] => (None, Some ErrNoBackends) | fb :: _ => (Some fb, None) end),
     mkWRR slots (wrap64 (c + 1))).
Proof.
  intros Hs Hls Hlb Hc Hb. unfold WeightedRoundRobin_Next. go_step.
  rewrite decide_False by (by rewrite zlen_zero). go_step.
  rewrite decide_False by (by rewrite zlen_zero). go_step.
  rewrite ticket_index by done. erewrite go_index_Ret by exact Hb. go_step.
  rewrite IsHealthy_live by eauto using list_elem_of_lookup_2 with go_db.
  rewrite first_healthy_spec by done. go_step.
  destruct (decide (healthy_at σ b)); [by rewrite bool_decide_eq_true_2|].
  by rewrite bool_decide_eq_false_2.
Qed.

(** The first call builds the table and then behaves as if it had been there. *)
Lemma WeightedRoundRobin_Next_first r bs σ c :
  live σ bs → bs ≠ [] →
  WeightedRoundRobin_Next r bs σ (mkWRR [] c) =
  WeightedRoundRobin_Next r bs σ (mkWRR (slot_table σ bs) c).
Proof.
  intros Hl Hne. unfold WeightedRoundRobin_Next at 1, WeightedRoundRobin_Rebuild. go_step.
  rewrite rebuild_loop_spec by done. simpl.
  unfold WeightedRoundRobin_Next. go_step.
  destruct (decide (zlen (slot_table σ bs) = 0)) as [H0|H0]. 2:{ simpl. by rewrite decide_False. }
  apply zlen_zero in H0. by apply slot_table_nil in H0.
Qed.

Lemma WeightedRoundRobin_run r bs σ slots n c :
  slots ≠ [] → Forall (healthy_at σ) slots → live σ bs →
  0 ≤ c → c + Z.of_nat n ≤ max_int64 →
  repeatM n (WeightedRoundRobin_Next r bs σ) (mkWRR slots c) =
    (Ret ((λ b, (Some b, None)) <$> cyclic slots (Z.to_nat c) n),
     mkWRR slots (c + Z.of_nat n)).
Proof.
  intros Hs Hh Hl. assert (live σ slots) as Hls
    by (eapply Forall_impl; [exact Hh|]; by apply healthy_at_live).
  revert c. induction n as [|n IH]; intros c Hc Hle; simpl.
  - by rewrite Z.add_0_r.
  - destruct (cyclic_lookup slots (Z.to_nat c) Hs) as [b Hb].
    rewrite Forall_forall in Hh. pose proof (Hh b (list_elem_of_lookup_2 _ _ _ Hb)) as Hhb.
    rewrite (bind_Ret _ _ _ _ _
      (WeightedRoundRobin_Next_slot r bs σ slots c b Hs Hls Hl ltac:(lia) Hb)), Hb.
    rewrite decide_True by done.
    rewrite wrap64_id by (unfold is_int64, min_int64, max_int64 in *; lia).
    rewrite (bind_Ret _ _ _ _ _ (IH (c + 1) ltac:(lia) ltac:(lia))).
    replace (Z.to_nat (c + 1)) with (S (Z.to_nat c)) by lia.
    unfold mret, M_ret. simpl. do 2 f_equal. lia.
Qed.

(** What a call returns, [src] being where the slots come from. *)
Lemma WRR_Next_healthy r bs σ slots c src :
  slots ≠ [] → (∀ l, l ∈ slots → l ∈ src) → live σ src → live σ bs → 0 ≤ c ≤ max_int64 →
  ∃ s', (∃ b, WeightedRoundRobin_Next r bs σ (mkWRR slots c) = (Ret (Some b, None), s')
             ∧ healthy_at σ b ∧ (b ∈ src ∨ b ∈ bs)) ∨
        (WeightedRoundRobin_Next r bs σ (mkWRR slots c) = (Ret (None, Some ErrNoBackends), s')
             ∧ Forall (λ b, ¬ healthy_at σ b) bs).
Proof.
  intros Hne Hsrc Hls Hl Hc.
  destruct (cyclic_lookup slots (Z.to_nat c) Hne) as [b Hb].
  pose proof (Hsrc b (list_elem_of_lookup_2 _ _ _ Hb)) as Hin.
  rewrite (WeightedRoundRobin_Next_slot r bs σ slots c b); try done.
  2:{ unfold live in *. rewrite Forall_forall in *. auto. }
  eexists. destruct (decide (healthy_at σ b)); [left; eauto|].
  destruct (filter (healthy_at σ) bs) as [|fb l] eqn:E.
  - right. split; [done|]. by apply (proj1 (filter_none (healthy_at σ) bs)).
  - left. assert (fb ∈ filter (healthy_at σ) bs) as [? ?]%list_elem_of_filter
      by (rewrite E; left). eauto.
Qed.

(** Slots of one backend among pairwise different ones. *)
Lemma slot_table_occ σ bs l :
  NoDup bs → l ∈ bs → occ l (slot_table σ bs) = slot_count σ l.
Proof.
  induction 1 as [|x bs Hx Hnd IH]; intros Hin; [by apply elem_of_nil in Hin|].
  rewrite slot_table_cons, occ_app. apply elem_of_cons in Hin as [->|Hin].
  - rewrite occ_replicate, occ_not_elem; [lia|]. by intros ?%slot_table_elem.
  - rewrite IH by done. rewrite (occ_not_elem _ (replicate _ _)); [lia|].
    intros [-> _]%elem_of_replicate. done.
Qed.

(** Ready: the slot table is empty or names only offered backends, the offered
    backends are healthy, and the counter has not wrapped. *)
#[export, program] Instance WeightedRoundRobin_Laws : SelectorLaws WeightedRoundRobin := {|
  sel_ready _ bs σ s := 0 ≤ wrr_counter s ≤ max_int64 ∧
    Forall (λ l, l ∈ bs) (wrr_slots s) ∧ Forall (healthy_at σ) bs;
|}.
Next Obligation.
  intros r bs σ [slots c] Hbs Hl (Hc & Hsub & Hh); simpl in *. unfold Next, WeightedRoundRobin_Selector.
  assert (∃ slots', slots' ≠ [] ∧ Forall (λ l, l ∈ bs) slots' ∧
    WeightedRoundRobin_Next r bs σ (mkWRR slots c) =
    WeightedRoundRobin_Next r bs σ (mkWRR slots' c)) as (slots' & Hne & Hsub' & ->).
  { destruct slots as [|s0 slots]; [|by exists (s0 :: slots)].
    exists (slot_table σ bs). split_and!.
    - intros H. by apply slot_table_nil in H.
    - rewrite Forall_forall. intros l. apply slot_table_elem.
    - by apply WeightedRoundRobin_Next_first. }
  rewrite Forall_forall in Hsub', Hh.
  destruct (cyclic_lookup slots' (Z.to_nat c) Hne) as [b Hb].
  pose proof (Hsub' b (list_elem_of_lookup_2 _ _ _ Hb)) as Hin.
  rewrite (WeightedRoundRobin_Next_slot r bs σ slots' c b); try done.
  - rewrite decide_True by auto. eauto.
  - unfold live. rewrite Forall_forall. eauto with go_db.
Qed.
Next Obligation.
  intros r σ [slots c] (_ & Hsub & _); simpl in *.
  destruct slots as [|l slots]; [by eexists|].
  apply Forall_cons in Hsub as [Hin _]. by apply elem_of_nil in Hin.
Qed.

(** ** Properties *)

(** C24. Proportionality of weighted round robin: after [Rebuild] on live,
    healthy, pairwise different backends, any [k] full turns of the slot table,
    from any counter that does not wrap, succeed and choose each backend
    exactly [k * max(1, weight)] times. *)
Theorem WeightedRoundRobin_proportional r bs σ k c w :
  bs ≠ [] → NoDup bs → Forall (healthy_at σ) bs → 0 ≤ c →
  c + Z.of_nat (k * length (slot_table σ bs)) ≤ max_int64 →
  ∃ picks s', (WeightedRoundRobin_Rebuild σ bs;;
      repeatM (k * length (slot_table σ bs)) (WeightedRoundRobin_Next r bs σ)) (mkWRR w c)
      = (Ret ((λ b, (Some b, None)) <$> picks), s') ∧
    ∀ l b, l ∈ bs → σ !! l = Some b →
      occ l picks = (k * Z.to_nat (Z.max 1 (Weight b)))%nat.
Proof.
  intros Hne Hnd Hh Hc Hle.
  assert (live σ bs) as Hl by (eapply Forall_impl; [exact Hh|]; by apply healthy_at_live).
  assert (slot_table σ bs ≠ []) as Hs by (intros H; by apply slot_table_nil in H).
  eexists _, _. split.
  - erewrite bind_Ret.
    + apply WeightedRoundRobin_run; try done.
      rewrite Forall_forall in *. intros l Hin. apply Hh. by eapply slot_table_elem.
    + unfold WeightedRoundRobin_Rebuild. go_step. by rewrite rebuild_loop_spec.
  - intros l b Hin Hb. rewrite cyclic_turns, occ_concat_replicate, slot_table_occ by done.
    unfold slot_count. by rewrite Hb.
Qed.

(** Weighted round robin never returns an unhealthy backend: whatever the
    slot table and the list, on live pointers and an unwrapped counter a call
    does not panic, a backend it returns is healthy at that moment, and it
    reports an error only when the offered list has no healthy backend. *)
Theorem WeightedRoundRobin_healthy r bs σ slots c :
  live σ slots → live σ bs → 0 ≤ c ≤ max_int64 →
  ∃ s', (∃ b, WeightedRoundRobin_Next r bs σ (mkWRR slots c) = (Ret (Some b, None), s')
             ∧ healthy_at σ b ∧ (b ∈ slots ∨ b ∈ bs)) ∨
        (WeightedRoundRobin_Next r bs σ (mkWRR slots c) = (Ret (None, Some ErrNoBackends), s')
             ∧ Forall (λ b, ¬ healthy_at σ b) bs).
Proof.
  intros Hls Hl Hc. destruct (decide (slots = [])) as [->|Hne].
  - destruct (decide (bs = [])) as [->|Hbs]; [eexists; right; by split; [|constructor]|].
    rewrite WeightedRoundRobin_Next_first by done.
    destruct (WRR_Next_healthy r bs σ (slot_table σ bs) c bs)
      as (s' & [(b & E & Hh & Hi)|[E Hf]]); try done.
    + intros H. by apply slot_table_nil in H.
    + intros l. apply slot_table_elem.
    + exists s'. left. exists b. tauto.
    + exists s'. by right.
  - by apply (WRR_Next_healthy r bs σ slots c slots).
Qed.

(** The slot table can be stale: once it is built and its backends are
    healthy, [Next] ignores the list it is offered; backends added later get no
    request and a backend removed from the pool keeps its share. *)
Theorem WeightedRoundRobin_stale r bs bs' σ slots c :
  slots ≠ [] → Forall (healthy_at σ) slots → live σ bs → live σ bs' → 0 ≤ c ≤ max_int64 →
  WeightedRoundRobin_Next r bs σ (mkWRR slots c) =
    WeightedRoundRobin_Next r bs' σ (mkWRR slots c) ∧
  ∃ b, (WeightedRoundRobin_Next r bs σ (mkWRR slots c)).1 = Ret (Some b, None) ∧ b ∈ slots.
Proof.
  intros Hne Hh Hl Hl' Hc.
  assert (live σ slots) as Hls by (eapply Forall_impl; [exact Hh|]; by apply healthy_at_live).
  destruct (cyclic_lookup slots (Z.to_nat c) Hne) as [b Hb].
  rewrite Forall_forall in Hh. pose proof (list_elem_of_lookup_2 _ _ _ Hb) as Hin.
  rewrite (WeightedRoundRobin_Next_slot r bs σ slots c b),
    (WeightedRoundRobin_Next_slot r bs' σ slots c b) by done.
  rewrite !decide_True by auto. split; [done|]. by exists b.
Qed.

(** ** Witnesses *)

Definition wrr_store : store :=
  {[ 0%nat := ex_backend "b0" 1 HealthHealthy;
     1%nat := ex_backend "b1" 0 HealthHealthy;
     2%nat := ex_backend "b2" 3 HealthHealthy ]}.

Lemma wrr_store_healthy : Forall (healthy_at wrr_store) [0; 1; 2]%nat.
Proof. repeat constructor. Qed.

Lemma wrr_store_live l : l ∈ [0; 1; 2]%nat → live wrr_store [l].
Proof.
  intros H. pose proof wrr_store_healthy as Hh. rewrite Forall_forall in Hh.
  constructor; [|constructor]. by apply healthy_at_live, Hh.
Qed.

Lemma WeightedRoundRobin_proportional_witness :
  ∃ picks s', (WeightedRoundRobin_Rebuild wrr_store [0; 1; 2]%nat;;
      repeatM (2 * 5) (WeightedRoundRobin_Next (ex_request "1.2.3.4:5") [0; 1; 2]%nat wrr_store))
        (mkWRR [] 3) = (Ret ((λ b, (Some b, None)) <$> picks), s') ∧
    occ 2%nat picks = 6%nat.
Proof.
  destruct (WeightedRoundRobin_proportional (ex_request "1.2.3.4:5") [0; 1; 2]%nat wrr_store 2 3 [])
    as (picks & s' & H1 & H2).
  - done.
  - apply (bool_decide_eq_true_1 _). vm_compute. reflexivity.
  - apply wrr_store_healthy.
  - lia.
  - vm_compute. discriminate.
  - exists picks, s'. split; [exact H1|].
    apply (H2 2%nat (ex_backend "b2" 3 HealthHealthy)); [by repeat constructor|reflexivity].
Defined.

Lemma WeightedRoundRobin_healthy_witness :
  ∃ s', (∃ b, WeightedRoundRobin_Next (ex_request "1.2.3.4:5") [0; 2]%nat ex_store (mkWRR [1%nat] 0)
              = (Ret (Some b, None), s') ∧ healthy_at ex_store b ∧ (b ∈ [1%nat] ∨ b ∈ [0; 2]%nat)) ∨
        (WeightedRoundRobin_Next (ex_request "1.2.3.4:5") [0; 2]%nat ex_store (mkWRR [1%nat] 0)
              = (Ret (None, Some ErrNoBackends), s') ∧ Forall (λ b, ¬ healthy_at ex_store b) [0; 2]%nat).
Proof.
  apply (WeightedRoundRobin_healthy (ex_request "1.2.3.4:5") [0; 2]%nat ex_store [1%nat] 0).
  - repeat constructor; eexists; vm_compute; reflexivity.
  - repeat constructor; eexists; vm_compute; reflexivity.
  - unfold max_int64. lia.
Defined.

(** Backend 0 has left the offered list and still gets the request. *)
Lemma WeightedRoundRobin_stale_witness :
  (WeightedRoundRobin_Next (ex_request "1.2.3.4:5") [2]%nat wrr_store (mkWRR [0%nat] 0)).1
    = Ret (Some 0%nat, None).
Proof.
  destruct (WeightedRoundRobin_stale (ex_request "1.2.3.4:5") [2]%nat [1]%nat wrr_store [0%nat] 0)
    as (_ & b & H1 & H2).
  - done.
  - repeat constructor.
  - apply wrr_store_live. by repeat constructor.
  - apply wrr_store_live. by repeat constructor.
  - unfold max_int64. lia.
  - rewrite H1. apply list_elem_of_singleton in H2 as ->. reflexivity.
Defined.
