(* ===== verification/SelLeastConn.v ===== *)
(** Least connections (internal/balancer/leastconn.go). *)

From S2P Require Export Selector.

#[local] Open Scope Z_scope.

(** The algorithm keeps no state. *)
Definition LeastConnections : Type := ().
Definition NewLeastConnections : LeastConnections := tt.

(** The scan: [best] is nil until a backend below [bestConns] is met. *)
Fixpoint least_loop (σ : store) (best : option loc) (bestConns : Z) (bs : list loc)
    : outcome (option loc) :=
  match bs with
  | [] => Ret best
  | b :: bs' =>
      conns ← Backend_ActiveConns σ b;
      if decide (conns < bestConns) then least_loop σ (Some b) conns bs'
      else least_loop σ best bestConns bs'
  end.

Definition LeastConnections_Next (_ : Request) (bs : list loc) (σ : store)
    : M LeastConnections selection :=
  if decide (zlen bs = 0) then mret (None, Some ErrNoBackends)
  else
    best ← lift (least_loop σ None max_int64 bs);
    mret (best, None).

#[export] Instance LeastConnections_Selector : Selector LeastConnections :=
  LeastConnections_Next.

(** ** Specification *)

(** Connections of a live backend; 0 is never read for a dead pointer. *)
Definition conns (σ : store) (l : loc) : Z := default 0 (activeConns <$> σ !! l).

(** [b] is the first backend of the list with the fewest connections. *)
Definition first_least (σ : store) (b : loc) (bs : list loc) : Prop :=
  ∃ pre post, bs = pre ++ b :: post ∧
    Forall (λ l, conns σ b < conns σ l) pre ∧ Forall (λ l, conns σ b ≤ conns σ l) post.

(** ** Lemmas *)

Lemma ActiveConns_conns σ l : is_Some (σ !! l) → Backend_ActiveConns σ l = Ret (conns σ l).
Proof. intros [b Hb]. rewrite (ActiveConns_live _ _ _ Hb). unfold conns. by rewrite Hb. Qed.

(** The scan keeps its current best unless something is strictly below it. *)
Lemma least_loop_spec σ best n bs :
  live σ bs →
  (Forall (λ l, n ≤ conns σ l) bs ∧ least_loop σ best n bs = Ret best) ∨
  (∃ b, conns σ b < n ∧ first_least σ b bs ∧ least_loop σ best n bs = Ret (Some b)).
Proof.
  intros H. revert best n. induction H as [|l bs Hl _ IH]; intros best n; simpl.
  { left. split; [constructor|done]. }
  rewrite ActiveConns_conns by done. simpl. case_decide as Hlt.
  - right. destruct (IH (Some l) (conns σ l)) as [[Hle E]|(b & Hb & (pre & post & -> & Hpre & Hpost) & E)].
    + exists l. split_and!; [done| |done]. exists [], bs. by repeat constructor.
    + exists b. split_and!; [lia| |done]. exists (l :: pre), post. split_and!; try done.
      by constructor.
  - destruct (IH best n) as [[Hle E]|(b & Hb & (pre & post & -> & Hpre & Hpost) & E)].
    + left. split; [|done]. constructor; [lia|done].
    + right. exists b. split_and!; [done| |done]. exists (l :: pre), post. split_and!; try done.
      constructor; [lia|done].
Qed.

Lemma first_least_elem σ b bs : first_least σ b bs → b ∈ bs.
Proof. intros (pre & post & -> & _). set_solver. Qed.

Lemma LeastConnections_cases r bs σ s :
  bs ≠ [] → live σ bs →
  (Forall (λ l, max_int64 ≤ conns σ l) bs ∧
     LeastConnections_Next r bs σ s = (Ret (None, None), s)) ∨
  (∃ b, conns σ b < max_int64 ∧ first_least σ b bs ∧ LeastConnections_Next r bs σ s = (Ret (Some b, None), s)).
Proof.
  intros Hne Hl. unfold LeastConnections_Next. rewrite decide_False by (by rewrite zlen_zero).
  go_step. destruct (least_loop_spec σ None max_int64 bs Hl) as [[Hle ->]|(b & Hlt & Hb & ->)]; eauto.
Qed.

(** Ready: some backend is below the largest [int64]. *)
#[export, program] Instance LeastConnections_Laws : SelectorLaws LeastConnections := {|
  sel_ready _ bs σ _ := bs = [] ∨ Exists (λ l, conns σ l < max_int64) bs;
|}.
Next Obligation.
  intros r bs σ s Hne Hl [?|Hex]; [done|].
  destruct (LeastConnections_cases r bs σ s Hne Hl) as [[Hall _]|(b & _ & Hb & E)].
  - exfalso. apply Exists_exists in Hex as (l & Hin & Hlt).
    rewrite Forall_forall in Hall. pose proof (Hall l Hin). lia.
  - eauto using first_least_elem.
Qed.
Next Obligation. intros r σ s _. by exists s. Qed.

(** ** Properties *)

(** Least connections is correct: on a nonempty list of live backends one
    of which is below the largest counter value, it returns the first backend
    of the list with the minimum number of active connections; if every counter
    is at that maximum it returns nil without an error. *)
Theorem LeastConnections_min r bs σ s :
  bs ≠ [] → live σ bs →
  (Exists (λ l, conns σ l < max_int64) bs →
     ∃ b, LeastConnections_Next r bs σ s = (Ret (Some b, None), s) ∧
       first_least σ b bs ∧ ∀ l, l ∈ bs → conns σ b ≤ conns σ l) ∧
  (Forall (λ l, conns σ l = max_int64) bs →
     LeastConnections_Next r bs σ s = (Ret (None, None), s)).
Proof.
  intros Hne Hl. destruct (LeastConnections_cases r bs σ s Hne Hl) as [[Hall E]|(b & Hlt & Hb & E)].
  - split; [|done]. rewrite Exists_exists. intros (l & Hin & Hlt).
    rewrite Forall_forall in Hall. pose proof (Hall l Hin). lia.
  - split.
    + intros _. exists b. split_and!; [done..|].
      destruct Hb as (pre & post & -> & Hpre & Hpost). rewrite Forall_forall in Hpre, Hpost.
      intros l [Hin|[->|Hin]%elem_of_cons]%elem_of_app; [|lia|auto].
      pose proof (Hpre l Hin). simpl in *. lia.
    + rewrite Forall_forall. intros Hmax.
      rewrite (Hmax b (first_least_elem _ _ _ Hb)) in Hlt. lia.
Qed.

(** ** Witnesses *)

Definition lc_store : store :=
  {[ 0%nat := set_activeConns 4 (ex_backend "b0" 1 HealthHealthy);
     1%nat := set_activeConns 2 (ex_backend "b1" 1 HealthHealthy);
     2%nat := set_activeConns 2 (ex_backend "b2" 1 HealthHealthy) ]}.

Lemma LeastConnections_min_witness :
  LeastConnections_Next (ex_request "1.2.3.4:5") [0; 1; 2]%nat lc_store tt = (Ret (Some 1%nat, None), tt) ∧
  ∃ b, LeastConnections_Next (ex_request "1.2.3.4:5") [0; 1; 2]%nat lc_store tt = (Ret (Some b, None), tt) ∧
    first_least lc_store b [0; 1; 2]%nat ∧ ∀ l, l ∈ [0; 1; 2]%nat → conns lc_store b ≤ conns lc_store l.
Proof.
  split; [vm_compute; reflexivity|].
  apply (LeastConnections_min (ex_request "1.2.3.4:5") [0; 1; 2]%nat lc_store tt).
  - done.
  - repeat constructor; eexists; vm_compute; reflexivity.
  - left. vm_compute. reflexivity.
Defined.
