(* ===== verification/SelP2C.v ===== *)
(** Power of two choices (internal/balancer/p2c.go).

    The generator [math/rand.Rand] is a parameter: a state and its [Intn],
    whose documented behaviour, a value in [[0, n)] for positive [n], is the
    hypothesis of the theorems. *)

From S2P Require Export SelLeastConn.

#[local] Open Scope Z_scope.

Section p2c.
Context {Rng : Type}.
Variable Intn : Z → Rng → Z * Rng.

(** The state of the algorithm is the generator's. *)
Record P2C := mkP2C { p2c_rng : Rng }.

(** [rand_New seed] is [rand.New(rand.NewSource(seed))]. *)
Definition NewP2C (rand_New : Z → Rng) : P2C := mkP2C (rand_New 42).

Definition draw (n : Z) : M P2C Z := λ s,
  let (v, g) := Intn n (p2c_rng s) in (Ret v, mkP2C g).

Definition P2C_Next (_ : Request) (bs : list loc) (σ : store) : M P2C selection :=
  let n := zlen bs in
  if decide (n = 0) then mret (None, Some ErrNoBackends)
  else if decide (n = 1) then b ← lift (go_index bs 0); mret (Some b, None)
  else
    i ← draw n;
    j ← draw (n - 1);
    let j := if decide (i ≤ j) then j + 1 else j in
    a ← lift (go_index bs i);
    b ← lift (go_index bs j);
    ca ← lift (Backend_ActiveConns σ a);
    cb ← lift (Backend_ActiveConns σ b);
    if decide (ca ≤ cb) then mret (Some a, None) else mret (Some b, None).

(** [Intn(n)] returns a value in [[0, n)]. *)
Definition Intn_in_range : Prop := ∀ n g, 0 < n → 0 ≤ (Intn n g).1 < n.
End p2c.
Arguments P2C : clear implicits.

(** The pair of positions the two draws stand for. *)
Definition p2c_pair (d : Z * Z) : Z * Z :=
  (d.1, if decide (d.1 ≤ d.2) then d.2 + 1 else d.2).

(** ** Lemmas *)

Lemma P2C_Next_two {Rng} (Intn : Z → Rng → Z * Rng) r bs σ g :
  Intn_in_range Intn → live σ bs → (2 ≤ length bs)%nat →
  ∃ i j a b g', i ≠ j ∧ bs !! i = Some a ∧ bs !! j = Some b ∧
    P2C_Next Intn r bs σ (mkP2C g) =
      (Ret (if decide (conns σ a ≤ conns σ b) then Some a else Some b, None), mkP2C g').
Proof.
  intros Hrng Hl Hn. unfold P2C_Next, draw, zlen.
  rewrite !decide_False by lia. go_step.
  pose proof (Hrng (Z.of_nat (length bs)) g ltac:(lia)) as Hi.
  destruct (Intn _ g) as [i g1]. simpl in *.
  pose proof (Hrng (Z.of_nat (length bs) - 1) g1 ltac:(lia)) as Hj.
  destruct (Intn _ g1) as [j g2]. simpl in *.
  set (j' := if decide (i ≤ j) then j + 1 else j).
  assert (0 ≤ j' < Z.of_nat (length bs) ∧ j' ≠ i) as [Hj' Hne]
    by (unfold j'; case_decide; lia).
  destruct (go_index_in_range bs i Hi) as (a & -> & Ha).
  destruct (go_index_in_range bs j' Hj') as (b & -> & Hb).
  rewrite !ActiveConns_conns by eauto using list_elem_of_lookup_2 with go_db.
  exists (Z.to_nat i), (Z.to_nat j'), a, b, g2. split_and!; [lia|done..|].
  by case_decide.
Qed.

#[export, program] Instance P2C_Laws {Rng} (Intn : Z → Rng → Z * Rng) :
  @SelectorLaws (P2C Rng) (P2C_Next Intn) := {|
  sel_ready _ _ _ _ := Intn_in_range Intn;
|}.
Next Obligation.
  intros Rng Intn r bs σ [g] Hne Hl Hr. unfold Next.
  destruct bs as [|b0 [|b1 bs]]; [done| |].
  - exists b0, (mkP2C g). split; [done|left].
  - destruct (P2C_Next_two Intn r (b0 :: b1 :: bs) σ g Hr Hl ltac:(simpl; lia))
      as (i & j & a & b & g' & _ & Ha & Hb & ->).
    case_decide; eauto using list_elem_of_lookup_2.
Qed.
Next Obligation. intros Rng Intn r σ s _. by exists s. Qed.

(** ** Properties *)

(** Power of two choices on at least two live backends does not panic,
    compares two different positions and returns the one with no more
    connections than the other; so a backend with strictly more connections
    than every other position is never chosen. *)
Theorem P2C_less_loaded {Rng} (Intn : Z → Rng → Z * Rng) r bs σ g :
  Intn_in_range Intn → live σ bs → (2 ≤ length bs)%nat →
  ∃ i j a b g', i ≠ j ∧ bs !! i = Some a ∧ bs !! j = Some b ∧
    P2C_Next Intn r bs σ (mkP2C g) = (Ret (Some a, None), mkP2C g') ∧
    conns σ a ≤ conns σ b ∧
    (∀ k m, bs !! k = Some m →
       (∀ k' x, k' ≠ k → bs !! k' = Some x → conns σ x < conns σ m) → m ≠ a).
Proof.
  intros Hr Hl Hn.
  assert (∀ i j a b, i ≠ j → bs !! i = Some a → bs !! j = Some b → conns σ a ≤ conns σ b →
    ∀ k m, bs !! k = Some m →
      (∀ k' x, k' ≠ k → bs !! k' = Some x → conns σ x < conns σ m) → m ≠ a) as Hmax.
  { intros i j a b Hij Ha Hb Hle k m Hk Hlt ->.
    destruct (decide (j = k)) as [->|Hjk].
    - pose proof (Hlt i a Hij Ha). lia.
    - pose proof (Hlt j b Hjk Hb). lia. }
  destruct (P2C_Next_two Intn r bs σ g Hr Hl Hn) as (i & j & a & b & g' & Hij & Ha & Hb & E).
  case_decide as Hle.
  - exists i, j, a, b, g'. eauto 10.
  - exists j, i, b, a, g'. split_and!; [done..|lia|]. eapply (Hmax j i b a); [done..|lia].
Qed.

(** The two draws are unbiased: the map from draws to positions used by
    [Next] is a bijection between [[0,n) x [0,n-1)] and the ordered pairs of
    different positions below [n], so independent uniform draws give every
    ordered pair the same probability. *)
Theorem p2c_pair_bijective n :
  (∀ d, 0 ≤ d.1 < n → 0 ≤ d.2 < n - 1 →
     0 ≤ (p2c_pair d).1 < n ∧ 0 ≤ (p2c_pair d).2 < n ∧ (p2c_pair d).1 ≠ (p2c_pair d).2) ∧
  (∀ i j, 0 ≤ i < n → 0 ≤ j < n → i ≠ j →
     exists! d, 0 ≤ d.1 < n ∧ 0 ≤ d.2 < n - 1 ∧ p2c_pair d = (i, j)).
Proof.
  unfold p2c_pair. split.
  - intros [i j]; simpl. intros. case_decide; lia.
  - intros i j Hi Hj Hij. exists (i, if decide (i < j) then j - 1 else j). split.
    + simpl. repeat case_decide; split_and!; try lia; f_equal; lia.
    + intros [i' j']; simpl. intros (? & ? & E). simplify_eq.
      f_equal. repeat case_decide; lia.
Qed.

(** ** Witnesses *)

(** A generator that counts: [Intn n] is the counter modulo [n]. *)
Definition count_rng (n : Z) (g : Z) : Z * Z := (g mod n, g + 1).

Lemma count_rng_in_range : Intn_in_range count_rng.
Proof. intros n g H. apply Z.mod_pos_bound. lia. Qed.

Lemma P2C_less_loaded_witness :
  (P2C_Next count_rng (ex_request "1.2.3.4:5") [0; 1; 2]%nat lc_store (mkP2C 0)).1
    = Ret (Some 2%nat, None) ∧
  ∃ i j a b g', i ≠ j ∧ [0; 1; 2]%nat !! i = Some a ∧ [0; 1; 2]%nat !! j = Some b ∧
    P2C_Next count_rng (ex_request "1.2.3.4:5") [0; 1; 2]%nat lc_store (mkP2C 0)
      = (Ret (Some a, None), mkP2C g') ∧
    conns lc_store a ≤ conns lc_store b ∧
    (∀ k m, [0; 1; 2]%nat !! k = Some m →
       (∀ k' x, k' ≠ k → [0; 1; 2]%nat !! k' = Some x → conns lc_store x < conns lc_store m) → m ≠ a).
Proof.
  split; [vm_compute; reflexivity|].
  apply (P2C_less_loaded count_rng (ex_request "1.2.3.4:5") [0; 1; 2]%nat lc_store 0).
  - apply count_rng_in_range.
  - repeat constructor; eexists; vm_compute; reflexivity.
  - simpl. lia.
Defined.

Lemma p2c_pair_bijective_witness :
  (p2c_pair (0, 1)).1 ≠ (p2c_pair (0, 1)).2 ∧ p2c_pair (0, 1) = (0, 2).
Proof.
  split; [|reflexivity].
  apply (proj1 (p2c_pair_bijective 3) (0, 1)); simpl; lia.
Defined.
