(* ===== verification/SelIPHash.v ===== *)
(** IP hash and the client address both hash selectors key on
    (internal/balancer/iphash.go). *)

From Stdlib Require Import String.
From S2P Require Export Selector.

#[local] Open Scope Z_scope.

Definition IPHash : Type := ().
Definition NewIPHash : IPHash := tt.

Definition clientIP (r : Request) : string :=
  let xff := Header_Get (req_Header r) "X-Forwarded-For" in
  if decide (xff ≠ "") then
    let ip := split_host xff in
    if decide (ip ≠ "") then ip else xff
  else
    match SplitHostPort (req_RemoteAddr r) with
    | inr _ => req_RemoteAddr r
    | inl (ip, _) => ip
    end.

Definition fnv32a (s : string) : Z := fnv_sum32a (bytes_of s).

Definition IPHash_Next (r : Request) (bs : list loc) (_ : store) : M IPHash selection :=
  if decide (zlen bs = 0) then mret (None, Some ErrNoBackends)
  else
    let hash := fnv32a (clientIP r) in
    let idx := go_rem hash (zlen bs) in
    b ← lift (go_index bs idx);
    mret (Some b, None).

#[export] Instance IPHash_Selector : Selector IPHash := IPHash_Next.

(** ** Lemmas *)

Lemma fnv32a_range s : 0 ≤ fnv32a s < 2 ^ 32.
Proof. apply fnv_sum32a_range. Qed.

Lemma IPHash_Next_spec r bs σ s :
  bs ≠ [] →
  ∃ b, bs !! (Z.to_nat (fnv32a (clientIP r)) mod length bs)%nat = Some b ∧
    IPHash_Next r bs σ s = (Ret (Some b, None), s).
Proof.
  intros Hne. pose proof (fnv32a_range (clientIP r)) as Hh. pose proof (zlen_pos bs Hne) as Hp.
  destruct (cyclic_lookup bs (Z.to_nat (fnv32a (clientIP r))) Hne) as [b Hb].
  exists b. split; [done|]. unfold IPHash_Next. rewrite decide_False by (by rewrite zlen_zero).
  rewrite go_rem_mod by lia.
  replace (fnv32a (clientIP r) mod zlen bs)
    with (Z.of_nat (Z.to_nat (fnv32a (clientIP r)) mod length bs)).
  2:{ unfold zlen in *. rewrite Nat2Z.inj_mod, Z2Nat.id by lia. done. }
  go_step. by rewrite (go_index_Ret _ _ _ Hb).
Qed.

(** IP hash is always ready. *)
#[export, program] Instance IPHash_Laws : SelectorLaws IPHash := {|
  sel_ready _ _ _ _ := True;
|}.
Next Obligation.
  intros r bs σ s Hne _ _. destruct (IPHash_Next_spec r bs σ s Hne) as (b & Hb & E).
  eauto using list_elem_of_lookup_2.
Qed.
Next Obligation. intros r σ s _. by exists s. Qed.

Lemma clientIP_xff_no_colon r xff :
  Header_Get (req_Header r) "X-Forwarded-For" = xff → xff ≠ "" →
  index_byte colon xff = None → clientIP r = xff.
Proof.
  intros Hx Hne Hc. unfold clientIP. rewrite Hx, decide_True by done.
  unfold split_host. rewrite SplitHostPort_no_colon by done. by rewrite decide_False by auto.
Qed.

(** ** Properties *)

(** IP hash is sticky: on a nonempty list it never fails, the chosen
    backend is the one at the FNV-1a hash of the client address modulo the
    number of backends, and two requests from the same client address get the
    same backend, whatever else differs between them and between the stores. *)
Theorem IPHash_sticky r r' bs σ σ' s :
  bs ≠ [] → clientIP r = clientIP r' →
  ∃ b, IPHash_Next r bs σ s = (Ret (Some b, None), s) ∧
    IPHash_Next r' bs σ' s = (Ret (Some b, None), s) ∧
    bs !! (Z.to_nat (fnv32a (clientIP r)) mod length bs)%nat = Some b.
Proof.
  intros Hne Hip.
  destruct (IPHash_Next_spec r bs σ s Hne) as (b & Hb & E).
  destruct (IPHash_Next_spec r' bs σ' s Hne) as (b' & Hb' & E').
  rewrite <- Hip in Hb'. exists b. split_and!; [done| |done]. by replace b with b' by congruence.
Qed.

(** The client address taken from [X-Forwarded-For]: a plain [host:port]
    value gives the host, while a value without a colon is used whole, so for a
    proxy chain of IPv4 addresses it is the entire comma-separated list and not
    its leftmost entry, and two chains that start at the same client but differ
    later count as different clients; without the header, the peer address
    gives its host. *)
Theorem clientIP_spec r :
  (∀ h p, index_byte colon h = None → index_byte colon p = None →
     index_byte lbracket h = None → index_byte lbracket p = None →
     index_byte rbracket h = None → index_byte rbracket p = None → h ≠ "" →
     Header_Get (req_Header r) "X-Forwarded-For" = h +:+ String colon p → clientIP r = h) ∧
  (∀ first rest, index_byte colon first = None → index_byte colon rest = None →
     Header_Get (req_Header r) "X-Forwarded-For" = first +:+ ", " +:+ rest →
     clientIP r = first +:+ ", " +:+ rest ∧ clientIP r ≠ first) ∧
  (∀ h p, index_byte colon h = None → index_byte colon p = None →
     index_byte lbracket h = None → index_byte lbracket p = None →
     index_byte rbracket h = None → index_byte rbracket p = None →
     Header_Get (req_Header r) "X-Forwarded-For" = "" →
     req_RemoteAddr r = h +:+ String colon p → clientIP r = h).
Proof.
  split_and!.
  - intros h p H1 H2 H3 H4 H5 H6 Hne Hx. unfold clientIP. rewrite Hx.
    rewrite decide_True by (by destruct h). unfold split_host.
    rewrite SplitHostPort_plain by done. by rewrite decide_True.
  - intros first rest H1 H2 Hx.
    assert (clientIP r = first +:+ ", " +:+ rest) as E.
    { apply clientIP_xff_no_colon; [done|by destruct first|].
      apply index_byte_app_None; [done|]. by apply index_byte_app_None. }
    split; [done|]. rewrite E. intros Heq. apply (f_equal String.length) in Heq.
    rewrite !str_length_app in Heq. simpl in Heq. lia.
  - intros h p H1 H2 H3 H4 H5 H6 Hx Ha. unfold clientIP.
    rewrite Hx, decide_False by auto. by rewrite Ha, SplitHostPort_plain.
Qed.

(** ** Witnesses *)

Definition ex_request_xff (remote xff : string) : Request :=
  mkRequest "GET" "lb" remote {[ "X-Forwarded-For" := [xff] ]} "" "" "/" "" false [].

Lemma IPHash_sticky_witness :
  ∃ b, IPHash_Next (ex_request "10.0.0.7:1000") [0; 1; 2]%nat ∅ tt = (Ret (Some b, None), tt) ∧
    IPHash_Next (ex_request "10.0.0.7:2000") [0; 1; 2]%nat ∅ tt = (Ret (Some b, None), tt) ∧
    [0; 1; 2]%nat !! (Z.to_nat (fnv32a (clientIP (ex_request "10.0.0.7:1000"))) mod 3)%nat = Some b.
Proof.
  apply (IPHash_sticky (ex_request "10.0.0.7:1000") (ex_request "10.0.0.7:2000") [0; 1; 2]%nat ∅ ∅ tt);
    [done|vm_compute; reflexivity].
Defined.

Lemma clientIP_spec_witness :
  clientIP (ex_request_xff "9.9.9.9:1" "1.1.1.1, 2.2.2.2") = "1.1.1.1, 2.2.2.2" ∧
  clientIP (ex_request_xff "9.9.9.9:1" "1.1.1.1, 2.2.2.2") ≠ "1.1.1.1".
Proof.
  apply (proj1 (proj2 (clientIP_spec (ex_request_xff "9.9.9.9:1" "1.1.1.1, 2.2.2.2"))) "1.1.1.1" "2.2.2.2");
    vm_compute; reflexivity.
Defined.
