(* ===== verification/SelConsistentHash.v ===== *)
(** Consistent hashing (internal/balancer/consistenthash.go). *)

From Stdlib Require Import String.
From stdpp Require Import sorting.
From S2P Require Export SelIPHash.

#[local] Open Scope Z_scope.

Definition defaultVirtualNodes : Z := 150.

Record ConsistentHash := mkCH {
  ch_ring : list Z;
  ch_nodeMap : gmap Z loc;
  ch_virtualNodes : Z;
}.

Definition NewConsistentHash (virtualNodes : Z) : ConsistentHash :=
  let virtualNodes := if decide (virtualNodes ≤ 0) then defaultVirtualNodes else virtualNodes in
  mkCH [] ∅ virtualNodes.

(** The hash of the [i]-th replica of a backend. *)
Definition vnode_key (id : string) (i : Z) : Z := fnv32a (id +:+ "#" +:+ itoa i).

(** [for i := 0; i < ch.virtualNodes; i++ { ... }], with the loop's two
    accumulators; [n] iterations are left and [i] is the next index. *)
Fixpoint vnode_loop (n : nat) (i : Z) (id : string) (b : loc) (acc : list Z * gmap Z loc)
    : list Z * gmap Z loc :=
  match n with
  | O => acc
  | S n' =>
      let key := vnode_key id i in
      vnode_loop n' (i + 1) id b (acc.1 ++ [key], <[key := b]> acc.2)
  end.

Fixpoint build_loop (σ : store) (vn : Z) (bs : list loc) (acc : list Z * gmap Z loc)
    : outcome (list Z * gmap Z loc) :=
  match bs with
  | [] => Ret acc
  | b :: bs' =>
      bk ← deref σ b;
      build_loop σ vn bs' (vnode_loop (Z.to_nat vn) 0 (ID bk) b acc)
  end.

(** [sort.Slice] with [<] on [uint32] keys. *)
Definition sort_ring (ring : list Z) : list Z := merge_sort (≤) ring.

Definition ConsistentHash_Build (σ : store) (bs : list loc) : M ConsistentHash () :=
  vn ← gets ch_virtualNodes;
  acc ← lift (build_loop σ vn bs ([], ∅));
  modify (λ ch, mkCH (sort_ring acc.1) acc.2 (ch_virtualNodes ch)).

(** [sort.Search(n, f)]: binary search on [[i, j)]; [fuel] bounds the number of
    halvings. *)
Fixpoint search_loop (fuel : nat) (f : nat → bool) (i j : nat) : nat :=
  match fuel with
  | O => i
  | S fuel' =>
      if decide (i < j)%nat then
        let h := Nat.div2 (i + j) in
        if f h then search_loop fuel' f i h else search_loop fuel' f (S h) j
      else i
  end.
Definition sort_Search (n : nat) (f : nat → bool) : nat := search_loop n f 0 n.

Definition ConsistentHash_Next (r : Request) (bs : list loc) (σ : store)
    : M ConsistentHash selection :=
  ring ← gets ch_ring;
  (if decide (zlen ring = 0) then ConsistentHash_Build σ bs else mret tt);;
  ring ← gets ch_ring;
  nodeMap ← gets ch_nodeMap;
  if decide (zlen ring = 0) then mret (None, Some ErrNoBackends)
  else
    let hash := fnv32a (clientIP r) in
    let idx := sort_Search (length ring)
                 (λ i, bool_decide (hash ≤ default 0 (ring !! i))) in
    let idx := if decide (idx = length ring) then 0%nat else idx in
    key ← lift (go_index ring (Z.of_nat idx));
    mret (nodeMap !! key, None).

#[export] Instance ConsistentHash_Selector : Selector ConsistentHash := ConsistentHash_Next.

(** ** Specification: clockwise successor and ownership *)

(** Keys of the replicas of one backend. *)
Definition vnode_keys (vn : Z) (id : string) : list Z :=
  (λ i, vnode_key id (Z.of_nat i)) <$> seq 0 (Z.to_nat vn).

Definition backend_keys (σ : store) (vn : Z) (l : loc) : list Z :=
  match σ !! l with Some b => vnode_keys vn (ID b) | None => [] end.

Definition all_keys (σ : store) (vn : Z) (bs : list loc) : list Z :=
  bs ≫= backend_keys σ vn.

(** The owner of a key: the last backend of the list with a replica there. *)
Definition owner (σ : store) (vn : Z) (bs : list loc) (k : Z) : option loc :=
  last (filter (λ l, k ∈ backend_keys σ vn l) bs).

(** [k] is the first key clockwise from [h]: the least key at or after [h], or
    the least of all keys when none is. *)
Definition successor (keys : list Z) (h k : Z) : Prop :=
  k ∈ keys ∧
  ((h ≤ k ∧ ∀ k', k' ∈ keys → h ≤ k' → k ≤ k') ∨
   ((∀ k', k' ∈ keys → k' < h) ∧ ∀ k', k' ∈ keys → k ≤ k')).

(** The state [Build] is meant to install. *)
Definition built (σ : store) (vn : Z) (bs : list loc) (ch : ConsistentHash) : Prop :=
  ch_ring ch = sort_ring (all_keys σ vn bs) ∧
  (∀ k, ch_nodeMap ch !! k = owner σ vn bs k) ∧ ch_virtualNodes ch = vn.

(** Every key of the ring has an owner in the map, taken from [src]. *)
Definition ring_wf (src : list loc) (ch : ConsistentHash) : Prop :=
  ∀ k, k ∈ ch_ring ch → ∃ l, ch_nodeMap ch !! k = Some l ∧ l ∈ src.

(** ** Lemmas: binary search *)

Lemma search_loop_spec fuel f i j :
  (∀ m m', m ≤ m' → f m = true → f m' = true)%nat →
  (i ≤ j)%nat → (j - i ≤ fuel)%nat →
  let k := search_loop fuel f i j in
  (i ≤ k ≤ j)%nat ∧ (∀ m, i ≤ m < k → f m = false)%nat ∧ (∀ m, k ≤ m < j → f m = true)%nat.
Proof.
  intros Hmono. revert i j. induction fuel as [|fuel IH]; intros i j Hij Hf; simpl.
  { split_and!; [lia|lia|intros; lia..]. }
  case_decide as Hlt; [|split_and!; [lia|lia|intros; lia..]].
  set (h := Nat.div2 (i + j)).
  assert (i ≤ h < j)%nat as Hh.
  { unfold h. rewrite Nat.div2_div. split.
    - apply Nat.div_le_lower_bound; lia.
    - apply Nat.Div0.div_lt_upper_bound; lia. }
  destruct (f h) eqn:Efh.
  - destruct (IH i h) as (H1 & H2 & H3); [lia|lia|]. split_and!; [lia|lia|auto|].
    intros m Hm. destruct (decide (m < h)%nat); [apply H3; lia|].
    apply (Hmono h); [lia|done].
  - destruct (IH (S h) j) as (H1 & H2 & H3); [lia|lia|]. split_and!; [lia|lia| |auto].
    intros m Hm. destruct (decide (S h ≤ m)%nat); [apply H2; lia|].
    destruct (f m) eqn:Em; [|done]. rewrite (Hmono m h) in Efh by (done || lia). done.
Qed.

Lemma search_loop_ext fuel f g i j n :
  (∀ m, m < n → f m = g m)%nat → (j ≤ n)%nat → search_loop fuel f i j = search_loop fuel g i j.
Proof.
  intros Hext. revert i j. induction fuel as [|fuel IH]; intros i j Hj; simpl; [done|].
  case_decide as Hlt; [|done].
  assert (Nat.div2 (i + j) < n)%nat as Hh.
  { rewrite Nat.div2_div. apply Nat.Div0.div_lt_upper_bound. lia. }
  rewrite (Hext _ Hh). case_match; apply IH; lia.
Qed.

Lemma sort_Search_ext n f g :
  (∀ m, m < n → f m = g m)%nat → sort_Search n f = sort_Search n g.
Proof. intros H. by apply (search_loop_ext _ _ _ _ _ n). Qed.

(** [sort.Search] finds the least index at which a monotone test holds. *)
Lemma sort_Search_least n f :
  (∀ m m', m ≤ m' → f m = true → f m' = true)%nat →
  (sort_Search n f ≤ n)%nat ∧ (∀ m, m < sort_Search n f → f m = false)%nat ∧
  (∀ m, sort_Search n f ≤ m < n → f m = true)%nat.
Proof.
  intros Hmono. destruct (search_loop_spec n f 0 n Hmono) as (H1 & H2 & H3); [lia|lia|].
  unfold sort_Search. split_and!; [lia| |done]. intros m Hm. apply H2. lia.
Qed.

(** ** Lemmas: the sorted ring *)

Lemma sort_ring_Permutation ring : sort_ring ring ≡ₚ ring.
Proof. apply merge_sort_Permutation. Qed.

Lemma elem_of_sort_ring ring k : k ∈ sort_ring ring ↔ k ∈ ring.
Proof. by rewrite sort_ring_Permutation. Qed.

Lemma sort_ring_nil ring : sort_ring ring = [] ↔ ring = [].
Proof.
  pose proof (Permutation_length (sort_ring_Permutation ring)) as H.
  destruct ring, (sort_ring _); simpl in *; split; intros; done.
Qed.

Lemma StronglySorted_lookup (l : list Z) i j x y :
  StronglySorted (≤) l → (i ≤ j)%nat → l !! i = Some x → l !! j = Some y → x ≤ y.
Proof.
  intros H. revert i j. induction H as [|a l _ IH Ha]; intros i j Hij Hi Hj; [done|].
  destruct i as [|i], j as [|j]; simplify_eq/=; [lia| |lia|apply (IH i j); [lia|done..]].
  rewrite Forall_forall in Ha. apply Ha. by eapply list_elem_of_lookup_2.
Qed.

(** Binary search on the sorted ring finds the clockwise successor. *)
Lemma ring_search keys h :
  let ring := sort_ring keys in
  let idx := sort_Search (length ring) (λ i, bool_decide (h ≤ default 0 (ring !! i))) in
  let idx := if decide (idx = length ring) then 0%nat else idx in
  keys ≠ [] → ∃ k, ring !! idx = Some k ∧ successor keys h k.
Proof.
  simpl. intros Hne. set (ring := sort_ring keys).
  assert (StronglySorted (≤) ring) as Hs by (apply StronglySorted_merge_sort; apply _).
  assert (ring ≠ []) as Hr by (unfold ring; by rewrite sort_ring_nil).
  assert (∀ k, k ∈ keys ↔ k ∈ ring) as Helem by (intros; unfold ring; by rewrite elem_of_sort_ring).
  set (f := λ i, bool_decide (h ≤ default 0 (ring !! i))).
  set (n := length ring).
  (* Beyond the end the test is false, so search within the bound. *)
  set (g := λ i, if decide (i < n)%nat then f i else true).
  assert (∀ i, i < n → ∃ x, ring !! i = Some x)%nat as Hat
    by (intros; by apply lookup_lt_is_Some_2).
  assert (∀ m m', m ≤ m' → g m = true → g m' = true)%nat as Hmono.
  { intros m m' Hm. unfold g, f.
    destruct (decide (m < n)%nat), (decide (m' < n)%nat); try done; [|lia].
    destruct (Hat m) as [x Hx]; [done|]. destruct (Hat m') as [y Hy]; [done|].
    rewrite Hx, Hy. simpl. rewrite !bool_decide_eq_true.
    pose proof (StronglySorted_lookup ring m m' x y Hs Hm Hx Hy). lia. }
  assert (sort_Search n f = sort_Search n g) as ->.
  { apply (sort_Search_ext n f g). intros i Hi. unfold g. by rewrite decide_True. }
  destruct (sort_Search_least n g Hmono) as (H1 & H2 & H3).
  set (idx := sort_Search n g) in *.
  assert (∀ m x, ring !! m = Some x → (m < idx)%nat → x < h) as Hbelow.
  { intros m x Hx Hm. pose proof (H2 m Hm) as Hg. unfold g, f in Hg.
    rewrite decide_True in Hg by lia. rewrite Hx in Hg. simpl in Hg.
    apply bool_decide_eq_false in Hg. lia. }
  assert (∀ m x, ring !! m = Some x → (idx ≤ m)%nat → h ≤ x) as Habove.
  { intros m x Hx Hm. pose proof (lookup_lt_Some _ _ _ Hx) as Hlt. fold n in Hlt.
    pose proof (H3 m ltac:(lia)) as Hg. unfold g, f in Hg.
    rewrite decide_True in Hg by lia. rewrite Hx in Hg. simpl in Hg.
    by apply bool_decide_eq_true in Hg. }
  case_decide as Hend.
  - destruct ring as [|k0 ring'] eqn:Ering; [done|]. exists k0. split; [done|].
    split; [apply Helem; left|]. right. split.
    + intros k' Hk'. apply Helem, list_elem_of_lookup in Hk' as [m Hm].
      apply (Hbelow m); [done|]. apply lookup_lt_Some in Hm. unfold n in Hend. lia.
    + intros k' Hk'. apply Helem, list_elem_of_lookup in Hk' as [m Hm].
      apply (StronglySorted_lookup _ 0 m k0 k' Hs); [lia|done..].
  - destruct (Hat idx) as [k Hk]; [lia|]. exists k. split; [done|].
    split; [apply Helem; by eapply list_elem_of_lookup_2|]. left. split.
    + by apply (Habove idx).
    + intros k' Hk' Hle. apply Helem, list_elem_of_lookup in Hk' as [m Hm].
      destruct (decide (m < idx)%nat) as [Hlt|Hge]; [pose proof (Hbelow m k' Hm Hlt); lia|].
      apply (StronglySorted_lookup _ idx m k k' Hs); [lia|done..].
Qed.

Lemma successor_unique keys h k k' : successor keys h k → successor keys h k' → k = k'.
Proof.
  intros (Hk & Hs) (Hk' & Hs'). apply Z.le_antisymm.
  - destruct Hs as [[H1 H2]|[H1 H2]]; [|auto].
    destruct Hs' as [[H1' H2']|[H1' H2']]; [auto|]. pose proof (H1' k Hk). lia.
  - destruct Hs' as [[H1 H2]|[H1 H2]]; [|auto].
    destruct Hs as [[H1' H2']|[H1' H2']]; [auto|]. pose proof (H1' k' Hk'). lia.
Qed.

(** A successor in a larger set that lies in the smaller one is its successor. *)
Lemma successor_subset keys keys' h k :
  (∀ x, x ∈ keys → x ∈ keys') → successor keys' h k → k ∈ keys → successor keys h k.
Proof.
  intros Hsub (_ & [[H1 H2]|[H1 H2]]) Hk; split; [done|left|done|right]; split; auto.
Qed.

(** ** Lemmas: ownership *)

Lemma owner_app σ vn bs1 bs2 k :
  owner σ vn (bs1 ++ bs2) k =
    match owner σ vn bs2 k with Some l => Some l | None => owner σ vn bs1 k end.
Proof. unfold owner. by rewrite filter_app, last_app. Qed.

Lemma owner_cons σ vn x bs k :
  owner σ vn (x :: bs) k =
    match owner σ vn bs k with
    | Some l => Some l
    | None => if decide (k ∈ backend_keys σ vn x) then Some x else None
    end.
Proof.
  change (x :: bs) with ([x] ++ bs). rewrite owner_app. destruct (owner σ vn bs k); [done|].
  unfold owner. rewrite filter_cons. by case_decide.
Qed.

Lemma owner_Some σ vn bs k l :
  owner σ vn bs k = Some l → l ∈ bs ∧ k ∈ backend_keys σ vn l.
Proof.
  unfold owner. intros (l' & H)%last_Some.
  assert (l ∈ filter (λ x, k ∈ backend_keys σ vn x) bs) as [? ?]%list_elem_of_filter
    by (rewrite H; set_solver). done.
Qed.

Lemma elem_of_all_keys σ vn bs k :
  k ∈ all_keys σ vn bs ↔ ∃ l, l ∈ bs ∧ k ∈ backend_keys σ vn l.
Proof. unfold all_keys. rewrite list_elem_of_bind. split; intros (l & ? & ?); eauto. Qed.

Lemma owner_is_Some σ vn bs k : is_Some (owner σ vn bs k) ↔ k ∈ all_keys σ vn bs.
Proof.
  rewrite elem_of_all_keys. split.
  - intros [l Hl%owner_Some]. eauto.
  - intros (l & Hin & Hk). unfold owner. apply last_is_Some. intros H.
    apply filter_none in H. rewrite Forall_forall in H. by apply (H l).
Qed.

Lemma all_keys_nonempty σ vn bs :
  0 < vn → live σ bs → bs ≠ [] → all_keys σ vn bs ≠ [].
Proof.
  intros Hvn Hl Hne. destruct Hl as [|l bs [b Hb] _]; [done|].
  intros H. assert (vnode_key (ID b) 0 ∈ all_keys σ vn (l :: bs)) as Hin.
  { apply elem_of_all_keys. exists l. split; [left|]. unfold backend_keys. rewrite Hb.
    unfold vnode_keys. apply list_elem_of_fmap. exists 0%nat. split; [done|].
    apply elem_of_seq. lia. }
  rewrite H in Hin. by apply elem_of_nil in Hin.
Qed.

(** ** Lemmas: the loops of [Build] *)

Lemma vnode_loop_spec n i id b acc :
  let keys := (λ j, vnode_key id (i + Z.of_nat j)) <$> seq 0 n in
  (vnode_loop n i id b acc).1 = acc.1 ++ keys ∧
  ∀ k, (vnode_loop n i id b acc).2 !! k = if decide (k ∈ keys) then Some b else acc.2 !! k.
Proof.
  cbv zeta. revert i acc. induction n as [|n IH]; intros i acc.
  - split; [by rewrite app_nil_r|done].
  - cbn [vnode_loop].
    destruct (IH (i + 1) (acc.1 ++ [vnode_key id i], <[vnode_key id i := b]> acc.2)) as [-> H2].
    assert ((λ j, vnode_key id (i + Z.of_nat j)) <$> seq 0 (S n) =
            vnode_key id i :: ((λ j, vnode_key id (i + 1 + Z.of_nat j)) <$> seq 0 n)) as ->.
    { change (seq 0 (S n)) with (0%nat :: seq 1 n). rewrite fmap_cons. f_equal.
      - f_equal. lia.
      - rewrite <- fmap_S_seq, <- list_fmap_compose. apply list_fmap_ext. intros j x _. simpl.
        f_equal. lia. }
    split; [simpl; by rewrite <- app_assoc|].
    intros k. rewrite H2. simpl. rewrite lookup_insert.
    repeat case_decide; subst; rewrite ?elem_of_cons, ?not_elem_of_cons in *; try done; intuition congruence.
Qed.

Lemma build_loop_spec σ vn bs acc :
  live σ bs → ∃ acc', build_loop σ vn bs acc = Ret acc' ∧
    acc'.1 = acc.1 ++ all_keys σ vn bs ∧
    ∀ k, acc'.2 !! k = match owner σ vn bs k with Some l => Some l | None => acc.2 !! k end.
Proof.
  intros H. revert acc. induction H as [|l bs [b Hb] _ IH]; intros acc; simpl.
  - exists acc. split_and!; [done|by rewrite app_nil_r|done].
  - rewrite (deref_live _ _ _ Hb). simpl.
    destruct (vnode_loop_spec (Z.to_nat vn) 0 (ID b) l acc) as [H1 H2].
    destruct (IH (vnode_loop (Z.to_nat vn) 0 (ID b) l acc)) as (acc' & -> & H3 & H4).
    assert (backend_keys σ vn l =
      (λ j, vnode_key (ID b) (0 + Z.of_nat j)) <$> seq 0 (Z.to_nat vn)) as Hkeys
      by (unfold backend_keys; by rewrite Hb).
    exists acc'. split_and!; [done| |].
    + rewrite H3, H1, <- app_assoc. by rewrite <- Hkeys.
    + intros k. rewrite H4, owner_cons, H2, <- Hkeys.
      destruct (owner σ vn bs k); [done|]. by case_decide.
Qed.

Lemma ConsistentHash_Build_built σ bs ch :
  live σ bs → ∃ ch', ConsistentHash_Build σ bs ch = (Ret tt, ch') ∧
    built σ (ch_virtualNodes ch) bs ch'.
Proof.
  intros Hl. unfold ConsistentHash_Build. go_step.
  destruct (build_loop_spec σ (ch_virtualNodes ch) bs ([], ∅) Hl) as (acc & -> & H1 & H2).
  eexists. split; [done|]. split_and!; simpl; [by rewrite H1| |done].
  intros k. rewrite H2. by destruct (owner _ _ _ _).
Qed.

(** ** Lemmas: [Next] *)

(** With a ring in place, the list and the store play no role. *)
Lemma ConsistentHash_Next_ring r bs σ ch :
  ch_ring ch ≠ [] →
  ConsistentHash_Next r bs σ ch =
    (key ← go_index (ch_ring ch) (Z.of_nat (
        let idx := sort_Search (length (ch_ring ch))
          (λ i, bool_decide (fnv32a (clientIP r) ≤ default 0 (ch_ring ch !! i))) in
        if decide (idx = length (ch_ring ch)) then 0%nat else idx));
     mret (ch_nodeMap ch !! key, None), ch).
Proof.
  intros Hne. unfold ConsistentHash_Next. go_step.
  rewrite decide_False by (by rewrite zlen_zero). go_step.
  rewrite decide_False by (by rewrite zlen_zero). go_step.
  by destruct (go_index _ _).
Qed.

Lemma ConsistentHash_Next_sorted r bs σ ch keys :
  ch_ring ch = sort_ring keys → keys ≠ [] →
  ∃ k, successor keys (fnv32a (clientIP r)) k ∧ k ∈ ch_ring ch ∧
    ConsistentHash_Next r bs σ ch = (Ret (ch_nodeMap ch !! k, None), ch).
Proof.
  intros Hring Hne.
  rewrite ConsistentHash_Next_ring by (rewrite Hring; by rewrite sort_ring_nil).
  rewrite Hring. destruct (ring_search keys (fnv32a (clientIP r)) Hne) as (k & Hk & Hs).
  exists k. split_and!; [done| |].
  - apply elem_of_sort_ring. apply Hs.
  - cbv zeta in *. by rewrite (go_index_Ret _ _ _ Hk).
Qed.

Lemma ConsistentHash_Next_built r bs bs' σ σ' vn ch :
  0 < vn → live σ bs → bs ≠ [] → built σ vn bs ch →
  ∃ k l, successor (all_keys σ vn bs) (fnv32a (clientIP r)) k ∧ owner σ vn bs k = Some l ∧
    ConsistentHash_Next r bs' σ' ch = (Ret (Some l, None), ch).
Proof.
  intros Hvn Hl Hne (Hring & Hmap & _).
  destruct (ConsistentHash_Next_sorted r bs' σ' ch _ Hring) as (k & Hs & _ & E);
    [by apply all_keys_nonempty|].
  destruct (proj2 (owner_is_Some σ vn bs k)) as [l Ho]; [apply Hs|].
  exists k, l. split_and!; [done..|]. by rewrite E, Hmap, Ho.
Qed.

(** On an empty ring, [Next] builds first. *)
Lemma ConsistentHash_Next_empty r bs σ m vn :
  0 < vn → live σ bs → bs ≠ [] →
  ∃ ch', built σ vn bs ch' ∧
    ConsistentHash_Next r bs σ (mkCH [] m vn) = ConsistentHash_Next r bs σ ch'.
Proof.
  intros Hvn Hl Hne.
  destruct (ConsistentHash_Build_built σ bs (mkCH [] m vn) Hl) as (ch' & E & Hb).
  exists ch'. split; [done|].
  assert (ch_ring ch' ≠ []) as Hr.
  { destruct Hb as (-> & _). rewrite sort_ring_nil. by apply all_keys_nonempty. }
  rewrite (ConsistentHash_Next_ring _ _ _ ch') by done.
  unfold ConsistentHash_Next. unfold gets at 1. unfold mbind at 1, M_bind at 1. simpl.
  rewrite (bind_Ret _ _ _ _ _ E). go_step.
  rewrite decide_False by (by rewrite zlen_zero). go_step. by destruct (go_index _ _).
Qed.

(** Ready: either no ring yet, or a ring all of whose owners are offered. *)
#[export, program] Instance ConsistentHash_Laws : SelectorLaws ConsistentHash := {|
  sel_ready _ bs _ ch := 0 < ch_virtualNodes ch ∧ ring_wf bs ch ∧
    ch_ring ch = sort_ring (ch_ring ch);
|}.
Next Obligation.
  intros r bs σ [ring m vn] Hne Hl (Hvn & Hwf & Hs); simpl in *. unfold Next, ConsistentHash_Selector.
  destruct ring as [|k0 ring].
  - destruct (ConsistentHash_Next_empty r bs σ m vn Hvn Hl Hne) as (ch' & Hb & ->).
    destruct (ConsistentHash_Next_built r bs bs σ σ vn ch' Hvn Hl Hne Hb) as (k & l & _ & Ho & ->).
    exists l, ch'. split; [done|]. by apply owner_Some in Ho as [? _].
  - destruct (ConsistentHash_Next_sorted r bs σ (mkCH (k0 :: ring) m vn) _ Hs ltac:(done))
      as (k & _ & Hk & ->).
    destruct (Hwf k Hk) as (l & Hml & Hin). simpl in *. rewrite Hml. eauto.
Qed.
Next Obligation.
  intros r σ [ring m vn] (Hvn & Hwf & _). destruct ring as [|k ring]; [by eexists|].
  destruct (Hwf k) as (l & _ & Hin); [left|]. by apply elem_of_nil in Hin.
Qed.

(** A ring built without a backend and one built with it differ only on the
    keys the new backend takes over. *)
Lemma owner_insert σ vn bs1 x bs2 k l :
  owner σ vn (bs1 ++ x :: bs2) k = Some l →
  l = x ∨ owner σ vn (bs1 ++ bs2) k = Some l.
Proof.
  rewrite !owner_app, owner_cons. destruct (owner σ vn bs2 k); [auto|].
  case_decide; naive_solver.
Qed.

Lemma all_keys_insert σ vn bs1 x bs2 k :
  k ∈ all_keys σ vn (bs1 ++ bs2) → k ∈ all_keys σ vn (bs1 ++ x :: bs2).
Proof.
  rewrite !elem_of_all_keys. intros (l & Hin & Hk). exists l. split; [|done].
  rewrite elem_of_app in *. rewrite elem_of_cons. tauto.
Qed.

(** ** Properties *)

(** C22. Consistent hashing is clockwise lookup: after [Build] over live
    backends, [Next] never fails and returns the owner of the first ring key at
    or after the hash of the client address, wrapping around to the least key,
    where a key shared by several replicas belongs to the last backend built.
    The list offered to [Next] and the state of the backends play no role: a
    backend that became unhealthy, or left the pool, keeps its keys until the
    next [Build]. *)
Theorem ConsistentHash_clockwise r bs σ ch :
  0 < ch_virtualNodes ch → live σ bs → bs ≠ [] →
  ∃ ch', ConsistentHash_Build σ bs ch = (Ret tt, ch') ∧
  ∀ bs' σ', ∃ k l, successor (all_keys σ (ch_virtualNodes ch) bs) (fnv32a (clientIP r)) k ∧
    owner σ (ch_virtualNodes ch) bs k = Some l ∧
    ConsistentHash_Next r bs' σ' ch' = (Ret (Some l, None), ch').
Proof.
  intros Hvn Hl Hne. destruct (ConsistentHash_Build_built σ bs ch Hl) as (ch' & E & Hb).
  exists ch'. split; [done|]. intros bs' σ'. by apply ConsistentHash_Next_built.
Qed.

(** C23. Minimal disruption: rebuilding the ring with one more backend [x], at
    any place of the list, leaves every client where it was or moves it to [x];
    read backwards, removing a backend only moves the clients it served. *)
Theorem ConsistentHash_minimal_disruption r bs1 x bs2 σ ch ch0 :
  0 < ch_virtualNodes ch → ch_virtualNodes ch0 = ch_virtualNodes ch →
  live σ (bs1 ++ x :: bs2) → bs1 ++ bs2 ≠ [] →
  ∃ a b s s', (ConsistentHash_Build σ (bs1 ++ bs2);; ConsistentHash_Next r (bs1 ++ bs2) σ) ch
      = (Ret (Some a, None), s) ∧
    (ConsistentHash_Build σ (bs1 ++ x :: bs2);; ConsistentHash_Next r (bs1 ++ x :: bs2) σ) ch0
      = (Ret (Some b, None), s') ∧
    (b = a ∨ b = x).
Proof.
  intros Hvn Hvn0 Hl Hne.
  assert (live σ (bs1 ++ bs2)) as Hl1.
  { unfold live in *. rewrite Forall_app, Forall_cons in Hl. rewrite Forall_app. tauto. }
  destruct (ConsistentHash_Build_built σ (bs1 ++ bs2) ch Hl1) as (s & E & Hb).
  destruct (ConsistentHash_Build_built σ (bs1 ++ x :: bs2) ch0 Hl) as (s' & E' & Hb').
  rewrite Hvn0 in Hb'. set (vn := ch_virtualNodes ch) in *.
  destruct (ConsistentHash_Next_built r (bs1 ++ bs2) (bs1 ++ bs2) σ σ vn s)
    as (k & a & Hk & Ho & En); [done..|].
  destruct (ConsistentHash_Next_built r (bs1 ++ x :: bs2) (bs1 ++ x :: bs2) σ σ vn s')
    as (k' & b & Hk' & Ho' & En'); [done|done|by destruct bs1|done|].
  exists a, b, s, s'. rewrite (bind_Ret _ _ _ _ _ E), (bind_Ret _ _ _ _ _ E').
  split_and!; [done..|].
  destruct (owner_insert _ _ _ _ _ _ _ Ho') as [->|Hold]; [by right|]. left.
  assert (k' ∈ all_keys σ vn (bs1 ++ bs2)) as Hin by (apply owner_is_Some; eauto).
  assert (k = k') as <-.
  { eapply successor_unique; [exact Hk|].
    eapply successor_subset; [|exact Hk'|exact Hin]. intros y. apply all_keys_insert. }
  congruence.
Qed.

(** ** Witnesses *)

Definition ch_store : store :=
  {[ 0%nat := ex_backend "b0" 1 HealthHealthy; 1%nat := ex_backend "b1" 1 HealthHealthy;
     2%nat := ex_backend "b2" 1 HealthHealthy; 3%nat := ex_backend "extra" 1 HealthHealthy ]}.

Lemma ch_store_live : live ch_store [0; 1; 3; 2]%nat.
Proof. repeat constructor; eexists; vm_compute; reflexivity. Qed.

(** The owner of this client still gets its request when another store is
    current and only backend [1] is offered. *)
Lemma ConsistentHash_clockwise_witness :
  ∃ ch', ConsistentHash_Build ch_store [0; 1; 3; 2]%nat (NewConsistentHash 4) = (Ret tt, ch') ∧
  ∃ l, (ConsistentHash_Next (ex_request "10.0.0.7:1") [1%nat] ex_store ch').1 = Ret (Some l, None) ∧
    l ≠ 1%nat.
Proof.
  destruct (ConsistentHash_clockwise (ex_request "10.0.0.7:1") [0; 1; 3; 2]%nat ch_store
    (NewConsistentHash 4)) as (ch' & E & H); [vm_compute; reflexivity|apply ch_store_live|done|].
  exists ch'. split; [exact E|]. destruct (H [1%nat] ex_store) as (k & l & _ & _ & E').
  exists l. split; [by rewrite E'|]. intros ->.
  assert (((ConsistentHash_Build ch_store [0; 1; 3; 2]%nat;;
    ConsistentHash_Next (ex_request "10.0.0.7:1") [1%nat] ex_store) (NewConsistentHash 4)).1
    = Ret (Some 3%nat, None)) as Hrun by (vm_compute; reflexivity).
  rewrite (bind_Ret _ _ _ _ _ E), E' in Hrun. discriminate.
Defined.

Lemma ConsistentHash_minimal_disruption_witness :
  ∃ a b s s', (ConsistentHash_Build ch_store ([0; 1]%nat ++ [2]%nat);;
       ConsistentHash_Next (ex_request "10.0.0.7:1") ([0; 1]%nat ++ [2]%nat) ch_store)
       (NewConsistentHash 4) = (Ret (Some a, None), s) ∧
    (ConsistentHash_Build ch_store ([0; 1]%nat ++ 3%nat :: [2]%nat);;
       ConsistentHash_Next (ex_request "10.0.0.7:1") ([0; 1]%nat ++ 3%nat :: [2]%nat) ch_store)
       (NewConsistentHash 4) = (Ret (Some b, None), s') ∧ (b = a ∨ b = 3%nat).
Proof.
  apply (ConsistentHash_minimal_disruption (ex_request "10.0.0.7:1") [0; 1]%nat 3%nat [2]%nat
    ch_store (NewConsistentHash 4) (NewConsistentHash 4));
    [vm_compute; reflexivity|reflexivity|apply ch_store_live|done].
Defined.
