(* ===== verification/GoFloat.v ===== *)
(** [float64]: IEEE 754 binary64 through the standard library's [SpecFloat],
    whose operations round to nearest, ties to even, as Go's do. *)

From Stdlib Require Import SpecFloat.
From S2P Require Export GoInt.

#[local] Open Scope Z_scope.

Abbreviation float64 := spec_float.

Definition prec64 : Z := 53.
Definition emax64 : Z := 1024.

(** [float64(z)]. *)
Definition f64_of_Z (z : Z) : float64 := binary_normalize prec64 emax64 z 0 false.
Definition f64_div : float64 → float64 → float64 := SFdiv prec64 emax64.
Definition f64_mul : float64 → float64 → float64 := SFmul prec64 emax64.
Definition f64_leb : float64 → float64 → bool := SFleb.
Definition f64_ltb : float64 → float64 → bool := SFltb.

(** [int64(f)] truncates towards zero.  Out of range, Go leaves the value to
    the implementation; on amd64 it is the smallest [int64]. *)
Definition f64_to_int64 (f : float64) : Z :=
  match f with
  | S754_zero _ => 0
  | S754_finite s m e =>
      let a := if decide (0 ≤ e) then Z.pos m * 2 ^ e else Z.pos m / 2 ^ (- e) in
      let v := if (s : bool) then - a else a in
      if decide (min_int64 ≤ v ≤ max_int64) then v else min_int64
  | _ => min_int64
  end.

(** A decimal literal [m / 10 ^ k], correctly rounded for the small literals
    of the program. *)
Definition f64_lit (m k : Z) : float64 := f64_div (f64_of_Z m) (f64_of_Z (10 ^ k)).

Example f64_three_tenths :
  f64_lit 3 1 = S754_finite false 5404319552844595 (-54).
Proof. vm_compute. reflexivity. Qed.
Example f64_div_ex : f64_leb (f64_lit 5 1) (f64_div (f64_of_Z 4) (f64_of_Z 8)) = true.
Proof. vm_compute. reflexivity. Qed.
Example f64_trunc_ex : f64_to_int64 (f64_mul (f64_lit 15 1) (f64_of_Z 3)) = 4.
Proof. vm_compute. reflexivity. Qed.
Example f64_trunc_neg_ex : f64_to_int64 (f64_mul (f64_lit 15 1) (f64_of_Z (-3))) = -4.
Proof. vm_compute. reflexivity. Qed.
