(* ===== verification/FloatBounds.v ===== *)
(** Rounding from above: how much larger than the exact result a conversion, a
    product or a quotient of [SpecFloat] can be.  The values are rationals. *)

From Stdlib Require Import SpecFloat QArith Qpower Lqa.
From S2P Require Export GoFloat.

#[local] Open Scope Z_scope.

(** ** Values *)

(** [m * 2 ^ e] *)
Definition q2 (m e : Z) : Q := inject_Z m * Qpower 2 e.

(** The value of a positive number; the others count as zero. *)
Definition f64_pos (f : float64) : Q :=
  match f with S754_finite false m e => q2 (Z.pos m) e | _ => 0%Q end.

(** One unit in the last of 53 places. *)
Definition ulp53 : Q := 1 # 4503599627370496.

Lemma pw_add a b : (Qpower 2 (a + b) == Qpower 2 a * Qpower 2 b)%Q.
Proof. apply Qpower_plus. discriminate. Qed.

Lemma pw_pos a : (0 < Qpower 2 a)%Q.
Proof. by apply Qpower_0_lt. Qed.

Lemma pw_Z k : 0 ≤ k → (inject_Z (2 ^ k) == Qpower 2 k)%Q.
Proof. intros. by apply Zpower_Qpower. Qed.

Lemma q2_le m m' e : m ≤ m' → (q2 m e <= q2 m' e)%Q.
Proof.
  intros H. unfold q2. apply Qmult_le_compat_r; [by rewrite <- Zle_Qle|]. apply Qlt_le_weak, pw_pos.
Qed.

Lemma q2_shl m e k : 0 ≤ k → (q2 (m * 2 ^ k) e == q2 m (e + k))%Q.
Proof. intros Hk. unfold q2. rewrite inject_Z_mult, pw_Z, pw_add by done. ring. Qed.

Lemma q2_nonneg m e : 0 ≤ m → (0 <= q2 m e)%Q.
Proof.
  intros Hm. unfold q2. apply Qmult_le_0_compat; [by rewrite <- (Zle_Qle 0)|]. apply Qlt_le_weak, pw_pos.
Qed.

(** Dropping [k] bits loses value. *)
Lemma q2_shr m e k : 0 ≤ k → (q2 (m / 2 ^ k) (e + k) <= q2 m e)%Q.
Proof.
  intros Hk. rewrite <- q2_shl by done. apply q2_le. rewrite Z.mul_comm. apply Z.mul_div_le. lia.
Qed.

Lemma q2_add m n e : (q2 (m + n) e == q2 m e + q2 n e)%Q.
Proof. unfold q2. rewrite inject_Z_plus. ring. Qed.

(** ** Digits and shifts *)

Lemma digits2_bounds m : 2 ^ (Z.pos (digits2_pos m) - 1) ≤ Z.pos m < 2 ^ Z.pos (digits2_pos m).
Proof.
  induction m as [m IH|m IH|]; cbn [digits2_pos]; [..|by split].
  - rewrite Pos2Z.inj_succ. replace (Z.succ _ - 1) with (Z.succ (Z.pos (digits2_pos m) - 1)) by lia.
    rewrite !Z.pow_succ_r by lia. lia.
  - rewrite Pos2Z.inj_succ. replace (Z.succ _ - 1) with (Z.succ (Z.pos (digits2_pos m) - 1)) by lia.
    rewrite !Z.pow_succ_r by lia. lia.
Qed.

Lemma shr_1_half r : 0 ≤ shr_m r → shr_m (shr_1 r) = shr_m r / 2.
Proof.
  destruct r as [[|[p|p|]|p] b c]; cbn; intros; try done.
  - rewrite Pos2Z.inj_xI. by rewrite Z.mul_comm, Z.div_add_l.
  - rewrite Pos2Z.inj_xO. by rewrite Z.mul_comm, Z.div_mul.
Qed.

Lemma iter_shr p r : 0 ≤ shr_m r → shr_m (SpecFloat.iter_pos shr_1 p r) = shr_m r / 2 ^ Z.pos p.
Proof.
  revert r. induction p as [p IH|p IH|]; intros r Hr; cbn [SpecFloat.iter_pos].
  - assert (0 ≤ shr_m (shr_1 r)) as H1 by (rewrite shr_1_half by done; by apply Z.div_pos).
    rewrite (IH (SpecFloat.iter_pos shr_1 p (shr_1 r))), IH, shr_1_half by (done || (rewrite IH by done; apply Z.div_pos; lia)).
    rewrite !Z.div_div by lia. f_equal. rewrite Pos2Z.inj_xI.
    replace (2 * Z.pos p + 1) with (1 + (Z.pos p + Z.pos p)) by lia. rewrite !Z.pow_add_r by lia. lia.
  - rewrite (IH (SpecFloat.iter_pos shr_1 p r)), IH by (done || (rewrite IH by done; apply Z.div_pos; lia)).
    rewrite !Z.div_div by lia. replace (Z.pos p~0) with (Z.pos p + Z.pos p) by lia.
    by rewrite Z.pow_add_r by lia.
  - by rewrite shr_1_half.
Qed.

(** By how much [shr_fexp] shifts. *)
Definition shift_of (m e : Z) : Z := Z.max 0 (fexp prec64 emax64 (Zdigits2 m + e) - e).

Lemma shr_fexp_spec m e l :
  0 ≤ m → ∃ r, shr_fexp prec64 emax64 m e l = (r, e + shift_of m e) ∧ shr_m r = m / 2 ^ shift_of m e ∧
    (shift_of m e = 0 → l = loc_Exact → loc_of_shr_record r = loc_Exact).
Proof.
  intros Hm. unfold shr_fexp, shift_of.
  assert (shr_m (shr_record_of_loc m l) = m) as Hr by (by destruct l as [|[]]).
  destruct (fexp prec64 emax64 (Zdigits2 m + e) - e) as [|p|p]; cbn [shr].
  - exists (shr_record_of_loc m l). rewrite Z.max_id, Z.pow_0_r, Z.div_1_r, Z.add_0_r.
    split_and!; [done|done|]. by intros _ ->.
  - exists (SpecFloat.iter_pos shr_1 p (shr_record_of_loc m l)). rewrite Z.max_r by lia.
    split_and!; [done| |lia]. by rewrite iter_shr, Hr by (by rewrite Hr).
  - exists (shr_record_of_loc m l). rewrite Z.max_l by lia. rewrite Z.pow_0_r, Z.div_1_r, Z.add_0_r.
    split_and!; [done|done|]. by intros _ ->.
Qed.

Lemma nearest_le m l : m ≤ round_nearest_even m l ≤ m + 1 ∧ (l = loc_Exact → round_nearest_even m l = m).
Proof.
  destruct l as [|[]]; unfold round_nearest_even; [|destruct (Z.even m)|..];
    (split; [lia|intros; (discriminate || done)]).
Qed.

(** ** Rounding *)

#[local] Instance comparison_eq_dec : EqDecision comparison.
Proof. solve_decision. Defined.
#[local] Instance location_eq_dec : EqDecision location.
Proof. solve_decision. Defined.

(** The error of a rounding is one unit of the place it rounds to; an exact
    number that fits has none. *)
Lemma round_upper sx mx ex lx s m e :
  0 ≤ mx → binary_round_aux prec64 emax64 sx mx ex lx = S754_finite s m e →
  s = sx ∧ ex ≤ e ∧
  (q2 (Z.pos m) e <= q2 mx ex + (if decide (shift_of mx ex = 0%Z ∧ lx = loc_Exact) then 0 else Qpower 2 (ex + shift_of mx ex)))%Q.
Proof.
  intros Hmx. unfold binary_round_aux. destruct (shr_fexp_spec mx ex lx Hmx) as (r & -> & Hr & Hx).
  set (k := shift_of mx ex) in *. assert (0 ≤ k) as Hk by (unfold k, shift_of; lia).
  pose proof (nearest_le (shr_m r) (loc_of_shr_record r)) as [Hn Hne].
  set (n := round_nearest_even (shr_m r) (loc_of_shr_record r)) in *.
  assert (0 ≤ shr_m r) as Hr0 by (rewrite Hr; apply Z.div_pos; lia).
  destruct (shr_fexp_spec n (ex + k) loc_Exact ltac:(lia)) as (r2 & -> & Hr2 & _).
  set (k2 := shift_of n (ex + k)) in *. assert (0 ≤ k2) as Hk2 by (unfold k2, shift_of; lia).
  destruct (shr_m r2) as [|p|p] eqn:E2; [done| |done]. case_match; [|done]. intros [= <- <- <-].
  split_and!; [done|lia|]. rewrite Hr2. pose proof (q2_shr n (ex + k) k2 Hk2) as Hq2.
  assert (q2 (shr_m r) (ex + k) <= q2 mx ex)%Q as Hq by (rewrite Hr; by apply q2_shr).
  case_decide as Hd.
  - assert (n = shr_m r) as En by (destruct Hd as [Hd1 Hd2]; by apply Hne, Hx). rewrite En in *. lra.
  - assert (q2 n (ex + k) <= q2 (shr_m r + 1) (ex + k))%Q as Hq1 by (apply q2_le; lia).
    rewrite q2_add in Hq1. assert (q2 1 (ex + k) == Qpower 2 (ex + k))%Q as Ho by (unfold q2; ring). lra.
Qed.

(** In the range of the normal numbers that is one unit in the last place, if
    the number was exact or had 53 bits. *)
Lemma round_normal sx mx ex lx s m e :
  0 < mx → -1021 ≤ Zdigits2 mx + ex → lx = loc_Exact ∨ 2 ^ 52 ≤ mx →
  binary_round_aux prec64 emax64 sx mx ex lx = S754_finite s m e →
  (q2 (Z.pos m) e <= (1 + ulp53) * q2 mx ex)%Q.
Proof.
  intros Hmx Hd Hl E. destruct (round_upper sx mx ex lx s m e ltac:(lia) E) as (_ & _ & Hu).
  pose proof (q2_le 0 mx ex ltac:(lia)) as H0. change (q2 0 ex) with (0 * Qpower 2 ex)%Q in H0.
  case_decide as Hc; [unfold ulp53; lra|].
  enough (Qpower 2 (ex + shift_of mx ex) <= ulp53 * q2 mx ex)%Q by lra.
  assert (2 ^ (52 + shift_of mx ex) ≤ mx) as Hm.
  { unfold shift_of in *. destruct (decide (0 < fexp prec64 emax64 (Zdigits2 mx + ex) - ex)) as [Hp|Hp].
    - rewrite Z.max_r by lia. destruct mx as [|p|p]; [done| |done]. cbn [Zdigits2] in *.
      pose proof (digits2_bounds p) as [Hb _]. etransitivity; [|exact Hb]. apply Z.pow_le_mono_r; [lia|].
      unfold fexp, emin, prec64, emax64 in *. lia.
    - rewrite Z.max_l in * by lia. destruct Hl as [->|Hl]; [by destruct Hc|]. done. }
  pose proof (q2_le _ _ ex Hm) as Hq. unfold q2 in Hq at 1. rewrite pw_Z in Hq by (unfold shift_of; lia).
  rewrite !pw_add in *. assert (Qpower 2 52 == inject_Z 4503599627370496)%Q as H52 by reflexivity.
  rewrite H52 in Hq. unfold ulp53, inject_Z in *. lra.
Qed.

(** Below it the result is less than one. *)
Lemma round_subnormal mx ex s m e :
  0 < mx → Zdigits2 mx + ex < -1021 →
  binary_round_aux prec64 emax64 false mx ex loc_Exact = S754_finite s m e → (q2 (Z.pos m) e < 1)%Q.
Proof.
  intros Hmx Hd E. destruct (round_upper false mx ex loc_Exact s m e ltac:(lia) E) as (_ & _ & Hu).
  assert (q2 mx ex <= 1 # 2)%Q as Hq.
  { destruct mx as [|p|p]; [done| |done]. cbn [Zdigits2] in Hd. pose proof (digits2_bounds p) as [_ Hb].
    pose proof (q2_le (Z.pos p) (2 ^ Z.pos (digits2_pos p)) ex ltac:(lia)) as Hq. eapply Qle_trans; [exact Hq|]. unfold q2.
    rewrite pw_Z, <- pw_add by lia. change (1 # 2)%Q with (Qpower 2 (-1)). apply Qpower_le_compat_l; [lia|done]. }
  assert (Qpower 2 (ex + shift_of mx ex) <= 1 # 4 ∨ shift_of mx ex = 0%Z)%Q as Hs.
  { destruct (decide (shift_of mx ex = 0)) as [|Hn]; [by right|left].
    change (1 # 4)%Q with (Qpower 2 (-2)). apply Qpower_le_compat_l; [|done].
    unfold shift_of, fexp, emin, prec64, emax64 in *. lia. }
  case_decide as Hc; [lra|]. destruct Hs as [Hs|Hs]; [lra|by destruct Hc].
Qed.

(** ** The operations *)

Lemma iter_xO m k : Z.pos (Pos.iter xO m k) = Z.pos m * 2 ^ Z.pos k.
Proof.
  revert m. induction k as [|k IH] using Pos.peano_ind; intros m; [cbn; lia|].
  rewrite Pos.iter_succ, Pos2Z.inj_xO, IH, Pos2Z.inj_succ, Z.pow_succ_r by lia. lia.
Qed.

(** [float64(d)] *)
Lemma of_Z_upper d s m e :
  0 < d → f64_of_Z d = S754_finite s m e →
  s = false ∧ -52 ≤ e ∧ (q2 (Z.pos m) e <= (1 + ulp53) * inject_Z d)%Q.
Proof.
  destruct d as [|d|d]; [done| |done]. intros _. unfold f64_of_Z, binary_normalize, binary_round, shl_align.
  set (f := fexp prec64 emax64 (Z.pos (digits2_pos d) + 0)).
  assert (-52 ≤ f) as Hf by (unfold f, fexp, emin, prec64, emax64; lia).
  assert (∃ mz ez, match f - 0 with Zneg k => (Pos.iter xO d k, f) | _ => (d, 0) end = (mz, ez) ∧ -52 ≤ ez ∧
    (q2 (Z.pos mz) ez == inject_Z (Z.pos d))%Q) as (mz & ez & -> & Hez & Hq).
  { assert (q2 (Z.pos d) 0 == inject_Z (Z.pos d))%Q as H0 by (unfold q2; ring).
    destruct (f - 0) as [|k|k] eqn:E; [by exists d, 0|by exists d, 0|].
    exists (Pos.iter xO d k), f. split_and!; [done|done|]. rewrite iter_xO, q2_shl, <- H0 by lia.
    replace (f + Z.pos k) with 0 by lia. reflexivity. }
  intros E. destruct (round_upper false (Z.pos mz) ez loc_Exact s m e ltac:(lia) E) as (-> & He & _).
  split_and!; [done|lia|]. rewrite <- Hq. eapply round_normal; [lia| |by left|exact E]. cbn [Zdigits2]. lia.
Qed.

(** A product. *)
Lemma mul_upper m1 e1 m2 e2 s m e :
  f64_mul (S754_finite false m1 e1) (S754_finite false m2 e2) = S754_finite s m e →
  s = false ∧ (q2 (Z.pos m) e < 1 ∨ q2 (Z.pos m) e <= (1 + ulp53) * (q2 (Z.pos m1) e1 * q2 (Z.pos m2) e2))%Q.
Proof.
  unfold f64_mul, SFmul. cbn [xorb]. intros E.
  destruct (round_upper _ _ _ _ _ _ _ (Pos2Z.is_nonneg _) E) as (-> & _). split; [done|].
  destruct (decide (Zdigits2 (Z.pos (m1 * m2)) + (e1 + e2) < -1021)) as [Hd|Hd].
  - left. by eapply round_subnormal; [..|exact E].
  - right. assert (q2 (Z.pos (m1 * m2)) (e1 + e2) == q2 (Z.pos m1) e1 * q2 (Z.pos m2) e2)%Q as <-.
    { unfold q2. rewrite Pos2Z.inj_mul, inject_Z_mult, pw_add. ring. }
    eapply round_normal; [lia|lia|by left|exact E].
Qed.

(** A quotient that stays away from the subnormal numbers. *)
Lemma div_upper m1 e1 m2 e2 s m e :
  -1000 ≤ e1 - e2 → -1021 ≤ Zdigits2 (Z.pos m1) + e1 - (Zdigits2 (Z.pos m2) + e2) →
  f64_div (S754_finite false m1 e1) (S754_finite false m2 e2) = S754_finite s m e →
  s = false ∧ (q2 (Z.pos m) e * q2 (Z.pos m2) e2 <= (1 + ulp53) * q2 (Z.pos m1) e1)%Q.
Proof.
  intros He Hd. unfold f64_div, SFdiv, SFdiv_core_binary. cbn [xorb].
  set (f := fexp prec64 emax64 _). assert (f = Zdigits2 (Z.pos m1) + e1 - (Zdigits2 (Z.pos m2) + e2) - 53) as Hf
    by (unfold f, fexp, emin, prec64, emax64; lia). set (e' := Z.min f (e1 - e2)).
  assert (0 ≤ e1 - e2 - e') as Hk by lia. set (k := e1 - e2 - e') in *.
  assert (match k with Zpos _ => Z.shiftl (Zpos m1) k | Z0 => Zpos m1 | Zneg _ => Z0 end = Z.pos m1 * 2 ^ k) as ->.
  { destruct k as [|k'|k'] eqn:E; [lia| |lia]. by rewrite Z.shiftl_mul_pow2 by lia. }
  pose proof (Z_div_mod (Z.pos m1 * 2 ^ k) (Z.pos m2) ltac:(lia)) as Hqr.
  destruct (Z.div_eucl _ _) as [q r]. destruct Hqr as [Hqr Hr]. intros E.
  pose proof (digits2_bounds m1) as [Hb1 _]. pose proof (digits2_bounds m2) as [_ Hb2]. cbn [Zdigits2] in *.
  assert (2 ^ 52 ≤ q) as Hq.
  { assert (2 ^ 52 * Z.pos m2 < (q + 1) * Z.pos m2); [|nia].
    assert (2 ^ 52 * 2 ^ Z.pos (digits2_pos m2) ≤ Z.pos m1 * 2 ^ k); [|nia].
    transitivity (2 ^ (Z.pos (digits2_pos m1) - 1) * 2 ^ k); [|nia].
    rewrite <- !Z.pow_add_r by lia. apply Z.pow_le_mono_r; lia. }
  assert (53 ≤ Zdigits2 q) as Hdq.
  { destruct q as [|q|q]; [lia| |lia]. cbn [Zdigits2]. pose proof (digits2_bounds q) as [_ Hb].
    apply Z.lt_succ_r, Z.lt_pred_lt_succ. apply (Z.pow_lt_mono_r_iff 2); [lia|lia|]. change (Z.pred 53) with 52. lia. }
  assert (0 ≤ q) as Hq0 by lia. destruct (round_upper _ _ _ _ _ _ _ Hq0 E) as (-> & _). split; [done|].
  assert (q2 (Z.pos m) e <= (1 + ulp53) * q2 q e')%Q as Hu by (eapply round_normal; [..|exact E]; [lia|lia|by right]).
  assert (q2 q e' * q2 (Z.pos m2) e2 <= q2 (Z.pos m1) e1)%Q as Hm.
  { assert (q2 q e' * q2 (Z.pos m2) e2 == q2 (q * Z.pos m2) (e' + e2))%Q as ->
      by (unfold q2; rewrite inject_Z_mult, pw_add; ring).
    replace e1 with (e' + e2 + k) by lia. eapply Qle_trans; [apply (q2_le _ (Z.pos m1 * 2 ^ k)); lia|].
    apply Qle_lteq. right. by apply q2_shl. }
  assert (0 < q2 (Z.pos m2) e2)%Q as H2 by (unfold q2; apply Qmult_lt_0_compat; [done|apply pw_pos]).
  assert (0 < ulp53)%Q as Hulp by done.
  apply (Qmult_le_compat_r _ _ (q2 (Z.pos m2) e2)) in Hu; [|lra]. eapply Qle_trans; [exact Hu|].
  rewrite <- Qmult_assoc. apply Qmult_le_l; [lra|]. exact Hm.
Qed.

(** Truncation. *)
Lemma to_int64_upper f :
  match f with
  | S754_finite false m e => (inject_Z (f64_to_int64 f) <= q2 (Z.pos m) e)%Q
  | _ => f64_to_int64 f ≤ 0
  end.
Proof.
  destruct f as [s|s| |[] m e]; cbn; try (unfold min_int64; lia).
  - case_decide; [|unfold min_int64; lia]. assert (0 ≤ (if decide (0 ≤ e) then Z.pos m * 2 ^ e else Z.pos m / 2 ^ (- e))); [|lia].
    case_decide; [|apply Z.div_pos]; lia.
  - assert (0 <= q2 (Z.pos m) e)%Q as H0 by (apply q2_nonneg; lia).
    case_decide; [|by eapply Qle_trans; [|exact H0]]. case_decide.
    + unfold q2. rewrite inject_Z_mult, pw_Z by lia. apply Qle_refl.
    + pose proof (q2_shr (Z.pos m) e (- e) ltac:(lia)) as Hs. rewrite Z.add_opp_diag_r in Hs. eapply Qle_trans; [|exact Hs].
      unfold q2. cbn. rewrite Qmult_1_r. apply Qle_refl.
Qed.

(** The rate limiter's chain of conversions: [int64(float64(d) / float64(n) * rate)]
    exceeds the exact value by less than one part in [2 ^ 50]. *)
Definition slack : Q := 1 + (1 # 1125899906842624).

Lemma second_f64 : f64_of_Z Second = S754_finite false 8388608000000000 (-23).
Proof. vm_compute. reflexivity. Qed.

Lemma second_value : (q2 8388608000000000 (-23) == inject_Z Second)%Q.
Proof. vm_compute. reflexivity. Qed.

Lemma f64_pos_nonneg rate : (0 <= f64_pos rate)%Q.
Proof. destruct rate as [s|s| |[] m e]; cbn [f64_pos]; try apply Qle_refl. by apply q2_nonneg. Qed.

Lemma seconds_upper d s m e :
  0 ≤ d → f64_div (f64_of_Z d) (f64_of_Z Second) = S754_finite s m e →
  s = false ∧ (q2 (Z.pos m) e <= (1 + ulp53) * (1 + ulp53) * (inject_Z d / inject_Z Second))%Q.
Proof.
  intros Hd. rewrite second_f64. destruct (decide (d = 0)) as [->|Hz]; [discriminate|].
  destruct (f64_of_Z d) as [s1|s1| |s1 m1 e1] eqn:E1; [discriminate..|]. intros E.
  destruct (of_Z_upper d s1 m1 e1 ltac:(lia) E1) as (-> & He & Hu).
  destruct (div_upper m1 e1 8388608000000000 (-23) s m e ltac:(lia)) as (-> & Hq); [|done|].
  { cbn [Zdigits2]. change (Z.pos (digits2_pos 8388608000000000)) with 53. lia. }
  split; [done|]. rewrite second_value in Hq. assert (0 < ulp53)%Q by done.
  apply Qle_shift_div_l in Hq; [|done]. eapply Qle_trans; [exact Hq|]. unfold Qdiv.
  rewrite (Qmult_assoc _ (inject_Z d)). apply Qmult_le_compat_r; [|done].
  rewrite <- Qmult_assoc. apply Qmult_le_l; [lra|exact Hu].
Qed.

Lemma scaled_upper rate d :
  0 ≤ d →
  (inject_Z (f64_to_int64 (f64_mul (f64_div (f64_of_Z d) (f64_of_Z Second)) rate)) <=
    slack * (inject_Z d / inject_Z Second) * f64_pos rate)%Q.
Proof.
  intros Hd. assert (0 <= inject_Z d / inject_Z Second)%Q as Hs.
  { unfold Qdiv. apply Qmult_le_0_compat; [by rewrite <- (Zle_Qle 0)|done]. }
  pose proof (f64_pos_nonneg rate) as Hr.
  assert (0 <= slack * (inject_Z d / inject_Z Second) * f64_pos rate)%Q as H0.
  { apply Qmult_le_0_compat; [apply Qmult_le_0_compat|]; done. }
  set (f := f64_mul _ rate) in *. pose proof (to_int64_upper f) as Ht.
  assert (f64_to_int64 f ≤ 0 → inject_Z (f64_to_int64 f) <= slack * (inject_Z d / inject_Z Second) * f64_pos rate)%Q as Hle.
  { intros Hz. eapply Qle_trans; [|exact H0]. by rewrite <- (Zle_Qle _ 0). }
  destruct f as [s|s| |[] m e] eqn:Ef; [by apply Hle..|]. subst f.
  destruct (f64_div _ _) as [s1|s1| |s1 m1 e1] eqn:Ed; [by destruct rate|by destruct rate|by destruct rate|].
  destruct (seconds_upper d s1 m1 e1 Hd Ed) as (-> & Hu).
  destruct rate as [s2|s2| |[] m2 e2]; [done..| |].
  { unfold f64_mul, SFmul in Ef. cbn [xorb] in Ef.
    by destruct (round_upper _ _ _ _ _ _ _ (Pos2Z.is_nonneg _) Ef) as [? _]. }
  destruct (mul_upper m1 e1 m2 e2 false m e Ef) as (_ & [Hlt|Hm]).
  - apply Hle. assert (inject_Z (f64_to_int64 (S754_finite false m e)) < inject_Z 1)%Q as Hl
      by (eapply Qle_lt_trans; [exact Ht|exact Hlt]). rewrite <- Zlt_Qlt in Hl. lia.
  - eapply Qle_trans; [exact Ht|]. eapply Qle_trans; [exact Hm|]. cbn [f64_pos] in *.
    rewrite Qmult_assoc. apply Qmult_le_compat_r; [|exact Hr].
    assert (0 < 1 + ulp53)%Q as Hp by done.
    eapply Qle_trans; [apply Qmult_le_l; [exact Hp|exact Hu]|].
    rewrite !Qmult_assoc. apply Qmult_le_compat_r; [|exact Hs]. vm_compute. discriminate.
Qed.
