(* ===== verification/Config.v ===== *)
(** Loading the configuration (config/config.go): the data, the defaults, and
    the path from a file to a validated value.  Reading and decoding are viper's
    and checking the tags is the validator library's; both are parameters.  The
    tags themselves are in the source: [tags_ok] is what they demand. *)

From S2P Require Export GoInt GoFloat GoString.

#[local] Open Scope Z_scope.

(** ** Data *)

Record TLSConfig := mkTLSConfig {
  tls_CertFile : string;
  tls_KeyFile : string;
  tls_CAFile : string;
  tls_Passthrough : bool;
  tls_MTLS : bool;
}.

Record ServerConfig := mkServerConfig {
  srv_Addr : string;
  srv_ReadTimeout : Duration;
  srv_WriteTimeout : Duration;
  srv_IdleTimeout : Duration;
  srv_TLS : option TLSConfig;
}.

Record BackendConfig := mkBackendConfig {
  bc_ID : string;
  bc_Addr : string;
  bc_Weight : Z;
}.

Record RouteConfig := mkRouteConfig {
  rt_PathPrefix : string;
  rt_Host : string;
  rt_Headers : gmap string string;
  rt_Weight : float64;
  rt_Shadow : bool;
}.

(** [config.HealthConfig]; [HealthConfig] of Health.v is [health.Config]. *)
Record HealthSettings := mkHealthSettings {
  hs_Interval : Duration;
  hs_Timeout : Duration;
  hs_Path : string;
  hs_FailureThreshold : Z;
  hs_SuccessThreshold : Z;
  hs_Mode : string;
  hs_PassiveWindow : Duration;
  hs_PassiveErrorRate : float64;
}.

Record PoolConfig := mkPoolConfig {
  pc_Name : string;
  pc_Algorithm : string;
  pc_Backends : list BackendConfig;
  pc_Routes : list RouteConfig;
  pc_Health : HealthSettings;
}.

Record AdminConfig := mkAdminConfig { adm_Addr : string }.
Record MetricsConfig := mkMetricsConfig { met_Enabled : bool; met_Path : string }.
Record LoggingConfig := mkLoggingConfig { log_Level : string; log_Format : string }.

Record Config := mkConfig {
  cfg_Server : ServerConfig;
  cfg_Pools : list PoolConfig;
  cfg_Admin : AdminConfig;
  cfg_Metrics : MetricsConfig;
  cfg_Logging : LoggingConfig;
}.

(** ** Defaults *)

Inductive setting := SString (s : string) | SBool (b : bool).

(** The calls of [SetDefault], in order. *)
Definition setDefaults : list (string * setting) :=
  [("server.addr", SString ":8080");
   ("server.read_timeout", SString "30s");
   ("server.write_timeout", SString "30s");
   ("server.idle_timeout", SString "120s");
   ("admin.addr", SString ":9001");
   ("metrics.enabled", SBool true);
   ("metrics.path", SString "/metrics");
   ("logging.level", SString "info");
   ("logging.format", SString "json")].

(** ** The tags *)

Definition algorithm_names : list string :=
  ["round_robin"; "weighted_round_robin"; "least_connections"; "ip_hash"; "consistent_hash"; "p2c"].

Section tags.
(** What the validator takes for a URL. *)
Variable is_url : string → bool.

Definition required (s : string) : bool := bool_decide (s ≠ "").
Definition oneof (names : list string) (s : string) : bool := bool_decide (s ∈ names).
(** [omitempty,oneof=...] *)
Definition omitempty_oneof (names : list string) (s : string) : bool :=
  bool_decide (s = "") || oneof names s.

Definition BackendConfig_ok (b : BackendConfig) : bool :=
  required (bc_ID b) && (required (bc_Addr b) && is_url (bc_Addr b)) &&
  bool_decide (0 ≤ bc_Weight b).

Definition HealthSettings_ok (h : HealthSettings) : bool :=
  omitempty_oneof ["http"; "tcp"; "grpc"] (hs_Mode h) &&
  (f64_leb (f64_of_Z 0) (hs_PassiveErrorRate h) && f64_leb (hs_PassiveErrorRate h) (f64_of_Z 1)).

(** [Routes] has no [dive], so the tags of its elements are not looked at. *)
Definition PoolConfig_ok (p : PoolConfig) : bool :=
  required (pc_Name p) &&
  (required (pc_Algorithm p) && oneof algorithm_names (pc_Algorithm p)) &&
  (bool_decide (pc_Backends p ≠ []) && forallb BackendConfig_ok (pc_Backends p)) &&
  HealthSettings_ok (pc_Health p).

Definition TLSConfig_ok (t : TLSConfig) : bool := required (tls_CertFile t) && required (tls_KeyFile t).

Definition ServerConfig_ok (s : ServerConfig) : bool :=
  required (srv_Addr s) && match srv_TLS s with None => true | Some t => TLSConfig_ok t end.

Definition LoggingConfig_ok (l : LoggingConfig) : bool :=
  omitempty_oneof ["debug"; "info"; "warn"; "error"] (log_Level l) &&
  omitempty_oneof ["json"; "text"] (log_Format l).

Definition tags_ok (cfg : Config) : bool :=
  ServerConfig_ok (cfg_Server cfg) &&
  (bool_decide (cfg_Pools cfg ≠ []) && forallb PoolConfig_ok (cfg_Pools cfg)) &&
  LoggingConfig_ok (cfg_Logging cfg).
End tags.

(** ** Load *)

Section load.
(** [ReadInConfig] on a viper with these defaults and the file at the path, and
    [Unmarshal] of what it read, with the texts of their errors. *)
Context {Settings : Type}.
Variable ReadInConfig : list (string * setting) → string → Settings + string.
Variable Unmarshal : Settings → Config + string.
(** [validator.Struct]: the fields that break a tag, with the tag. *)
Variable validator_Struct : Config → list (string * string).

Definition validate (cfg : Config) : option string :=
  match validator_Struct cfg with
  | [] => None
  | es =>
      let errs := (λ e, "field " +:+ e.1 +:+ ": " +:+ e.2) <$> es in
      Some ("config validation failed: " +:+ strings_Join errs "; ")
  end.

Definition Load (path : string) : Config + string :=
  match ReadInConfig setDefaults path with
  | inr err => inr ("read config: " +:+ err)
  | inl v =>
      match Unmarshal v with
      | inr err => inr ("unmarshal config: " +:+ err)
      | inl cfg => match validate cfg with Some err => inr err | None => inl cfg end
      end
  end.

(** ** Lemmas *)

Lemma Load_inl path cfg :
  Load path = inl cfg → validator_Struct cfg = [].
Proof.
  unfold Load, validate. intros H. destruct (ReadInConfig _ path); [|done].
  destruct (Unmarshal _) as [cfg'|]; [|done].
  destruct (validator_Struct cfg') eqn:E; [congruence|done].
Qed.
End load.

(** The validator does what its tags say: it reports nothing exactly when every
    tag holds. *)
Definition validator_sound (is_url : string → bool) (validator_Struct : Config → list (string * string)) : Prop :=
  ∀ cfg, validator_Struct cfg = [] ↔ tags_ok is_url cfg = true.

(** What a configuration that passes the tags is good for. *)
Lemma tags_ok_pools is_url cfg :
  tags_ok is_url cfg = true →
  cfg_Pools cfg ≠ [] ∧
  Forall (λ p, pc_Algorithm p ∈ algorithm_names ∧ pc_Backends p ≠ [] ∧
    Forall (λ b, bc_ID b ≠ "" ∧ is_url (bc_Addr b) = true ∧ 0 ≤ bc_Weight b) (pc_Backends p))
    (cfg_Pools cfg).
Proof.
  unfold tags_ok. rewrite !andb_true_iff, bool_decide_eq_true, forallb_Forall.
  intros [[_ [Hne Hp]] _]. split; [done|]. eapply Forall_impl; [exact Hp|].
  intros p H. unfold PoolConfig_ok, oneof, required in H.
  rewrite !andb_true_iff, !bool_decide_eq_true, forallb_Forall in H.
  destruct H as [[[_ [_ Ha]] [Hb Hbs]] _]. split_and!; [done|done|].
  eapply Forall_impl; [exact Hbs|]. intros b Hx.
  unfold BackendConfig_ok, required in Hx. rewrite !andb_true_iff, !bool_decide_eq_true in Hx. tauto.
Qed.
