(* ===== verification/Breaker.v ===== *)
(** The per-backend circuit breaker and its registry
    (internal/circuitbreaker), one call at a time; BreakerConc.v interleaves
    the same code at its atomic operations. *)

From S2P Require Export GoInt.

#[local] Open Scope Z_scope.

(** ** Data *)

Inductive State := StateClosed | StateOpen | StateHalfOpen.

#[export] Instance State_eq_dec : EqDecision State.
Proof. solve_decision. Defined.

Definition State_String (s : State) : string :=
  match s with
  | StateClosed => "closed"
  | StateOpen => "open"
  | StateHalfOpen => "half-open"
  end.

Record BreakerConfig := mkBreakerConfig {
  FailureThreshold : Z;
  OpenDuration : Duration;
  HalfOpenProbes : Z;
}.

Definition DefaultBreakerConfig : BreakerConfig := mkBreakerConfig 5 (30 * Second) 1.

(** [ErrCircuitOpen] is the only error of [Allow]. *)
Inductive breaker_error := ErrCircuitOpen.

#[export] Instance breaker_error_eq_dec : EqDecision breaker_error.
Proof. solve_decision. Defined.

(** The probe channel is buffered and carries no data: only the number of
    permits in it matters; its capacity is [HalfOpenProbes]. *)
Record Breaker := mkBreaker {
  b_cfg : BreakerConfig;
  b_state : State;
  b_failures : Z;
  b_openedAt : Z;
  b_probe : nat;
}.

Definition set_state (s : State) (b : Breaker) : Breaker :=
  mkBreaker (b_cfg b) s (b_failures b) (b_openedAt b) (b_probe b).
Definition set_failures (n : Z) (b : Breaker) : Breaker :=
  mkBreaker (b_cfg b) (b_state b) n (b_openedAt b) (b_probe b).
Definition set_openedAt (t : Z) (b : Breaker) : Breaker :=
  mkBreaker (b_cfg b) (b_state b) (b_failures b) t (b_probe b).
Definition set_probe (n : nat) (b : Breaker) : Breaker :=
  mkBreaker (b_cfg b) (b_state b) (b_failures b) (b_openedAt b) n.

Definition probe_cap (cfg : BreakerConfig) : nat := Z.to_nat (HalfOpenProbes cfg).

(** [New]: [make(chan struct{}, n)] panics on a negative size. *)
Definition Breaker_New (cfg : BreakerConfig) : outcome Breaker :=
  if decide (HalfOpenProbes cfg < 0) then Panic NegativeSize
  else Ret (mkBreaker cfg StateClosed 0 0 0).

(** ** Operations *)

(** [<-b.probe] and [b.probe <- struct{}{}], which block on an empty and on a
    full channel. *)
Definition probe_recv : M Breaker () := λ b,
  match b_probe b with
  | O => (Panic Deadlock, b)
  | S n => (Ret tt, set_probe n b)
  end.
Definition probe_send : M Breaker () := λ b,
  if decide (b_probe b < probe_cap (b_cfg b))%nat
  then (Ret tt, set_probe (S (b_probe b)) b) else (Panic Deadlock, b).

(** [for len(b.probe) > 0 { <-b.probe }]; the fuel is the channel's length. *)
Fixpoint drain_loop (fuel : nat) : M Breaker () :=
  match fuel with
  | O => mret tt
  | S k =>
      n ← gets b_probe;
      if decide (0 < n)%nat then probe_recv;; drain_loop k else mret tt
  end.
(** [for i := 0; i < n; i++ { b.probe <- struct{}{} }] *)
Fixpoint fill_loop (n : nat) : M Breaker () :=
  match n with O => mret tt | S k => probe_send;; fill_loop k end.

(** The critical section of [Allow]. *)
Definition enter_half_open : M Breaker () :=
  st ← gets b_state;
  if decide (st = StateOpen) then
    modify (set_state StateHalfOpen);;
    n ← gets b_probe;
    drain_loop n;;
    cfg ← gets b_cfg;
    fill_loop (probe_cap cfg)
  else mret tt.

(** [select { case <-b.probe: return nil; default: return ErrCircuitOpen }] *)
Definition try_probe : M Breaker (option breaker_error) := λ b,
  match b_probe b with
  | O => (Ret (Some ErrCircuitOpen), b)
  | S n => (Ret None, set_probe n b)
  end.

Definition Breaker_Allow (now : Time) : M Breaker (option breaker_error) :=
  st ← gets b_state;
  match st with
  | StateClosed => mret None
  | StateOpen =>
      t ← gets b_openedAt;
      cfg ← gets b_cfg;
      (if decide (OpenDuration cfg ≤ Time_Sub now (Time_of_UnixNano t))
       then enter_half_open else mret tt);;
      st ← gets b_state;
      if decide (st = StateOpen) then mret (Some ErrCircuitOpen) else try_probe
  | StateHalfOpen => try_probe
  end.

Definition Breaker_RecordSuccess : M Breaker () :=
  modify (set_failures 0);;
  st ← gets b_state;
  if decide (st = StateHalfOpen) then modify (set_state StateClosed) else mret tt.

Definition Breaker_RecordFailure (now : Time) : M Breaker () :=
  modify (λ b, set_failures (wrap64 (b_failures b + 1)) b);;
  n ← gets b_failures;
  cfg ← gets b_cfg;
  st ← gets b_state;
  if decide (FailureThreshold cfg ≤ n ∨ st = StateHalfOpen) then
    st ← gets b_state;
    if decide (st ≠ StateOpen) then
      modify (set_openedAt (Time_UnixNano now));;
      modify (set_state StateOpen);;
      modify (set_failures 0)
    else mret tt
  else mret tt.

Definition Breaker_State (b : Breaker) : State := b_state b.

(** ** Registry: one breaker per backend id *)

Record Registry := mkRegistry { reg_cfg : BreakerConfig; reg_breakers : gmap string Breaker }.

Definition NewRegistry (cfg : BreakerConfig) : Registry := mkRegistry cfg ∅.

(** [Get] leaves the breaker of that id in the map; callers then work on it by
    pointer, which [Registry_with] expresses. *)
Definition Registry_Get (id : string) : M Registry Breaker :=
  m ← gets reg_breakers;
  match m !! id with
  | Some b => mret b
  | None =>
      cfg ← gets reg_cfg;
      b ← lift (Breaker_New cfg);
      modify (λ r, mkRegistry (reg_cfg r) (<[id := b]> (reg_breakers r)));;
      mret b
  end.

(** [r.Get(id).op()] *)
Definition Registry_with {A} (id : string) (op : M Breaker A) : M Registry A := λ r,
  match Registry_Get id r with
  | (Ret b, r') =>
      let '(o, b') := op b in
      (o, mkRegistry (reg_cfg r') (<[id := b']> (reg_breakers r')))
  | (Panic w, r') => (Panic w, r')
  end.

Definition Registry_States (r : Registry) : gmap string string :=
  (λ b, State_String (Breaker_State b)) <$> reg_breakers r.

(** ** Abstract specification: the circuit *)

(** What a user of the breaker sees: consecutive failures while closed, the
    opening time while open, the permits left while half-open. *)
Inductive circuit :=
| Closed (fails : Z)
| Open (since : Z)
| HalfOpen (permits : nat).

#[export] Instance circuit_eq_dec : EqDecision circuit.
Proof. solve_decision. Defined.

Inductive call :=
| CallAllow (now : Time)
| CallSuccess
| CallFailure (now : Time).

(** The answer of a call: [Allow]'s verdict, nothing for the reports. *)
Abbreviation answer := (option (option breaker_error)).

Definition take_permit (p : nat) : answer * circuit :=
  match p with
  | O => (Some (Some ErrCircuitOpen), HalfOpen 0)
  | S p' => (Some None, HalfOpen p')
  end.

Definition circuit_step (cfg : BreakerConfig) (c : call) (s : circuit) : answer * circuit :=
  match c, s with
  | CallAllow _, Closed n => (Some None, Closed n)
  | CallAllow now, Open t =>
      if decide (OpenDuration cfg ≤ Time_Sub now (Time_of_UnixNano t))
      then take_permit (probe_cap cfg) else (Some (Some ErrCircuitOpen), Open t)
  | CallAllow _, HalfOpen p => take_permit p
  | CallSuccess, Closed _ => (None, Closed 0)
  | CallSuccess, HalfOpen _ => (None, Closed 0)
  | CallSuccess, Open t => (None, Open t)
  | CallFailure now, Closed n =>
      (None, if decide (FailureThreshold cfg ≤ n + 1)
             then Open (Time_UnixNano now) else Closed (n + 1))
  | CallFailure now, HalfOpen _ => (None, Open (Time_UnixNano now))
  | CallFailure _, Open t => (None, Open t)
  end.

Fixpoint circuit_run (cfg : BreakerConfig) (cs : list call) (s : circuit) : list answer * circuit :=
  match cs with
  | [] => ([], s)
  | c :: cs' =>
      let '(a, s') := circuit_step cfg c s in
      let '(l, s'') := circuit_run cfg cs' s' in (a :: l, s'')
  end.

Definition breaker_call (c : call) : M Breaker answer :=
  match c with
  | CallAllow now => r ← Breaker_Allow now; mret (Some r)
  | CallSuccess => Breaker_RecordSuccess;; mret None
  | CallFailure now => Breaker_RecordFailure now;; mret None
  end.

Fixpoint breaker_run (cs : list call) : M Breaker (list answer) :=
  match cs with
  | [] => mret []
  | c :: cs' => a ← breaker_call c; l ← breaker_run cs'; mret (a :: l)
  end.

(** The circuit a breaker stands for. *)
Definition circuit_of (b : Breaker) : circuit :=
  match b_state b with
  | StateClosed => Closed (b_failures b)
  | StateOpen => Open (b_openedAt b)
  | StateHalfOpen => HalfOpen (b_probe b)
  end.

(** A configuration [Allow] and the reports are meant for. *)
Definition config_ok (cfg : BreakerConfig) : Prop :=
  0 < FailureThreshold cfg ≤ max_int64 ∧ 0 ≤ HalfOpenProbes cfg.

(** The breaker's invariant: the channel respects its capacity, and a closed
    breaker has counted fewer failures than the threshold. *)
Definition breaker_inv (b : Breaker) : Prop :=
  config_ok (b_cfg b) ∧ (b_probe b ≤ probe_cap (b_cfg b))%nat ∧
  (b_state b = StateClosed → 0 ≤ b_failures b < FailureThreshold (b_cfg b)).

(** ** Lemmas on the probe channel *)

Lemma drain_loop_spec fuel b :
  (b_probe b ≤ fuel)%nat → drain_loop fuel b = (Ret tt, set_probe 0 b).
Proof.
  destruct b as [cfg s f o p]. revert p. induction fuel as [|k IH]; intros p Hp; simpl in *.
  - by replace p with 0%nat by lia.
  - go_step. destruct p as [|p]; simpl; [done|]. unfold probe_recv, set_probe. simpl.
    by rewrite IH by lia.
Qed.

Lemma fill_loop_spec n b :
  (b_probe b + n ≤ probe_cap (b_cfg b))%nat →
  fill_loop n b = (Ret tt, set_probe (b_probe b + n) b).
Proof.
  destruct b as [cfg s f o p]. revert p. induction n as [|n IH]; intros p Hp; simpl in *.
  - by rewrite Nat.add_0_r.
  - go_step. unfold probe_send, set_probe. simpl. rewrite decide_True by lia.
    simpl. rewrite IH by lia. unfold set_probe. simpl. do 2 f_equal. lia.
Qed.

(** The critical section on an open breaker: half-open with a full channel. *)
Lemma enter_half_open_open b :
  b_state b = StateOpen →
  enter_half_open b =
    (Ret tt, set_probe (probe_cap (b_cfg b)) (set_state StateHalfOpen b)).
Proof.
  destruct b as [cfg s f o p]. simpl. intros ->. unfold enter_half_open. go_step.
  rewrite drain_loop_spec by (simpl; lia). simpl.
  by rewrite fill_loop_spec by (simpl; lia).
Qed.

Lemma try_probe_take b :
  b_state b = StateHalfOpen →
  ∃ r b', try_probe b = (Ret r, b') ∧ take_permit (b_probe b) = (Some r, circuit_of b') ∧
    b_cfg b' = b_cfg b ∧ b_state b' = StateHalfOpen ∧ (b_probe b' ≤ b_probe b)%nat.
Proof.
  destruct b as [cfg s f o [|p]]; simpl; intros ->; unfold try_probe; simpl;
    eexists _, _; (split; [done|]); simpl; split_and!; try done; lia.
Qed.

Lemma probe_cap_le cfg : (0 ≤ probe_cap cfg)%nat.
Proof. lia. Qed.

(** ** Refinement: one call *)

(** Closes the goals about an explicit record's invariant. *)
Ltac inv_done :=
  unfold breaker_inv, config_ok, circuit_of; simpl; repeat split; simpl in *; intros;
  try match goal with H : ?x = ?x → _ |- _ => specialize (H eq_refl) end;
  try done; try lia.

Lemma breaker_call_refines c b :
  breaker_inv b →
  ∃ a b', breaker_call c b = (Ret a, b') ∧
    circuit_step (b_cfg b) c (circuit_of b) = (a, circuit_of b') ∧
    breaker_inv b' ∧ b_cfg b' = b_cfg b.
Proof.
  intros (Hcfg & Hp & Hc). destruct b as [cfg s f o p]. simpl in *.
  destruct Hcfg as ([Ht1 Ht2] & Hprobes).
  destruct c as [now| |now]; simpl.
  - unfold Breaker_Allow. go_step. destruct s.
    + eexists _, _. split; [done|]. inv_done.
    + unfold circuit_of at 1. simpl. case_decide as Hexp.
      * rewrite enter_half_open_open by done. simpl.
        destruct (try_probe_take (mkBreaker cfg StateHalfOpen f o (probe_cap cfg)))
          as (r & b' & E & Et & Hcfg' & Hst & Hle); [done|].
        simpl in *. change (set_probe _ _) with (mkBreaker cfg StateHalfOpen f o (probe_cap cfg)).
        rewrite E. eexists _, _. split; [done|]. split; [done|].
        unfold breaker_inv, config_ok. rewrite Hcfg', Hst. inv_done.
      * simpl. eexists _, _. split; [done|]. inv_done.
    + destruct (try_probe_take (mkBreaker cfg StateHalfOpen f o p))
        as (r & b' & E & Et & Hcfg' & Hst & Hle); [done|].
      simpl in *. rewrite E. eexists _, _. split; [done|]. split; [done|].
      unfold breaker_inv, config_ok. rewrite Hcfg', Hst. inv_done.
  - unfold Breaker_RecordSuccess. go_step. destruct s; simpl; eexists _, _; (split; [done|]); inv_done.
  - unfold Breaker_RecordFailure. go_step. destruct s; simpl.
    + specialize (Hc eq_refl). unfold circuit_of at 1. simpl.
      rewrite wrap64_id by (unfold is_int64, min_int64; lia).
      destruct (decide (FailureThreshold cfg ≤ f + 1)) as [Hle|Hgt].
      * rewrite decide_True by auto. simpl. eexists _, _. split; [done|].
        inv_done.
      * rewrite decide_False by (by intros [?|?]). eexists _, _. split; [done|].
        inv_done.
    + case_decide; simpl; eexists _, _; (split; [done|]); inv_done.
    + rewrite decide_True by auto. simpl. eexists _, _. split; [done|].
      inv_done.
Qed.

Lemma breaker_run_refines cs b :
  breaker_inv b →
  ∃ b', breaker_run cs b = (Ret (circuit_run (b_cfg b) cs (circuit_of b)).1, b') ∧
    circuit_of b' = (circuit_run (b_cfg b) cs (circuit_of b)).2 ∧ breaker_inv b' ∧
    b_cfg b' = b_cfg b.
Proof.
  revert b. induction cs as [|c cs IH]; intros b Hb; simpl; [by exists b|].
  destruct (breaker_call_refines c b Hb) as (a & b1 & E & Es & Hb1 & Hcfg).
  rewrite Es. destruct (IH b1 Hb1) as (b2 & E2 & Es2 & Hb2 & Hcfg2).
  rewrite Hcfg in *. destruct (circuit_run _ _ _) as [l s] eqn:Er. simpl in *.
  exists b2. rewrite (bind_Ret _ _ _ _ _ E), (bind_Ret _ _ _ _ _ E2). by rewrite Hcfg2.
Qed.

Lemma Breaker_New_inv cfg :
  config_ok cfg → ∃ b, Breaker_New cfg = Ret b ∧ breaker_inv b ∧ b_cfg b = cfg ∧
    circuit_of b = Closed 0.
Proof.
  intros Hcfg. unfold Breaker_New. rewrite decide_False by (destruct Hcfg; lia).
  eexists. split; [done|]. destruct Hcfg as ([? ?] & ?).
  split_and!; try done. unfold breaker_inv, config_ok. simpl. repeat split; lia.
Qed.

(** ** Consecutive failures *)

Definition report (o : bool) (now : Time) : call := if o then CallSuccess else CallFailure now.

Lemma circuit_run_open cfg os now t :
  ∃ l, circuit_run cfg ((λ o, report o now) <$> os) (Open t) = (l, Open t).
Proof.
  induction os as [|o os [l IH]]; [by eexists|]. rewrite fmap_cons.
  destruct o; cbn [circuit_run circuit_step report]; rewrite IH; by eexists.
Qed.

Lemma circuit_run_streak cfg os now n T :
  config_ok cfg → FailureThreshold cfg = Z.of_nat T → (n < T)%nat →
  ∃ l s, circuit_run cfg ((λ o, report o now) <$> os) (Closed (Z.of_nat n)) = (l, s) ∧
    (s = Open (Time_UnixNano now) ↔ streak T (replicate n false ++ os)) ∧
    (s ≠ Open (Time_UnixNano now) → ∃ m, s = Closed m).
Proof.
  intros Hcfg HT. revert n. induction os as [|o os IH]; intros n Hn.
  - eexists _, _. split; [done|]. split; [|eauto]. split; [done|].
    intros [i Hi]. exfalso. pose proof (Hi (T - 1)%nat ltac:(lia)) as H.
    apply lookup_lt_Some in H. rewrite length_app, length_replicate in H. simpl in H.
    pose proof (Hi 0%nat ltac:(lia)). lia.
  - rewrite fmap_cons. destruct o; cbn [circuit_run circuit_step report].
    + destruct (IH 0%nat ltac:(lia)) as (l & s & E & Hs & Hc).
      change (Closed 0) with (Closed (Z.of_nat 0)). rewrite E.
      eexists _, s. split; [done|]. split; [|done]. by rewrite streak_after_success.
    + assert (replicate n false ++ false :: os = replicate (S n) false ++ os) as ->.
      { rewrite replicate_S_end, <- app_assoc. done. }
      case_decide as Hle.
      * destruct (circuit_run_open cfg os now (Time_UnixNano now)) as [l E]. rewrite E.
        eexists _, _. split; [done|]. split; [|done]. split; [|done]. intros _.
        exists 0%nat. intros j Hj. rewrite lookup_app_l by (rewrite length_replicate; lia).
        apply lookup_replicate. split; [done|lia].
      * destruct (IH (S n) ltac:(lia)) as (l & s & E & Hs & Hc).
        replace (Z.of_nat n + 1) with (Z.of_nat (S n)) by lia. rewrite E. by eexists _, s.
Qed.

(** ** Shedding and probing *)

Lemma circuit_run_shed cfg ts t :
  Forall (λ now, Time_Sub now (Time_of_UnixNano t) < OpenDuration cfg) ts →
  circuit_run cfg (CallAllow <$> ts) (Open t) =
    (replicate (length ts) (Some (Some ErrCircuitOpen)), Open t).
Proof.
  induction 1 as [|now ts Hlt _ IH]; [done|]. rewrite fmap_cons.
  cbn [circuit_run circuit_step]. rewrite decide_False by lia. by rewrite IH.
Qed.

Lemma circuit_run_probe cfg ts p :
  circuit_run cfg (CallAllow <$> ts) (HalfOpen p) =
    (replicate (length ts `min` p) (Some None) ++
     replicate (length ts - p) (Some (Some ErrCircuitOpen)), HalfOpen (p - length ts)).
Proof.
  revert p. induction ts as [|now ts IH]; intros p.
  - simpl. by rewrite Nat.sub_0_r.
  - rewrite fmap_cons. destruct p as [|p]; cbn [circuit_run circuit_step take_permit];
      rewrite IH; [|done]. by rewrite Nat.min_0_r, Nat.sub_0_r.
Qed.

(** ** Registry lemmas *)

Lemma Registry_Get_present id r b :
  reg_breakers r !! id = Some b → Registry_Get id r = (Ret b, r).
Proof. intros H. unfold Registry_Get. go_step. by rewrite H. Qed.

Lemma Registry_Get_absent id r :
  reg_breakers r !! id = None → 0 ≤ HalfOpenProbes (reg_cfg r) →
  ∃ b, Breaker_New (reg_cfg r) = Ret b ∧
    Registry_Get id r = (Ret b, mkRegistry (reg_cfg r) (<[id := b]> (reg_breakers r))).
Proof.
  intros H Hp. unfold Registry_Get. go_step. rewrite H. unfold Breaker_New.
  rewrite decide_False by lia. eexists. split; [done|]. done.
Qed.

(** ** Properties *)

(** C12. The breaker implements the circuit: with a positive threshold and a
    non-negative number of probes, for every sequence of calls with any clock
    readings, a new breaker never panics or blocks and gives exactly the
    answers of the abstract circuit (closed, open, half-open with permits),
    ending in a state that stands for the circuit's. *)
Theorem Breaker_refines_circuit cfg cs :
  config_ok cfg →
  ∃ b b', Breaker_New cfg = Ret b ∧
    breaker_run cs b = (Ret (circuit_run cfg cs (Closed 0)).1, b') ∧
    circuit_of b' = (circuit_run cfg cs (Closed 0)).2 ∧ breaker_inv b'.
Proof.
  intros Hcfg. destruct (Breaker_New_inv cfg Hcfg) as (b & E & Hb & Hbc & Hc).
  destruct (breaker_run_refines cs b Hb) as (b' & Er & Es & Hb' & _).
  rewrite Hbc, Hc in *. by exists b, b'.
Qed.

(** The threshold counts consecutive failures: a new breaker that is only
    told outcomes is open after them exactly when somewhere among them the
    threshold number of failures occurred in a row, and is closed otherwise. *)
Theorem Breaker_opens_on_streak cfg os now T :
  config_ok cfg → FailureThreshold cfg = Z.of_nat T →
  ∃ b b' l, Breaker_New cfg = Ret b ∧
    breaker_run ((λ o, report o now) <$> os) b = (Ret l, b') ∧
    (Breaker_State b' = StateOpen ↔ streak T os) ∧
    (Breaker_State b' = StateClosed ↔ ¬ streak T os).
Proof.
  intros Hcfg HT. destruct (Breaker_New_inv cfg Hcfg) as (b & E & Hb & Hbc & Hc).
  destruct (breaker_run_refines ((λ o, report o now) <$> os) b Hb) as (b' & Er & Es & _).
  rewrite Hbc, Hc in *.
  destruct (circuit_run_streak cfg os now 0 T Hcfg HT) as (l & s & Ec & Hs & Hcl);
    [destruct Hcfg; lia|].
  change (Closed 0) with (Closed (Z.of_nat 0)) in *. rewrite Ec in *. simpl in *.
  exists b, b', l. split; [done|]. split; [done|]. rewrite <- Hs. clear Hs E Er Ec.
  unfold Breaker_State, circuit_of in *.
  destruct (decide (s = Open (Time_UnixNano now))) as [->|Hne].
  - by destruct (b_state b').
  - destruct (Hcl Hne) as [m ->]. by destruct (b_state b').
Qed.

(** Shedding and probing: while an open breaker's timeout has not expired
    every request is shed and it stays open; at the first request after it, the
    breaker turns half-open and over any further requests, whenever they come,
    admits exactly the first [HalfOpenProbes] of them and sheds all the rest;
    without a report it never admits another. *)
Theorem Breaker_sheds_and_probes b t ts now ts' :
  breaker_inv b → circuit_of b = Open t →
  Forall (λ n, Time_Sub n (Time_of_UnixNano t) < OpenDuration (b_cfg b)) ts →
  OpenDuration (b_cfg b) ≤ Time_Sub now (Time_of_UnixNano t) →
  let P := probe_cap (b_cfg b) in
  let k := S (length ts') in
  ∃ b1 b2, breaker_run (CallAllow <$> ts) b =
      (Ret (replicate (length ts) (Some (Some ErrCircuitOpen))), b1) ∧
    circuit_of b1 = Open t ∧
    breaker_run (CallAllow <$> now :: ts') b1 =
      (Ret (replicate (k `min` P) (Some None) ++ replicate (k - P) (Some (Some ErrCircuitOpen))), b2) ∧
    circuit_of b2 = HalfOpen (P - k).
Proof.
  intros Hb Hc Hts Hnow P k.
  destruct (breaker_run_refines (CallAllow <$> ts) b Hb) as (b1 & E1 & Es1 & Hb1 & Hcfg1).
  rewrite Hc, circuit_run_shed in E1, Es1 by done. simpl in *.
  destruct (breaker_run_refines (CallAllow <$> now :: ts') b1 Hb1) as (b2 & E2 & Es2 & _).
  rewrite Es1, Hcfg1, fmap_cons in *. cbn [circuit_run circuit_step] in E2, Es2.
  rewrite decide_True in E2, Es2 by done.
  assert (circuit_run (b_cfg b) (CallAllow <$> now :: ts') (HalfOpen P) =
    (let '(a, s') := take_permit P in
     let '(l, s'') := circuit_run (b_cfg b) (CallAllow <$> ts') s' in (a :: l, s''))) as Ep by done.
  fold P in E2, Es2. rewrite <- Ep, circuit_run_probe in E2, Es2. by exists b1, b2.
Qed.

(** The registry keeps one breaker per backend: an operation through
    [Get] on one id behaves as the operation on that id's breaker (a new closed
    one if the id was unknown), stores its result, and leaves the breakers of
    all other ids untouched; asking again returns the stored breaker. *)
Theorem Registry_isolates {A} id (op : M Breaker A) r :
  0 ≤ HalfOpenProbes (reg_cfg r) →
  ∃ b r', (reg_breakers r !! id = Some b ∨
           reg_breakers r !! id = None ∧ Breaker_New (reg_cfg r) = Ret b) ∧
    Registry_with id op r = ((op b).1, r') ∧
    Registry_Get id r' = (Ret (op b).2, r') ∧
    (∀ id', id' ≠ id → reg_breakers r' !! id' = reg_breakers r !! id') ∧
    Registry_States r' !! id = Some (State_String (b_state (op b).2)).
Proof.
  intros Hp.
  assert (∃ b r1, (reg_breakers r !! id = Some b ∨
      reg_breakers r !! id = None ∧ Breaker_New (reg_cfg r) = Ret b) ∧
      Registry_Get id r = (Ret b, r1) ∧
      ∀ id', id' ≠ id → reg_breakers r1 !! id' = reg_breakers r !! id')
    as (b & r1 & Hb & Eg & Ho).
  { destruct (reg_breakers r !! id) as [b|] eqn:E.
    - exists b, r. rewrite (Registry_Get_present _ _ _ E). auto.
    - destruct (Registry_Get_absent id r E Hp) as (b & En & Eg).
      exists b, (mkRegistry (reg_cfg r) (<[id := b]> (reg_breakers r))). split_and!; [auto|done|].
      intros id' Hne. simpl. by rewrite lookup_insert_ne. }
  exists b, (mkRegistry (reg_cfg r1) (<[id := (op b).2]> (reg_breakers r1))).
  unfold Registry_with. rewrite Eg. destruct (op b) as [o b'] eqn:Eo. simpl.
  split_and!; [done|done|..].
  - apply Registry_Get_present. simpl. by rewrite lookup_insert_eq.
  - intros id' Hne. simpl. rewrite lookup_insert_ne by done. auto.
  - unfold Registry_States. simpl. by rewrite lookup_fmap, lookup_insert_eq.
Qed.

(** ** Witnesses *)

Definition ex_cfg : BreakerConfig := mkBreakerConfig 3 (30 * Second) 1.

Lemma ex_cfg_ok : config_ok ex_cfg.
Proof. unfold config_ok, max_int64. simpl. lia. Qed.

(** Three failures open the circuit, an early request is shed, the first one
    after the timeout probes, its success closes. *)
Lemma Breaker_refines_circuit_witness :
  let now := unix_epoch in
  ∃ b b', Breaker_New ex_cfg = Ret b ∧
    breaker_run [CallFailure now; CallFailure now; CallFailure now; CallAllow (now + Second);
                 CallAllow (now + 40 * Second); CallAllow (now + 41 * Second); CallSuccess] b =
      (Ret [None; None; None; Some (Some ErrCircuitOpen); Some None;
            Some (Some ErrCircuitOpen); None], b') ∧
    circuit_of b' = Closed 0 ∧ breaker_inv b'.
Proof.
  exact (Breaker_refines_circuit ex_cfg
    [CallFailure unix_epoch; CallFailure unix_epoch; CallFailure unix_epoch;
     CallAllow (unix_epoch + Second); CallAllow (unix_epoch + 40 * Second);
     CallAllow (unix_epoch + 41 * Second); CallSuccess] ex_cfg_ok).
Defined.

Lemma Breaker_opens_on_streak_witness :
  ∃ b b' l, Breaker_New ex_cfg = Ret b ∧
    breaker_run ((λ o, report o unix_epoch) <$> [false; false; true; false; false]) b = (Ret l, b') ∧
    (Breaker_State b' = StateOpen ↔ streak 3 [false; false; true; false; false]) ∧
    (Breaker_State b' = StateClosed ↔ ¬ streak 3 [false; false; true; false; false]).
Proof. apply (Breaker_opens_on_streak ex_cfg _ unix_epoch 3 ex_cfg_ok). reflexivity. Defined.

Definition ex_open : Breaker := mkBreaker ex_cfg StateOpen 0 0 0.

Lemma Breaker_sheds_and_probes_witness :
  ∃ b1 b2, breaker_run (CallAllow <$> [unix_epoch + Second; unix_epoch + 2 * Second]) ex_open =
      (Ret [Some (Some ErrCircuitOpen); Some (Some ErrCircuitOpen)], b1) ∧
    circuit_of b1 = Open 0 ∧
    breaker_run (CallAllow <$> [unix_epoch + 30 * Second; unix_epoch + 9999 * Second]) b1 =
      (Ret [Some None; Some (Some ErrCircuitOpen)], b2) ∧
    circuit_of b2 = HalfOpen 0.
Proof.
  apply (Breaker_sheds_and_probes ex_open 0 [unix_epoch + Second; unix_epoch + 2 * Second]
    (unix_epoch + 30 * Second) [unix_epoch + 9999 * Second]).
  - unfold breaker_inv. split; [apply ex_cfg_ok|]. simpl. split; [lia|done].
  - reflexivity.
  - repeat constructor; vm_compute; reflexivity.
  - vm_compute. discriminate.
Defined.

Lemma Registry_isolates_witness :
  ∃ b r', (reg_breakers (NewRegistry ex_cfg) !! "b0" = Some b ∨
           reg_breakers (NewRegistry ex_cfg) !! "b0" = None ∧ Breaker_New ex_cfg = Ret b) ∧
    Registry_with "b0" (Breaker_RecordFailure unix_epoch) (NewRegistry ex_cfg) =
      ((Breaker_RecordFailure unix_epoch b).1, r') ∧
    Registry_Get "b0" r' = (Ret (Breaker_RecordFailure unix_epoch b).2, r') ∧
    (∀ id', id' ≠ "b0" → reg_breakers r' !! id' = reg_breakers (NewRegistry ex_cfg) !! id') ∧
    Registry_States r' !! "b0" = Some (State_String (b_state (Breaker_RecordFailure unix_epoch b).2)).
Proof.
  apply (Registry_isolates "b0" (Breaker_RecordFailure unix_epoch) (NewRegistry ex_cfg)).
  vm_compute. discriminate.
Defined.
