(* ===== verification/BreakerConc.v ===== *)
(** The circuit breaker under concurrency: the methods of Breaker.v cut at
    their atomic operations, mutex and channel operations, run by any number of
    goroutines under an arbitrary scheduler. *)

From S2P Require Export Breaker.

#[local] Open Scope Z_scope.

Abbreviation tid := nat.

(** ** Program counters *)

(** Where a goroutine is; each constructor is the operation it does next. *)
Inductive pc :=
(* Allow *)
| A_load                 (* switch on the state *)
| A_timeout              (* compare time.Since(openedAt) with OpenDuration *)
| A_lock
| A_recheck              (* state == StateOpen, under the lock *)
| A_store                (* state = StateHalfOpen *)
| A_drain                (* len(b.probe) > 0 *)
| A_recv                 (* <-b.probe *)
| A_fill (k : nat)       (* k sends left *)
| A_unlock
| A_final                (* state == StateOpen, after the lock *)
| A_select               (* select on the probe channel *)
(* RecordFailure *)
| F_add                  (* failures++ *)
| F_test (n : Z)         (* n >= threshold || state == StateHalfOpen *)
| F_lock
| F_recheck              (* state != StateOpen, under the lock *)
| F_openedAt
| F_store                (* state = StateOpen *)
| F_zero                 (* failures = 0 *)
| F_unlock
(* RecordSuccess *)
| S_zero                 (* failures = 0 *)
| S_load                 (* state == StateHalfOpen, without the lock *)
| S_lock
| S_store                (* state = StateClosed *)
| S_unlock
(* returned *)
| Admitted_               (* Allow returned nil *)
| Shed                   (* Allow returned ErrCircuitOpen *)
| Reported.              (* a report returned *)

#[export] Instance pc_eq_dec : EqDecision pc.
Proof. solve_decision. Defined.

Record conf := mkConf {
  shared : Breaker;
  mutex : option tid;
  threads : gmap tid pc;
}.

(** What a goroutine does to the shared breaker when it runs alone for one
    operation: the next program counter and the breaker, or [None] when it is
    blocked on the channel or has returned. *)
Definition local_step (now : Time) (p : pc) (b : Breaker) : option (pc * Breaker) :=
  match p with
  | A_load =>
      Some (match b_state b with
            | StateClosed => Admitted_ | StateOpen => A_timeout | StateHalfOpen => A_select
            end, b)
  | A_timeout =>
      Some (if decide (OpenDuration (b_cfg b) ≤ Time_Sub now (Time_of_UnixNano (b_openedAt b)))
            then A_lock else A_final, b)
  | A_recheck => Some (if decide (b_state b = StateOpen) then A_store else A_unlock, b)
  | A_store => Some (A_drain, set_state StateHalfOpen b)
  | A_drain =>
      Some (if decide (0 < b_probe b)%nat then A_recv else A_fill (probe_cap (b_cfg b)), b)
  | A_recv => match b_probe b with O => None | S n => Some (A_drain, set_probe n b) end
  | A_fill O => Some (A_unlock, b)
  | A_fill (S k) =>
      if decide (b_probe b < probe_cap (b_cfg b))%nat
      then Some (A_fill k, set_probe (S (b_probe b)) b) else None
  | A_final => Some (if decide (b_state b = StateOpen) then Shed else A_select, b)
  | A_select => Some (match b_probe b with O => (Shed, b) | S n => (Admitted_, set_probe n b) end)
  | F_add =>
      let n := wrap64 (b_failures b + 1) in Some (F_test n, set_failures n b)
  | F_test n =>
      Some (if decide (FailureThreshold (b_cfg b) ≤ n ∨ b_state b = StateHalfOpen)
            then F_lock else Reported, b)
  | F_recheck => Some (if decide (b_state b ≠ StateOpen) then F_openedAt else F_unlock, b)
  | F_openedAt => Some (F_store, set_openedAt (Time_UnixNano now) b)
  | F_store => Some (F_zero, set_state StateOpen b)
  | F_zero => Some (F_unlock, set_failures 0 b)
  | S_zero => Some (S_load, set_failures 0 b)
  | S_load => Some (if decide (b_state b = StateHalfOpen) then S_lock else Reported, b)
  | S_store => Some (S_unlock, set_state StateClosed b)
  | A_lock | A_unlock | F_lock | F_unlock | S_lock | S_unlock
  | Admitted_ | Shed | Reported => None
  end.

(** [mu.Lock()] and [mu.Unlock()]: the program counter after them. *)
Definition after_lock (p : pc) : option pc :=
  match p with A_lock => Some A_recheck | F_lock => Some F_recheck | S_lock => Some S_store | _ => None end.
Definition after_unlock (p : pc) : option pc :=
  match p with A_unlock => Some A_final | F_unlock => Some Reported | S_unlock => Some Reported | _ => None end.

(** One step of goroutine [t]; a blocked or finished goroutine does nothing. *)
Definition step (t : tid) (now : Time) (c : conf) : conf :=
  match threads c !! t with
  | None => c
  | Some p =>
      match after_lock p, after_unlock p with
      | Some p', _ =>
          match mutex c with
          | None => mkConf (shared c) (Some t) (<[t := p']> (threads c))
          | Some _ => c
          end
      | None, Some p' => mkConf (shared c) None (<[t := p']> (threads c))
      | None, None =>
          match local_step now p (shared c) with
          | Some (p', b') => mkConf b' (mutex c) (<[t := p']> (threads c))
          | None => c
          end
      end
  end.

(** A schedule picks a goroutine and the time it reads, step after step. *)
Definition run (sched : list (tid * Time)) (c : conf) : conf :=
  fold_left (λ c '(t, now), step t now c) sched c.

(** Goroutines start at the first operation of one of the methods. *)
Definition entry (p : pc) : Prop := p = A_load ∨ p = F_add ∨ p = S_zero.

Definition initial (cfg : BreakerConfig) (ths : gmap tid pc) (c : conf) : Prop :=
  (∃ b, Breaker_New cfg = Ret b ∧ c = mkConf b None ths) ∧ map_Forall (λ _ p, entry p) ths.

(** ** Invariant *)

(** Program counters between [Lock] and [Unlock]. *)
Definition critical (p : pc) : bool :=
  match p with
  | A_recheck | A_store | A_drain | A_recv | A_fill _ | A_unlock
  | F_recheck | F_openedAt | F_store | F_zero | F_unlock | S_store | S_unlock => true
  | _ => false
  end.

(** What the holder of the mutex knows at each point. *)
Definition holder_ok (p : pc) (b : Breaker) : Prop :=
  match p with
  | A_store => b_state b = StateOpen
  | A_drain | A_recv => b_state b = StateHalfOpen
  | A_fill k => b_state b = StateHalfOpen ∧ (b_probe b + k ≤ probe_cap (b_cfg b))%nat
  | F_openedAt | F_store => b_state b ≠ StateOpen
  | _ => True
  end.

Definition conc_inv (c : conf) : Prop :=
  (b_probe (shared c) ≤ probe_cap (b_cfg (shared c)))%nat ∧
  (∀ t p, threads c !! t = Some p → critical p = true → mutex c = Some t) ∧
  (∀ t, mutex c = Some t → ∃ p, threads c !! t = Some p ∧ critical p = true ∧
     holder_ok p (shared c)).

(** ** Lemmas *)

Lemma initial_inv cfg ths c : initial cfg ths c → conc_inv c.
Proof.
  intros [(b & Hb & ->) Hths]. unfold Breaker_New in Hb. case_decide; simplify_eq/=.
  split_and!; simpl; [lia| |done].
  intros t p Hp Hc. destruct (Hths t p Hp) as [-> | [-> | ->]]; done.
Qed.

(** A local step of a goroutine outside the critical section only takes
    permits and moves the failure counter. *)
Lemma local_step_outside now p b p' b' :
  critical p = false → local_step now p b = Some (p', b') →
  b_state b' = b_state b ∧ b_cfg b' = b_cfg b ∧ (b_probe b' ≤ b_probe b)%nat ∧
  critical p' = false.
Proof.
  intros Hc H. destruct p; simplify_eq/=; repeat (case_match; simplify_eq/=); split_and!; done || lia.
Qed.

(** Inside, it keeps what the holder knows and stays inside. *)
Lemma local_step_inside now p b p' b' :
  critical p = true → holder_ok p b → (b_probe b ≤ probe_cap (b_cfg b))%nat →
  local_step now p b = Some (p', b') →
  critical p' = true ∧ holder_ok p' b' ∧ b_cfg b' = b_cfg b ∧
  (b_probe b' ≤ probe_cap (b_cfg b'))%nat.
Proof.
  intros Hc Hh Hp H.
  destruct p; simplify_eq/=; repeat (case_match; simplify_eq/=); split_and!; try done; try lia; try tauto.
Qed.

Lemma holder_ok_weaken p b b' :
  holder_ok p b → b_state b' = b_state b → b_cfg b' = b_cfg b → (b_probe b' ≤ b_probe b)%nat →
  holder_ok p b'.
Proof. intros H Hs Hc Hp. destruct p; simpl in *; rewrite ?Hs, ?Hc; try done. destruct H. split; [done|lia]. Qed.

Lemma after_lock_critical p p' : after_lock p = Some p' → critical p = false ∧ critical p' = true ∧ ∀ b, holder_ok p' b.
Proof. destruct p; intros [= <-]; done. Qed.

Lemma after_unlock_critical p p' : after_unlock p = Some p' → critical p = true ∧ critical p' = false.
Proof. destruct p; intros [= <-]; done. Qed.

Lemma step_inv t now c : conc_inv c → conc_inv (step t now c).
Proof.
  intros (Hp & Hcrit & Hhold). unfold step.
  destruct (threads c !! t) as [p|] eqn:Et; [|done].
  destruct (after_lock p) as [p'|] eqn:El.
  { destruct (after_lock_critical _ _ El) as (Hcp & Hcp' & Hok).
    destruct (mutex c) as [t0|] eqn:Em; [by split_and!; rewrite ?Em|]. split_and!; simpl; [done| |].
    - intros t1 p1 H1 Hc1. rewrite lookup_insert in H1. case_decide; [by subst|].
      exfalso. by pose proof (Hcrit t1 p1 H1 Hc1).
    - intros t1 [= <-]. exists p'. rewrite lookup_insert_eq. auto. }
  destruct (after_unlock p) as [p'|] eqn:Eu.
  { destruct (after_unlock_critical _ _ Eu) as (Hcp & Hcp'). split_and!; simpl; [done| |done].
    intros t1 p1 H1 Hc1. rewrite lookup_insert in H1. case_decide; [simplify_eq; congruence|].
    exfalso. pose proof (Hcrit t p Et Hcp). pose proof (Hcrit t1 p1 H1 Hc1). congruence. }
  destruct (local_step now p (shared c)) as [[p' b']|] eqn:Es; [|done].
  destruct (critical p) eqn:Hcp.
  - pose proof (Hcrit t p Et Hcp) as Hm. destruct (Hhold t Hm) as (p0 & H0 & _ & Hok).
    simplify_eq. destruct (local_step_inside _ _ _ _ _ Hcp Hok Hp Es) as (Hc' & Hok' & _ & Hp').
    split_and!; simpl; [done| |].
    + intros t1 p1 H1 Hc1. rewrite lookup_insert in H1. case_decide; [by subst|eauto].
    + intros t1 Ht1. replace t1 with t by congruence. exists p'. rewrite lookup_insert_eq. auto.
  - destruct (local_step_outside _ _ _ _ _ Hcp Es) as (Hs & Hcfg & Hle & Hc').
    split_and!; simpl; [rewrite Hcfg; lia| |].
    + intros t1 p1 H1 Hc1. rewrite lookup_insert in H1. case_decide; [simplify_eq; congruence|eauto].
    + intros t1 Ht1. destruct (Hhold t1 Ht1) as (p1 & H1 & Hc1 & Hok1).
      exists p1. rewrite lookup_insert_ne by congruence. split_and!; [done..|].
      eapply holder_ok_weaken; done.
Qed.

Lemma run_inv sched c : conc_inv c → conc_inv (run sched c).
Proof.
  revert c. induction sched as [|[t now] sched IH]; intros c H; simpl; [done|].
  by apply IH, step_inv.
Qed.

(** ** One goroutine running alone *)

(** Goroutine [t] is at [p]. *)
Definition at_ (t : tid) (p : pc) (b : Breaker) (m : option tid) (ths : gmap tid pc) : conf :=
  mkConf b m (<[t := p]> ths).

(** [t] can go from [c] to [c'] by itself, its clock reading [now]. *)
Definition solo (t : tid) (now : Time) (c c' : conf) : Prop :=
  ∃ n, run (replicate n (t, now)) c = c'.

Lemma step_at t now p b m ths :
  step t now (at_ t p b m ths) =
    match after_lock p, after_unlock p with
    | Some p', _ =>
        match m with None => at_ t p' b (Some t) ths | Some _ => at_ t p b m ths end
    | None, Some p' => at_ t p' b None ths
    | None, None =>
        match local_step now p b with
        | Some (p', b') => at_ t p' b' m ths | None => at_ t p b m ths end
    end.
Proof.
  unfold step, at_. simpl. rewrite lookup_insert_eq.
  repeat case_match; simplify_eq; by rewrite ?insert_insert_eq.
Qed.

Lemma solo_refl t now c : solo t now c c.
Proof. by exists 0%nat. Qed.
Lemma solo_l t now c c' : solo t now (step t now c) c' → solo t now c c'.
Proof. intros [n H]. by exists (S n). Qed.

(** Run the goroutine as far as its steps compute. *)
Ltac solo_go := repeat (apply solo_l; rewrite step_at; simpl).

Lemma solo_drain t now b m ths c' :
  solo t now (at_ t (A_fill (probe_cap (b_cfg b))) (set_probe 0 b) m ths) c' →
  solo t now (at_ t A_drain b m ths) c'.
Proof.
  destruct b as [cfg s f o p]. simpl. induction p as [|p IH]; intros H.
  - apply solo_l. rewrite step_at. simpl. exact H.
  - apply solo_l. rewrite step_at. simpl. apply solo_l. rewrite step_at. simpl. by apply IH.
Qed.

Lemma solo_fill t now k b m ths c' :
  (b_probe b + k ≤ probe_cap (b_cfg b))%nat →
  solo t now (at_ t A_unlock (set_probe (b_probe b + k) b) m ths) c' →
  solo t now (at_ t (A_fill k) b m ths) c'.
Proof.
  destruct b as [cfg s f o p]. simpl. revert p. induction k as [|k IH]; intros p Hk H.
  - rewrite Nat.add_0_r in H. apply solo_l. rewrite step_at. exact H.
  - apply solo_l. rewrite step_at. simpl. rewrite decide_True by lia.
    apply (IH (S p)); [lia|]. by replace (S p + k)%nat with (p + S k)%nat by lia.
Qed.

(** Where a goroutine ends with [Allow]'s result. *)
Definition verdict (r : option breaker_error) : pc :=
  match r with None => Admitted_ | Some ErrCircuitOpen => Shed end.

Lemma solo_select t now b m ths :
  ∃ r b', try_probe b = (Ret r, b') ∧
    solo t now (at_ t A_select b m ths) (at_ t (verdict r) b' m ths).
Proof.
  unfold try_probe. destruct (b_probe b) eqn:E; eexists _, _; (split; [done|]);
    apply solo_l; rewrite step_at; simpl; rewrite E; apply solo_refl.
Qed.

Lemma solo_Allow t now b ths :
  ∃ r b', Breaker_Allow now b = (Ret r, b') ∧
    solo t now (at_ t A_load b None ths) (at_ t (verdict r) b' None ths).
Proof.
  unfold Breaker_Allow. go_step. destruct (b_state b) eqn:Es.
  - eexists _, _. split; [done|]. apply solo_l. rewrite step_at. simpl. rewrite Es. apply solo_refl.
  - case_decide as Hexp.
    + rewrite enter_half_open_open by done. simpl.
      destruct (solo_select t now (set_probe (probe_cap (b_cfg b)) (set_state StateHalfOpen b)) None ths)
        as (r & b' & E & Hsel).
      rewrite E. exists r, b'. split; [done|].
      apply solo_l. rewrite step_at. simpl. rewrite Es.
      apply solo_l. rewrite step_at. simpl. rewrite decide_True by done.
      apply solo_l. rewrite step_at. simpl.
      apply solo_l. rewrite step_at. simpl. rewrite decide_True by done.
      apply solo_l. rewrite step_at. simpl. apply solo_drain. simpl.
      apply solo_fill; [simpl; lia|]. simpl.
      apply solo_l. rewrite step_at. simpl. apply solo_l. rewrite step_at. simpl. exact Hsel.
    + simpl. rewrite Es. rewrite decide_True by done. exists (Some ErrCircuitOpen), b. split; [done|].
      apply solo_l. rewrite step_at. simpl. rewrite Es.
      apply solo_l. rewrite step_at. simpl. rewrite decide_False by done.
      apply solo_l. rewrite step_at. simpl. rewrite decide_True by done. apply solo_refl.
  - destruct (solo_select t now b None ths) as (r & b' & E & Hsel).
    rewrite E. exists r, b'. split; [done|].
    apply solo_l. rewrite step_at. simpl. by rewrite Es.
Qed.

Lemma solo_RecordFailure t now b ths :
  ∃ b', Breaker_RecordFailure now b = (Ret tt, b') ∧
    solo t now (at_ t F_add b None ths) (at_ t Reported b' None ths).
Proof.
  unfold Breaker_RecordFailure. go_step. destruct b as [cfg s f o p]. simpl in *.
  case_decide as Hc.
  - destruct (decide (s = StateOpen)) as [->|Hs].
    + simpl. eexists. split; [done|].
      apply solo_l; rewrite step_at; simpl. apply solo_l; rewrite step_at; simpl.
      rewrite decide_True by done. solo_go. apply solo_refl.
    + rewrite decide_True by done. eexists. split; [done|].
      apply solo_l; rewrite step_at; simpl. apply solo_l; rewrite step_at; simpl.
      rewrite decide_True by done. apply solo_l; rewrite step_at; simpl.
      apply solo_l; rewrite step_at; simpl. rewrite decide_True by done.
      do 4 (apply solo_l; rewrite step_at; simpl). apply solo_refl.
  - eexists. split; [done|].
    apply solo_l; rewrite step_at; simpl. apply solo_l; rewrite step_at; simpl.
    rewrite decide_False by done. apply solo_refl.
Qed.

Lemma solo_RecordSuccess t now b ths :
  ∃ b', Breaker_RecordSuccess b = (Ret tt, b') ∧
    solo t now (at_ t S_zero b None ths) (at_ t Reported b' None ths).
Proof.
  unfold Breaker_RecordSuccess. go_step. destruct b as [cfg s f o p]. simpl.
  destruct s; simpl; eexists; (split; [done|]); do 2 (apply solo_l; rewrite step_at; simpl);
    try apply solo_refl.
  do 3 (apply solo_l; rewrite step_at; simpl). apply solo_refl.
Qed.

(** ** A goroutine stuck in the drain loop *)

(** [t] waits at [<-b.probe] on an empty channel while it holds the mutex. *)
Definition stuck (t : tid) (c : conf) : Prop :=
  conc_inv c ∧ threads c !! t = Some A_recv ∧ b_probe (shared c) = 0%nat.

Lemma stuck_facts t c :
  stuck t c → mutex c = Some t ∧ b_state (shared c) = StateHalfOpen.
Proof.
  intros ((_ & Hcrit & Hhold) & Ht & _). pose proof (Hcrit t A_recv Ht eq_refl) as Hm.
  split; [done|]. destruct (Hhold t Hm) as (p & Hp & _ & Hok). by simplify_eq.
Qed.

(** Outside the critical section nobody is admitted by a half-open breaker
    without permits. *)
Lemma local_step_not_admitted now p b p' b' :
  b_state b = StateHalfOpen → b_probe b = 0%nat →
  local_step now p b = Some (p', b') → p' ≠ Admitted_.
Proof.
  intros Hs Hp H. destruct p; simplify_eq/=; repeat (case_match; simplify_eq/=); congruence.
Qed.

Lemma stuck_step t t1 now c :
  stuck t c →
  stuck t (step t1 now c) ∧
  ∀ t2, threads (step t1 now c) !! t2 = Some Admitted_ → threads c !! t2 = Some Admitted_.
Proof.
  intros Hst. destruct (stuck_facts t c Hst) as [Hm Hhalf]. destruct Hst as (Hinv & Ht & Hp).
  assert (∀ P : Prop, (step t1 now c = c → P) →
    (∀ p' b', t1 ≠ t → b_probe b' = 0%nat → p' ≠ Admitted_ →
       step t1 now c = mkConf b' (mutex c) (<[t1 := p']> (threads c)) → P) → P) as Hcases.
  { intros P Hsame Hmove. unfold step in *.
    destruct (threads c !! t1) as [p|] eqn:E1; [|auto].
    destruct (after_lock p) eqn:El; [rewrite Hm in *; auto|].
    destruct (after_unlock p) eqn:Eu.
    { destruct (after_unlock_critical _ _ Eu) as [Hc _].
      pose proof (proj1 (proj2 Hinv) t1 p E1 Hc). replace t1 with t in * by congruence.
      simplify_eq. }
    destruct (decide (t1 = t)) as [->|Hne].
    { simplify_eq. simpl in *. rewrite Hp in *. auto. }
    destruct (local_step now p (shared c)) as [[p' b']|] eqn:Es; [|auto].
    destruct (critical p) eqn:Hc.
    { pose proof (proj1 (proj2 Hinv) t1 p E1 Hc). congruence. }
    destruct (local_step_outside _ _ _ _ _ Hc Es) as (_ & _ & Hle & _).
    apply (Hmove p' b'); [done|lia| |done]. by eapply local_step_not_admitted. }
  apply Hcases.
  - intros ->. split; [done|auto].
  - intros p' b' Hne Hb' Hp' E. pose proof (step_inv t1 now c Hinv) as Hinv'. rewrite E in *.
    split.
    + split_and!; simpl; [done|by rewrite lookup_insert_ne|done].
    + intros t2 H2. simpl in H2. rewrite lookup_insert in H2. case_decide; congruence.
Qed.

Lemma stuck_run t sched c :
  stuck t c →
  stuck t (run sched c) ∧
  ∀ t2, threads (run sched c) !! t2 = Some Admitted_ → threads c !! t2 = Some Admitted_.
Proof.
  revert c. induction sched as [|[t1 now] sched IH]; intros c H; simpl; [auto|].
  destruct (stuck_step t t1 now c H) as [H1 H2]. destruct (IH _ H1) as [H3 H4]. auto.
Qed.

(** ** Properties *)

(** C13. Mutual exclusion and channel safety for every interleaving: however
    many goroutines call the breaker's methods and however they are scheduled,
    at most one is between [Lock] and [Unlock] and the mutex names it; the
    channel never exceeds [HalfOpenProbes]; a sender in the refill loop never
    blocks; and a step turns the breaker half-open only when it was open. *)
Theorem Breaker_conc_safe cfg ths c sched :
  initial cfg ths c →
  let c' := run sched c in
  (b_probe (shared c') ≤ probe_cap (b_cfg (shared c')))%nat ∧
  (∀ t1 t2 p1 p2, threads c' !! t1 = Some p1 → threads c' !! t2 = Some p2 →
     critical p1 = true → critical p2 = true → t1 = t2 ∧ mutex c' = Some t1) ∧
  (∀ t k now, threads c' !! t = Some (A_fill k) → threads (step t now c') !! t ≠ Some (A_fill k)) ∧
  (∀ t now, b_state (shared (step t now c')) = StateHalfOpen →
     b_state (shared c') = StateHalfOpen ∨ b_state (shared c') = StateOpen).
Proof.
  intros Hi c'. assert (conc_inv c') as Hinv by (by eapply run_inv, initial_inv).
  pose proof Hinv as (Hp & Hcrit & Hhold). split_and!.
  - done.
  - intros t1 t2 p1 p2 H1 H2 Hc1 Hc2.
    pose proof (Hcrit t1 p1 H1 Hc1). pose proof (Hcrit t2 p2 H2 Hc2). split; congruence.
  - intros t k now Ht. destruct (Hhold t) as (p & Hpt & _ & Hok); [by eapply Hcrit|].
    simplify_eq. destruct Hok as [_ Hle]. unfold step. rewrite Ht. simpl. destruct k as [|k].
    + simpl. by rewrite lookup_insert_eq.
    + rewrite decide_True by lia. simpl. rewrite lookup_insert_eq. intros [=]. lia.
  - intros t now. destruct (threads c' !! t) as [p|] eqn:Et; unfold step; rewrite Et; [|auto].
    destruct (after_lock p); [destruct (mutex c'); auto|]. destruct (after_unlock p); [auto|].
    destruct (local_step now p (shared c')) as [[p' b']|] eqn:Es; [|auto]. simpl.
    destruct (critical p) eqn:Hc.
    + clear Hp. destruct (Hhold t) as (p0 & H0 & _ & Hok); [by eapply Hcrit|]. simplify_eq.
      intros Hb'. destruct p; simplify_eq/=; repeat (case_match; simplify_eq/=); try tauto.
    + destruct (local_step_outside _ _ _ _ _ Hc Es) as (-> & _). auto.
Qed.

(** C14. Without interference the interleaved model is the sequential one: a
    goroutine that runs any of the three methods alone from its first
    operation, with the mutex free, reaches its end with exactly the breaker
    and the verdict of the sequential definition, and leaves the mutex free. *)
Theorem Breaker_conc_sequential t now b ths :
  (∃ r b', Breaker_Allow now b = (Ret r, b') ∧
     solo t now (at_ t A_load b None ths) (at_ t (verdict r) b' None ths)) ∧
  (∃ b', Breaker_RecordFailure now b = (Ret tt, b') ∧
     solo t now (at_ t F_add b None ths) (at_ t Reported b' None ths)) ∧
  (∃ b', Breaker_RecordSuccess b = (Ret tt, b') ∧
     solo t now (at_ t S_zero b None ths) (at_ t Reported b' None ths)).
Proof. eauto using solo_Allow, solo_RecordFailure, solo_RecordSuccess. Qed.

(** C15. The drain loop can block for ever: [len(b.probe) > 0] and [<-b.probe]
    are two operations, and a goroutine in [select] can take the last permit
    between them.  A goroutine then waits on the empty channel holding the
    mutex, and from that point on, under every schedule, it never gets past the
    receive, the breaker stays half-open and no call of [Allow] is ever
    admitted again.  With one probe and a threshold of one, five calls reach
    such a state. *)
Theorem Breaker_drain_deadlock :
  (∀ t c sched, stuck t c →
     let c' := run sched c in
     threads c' !! t = Some A_recv ∧ mutex c' = Some t ∧
     b_state (shared c') = StateHalfOpen ∧
     ∀ t', threads c' !! t' = Some Admitted_ → threads c !! t' = Some Admitted_) ∧
  (∃ cfg ths c sched t, config_ok cfg ∧ initial cfg ths c ∧ stuck t (run sched c)).
Proof.
  split.
  - intros t c sched H. destruct (stuck_run t sched c H) as [Hs Hadm].
    destruct (stuck_facts _ _ Hs) as [Hm Hh]. destruct Hs as (_ & Ht & _). by split_and!.
  - set (cfg := mkBreakerConfig 1 (30 * Second) 1).
    set (ths := {[ 1 := F_add; 2 := A_load; 3 := F_add; 4 := A_load; 5 := A_load ]}%nat : gmap tid pc).
    set (c := mkConf (mkBreaker cfg StateClosed 0 0 0) None ths).
    (* 1 opens; 2 half-opens and puts a permit; 3 reopens before 2 selects;
       4 starts draining the leftover permit; 5 takes it. *)
    set (early := unix_epoch). set (late := unix_epoch + 60 * Second).
    set (later := unix_epoch + 120 * Second).
    set (sched := replicate 8 (1%nat, early) ++ replicate 9 (2%nat, late) ++
       replicate 8 (3%nat, late) ++ replicate 1 (2%nat, late) ++
       replicate 6 (4%nat, later) ++ replicate 2 (5%nat, later)).
    assert (initial cfg ths c) as Hi.
    { split; [by eexists|]. apply (bool_decide_eq_true_1 _). vm_compute. reflexivity. }
    exists cfg, ths, c, sched, 4%nat. split_and!; [|done|].
    + unfold config_ok, max_int64. simpl. lia.
    + split_and!; [by eapply run_inv, initial_inv|vm_compute; reflexivity|vm_compute; reflexivity].
Qed.

(** ** Witnesses *)

Lemma Breaker_conc_safe_witness :
  let ths := {[ 1 := F_add; 2 := A_load; 3 := S_zero ]}%nat : gmap tid pc in
  let c := mkConf (mkBreaker ex_cfg StateClosed 0 0 0) None ths in
  let c' := run [(1%nat, 0); (2%nat, 0); (3%nat, 0); (1%nat, 0)] c in
  (b_probe (shared c') ≤ probe_cap (b_cfg (shared c')))%nat.
Proof.
  apply (Breaker_conc_safe ex_cfg {[ 1 := F_add; 2 := A_load; 3 := S_zero ]}%nat
    (mkConf (mkBreaker ex_cfg StateClosed 0 0 0) None {[ 1 := F_add; 2 := A_load; 3 := S_zero ]}%nat)
    [(1%nat, 0); (2%nat, 0); (3%nat, 0); (1%nat, 0)]).
  split; [by eexists|]. apply (bool_decide_eq_true_1 _). vm_compute. reflexivity.
Defined.

(** The reachable state is stuck for every continuation. *)
Lemma Breaker_drain_deadlock_witness :
  ∃ c t, ∀ sched, threads (run sched c) !! t = Some A_recv ∧
    b_state (shared (run sched c)) = StateHalfOpen.
Proof.
  destruct Breaker_drain_deadlock as [Hstuck (cfg & ths & c & sched & t & _ & _ & Hs)].
  exists (run sched c), t. intros sched'.
  destruct (Hstuck t (run sched c) sched' Hs) as (H1 & _ & H2 & _). by split.
Defined.
