(* ===== verification/RegistryConc.v ===== *)
(** [Registry.Get] (internal/circuitbreaker/registry.go) under concurrency: the
    double-checked creation of a breaker, cut at its lock operations and its
    accesses to the map, for any number of goroutines. *)

From S2P Require Export Breaker.

#[local] Open Scope nat_scope.

(** ** The lock *)

(** [sync.RWMutex]: the goroutines that hold it for reading, and the one that
    has called [Lock].  From then on no new reader enters, and the writer goes
    on once the readers are gone. *)
Record rwmutex := mkRW { rw_readers : gset nat; rw_writer : option nat }.

Definition rw_RLock (i : nat) (m : rwmutex) : option rwmutex :=
  match rw_writer m with
  | None => Some (mkRW ({[i]} ∪ rw_readers m) None)
  | Some _ => None
  end.
Definition rw_RUnlock (i : nat) (m : rwmutex) : rwmutex := mkRW (rw_readers m ∖ {[i]}) (rw_writer m).

(** [Lock] in two steps: keep new readers out, wait for the others. *)
Definition rw_Lock (i : nat) (m : rwmutex) : option rwmutex :=
  match rw_writer m with
  | None => Some (mkRW (rw_readers m) (Some i))
  | Some _ => None
  end.
Definition rw_drained (m : rwmutex) : bool := bool_decide (rw_readers m = ∅).
Definition rw_Unlock (m : rwmutex) : rwmutex := mkRW (rw_readers m) None.

(** ** State *)

(** A pointer to a breaker. *)
Abbreviation bptr := nat.

(** The registry with its map of pointers, and the breakers. *)
Record registry_state := mkRS {
  rs_mu : rwmutex;
  rs_breakers : gmap string bptr;
  rs_heap : gmap bptr Breaker;
}.

(** Where a call of [Get] stands; [GUnlock None] and [GDone None] are a panic of
    [New] on its way out. *)
Inductive gpc :=
| GStart                       (* r.mu.RLock() *)
| GRead                        (* b, ok := r.breakers[backendID] *)
| GRUnlock (b : option bptr)   (* r.mu.RUnlock(); if ok *)
| GLock                        (* r.mu.Lock() *)
| GWait
| GCheck                       (* if b, ok = r.breakers[backendID]; ok *)
| GNew                         (* New(r.cfg); r.breakers[backendID] = b *)
| GUnlock (b : option bptr)    (* the deferred r.mu.Unlock() *)
| GDone (b : option bptr).

#[export] Instance gpc_eq_dec : EqDecision gpc.
Proof. solve_decision. Defined.

(** The calls, by goroutine: the id each asks for and where it stands. *)
Record getters := mkGetters { gt_state : registry_state; gt_calls : list (string * gpc) }.

Section get.
Variable cfg : BreakerConfig.

Definition set_mu (m : rwmutex) (s : registry_state) : registry_state := mkRS m (rs_breakers s) (rs_heap s).

(** One step of goroutine [i]; nothing while it is blocked or done. *)
Definition get_step (i : nat) (id : string) (pc : gpc) (s : registry_state) : option (registry_state * gpc) :=
  match pc with
  | GStart => m ← rw_RLock i (rs_mu s); Some (set_mu m s, GRead)
  | GRead => Some (s, GRUnlock (rs_breakers s !! id))
  | GRUnlock b =>
      Some (set_mu (rw_RUnlock i (rs_mu s)) s, match b with Some _ => GDone b | None => GLock end)
  | GLock => m ← rw_Lock i (rs_mu s); Some (set_mu m s, GWait)
  | GWait => if rw_drained (rs_mu s) then Some (s, GCheck) else None
  | GCheck => Some (s, match rs_breakers s !! id with Some b => GUnlock (Some b) | None => GNew end)
  | GNew =>
      match Breaker_New cfg with
      | Ret b =>
          let l := fresh (dom (rs_heap s)) in
          Some (mkRS (rs_mu s) (<[id := l]> (rs_breakers s)) (<[l := b]> (rs_heap s)), GUnlock (Some l))
      | Panic _ => Some (s, GUnlock None)
      end
  | GUnlock b => Some (set_mu (rw_Unlock (rs_mu s)) s, GDone b)
  | GDone _ => None
  end.

Definition getters_step (i : nat) (w : getters) : option getters :=
  '(id, pc) ← gt_calls w !! i;
  '(s, pc') ← get_step i id pc (gt_state w);
  Some (mkGetters s (<[i := (id, pc')]> (gt_calls w))).

(** A run: goroutines that can step do, in any order. *)
Fixpoint getters_run (sched : list nat) (w : getters) : option getters :=
  match sched with
  | [] => Some w
  | i :: sched' => w' ← getters_step i w; getters_run sched' w'
  end.

(** ** Lemmas *)

(** *** The lock *)

(** Whether a call holds the lock for reading, has called [Lock], and has got
    it. *)
Definition reading (pc : gpc) : bool :=
  match pc with GRead | GRUnlock _ => true | _ => false end.
Definition locking (pc : gpc) : bool :=
  match pc with GWait | GCheck | GNew | GUnlock _ => true | _ => false end.
Definition writing (pc : gpc) : bool :=
  match pc with GCheck | GNew | GUnlock _ => true | _ => false end.

Definition lock_inv (m : rwmutex) (calls : list (string * gpc)) : Prop :=
  (∀ i, i ∈ rw_readers m ↔ ∃ id pc, calls !! i = Some (id, pc) ∧ reading pc = true) ∧
  (∀ i, rw_writer m = Some i ↔ ∃ id pc, calls !! i = Some (id, pc) ∧ locking pc = true) ∧
  (∀ i id pc, calls !! i = Some (id, pc) → writing pc = true → rw_readers m = ∅).

Lemma call_insert (P : gpc → Prop) (calls : list (string * gpc)) i id pc j :
  i < length calls →
  (∃ id' pc', <[i := (id, pc)]> calls !! j = Some (id', pc') ∧ P pc') ↔
  if decide (j = i) then P pc else ∃ id' pc', calls !! j = Some (id', pc') ∧ P pc'.
Proof.
  intros Hi. case_decide as Hj.
  - subst j. rewrite list_lookup_insert_eq by done. naive_solver.
  - by rewrite list_lookup_insert_ne.
Qed.

Lemma lock_inv_step m m' calls i id pc pc' :
  lock_inv m calls → calls !! i = Some (id, pc) →
  (∀ j, j ∈ rw_readers m' ↔ if decide (j = i) then reading pc' = true else j ∈ rw_readers m) →
  (∀ j, rw_writer m' = Some j ↔ if decide (j = i) then locking pc' = true else rw_writer m = Some j) →
  (writing pc' = true → rw_readers m' = ∅) → (rw_readers m' ⊆ rw_readers m ∨ rw_writer m = None) →
  lock_inv m' (<[i := (id, pc')]> calls).
Proof.
  intros (H1 & H2 & H3) Hi R W E S. pose proof (lookup_lt_Some _ _ _ Hi) as Hlt. split_and!.
  - intros j. rewrite R, call_insert by done. by case_decide.
  - intros j. rewrite W, call_insert by done. by case_decide.
  - intros j id' q Hj Hw. apply list_lookup_insert_Some in Hj as [(_ & [= <- <-] & _)|[Hij Hj]]; [by apply E|].
    pose proof (H3 j id' q Hj Hw) as Hr. destruct S as [S|S]; [set_solver|].
    assert (rw_writer m = Some j) as Hm; [|congruence].
    apply H2. exists id', q. split; [done|]. by destruct q.
Qed.

Lemma lock_inv_writer m calls i j idi idj pi pj :
  lock_inv m calls → calls !! i = Some (idi, pi) → calls !! j = Some (idj, pj) →
  locking pi = true → locking pj = true → i = j.
Proof.
  intros (_ & H & _) Hi Hj Li Lj.
  assert (rw_writer m = Some i) as E1 by (apply H; eauto).
  assert (rw_writer m = Some j) as E2 by (apply H; eauto). congruence.
Qed.

(** Each step keeps what the lock promises. *)
Lemma get_step_lock i id pc s s' pc' calls :
  lock_inv (rs_mu s) calls → calls !! i = Some (id, pc) → get_step i id pc s = Some (s', pc') →
  lock_inv (rs_mu s') (<[i := (id, pc')]> calls).
Proof.
  intros Hinv Hi Hs. pose proof Hinv as (H1 & H2 & H3).
  assert (i ∈ rw_readers (rs_mu s) ↔ reading pc = true) as Hr by (rewrite H1; naive_solver).
  assert (rw_writer (rs_mu s) = Some i ↔ locking pc = true) as Hw by (rewrite H2; naive_solver).
  assert (writing pc = true → rw_readers (rs_mu s) = ∅) as He by (by eapply H3).
  assert (∀ q, reading q = reading pc → locking q = locking pc →
    (writing q = true → rw_readers (rs_mu s) = ∅) → lock_inv (rs_mu s) (<[i := (id, q)]> calls)) as Hstay.
  { intros q Q1 Q2 Q3. apply (lock_inv_step (rs_mu s) _ _ _ _ pc); try done; [| |by left].
    - intros j. case_decide; [subst; by rewrite Q1|done].
    - intros j. case_decide; [subst; by rewrite Q2|done]. }
  destruct pc; cbn in Hs; cbn [reading locking writing] in *.
  - unfold rw_RLock in Hs. destruct (rw_writer (rs_mu s)) eqn:Ew; [done|]. cbn in Hs. simplify_eq. cbn.
    apply (lock_inv_step (rs_mu s) _ _ _ _ GStart); cbn; try done; [| |by right].
    + intros j. case_decide; set_solver.
    + intros j. case_decide; [done|]. by rewrite Ew.
  - simplify_eq. by apply Hstay.
  - simplify_eq. cbn. apply (lock_inv_step (rs_mu s) _ _ _ _ (GRUnlock b)); cbn; try done.
    + intros j. case_decide; [subst; destruct b; cbn; set_solver|set_solver].
    + intros j. case_decide; [subst; destruct b; cbn; naive_solver|done].
    + by destruct b.
    + left. set_solver.
  - unfold rw_Lock in Hs. destruct (rw_writer (rs_mu s)) eqn:Ew; [done|]. cbn in Hs. simplify_eq. cbn.
    apply (lock_inv_step (rs_mu s) _ _ _ _ GLock); cbn; try done; [| |by right].
    + intros j. case_decide; [subst; naive_solver|done].
    + intros j. case_decide; [naive_solver|]. rewrite Ew. naive_solver.
  - case_match; [|done]. simplify_eq. apply Hstay; [done..|]. intros _. by eapply bool_decide_eq_true_1.
  - simplify_eq. apply Hstay; destruct (rs_breakers _ !! id); auto.
  - destruct (Breaker_New cfg); simplify_eq; cbn; apply Hstay; auto.
  - simplify_eq. cbn. apply (lock_inv_step (rs_mu s) _ _ _ _ (GUnlock b)); cbn; try done; [| |by left].
    + intros j. case_decide; [subst; naive_solver|done].
    + intros j. case_decide; [done|]. split; [done|]. intros Hj. naive_solver.
  - done.
Qed.

(** *** The map *)

(** What a call knows about its id. *)
Definition call_ok (s : registry_state) (id : string) (pc : gpc) : Prop :=
  match pc with
  | GRUnlock (Some b) | GUnlock (Some b) | GDone (Some b) => rs_breakers s !! id = Some b
  | GNew => rs_breakers s !! id = None
  | GUnlock None | GDone None => ∃ w, Breaker_New cfg = Panic w
  | _ => True
  end.

(** Every entry points to its own breaker, and no breaker is without one. *)
Definition registry_wf (s : registry_state) : Prop :=
  (∀ id1 id2 l, rs_breakers s !! id1 = Some l → rs_breakers s !! id2 = Some l → id1 = id2) ∧
  ∀ l, is_Some (rs_heap s !! l) ↔ ∃ id, rs_breakers s !! id = Some l.

Record getters_inv (s0 : registry_state) (ids : list string) (w : getters) : Prop := {
  gi_ids : (gt_calls w).*1 = ids;
  gi_lock : lock_inv (rs_mu (gt_state w)) (gt_calls w);
  gi_calls i id pc : gt_calls w !! i = Some (id, pc) → call_ok (gt_state w) id pc;
  gi_wf : registry_wf (gt_state w);
  gi_old : rs_breakers s0 ⊆ rs_breakers (gt_state w);
  gi_heap : rs_heap s0 ⊆ rs_heap (gt_state w);
  gi_new id l : rs_breakers (gt_state w) !! id = Some l →
    rs_breakers s0 !! id = Some l ∨ id ∈ ids ∧ ∃ b, Breaker_New cfg = Ret b ∧ rs_heap (gt_state w) !! l = Some b;
}.

(** A step either leaves the map and the breakers alone, or is the creation of
    a missing breaker. *)
Lemma get_step_data i id pc s s' pc' :
  get_step i id pc s = Some (s', pc') → call_ok s id pc →
  (rs_breakers s' = rs_breakers s ∧ rs_heap s' = rs_heap s ∧ call_ok s' id pc') ∨
  (∃ b, let l := fresh (dom (rs_heap s)) in
    pc = GNew ∧ Breaker_New cfg = Ret b ∧ pc' = GUnlock (Some l) ∧
    rs_breakers s' = <[id := l]> (rs_breakers s) ∧ rs_heap s' = <[l := b]> (rs_heap s)).
Proof.
  intros Hs Hok. destruct pc; cbn in Hs; unfold rw_RLock, rw_Lock in Hs.
  - destruct (rw_writer (rs_mu s)); simplify_eq/=. by left.
  - simplify_eq. left. split_and!; try done. cbn. by destruct (rs_breakers s' !! id) eqn:E.
  - simplify_eq. left. split_and!; try done. by destruct b.
  - destruct (rw_writer (rs_mu s)); simplify_eq/=. by left.
  - case_match; simplify_eq. by left.
  - simplify_eq. left. split_and!; try done. by destruct (rs_breakers s' !! id) eqn:E.
  - destruct (Breaker_New cfg) as [b|w] eqn:E; simplify_eq; [right; by exists b|left].
    split_and!; try done; cbn; eauto.
  - simplify_eq. by left.
  - done.
Qed.

Lemma getters_step_inv s0 ids i w w' :
  getters_inv s0 ids w → getters_step i w = Some w' → getters_inv s0 ids w'.
Proof.
  intros [Hids Hlock Hcalls [Hinj Hgar] Hold Hheap Hnew]. destruct w as [s calls]. cbn in *.
  unfold getters_step. cbn. destruct (calls !! i) as [[id pc]|] eqn:Hi; [|done]. cbn.
  destruct (get_step i id pc s) as [[s' pc']|] eqn:Hs; [|done]. cbn. intros [= <-].
  pose proof (get_step_lock i id pc s s' pc' calls Hlock Hi Hs) as Hlock'.
  assert ((<[i := (id, pc')]> calls).*1 = ids) as Hids'.
  { rewrite list_fmap_insert, list_insert_id; [done|]. by rewrite list_lookup_fmap, Hi. }
  destruct (get_step_data i id pc s s' pc' Hs (Hcalls i id pc Hi)) as [(E1 & E2 & Hok)|(b & -> & HN & -> & E1 & E2)].
  - assert (∀ id q, call_ok s id q → call_ok s' id q) as Hext.
    { intros id' q. unfold call_ok. by rewrite E1. }
    split; cbn; rewrite ?E1, ?E2; try done.
    + intros j id' q Hj. apply list_lookup_insert_Some in Hj as [(_ & [= <- <-] & _)|[_ Hj]]; [done|eauto].
    + unfold registry_wf. by rewrite E1, E2.
  - set (l := fresh (dom (rs_heap s))) in *. pose proof (Hcalls i id GNew Hi) as Hnone. cbn in Hnone.
    assert (rs_heap s !! l = None) as Hl by (apply not_elem_of_dom, is_fresh).
    assert (∀ id', rs_breakers s !! id' ≠ Some l) as Hl'.
    { intros id' H. assert (is_Some (rs_heap s !! l)) as [? ?] by (apply Hgar; eauto). congruence. }
    assert (id ∈ ids) as Hin.
    { rewrite <- Hids. apply list_elem_of_fmap. exists (id, GNew). split; [done|]. by eapply list_elem_of_lookup_2. }
    split; cbn; rewrite ?E1, ?E2; try done.
    + intros j id' q Hj. apply list_lookup_insert_Some in Hj as [(_ & [= <- <-] & _)|[Hij Hj]].
      * cbn. by rewrite E1, lookup_insert_eq.
      * pose proof (Hcalls j id' q Hj) as Hq. unfold call_ok in *. rewrite E1.
        assert (∀ b', rs_breakers s !! id' = Some b' → <[id := l]> (rs_breakers s) !! id' = Some b') as Hkeep.
        { intros b' H. rewrite lookup_insert_ne; [done|]. intros ->. congruence. }
        destruct q as [| |[]| | | | |[]|[]]; auto.
        exfalso. apply Hij. eapply (lock_inv_writer (rs_mu s) calls); eauto.
    + unfold registry_wf. rewrite E1, E2. split.
      * intros id1 id2 l0. rewrite !lookup_insert. repeat case_decide; intros; simplify_eq; eauto; exfalso; eapply Hl'; eauto.
      * intros l0. rewrite lookup_insert_is_Some. split.
        -- intros [<-|[Hne Hl0]]; [exists id; by rewrite lookup_insert_eq|].
           apply Hgar in Hl0 as [id0 Hid0]. exists id0. rewrite lookup_insert_ne; [done|]. intros ->. congruence.
        -- intros [id0 Hid0]. rewrite lookup_insert in Hid0. case_decide; simplify_eq; [by left|].
           destruct (decide (l = l0)) as [->|]; [by left|]. right. split; [done|]. apply Hgar. eauto.
    + etrans; [exact Hold|]. by apply insert_subseteq.
    + etrans; [exact Hheap|]. by apply insert_subseteq.
    + intros id0 l0 H0. rewrite lookup_insert in H0. case_decide; simplify_eq.
      * right. split; [done|]. exists b. by rewrite lookup_insert_eq.
      * destruct (Hnew id0 l0 H0) as [?|(? & b0 & ? & Hb0)]; [by left|right]. split; [done|].
        exists b0. split; [done|]. rewrite lookup_insert_ne; [done|]. intros <-. congruence.
Qed.

Definition unlocked : rwmutex := mkRW ∅ None.

(** Calls that have not begun. *)
Definition getters_start (s : registry_state) (ids : list string) : getters :=
  mkGetters s ((λ id, (id, GStart)) <$> ids).

Lemma getters_start_inv s ids :
  rs_mu s = unlocked → registry_wf s → getters_inv s ids (getters_start s ids).
Proof.
  intros Hmu Hwf.
  assert (∀ i id pc, ((λ id, (id, GStart)) <$> ids) !! i = Some (id, pc) → pc = GStart) as Hs.
  { intros i id pc Hi. by apply list_lookup_fmap_Some in Hi as (? & [= -> ->] & _). }
  split; cbn; try done.
  - rewrite <- list_fmap_compose. apply list_fmap_id.
  - rewrite Hmu. split_and!; cbn.
    + intros i. split; [set_solver|]. intros (id & pc & Hi & Hr). by rewrite (Hs _ _ _ Hi) in Hr.
    + intros i. split; [done|]. intros (id & pc & Hi & Hr). by rewrite (Hs _ _ _ Hi) in Hr.
    + done.
  - intros i id pc Hi. by rewrite (Hs _ _ _ Hi).
  - auto.
Qed.

Lemma getters_run_inv s0 ids sched w w' :
  getters_inv s0 ids w → getters_run sched w = Some w' → getters_inv s0 ids w'.
Proof.
  revert w. induction sched as [|i sched IH]; intros w Hi; cbn; [by intros [= <-]|].
  destruct (getters_step i w) as [w1|] eqn:E; [|done]. cbn. apply IH. by eapply getters_step_inv.
Qed.

(** *** Progress *)

Definition gpc_left (pc : gpc) : nat :=
  match pc with
  | GStart => 8 | GRead => 7 | GRUnlock _ => 6 | GLock => 5 | GWait => 4 | GCheck => 3 | GNew => 2
  | GUnlock _ => 1 | GDone _ => 0
  end.

Definition total_left (calls : list (string * gpc)) : nat := sum_list ((gpc_left ∘ snd) <$> calls).

Lemma total_left_insert calls i id pc id' pc' :
  calls !! i = Some (id, pc) →
  total_left (<[i := (id', pc')]> calls) + gpc_left pc = total_left calls + gpc_left pc'.
Proof.
  unfold total_left. revert i. induction calls as [|c calls IH]; intros [|i] Hi; simplify_eq/=; [lia|].
  specialize (IH i Hi). lia.
Qed.

Lemma getters_step_left i w w' :
  getters_step i w = Some w' → S (total_left (gt_calls w')) ≤ total_left (gt_calls w).
Proof.
  unfold getters_step. destruct w as [s calls]. cbn [gt_calls gt_state].
  destruct (calls !! i) as [[id pc]|] eqn:Hi; [|done]. cbn [mbind option_bind].
  destruct (get_step i id pc s) as [[s' pc']|] eqn:Hs; [|done]. cbn [mbind option_bind]. intros [= <-].
  change (S (total_left (<[i := (id, pc')]> calls)) ≤ total_left calls).
  pose proof (total_left_insert calls i id pc id pc' Hi) as Ht.
  assert (S (gpc_left pc') ≤ gpc_left pc); [|lia].
  destruct pc; cbn in Hs; unfold rw_RLock, rw_Lock in Hs; simplify_eq/=;
    repeat (case_match; simplify_eq/=); lia.
Qed.

Lemma getters_run_left sched w w' :
  getters_run sched w = Some w' → length sched + total_left (gt_calls w') ≤ total_left (gt_calls w).
Proof.
  revert w. induction sched as [|i sched IH]; intros w; cbn; [intros [= <-]; lia|].
  destruct (getters_step i w) as [w1|] eqn:E; [|done]. cbn. intros H.
  apply getters_step_left in E. apply IH in H. lia.
Qed.

Lemma total_left_start ids : total_left ((λ id, (id, GStart)) <$> ids) = 8 * length ids.
Proof. unfold total_left. induction ids as [|id ids IH]; [done|]. cbn in *. lia. Qed.

Definition all_returned (w : getters) : Prop := Forall (λ c, ∃ b, c.2 = GDone b) (gt_calls w).

Lemma can_step i id pc s calls s' pc' :
  calls !! i = Some (id, pc) → get_step i id pc s = Some (s', pc') →
  ∃ j w', getters_step j (mkGetters s calls) = Some w'.
Proof. intros Hi Hs. exists i. unfold getters_step. cbn. rewrite Hi. cbn. rewrite Hs. by eexists. Qed.

(** A call that holds the lock for reading can go on. *)
Lemma reader_steps i id pc s calls :
  calls !! i = Some (id, pc) → reading pc = true → ∃ j w', getters_step j (mkGetters s calls) = Some w'.
Proof. intros Hi Hr. destruct pc; try done; by eapply can_step. Qed.

Lemma getters_progress s0 ids w :
  getters_inv s0 ids w → all_returned w ∨ ∃ i w', getters_step i w = Some w'.
Proof.
  intros [_ (H1 & H2 & _) _ _ _ _ _]. destruct w as [s calls]. cbn in *.
  destruct (rw_writer (rs_mu s)) as [k|] eqn:Ew.
  - right. destruct (proj1 (H2 k) eq_refl) as (id & pc & Hk & Hl). destruct pc; try done.
    + destruct (set_choose_or_empty (rw_readers (rs_mu s))) as [[r Hr]|He].
      * apply H1 in Hr as (id' & pc' & Hr & Hrd). by eapply reader_steps.
      * apply (can_step k id GWait s calls s GCheck Hk). cbn. unfold rw_drained.
        rewrite bool_decide_eq_true_2; [done|]. by apply leibniz_equiv.
    + by eapply can_step.
    + destruct (Breaker_New cfg) as [b|x] eqn:E; (eapply can_step; [done|]; cbn; by rewrite E).
    + by eapply can_step.
  - destruct (decide (Forall (λ c, gpc_left c.2 = 0) calls)) as [Hd|Hd].
    + left. eapply Forall_impl; [exact Hd|]. intros [id pc] H. cbn in *. destruct pc; try done. by eexists.
    + right. apply not_Forall_Exists in Hd; [|apply _]. apply Exists_exists in Hd as ([id pc] & Hin & Hpc).
      apply list_elem_of_lookup_1 in Hin as [i Hi]. cbn in Hpc.
      assert (locking pc = false) as Hnl.
      { destruct (locking pc) eqn:El; [|done]. assert (None = Some i) as ?; [|done]. rewrite H2. eauto. }
      destruct pc; try done; (eapply can_step; [done|]; cbn; unfold rw_RLock, rw_Lock; by rewrite ?Ew).
Qed.
End get.

(** ** Properties *)

(** What the map of pointers stands for. *)
Definition registry_of (cfg : BreakerConfig) (s : registry_state) : Registry :=
  mkRegistry cfg (omap (λ l, rs_heap s !! l) (rs_breakers s)).

(** [Get] called for each id in turn. *)
Fixpoint gets_run (ids : list string) : M Registry (list Breaker) :=
  match ids with
  | [] => mret []
  | id :: ids' => b ← Registry_Get id; bs ← gets_run ids'; mret (b :: bs)
  end.

(** C16. One breaker per id: however many goroutines call [Get] at once and in
    whatever order their lock operations and map accesses interleave, two calls
    that have returned got the same breaker exactly when they asked for the
    same id; it is the entry of the map, an entry never changes, a new breaker
    is closed with the registry's configuration, none is created and then
    dropped, and a call panics only if [New] does. *)
Theorem Registry_Get_shares cfg s ids sched w :
  rs_mu s = unlocked → registry_wf s → getters_run cfg sched (getters_start s ids) = Some w →
  (∀ i j idi idj li lj,
    gt_calls w !! i = Some (idi, GDone (Some li)) → gt_calls w !! j = Some (idj, GDone (Some lj)) →
    li = lj ↔ idi = idj) ∧
  (∀ i id l, gt_calls w !! i = Some (id, GDone (Some l)) →
    rs_breakers (gt_state w) !! id = Some l ∧
    ∃ b, rs_heap (gt_state w) !! l = Some b ∧ (rs_heap s !! l = Some b ∨ Breaker_New cfg = Ret b)) ∧
  (∀ i id, gt_calls w !! i = Some (id, GDone None) → ∃ why, Breaker_New cfg = Panic why) ∧
  rs_breakers s ⊆ rs_breakers (gt_state w) ∧ rs_heap s ⊆ rs_heap (gt_state w) ∧
  registry_wf (gt_state w).
Proof.
  intros Hmu Hwf Hrun.
  pose proof (getters_run_inv cfg s ids sched _ _ (getters_start_inv cfg s ids Hmu Hwf) Hrun)
    as [_ _ Hc [Hinj Hgar] Hold Hheap Hnew].
  split_and!; try done.
  - intros i j idi idj li lj Hi Hj. apply Hc in Hi, Hj. cbn in *. split; [intros ->; by eapply Hinj|].
    intros ->. congruence.
  - intros i id l Hi. apply Hc in Hi. cbn in Hi. split; [done|].
    destruct (Hnew id l Hi) as [H0|(_ & b & Hb & Hl)]; [|by eauto].
    destruct (proj2 (proj2 Hwf l)) as [b Hb]; [by eexists|]. exists b. split; [|by left].
    by eapply lookup_weaken.
  - intros i id Hi. by apply Hc in Hi.
Qed.

(** C17. [Get] cannot deadlock: from any registry that is not locked, calls for
    any ids make at most eight steps each in any interleaving, and as long as
    one of them has not returned some call can make a step. *)
Theorem Registry_Get_completes cfg s ids sched w :
  rs_mu s = unlocked → registry_wf s → getters_run cfg sched (getters_start s ids) = Some w →
  length sched ≤ 8 * length ids ∧ (all_returned w ∨ ∃ i w', getters_step cfg i w = Some w').
Proof.
  intros Hmu Hwf Hrun. split.
  - apply getters_run_left in Hrun. cbn [getters_start gt_calls] in Hrun. rewrite total_left_start in Hrun. lia.
  - eapply getters_progress. by eapply getters_run_inv; [apply getters_start_inv|].
Qed.

(** What the calls in turn leave, for a configuration [New] accepts. *)
Lemma gets_run_spec ids r b0 :
  Breaker_New (reg_cfg r) = Ret b0 →
  ∃ bs r', gets_run ids r = (Ret bs, r') ∧ reg_cfg r' = reg_cfg r ∧
    (∀ id, reg_breakers r' !! id =
      match reg_breakers r !! id with Some b => Some b | None => if decide (id ∈ ids) then Some b0 else None end) ∧
    bs = (λ id, default b0 (reg_breakers r !! id)) <$> ids.
Proof.
  revert r. induction ids as [|id ids IH]; intros r HN.
  - exists [], r. split_and!; try done. intros id. by destruct (reg_breakers r !! id).
  - set (r1 := match reg_breakers r !! id with Some _ => r | None => mkRegistry (reg_cfg r) (<[id := b0]> (reg_breakers r)) end).
    assert (Registry_Get id r = (Ret (default b0 (reg_breakers r !! id)), r1)) as E.
    { unfold Registry_Get, r1. go_step. destruct (reg_breakers r !! id); [done|]. by rewrite HN. }
    assert (reg_cfg r1 = reg_cfg r) as Ec by (unfold r1; by destruct (reg_breakers r !! id)).
    destruct (IH r1) as (bs & r' & E' & Ec' & Hl & Hbs); [by rewrite Ec|].
    eexists _, r'. cbn [gets_run]. rewrite (bind_Ret _ _ _ _ _ E), (bind_Ret _ _ _ _ _ E').
    split_and!; [reflexivity|congruence| |].
    + intros id'. rewrite Hl. unfold r1. destruct (decide (id' = id)) as [->|Hne].
      * destruct (reg_breakers r !! id) eqn:Er; cbn; [by rewrite Er|].
        rewrite lookup_insert_eq, decide_True; [done|by left].
      * assert (id' ∈ id :: ids ↔ id' ∈ ids) as Hin by (rewrite elem_of_cons; tauto).
        destruct (reg_breakers r !! id) eqn:Er; cbn; rewrite ?lookup_insert_ne by done;
          destruct (reg_breakers r !! id'); try done; by apply decide_ext.
    + cbn. f_equal. rewrite Hbs. apply list_fmap_ext. intros k id' _. unfold r1.
      destruct (reg_breakers r !! id) eqn:Er; [done|]. cbn.
      destruct (decide (id' = id)) as [->|Hne]; [by rewrite lookup_insert_eq, Er|by rewrite lookup_insert_ne].
Qed.

(** C18. Concurrent calls are equivalent to calls in turn: for a configuration
    [New] accepts, once all calls have returned, in whatever interleaving, the
    registry is the one that [Get] called for the same ids one after the other
    leaves, and every call has a pointer to the breaker that the sequential call
    returns. *)
Theorem Registry_Get_sequential cfg s ids sched w :
  rs_mu s = unlocked → registry_wf s → (0 ≤ HalfOpenProbes cfg)%Z →
  getters_run cfg sched (getters_start s ids) = Some w → all_returned w →
  ∃ bs, gets_run ids (registry_of cfg s) = (Ret bs, registry_of cfg (gt_state w)) ∧
    Forall2 (λ c b, ∃ l, c.2 = GDone (Some l) ∧ rs_heap (gt_state w) !! l = Some b) (gt_calls w) bs.
Proof.
  intros Hmu Hwf Hp Hrun Hdone.
  pose proof (getters_run_inv cfg s ids sched _ _ (getters_start_inv cfg s ids Hmu Hwf) Hrun)
    as [Hids _ Hc [Hinj Hgar] Hold Hheap Hnew].
  assert (Breaker_New cfg = Ret (mkBreaker cfg StateClosed 0 0 0)) as HN.
  { unfold Breaker_New. by rewrite decide_False by lia. }
  set (b0 := mkBreaker cfg StateClosed 0 0 0) in *.
  assert (∀ id, rs_breakers s !! id = None → is_Some (rs_breakers (gt_state w) !! id) → id ∈ ids ∧
    (rs_breakers (gt_state w) !! id ≫= λ l, rs_heap (gt_state w) !! l) = Some b0) as Hfresh.
  { intros id H0 [l Hl]. destruct (Hnew id l Hl) as [H|(Hin & b & Hb & Hh)]; [congruence|].
    split; [done|]. rewrite Hl. cbn. rewrite Hh. congruence. }
  assert (∀ id l, rs_breakers s !! id = Some l → rs_breakers (gt_state w) !! id = Some l ∧
    ∃ b, rs_heap s !! l = Some b ∧ rs_heap (gt_state w) !! l = Some b) as Hkeep.
  { intros id l H0. split; [by eapply lookup_weaken|].
    destruct (proj2 (proj2 Hwf l)) as [b Hb]; [by eexists|]. exists b. split; [done|]. by eapply lookup_weaken. }
  assert (∀ i id pc, gt_calls w !! i = Some (id, pc) → ∃ l, pc = GDone (Some l) ∧ rs_breakers (gt_state w) !! id = Some l)
    as Hret.
  { intros i id pc Hi. pose proof (Forall_lookup_1 _ _ _ _ Hdone Hi) as [[l|] Hpc]; cbn in Hpc; subst pc.
    - exists l. split; [done|]. by apply Hc in Hi.
    - apply Hc in Hi as [x Hx]. congruence. }
  assert (∀ id, id ∈ ids → is_Some (rs_breakers (gt_state w) !! id)) as Hall.
  { intros id Hid. rewrite <- Hids in Hid. apply list_elem_of_fmap in Hid as ([id' pc] & -> & Hin).
    apply list_elem_of_lookup_1 in Hin as [i Hi]. destruct (Hret i id' pc Hi) as (l & _ & Hl). by exists l. }
  destruct (gets_run_spec ids (registry_of cfg s) b0 HN) as (bs & r' & E & Ec & Hl & Hbs).
  exists bs. rewrite E. split.
  - f_equal. destruct r' as [c' m']. cbn in Ec, Hl. subst c'. unfold registry_of. f_equal.
    apply map_eq. intros id. rewrite Hl, !lookup_omap.
    destruct (rs_breakers s !! id) as [l|] eqn:E0; cbn.
    + destruct (Hkeep id l E0) as (-> & b & Hb & Hb'). cbn. by rewrite Hb, Hb'.
    + case_decide as Hin; [by rewrite (proj2 (Hfresh id E0 (Hall id Hin)))|].
      destruct (rs_breakers (gt_state w) !! id) eqn:E1; [|done]. by destruct (Hfresh id E0) as [? _]; [rewrite E1|].
  - apply Forall2_same_length_lookup_2.
    + rewrite Hbs, length_fmap, <- Hids, length_fmap. done.
    + intros i [id pc] b Hi Hb. destruct (Hret i id pc Hi) as (l & -> & Hlk). exists l. split; [done|].
      assert (ids !! i = Some id) as Hid by (rewrite <- Hids, list_lookup_fmap, Hi; done).
      rewrite Hbs, list_lookup_fmap, Hid in Hb. cbn in Hb. rewrite lookup_omap in Hb. injection Hb as <-.
      destruct (rs_breakers s !! id) as [l0|] eqn:E0; cbn.
      * destruct (Hkeep id l0 E0) as (Hk & b & Hb & Hb'). rewrite Hlk in Hk. injection Hk as ->. by rewrite Hb, Hb'.
      * destruct (Hfresh id E0) as [_ Hf]; [by rewrite Hlk|]. rewrite Hlk in Hf. exact Hf.
Qed.

(** ** Witnesses *)

(** A registry with a breaker for "a". *)
Definition ex_registry : registry_state :=
  mkRS unlocked {["a" := 0]} {[0 := mkBreaker ex_cfg StateClosed 0 0 0]}.

Lemma ex_registry_wf : registry_wf ex_registry.
Proof.
  split.
  - cbn. intros id1 id2 l H1 H2. apply lookup_singleton_Some in H1 as [<- _], H2 as [<- _]. reflexivity.
  - intros l. cbn. rewrite lookup_singleton_is_Some. split.
    + intros <-. exists "a". apply lookup_singleton_eq.
    + intros [id H]. by apply lookup_singleton_Some in H as [_ <-].
Qed.

(** One call for "a" and two for "b", both of which miss the entry. *)
Definition ex_ids : list string := ["a"; "b"; "b"].
Definition ex_sched : list nat := [0; 1; 2; 1; 2; 0; 1; 2; 1; 0; 1; 1; 1; 1; 2; 2; 2; 2].

Definition ex_getters : option getters := getters_run ex_cfg ex_sched (getters_start ex_registry ex_ids).

Lemma Registry_Get_shares_witness :
  ∃ w l, ex_getters = Some w ∧ gt_calls w !! 1 = Some ("b", GDone (Some l)) ∧
    gt_calls w !! 2 = Some ("b", GDone (Some l)).
Proof.
  destruct ex_getters as [w|] eqn:E; [|vm_compute in E; discriminate E].
  destruct (Registry_Get_shares ex_cfg ex_registry ex_ids ex_sched w eq_refl ex_registry_wf E) as (H & _).
  assert (∃ l, gt_calls w !! 1 = Some ("b", GDone (Some l))) as [l Hl].
  { vm_compute in E. injection E as <-. eexists. reflexivity. }
  assert (∃ l, gt_calls w !! 2 = Some ("b", GDone (Some l))) as [l' Hl'].
  { vm_compute in E. injection E as <-. eexists. reflexivity. }
  exists w, l. split; [reflexivity|]. split; [exact Hl|].
  rewrite Hl'. by rewrite (proj2 (H 1 2 "b" "b" l l' Hl Hl') eq_refl).
Defined.

Lemma Registry_Get_completes_witness :
  ∃ w, ex_getters = Some w ∧ length ex_sched ≤ 8 * length ex_ids ∧
    (all_returned w ∨ ∃ i w', getters_step ex_cfg i w = Some w').
Proof.
  destruct ex_getters as [w|] eqn:E; [|vm_compute in E; discriminate E].
  exists w. split; [reflexivity|].
  exact (Registry_Get_completes ex_cfg ex_registry ex_ids ex_sched w eq_refl ex_registry_wf E).
Defined.

Lemma Registry_Get_sequential_witness :
  ∃ w bs, ex_getters = Some w ∧
    gets_run ex_ids (registry_of ex_cfg ex_registry) = (Ret bs, registry_of ex_cfg (gt_state w)).
Proof.
  destruct ex_getters as [w|] eqn:E; [|vm_compute in E; discriminate E].
  destruct (Registry_Get_sequential ex_cfg ex_registry ex_ids ex_sched w eq_refl ex_registry_wf) as (bs & H & _).
  - vm_compute. discriminate.
  - exact E.
  - vm_compute in E. injection E as <-. repeat (apply Forall_cons_2; [by eexists|]). constructor.
  - exists w, bs. split; [reflexivity|exact H].
Defined.
