(* ===== verification/Health.v ===== *)
(** Health checking (internal/health/statemachine.go, checker.go): the
    threshold state machine that moves a backend between [Healthy],
    [Unhealthy] and [Probation], and the active checker that probes every
    backend of the pool. *)

From S2P Require Export BackendPool GoFloat.

#[local] Open Scope Z_scope.

(** ** Data *)

Record HealthConfig := mkHealthConfig {
  hc_Interval : Duration;
  hc_Timeout : Duration;
  hc_Path : string;
  hc_FailureThreshold : Z;
  hc_SuccessThreshold : Z;
  hc_Mode : string;
  hc_PassiveWindow : Duration;
  hc_PassiveErrorRate : float64;
}.

Definition DefaultHealthConfig : HealthConfig :=
  mkHealthConfig (10 * Second) (2 * Second) "/health" 3 2 "http" (60 * Second) (f64_lit 3 1).

Record probeState := mkProbeState {
  ps_failures : Z;
  ps_successes : Z;
  ps_unhealthySince : Time;
  ps_backoff : Duration;
}.

#[export] Instance probeState_eq_dec : EqDecision probeState.
Proof. solve_decision. Defined.

Definition newProbeState : probeState := mkProbeState 0 0 Time_zero (5 * Second).

(** [record(ok)]; [now] is the clock, read at the first failure. *)
Definition probeState_record (ok : bool) (now : Time) (ps : probeState) : probeState :=
  if ok then
    mkProbeState 0 (wrap64 (ps_successes ps + 1)) (ps_unhealthySince ps) (ps_backoff ps)
  else
    mkProbeState (wrap64 (ps_failures ps + 1)) 0
      (if Time_IsZero (ps_unhealthySince ps) then now else ps_unhealthySince ps)
      (ps_backoff ps).

Definition set_since (t : Time) (ps : probeState) : probeState :=
  mkProbeState (ps_failures ps) (ps_successes ps) t (ps_backoff ps).
Definition set_backoff (d : Duration) (ps : probeState) : probeState :=
  mkProbeState (ps_failures ps) (ps_successes ps) (ps_unhealthySince ps) d.

(** The probe states are shared by pointer but never leave the map, so the map
    holds them by value. *)
Record StateMachine := mkStateMachine {
  sm_cfg : HealthConfig;
  sm_states : gmap string probeState;
}.

Definition NewStateMachine (cfg : HealthConfig) : StateMachine := mkStateMachine cfg ∅.

(** The machine and the backends it drives. *)
Abbreviation world := (StateMachine * store)%type.

(** [time.Duration] minimum of statemachine.go. *)
Definition min_duration (a b : Duration) : Duration := if decide (a < b) then a else b.

(** ** The state machine *)

Definition StateMachine_state (id : string) : M world probeState :=
  m ← gets (λ w, sm_states w.1);
  match m !! id with
  | Some ps => mret ps
  | None =>
      modify (λ w, (mkStateMachine (sm_cfg w.1) (<[id := newProbeState]> (sm_states w.1)), w.2));;
      mret newProbeState
  end.

(** A write through the pointer that [state(id)] returned. *)
Definition update_probe (id : string) (f : probeState → probeState) : M world () :=
  modify (λ w, (mkStateMachine (sm_cfg w.1) (alter f id (sm_states w.1)), w.2)).
(** A read through it. *)
Definition read_probe (id : string) : M world probeState :=
  gets (λ w, default newProbeState (sm_states w.1 !! id)).

(** Operations on the backends alone. *)
Definition on_store {A} (m : M store A) : M world A := λ w,
  let '(o, σ') := m w.2 in (o, (w.1, σ')).

(** [Observe(b, ok)]: [now1] is the clock [record] reads, [now2] the one the
    transition reads. *)
Definition StateMachine_Observe (l : loc) (ok : bool) (now1 now2 : Time) : M world () :=
  σ ← gets snd;
  b ← lift (deref σ l);
  let id := ID b in
  StateMachine_state id;;
  update_probe id (probeState_record ok now1);;
  ps ← read_probe id;
  cfg ← gets (λ w, sm_cfg w.1);
  current ← lift (Backend_GetHealth σ l);
  match current with
  | HealthHealthy =>
      if decide (hc_FailureThreshold cfg ≤ ps_failures ps)
      then on_store (Backend_SetHealth l HealthUnhealthy) else mret tt
  | HealthUnhealthy =>
      let elapsed := Time_Sub now2 (ps_unhealthySince ps) in
      if decide (ps_backoff ps ≤ elapsed ∧ hc_SuccessThreshold cfg ≤ ps_successes ps) then
        on_store (Backend_SetHealth l HealthProbation);;
        update_probe id (λ ps, set_backoff (min_duration (wrap64 (ps_backoff ps * 2)) (5 * Minute)) ps);;
        update_probe id (set_since Time_zero)
      else mret tt
  | HealthProbation =>
      if decide (0 < ps_failures ps) then
        on_store (Backend_SetHealth l HealthUnhealthy);;
        update_probe id (set_since now2)
      else if decide (hc_SuccessThreshold cfg ≤ ps_successes ps) then
        on_store (Backend_SetHealth l HealthHealthy);;
        update_probe id (set_backoff (5 * Second))
      else mret tt
  | HealthDisabled => mret tt
  end.

(** One probe result of a backend with its two clock readings. *)
Record probe_result := mkResult { pr_ok : bool; pr_t1 : Time; pr_t2 : Time }.

(** A sequence of probe results of one backend; returns the health after each. *)
Fixpoint observe_run (l : loc) (rs : list probe_result) : M world (list Health) :=
  match rs with
  | [] => mret []
  | r :: rs' =>
      StateMachine_Observe l (pr_ok r) (pr_t1 r) (pr_t2 r);;
      σ ← gets snd;
      h ← lift (Backend_GetHealth σ l);
      hs ← observe_run l rs'; mret (h :: hs)
  end.

(** ** The active checker *)

Record Checker := mkChecker {
  ck_pool : Pool;
  ck_cfg : HealthConfig;
  ck_failures : gmap string Z;
  ck_successes : gmap string Z;
}.

Definition NewChecker (pool : Pool) (cfg : HealthConfig) : Checker := mkChecker pool cfg ∅ ∅.

(** A Go map of counters reads 0 where it has no entry. *)
Definition count (m : gmap string Z) (id : string) : Z := default 0 (m !! id).

Definition Checker_count (ok : bool) (id : string) (c : Checker) : Checker :=
  if ok then
    mkChecker (ck_pool c) (ck_cfg c) (<[id := 0]> (ck_failures c))
      (<[id := wrap64 (count (ck_successes c) id + 1)]> (ck_successes c))
  else
    mkChecker (ck_pool c) (ck_cfg c)
      (<[id := wrap64 (count (ck_failures c) id + 1)]> (ck_failures c))
      (<[id := 0]> (ck_successes c)).

Definition Checker_transition (l : loc) : M (Checker * store) () := λ w,
  let '(c, σ) := w in
  let set h := let '(o, σ') := Backend_SetHealth l h σ in (o, (c, σ')) in
  match deref σ l with
  | Panic p => (Panic p, w)
  | Ret b =>
      let f := count (ck_failures c) (ID b) in
      let s := count (ck_successes c) (ID b) in
      match health b with
      | HealthHealthy =>
          if decide (hc_FailureThreshold (ck_cfg c) ≤ f) then set HealthUnhealthy else (Ret tt, w)
      | HealthUnhealthy =>
          if decide (hc_SuccessThreshold (ck_cfg c) ≤ s) then set HealthProbation else (Ret tt, w)
      | HealthProbation =>
          if decide (0 < f) then set HealthUnhealthy
          else if decide (hc_SuccessThreshold (ck_cfg c) ≤ s) then set HealthHealthy
          else (Ret tt, w)
      | HealthDisabled => (Ret tt, w)
      end
  end.

Section checker.
(** [net.DialTimeout]: whether the connection was made. *)
Variable net_DialTimeout : string → string → Duration → bool.
(** [client.Get]: the status code, or nothing for an error. *)
Variable client_Get : string → option Z.

Definition probeTCP (addr : string) (timeout : Duration) : bool :=
  net_DialTimeout "tcp" addr timeout.

Definition Checker_probeHTTP (c : Checker) (b : Backend) : bool :=
  match client_Get (url_String (BURL b) +:+ hc_Path (ck_cfg c)) with
  | None => false
  | Some status => bool_decide (status < 500)
  end.

(** The switch on the mode. *)
Definition probe_outcome (c : Checker) (b : Backend) : bool :=
  if decide (hc_Mode (ck_cfg c) = "tcp") then probeTCP (url_Host (BURL b)) (hc_Timeout (ck_cfg c))
  else Checker_probeHTTP c b.

Definition Checker_probe (l : loc) : M (Checker * store) () :=
  w ← gets id;
  b ← lift (deref w.2 l);
  modify (λ w, (Checker_count (probe_outcome w.1 b) (ID b) w.1, w.2));;
  Checker_transition l.
End checker.

(** The probe of grpc.go; no mode of the checker selects it. *)
Section grpc.
(** [grpc.DialContext] with the timeout, and [Check] on the connection: the
    status, or nothing for an error. *)
Context {GrpcConn : Type}.
Variable grpc_Dial : string → Duration → option GrpcConn.
Variable grpc_Check : GrpcConn → Duration → option Z.

Definition HealthCheckResponse_SERVING : Z := 1.

Definition probeGRPC (addr : string) (timeout : Duration) : bool :=
  match grpc_Dial addr timeout with
  | None => false
  | Some conn =>
      match grpc_Check conn timeout with
      | None => false
      | Some status => bool_decide (status = HealthCheckResponse_SERVING)
      end
  end.
End grpc.

(** One tick of [Run] starts a probe of every backend; here they run in turn. *)
Definition Checker_tick (dial : string → string → Duration → bool) (get : string → option Z)
    : M (Checker * store) () :=
  w ← gets id;
  forM (Pool_Backends (ck_pool w.1)) (Checker_probe dial get).

(** ** Specification vocabulary *)

(** What one probe result does to a backend and its counters, as a function. *)
Definition fsm_step (cfg : HealthConfig) (r : probe_result) (s : probeState * Health)
    : probeState * Health :=
  let ps := probeState_record (pr_ok r) (pr_t1 r) s.1 in
  match s.2 with
  | HealthHealthy =>
      (ps, if decide (hc_FailureThreshold cfg ≤ ps_failures ps)
           then HealthUnhealthy else HealthHealthy)
  | HealthUnhealthy =>
      if decide (ps_backoff ps ≤ Time_Sub (pr_t2 r) (ps_unhealthySince ps) ∧
                 hc_SuccessThreshold cfg ≤ ps_successes ps)
      then (set_since Time_zero
              (set_backoff (min_duration (wrap64 (ps_backoff ps * 2)) (5 * Minute)) ps),
            HealthProbation)
      else (ps, HealthUnhealthy)
  | HealthProbation =>
      if decide (0 < ps_failures ps) then (set_since (pr_t2 r) ps, HealthUnhealthy)
      else if decide (hc_SuccessThreshold cfg ≤ ps_successes ps)
      then (set_backoff (5 * Second) ps, HealthHealthy)
      else (ps, HealthProbation)
  | HealthDisabled => (ps, HealthDisabled)
  end.

Fixpoint fsm_run (cfg : HealthConfig) (rs : list probe_result) (s : probeState * Health)
    : list Health * (probeState * Health) :=
  match rs with
  | [] => ([], s)
  | r :: rs' =>
      let s' := fsm_step cfg r s in
      let '(hs, s'') := fsm_run cfg rs' s' in (s'.2 :: hs, s'')
  end.

(** The counters the machine holds for an id. *)
Definition probe_of (sm : StateMachine) (id : string) : probeState :=
  default newProbeState (sm_states sm !! id).

(** The transitions of DESIGN.md. *)
Inductive legal : Health → Health → Prop :=
| legal_eject : legal HealthHealthy HealthUnhealthy
| legal_readmit : legal HealthUnhealthy HealthProbation
| legal_relapse : legal HealthProbation HealthUnhealthy
| legal_recover : legal HealthProbation HealthHealthy.

(** Readmissions since the last full recovery, along a health trace. *)
Fixpoint relapses (k : nat) (h : Health) (hs : list Health) : nat :=
  match hs with
  | [] => k
  | h' :: hs' =>
      relapses (match h, h' with
                | HealthUnhealthy, HealthProbation => S k
                | HealthProbation, HealthHealthy => O
                | _, _ => k
                end) h' hs'
  end.

(** The [k]-th backoff: five seconds doubled [k] times, at most five minutes. *)
Definition backoff_at (k : nat) : Duration := Z.min (5 * Second * 2 ^ Z.of_nat k) (5 * Minute).

(** Thresholds for which the counters make sense. *)
Definition thresholds_ok (cfg : HealthConfig) : Prop :=
  1 ≤ hc_FailureThreshold cfg ≤ max_int64 ∧ 1 ≤ hc_SuccessThreshold cfg ≤ max_int64.

#[export] Instance thresholds_ok_dec cfg : Decision (thresholds_ok cfg).
Proof. unfold thresholds_ok. apply _. Defined.

(** ** The monadic code computes [fsm_step] *)

Lemma alter_insert_id {A} (f : A → A) (m : gmap string A) i x :
  alter f i (<[i := x]> m) = <[i := f x]> m.
Proof. apply map_eq. intros j. destruct (decide (i = j)) as [<-|]; by simplify_map_eq. Qed.

Lemma state_step id sm σ :
  StateMachine_state id (sm, σ) =
    (Ret (probe_of sm id), (mkStateMachine (sm_cfg sm) (<[id := probe_of sm id]> (sm_states sm)), σ)).
Proof.
  unfold StateMachine_state, probe_of. go_step.
  destruct (sm_states sm !! id) as [ps|] eqn:E; simpl; [|done].
  rewrite insert_id by done. by destruct sm.
Qed.

Lemma SetHealth_step l h b sm σ :
  σ !! l = Some b →
  on_store (Backend_SetHealth l h) (sm, σ) = (Ret tt, (sm, <[l := set_health h b]> σ)).
Proof. intros H. unfold on_store, Backend_SetHealth. simpl. by rewrite (update_live _ _ _ _ H). Qed.

Lemma set_health_id b : set_health (health b) b = b.
Proof. by destruct b. Qed.

Lemma Observe_step l r sm σ b :
  σ !! l = Some b →
  let s' := fsm_step (sm_cfg sm) r (probe_of sm (ID b), health b) in
  StateMachine_Observe l (pr_ok r) (pr_t1 r) (pr_t2 r) (sm, σ) =
    (Ret tt, (mkStateMachine (sm_cfg sm) (<[ID b := s'.1]> (sm_states sm)),
              <[l := set_health s'.2 b]> σ)).
Proof.
  intros Hb s'. unfold StateMachine_Observe.
  assert (<[l := b]> σ = σ) as Hσ by (by apply insert_id).
  cbv [gets mbind mret M_bind M_ret lift]. simpl. rewrite (deref_live _ _ _ Hb).
  rewrite state_step. unfold update_probe, read_probe, modify, gets. simpl.
  rewrite alter_insert_id, lookup_insert_eq. simpl.
  unfold Backend_GetHealth. rewrite (deref_live _ _ _ Hb). cbn [mbind outcome_bind mret outcome_ret].
  subst s'. unfold fsm_step. simpl.
  destruct (health b) eqn:Hh; simpl; repeat case_decide; simpl;
    rewrite ?(SetHealth_step _ _ _ _ _ Hb); simpl;
    rewrite ?alter_insert_id, <- ?Hh, ?set_health_id, ?Hσ; done.
Qed.

Lemma Observe_run_step l rs sm σ b :
  σ !! l = Some b →
  let '(hs, s') := fsm_run (sm_cfg sm) rs (probe_of sm (ID b), health b) in
  ∃ sm' σ', observe_run l rs (sm, σ) = (Ret hs, (sm', σ')) ∧ sm_cfg sm' = sm_cfg sm ∧
    probe_of sm' (ID b) = s'.1 ∧ σ' !! l = Some (set_health s'.2 b).
Proof.
  revert sm σ b. induction rs as [|r rs IH]; intros sm σ b Hb; simpl.
  - exists sm, σ. by rewrite set_health_id.
  - pose proof (Observe_step l r sm σ b Hb) as E. simpl in E.
    set (s1 := fsm_step _ _ _) in *.
    specialize (IH (mkStateMachine (sm_cfg sm) (<[ID b := s1.1]> (sm_states sm)))
      (<[l := set_health s1.2 b]> σ) (set_health s1.2 b)).
    rewrite lookup_insert_eq in IH. specialize (IH eq_refl). simpl in IH.
    unfold probe_of at 1 in IH. simpl in IH. rewrite lookup_insert_eq in IH. simpl in IH.
    destruct s1 as [ps1 h1]. simpl in *.
    destruct (fsm_run _ rs _) as [hs s2]. destruct IH as (sm' & σ' & E' & H1 & H2 & H3).
    exists sm', σ'. split_and!; try done.
    rewrite (bind_Ret _ _ _ _ _ E). cbv [gets mbind mret M_bind M_ret lift]. simpl.
    unfold Backend_GetHealth. rewrite (deref_live _ _ (set_health h1 b)) by apply lookup_insert_eq.
    cbn [mbind outcome_bind mret outcome_ret]. by rewrite E'.
Qed.

(** ** Lemmas on one step *)

Definition counts_ok (ps : probeState) : Prop :=
  0 ≤ ps_failures ps < max_int64 ∧ 0 ≤ ps_successes ps < max_int64.

#[export] Instance counts_ok_dec ps : Decision (counts_ok ps).
Proof. unfold counts_ok. apply _. Defined.

(** Opens a step: the record's constructors, the counters without wrap. *)
Ltac fsm_open :=
  unfold fsm_step, probeState_record, set_since, set_backoff in *; simpl in *;
  repeat match goal with
  | |- context [wrap64 (ps_failures ?p + 1)] =>
      rewrite (wrap64_id (ps_failures p + 1)) by (unfold counts_ok, is_int64, min_int64, max_int64 in *; lia)
  | |- context [wrap64 (ps_successes ?p + 1)] =>
      rewrite (wrap64_id (ps_successes p + 1)) by (unfold counts_ok, is_int64, min_int64, max_int64 in *; lia)
  end.

Lemma fsm_step_legal cfg r ps h :
  thresholds_ok cfg → counts_ok ps →
  let h' := (fsm_step cfg r (ps, h)).2 in
  h' = h ∨ (legal h h' ∧ (pr_ok r = true ↔ h' ≠ HealthUnhealthy)).
Proof.
  intros Hc Hp. unfold thresholds_ok, counts_ok in *.
  destruct r as [[] t1 t2], h; fsm_open; repeat case_decide; simpl in *;
    try (left; done); try lia; right; (split; [constructor|done]).
Qed.

Lemma fsm_step_disabled cfg r ps : (fsm_step cfg r (ps, HealthDisabled)).2 = HealthDisabled.
Proof. done. Qed.

Lemma backoff_at_0 : backoff_at 0 = 5 * Second.
Proof. done. Qed.

Lemma backoff_at_S k : min_duration (wrap64 (backoff_at k * 2)) (5 * Minute) = backoff_at (S k).
Proof.
  unfold backoff_at. rewrite Nat2Z.inj_succ, Z.pow_succ_r by lia.
  pose proof (Z.pow_pos_nonneg 2 (Z.of_nat k) ltac:(lia) ltac:(lia)) as Hp.
  set (p := 2 ^ Z.of_nat k) in *. unfold min_duration, Minute, Second.
  rewrite wrap64_id by (unfold is_int64, min_int64, max_int64; lia).
  case_decide; lia.
Qed.

Lemma backoff_at_bounds k : 5 * Second ≤ backoff_at k ≤ 5 * Minute.
Proof.
  unfold backoff_at, Minute, Second.
  pose proof (Z.pow_pos_nonneg 2 (Z.of_nat k) ltac:(lia) ltac:(lia)). lia.
Qed.

Lemma fsm_run_backoff cfg rs ps h k :
  ps_backoff ps = backoff_at k →
  ps_backoff (fsm_run cfg rs (ps, h)).2.1 = backoff_at (relapses k h (fsm_run cfg rs (ps, h)).1).
Proof.
  revert ps h k. induction rs as [|r rs IH]; intros ps h k Hk; simpl; [done|].
  destruct (fsm_step cfg r (ps, h)) as [ps' h'] eqn:E.
  set (k' := match h, h' with HealthUnhealthy, HealthProbation => S k
              | HealthProbation, HealthHealthy => O | _, _ => k end).
  assert (ps_backoff ps' = backoff_at k') as Hk'.
  { subst k'. pose proof (backoff_at_S k) as HS. pose proof backoff_at_0.
    destruct r as [[] t1 t2], h; unfold fsm_step in E; simpl in E; repeat case_decide;
      simplify_eq/=; rewrite ?Hk; done. }
  specialize (IH ps' h' k' Hk'). subst k'.
  destruct (fsm_run cfg rs (ps', h')) as [hs s]. simpl in *. exact IH.
Qed.

(** ** Ejection: the failure streak *)

Lemma fsm_run_streak cfg N rs ps n :
  hc_FailureThreshold cfg = Z.of_nat N → Z.of_nat N ≤ max_int64 →
  ps_failures ps = Z.of_nat n → (n < N)%nat →
  Forall (λ h, h = HealthHealthy) (fsm_run cfg rs (ps, HealthHealthy)).1 ↔
    ¬ streak N (replicate n false ++ (pr_ok <$> rs)).
Proof.
  intros HN HN'. revert ps n. induction rs as [|r rs IH]; intros ps n Hps Hn.
  - simpl. rewrite app_nil_r. split; [|by constructor].
    intros _. apply streak_short. by rewrite length_replicate.
  - rewrite fmap_cons. simpl. unfold fsm_step. simpl.
    destruct r as [[] t1 t2]; unfold probeState_record; simpl.
    + rewrite decide_False by lia.
      destruct (fsm_run _ rs _) as [hs s] eqn:E. simpl.
      rewrite Forall_cons, streak_after_success by done.
      match type of E with fsm_run _ _ (?q, _) = _ => specialize (IH q 0%nat eq_refl ltac:(lia)) end.
      rewrite E in IH. simpl in IH. rewrite <- IH. tauto.
    + rewrite Hps, wrap64_id by (unfold is_int64, min_int64; lia).
      rewrite cons_middle, (app_assoc (replicate n false)).
      change [false] with (replicate 1 false). rewrite <- replicate_add, Nat.add_1_r.
      destruct (decide (S n < N)%nat) as [Hlt|Hge].
      * rewrite decide_False by lia. destruct (fsm_run _ rs _) as [hs s] eqn:E. simpl.
        rewrite Forall_cons.
        match type of E with fsm_run _ _ (?q, _) = _ =>
          specialize (IH q (S n) ltac:(simpl; lia) Hlt) end.
        rewrite E in IH. simpl in IH. rewrite <- IH. tauto.
      * assert (N = S n) as -> by lia.
        rewrite decide_True by lia. destruct (fsm_run _ rs _) as [hs s].
        cbn [fst snd]. rewrite Forall_cons. split; [by intros [? _]|].
        intros H. exfalso. apply H, (streak_prefix (S n)).
Qed.

(** ** Recovery *)

(** Good results that come too early: before the backoff expired, or before
    the success threshold is reached. *)
Fixpoint too_early (cfg : HealthConfig) (ps : probeState) (n : Z) (rs : list probe_result) : Prop :=
  match rs with
  | [] => True
  | r :: rs' =>
      pr_ok r = true ∧
      (Time_Sub (pr_t2 r) (ps_unhealthySince ps) < ps_backoff ps ∨
       n + 1 < hc_SuccessThreshold cfg) ∧
      too_early cfg ps (n + 1) rs'
  end.

Lemma too_early_ext cfg ps ps' n rs :
  ps_unhealthySince ps' = ps_unhealthySince ps → ps_backoff ps' = ps_backoff ps →
  too_early cfg ps n rs → too_early cfg ps' n rs.
Proof.
  intros H1 H2. revert n. induction rs as [|r rs IH]; intros n; simpl; [done|].
  rewrite H1, H2. intros (? & ? & ?). auto.
Qed.

Lemma fsm_run_waiting cfg rs ps :
  0 ≤ ps_successes ps → ps_successes ps + zlen rs < max_int64 →
  too_early cfg ps (ps_successes ps) rs →
  ∃ f, fsm_run cfg rs (ps, HealthUnhealthy) =
    (replicate (length rs) HealthUnhealthy,
     (mkProbeState f (ps_successes ps + zlen rs) (ps_unhealthySince ps) (ps_backoff ps),
      HealthUnhealthy)).
Proof.
  unfold zlen. revert ps. induction rs as [|r rs IH]; intros ps H0 Hl He; simpl.
  - rewrite Z.add_0_r. exists (ps_failures ps). by destruct ps.
  - destruct He as (Hok & Hw & He).
    unfold fsm_step. simpl. rewrite Hok. unfold probeState_record. simpl in *.
    rewrite wrap64_id by (unfold is_int64, min_int64, max_int64 in *; lia).
    rewrite decide_False by lia.
    match goal with |- context [fsm_run _ _ (?q, _)] => destruct (IH q) as [f Hf] end;
      simpl; try done; try lia.
    1: { by eapply too_early_ext; [..|exact He]. }
    rewrite Hf. eexists. do 3 f_equal. simpl. lia.
Qed.

Lemma fsm_run_app cfg rs1 rs2 s :
  fsm_run cfg (rs1 ++ rs2) s =
    let '(h1, s1) := fsm_run cfg rs1 s in
    let '(h2, s2) := fsm_run cfg rs2 s1 in (h1 ++ h2, s2).
Proof.
  revert s. induction rs1 as [|r rs IH]; intros s; simpl; [by destruct (fsm_run cfg rs2 s)|].
  rewrite IH. destruct (fsm_run cfg rs _) as [h1 s1], (fsm_run cfg rs2 s1). done.
Qed.

Lemma fsm_step_readmit cfg r ps :
  pr_ok r = true → 0 ≤ ps_successes ps < max_int64 →
  ps_backoff ps ≤ Time_Sub (pr_t2 r) (ps_unhealthySince ps) →
  hc_SuccessThreshold cfg ≤ ps_successes ps + 1 →
  fsm_step cfg r (ps, HealthUnhealthy) =
    (mkProbeState 0 (ps_successes ps + 1) Time_zero
       (min_duration (wrap64 (ps_backoff ps * 2)) (5 * Minute)), HealthProbation).
Proof.
  intros Hr H0 Hb Hs. unfold fsm_step, probeState_record. cbn [fst snd]. rewrite Hr.
  cbn [ps_failures ps_successes ps_unhealthySince ps_backoff].
  rewrite wrap64_id by (unfold is_int64, min_int64, max_int64 in *; lia).
  by rewrite decide_True by done.
Qed.

Lemma fsm_step_recover cfg r ps :
  pr_ok r = true → 0 ≤ ps_successes ps < max_int64 →
  hc_SuccessThreshold cfg ≤ ps_successes ps + 1 →
  fsm_step cfg r (ps, HealthProbation) =
    (mkProbeState 0 (ps_successes ps + 1) (ps_unhealthySince ps) (5 * Second), HealthHealthy).
Proof.
  intros Hr H0 Hs. unfold fsm_step, probeState_record. cbn [fst snd]. rewrite Hr.
  cbn [ps_failures ps_successes ps_unhealthySince ps_backoff].
  rewrite wrap64_id by (unfold is_int64, min_int64, max_int64 in *; lia).
  rewrite decide_False by lia. by rewrite decide_True by done.
Qed.

(** A healthy backend that fails [N] more times in a row, none before, has the
    clock of its first recorded failure, whenever that was. *)
Lemma fsm_run_failures cfg rs ps :
  Forall (λ r, pr_ok r = false) rs → ps_unhealthySince ps ≠ Time_zero →
  0 ≤ ps_failures ps →
  ps_failures ps + zlen rs < hc_FailureThreshold cfg ≤ max_int64 →
  fsm_run cfg rs (ps, HealthHealthy) =
    (replicate (length rs) HealthHealthy,
     (mkProbeState (ps_failures ps + zlen rs) (if decide (rs = []) then ps_successes ps else 0)
        (ps_unhealthySince ps) (ps_backoff ps), HealthHealthy)).
Proof.
  unfold zlen. revert ps. induction rs as [|r rs IH]; intros ps Hok Hs H0 Hl; simpl in *.
  - rewrite Z.add_0_r. by destruct ps.
  - apply Forall_cons in Hok as [Hr Hok]. unfold fsm_step. simpl. rewrite Hr.
    unfold probeState_record. simpl. unfold Time_IsZero.
    rewrite wrap64_id by (unfold is_int64, min_int64, max_int64 in *; lia).
    rewrite decide_False by lia. rewrite bool_decide_eq_false_2 by done.
    rewrite IH; simpl; try done; try lia.
    do 3 f_equal; [lia|by case_decide].
Qed.

(** ** The state machine's properties *)

(** Every [Observe] follows the documented transition diagram: it leaves
    the health alone or takes one legal transition, towards [Unhealthy] only on
    a failed probe and away from it only on a successful one; a disabled
    backend is never touched, nothing else of the backend changes, and neither
    do the other backends and the counters of other ids. *)
Theorem StateMachine_legal l r sm σ b :
  thresholds_ok (sm_cfg sm) → counts_ok (probe_of sm (ID b)) → σ !! l = Some b →
  ∃ sm' h',
    StateMachine_Observe l (pr_ok r) (pr_t1 r) (pr_t2 r) (sm, σ) =
      (Ret tt, (sm', <[l := set_health h' b]> σ)) ∧
    (h' = health b ∨ legal (health b) h' ∧ (pr_ok r = true ↔ h' ≠ HealthUnhealthy)) ∧
    (health b = HealthDisabled → h' = HealthDisabled) ∧
    (∀ id, id ≠ ID b → probe_of sm' id = probe_of sm id).
Proof.
  intros Hc Hp Hb. pose proof (Observe_step l r sm σ b Hb) as E. simpl in E.
  eexists _, _. split; [exact E|]. split; [by apply fsm_step_legal|]. split.
  - by intros ->.
  - intros id Hid. unfold probe_of at 1. simpl. by rewrite lookup_insert_ne.
Qed.

(** C33. Ejection needs [FailureThreshold] consecutive failures and happens on
    the last of them: over any sequence of probe results, a healthy backend
    without recorded failures stays healthy throughout exactly when the
    sequence has no run of that many failures. *)
Theorem StateMachine_ejects_on_streak l rs sm σ b N :
  hc_FailureThreshold (sm_cfg sm) = Z.of_nat N → (0 < N)%nat → Z.of_nat N ≤ max_int64 →
  σ !! l = Some b → health b = HealthHealthy → ps_failures (probe_of sm (ID b)) = 0 →
  ∃ hs w', observe_run l rs (sm, σ) = (Ret hs, w') ∧
    (Forall (λ h, h = HealthHealthy) hs ↔ ¬ streak N (pr_ok <$> rs)).
Proof.
  intros HN H0 HM Hb Hh Hf. pose proof (Observe_run_step l rs sm σ b Hb) as E.
  rewrite Hh in E.
  pose proof (fsm_run_streak (sm_cfg sm) N rs (probe_of sm (ID b)) 0 HN HM Hf H0) as HS.
  destruct (fsm_run _ rs _) as [hs s]. destruct E as (sm' & σ' & E & _).
  by exists hs, (sm', σ').
Qed.

(** The backoff is exponential: after any sequence of probe results it is
    five seconds doubled once per readmission since the last full recovery,
    and always between five seconds and five minutes. *)
Theorem StateMachine_backoff l rs sm σ b :
  σ !! l = Some b → probe_of sm (ID b) = newProbeState →
  ∃ hs sm' σ', observe_run l rs (sm, σ) = (Ret hs, (sm', σ')) ∧
    ps_backoff (probe_of sm' (ID b)) = backoff_at (relapses 0 (health b) hs) ∧
    5 * Second ≤ ps_backoff (probe_of sm' (ID b)) ≤ 5 * Minute.
Proof.
  intros Hb Hp. pose proof (Observe_run_step l rs sm σ b Hb) as E. rewrite Hp in E.
  pose proof (fsm_run_backoff (sm_cfg sm) rs newProbeState (health b) 0 eq_refl) as HB.
  destruct (fsm_run _ rs _) as [hs s]. destruct E as (sm' & σ' & E & _ & Es & _).
  simpl in HB. exists hs, sm', σ'. rewrite Es, HB. split_and!; try done; apply backoff_at_bounds.
Qed.

(** An unhealthy backend recovers: it stays [Unhealthy] while good results
    come before its backoff expired or before [SuccessThreshold] of them, the
    first good result past both makes it [Probation], and the next one
    [Healthy], with the backoff back at five seconds. *)
Theorem StateMachine_recovers l rs r1 r2 sm σ b :
  thresholds_ok (sm_cfg sm) → σ !! l = Some b → health b = HealthUnhealthy →
  let ps := probe_of sm (ID b) in
  0 ≤ ps_successes ps → ps_successes ps + zlen rs + 2 < max_int64 →
  too_early (sm_cfg sm) ps (ps_successes ps) rs →
  pr_ok r1 = true → pr_ok r2 = true →
  ps_backoff ps ≤ Time_Sub (pr_t2 r1) (ps_unhealthySince ps) →
  hc_SuccessThreshold (sm_cfg sm) ≤ ps_successes ps + zlen rs + 1 →
  ∃ sm' σ', observe_run l (rs ++ [r1; r2]) (sm, σ) =
      (Ret (replicate (length rs) HealthUnhealthy ++ [HealthProbation; HealthHealthy]), (sm', σ')) ∧
    σ' !! l = Some (set_health HealthHealthy b) ∧
    ps_backoff (probe_of sm' (ID b)) = 5 * Second.
Proof.
  intros Hc Hb Hh ps H0 Hl He Hr1 Hr2 Hbo Hsuc.
  pose proof (Observe_run_step l (rs ++ [r1; r2]) sm σ b Hb) as E. rewrite Hh in E.
  rewrite fsm_run_app in E. fold ps in E.
  destruct (fsm_run_waiting (sm_cfg sm) rs ps) as [f Hf]; try done; [lia|].
  rewrite Hf in E. cbn [fsm_run] in E.
  rewrite fsm_step_readmit in E;
    [|done|unfold zlen in *; cbn [ps_successes]; lia|done|cbn [ps_successes]; lia].
  rewrite fsm_step_recover in E;
    [|done|unfold zlen in *; cbn [ps_successes]; lia|cbn [ps_successes]; lia].
  destruct E as (sm' & σ' & E & _ & Es & Eb).
  exists sm', σ'. by rewrite Es.
Qed.

(** [unhealthySince] is documented as the time the backend became unhealthy,
    but it is the time of the first failure since it was last cleared. *)

Lemma too_early_below cfg ps n rs :
  Forall (λ r, pr_ok r = true) rs → n + zlen rs < hc_SuccessThreshold cfg →
  too_early cfg ps n rs.
Proof.
  unfold zlen. intros H. revert n. induction H as [|r rs Hr _ IH]; intros n Hn; simpl in *; [done|].
  split_and!; [done|lia|apply IH; lia].
Qed.

(** The backoff can be skipped altogether: one failure at [t0], one
    success, then [FailureThreshold] consecutive failures eject the backend,
    and [SuccessThreshold] successes right after the ejection readmit it, however
    recent the ejection, as soon as five seconds have passed since [t0]. *)
Theorem StateMachine_stale_backoff l r0 r1 fs rf ss rs sm σ b :
  thresholds_ok (sm_cfg sm) → σ !! l = Some b → health b = HealthHealthy →
  probe_of sm (ID b) = newProbeState →
  pr_ok r0 = false → pr_t1 r0 ≠ Time_zero → pr_ok r1 = true →
  Forall (λ r, pr_ok r = false) (fs ++ [rf]) → Forall (λ r, pr_ok r = true) (ss ++ [rs]) →
  1 < hc_FailureThreshold (sm_cfg sm) →
  zlen fs + 1 = hc_FailureThreshold (sm_cfg sm) →
  zlen ss + 1 = hc_SuccessThreshold (sm_cfg sm) → zlen ss + 1 < max_int64 →
  5 * Second ≤ Time_Sub (pr_t2 rs) (pr_t1 r0) →
  ∃ w', observe_run l ((r0 :: r1 :: fs ++ [rf]) ++ ss ++ [rs]) (sm, σ) =
    (Ret (([HealthHealthy; HealthHealthy] ++ replicate (length fs) HealthHealthy ++
             [HealthUnhealthy]) ++
          replicate (length ss) HealthUnhealthy ++ [HealthProbation]), w').
Proof.
  intros Hc Hb Hh Hp Hr0 Ht0 Hr1 [Hfs Hrf]%Forall_app [Hss Hrs]%Forall_app HN Hlf Hls Hmax Hbo.
  rewrite Forall_singleton in Hrf, Hrs. unfold thresholds_ok in Hc.
  pose proof (Observe_run_step l ((r0 :: r1 :: fs ++ [rf]) ++ ss ++ [rs]) sm σ b Hb) as E.
  rewrite Hp, Hh in E. revert E.
  rewrite (fsm_run_app _ (r0 :: r1 :: fs ++ [rf])). cbn [fsm_run].
  set (cfg := sm_cfg sm) in *.
  assert (fsm_step cfg r0 (newProbeState, HealthHealthy) =
    (mkProbeState 1 0 (pr_t1 r0) (5 * Second), HealthHealthy)) as ->.
  { unfold fsm_step, probeState_record. rewrite Hr0.
    cbn [newProbeState fst snd ps_failures ps_successes ps_unhealthySince ps_backoff].
    change (wrap64 (0 + 1)) with 1. by rewrite decide_False by lia. }
  assert (fsm_step cfg r1 (mkProbeState 1 0 (pr_t1 r0) (5 * Second), HealthHealthy) =
    (mkProbeState 0 1 (pr_t1 r0) (5 * Second), HealthHealthy)) as ->.
  { unfold fsm_step, probeState_record. rewrite Hr1.
    cbn [fst snd ps_failures ps_successes ps_unhealthySince ps_backoff].
    change (wrap64 (0 + 1)) with 1. by rewrite decide_False by lia. }
  rewrite fsm_run_app, fsm_run_failures; [|done|done|done|cbn [ps_failures]; lia].
  cbn [fsm_run ps_failures ps_unhealthySince ps_backoff ps_successes].
  match goal with |- context [fsm_step cfg rf ?s] =>
    assert (fsm_step cfg rf s =
      (mkProbeState (zlen fs + 1) 0 (pr_t1 r0) (5 * Second), HealthUnhealthy)) as -> end.
  { unfold fsm_step, probeState_record. rewrite Hrf. cbn [fst snd ps_failures ps_unhealthySince ps_backoff].
    rewrite Z.add_0_l, wrap64_id by (unfold is_int64, min_int64, zlen in *; lia).
    rewrite decide_True by lia. unfold Time_IsZero. by rewrite bool_decide_eq_false_2. }
  cbn [snd fst]. rewrite fsm_run_app.
  destruct (fsm_run_waiting cfg ss (mkProbeState (zlen fs + 1) 0 (pr_t1 r0) (5 * Second)))
    as [f ->]; [done|cbn [ps_successes]; lia|apply too_early_below; cbn [ps_successes]; [done|lia]|].
  cbn [fsm_run ps_failures ps_unhealthySince ps_backoff ps_successes].
  rewrite fsm_step_readmit; [|done|unfold zlen in *; cbn [ps_successes]; lia|done|cbn [ps_successes]; lia].
  intros (sm' & σ' & E & _). by exists (sm', σ').
Qed.

(** ** The active checker *)

(** The answers of the network at one probe and the clocks around it. *)
Record probe_env := mkEnv {
  pe_dial : string → string → Duration → bool;
  pe_get : string → option Z;
  pe_t1 : Time;
  pe_t2 : Time;
}.

Fixpoint checker_run (l : loc) (es : list probe_env) : M (Checker * store) (list Health) :=
  match es with
  | [] => mret []
  | e :: es' =>
      Checker_probe (pe_dial e) (pe_get e) l;;
      w ← gets id;
      h ← lift (Backend_GetHealth w.2 l);
      hs ← checker_run l es'; mret (h :: hs)
  end.

(** The result the state machine would be told of. *)
Definition env_result (c : Checker) (b : Backend) (e : probe_env) : probe_result :=
  mkResult (probe_outcome (pe_dial e) (pe_get e) c b) (pe_t1 e) (pe_t2 e).

(** Probes at least five minutes apart. *)
Fixpoint spaced (T : Time) (es : list probe_env) : Prop :=
  match es with
  | [] => True
  | e :: es' => T + 5 * Minute ≤ pe_t1 e ∧ pe_t1 e ≤ pe_t2 e ∧ spaced (pe_t2 e) es'
  end.

(** The checker's counters for a backend, and its health. *)
Definition ck_view (c : Checker) (id : string) : Z * Z :=
  (count (ck_failures c) id, count (ck_successes c) id).

Definition ck_step (cfg : HealthConfig) (ok : bool) (s : (Z * Z) * Health) : (Z * Z) * Health :=
  let '((f, n), h) := s in
  let v := if ok then (0, wrap64 (n + 1)) else (wrap64 (f + 1), 0) in
  (v, match h with
      | HealthHealthy => if decide (hc_FailureThreshold cfg ≤ v.1) then HealthUnhealthy else h
      | HealthUnhealthy => if decide (hc_SuccessThreshold cfg ≤ v.2) then HealthProbation else h
      | HealthProbation =>
          if decide (0 < v.1) then HealthUnhealthy
          else if decide (hc_SuccessThreshold cfg ≤ v.2) then HealthHealthy else h
      | HealthDisabled => h
      end).

Lemma Checker_probe_step e l c σ b :
  σ !! l = Some b →
  let s' := ck_step (ck_cfg c) (probe_outcome (pe_dial e) (pe_get e) c b)
              (ck_view c (ID b), health b) in
  ∃ c', Checker_probe (pe_dial e) (pe_get e) l (c, σ) = (Ret tt, (c', <[l := set_health s'.2 b]> σ)) ∧
    ck_view c' (ID b) = s'.1 ∧ ck_cfg c' = ck_cfg c.
Proof.
  intros Hb s'. exists (Checker_count (probe_outcome (pe_dial e) (pe_get e) c b) (ID b) c).
  assert (<[l := b]> σ = σ) as Hσ by (by apply insert_id).
  assert (ck_cfg (Checker_count (probe_outcome (pe_dial e) (pe_get e) c b) (ID b) c) = ck_cfg c)
    as Hcfg by (by destruct (probe_outcome _ _ _ _)).
  assert (ck_view (Checker_count (probe_outcome (pe_dial e) (pe_get e) c b) (ID b) c) (ID b) = s'.1)
    as Hv.
  { subst s'. unfold ck_view, ck_step, Checker_count.
    destruct (probe_outcome _ _ _ _); simpl; unfold count; by rewrite !lookup_insert_eq. }
  split_and!; try done.
  unfold Checker_probe. cbv [gets mbind mret M_bind M_ret lift modify id]. cbn [fst snd].
  rewrite (deref_live _ _ _ Hb). cbn [fst snd]. unfold Checker_transition.
  rewrite (deref_live _ _ _ Hb), Hcfg.
  set (c' := Checker_count _ _ _) in *.
  pose proof (f_equal fst Hv) as Hf. pose proof (f_equal snd Hv) as Hn.
  cbn [ck_view fst snd] in Hf, Hn. rewrite Hf, Hn. subst s'. cbn [ck_step snd fst].
  unfold ck_view, Backend_SetHealth. cbn [ck_step snd fst].
  destruct (health b) eqn:Hh; repeat case_decide; rewrite ?(update_live _ _ _ _ Hb); simpl;
    rewrite <- ?Hh, ?set_health_id, ?Hσ; done.
Qed.

(** *** Equivalence of the checker and the state machine *)

(** The counters agree, and the backoff clock is behind the last probe. *)
Definition same_counts (T : Time) (v : Z * Z) (ps : probeState) : Prop :=
  v = (ps_failures ps, ps_successes ps) ∧ ps_unhealthySince ps ≤ T ∧
  ps_backoff ps ≤ 5 * Minute.

Lemma min_duration_le a b : min_duration a b ≤ b.
Proof. unfold min_duration. case_decide; lia. Qed.

Lemma ck_step_equiv cfg r T v ps h :
  1 ≤ hc_SuccessThreshold cfg → 0 ≤ T → same_counts T v ps →
  T + 5 * Minute ≤ pr_t1 r → pr_t1 r ≤ pr_t2 r →
  let c := ck_step cfg (pr_ok r) (v, h) in
  let s := fsm_step cfg r (ps, h) in
  c.2 = s.2 ∧ same_counts (pr_t2 r) c.1 s.1.
Proof.
  intros HS HT (-> & Hsince & Hbo) H1 H2.
  assert (5 * Minute ≤ Time_Sub (pr_t2 r) (ps_unhealthySince ps)) as He
    by (apply Time_Sub_ge; unfold Minute, Second, max_int64, min_int64 in *; lia).
  assert (5 * Second ≤ 5 * Minute) by (unfold Minute, Second; lia).
  pose proof (min_duration_le (wrap64 (ps_backoff ps * 2)) (5 * Minute)).
  unfold same_counts, ck_step, fsm_step, probeState_record, Time_zero in *.
  destruct r as [[] t1 t2]; cbn [pr_ok pr_t1 pr_t2 fst snd] in *;
    destruct h; cbn [fst snd ps_failures ps_successes ps_unhealthySince ps_backoff set_since
      set_backoff] in *; unfold Minute in *;
    repeat case_decide; try case_match;
    cbn [fst snd ps_failures ps_successes ps_unhealthySince ps_backoff set_since set_backoff] in *;
    split_and?; try done; try lia; exfalso; unfold Second in *; lia.
Qed.

(** The probes' results depend on the configuration and the address only. *)
Lemma probe_outcome_ext dial get c c' b b' :
  ck_cfg c' = ck_cfg c → BURL b' = BURL b →
  probe_outcome dial get c' b' = probe_outcome dial get c b.
Proof. intros H1 H2. unfold probe_outcome, Checker_probeHTTP. by rewrite H1, H2. Qed.

Lemma checker_run_equiv l es c σ b T v ps :
  σ !! l = Some b → 1 ≤ hc_SuccessThreshold (ck_cfg c) → 0 ≤ T →
  ck_view c (ID b) = v → same_counts T v ps → spaced T es →
  ∃ w, checker_run l es (c, σ) =
    (Ret (fsm_run (ck_cfg c) (env_result c b <$> es) (ps, health b)).1, w).
Proof.
  revert c σ b T v ps. induction es as [|e es IH]; intros c σ b T v ps Hb HS HT Hv Hs Hsp.
  - by eexists.
  - destruct Hsp as (H1 & H2 & H3). cbn [checker_run]. rewrite fmap_cons. cbn [fsm_run].
    destruct (Checker_probe_step e l c σ b Hb) as (c' & E & Hv' & Hcfg).
    destruct (ck_step_equiv (ck_cfg c) (env_result c b e) T v ps (health b) HS HT Hs)
      as [Hh Hs']; [done..|].
    cbn [env_result pr_ok pr_t2] in Hh, Hs'. rewrite Hv in *. rewrite Hh in *.
    set (s' := fsm_step _ _ _) in *.
    destruct (IH c' (<[l := set_health s'.2 b]> σ) (set_health s'.2 b) (pe_t2 e)
      (ck_view c' (ID b)) s'.1) as [w Ew].
    + apply lookup_insert_eq.
    + by rewrite Hcfg.
    + unfold Minute, Second in *. lia.
    + done.
    + by rewrite Hv'.
    + done.
    + assert (env_result c' (set_health s'.2 b) <$> es = env_result c b <$> es) as Hes.
      { apply list_fmap_ext. intros i x _. unfold env_result. f_equal.
        by apply probe_outcome_ext. }
      rewrite Hes, Hcfg in Ew. cbn [health set_health] in Ew.
      destruct s' as [ps' h']. cbn [fst snd] in *.
      destruct (fsm_run _ _ (ps', h')) as [hs s2]. cbn [fst snd] in *.
      exists w. rewrite (bind_Ret _ _ _ _ _ E).
      cbv [gets mbind mret M_bind M_ret lift id]. cbn [fst snd].
      unfold Backend_GetHealth.
      rewrite (deref_live _ _ (set_health h' b)) by apply lookup_insert_eq.
      cbn [mbind outcome_bind mret outcome_ret]. by rewrite Ew.
Qed.

(** C34. The active checker and the state machine are the same automaton up to
    the backoff: on probes at least five minutes apart, the checker drives a
    backend through exactly the health states the state machine would, given
    the probe results as the checker's mode computes them. *)
Theorem Checker_equiv_StateMachine l es pool sm σ b T :
  let c := NewChecker pool (sm_cfg sm) in
  σ !! l = Some b → probe_of sm (ID b) = newProbeState →
  1 ≤ hc_SuccessThreshold (sm_cfg sm) → 0 ≤ T → spaced T es →
  ∃ hs w w', checker_run l es (c, σ) = (Ret hs, w) ∧
    observe_run l (env_result c b <$> es) (sm, σ) = (Ret hs, w').
Proof.
  intros c Hb Hp HS HT Hsp.
  destruct (checker_run_equiv l es c σ b T (0, 0) newProbeState) as [w Ew]; try done.
  pose proof (Observe_run_step l (env_result c b <$> es) sm σ b Hb) as E.
  rewrite Hp in E. cbn [c ck_cfg NewChecker] in Ew.
  destruct (fsm_run _ _ _) as [hs s]. destruct E as (sm' & σ' & E & _).
  by exists hs, w, (sm', σ').
Qed.

(** ** Witnesses *)

Definition ex_sm : StateMachine := NewStateMachine DefaultHealthConfig.

(** Probe results at the given seconds after year 1. *)
Definition bad_at (s : Z) : probe_result := mkResult false (s * Second) (s * Second).
Definition good_at (s : Z) : probe_result := mkResult true (s * Second) (s * Second).

Lemma default_thresholds_ok : thresholds_ok DefaultHealthConfig.
Proof. apply (bool_decide_eq_true_1 _). vm_compute. reflexivity. Qed.

(** The unhealthy backend of [ex_store], ejected at second 100. *)
Definition ex_sm_down : StateMachine :=
  mkStateMachine DefaultHealthConfig
    {[ "b1" := mkProbeState 3 0 (100 * Second) (10 * Second) ]}.

Example observe_run_ex :
  (observe_run 0%nat [bad_at 100; bad_at 101; bad_at 102; good_at 103; good_at 104;
     good_at 105; good_at 106] (ex_sm, ex_store)).1 =
  Ret [HealthHealthy; HealthHealthy; HealthUnhealthy; HealthUnhealthy; HealthUnhealthy;
    HealthProbation; HealthHealthy].
Proof. vm_compute. reflexivity. Qed.

Lemma StateMachine_legal_witness :
  thresholds_ok DefaultHealthConfig ∧
  ∃ sm' h', StateMachine_Observe 1%nat true (120 * Second) (120 * Second) (ex_sm_down, ex_store) =
      (Ret tt, (sm', <[1%nat := set_health h' (ex_backend "b1" 2 HealthUnhealthy)]> ex_store)) ∧
    (h' = HealthUnhealthy ∨ legal HealthUnhealthy h' ∧ (true = true ↔ h' ≠ HealthUnhealthy)).
Proof.
  split; [exact default_thresholds_ok|].
  destruct (StateMachine_legal 1%nat (good_at 120) ex_sm_down ex_store
    (ex_backend "b1" 2 HealthUnhealthy)) as (sm' & h' & H1 & H2 & _).
  - exact default_thresholds_ok.
  - apply (bool_decide_eq_true_1 _). vm_compute. reflexivity.
  - vm_compute. reflexivity.
  - exists sm', h'. split; [exact H1|exact H2].
Defined.

Lemma StateMachine_ejects_on_streak_witness :
  ∃ hs w', observe_run 0%nat [bad_at 1; good_at 2; bad_at 3; bad_at 4; bad_at 5]
      (ex_sm, ex_store) = (Ret hs, w') ∧
    (Forall (λ h, h = HealthHealthy) hs ↔ ¬ streak 3 [false; true; false; false; false]).
Proof.
  apply (StateMachine_ejects_on_streak 0%nat
    [bad_at 1; good_at 2; bad_at 3; bad_at 4; bad_at 5] ex_sm ex_store
    (ex_backend "b0" 1 HealthHealthy) 3%nat).
  - reflexivity.
  - lia.
  - unfold max_int64; lia.
  - vm_compute; reflexivity.
  - reflexivity.
  - reflexivity.
Defined.

Lemma StateMachine_backoff_witness :
  ∃ hs sm' σ', observe_run 0%nat [bad_at 1; bad_at 2; bad_at 3; good_at 8; good_at 9]
      (ex_sm, ex_store) = (Ret hs, (sm', σ')) ∧
    ps_backoff (probe_of sm' "b0") = backoff_at (relapses 0 HealthHealthy hs) ∧
    5 * Second ≤ ps_backoff (probe_of sm' "b0") ≤ 5 * Minute.
Proof.
  apply (StateMachine_backoff 0%nat [bad_at 1; bad_at 2; bad_at 3; good_at 8; good_at 9]
    ex_sm ex_store (ex_backend "b0" 1 HealthHealthy)); vm_compute; reflexivity.
Defined.

Lemma StateMachine_recovers_witness :
  ∃ sm' σ', observe_run 1%nat ([good_at 104; good_at 108] ++ [good_at 112; good_at 113])
      (ex_sm_down, ex_store) =
      (Ret [HealthUnhealthy; HealthUnhealthy; HealthProbation; HealthHealthy], (sm', σ')) ∧
    σ' !! 1%nat = Some (ex_backend "b1" 2 HealthHealthy) ∧
    ps_backoff (probe_of sm' "b1") = 5 * Second.
Proof.
  apply (StateMachine_recovers 1%nat [good_at 104; good_at 108] (good_at 112) (good_at 113)
    ex_sm_down ex_store (ex_backend "b1" 2 HealthUnhealthy)).
  - exact default_thresholds_ok.
  - vm_compute; reflexivity.
  - reflexivity.
  - vm_compute; discriminate.
  - vm_compute; reflexivity.
  - simpl; split_and!; try reflexivity; try exact I; left; vm_compute; reflexivity.
  - reflexivity.
  - reflexivity.
  - vm_compute; discriminate.
  - vm_compute; discriminate.
Defined.

Lemma StateMachine_stale_backoff_witness :
  ∃ w', observe_run 0%nat
    (([bad_at 1; good_at 2] ++ [bad_at 1000; bad_at 1001; bad_at 1002]) ++
     [good_at 1003; good_at 1004]) (ex_sm, ex_store) =
    (Ret (([HealthHealthy; HealthHealthy] ++ [HealthHealthy; HealthHealthy; HealthUnhealthy]) ++
          [HealthUnhealthy; HealthProbation]), w').
Proof.
  apply (StateMachine_stale_backoff 0%nat (bad_at 1) (good_at 2) [bad_at 1000; bad_at 1001]
    (bad_at 1002) [good_at 1003] (good_at 1004) ex_sm ex_store
    (ex_backend "b0" 1 HealthHealthy)); try reflexivity; try (vm_compute; congruence).
  - exact default_thresholds_ok.
  - repeat constructor.
  - repeat constructor.
Defined.

Definition ex_probe (status : Z) (t : Z) : probe_env :=
  mkEnv (λ _ _ _, true) (λ _, Some status) (t * Minute) (t * Minute).

Lemma Checker_equiv_StateMachine_witness :
  ∃ hs w w',
    checker_run 0%nat [ex_probe 503 10; ex_probe 503 20; ex_probe 503 30; ex_probe 200 40]
      (NewChecker ex_pool DefaultHealthConfig, ex_store) = (Ret hs, w) ∧
    observe_run 0%nat
      (env_result (NewChecker ex_pool DefaultHealthConfig) (ex_backend "b0" 1 HealthHealthy) <$>
         [ex_probe 503 10; ex_probe 503 20; ex_probe 503 30; ex_probe 200 40])
      (ex_sm, ex_store) = (Ret hs, w').
Proof.
  apply (Checker_equiv_StateMachine 0%nat _ ex_pool ex_sm ex_store
    (ex_backend "b0" 1 HealthHealthy) 0); try reflexivity; try (vm_compute; discriminate).
  repeat split; vm_compute; discriminate.
Defined.
