(* ===== verification/HealthRound.v ===== *)
(** One round of the active checker (internal/health/checker.go): [Run] starts
    the probe of every backend in a goroutine of its own, so nothing fixes the
    order in which the probes take effect. *)

From S2P Require Export Health.

#[local] Open Scope Z_scope.

Section round.
Variable net_DialTimeout : string → string → Duration → bool.
Variable client_Get : string → option Z.

(** The health after a probe, from the counters and the health before. *)
Definition probed_health (cfg : HealthConfig) (f s : Z) (h : Health) : Health :=
  match h with
  | HealthHealthy => if decide (hc_FailureThreshold cfg ≤ f) then HealthUnhealthy else h
  | HealthUnhealthy => if decide (hc_SuccessThreshold cfg ≤ s) then HealthProbation else h
  | HealthProbation =>
      if decide (0 < f) then HealthUnhealthy
      else if decide (hc_SuccessThreshold cfg ≤ s) then HealthHealthy else h
  | HealthDisabled => h
  end.

(** The whole effect of one probe. *)
Definition probe_effect (l : loc) (b : Backend) (w : Checker * store) : Checker * store :=
  let c := Checker_count (probe_outcome net_DialTimeout client_Get w.1 b) (ID b) w.1 in
  (c, <[l := set_health (probed_health (ck_cfg c) (count (ck_failures c) (ID b))
                           (count (ck_successes c) (ID b)) (health b)) b]> w.2).

Lemma Checker_probe_effect l b w :
  w.2 !! l = Some b →
  Checker_probe net_DialTimeout client_Get l w = (Ret tt, probe_effect l b w).
Proof.
  destruct w as [c σ]. simpl. intros Hb. unfold Checker_probe, probe_effect.
  unfold mbind, M_bind, gets, lift, modify. cbn [fst snd id].
  unfold id. cbn [fst snd]. rewrite (deref_live _ _ _ Hb). cbn [fst snd].
  unfold Checker_transition. rewrite (deref_live _ _ _ Hb).
  set (c' := Checker_count _ _ _). unfold probed_health, Backend_SetHealth.
  assert (<[l := set_health (health b) b]> σ = σ) as Hid
    by (rewrite set_health_id; by apply insert_id).
  destruct (health b) eqn:Hh; repeat case_decide; rewrite ?(update_live _ _ _ _ Hb); try done;
    by rewrite Hid.
Qed.

Lemma Checker_count_comm ok1 ok2 id1 id2 c :
  id1 ≠ id2 →
  Checker_count ok1 id1 (Checker_count ok2 id2 c) = Checker_count ok2 id2 (Checker_count ok1 id1 c).
Proof.
  intros Hne. unfold Checker_count, count.
  destruct ok1, ok2; simpl; rewrite ?lookup_insert_ne by done;
    f_equal; by apply insert_insert_ne.
Qed.

Lemma Checker_count_other ok id1 id2 c :
  id1 ≠ id2 →
  count (ck_failures (Checker_count ok id1 c)) id2 = count (ck_failures c) id2 ∧
  count (ck_successes (Checker_count ok id1 c)) id2 = count (ck_successes c) id2.
Proof. intros Hne. unfold Checker_count, count. destruct ok; simpl; by rewrite !lookup_insert_ne. Qed.

Lemma Checker_count_cfg ok id c :
  ck_cfg (Checker_count ok id c) = ck_cfg c ∧ ck_pool (Checker_count ok id c) = ck_pool c.
Proof. by destruct ok. Qed.

Lemma probe_outcome_cfg c c' b :
  ck_cfg c' = ck_cfg c →
  probe_outcome net_DialTimeout client_Get c' b = probe_outcome net_DialTimeout client_Get c b.
Proof. unfold probe_outcome, Checker_probeHTTP. by intros ->. Qed.

(** Probes of backends with different ids commute. *)
Lemma probe_effect_comm l1 l2 b1 b2 w :
  l1 ≠ l2 → ID b1 ≠ ID b2 →
  probe_effect l1 b1 (probe_effect l2 b2 w) = probe_effect l2 b2 (probe_effect l1 b1 w).
Proof.
  destruct w as [c σ]. intros Hl Hid. unfold probe_effect. cbn [fst snd].
  rewrite !(probe_outcome_cfg c (Checker_count _ _ c)) by apply Checker_count_cfg.
  set (o1 := probe_outcome _ _ c b1). set (o2 := probe_outcome _ _ c b2).
  rewrite (Checker_count_comm o1 o2) by done. f_equal.
  assert (∀ o id k, ck_cfg (Checker_count o id k) = ck_cfg k) as Hcfg by (intros; apply Checker_count_cfg).
  rewrite !Hcfg.
  destruct (Checker_count_other o2 (ID b2) (ID b1) (Checker_count o1 (ID b1) c)) as [-> ->]; [done|].
  rewrite <- (Checker_count_comm o1 o2) by done.
  destruct (Checker_count_other o1 (ID b1) (ID b2) (Checker_count o2 (ID b2) c)) as [-> ->]; [done|].
  by rewrite insert_insert_ne by done.
Qed.

(** Live backends with different ids. *)
Definition separate (σ : store) (ls : list loc) : Prop :=
  live σ ls ∧ distinct_ids σ ls ∧ NoDup ls.

Lemma distinct_ids_same σ σ' ls : (∀ l, id_of σ' l = id_of σ l) → distinct_ids σ ls → distinct_ids σ' ls.
Proof.
  unfold distinct_ids. intros H. by rewrite (list_omap_ext (id_of σ') (id_of σ) ls ls) by
    (apply Forall_Forall2_diag, Forall_true; intros; apply H).
Qed.

Lemma separate_probe l b w ls :
  w.2 !! l = Some b → separate w.2 ls → separate (probe_effect l b w).2 ls.
Proof.
  intros Hb (H1 & H2 & H3). split_and!; [| |done].
  - eapply Forall_impl; [exact H1|]. intros l' Hl'. simpl. rewrite lookup_insert. case_decide; eauto.
  - eapply distinct_ids_same; [|exact H2]. intros l'. unfold id_of. simpl. rewrite lookup_insert.
    case_decide; [subst; by rewrite Hb|done].
Qed.

Lemma separate_perm σ ls ls' : ls ≡ₚ ls' → separate σ ls → separate σ ls'.
Proof. unfold separate, live, distinct_ids. by intros ->. Qed.

Lemma separate_cons σ l ls :
  separate σ (l :: ls) → separate σ ls.
Proof.
  intros (H1 & H2 & H3). apply Forall_cons in H1 as [[b Hb] H1]. apply NoDup_cons in H3 as [_ H3].
  split_and!; [done| |done]. unfold distinct_ids in *. csimpl in *.
  destruct (id_of σ l); [by apply NoDup_cons in H2 as [_ ?]|done].
Qed.

Lemma forM_probe_perm ls ls' w :
  ls ≡ₚ ls' → separate w.2 ls →
  forM ls (Checker_probe net_DialTimeout client_Get) w = forM ls' (Checker_probe net_DialTimeout client_Get) w.
Proof.
  intros HP. revert w. induction HP as [|l ls ls' _ IH|l2 l1 ls|ls ls' ls'' HP1 IH1 _ IH2]; intros w Hs.
  - done.
  - destruct (live_elem w.2 (l :: ls) l) as [b Hb]; [apply Hs|left|].
    cbn [forM]. rewrite !(bind_Ret _ _ _ _ _ (Checker_probe_effect l b w Hb)).
    apply IH, separate_probe; [done|]. by eapply separate_cons.
  - destruct (live_elem w.2 (l1 :: l2 :: ls) l1) as [b1 Hb1]; [apply Hs|left|].
    destruct (live_elem w.2 (l1 :: l2 :: ls) l2) as [b2 Hb2]; [apply Hs|right; left|].
    destruct Hs as (_ & Hd & Hn).
    assert (l1 ≠ l2) as Hl by (intros ->; apply NoDup_cons in Hn as [Hn _]; apply Hn; left).
    assert (ID b1 ≠ ID b2) as Hid.
    { unfold distinct_ids in Hd. csimpl in Hd. unfold id_of in Hd. rewrite Hb1, Hb2 in Hd. simpl in Hd.
      intros E. rewrite E in Hd. apply NoDup_cons in Hd as [Hd _]. apply Hd. left. }
    cbn [forM]. rewrite (bind_Ret _ _ _ _ _ (Checker_probe_effect l1 b1 w Hb1)).
    rewrite (bind_Ret _ _ _ _ _ (Checker_probe_effect l2 b2 w Hb2)).
    erewrite bind_Ret by (apply Checker_probe_effect; simpl; by rewrite lookup_insert_ne).
    erewrite bind_Ret by (apply Checker_probe_effect; simpl; by rewrite lookup_insert_ne).
    by rewrite probe_effect_comm.
  - rewrite IH1 by done. apply IH2. by eapply separate_perm.
Qed.

(** What a round does to the counters and the health of one backend. *)
Definition backend_view (w : Checker * store) (l : loc) : option ((Z * Z) * Health) :=
  b ← w.2 !! l; Some (ck_view w.1 (ID b), health b).

Lemma probe_view l b w :
  w.2 !! l = Some b →
  backend_view (probe_effect l b w) l =
    Some (ck_step (ck_cfg w.1) (probe_outcome net_DialTimeout client_Get w.1 b) (ck_view w.1 (ID b), health b)).
Proof.
  intros Hb. unfold backend_view, probe_effect. simpl. rewrite lookup_insert_eq. simpl.
  set (ok := probe_outcome _ _ _ _). destruct (Checker_count_cfg ok (ID b) w.1) as [-> _].
  f_equal. unfold ck_step, ck_view, Checker_count, probed_health, count.
  destruct ok; simpl; by rewrite !lookup_insert_eq.
Qed.

Lemma probe_view_other l l' b b' w :
  w.2 !! l = Some b → w.2 !! l' = Some b' → l ≠ l' → ID b ≠ ID b' →
  backend_view (probe_effect l b w) l' = backend_view w l' ∧ (probe_effect l b w).2 !! l' = Some b'.
Proof.
  intros Hb Hb' Hl Hid. unfold backend_view, probe_effect. simpl. rewrite lookup_insert_ne by done.
  rewrite Hb'. simpl. unfold ck_view.
  by destruct (Checker_count_other (probe_outcome net_DialTimeout client_Get w.1 b) (ID b) (ID b') w.1) as [-> ->].
Qed.

Lemma forM_probe_view_other ls w l' b' :
  separate w.2 (l' :: ls) → w.2 !! l' = Some b' →
  ∃ w', forM ls (Checker_probe net_DialTimeout client_Get) w = (Ret tt, w') ∧
    backend_view w' l' = backend_view w l'.
Proof.
  revert w. induction ls as [|l ls IH]; intros w Hs Hb'; [by exists w|].
  destruct (live_elem w.2 (l' :: l :: ls) l) as [b Hb]; [apply Hs|right; left|].
  cbn [forM]. rewrite (bind_Ret _ _ _ _ _ (Checker_probe_effect l b w Hb)).
  pose proof Hs as (_ & Hd & Hn).
  destruct (probe_view_other l l' b b' w Hb Hb') as [Hv Hl'].
  { intros ->. apply NoDup_cons in Hn as [Hn _]. apply Hn. left. }
  { unfold distinct_ids in Hd. csimpl in Hd. unfold id_of in Hd. rewrite Hb, Hb' in Hd. simpl in Hd.
    intros E. rewrite E in Hd. apply NoDup_cons in Hd as [Hd _]. apply Hd. left. }
  rewrite <- Hv. apply IH; [|done]. apply separate_probe; [done|].
  apply (separate_perm _ _ (l :: l' :: ls)) in Hs; [|by apply perm_swap]. by eapply separate_cons.
Qed.

(** ** Properties *)

(** A round is independent of the scheduler: when the pool's backends are
    live and their ids differ, the probes of a round can take effect in any
    order with the same result, and in it the counters and the health of every
    backend are those of its own probe alone, one step of the checker's
    automaton. *)
Theorem Checker_round c σ ls :
  separate σ (backends (ck_pool c)) → ls ≡ₚ backends (ck_pool c) →
  ∃ w', forM ls (Checker_probe net_DialTimeout client_Get) (c, σ) = (Ret tt, w') ∧
    Checker_tick net_DialTimeout client_Get (c, σ) = (Ret tt, w') ∧
    ∀ l b, l ∈ ls → σ !! l = Some b →
      backend_view w' l = Some (ck_step (ck_cfg c) (probe_outcome net_DialTimeout client_Get c b)
                                  (ck_view c (ID b), health b)).
Proof.
  intros Hs HP. assert (separate σ ls) as Hls by (by eapply separate_perm).
  assert (∃ w', forM ls (Checker_probe net_DialTimeout client_Get) (c, σ) = (Ret tt, w')) as [w' E].
  { clear HP Hs. set (w := (c, σ)). change σ with w.2 in Hls. clearbody w. revert w Hls.
    induction ls as [|l ls IH]; intros w Hls; [by eexists|].
    destruct (live_elem w.2 (l :: ls) l) as [b Hb]; [apply Hls|left|].
    cbn [forM]. rewrite (bind_Ret _ _ _ _ _ (Checker_probe_effect l b w Hb)).
    apply IH, separate_probe; [done|]. by eapply separate_cons. }
  exists w'. split_and!; [done| |].
  - unfold Checker_tick, mbind, M_bind, gets, id. cbn [fst snd]. unfold Pool_Backends.
    rewrite <- E. symmetry. by apply forM_probe_perm.
  - intros l b Hl Hb. apply list_elem_of_split in Hl as (l1 & l2 & Hl).
    assert (ls ≡ₚ l :: l1 ++ l2) as HP' by (rewrite Hl; by rewrite Permutation_middle).
    rewrite (forM_probe_perm _ _ (c, σ) HP' Hls) in E. cbn [forM] in E.
    rewrite (bind_Ret _ _ _ _ _ (Checker_probe_effect l b (c, σ) Hb)) in E.
    destruct (forM_probe_view_other (l1 ++ l2) (probe_effect l b (c, σ)) l
      (set_health (probed_health (ck_cfg (probe_effect l b (c, σ)).1)
         (count (ck_failures (probe_effect l b (c, σ)).1) (ID b))
         (count (ck_successes (probe_effect l b (c, σ)).1) (ID b)) (health b)) b)) as (w'' & E' & Hv).
    + apply separate_probe; [done|]. by eapply separate_perm.
    + simpl. apply lookup_insert_eq.
    + rewrite E' in E. simplify_eq. rewrite Hv. by apply (probe_view l b (c, σ)).
Qed.
End round.

(** ** Witness *)

Lemma ex_pool_separate : separate ex_store (backends ex_pool).
Proof.
  split; [exact ex_pool_live|split; [exact ex_pool_distinct|]].
  apply (bool_decide_eq_true_1 _). vm_compute. reflexivity.
Qed.

Lemma Checker_round_witness :
  ∃ w', forM [2; 0; 1]%nat (Checker_probe (λ _ _ _, false) (λ _, Some 200))
      (NewChecker ex_pool DefaultHealthConfig, ex_store) = (Ret tt, w') ∧
    backend_view w' 1%nat = Some ((0, 1), HealthUnhealthy).
Proof.
  destruct (Checker_round (λ _ _ _, false) (λ _, Some 200) (NewChecker ex_pool DefaultHealthConfig)
    ex_store [2; 0; 1]%nat) as (w' & H1 & _ & H3).
  - exact ex_pool_separate.
  - apply (bool_decide_eq_true_1 _). vm_compute. reflexivity.
  - exists w'. split; [exact H1|].
    rewrite (H3 1%nat (ex_backend "b1" 2 HealthUnhealthy)); [vm_compute; reflexivity| |vm_compute; reflexivity].
    right. right. left.
Defined.
