(* ===== verification/CheckerConc.v ===== *)
(** The loop of the active checker (internal/health/checker.go, [Run]) and the
    goroutines it starts, cut at their accesses to the shared maps and to the
    backends.  The two maps of counters have no lock: a map access that overlaps
    a write of the same map ends the program, as the Go runtime detects it. *)

From S2P Require Export HealthRound.

#[local] Open Scope Z_scope.

(** ** State *)

Inductive counters := MFailures | MSuccesses.

#[export] Instance counters_eq_dec : EqDecision counters.
Proof. solve_decision. Defined.

Definition counters_of (m : counters) (c : Checker) : gmap string Z :=
  match m with MFailures => ck_failures c | MSuccesses => ck_successes c end.

Definition set_counter (m : counters) (id : string) (n : Z) (c : Checker) : Checker :=
  match m with
  | MFailures => mkChecker (ck_pool c) (ck_cfg c) (<[id := n]> (ck_failures c)) (ck_successes c)
  | MSuccesses => mkChecker (ck_pool c) (ck_cfg c) (ck_failures c) (<[id := n]> (ck_successes c))
  end.

(** What the probes share: the checker, the backends, and for each map whether
    a write is in progress. *)
Record shared := mkShared {
  sh_checker : Checker;
  sh_store : store;
  sh_wfailures : bool;
  sh_wsuccesses : bool;
}.

Definition sh_writing (s : shared) (m : counters) : bool :=
  match m with MFailures => sh_wfailures s | MSuccesses => sh_wsuccesses s end.
Definition set_writing (m : counters) (b : bool) (s : shared) : shared :=
  match m with
  | MFailures => mkShared (sh_checker s) (sh_store s) b (sh_wsuccesses s)
  | MSuccesses => mkShared (sh_checker s) (sh_store s) (sh_wfailures s) b
  end.
Definition on_checker (f : Checker → Checker) (s : shared) : shared :=
  mkShared (f (sh_checker s)) (sh_store s) (sh_wfailures s) (sh_wsuccesses s).

(** The map that [probe] resets, and the one it counts in. *)
Definition reset_map (ok : bool) : counters := if ok then MFailures else MSuccesses.
Definition count_map (ok : bool) : counters := if ok then MSuccesses else MFailures.

(** Where a probe stands.  A write of a map is two steps, its start and its
    end. *)
Inductive ppc :=
| PProbe
| PReset (ok : bool)      (* c.failures[id] = 0, or c.successes[id] = 0 *)
| PResetEnd (ok : bool)
| PCount (ok : bool)      (* c.successes[id]++, or c.failures[id]++ *)
| PCountEnd (ok : bool)
| PLoad                   (* b.GetHealth() *)
| PTest (h : Health)      (* the first map read of the case *)
| PLog                    (* the argument of slog.Warn *)
| PTestSuccess            (* the second test of HealthProbation *)
| PStore (h : Health)     (* b.SetHealth(h) *)
| PDone.

#[export] Instance ppc_eq_dec : EqDecision ppc.
Proof. solve_decision. Defined.

Section conc.
Variable net_DialTimeout : string → string → Duration → bool.
Variable client_Get : string → option Z.

(** Read [m[id]]; nothing while a write of [m] is in progress. *)
Definition read_counter (m : counters) (id : string) (s : shared) : option Z :=
  if sh_writing s m then None else Some (count (counters_of m (sh_checker s)) id).

(** One step of the probe of the backend [b] at [l]; nothing when it ends the
    program. *)
Definition probe_body (l : loc) (b : Backend) (pc : ppc) (s : shared) : option (shared * ppc) :=
  match pc with
  | PProbe => Some (s, PReset (probe_outcome net_DialTimeout client_Get (sh_checker s) b))
  | PReset ok =>
      if sh_writing s (reset_map ok) then None
      else Some (set_writing (reset_map ok) true s, PResetEnd ok)
  | PResetEnd ok =>
      Some (set_writing (reset_map ok) false (on_checker (set_counter (reset_map ok) (ID b) 0) s), PCount ok)
  | PCount ok =>
      if sh_writing s (count_map ok) then None
      else Some (set_writing (count_map ok) true s, PCountEnd ok)
  | PCountEnd ok =>
      let n := count (counters_of (count_map ok) (sh_checker s)) (ID b) in
      Some (set_writing (count_map ok) false (on_checker (set_counter (count_map ok) (ID b) (wrap64 (n + 1))) s), PLoad)
  | PLoad => Some (s, match health b with HealthDisabled => PDone | h => PTest h end)
  | PTest h =>
      let cfg := ck_cfg (sh_checker s) in
      match h with
      | HealthHealthy =>
          n ← read_counter MFailures (ID b) s;
          Some (s, if decide (hc_FailureThreshold cfg ≤ n) then PLog else PDone)
      | HealthUnhealthy =>
          n ← read_counter MSuccesses (ID b) s;
          Some (s, if decide (hc_SuccessThreshold cfg ≤ n) then PStore HealthProbation else PDone)
      | HealthProbation =>
          n ← read_counter MFailures (ID b) s;
          Some (s, if decide (0 < n) then PStore HealthUnhealthy else PTestSuccess)
      | HealthDisabled => Some (s, PDone)
      end
  | PLog =>
      _ ← read_counter MFailures (ID b) s;
      Some (s, PStore HealthUnhealthy)
  | PTestSuccess =>
      n ← read_counter MSuccesses (ID b) s;
      Some (s, if decide (hc_SuccessThreshold (ck_cfg (sh_checker s)) ≤ n) then PStore HealthHealthy else PDone)
  | PStore h =>
      Some (mkShared (sh_checker s) (<[l := set_health h b]> (sh_store s)) (sh_wfailures s) (sh_wsuccesses s), PDone)
  | PDone => Some (s, PDone)
  end.

Definition probe_step (l : loc) (pc : ppc) (s : shared) : option (shared * ppc) :=
  b ← sh_store s !! l; probe_body l b pc s.

(** ** Run *)

(** The goroutine of [Run] and the probes it started; [None] once the program
    has ended. *)
Record running := mkRunning {
  rn_shared : shared;
  rn_probes : list (loc * ppc);
  rn_stopped : bool;
}.

(** What happens next: a tick is received, the context ends and [Run] returns,
    or a probe makes a step. *)
Inductive run_act := ATick | ACancel | AProbe (i : nat).

Definition run_step (a : run_act) (w : running) : option running :=
  match a with
  | ATick =>
      if rn_stopped w then Some w
      else Some (mkRunning (rn_shared w)
             (rn_probes w ++ ((λ l, (l, PProbe)) <$> Pool_Backends (ck_pool (sh_checker (rn_shared w))))) false)
  | ACancel => Some (mkRunning (rn_shared w) (rn_probes w) true)
  | AProbe i =>
      match rn_probes w !! i with
      | None => Some w
      | Some (l, pc) =>
          '(s, pc') ← probe_step l pc (rn_shared w);
          Some (mkRunning s (<[i := (l, pc')]> (rn_probes w)) (rn_stopped w))
      end
  end.

Fixpoint run_acts (acts : list run_act) (w : running) : option running :=
  match acts with
  | [] => Some w
  | a :: acts' => w' ← run_step a w; run_acts acts' w'
  end.

(** [Run] before its first tick. *)
Definition run_start (c : Checker) (σ : store) : running := mkRunning (mkShared c σ false false) [] false.

(** [Run], with the probes it starts: making the ticker panics when the interval
    is not positive. *)
Definition Checker_Run (c : Checker) (σ : store) (acts : list run_act) : option running :=
  if decide (hc_Interval (ck_cfg c) ≤ 0) then None else run_acts acts (run_start c σ).

(** ** Lemmas *)

(** *** One probe alone *)

Fixpoint probe_run (n : nat) (l : loc) (s : shared) (pc : ppc) : option (shared * ppc) :=
  match n with
  | O => Some (s, pc)
  | S k => '(s', pc') ← probe_step l pc s; probe_run k l s' pc'
  end.

(** A probe makes at most nine steps. *)
Definition probe_len : nat := 9.

Definition calm (w : Checker * store) : shared := mkShared w.1 w.2 false false.

Lemma probe_run_S n l s pc b :
  sh_store s !! l = Some b →
  probe_run (S n) l s pc = '(s', pc') ← probe_body l b pc s; probe_run n l s' pc'.
Proof. intros Hb. cbn [probe_run]. unfold probe_step. by rewrite Hb. Qed.

Lemma probe_run_done n l s : is_Some (sh_store s !! l) → probe_run n l s PDone = Some (s, PDone).
Proof. intros [b Hb]. induction n as [|n IH]; [done|]. by rewrite (probe_run_S _ _ _ _ b). Qed.

Lemma probe_alone l b w :
  w.2 !! l = Some b →
  probe_run probe_len l (calm w) PProbe = Some (calm (probe_effect net_DialTimeout client_Get l b w), PDone).
Proof.
  destruct w as [c σ]. cbn [fst snd]. intros Hb. unfold probe_len, calm, probe_effect. cbn [fst snd].
  assert (<[l := set_health (health b) b]> σ = σ) as Hid by (rewrite set_health_id; by apply insert_id).
  rewrite (probe_run_S _ _ _ _ b) by done. cbn [probe_body mbind option_bind sh_checker].
  set (ok := probe_outcome net_DialTimeout client_Get c b).
  destruct ok; do 4 (rewrite (probe_run_S _ _ _ _ b) by done; cbn -[probe_run]).
  all: unfold Checker_count, probed_health, count; cbn -[probe_run]; rewrite !lookup_insert_eq; cbn -[probe_run].
  all: destruct (health b) eqn:Hh.
  all: repeat (first [rewrite probe_run_done by (cbn; rewrite ?lookup_insert_eq; eauto) | rewrite (probe_run_S _ _ _ _ b) by done];
    cbn -[probe_run]; rewrite ?Hh; unfold count; cbn -[probe_run];
    rewrite ?lookup_insert_eq; cbn -[probe_run]; repeat case_decide; cbn -[probe_run]; try done).
  all: by rewrite ?Hid, ?lookup_insert_eq.
Qed.

(** *** The probes one after the other *)

Lemma run_acts_app a1 a2 w :
  run_acts (a1 ++ a2) w =
    run_acts a1 w ≫= run_acts a2.
Proof.
  revert w. induction a1 as [|a a1 IH]; intros w; [done|]. cbn.
  destruct (run_step a w); [|done]. apply IH.
Qed.

Lemma run_acts_probe n i l s pc ps st :
  ps !! i = Some (l, pc) →
  run_acts (replicate n (AProbe i)) (mkRunning s ps st) =
    '(s', pc') ← probe_run n l s pc; Some (mkRunning s' (<[i := (l, pc')]> ps) st).
Proof.
  revert s pc ps. induction n as [|n IH]; intros s pc ps Hi; cbn.
  - by rewrite list_insert_id.
  - rewrite Hi. destruct (probe_step l pc s) as [[s' pc']|]; [|done]. cbn.
    rewrite (IH s' pc') by (apply list_lookup_insert_eq; by eapply lookup_lt_Some).
    destruct (probe_run n l s' pc') as [[s'' pc'']|]; [|done]. cbn. by rewrite list_insert_insert_eq.
Qed.

Definition serial (k n : nat) : list run_act :=
  flat_map (λ i, replicate probe_len (AProbe i)) (seq k n).

Lemma serial_round post pre w st :
  live w.2 post →
  ∃ w', forM post (Checker_probe net_DialTimeout client_Get) w = (Ret tt, w') ∧
    run_acts (serial (length pre) (length post))
      (mkRunning (calm w) (pre ++ ((λ l, (l, PProbe)) <$> post)) st) =
    Some (mkRunning (calm w') (pre ++ ((λ l, (l, PDone)) <$> post)) st).
Proof.
  revert pre w. induction post as [|l post IH]; intros pre w Hl; [by exists w|].
  apply Forall_cons in Hl as [[b Hb] Hl].
  destruct (IH (pre ++ [(l, PDone)]) (probe_effect net_DialTimeout client_Get l b w)) as (w' & E1 & E2).
  { eapply Forall_impl; [exact Hl|]. intros l' Hl'. simpl. by apply lookup_insert_is_Some'; right. }
  exists w'. split.
  - cbn [forM]. by rewrite (bind_Ret _ _ _ _ _ (Checker_probe_effect net_DialTimeout client_Get l b w Hb)).
  - unfold serial in *. cbn [length seq flat_map fmap list_fmap].
    rewrite run_acts_app, (run_acts_probe _ _ l _ PProbe) by (by apply list_lookup_middle).
    rewrite (probe_alone l b) by done. cbn [mbind option_bind].
    rewrite insert_app_r_alt, Nat.sub_diag by lia. cbn [insert list_insert].
    rewrite length_app in E2. cbn [length] in E2. rewrite Nat.add_1_r in E2.
    rewrite <- !app_assoc in E2. exact E2.
Qed.

(** *** What every interleaving keeps *)

Section round.
Variables (c0 : Checker) (σ0 : store).

(** What the probe of a backend finds. *)
Definition outcome_of (b : Backend) : bool := probe_outcome net_DialTimeout client_Get c0 b.

(** The entries of a backend after its reset and after its count. *)
Definition reset_view (b : Backend) : option Z * option Z :=
  if outcome_of b then (Some 0, ck_successes c0 !! ID b)
  else (ck_failures c0 !! ID b, Some 0).
Definition count_view (b : Backend) : option Z * option Z :=
  if outcome_of b then (Some 0, Some (wrap64 (count (ck_successes c0) (ID b) + 1)))
  else (Some (wrap64 (count (ck_failures c0) (ID b) + 1)), Some 0).
Definition count_f (b : Backend) : Z := default 0 (count_view b).1.
Definition count_s (b : Backend) : Z := default 0 (count_view b).2.
Definition final_health (b : Backend) : Health := probed_health (ck_cfg c0) (count_f b) (count_s b) (health b).

(** The entries and the health of a backend whose probe stands at [pc]. *)
Definition expected (b : Backend) (pc : ppc) (v : (option Z * option Z) * Health) : Prop :=
  let start := ((ck_failures c0 !! ID b, ck_successes c0 !! ID b), health b) in
  let counted := (count_view b, health b) in
  match pc with
  | PProbe => v = start
  | PReset ok | PResetEnd ok => ok = outcome_of b ∧ v = start
  | PCount ok | PCountEnd ok => ok = outcome_of b ∧ v = (reset_view b, health b)
  | PLoad => v = counted
  | PTest h => v = counted ∧ h = health b
  | PLog => v = counted ∧ final_health b = HealthUnhealthy
  | PTestSuccess => v = counted ∧ health b = HealthProbation ∧ ¬ 0 < count_f b
  | PStore h => v = counted ∧ h = final_health b
  | PDone => v = (count_view b, final_health b)
  end.

Definition entries (c : Checker) (id : string) : option Z * option Z := (ck_failures c !! id, ck_successes c !! id).

Lemma probe_body_expected l b h pc s s' pc' :
  sh_store s !! l = Some (set_health h b) → expected b pc (entries (sh_checker s) (ID b), h) →
  ck_cfg (sh_checker s) = ck_cfg c0 →
  probe_body l (set_health h b) pc s = Some (s', pc') →
  ∃ h', sh_store s' !! l = Some (set_health h' b) ∧ expected b pc' (entries (sh_checker s') (ID b), h') ∧
    ck_cfg (sh_checker s') = ck_cfg c0 ∧ ck_pool (sh_checker s') = ck_pool (sh_checker s) ∧
    (∀ id, id ≠ ID b → entries (sh_checker s') id = entries (sh_checker s) id) ∧
    (∀ l', l' ≠ l → sh_store s' !! l' = sh_store s !! l').
Proof.
  intros Hl He Hcfg. destruct s as [c σ wf ws]. cbn [sh_store sh_checker] in *.
  assert (ID (set_health h b) = ID b) as Eid by done.
  assert (probe_outcome net_DialTimeout client_Get c (set_health h b) =
          outcome_of b) as Eout.
  { by rewrite (probe_outcome_cfg _ _ c0). }
  destruct pc; cbn [probe_body expected] in *; rewrite ?Eid in *; cbn [sh_checker sh_store] in *.
  - intros [= <- <-]. exists h. by split_and!.
  - case_match; [done|]. intros [= <- <-]. exists h. destruct ok; by split_and!.
  - unfold entries in He. destruct He as [-> [= HF HS ->]]. intros [= <- <-]. exists (health b).
    unfold expected, entries, reset_view. destruct (outcome_of b); cbn; rewrite ?lookup_insert_eq;
      split_and!; try done; try congruence; intros id Hid; by rewrite lookup_insert_ne by done.
  - case_match; [done|]. intros [= <- <-]. exists h. destruct ok; by split_and!.
  - unfold entries in He. destruct He as [-> [= HE ->]]. intros [= <- <-]. exists (health b).
    unfold expected, entries, reset_view, count_view, count in *.
    destruct (outcome_of b); injection HE as HF HS; cbn; rewrite ?lookup_insert_eq, ?HF, ?HS;
      split_and!; try done; intros id Hid; by rewrite lookup_insert_ne by done.
  - injection He as HE ->. intros [= <- <-]. exists (health b). split_and!; try done.
    cbn [health set_health sh_checker]. unfold expected, final_health, probed_health.
    rewrite HE. destruct (health b) eqn:Eh; cbn; by rewrite ?Eh.
  - destruct He as [[= HE ->] ->].
    assert (count (ck_failures c) (ID b) = count_f b ∧ count (ck_successes c) (ID b) = count_s b) as [EF ES].
    { unfold count_f, count_s. by rewrite <- HE. }
    unfold read_counter, final_health, probed_health. cbn.
    destruct (health b) eqn:Eh; cbn; repeat (case_match; try done); intros [= <- <-]; exists (health b); rewrite ?Eh.
    all: split_and!; try done; cbn [sh_checker]; rewrite ?Hcfg, ?EF, ?ES; unfold expected, final_health, probed_health;
      rewrite Eh; repeat case_decide; by rewrite HE.
  - destruct He as [[= HE ->] Hf]. destruct (read_counter _ _ _); [|done]. intros [= <- <-].
    exists (health b). split_and!; try done. unfold expected. cbn [sh_checker]. by rewrite HE, Hf.
  - destruct He as ([= HE ->] & Hh & Hf).
    assert (count (ck_successes c) (ID b) = count_s b) as ES by (unfold count_s; by rewrite <- HE).
    unfold read_counter. cbn. case_match; [done|]. intros [= <- <-]. exists (health b).
    split_and!; try done. cbn [sh_checker]. rewrite Hcfg, ES. unfold expected, final_health, probed_health.
    rewrite Hh. repeat case_decide; by rewrite HE.
  - destruct He as [[= HE ->] ->]. intros [= <- <-]. exists (final_health b). cbn [sh_store sh_checker].
    split_and!; try done; [by rewrite lookup_insert_eq|unfold expected; cbn [sh_checker]; by rewrite HE|].
    intros l' Hl'. by rewrite lookup_insert_ne.
  - injection He as HE ->. intros [= <- <-]. exists (final_health b). split_and!; try done. unfold expected. cbn [sh_checker]. by rewrite HE.
Qed.

(** The shape of every state that a round reaches. *)
Record round_inv (ls : list loc) (w : running) : Prop := {
  ri_locs : (rn_probes w).*1 = ls;
  ri_cfg : ck_cfg (sh_checker (rn_shared w)) = ck_cfg c0;
  ri_pool : ck_pool (sh_checker (rn_shared w)) = ck_pool c0;
  ri_probe i l pc :
    rn_probes w !! i = Some (l, pc) →
    ∃ b h, σ0 !! l = Some b ∧ sh_store (rn_shared w) !! l = Some (set_health h b) ∧
      expected b pc (entries (sh_checker (rn_shared w)) (ID b), h);
  ri_ids id : id ∉ omap (id_of σ0) ls → entries (sh_checker (rn_shared w)) id = entries c0 id;
  ri_store l : l ∉ ls → sh_store (rn_shared w) !! l = σ0 !! l;
}.

Lemma round_inv_start ls st :
  separate σ0 ls → round_inv ls (mkRunning (mkShared c0 σ0 false false) ((λ l, (l, PProbe)) <$> ls) st).
Proof.
  intros (Hl & _ & _). split; try done; cbn.
  - rewrite <- list_fmap_compose. apply list_fmap_id.
  - intros i l pc Hi. apply list_lookup_fmap_Some in Hi as (l' & [= -> ->] & Hi).
    destruct (live_elem σ0 ls l') as [b Hb]; [done|by eapply list_elem_of_lookup_2|].
    exists b, (health b). split_and!; [done|by rewrite set_health_id|done].
Qed.

(** Two probes of a round have different backends with different ids. *)
Lemma separate_differ ls i j l1 l2 b1 b2 :
  separate σ0 ls → ls !! i = Some l1 → ls !! j = Some l2 → i ≠ j → σ0 !! l1 = Some b1 → σ0 !! l2 = Some b2 →
  l1 ≠ l2 ∧ ID b1 ≠ ID b2.
Proof.
  intros (Hl & Hd & Hn) H1 H2 Hij Hb1 Hb2.
  assert (l1 ≠ l2) as Hne by (intros ->; apply Hij; by eapply NoDup_lookup).
  split; [done|]. intros E. apply Hne.
  apply list_elem_of_lookup_2 in H1, H2. clear Hij Hne i j.
  revert Hl Hd H1 H2. clear Hn. induction ls as [|l ls IH]; intros Hl Hd H1 H2; [by apply not_elem_of_nil in H1|].
  unfold distinct_ids in *. csimpl in Hd. apply Forall_cons in Hl as [[b Hb] Hl].
  unfold id_of in Hd at 1. rewrite Hb in Hd. cbn in Hd. apply NoDup_cons in Hd as [Hnot Hd].
  assert (∀ l' b', l' ∈ ls → σ0 !! l' = Some b' → ID b' ∈ omap (id_of σ0) ls) as Hin.
  { intros l' b' Hl' Hb'. apply list_elem_of_omap. exists l'. split; [done|]. unfold id_of. by rewrite Hb'. }
  apply elem_of_cons in H1, H2. destruct H1 as [->|H1], H2 as [->|H2]; [done| | |by apply IH].
  - rewrite Hb in Hb1. simplify_eq. exfalso. apply Hnot. rewrite E. by eapply Hin.
  - rewrite Hb in Hb2. simplify_eq. exfalso. apply Hnot. rewrite <- E. by eapply Hin.
Qed.

Lemma round_inv_probe ls i w w' :
  separate σ0 ls → round_inv ls w → run_step (AProbe i) w = Some w' → round_inv ls w'.
Proof.
  intros Hs [Hlocs Hcfg Hpool Hprobe Hids Hstore]. destruct w as [s ps st]. cbn in *.
  destruct (ps !! i) as [[l pc]|] eqn:Ei; cbn; [|by intros [= <-]].
  destruct (Hprobe i l pc Ei) as (b & h & Hb & Hl & He).
  unfold probe_step. rewrite Hl. cbn [mbind option_bind].
  destruct (probe_body l (set_health h b) pc s) as [[s' pc']|] eqn:Es; [|done]. cbn. intros [= <-].
  destruct (probe_body_expected l b h pc s s' pc' Hl He Hcfg Es) as (h' & Hl' & He' & Hc' & Hp' & Hid' & Hst').
  assert (ps.*1 !! i = Some l) as Hil by (rewrite list_lookup_fmap, Ei; done). rewrite Hlocs in Hil.
  assert (l ∈ ls) as Hin by (by eapply list_elem_of_lookup_2).
  split; cbn; try congruence.
  - rewrite list_fmap_insert, list_insert_id; [done|]. by rewrite Hlocs.
  - intros j l2 pc2. rewrite list_lookup_insert. case_decide as Hd.
    + destruct Hd as [<- _]. intros [= <- <-]. by exists b, h'.
    + intros Hj. assert (i ≠ j) as Hij.
      { intros ->. apply Hd. split; [done|]. by eapply lookup_lt_Some. }
      destruct (Hprobe j l2 pc2 Hj) as (b2 & h2 & Hb2 & Hl2 & He2).
      assert (ls !! j = Some l2) as Hjl by (rewrite <- Hlocs, list_lookup_fmap, Hj; done).
      destruct (separate_differ ls i j l l2 b b2 Hs Hil Hjl Hij Hb Hb2) as [Hne Hidne].
      exists b2, h2. rewrite Hst' by done. by rewrite Hid'.
  - intros id Hid. rewrite Hid'; [by apply Hids|]. intros ->. apply Hid.
    apply list_elem_of_omap. exists l. split; [done|]. unfold id_of. by rewrite Hb.
  - intros l2 Hl2. rewrite Hst'; [by apply Hstore|]. by intros ->.
Qed.

(** A round is over when its probes are done; no tick starts another. *)
Definition no_tick (acts : list run_act) : Prop := Forall (λ a, a ≠ ATick) acts.

Lemma round_inv_run ls acts w w' :
  separate σ0 ls → no_tick acts → round_inv ls w → run_acts acts w = Some w' → round_inv ls w'.
Proof.
  intros Hs. revert w. induction acts as [|a acts IH]; intros w Hn Hi; [by intros [= <-]|]. cbn.
  apply Forall_cons in Hn as [Ha Hn]. destruct (run_step a w) as [w1|] eqn:E; [|done]. cbn.
  apply IH; [done|]. destruct a as [| |i]; [done| |by eapply round_inv_probe].
  injection E as <-. destruct Hi. by split.
Qed.

Definition all_done (w : running) : Prop := Forall (λ p, p.2 = PDone) (rn_probes w).

#[export] Instance all_done_dec w : Decision (all_done w).
Proof. unfold all_done. apply _. Defined.

(** The invariant leaves one result for a round whose probes are done. *)
Lemma round_inv_done ls w1 w2 :
  separate σ0 ls → round_inv ls w1 → round_inv ls w2 → all_done w1 → all_done w2 →
  sh_checker (rn_shared w1) = sh_checker (rn_shared w2) ∧ sh_store (rn_shared w1) = sh_store (rn_shared w2).
Proof.
  intros (Hl & _ & _) [L1 C1 P1 B1 I1 S1] [L2 C2 P2 B2 I2 S2] D1 D2.
  assert (∀ w, (rn_probes w).*1 = ls → all_done w → ∀ l, l ∈ ls → ∃ i, rn_probes w !! i = Some (l, PDone)) as Hdone.
  { intros w Hw D l Hin. rewrite <- Hw in Hin. apply list_elem_of_fmap in Hin as ([l' pc] & -> & Hin).
    pose proof (proj1 (Forall_forall _ _) D _ Hin) as Hpc. cbn in Hpc. subst pc.
    by apply list_elem_of_lookup_1 in Hin. }
  assert (∀ l, l ∈ ls → ∃ b, σ0 !! l = Some b ∧
    entries (sh_checker (rn_shared w1)) (ID b) = entries (sh_checker (rn_shared w2)) (ID b) ∧
    sh_store (rn_shared w1) !! l = sh_store (rn_shared w2) !! l) as Hin.
  { intros l Hin. destruct (Hdone w1 L1 D1 l Hin) as [i Hi], (Hdone w2 L2 D2 l Hin) as [j Hj].
    destruct (B1 i l PDone Hi) as (b & h1 & Hb & Hl1 & He1), (B2 j l PDone Hj) as (b' & h2 & Hb' & Hl2 & He2).
    assert (b' = b) as -> by congruence. injection He1 as He1 ->. injection He2 as He2 ->.
    exists b. by rewrite He1, He2, Hl1, Hl2. }
  assert (∀ id, entries (sh_checker (rn_shared w1)) id = entries (sh_checker (rn_shared w2)) id) as Hent.
  { intros id. destruct (decide (id ∈ omap (id_of σ0) ls)) as [Hid|Hid]; [|by rewrite I1, I2].
    apply list_elem_of_omap in Hid as (l & Hll & Hid). destruct (Hin l Hll) as (b & Hb & He & _).
    unfold id_of in Hid. rewrite Hb in Hid. by injection Hid as <-. }
  split.
  - destruct (sh_checker (rn_shared w1)), (sh_checker (rn_shared w2)). cbn in *. unfold entries in Hent. cbn in Hent.
    f_equal; [congruence|congruence| |]; apply map_eq; intros id; by injection (Hent id).
  - apply map_eq. intros l. destruct (decide (l ∈ ls)) as [Hll|Hll]; [|by rewrite S1, S2].
    by destruct (Hin l Hll) as (b & _ & _ & ?).
Qed.
End round.

(** One tick and its probes, from a state without goroutines: what they leave is
    what the probes one after the other leave. *)
Lemma run_round_tick c σ acts w :
  separate σ (backends (ck_pool c)) → no_tick acts →
  run_acts (ATick :: acts) (run_start c σ) = Some w → all_done w →
  Checker_tick net_DialTimeout client_Get (c, σ) = (Ret tt, (sh_checker (rn_shared w), sh_store (rn_shared w))) ∧
  ∃ w', run_acts (ATick :: serial 0 (length (backends (ck_pool c)))) (run_start c σ) = Some w' ∧ all_done w' ∧
    rn_shared w' = calm (sh_checker (rn_shared w), sh_store (rn_shared w)).
Proof.
  intros Hs Hn. cbn. set (ls := backends (ck_pool c)) in *.
  unfold Pool_Backends. fold ls. intros Hrun Hd.
  pose proof (round_inv_start c σ ls false Hs) as H0.
  pose proof (round_inv_run c σ ls _ _ _ Hs Hn H0 Hrun) as Hi.
  destruct (serial_round ls [] (c, σ) false) as (w' & E1 & E2); [apply Hs|].
  cbn [length app] in E2. unfold calm at 1 in E2. cbn [fst snd] in E2.
  assert (no_tick (serial 0 (length ls))) as Hn'.
  { unfold no_tick, serial. apply Forall_forall. intros a Ha. apply list_elem_of_In, in_flat_map in Ha as (x & _ & Ha).
    apply list_elem_of_In, elem_of_replicate in Ha as [-> _]. done. }
  pose proof (round_inv_run c σ ls _ _ _ Hs Hn' H0 E2) as Hi'.
  assert (all_done (mkRunning (calm w') ((λ l, (l, PDone)) <$> ls) false)) as Hd'.
  { unfold all_done. cbn. apply Forall_fmap, Forall_true. done. }
  destruct (round_inv_done c σ ls _ _ Hs Hi Hi' Hd Hd') as [-> ->].
  cbn [rn_shared calm sh_checker sh_store]. split.
  - unfold Checker_tick, mbind, M_bind, gets, id. cbn [fst snd]. unfold Pool_Backends. fold ls. rewrite E1.
    by destruct w'.
  - eexists. split; [exact E2|]. split; [exact Hd'|]. by destruct w'.
Qed.

(** *** Every probe ends *)

Definition steps_left (pc : ppc) : nat :=
  match pc with
  | PProbe => 9 | PReset _ => 8 | PResetEnd _ => 7 | PCount _ => 6 | PCountEnd _ => 5
  | PLoad => 4 | PTest _ => 3 | PLog => 2 | PTestSuccess => 2 | PStore _ => 1 | PDone => 0
  end.

Lemma probe_step_left l pc s s' pc' :
  probe_step l pc s = Some (s', pc') → (steps_left pc' ≤ pred (steps_left pc))%nat.
Proof.
  unfold probe_step. destruct (sh_store s !! l) as [b|]; [|done]. cbn.
  destruct pc; cbn; unfold read_counter; intros H; repeat (case_match; simplify_eq/=; try lia); simplify_eq/=; lia.
Qed.

(** *** What ends the program *)

(** The map a probe reads or starts to write next, and the one it is writing. *)
Definition accesses (pc : ppc) : option counters :=
  match pc with
  | PReset ok => Some (reset_map ok)
  | PCount ok => Some (count_map ok)
  | PTest HealthHealthy | PTest HealthProbation | PLog => Some MFailures
  | PTest HealthUnhealthy | PTestSuccess => Some MSuccesses
  | _ => None
  end.
Definition writes (pc : ppc) : option counters :=
  match pc with
  | PResetEnd ok => Some (reset_map ok)
  | PCountEnd ok => Some (count_map ok)
  | _ => None
  end.

(** Two probes overlap on a map: one of them is writing it. *)
Definition overlapping (ps : list (loc * ppc)) (i : nat) : Prop :=
  ∃ j m li pi lj pj, i ≠ j ∧ ps !! i = Some (li, pi) ∧ ps !! j = Some (lj, pj) ∧
    accesses pi = Some m ∧ writes pj = Some m.

(** A flag is raised by a probe that is writing. *)
Definition flags_ok (w : running) : Prop :=
  ∀ m, sh_writing (rn_shared w) m = true → ∃ j l pc, rn_probes w !! j = Some (l, pc) ∧ writes pc = Some m.

Lemma sh_writing_set m m' b s :
  sh_writing (set_writing m b s) m' = if decide (m = m') then b else sh_writing s m'.
Proof. by destruct m, m'. Qed.

Lemma sh_writing_on f s m : sh_writing (on_checker f s) m = sh_writing s m.
Proof. by destruct m. Qed.

Lemma probe_body_None l b pc s :
  probe_body l b pc s = None → ∃ m, accesses pc = Some m ∧ sh_writing s m = true.
Proof.
  destruct pc as [|ok|ok|ok|ok| |h| | |h|]; cbn [probe_body]; try done.
  1,2: case_match eqn:E; [|done]; intros _; by eexists.
  1: destruct h; try done.
  all: unfold read_counter; case_match eqn:E; try done; intros _; by eexists.
Qed.

Lemma probe_body_kept l b pc s s' pc' :
  probe_body l b pc s = Some (s', pc') →
  ck_pool (sh_checker s') = ck_pool (sh_checker s) ∧
  (sh_store s' = sh_store s ∨ ∃ h, sh_store s' = <[l := set_health h b]> (sh_store s)) ∧
  (∀ m, sh_writing s' m = true → writes pc' = Some m ∨ sh_writing s m = true ∧ writes pc ≠ Some m).
Proof.
  destruct pc as [|ok|ok|ok|ok| |h| | |h|]; cbn [probe_body].
  2,4: case_match eqn:E; [done|].
  7: destruct h; unfold read_counter.
  11,12: unfold read_counter.
  all: repeat (case_match; [done|]); intros Hx; simplify_eq/=.
  all: split_and!; [by destruct ok || done|(by left; destruct ok) || (by left) || (right; by eexists)|].
  all: intros m; rewrite ?sh_writing_set, ?sh_writing_on; try case_decide; auto; try naive_solver.
Qed.

(** The program ends only on an overlap. *)
Lemma run_step_None a w :
  flags_ok w → Forall (λ p, is_Some (sh_store (rn_shared w) !! p.1)) (rn_probes w) →
  run_step a w = None → ∃ i, a = AProbe i ∧ overlapping (rn_probes w) i.
Proof.
  intros Hf Hl. destruct w as [s ps st]. destruct a as [| |i]; cbn; [by destruct st|done|].
  destruct (ps !! i) as [[l pc]|] eqn:Ei; [|done]. cbn in *.
  rewrite Forall_forall in Hl. destruct (Hl (l, pc)) as [b Hb]; [by eapply list_elem_of_lookup_2|]. cbn in Hb.
  unfold probe_step. rewrite Hb. cbn. destruct (probe_body l b pc s) as [[s' pc']|] eqn:E; [done|]. intros _.
  destruct (probe_body_None _ _ _ _ E) as (m & Ha & Hw). destruct (Hf m Hw) as (j & lj & pj & Hj & Hwj).
  exists i. split; [done|]. exists j, m, l, pc, lj, pj. split_and!; try done. intros <-. cbn in Hj.
  rewrite Ei in Hj. injection Hj as <- <-. by destruct pc.
Qed.

(** What an event does to the backends and to the list of probes. *)
Lemma run_step_kept a w w' :
  flags_ok w → run_step a w = Some w' →
  flags_ok w' ∧ ck_pool (sh_checker (rn_shared w')) = ck_pool (sh_checker (rn_shared w)) ∧
  (sh_store (rn_shared w') = sh_store (rn_shared w) ∨
   ∃ l b h, sh_store (rn_shared w) !! l = Some b ∧
     sh_store (rn_shared w') = <[l := set_health h b]> (sh_store (rn_shared w))) ∧
  ((rn_probes w').*1 = (rn_probes w).*1 ∨
   (rn_probes w').*1 = (rn_probes w).*1 ++ backends (ck_pool (sh_checker (rn_shared w)))).
Proof.
  intros Hf. destruct w as [s ps st]. destruct a as [| |i]; cbn.
  - destruct st; intros [= <-]; [by split_and!; [|done|left|left]|]. cbn. split_and!; [|done|by left|right].
    + intros m Hm. destruct (Hf m Hm) as (j & l & pc & Hj & Hw). exists j, l, pc. split; [|done].
      apply lookup_app_l_Some. exact Hj.
    + rewrite fmap_app. f_equal. rewrite <- list_fmap_compose. apply list_fmap_id.
  - intros [= <-]. by split_and!; [|done|left|left].
  - destruct (ps !! i) as [[l pc]|] eqn:Ei; [|intros [= <-]; by split_and!; [|done|left|left]].
    cbn. unfold probe_step. destruct (sh_store s !! l) as [b|] eqn:Hb; [|done]. cbn.
    destruct (probe_body l b pc s) as [[s' pc']|] eqn:E; [|done]. intros [= <-]. cbn.
    destruct (probe_body_kept _ _ _ _ _ _ E) as (Hp & Hs & Hw). split_and!; [|done| |left].
    + intros m Hm. destruct (Hw m Hm) as [Hn|[Ho Hn]].
      * exists i, l, pc'. split; [|done]. apply list_lookup_insert_eq. by eapply lookup_lt_Some.
      * destruct (Hf m Ho) as (j & lj & pj & Hj & Hwj). cbn in Hj. exists j, lj, pj. split; [|done]. cbn.
        rewrite list_lookup_insert_ne; [done|]. intros <-. rewrite Ei in Hj. by injection Hj as <- <-.
    + destruct Hs as [Hs|[h Hs]]; [by left|right]. by exists l, b, h.
    + rewrite list_fmap_insert. cbn. apply list_insert_id. by rewrite list_lookup_fmap, Ei.
Qed.

(** The turns a schedule gives to the probe [i]. *)
Definition turns (i : nat) (acts : list run_act) : nat :=
  length (List.filter (λ a, match a with AProbe j => bool_decide (j = i) | _ => false end) acts).

Lemma run_step_stopped a w w' :
  rn_stopped w = true → run_step a w = Some w' →
  rn_stopped w' = true ∧ length (rn_probes w') = length (rn_probes w) ∧
  ∀ i l pc, rn_probes w !! i = Some (l, pc) → ∃ pc', rn_probes w' !! i = Some (l, pc') ∧
    (steps_left pc' ≤ steps_left pc - turns i [a])%nat.
Proof.
  destruct w as [s ps st]. cbn. intros ->. unfold turns. destruct a as [| |j]; cbn.
  - intros [= <-]. split_and!; try done. intros i l pc Hi. exists pc. split; [done|]. lia.
  - intros [= <-]. split_and!; try done. intros i l pc Hi. exists pc. split; [done|]. lia.
  - destruct (ps !! j) as [[l pc]|] eqn:Ej; cbn.
    + destruct (probe_step l pc s) as [[s' pc']|] eqn:Es; [|done]. cbn. intros [= <-]. cbn.
      apply probe_step_left in Es. split_and!; [done|apply length_insert|].
      intros i l2 pc2 Hi. case_bool_decide as Hij.
      * subst j. rewrite Hi in Ej. simplify_eq. exists pc'. split; [|cbn; lia].
        apply list_lookup_insert_eq. by eapply lookup_lt_Some.
      * exists pc2. rewrite list_lookup_insert_ne by done. split; [done|]. cbn. lia.
    + intros [= <-]. split_and!; try done. intros i l pc Hi. exists pc. split; [done|].
      case_bool_decide; [congruence|cbn; lia].
Qed.

Lemma run_acts_stopped acts w w' :
  rn_stopped w = true → run_acts acts w = Some w' →
  length (rn_probes w') = length (rn_probes w) ∧
  ∀ i l pc, rn_probes w !! i = Some (l, pc) → ∃ pc', rn_probes w' !! i = Some (l, pc') ∧
    (steps_left pc' ≤ steps_left pc - turns i acts)%nat.
Proof.
  revert w. induction acts as [|a acts IH]; intros w Hst; cbn.
  - intros [= <-]. split; [done|]. intros i l pc Hi. exists pc. split; [done|lia].
  - destruct (run_step a w) as [w1|] eqn:E; [|done]. cbn. intros H.
    destruct (run_step_stopped a w w1 Hst E) as (Hst1 & Hlen & H1).
    destruct (IH w1 Hst1 H) as [Hlen' H2]. split; [congruence|]. intros i l pc Hi.
    destruct (H1 i l pc Hi) as (pc1 & Hi1 & Hle1), (H2 i l _ Hi1) as (pc2 & Hi2 & Hle2).
    exists pc2. split; [done|]. unfold turns in *. cbn in *. case_match; cbn in *; lia.
Qed.
End conc.

(** *** Two probes among others *)

(** The first step of a run, from its equation. *)
Ltac step_eq := match goal with E : run_step _ _ ?a ?w = _ |- context [run_step _ _ ?a ?w] => rewrite E end;
  cbn [mbind option_bind].

Section two.
Variable net_DialTimeout : string → string → Duration → bool.
Variable client_Get : string → option Z.

Lemma step_of_two {i j li pi lj pj ps s st b s' pi'} :
  i ≠ j → ps !! i = Some (li, pi) → ps !! j = Some (lj, pj) → sh_store s !! li = Some b →
  probe_body net_DialTimeout client_Get li b pi s = Some (s', pi') →
  ∃ ps', run_step net_DialTimeout client_Get (AProbe i) (mkRunning s ps st) = Some (mkRunning s' ps' st) ∧
    ps' !! i = Some (li, pi') ∧ ps' !! j = Some (lj, pj).
Proof.
  intros Hij Hi Hj Hb Hs. exists (<[i := (li, pi')]> ps). cbn. rewrite Hi. unfold probe_step.
  rewrite Hb. cbn. rewrite Hs. split; [done|]. split.
  - apply list_lookup_insert_eq. by eapply lookup_lt_Some.
  - by rewrite list_lookup_insert_ne.
Qed.

Lemma step_dies {i li pi ps s st b} :
  ps !! i = Some (li, pi) → sh_store s !! li = Some b → probe_body net_DialTimeout client_Get li b pi s = None →
  run_step net_DialTimeout client_Get (AProbe i) (mkRunning s ps st) = None.
Proof. intros Hi Hb Hs. cbn. rewrite Hi. unfold probe_step. rewrite Hb. cbn. by rewrite Hs. Qed.
End two.

(** ** Properties *)

Section theorems.
Variable net_DialTimeout : string → string → Duration → bool.
Variable client_Get : string → option Z.
Abbreviation run := (run_acts net_DialTimeout client_Get).
Abbreviation Run := (Checker_Run net_DialTimeout client_Get).

(** C35. The probes of a tick do not interfere: when the ids of the pool differ,
    every interleaving of the map accesses, health loads and health stores of
    the probes that [Run] starts on a tick, if the program survives it and the
    probes are done, leaves the counters and the backends exactly as the round
    that runs the probes one after the other; and that serial schedule does
    survive. *)
Theorem Checker_run_round c σ acts w :
  separate σ (backends (ck_pool c)) → no_tick acts →
  Run c σ (ATick :: acts) = Some w → all_done w →
  Checker_tick net_DialTimeout client_Get (c, σ) = (Ret tt, (sh_checker (rn_shared w), sh_store (rn_shared w))) ∧
  ∃ w', Run c σ (ATick :: serial 0 (length (backends (ck_pool c)))) = Some w' ∧ all_done w' ∧
    rn_shared w' = calm (sh_checker (rn_shared w), sh_store (rn_shared w)).
Proof.
  unfold Checker_Run. intros Hs Hn. case_decide as Hiv; [done|]. by apply run_round_tick.
Qed.

(** C36. The maps of counters are a data race: whatever the probes find, a pool
    with two entries has a schedule of a single tick on which two probes access
    the same map while one of them writes it, and the program ends. *)
Theorem Checker_run_races c σ i j li lj :
  backends (ck_pool c) !! i = Some li → backends (ck_pool c) !! j = Some lj → i ≠ j →
  is_Some (σ !! li) → is_Some (σ !! lj) → 0 < hc_Interval (ck_cfg c) →
  ∃ acts, no_tick acts ∧ Run c σ (ATick :: acts) = None.
Proof.
  intros Hi Hj Hij [bi Hbi] [bj Hbj] Hiv.
  assert (∀ acts, Run c σ acts = run acts (run_start c σ)) as ER
    by (intros; unfold Checker_Run; by rewrite decide_False by lia).
  set (ls := backends (ck_pool c)) in *.
  set (oi := probe_outcome net_DialTimeout client_Get c bi).
  set (oj := probe_outcome net_DialTimeout client_Get c bj).
  set (ps := (λ l, (l, PProbe)) <$> ls).
  assert (ps !! i = Some (li, PProbe)) as Pi by (unfold ps; by rewrite list_lookup_fmap, Hi).
  assert (ps !! j = Some (lj, PProbe)) as Pj by (unfold ps; by rewrite list_lookup_fmap, Hj).
  assert (j ≠ i) as Hji by done.
  set (s0 := mkShared c σ false false).
  assert (run_step net_DialTimeout client_Get ATick (run_start c σ) = Some (mkRunning s0 ps false)) as E0 by done.
  (* both have their outcome, then [i] starts its reset *)
  destruct (step_of_two net_DialTimeout client_Get (st := false) (s := s0) (pi' := PReset oi) Hij Pi Pj Hbi eq_refl)
    as (ps1 & E1 & Pi1 & Pj1).
  destruct (step_of_two net_DialTimeout client_Get (st := false) (s := s0) (pi' := PReset oj) Hji Pj1 Pi1 Hbj eq_refl)
    as (ps2 & E2 & Pj2 & Pi2).
  set (s1 := set_writing (reset_map oi) true s0).
  assert (probe_body net_DialTimeout client_Get li bi (PReset oi) s0 = Some (s1, PResetEnd oi)) as B3
    by (by destruct oi).
  destruct (step_of_two net_DialTimeout client_Get (st := false) (s := s0) Hij Pi2 Pj2 Hbi B3) as (ps3 & E3 & Pi3 & Pj3).
  assert (∀ m b s, sh_store (set_writing m b s) = sh_store s) as Hst by (by intros []).
  destruct (decide (oi = oj)) as [Ho|Ho].
  - (* [j] starts to reset the same map *)
    exists [AProbe i; AProbe j; AProbe i; AProbe j]. split; [by repeat constructor|].
    rewrite ER. cbn [run_acts]. do 4 step_eq. rewrite (step_dies _ _ Pj3 (b := bj)); [done| |].
    + unfold s1. by rewrite Hst.
    + rewrite <- Ho. unfold s1. by destruct oi.
  - (* [i] goes on to count in the map that [j] resets *)
    set (s2 := set_writing (reset_map oi) false (on_checker (set_counter (reset_map oi) (ID bi) 0) s1)).
    destruct (step_of_two net_DialTimeout client_Get (st := false) (s := s1) (s' := s2) (pi' := PCount oi) (b := bi) Hij Pi3 Pj3)
      as (ps4 & E4 & Pi4 & Pj4); [by unfold s1; rewrite Hst|done|].
    set (s3 := set_writing (count_map oi) true s2).
    destruct (step_of_two net_DialTimeout client_Get (st := false) (s := s2) (s' := s3) (pi' := PCountEnd oi) (b := bi) Hij Pi4 Pj4)
      as (ps5 & E5 & Pi5 & Pj5); [by unfold s2, s1; destruct oi|by unfold s2, s1; destruct oi|].
    exists [AProbe i; AProbe j; AProbe i; AProbe i; AProbe i; AProbe j]. split; [by repeat constructor|].
    rewrite ER. cbn [run_acts]. do 6 step_eq. rewrite (step_dies _ _ Pj5 (b := bj)); [done| |].
    + unfold s3, s2, s1. by destruct oi.
    + unfold s3, s2, s1. by destruct oi, oj.
Qed.

(** [Run] stops: once the context has ended no tick starts a probe, and
    every probe already started finishes within nine of its own steps, in every
    schedule that the program survives. *)
Theorem Checker_run_stops acts w w' :
  rn_stopped w = true → (∀ i, (i < length (rn_probes w))%nat → (probe_len ≤ turns i acts)%nat) →
  run acts w = Some w' →
  length (rn_probes w') = length (rn_probes w) ∧ all_done w'.
Proof.
  intros Hst Ht Hrun. destruct (run_acts_stopped net_DialTimeout client_Get acts w w' Hst Hrun) as [Hlen Hp].
  split; [done|]. apply Forall_lookup. intros i [l pc'] Hi. cbn.
  assert (i < length (rn_probes w))%nat as Hlt by (rewrite <- Hlen; by eapply lookup_lt_Some).
  destruct (lookup_lt_is_Some_2 _ _ Hlt) as [[l0 pc] Hi0].
  destruct (Hp i l0 pc Hi0) as (pc2 & Hi' & Hle). rewrite Hi in Hi'. injection Hi' as -> ->.
  specialize (Ht i Hlt). unfold probe_len in Ht.
  assert (steps_left pc2 = 0%nat) as H0 by (destruct pc; cbn in Hle; lia). by destruct pc2.
Qed.
End theorems.

(** ** Witnesses *)

Definition ex_checker : Checker := NewChecker ex_pool DefaultHealthConfig.

(** Three probes interleaved so that no map accesses overlap. *)
Definition ex_acts : list run_act :=
  [AProbe 0; AProbe 1; AProbe 2; AProbe 1; AProbe 1; AProbe 0; AProbe 0; AProbe 1; AProbe 1; AProbe 2; AProbe 2;
   AProbe 0; AProbe 0; AProbe 2; AProbe 2; AProbe 0; AProbe 0; AProbe 1; AProbe 1; AProbe 2; AProbe 2; AProbe 2;
   ACancel; AProbe 0; AProbe 1; AProbe 2]%nat.

Lemma Checker_run_round_witness :
  ∃ w, Checker_Run (λ _ _ _, false) (λ _, Some 200) ex_checker ex_store (ATick :: ex_acts) = Some w ∧
    Checker_tick (λ _ _ _, false) (λ _, Some 200) (ex_checker, ex_store) =
      (Ret tt, (sh_checker (rn_shared w), sh_store (rn_shared w))).
Proof.
  destruct (Checker_Run (λ _ _ _, false) (λ _, Some 200) ex_checker ex_store (ATick :: ex_acts)) as [w|] eqn:E;
    [|vm_compute in E; discriminate E].
  exists w. split; [reflexivity|].
  refine (proj1 (Checker_run_round (λ _ _ _, false) (λ _, Some 200) ex_checker ex_store ex_acts w ex_pool_separate _ E _)).
  - unfold no_tick, ex_acts. repeat (apply Forall_cons_2; [discriminate|]). constructor.
  - vm_compute in E. injection E as <-. by repeat constructor.
Defined.

Lemma Checker_run_races_witness :
  ∃ acts, no_tick acts ∧
    Checker_Run (λ _ _ _, false) (λ _, Some 200) ex_checker ex_store (ATick :: acts) = None.
Proof.
  apply (Checker_run_races (λ _ _ _, false) (λ _, Some 200) ex_checker ex_store 0%nat 1%nat 0%nat 1%nat);
    try reflexivity.
  - discriminate.
  - vm_compute. eexists. reflexivity.
  - vm_compute. eexists. reflexivity.
Defined.

Definition ex_stopped : running :=
  mkRunning (mkShared ex_checker ex_store false false) [(0, PProbe); (1, PProbe); (2, PProbe)]%nat true.

Lemma Checker_run_stops_witness :
  ∃ w, run_acts (λ _ _ _, false) (λ _, Some 200) (serial 0 3 ++ [ATick]) ex_stopped = Some w ∧
    length (rn_probes w) = 3%nat ∧ all_done w.
Proof.
  destruct (run_acts (λ _ _ _, false) (λ _, Some 200) (serial 0 3 ++ [ATick]) ex_stopped)
    as [w|] eqn:E; [|vm_compute in E; discriminate E].
  exists w. split; [reflexivity|].
  apply (Checker_run_stops (λ _ _ _, false) (λ _, Some 200) (serial 0 3 ++ [ATick]) ex_stopped w eq_refl); [|exact E].
  intros [|[|[|i]]] Hi; [vm_compute; lia..|]. cbn in Hi. lia.
Defined.
