(* ===== verification/Passive.v ===== *)
(** Passive outlier detection (internal/health/passive.go): a sliding window of
    request outcomes per backend, ejection when the error rate reaches the
    threshold, readmission after a backoff. *)

From S2P Require Export Health.

#[local] Open Scope Z_scope.

(** ** Data *)

Record event := mkEvent { ev_ts : Time; ev_err : bool }.

Record PassiveChecker := mkPassive {
  pc_windows : gmap string (list event);
  pc_cfg : HealthConfig;
  pc_backoffs : gmap string Duration;
  pc_ejected : gmap string Time;
}.

Definition NewPassiveChecker (cfg : HealthConfig) : PassiveChecker := mkPassive ∅ cfg ∅ ∅.

Definition set_window (id : string) (w : list event) (pc : PassiveChecker) : PassiveChecker :=
  mkPassive (<[id := w]> (pc_windows pc)) (pc_cfg pc) (pc_backoffs pc) (pc_ejected pc).
Definition set_backoffs (m : gmap string Duration) (pc : PassiveChecker) : PassiveChecker :=
  mkPassive (pc_windows pc) (pc_cfg pc) m (pc_ejected pc).
Definition set_ejected (m : gmap string Time) (pc : PassiveChecker) : PassiveChecker :=
  mkPassive (pc_windows pc) (pc_cfg pc) (pc_backoffs pc) m.

(** Reads of the Go maps, zero values where there is no entry. *)
Definition window_of (pc : PassiveChecker) (id : string) : list event :=
  default [] (pc_windows pc !! id).
Definition backoff_of (pc : PassiveChecker) (id : string) : Duration :=
  default 0 (pc_backoffs pc !! id).

(** ** Operations *)

(** [for start < len(evts) && evts[start].ts.Before(cutoff) { start++ }],
    then [evts[start:]]. *)
Fixpoint trim_events (cutoff : Time) (evts : list event) : list event :=
  match evts with
  | [] => []
  | e :: evts' => if Time_Before (ev_ts e) cutoff then trim_events cutoff evts' else evts
  end.

Fixpoint count_errs (evts : list event) : Z :=
  match evts with
  | [] => 0
  | e :: evts' => if ev_err e then count_errs evts' + 1 else count_errs evts'
  end.

(** [float64(errs) / float64(total)] *)
Definition error_rate (evts : list event) : float64 :=
  f64_div (f64_of_Z (count_errs evts)) (f64_of_Z (zlen evts)).

Abbreviation pworld := (PassiveChecker * store)%type.

Definition PassiveChecker_Observe (l : loc) (isError : bool) (now : Time) : M pworld () :=
  w ← gets id;
  b ← lift (deref w.2 l);
  let cutoff := Time_Add now (- hc_PassiveWindow (pc_cfg w.1)) in
  let evts := trim_events cutoff (window_of w.1 (ID b)) ++ [mkEvent now isError] in
  modify (λ w, (set_window (ID b) evts w.1, w.2));;
  if decide (zlen evts = 0) then mret tt
  else
    let rate := error_rate evts in
    if f64_leb (hc_PassiveErrorRate (pc_cfg w.1)) rate && bool_decide (health b = HealthHealthy)
    then
      (λ w, let '(o, σ') := Backend_SetHealth l HealthUnhealthy w.2 in (o, (w.1, σ')));;
      w ← gets id;
      (if decide (backoff_of w.1 (ID b) = 0)
       then modify (λ w, (set_backoffs (<[ID b := 5 * Second]> (pc_backoffs w.1)) w.1, w.2))
       else mret tt);;
      modify (λ w, (set_ejected (<[ID b := now]> (pc_ejected w.1)) w.1, w.2))
    else mret tt.

Definition PassiveChecker_TryReadmit (l : loc) (now : Time) : M pworld () :=
  w ← gets id;
  b ← lift (deref w.2 l);
  if decide (health b ≠ HealthUnhealthy) then mret tt
  else
    match pc_ejected w.1 !! ID b with
    | None => mret tt
    | Some ejectedAt =>
        let backoff := backoff_of w.1 (ID b) in
        if decide (backoff ≤ Time_Sub now ejectedAt) then
          (λ w, let '(o, σ') := Backend_SetHealth l HealthProbation w.2 in (o, (w.1, σ')));;
          modify (λ w, (set_backoffs
            (<[ID b := min_duration (wrap64 (backoff * 2)) (5 * Minute)]> (pc_backoffs w.1)) w.1, w.2));;
          modify (λ w, (set_ejected (delete (ID b) (pc_ejected w.1)) w.1, w.2));;
          modify (λ w, (set_window (ID b) [] w.1, w.2))
        else mret tt
    end.

(** What other parts of the program do to the backend meanwhile. *)
Inductive passive_op :=
| POutcome (isError : bool) (now : Time)
| PTryReadmit (now : Time)
| PSetHealth (h : Health).

Definition passive_do (l : loc) (o : passive_op) : M pworld () :=
  match o with
  | POutcome e now => PassiveChecker_Observe l e now
  | PTryReadmit now => PassiveChecker_TryReadmit l now
  | PSetHealth h => λ w, let '(r, σ') := Backend_SetHealth l h w.2 in (r, (w.1, σ'))
  end.

(** ** Specification vocabulary *)

(** What the checker knows of one backend, and the backend's health. *)
Record pview := mkView {
  v_window : list event;
  v_backoff : Duration;
  v_ejected : option Time;
  v_health : Health;
}.

Definition passive_view (w : pworld) (l : loc) (id : string) : option pview :=
  (λ b, mkView (window_of w.1 id) (backoff_of w.1 id) (pc_ejected w.1 !! id) (health b)) <$> w.2 !! l.

(** One operation on that view. *)
Definition pview_step (cfg : HealthConfig) (o : passive_op) (v : pview) : pview :=
  match o with
  | PSetHealth h => mkView (v_window v) (v_backoff v) (v_ejected v) h
  | POutcome e now =>
      let evts := trim_events (now - hc_PassiveWindow cfg) (v_window v) ++ [mkEvent now e] in
      if f64_leb (hc_PassiveErrorRate cfg) (error_rate evts) && bool_decide (v_health v = HealthHealthy)
      then mkView evts (if decide (v_backoff v = 0) then 5 * Second else v_backoff v)
             (Some now) HealthUnhealthy
      else mkView evts (v_backoff v) (v_ejected v) (v_health v)
  | PTryReadmit now =>
      match v_health v, v_ejected v with
      | HealthUnhealthy, Some t =>
          if decide (v_backoff v ≤ Time_Sub now t)
          then mkView [] (min_duration (wrap64 (v_backoff v * 2)) (5 * Minute)) None HealthProbation
          else v
      | _, _ => v
      end
  end.

(** ** The monadic code computes [pview_step] *)

Lemma passive_view_put pc σ l h b id :
  passive_view (pc, <[l := set_health h b]> σ) l id =
    Some (mkView (window_of pc id) (backoff_of pc id) (pc_ejected pc !! id) h).
Proof. unfold passive_view. simpl. by rewrite lookup_insert_eq. Qed.

Lemma passive_view_get pc σ l b id :
  σ !! l = Some b →
  passive_view (pc, σ) l id =
    Some (mkView (window_of pc id) (backoff_of pc id) (pc_ejected pc !! id) (health b)).
Proof. unfold passive_view. simpl. by intros ->. Qed.

(** Starts a checker call on a live backend. *)
Ltac passive_start Hb :=
  cbv [gets mbind mret M_bind M_ret lift modify id]; cbn [fst snd];
  rewrite (deref_live _ _ _ Hb); cbn [fst snd].

(** [op] returns, and does [f] to the view of the backend. *)
Definition does (l : loc) (op : M pworld ()) (w : pworld) (b : Backend) (f : pview → pview) : Prop :=
  ∃ w' b', op w = (Ret tt, w') ∧ w'.2 !! l = Some b' ∧ ID b' = ID b ∧
    pc_cfg w'.1 = pc_cfg w.1 ∧ passive_view w' l (ID b) = f <$> passive_view w l (ID b).

Lemma does_put l op pc σ b pc' h f :
  σ !! l = Some b → op (pc, σ) = (Ret tt, (pc', <[l := set_health h b]> σ)) →
  pc_cfg pc' = pc_cfg pc →
  mkView (window_of pc' (ID b)) (backoff_of pc' (ID b)) (pc_ejected pc' !! ID b) h =
    f (mkView (window_of pc (ID b)) (backoff_of pc (ID b)) (pc_ejected pc !! ID b) (health b)) →
  does l op (pc, σ) b f.
Proof.
  intros Hb E Hc Hf. exists (pc', <[l := set_health h b]> σ), (set_health h b).
  rewrite passive_view_put, (passive_view_get _ _ _ _ _ Hb). cbn [fst snd].
  rewrite lookup_insert_eq. split_and!; try done. simpl. by f_equal.
Qed.

Lemma does_get l op pc σ b pc' f :
  σ !! l = Some b → op (pc, σ) = (Ret tt, (pc', σ)) → pc_cfg pc' = pc_cfg pc →
  mkView (window_of pc' (ID b)) (backoff_of pc' (ID b)) (pc_ejected pc' !! ID b) (health b) =
    f (mkView (window_of pc (ID b)) (backoff_of pc (ID b)) (pc_ejected pc !! ID b) (health b)) →
  does l op (pc, σ) b f.
Proof.
  intros Hb E Hc Hf. apply (does_put l op pc σ b pc' (health b)); try done.
  by rewrite set_health_id, insert_id.
Qed.

Lemma Observe_does l e now pc σ b :
  σ !! l = Some b →
  does l (PassiveChecker_Observe l e now) (pc, σ) b (pview_step (pc_cfg pc) (POutcome e now)).
Proof.
  intros Hb.
  set (evts := trim_events (now - hc_PassiveWindow (pc_cfg pc)) (window_of pc (ID b)) ++ [mkEvent now e]).
  assert (window_of (set_window (ID b) evts pc) (ID b) = evts) as Hw
    by (unfold window_of; simpl; by rewrite lookup_insert_eq).
  destruct (f64_leb (hc_PassiveErrorRate (pc_cfg pc)) (error_rate evts) &&
    bool_decide (health b = HealthHealthy)) eqn:E.
  - set (bo := if decide (backoff_of pc (ID b) = 0) then <[ID b := 5 * Second]> (pc_backoffs pc)
               else pc_backoffs pc).
    apply (does_put _ _ _ _ _ (mkPassive (<[ID b := evts]> (pc_windows pc)) (pc_cfg pc) bo
      (<[ID b := now]> (pc_ejected pc))) HealthUnhealthy); try done.
    + unfold PassiveChecker_Observe. passive_start Hb. unfold Time_Add. rewrite Z.add_opp_r.
      fold evts. rewrite decide_False by (unfold zlen, evts; rewrite length_app; simpl; lia).
      rewrite E. unfold Backend_SetHealth. rewrite (update_live _ _ _ _ Hb). cbn [fst snd].
      subst bo. change (backoff_of (set_window (ID b) evts pc)) with (backoff_of pc).
      by destruct (decide (backoff_of pc (ID b) = 0)).
    + simpl. fold evts. rewrite E. unfold window_of, backoff_of. simpl.
      rewrite !lookup_insert_eq. subst bo. fold (backoff_of pc (ID b)). f_equal.
      destruct (decide (backoff_of pc (ID b) = 0)); [by rewrite lookup_insert_eq|done].
  - apply (does_get _ _ _ _ _ (set_window (ID b) evts pc)); try done.
    + unfold PassiveChecker_Observe. passive_start Hb. unfold Time_Add. rewrite Z.add_opp_r.
      fold evts. rewrite decide_False by (unfold zlen, evts; rewrite length_app; simpl; lia).
      by rewrite E.
    + simpl. fold evts. by rewrite E, Hw.
Qed.

Lemma TryReadmit_does l now pc σ b :
  σ !! l = Some b →
  does l (PassiveChecker_TryReadmit l now) (pc, σ) b (pview_step (pc_cfg pc) (PTryReadmit now)).
Proof.
  intros Hb. destruct (decide (health b ≠ HealthUnhealthy)) as [Hh|Hh].
  { apply (does_get _ _ _ _ _ pc); try done.
    - unfold PassiveChecker_TryReadmit. passive_start Hb. by rewrite decide_True.
    - simpl. by destruct (health b). }
  assert (health b = HealthUnhealthy) as Hh' by (by apply dec_stable).
  destruct (pc_ejected pc !! ID b) as [t|] eqn:Et;
    [destruct (decide (backoff_of pc (ID b) ≤ Time_Sub now t)) as [Hle|Hgt]|].
  - apply (does_put _ _ _ _ _ (mkPassive (<[ID b := []]> (pc_windows pc)) (pc_cfg pc)
      (<[ID b := min_duration (wrap64 (backoff_of pc (ID b) * 2)) (5 * Minute)]> (pc_backoffs pc))
      (delete (ID b) (pc_ejected pc))) HealthProbation); try done.
    + unfold PassiveChecker_TryReadmit. passive_start Hb. rewrite decide_False by done.
      rewrite Et, decide_True by done. unfold Backend_SetHealth.
      by rewrite (update_live _ _ _ _ Hb).
    + simpl. rewrite Hh', Et, decide_True by done. unfold window_of, backoff_of. simpl.
      by rewrite !lookup_insert_eq, lookup_delete_eq.
  - apply (does_get _ _ _ _ _ pc); try done.
    + unfold PassiveChecker_TryReadmit. passive_start Hb. rewrite decide_False by done.
      by rewrite Et, decide_False.
    + simpl. by rewrite Hh', Et, decide_False.
  - apply (does_get _ _ _ _ _ pc); try done.
    + unfold PassiveChecker_TryReadmit. passive_start Hb. rewrite decide_False by done.
      by rewrite Et.
    + simpl. by rewrite Hh', Et.
Qed.

Lemma passive_do_step l o pc σ b :
  σ !! l = Some b → does l (passive_do l o) (pc, σ) b (pview_step (pc_cfg pc) o).
Proof.
  intros Hb. destruct o as [e now|now|h]; [by apply Observe_does|by apply TryReadmit_does|].
  apply (does_put _ _ _ _ _ pc h); try done.
  simpl. unfold Backend_SetHealth. by rewrite (update_live _ _ _ _ Hb).
Qed.

(** ** Runs *)

Definition passive_run (l : loc) (ops : list passive_op) : M pworld () := forM ops (passive_do l).

Lemma passive_run_view l ops pc σ b v :
  σ !! l = Some b → passive_view (pc, σ) l (ID b) = Some v →
  ∃ w, passive_run l ops (pc, σ) = (Ret tt, w) ∧
    (∃ b', w.2 !! l = Some b' ∧ ID b' = ID b) ∧ pc_cfg w.1 = pc_cfg pc ∧
    passive_view w l (ID b) = Some (foldl (λ v o, pview_step (pc_cfg pc) o v) v ops).
Proof.
  revert pc σ b v. induction ops as [|o ops IH]; intros pc σ b v Hb Hv; simpl.
  - exists (pc, σ). split_and!; try done. by exists b.
  - destruct (passive_do_step l o pc σ b Hb) as ([pc1 σ1] & b1 & E & Hb1 & Hid & Hc & Hv1).
    simpl in *. rewrite Hv in Hv1. simpl in Hv1. rewrite <- Hid in Hv1.
    destruct (IH pc1 σ1 b1 _ Hb1 Hv1) as (w & E2 & (b2 & Hb2 & Hid2) & Hc2 & Hv2).
    exists w. unfold passive_run in *. simpl. rewrite (bind_Ret _ _ _ _ _ E).
    rewrite Hc, Hid in *. split_and!; try done. by exists b2.
Qed.

(** *** The window *)

Definition outcome_of (e : event) : passive_op := POutcome (ev_err e) (ev_ts e).

(** The events of [evs] at most [W] older than the last of them. *)
Definition recent (W : Duration) (evs : list event) : list event :=
  match last evs with
  | None => []
  | Some e => filter (λ e', ev_ts e - W ≤ ev_ts e') evs
  end.

(** Events in the order of a clock that does not go back. *)
Definition clocked (evs : list event) : Prop :=
  ∀ i j e e', (i ≤ j)%nat → evs !! i = Some e → evs !! j = Some e' → ev_ts e ≤ ev_ts e'.

Lemma clocked_app evs1 evs2 : clocked (evs1 ++ evs2) → clocked evs1 ∧ clocked evs2.
Proof.
  intros H. split; intros i j e e' Hij Hi Hj.
  - eapply (H i j); [done|..]; by apply lookup_app_l_Some.
  - apply (H (length evs1 + i) (length evs1 + j))%nat; [lia|..];
      rewrite lookup_app_r by lia.
    + by replace (length evs1 + i - length evs1)%nat with i by lia.
    + by replace (length evs1 + j - length evs1)%nat with j by lia.
Qed.

Lemma clocked_cons e evs :
  clocked (e :: evs) → clocked evs ∧ Forall (λ e', ev_ts e ≤ ev_ts e') evs.
Proof.
  intros H. split; [by apply (clocked_app [e])|]. apply Forall_forall. intros e' Hin.
  apply list_elem_of_lookup in Hin as [j Hj]. apply (H 0 (S j))%nat; [lia|done|done].
Qed.

Lemma clocked_intro e evs :
  clocked evs → Forall (λ e', ev_ts e ≤ ev_ts e') evs → clocked (e :: evs).
Proof.
  intros Hc Hf [|i] [|j] x y Hij Hi Hj; simpl in *; simplify_eq; [lia|..|lia|].
  - apply list_elem_of_lookup_2 in Hj. rewrite Forall_forall in Hf. auto.
  - eapply (Hc i j); [lia|done|done].
Qed.

Lemma trim_events_filter c evs :
  clocked evs → trim_events c evs = filter (λ e, c ≤ ev_ts e) evs.
Proof.
  induction evs as [|e evs IH]; [done|]. intros [Hc Hf]%clocked_cons. simpl.
  unfold Time_Before. rewrite filter_cons. case_bool_decide.
  - rewrite decide_False by lia. auto.
  - rewrite decide_True by lia. f_equal. symmetry. apply filter_all.
    eapply Forall_impl; [exact Hf|]. simpl. intros. lia.
Qed.

Lemma filter_clocked evs P `{∀ e, Decision (P e)} : clocked evs → clocked (filter P evs).
Proof.
  induction evs as [|e evs IH]; [done|]. intros [Hc Hf]%clocked_cons.
  rewrite filter_cons. case_decide; [|auto].
  apply clocked_intro; [by apply IH|].
  apply Forall_forall. intros y [_ Hy]%list_elem_of_filter.
  rewrite Forall_forall in Hf. auto.
Qed.

(** One more outcome on a window that is up to date. *)
Lemma recent_snoc W evs e :
  0 ≤ W → clocked (evs ++ [e]) →
  trim_events (ev_ts e - W) (recent W evs) ++ [e] = recent W (evs ++ [e]).
Proof.
  intros HW Hc. pose proof Hc as [Hc1 _]%clocked_app.
  unfold recent. rewrite last_snoc, filter_app, filter_cons, decide_True by lia. simpl.
  f_equal. destruct (last evs) as [x|] eqn:El.
  - rewrite trim_events_filter by (by apply filter_clocked).
    rewrite list_filter_filter. apply list_filter_iff. intros y.
    apply last_Some in El as [evs' ->].
    assert (ev_ts x ≤ ev_ts e); [|lia].
    apply (Hc (length evs') (S (length evs'))); [lia|..].
    + rewrite <- app_assoc. simpl. by apply list_lookup_middle.
    + rewrite lookup_app_r by (rewrite length_app; simpl; lia).
      rewrite length_app. simpl. by replace (S _ - _)%nat with 0%nat by lia.
  - apply last_None in El as ->. done.
Qed.

(** The first outcome at which the rate reaches the threshold, if any. *)
Definition reaches (cfg : HealthConfig) (evs : list event) : Prop :=
  evs ≠ [] ∧ f64_leb (hc_PassiveErrorRate cfg) (error_rate (recent (hc_PassiveWindow cfg) evs)) = true.

Lemma reaches_snoc cfg evs e :
  (∃ n, reaches cfg (take n (evs ++ [e]))) ↔
    (∃ n, reaches cfg (take n evs)) ∨ reaches cfg (evs ++ [e]).
Proof.
  split.
  - intros [n Hn]. destruct (decide (n ≤ length evs)%nat).
    + left. exists n. by rewrite take_app_le in Hn by done.
    + right. by rewrite take_ge in Hn by (rewrite length_app; simpl; lia).
  - intros [[n Hn]|H].
    + exists (min n (length evs)). rewrite take_app_le by lia.
      by rewrite <- firstn_firstn, firstn_all in Hn || (destruct (Nat.min_spec n (length evs))
        as [[? ->]|[? ->]]; [done|by rewrite take_ge in Hn |- * by lia]).
    + exists (S (length evs)). by rewrite take_ge by (rewrite length_app; simpl; lia).
Qed.

Lemma pview_outcomes cfg evs bo :
  0 ≤ hc_PassiveWindow cfg → clocked evs →
  let v := foldl (λ v o, pview_step cfg o v) (mkView [] bo None HealthHealthy)
             (outcome_of <$> evs) in
  v_window v = recent (hc_PassiveWindow cfg) evs ∧
  (v_health v = HealthHealthy ∨ v_health v = HealthUnhealthy) ∧
  (v_health v = HealthUnhealthy ↔ ∃ n, reaches cfg (take n evs)).
Proof.
  intros HW. induction evs as [|e evs IH] using rev_ind; intros Hc.
  - simpl. split_and!; [done|by left|]. split; [done|]. intros [n [Hn _]].
    by rewrite take_nil in Hn.
  - pose proof Hc as [Hc1 _]%clocked_app. specialize (IH Hc1).
    rewrite fmap_app, foldl_app. simpl.
    set (v := foldl _ _ (outcome_of <$> evs)) in *. destruct IH as (Hw & Hh & Hr).
    rewrite Hw. replace (mkEvent (ev_ts e) (ev_err e)) with e by (by destruct e).
    rewrite recent_snoc by done.
    set (ok := f64_leb _ _).
    assert (ok = true ↔ reaches cfg (evs ++ [e])) as Hok.
    { unfold reaches. split; [intros; split; [by destruct evs|done]|by intros [_ ?]]. }
    rewrite reaches_snoc, <- Hr, <- Hok.
    destruct Hh as [Hh|Hh]; rewrite Hh; destruct ok; simpl;
      rewrite ?Hh; (split_and!; [done|tauto|]); intuition congruence.
Qed.

(** C37. The window is exact: on a clock that does not go back, after any
    sequence of outcomes the window of a healthy backend with a fresh checker
    holds exactly the outcomes of the whole history that are at most
    [PassiveWindow] old, and the backend is ejected if and only if at some
    outcome the share of errors in the window reached the threshold. *)
Theorem Passive_window_exact l evs cfg σ b :
  0 ≤ hc_PassiveWindow cfg → clocked evs →
  σ !! l = Some b → health b = HealthHealthy →
  ∃ w v, passive_run l (outcome_of <$> evs) (NewPassiveChecker cfg, σ) = (Ret tt, w) ∧
    passive_view w l (ID b) = Some v ∧
    v_window v = recent (hc_PassiveWindow cfg) evs ∧
    (v_health v = HealthHealthy ∨ v_health v = HealthUnhealthy) ∧
    (v_health v = HealthUnhealthy ↔ ∃ n, reaches cfg (take n evs)).
Proof.
  intros HW Hc Hb Hh.
  destruct (passive_run_view l (outcome_of <$> evs) (NewPassiveChecker cfg) σ b
    (mkView [] 0 None HealthHealthy) Hb) as (w & E & _ & _ & Hv).
  { rewrite (passive_view_get _ _ _ _ _ Hb), Hh. done. }
  exists w. eexists. split; [exact E|]. split; [exact Hv|].
  by apply (pview_outcomes cfg evs 0).
Qed.

(** *** The backoff *)

(** How many times [TryReadmit] readmitted the backend. *)
Fixpoint readmits (cfg : HealthConfig) (ops : list passive_op) (v : pview) : nat :=
  match ops with
  | [] => 0
  | o :: ops' =>
      let v' := pview_step cfg o v in
      (match o with
       | PTryReadmit _ => if bool_decide (v_health v = v_health v') then 0 else 1
       | _ => 0
       end + readmits cfg ops' v')%nat
  end.

(** The backoff after [k] readmissions; a backend never ejected has none. *)
Definition backoff_inv (k : nat) (v : pview) : Prop :=
  (v_backoff v = 0 ∧ v_ejected v = None ∧ k = O) ∨ v_backoff v = backoff_at k.

Lemma pview_step_backoff cfg o v k :
  backoff_inv k v → backoff_inv (readmits cfg [o] v + k) (pview_step cfg o v).
Proof.
  intros H. destruct v as [evs bo ej h]. unfold backoff_inv in *. simpl in *.
  pose proof (backoff_at_bounds k) as Hk. unfold Second in Hk.
  destruct o as [e now|now|h']; simpl.
  - destruct (_ && _); simpl; [|done]. right.
    destruct H as [(-> & _ & ->) | -> ]; [done|]. by rewrite decide_False by lia.
  - destruct h; simpl; try done. destruct ej as [t|]; simpl; [|done].
    destruct H as [(_ & ? & _) | -> ]; [done|].
    case_decide; simpl; [|by right]. right. apply backoff_at_S.
  - done.
Qed.

Lemma pview_run_backoff cfg ops v k :
  backoff_inv k v →
  backoff_inv (readmits cfg ops v + k) (foldl (λ v o, pview_step cfg o v) v ops).
Proof.
  revert v k. induction ops as [|o ops IH]; intros v k H; [done|].
  cbn [foldl readmits]. pose proof (pview_step_backoff cfg o v k H) as H1.
  specialize (IH _ _ H1). cbn [readmits] in IH.
  match goal with |- backoff_inv ?a _ => match type of IH with backoff_inv ?c _ =>
    replace a with c by lia end end. exact IH.
Qed.

(** Readmission respects an exponential backoff: whatever outcomes, attempts
    and health changes by others came before, [TryReadmit] moves the backend
    exactly when it is unhealthy with a recorded ejection at least
    [backoff_at k] ago, [k] being the number of readmissions so far; it then
    becomes [Probation] with an empty window, no recorded ejection and the next
    backoff, and otherwise nothing changes. *)
Theorem Passive_readmits_after_backoff l ops now cfg σ b :
  σ !! l = Some b →
  let v0 := mkView [] 0 None (health b) in
  let v := foldl (λ v o, pview_step cfg o v) v0 ops in
  let k := readmits cfg ops v0 in
  ∃ w w', passive_run l ops (NewPassiveChecker cfg, σ) = (Ret tt, w) ∧
    passive_view w l (ID b) = Some v ∧
    PassiveChecker_TryReadmit l now w = (Ret tt, w') ∧
    ((v_health v = HealthUnhealthy ∧ ∃ t, v_ejected v = Some t ∧ backoff_at k ≤ Time_Sub now t) →
     passive_view w' l (ID b) = Some (mkView [] (backoff_at (S k)) None HealthProbation)) ∧
    (¬ (v_health v = HealthUnhealthy ∧ ∃ t, v_ejected v = Some t ∧ backoff_at k ≤ Time_Sub now t) →
     passive_view w' l (ID b) = Some v).
Proof.
  intros Hb v0 v k.
  destruct (passive_run_view l ops (NewPassiveChecker cfg) σ b v0 Hb)
    as ([pc1 σ1] & E & (b1 & Hb1 & Hid) & Hc & Hv).
  { by rewrite (passive_view_get _ _ _ _ _ Hb). }
  cbn [fst snd pc_cfg NewPassiveChecker] in *. fold v in Hv.
  destruct (TryReadmit_does l now pc1 σ1 b1 Hb1) as (w' & b' & E' & _ & _ & _ & Hv').
  cbn [fst snd] in *. rewrite Hid, Hv, Hc in Hv'.
  exists (pc1, σ1), w'. split; [exact E|]. split; [done|]. split; [exact E'|].
  rewrite Hv'. clear E E' Hv' Hv.
  assert (backoff_inv k v) as Hk.
  { pose proof (pview_run_backoff cfg ops v0 0) as H. rewrite Nat.add_0_r in H.
    apply H. left. done. }
  destruct v as [evs bo ej h]. unfold backoff_inv in Hk. cbn [v_health v_ejected v_backoff] in *.
  split.
  - intros (-> & t & -> & Ht). destruct Hk as [(_ & ? & _) | -> ]; [done|]. simpl.
    rewrite decide_True by done. by rewrite backoff_at_S.
  - intros Hn. simpl. destruct h; try done. destruct ej as [t|]; [|done].
    destruct Hk as [(_ & ? & _) | -> ]; [done|]. rewrite decide_False; [done|].
    intros Ht. apply Hn. eauto.
Qed.

(** An ejection is never forgotten when something else heals the backend:
    after a passive ejection at [t], if the active checks bring the backend
    back to [Healthy] and later eject it themselves, [TryReadmit] readmits it
    at once, because the backoff is still counted from [t]. *)
Theorem Passive_stale_ejection l t now cfg σ b :
  σ !! l = Some b → health b = HealthHealthy →
  f64_leb (hc_PassiveErrorRate cfg) (error_rate [mkEvent t true]) = true →
  5 * Second ≤ Time_Sub now t →
  ∃ w v, passive_run l [POutcome true t; PSetHealth HealthProbation; PSetHealth HealthHealthy;
      PSetHealth HealthUnhealthy; PTryReadmit now] (NewPassiveChecker cfg, σ) = (Ret tt, w) ∧
    passive_view w l (ID b) = Some v ∧ v_health v = HealthProbation.
Proof.
  intros Hb Hh Hr Ht.
  destruct (passive_run_view l [POutcome true t; PSetHealth HealthProbation;
    PSetHealth HealthHealthy; PSetHealth HealthUnhealthy; PTryReadmit now]
    (NewPassiveChecker cfg) σ b (mkView [] 0 None HealthHealthy) Hb) as (w & E & _ & _ & Hv).
  { by rewrite (passive_view_get _ _ _ _ _ Hb), Hh. }
  exists w. eexists. split; [exact E|]. split; [exact Hv|]. simpl. rewrite Hr. simpl.
  by rewrite decide_True.
Qed.

(** ** Witnesses *)

Definition ex_events : list event :=
  [mkEvent (1 * Second) false; mkEvent (2 * Second) false; mkEvent (62 * Second) false;
   mkEvent (63 * Second) true; mkEvent (64 * Second) true].

Lemma ex_events_clocked : clocked ex_events.
Proof.
  apply clocked_intro; [repeat apply clocked_intro; try by intros ? ? ? ? ? ?|];
    repeat constructor; vm_compute; discriminate.
Qed.

Lemma Passive_window_exact_witness :
  ∃ w v, passive_run 0%nat (outcome_of <$> ex_events)
      (NewPassiveChecker DefaultHealthConfig, ex_store) = (Ret tt, w) ∧
    passive_view w 0%nat "b0" = Some v ∧
    v_window v = drop 2 ex_events ∧
    v_health v = HealthUnhealthy.
Proof.
  destruct (Passive_window_exact 0%nat ex_events DefaultHealthConfig ex_store
    (ex_backend "b0" 1 HealthHealthy)) as (w & v & H1 & H2 & H3 & _ & H4).
  - vm_compute; discriminate.
  - exact ex_events_clocked.
  - vm_compute; reflexivity.
  - reflexivity.
  - exists w, v. split; [exact H1|]. split; [exact H2|]. split.
    + rewrite H3. vm_compute. reflexivity.
    + apply H4. exists 5%nat. split; [discriminate|]. vm_compute. reflexivity.
Defined.

Lemma Passive_readmits_after_backoff_witness :
  ∃ w w', passive_run 0%nat [POutcome true Second] (NewPassiveChecker DefaultHealthConfig, ex_store)
      = (Ret tt, w) ∧
    PassiveChecker_TryReadmit 0%nat (6 * Second) w = (Ret tt, w') ∧
    passive_view w' 0%nat "b0" = Some (mkView [] (10 * Second) None HealthProbation).
Proof.
  destruct (Passive_readmits_after_backoff 0%nat [POutcome true Second] (6 * Second)
    DefaultHealthConfig ex_store (ex_backend "b0" 1 HealthHealthy)) as (w & w' & H1 & H2 & H3 & H4 & _).
  - vm_compute; reflexivity.
  - exists w, w'. split; [exact H1|]. split; [exact H3|]. refine (eq_trans (H4 _) _); [|reflexivity].
    split; [vm_compute; reflexivity|]. exists Second. split; [vm_compute; reflexivity|].
    vm_compute; discriminate.
Defined.

Lemma Passive_stale_ejection_witness :
  ∃ w v, passive_run 0%nat [POutcome true Second; PSetHealth HealthProbation;
      PSetHealth HealthHealthy; PSetHealth HealthUnhealthy; PTryReadmit (1000 * Second)]
      (NewPassiveChecker DefaultHealthConfig, ex_store) = (Ret tt, w) ∧
    passive_view w 0%nat "b0" = Some v ∧ v_health v = HealthProbation.
Proof.
  apply (Passive_stale_ejection 0%nat Second (1000 * Second) DefaultHealthConfig ex_store
    (ex_backend "b0" 1 HealthHealthy)); try (vm_compute; reflexivity).
  vm_compute; discriminate.
Defined.
