(* ===== verification/RateLimit.v ===== *)
(** The per-client token bucket (internal/middleware/ratelimit.go): [Allow] one
    call at a time, the eviction of stale buckets, and the same [Allow] as
    interleaved atomic operations on one bucket. *)

From Stdlib Require Import QArith Lqa.
From S2P Require Export GoString FloatBounds GoHttp.

#[local] Open Scope Z_scope.

(** ** Data *)

Record bucket := mkBucket { bk_tokens : Z; bk_lastRefill : Z }.

Record RateLimiter := mkRateLimiter {
  rl_rate : float64;
  rl_burst : Z;
  rl_buckets : gmap string bucket;
}.

Definition NewRateLimiter (ratePerSec : float64) (burst : Z) : RateLimiter :=
  mkRateLimiter ratePerSec burst ∅.

Definition set_bucket (ip : string) (b : bucket) (rl : RateLimiter) : RateLimiter :=
  mkRateLimiter (rl_rate rl) (rl_burst rl) (<[ip := b]> (rl_buckets rl)).

(** ** Operations *)

(** [bucket(ip)], created full at the clock [now] on the first request. *)
Definition RateLimiter_bucket (ip : string) (now : Time) : M RateLimiter bucket := λ rl,
  match rl_buckets rl !! ip with
  | Some b => (Ret b, rl)
  | None =>
      let b := mkBucket (rl_burst rl) (Time_UnixNano now) in
      (Ret b, set_bucket ip b rl)
  end.

(** [int64(float64(now-last) / float64(time.Second) * rate)] *)
Definition refill_amount (rate : float64) (elapsed : Z) : Z :=
  f64_to_int64 (f64_mul (f64_div (f64_of_Z elapsed) (f64_of_Z Second)) rate).

(** The tokens stored after a positive refill. *)
Definition refilled_tokens (burst cur refill : Z) : Z :=
  let newVal := wrap64 (cur + refill) in
  if decide (burst < newVal) then burst else newVal.

(** [Allow(ip)]: [now1] is the clock when a bucket is created, [now2] the one
    read for the refill.  Alone, the first compare-and-swap succeeds. *)
Definition RateLimiter_Allow (ip : string) (now1 now2 : Time) : M RateLimiter bool :=
  b ← RateLimiter_bucket ip now1;
  rl ← gets id;
  let now := Time_UnixNano now2 in
  let last := bk_lastRefill b in
  let refill := refill_amount (rl_rate rl) (wrap64 (now - last)) in
  let cur := if decide (0 < refill) then refilled_tokens (rl_burst rl) (bk_tokens b) refill
             else bk_tokens b in
  if decide (cur ≤ 0) then
    modify (set_bucket ip (mkBucket cur now));; mret false
  else
    modify (set_bucket ip (mkBucket (wrap64 (cur - 1)) now));; mret true.

(** One round of [StartCleanup]'s loop. *)
Definition RateLimiter_cleanup (interval : Duration) (now : Time) (rl : RateLimiter) : RateLimiter :=
  let cutoff := Time_UnixNano (Time_Add now (- interval)) in
  mkRateLimiter (rl_rate rl) (rl_burst rl)
    (filter (λ kv, ¬ bk_lastRefill kv.2 < cutoff) (rl_buckets rl)).

(** The goroutine of [StartCleanup]: a panic when the interval is not positive,
    then a round per tick, with the clock at that time, until the context is
    done; whether it has returned. *)
Inductive cleanup_event := CleanupTick (now : Time) | CleanupDone.

Fixpoint cleanup_loop (interval : Duration) (es : list cleanup_event) : M RateLimiter bool :=
  match es with
  | [] => mret false
  | CleanupDone :: _ => mret true
  | CleanupTick now :: es' => modify (RateLimiter_cleanup interval now);; cleanup_loop interval es'
  end.

Definition RateLimiter_StartCleanup (interval : Duration) (es : list cleanup_event) : M RateLimiter bool :=
  if decide (interval ≤ 0) then raise Explicit else cleanup_loop interval es.

(** The client a request is counted for: the whole X-Forwarded-For header, or
    the remote address up to its last colon. *)
Definition RateLimit_clientIP (r : Request) : string :=
  let xff := Header_Get (req_Header r) "X-Forwarded-For" in
  if decide (xff ≠ "") then xff
  else
    match last_index_byte colon (req_RemoteAddr r) with
    | Some i => str_take i (req_RemoteAddr r)
    | None => req_RemoteAddr r
    end.

(** A request to the limiter: the client and its two clock readings. *)
Record rcall := mkCall { rc_ip : string; rc_t1 : Time; rc_t2 : Time }.

Inductive rl_op :=
| RLAllow (c : rcall)
| RLCleanup (interval : Duration) (now : Time).

(** The verdicts of the calls, [None] for the cleanup rounds. *)
Fixpoint rl_run (ops : list rl_op) : M RateLimiter (list (option bool)) :=
  match ops with
  | [] => mret []
  | RLAllow c :: ops' =>
      a ← RateLimiter_Allow (rc_ip c) (rc_t1 c) (rc_t2 c);
      l ← rl_run ops'; mret (Some a :: l)
  | RLCleanup i now :: ops' =>
      modify (RateLimiter_cleanup i now);; l ← rl_run ops'; mret (None :: l)
  end.

(** ** Interleaved [Allow]s on one bucket *)

(** Where a goroutine stands in [Allow]. *)
Inductive rpc :=
| RSwap
| RLoad (refill : Z)
| RStore (newVal : Z)
| RTry
| RCas (cur : Z)
| RDone (ok : bool).

#[export] Instance rpc_eq_dec : EqDecision rpc.
Proof. solve_decision. Defined.

Record rconf := mkRconf { rc_bucket : bucket; rc_pcs : list rpc }.

(** One atomic operation of a goroutine, [now] being the clock if it reads it. *)
Definition rpc_step (rate : float64) (burst : Z) (now : Z) (b : bucket) (p : rpc) : bucket * rpc :=
  match p with
  | RSwap =>
      let refill := refill_amount rate (wrap64 (now - bk_lastRefill b)) in
      (mkBucket (bk_tokens b) now, if decide (0 < refill) then RLoad refill else RTry)
  | RLoad refill => (b, RStore (refilled_tokens burst (bk_tokens b) refill))
  | RStore v => (mkBucket v (bk_lastRefill b), RTry)
  | RTry => (b, if decide (bk_tokens b ≤ 0) then RDone false else RCas (bk_tokens b))
  | RCas cur =>
      if decide (bk_tokens b = cur) then (mkBucket (wrap64 (cur - 1)) (bk_lastRefill b), RDone true)
      else (b, RTry)
  | RDone ok => (b, RDone ok)
  end.

(** A schedule names, at each step, the goroutine that moves and the clock. *)
Definition rstep (rate : float64) (burst : Z) (s : nat * Z) (c : rconf) : rconf :=
  match rc_pcs c !! s.1 with
  | None => c
  | Some p =>
      let '(b, p') := rpc_step rate burst s.2 (rc_bucket c) p in
      mkRconf b (<[s.1 := p']> (rc_pcs c))
  end.

Definition rrun (rate : float64) (burst : Z) (sched : list (nat * Z)) (c : rconf) : rconf :=
  foldl (λ c s, rstep rate burst s c) c sched.

(** [n] goroutines entering [Allow] on a full bucket last refilled at [t]. *)
Definition rinitial (burst : Z) (n : nat) (t : Z) : rconf :=
  mkRconf (mkBucket burst t) (replicate n RSwap).

Definition admitted (c : rconf) : nat := occ (RDone true) (rc_pcs c).

(** ** One call *)

Example Allow_ex :
  (rl_run [RLAllow (mkCall "a" unix_epoch unix_epoch); RLAllow (mkCall "a" 0 unix_epoch);
     RLAllow (mkCall "a" 0 (unix_epoch + Second))]
     (NewRateLimiter (f64_of_Z 1) 1)).1 = Ret [Some true; Some false; Some true].
Proof. vm_compute. reflexivity. Qed.

(** The bucket a call works on, and what it leaves. *)
Definition bucket_at (rl : RateLimiter) (ip : string) (now : Time) : bucket :=
  default (mkBucket (rl_burst rl) (Time_UnixNano now)) (rl_buckets rl !! ip).

(** The refill a call at [now2] earns. *)
Definition earned (rl : RateLimiter) (c : rcall) : Z :=
  refill_amount (rl_rate rl)
    (wrap64 (Time_UnixNano (rc_t2 c) - bk_lastRefill (bucket_at rl (rc_ip c) (rc_t1 c)))).

Definition available (rl : RateLimiter) (c : rcall) : Z :=
  let b := bucket_at rl (rc_ip c) (rc_t1 c) in
  if decide (0 < earned rl c) then refilled_tokens (rl_burst rl) (bk_tokens b) (earned rl c)
  else bk_tokens b.

Lemma set_bucket_set ip b b' rl : set_bucket ip b (set_bucket ip b' rl) = set_bucket ip b rl.
Proof. unfold set_bucket. simpl. by rewrite insert_insert_eq. Qed.

Lemma Allow_step c rl :
  RateLimiter_Allow (rc_ip c) (rc_t1 c) (rc_t2 c) rl =
    let cur := available rl c in
    (Ret (bool_decide (0 < cur)),
     set_bucket (rc_ip c)
       (mkBucket (if decide (0 < cur) then wrap64 (cur - 1) else cur) (Time_UnixNano (rc_t2 c))) rl).
Proof.
  destruct c as [ip t1 t2]. unfold RateLimiter_Allow, available, earned, bucket_at.
  cbv [gets mbind mret M_bind M_ret modify id]. unfold RateLimiter_bucket. cbn [rc_ip rc_t1 rc_t2].
  destruct (rl_buckets rl !! ip) as [b|]; cbn [default fst snd].
  - set (cur := if decide (0 < _) then _ else _).
    destruct (decide (cur ≤ 0)).
    + rewrite bool_decide_eq_false_2, decide_False by lia. done.
    + rewrite bool_decide_eq_true_2, decide_True by lia. done.
  - cbn [set_bucket rl_rate rl_burst]. set (cur := if decide (0 < _) then _ else _).
    destruct (decide (cur ≤ 0)).
    + rewrite bool_decide_eq_false_2, decide_False by lia. by rewrite set_bucket_set.
    + rewrite bool_decide_eq_true_2, decide_True by lia. by rewrite set_bucket_set.
Qed.

(** ** The budget of a client *)

(** One operation as a function. *)
Definition rl_step (o : rl_op) (rl : RateLimiter) : option bool * RateLimiter :=
  match o with
  | RLAllow c =>
      let '(r, rl') := RateLimiter_Allow (rc_ip c) (rc_t1 c) (rc_t2 c) rl in
      (match r with Ret a => Some a | Panic _ => None end, rl')
  | RLCleanup i now => (None, RateLimiter_cleanup i now rl)
  end.

Lemma rl_run_cons o ops rl :
  ∃ a rl', rl_step o rl = (a, rl') ∧
    rl_run (o :: ops) rl =
      match rl_run ops rl' with (Ret l, s) => (Ret (a :: l), s) | (Panic w, s) => (Panic w, s) end.
Proof.
  destruct o as [c|i now]; simpl.
  - rewrite (Allow_step c rl). eexists _, _. split; [done|].
    rewrite (bind_Ret _ _ _ _ _ (Allow_step c rl)). unfold mbind, M_bind, mret, M_ret.
    by destruct (rl_run ops _) as [[l|w] s].
  - eexists _, _. split; [done|]. unfold mbind, M_bind, mret, M_ret, modify.
    by destruct (rl_run ops _) as [[l|w] s].
Qed.

(** The rounds of [StartCleanup] are the cleanups of a run. *)
Lemma cleanup_loop_run interval nows rl :
  (rl_run (RLCleanup interval <$> nows) rl).2 = (cleanup_loop interval (CleanupTick <$> nows) rl).2 ∧
  cleanup_loop interval ((CleanupTick <$> nows) ++ [CleanupDone]) rl =
    (Ret true, (cleanup_loop interval (CleanupTick <$> nows) rl).2).
Proof.
  revert rl. induction nows as [|now nows IH]; intros rl; [done|].
  destruct (IH (RateLimiter_cleanup interval now rl)) as [H1 H2]. split; [|exact H2].
  rewrite !fmap_cons. cbn [cleanup_loop rl_run]. unfold mbind, M_bind, modify, mret, M_ret in *.
  rewrite <- H1. by destruct (rl_run _ _) as [[l|w] s].
Qed.

(** What one operation adds for the client [ip]: a full bucket when one is
    created for it, and the refill its call earns. *)
Definition op_budget (ip : string) (o : rl_op) (rl : RateLimiter) : Z :=
  match o with
  | RLAllow c =>
      if decide (rc_ip c = ip) then
        (if decide (is_Some (rl_buckets rl !! ip)) then 0 else Z.max 0 (rl_burst rl)) + Z.max 0 (earned rl c)
      else 0
  | RLCleanup _ _ => 0
  end.

(** How many calls of [ip] were let through. *)
Fixpoint grants (ip : string) (ops : list rl_op) (answers : list (option bool)) : Z :=
  match ops, answers with
  | RLAllow c :: ops', Some true :: l =>
      (if decide (rc_ip c = ip) then 1 else 0) + grants ip ops' l
  | _ :: ops', _ :: l => grants ip ops' l
  | _, _ => 0
  end.

(** The tokens a client has at hand. *)
Definition at_hand (rl : RateLimiter) (ip : string) : Z :=
  match rl_buckets rl !! ip with Some b => Z.max 0 (bk_tokens b) | None => 0 end.

Lemma at_hand_nonneg rl ip : 0 ≤ at_hand rl ip.
Proof. unfold at_hand. case_match; lia. Qed.

(** Tokens fit their type and never exceed the burst. *)
Definition rl_inv (rl : RateLimiter) : Prop :=
  is_int64 (rl_burst rl) ∧
  map_Forall (λ _ b, min_int64 ≤ bk_tokens b ≤ rl_burst rl) (rl_buckets rl).

Lemma f64_to_int64_range f : is_int64 (f64_to_int64 f).
Proof.
  unfold is_int64, f64_to_int64. destruct f; try (unfold min_int64, max_int64; lia).
  case_decide; [done|]. unfold min_int64, max_int64; lia.
Qed.

Lemma refilled_tokens_le burst cur refill :
  min_int64 ≤ cur ≤ burst → 0 < refill → is_int64 burst →
  refilled_tokens burst cur refill ≤ burst ∧
  refilled_tokens burst cur refill ≤ cur + refill ∧
  min_int64 ≤ refilled_tokens burst cur refill.
Proof.
  intros Hc Hr Hb. unfold refilled_tokens.
  pose proof (wrap64_range (cur + refill)) as Hw.
  assert (wrap64 (cur + refill) ≤ cur + refill) as Hle.
  { unfold wrap64, is_int64, min_int64, max_int64 in *.
    pose proof (Z.div_pos (cur + refill + 2 ^ 63) (2 ^ 64) ltac:(lia) ltac:(lia)).
    pose proof (Z.div_mod (cur + refill + 2 ^ 63) (2 ^ 64) ltac:(lia)). lia. }
  unfold is_int64 in *. case_decide; lia.
Qed.

Lemma bucket_at_inv rl ip now :
  rl_inv rl → min_int64 ≤ bk_tokens (bucket_at rl ip now) ≤ rl_burst rl.
Proof.
  intros [Hb Hm]. unfold bucket_at. destruct (rl_buckets rl !! ip) as [b|] eqn:E; simpl.
  - apply (Hm _ _ E).
  - unfold is_int64 in Hb. lia.
Qed.

Lemma available_bounds rl c :
  rl_inv rl → min_int64 ≤ available rl c ≤ rl_burst rl ∧
  available rl c ≤ bk_tokens (bucket_at rl (rc_ip c) (rc_t1 c)) + Z.max 0 (earned rl c).
Proof.
  intros Hinv. pose proof (bucket_at_inv rl (rc_ip c) (rc_t1 c) Hinv) as Hb. unfold available.
  case_decide as Hr; [|lia].
  destruct (refilled_tokens_le _ _ _ Hb Hr ltac:(apply Hinv)) as (? & ? & ?). lia.
Qed.

Lemma rl_step_inv o rl :
  rl_inv rl → rl_inv (rl_step o rl).2 ∧ rl_burst (rl_step o rl).2 = rl_burst rl.
Proof.
  intros Hinv. destruct o as [c|i now]; unfold rl_step.
  - rewrite Allow_step. cbn [fst snd]. split; [|done].
    destruct Hinv as [Hb Hm]. split; [done|]. simpl. apply map_Forall_insert_2; [|done]. simpl.
    destruct (available_bounds rl c (conj Hb Hm)) as [? _].
    unfold is_int64 in Hb. case_decide; [|lia].
    rewrite wrap64_id by (unfold is_int64, min_int64, max_int64 in *; lia).
    unfold min_int64 in *. lia.
  - split; [|done]. destruct Hinv as [Hb Hm]. split; [done|]. simpl.
    intros ip b [Hlk _]%map_lookup_filter_Some. by apply (Hm ip).
Qed.

Lemma rl_step_at_hand o rl ip :
  rl_inv rl →
  grants ip [o] [(rl_step o rl).1] + at_hand (rl_step o rl).2 ip ≤
    at_hand rl ip + op_budget ip o rl.
Proof.
  intros Hinv. destruct o as [c|i now]; cbn [op_budget]; unfold rl_step.
  - rewrite Allow_step. cbn [fst snd]. unfold at_hand at 1. cbn [set_bucket rl_buckets].
    destruct (available_bounds rl c Hinv) as [Ha Hle].
    destruct (decide (rc_ip c = ip)) as [<-|Hne].
    + rewrite lookup_insert_eq. cbn [bk_tokens].
      assert (Z.max 0 (bk_tokens (bucket_at rl (rc_ip c) (rc_t1 c))) ≤ at_hand rl (rc_ip c) +
        (if decide (is_Some (rl_buckets rl !! rc_ip c)) then 0 else Z.max 0 (rl_burst rl))) as Hb.
      { unfold bucket_at, at_hand. destruct (rl_buckets rl !! rc_ip c) as [b|]; simpl; lia. }
      cbn [grants]. pose proof (proj1 Hinv) as Hi. unfold is_int64 in Hi.
      destruct (decide (0 < available rl c)) as [Hp|Hp].
      * rewrite bool_decide_eq_true_2, decide_True by done.
        rewrite wrap64_id by (unfold is_int64, min_int64, max_int64 in *; lia). lia.
      * rewrite bool_decide_eq_false_2 by done. lia.
    + rewrite lookup_insert_ne by done. fold (at_hand rl ip). cbn [grants].
      rewrite (decide_False (P := rc_ip c = ip)) by done.
      destruct (bool_decide (0 < available rl c)); lia.
  - cbn [fst snd grants]. unfold at_hand. cbn [RateLimiter_cleanup rl_buckets].
    destruct (filter _ (rl_buckets rl) !! ip) as [b|] eqn:E.
    + apply map_lookup_filter_Some in E as [-> _]. lia.
    + destruct (rl_buckets rl !! ip); lia.
Qed.

Lemma grants_cons ip o ops a l :
  grants ip (o :: ops) (a :: l) = grants ip [o] [a] + grants ip ops l.
Proof. destruct o as [c|]; simpl; [|lia]. destruct a as [[]|]; simpl; lia. Qed.

(** *** Time *)

(** The readings of the clock do not go back, from [now] on, and cleanups are
    those of a loop with the given interval. *)
Fixpoint clocked (interval : Duration) (now : Time) (ops : list rl_op) : Prop :=
  match ops with
  | [] => True
  | RLAllow c :: ops' => now ≤ rc_t1 c ≤ rc_t2 c ∧ clocked interval (rc_t2 c) ops'
  | RLCleanup i t :: ops' => i = interval ∧ now ≤ t ∧ clocked interval t ops'
  end.

(** The last reading. *)
Definition op_time (o : rl_op) : Time := match o with RLAllow c => rc_t2 c | RLCleanup _ t => t end.
Fixpoint clock_end (now : Time) (ops : list rl_op) : Time :=
  match ops with [] => now | o :: ops' => clock_end (op_time o) ops' end.

Lemma clock_end_ge i now ops : clocked i now ops → now ≤ clock_end now ops.
Proof.
  revert now. induction ops as [|[c|j t] ops IH]; intros now; cbn [clocked clock_end op_time]; [lia|..].
  - intros [? H]. specialize (IH _ H). lia.
  - intros (? & ? & H). specialize (IH _ H). lia.
Qed.

(** The bucket was refilled at a time the clock has passed. *)
Definition refilled_by (rl : RateLimiter) (ip : string) (now : Time) : Prop :=
  ∀ b, rl_buckets rl !! ip = Some b → 0 ≤ bk_lastRefill b ≤ now - unix_epoch.

Definition in_unix_range (t : Time) : Prop := unix_epoch ≤ t ≤ unix_epoch + max_int64.

Lemma UnixNano_in_range t : in_unix_range t → Time_UnixNano t = t - unix_epoch.
Proof. unfold in_unix_range. intros. unfold Time_UnixNano. apply wrap64_id. unfold is_int64, min_int64. lia. Qed.

Section rate.
Variables (rate : float64) (burst : Z) (interval : Duration).
Hypothesis Hinterval : 0 < interval ≤ max_int64.

(** What a nanosecond is worth: the rate, and a burst per interval of cleanup. *)
Definition worth : Q :=
  slack * (/ inject_Z Second) * f64_pos rate + inject_Z (Z.max 0 burst) * / inject_Z interval.

Lemma worth_parts :
  (0 <= slack * (/ inject_Z Second) * f64_pos rate)%Q ∧ (0 <= inject_Z (Z.max 0 burst) * / inject_Z interval)%Q ∧
  (inject_Z (Z.max 0 burst) * / inject_Z interval * inject_Z interval == inject_Z (Z.max 0 burst))%Q.
Proof.
  assert (0 < inject_Z interval)%Q as Hi by (change 0%Q with (inject_Z 0); rewrite <- Zlt_Qlt; lia).
  split_and!.
  - apply Qmult_le_0_compat; [done|apply f64_pos_nonneg].
  - apply Qmult_le_0_compat; [rewrite <- (Zle_Qle 0); lia|]. by apply Qlt_le_weak, Qinv_lt_0_compat.
  - field. lra.
Qed.

Lemma refill_worth d : 0 ≤ d → (inject_Z (Z.max 0 (refill_amount rate d)) <= worth * inject_Z d)%Q.
Proof.
  intros Hd. destruct worth_parts as (H1 & H2 & _). pose proof (scaled_upper rate d Hd) as Hu.
  assert (0 <= inject_Z d)%Q as H0 by (by rewrite <- (Zle_Qle 0)).
  assert (inject_Z (Z.max 0 (refill_amount rate d)) <= slack * / inject_Z Second * f64_pos rate * inject_Z d)%Q as Hr.
  { destruct (Z.max_spec 0 (refill_amount rate d)) as [[_ ->]|[_ ->]].
    - eapply Qle_trans; [exact Hu|]. apply Qle_lteq. right. unfold Qdiv. ring.
    - by apply Qmult_le_0_compat. }
  eapply Qle_trans; [exact Hr|]. apply Qmult_le_compat_r; [|exact H0]. unfold worth. lra.
Qed.

(** What the client may still spend until [last], without what it has. *)
Definition prospect (rl : RateLimiter) (ip : string) (now last : Time) : Q :=
  match rl_buckets rl !! ip with
  | Some b => worth * inject_Z (last - unix_epoch - bk_lastRefill b)
  | None => inject_Z (Z.max 0 burst) + worth * inject_Z (last - now)
  end.

Lemma worth_le x y : x ≤ y → (worth * inject_Z x <= worth * inject_Z y)%Q.
Proof.
  intros H. destruct worth_parts as (H1 & H2 & _). rewrite !(Qmult_comm worth).
  apply Qmult_le_compat_r; [by rewrite <- Zle_Qle|]. unfold worth. lra.
Qed.

Lemma worth_add x y : (worth * inject_Z (x + y) == worth * inject_Z x + worth * inject_Z y)%Q.
Proof. rewrite inject_Z_plus. ring. Qed.

Lemma worth_interval x : interval ≤ x → (inject_Z (Z.max 0 burst) <= worth * inject_Z x)%Q.
Proof.
  intros H. destruct worth_parts as (H1 & _ & H3). eapply Qle_trans; [|by apply worth_le].
  rewrite <- H3 at 1. apply Qmult_le_compat_r; [unfold worth; lra|]. rewrite <- (Zle_Qle 0). lia.
Qed.

(** A call by the client. *)
Lemma prospect_own c rl now last :
  rl_rate rl = rate → rl_burst rl = burst → refilled_by rl (rc_ip c) now → in_unix_range now → in_unix_range last →
  now ≤ rc_t1 c ≤ rc_t2 c → rc_t2 c ≤ last →
  (inject_Z (op_budget (rc_ip c) (RLAllow c) rl) + worth * inject_Z (last - rc_t2 c) <= prospect rl (rc_ip c) now last)%Q.
Proof.
  intros Hr Hb Hf Hn Hl Ht Hle. unfold op_budget, prospect. rewrite decide_True by done.
  unfold earned, bucket_at. rewrite Hr, Hb. rewrite (UnixNano_in_range (rc_t2 c)) by (unfold in_unix_range in *; lia).
  destruct (rl_buckets rl !! rc_ip c) as [b|] eqn:E; cbn [default from_option id bk_lastRefill].
  - rewrite decide_True by done. specialize (Hf b E).
    rewrite wrap64_id by (unfold is_int64, in_unix_range, min_int64 in *; lia). rewrite Z.add_0_l.
    pose proof (refill_worth (rc_t2 c - unix_epoch - bk_lastRefill b) ltac:(lia)) as Hw.
    replace (last - unix_epoch - bk_lastRefill b) with (rc_t2 c - unix_epoch - bk_lastRefill b + (last - rc_t2 c)) by lia.
    rewrite worth_add. lra.
  - rewrite decide_False by (intros [? ?]; discriminate).
    rewrite (UnixNano_in_range (rc_t1 c)) by (unfold in_unix_range in *; lia).
    rewrite wrap64_id by (unfold is_int64, in_unix_range, min_int64 in *; lia).
    pose proof (refill_worth (rc_t2 c - unix_epoch - (rc_t1 c - unix_epoch)) ltac:(lia)) as Hw.
    pose proof (worth_le (rc_t2 c - unix_epoch - (rc_t1 c - unix_epoch) + (last - rc_t2 c)) (last - now) ltac:(lia)) as Hx.
    rewrite worth_add in Hx. rewrite inject_Z_plus. lra.
Qed.

(** No operation raises what the client has and may still spend. *)
Lemma rl_step_prospect o rl ip now last :
  rl_inv rl → rl_rate rl = rate → rl_burst rl = burst → refilled_by rl ip now → in_unix_range now → in_unix_range last →
  clocked interval now [o] → op_time o ≤ last →
  refilled_by (rl_step o rl).2 ip (op_time o) ∧
  (inject_Z (grants ip [o] [(rl_step o rl).1] + at_hand (rl_step o rl).2 ip) + prospect (rl_step o rl).2 ip (op_time o) last <=
    inject_Z (at_hand rl ip) + prospect rl ip now last)%Q.
Proof.
  intros Hinv Hr Hb Hf Hn Hl Hc Hle. pose proof (rl_step_at_hand o rl ip Hinv) as Hs.
  rewrite Zle_Qle, (inject_Z_plus (at_hand rl ip)) in Hs. destruct o as [c|i t]; cbn [clocked op_time] in *.
  - destruct Hc as [Ht _]. destruct (decide (rc_ip c = ip)) as [<-|Hne].
    + pose proof (prospect_own c rl now last Hr Hb Hf Hn Hl Ht Hle) as Hp.
      assert (rl_buckets (rl_step (RLAllow c) rl).2 !! rc_ip c = Some (mkBucket
        (if decide (0 < available rl c) then wrap64 (available rl c - 1) else available rl c) (Time_UnixNano (rc_t2 c)))) as E.
      { unfold rl_step. rewrite Allow_step. cbn. apply lookup_insert_eq. }
      rewrite UnixNano_in_range in E by (unfold in_unix_range in *; lia). split.
      * intros b Eb. rewrite E in Eb. injection Eb as <-. cbn [bk_lastRefill]. unfold in_unix_range in *. lia.
      * unfold prospect at 1. rewrite E. cbn [bk_lastRefill].
        replace (last - unix_epoch - (rc_t2 c - unix_epoch)) with (last - rc_t2 c) by lia. lra.
    + assert (rl_buckets (rl_step (RLAllow c) rl).2 !! ip = rl_buckets rl !! ip) as E.
      { unfold rl_step. rewrite Allow_step. cbn. by rewrite lookup_insert_ne. }
      split; [intros b Eb; rewrite E in Eb; specialize (Hf b Eb); lia|].
      unfold op_budget in Hs. rewrite decide_False in Hs by done. change (inject_Z 0) with 0%Q in Hs. unfold prospect. rewrite E.
      destruct (rl_buckets rl !! ip); [lra|]. pose proof (worth_le (last - rc_t2 c) (last - now) ltac:(lia)). lra.
  - destruct Hc as (-> & Ht & _). unfold op_budget in Hs. change (inject_Z 0) with 0%Q in Hs.
    cbn [rl_step fst snd] in *. unfold prospect, refilled_by in *. cbn [RateLimiter_cleanup rl_buckets] in *.
    destruct (filter _ (rl_buckets rl) !! ip) as [b|] eqn:E.
    + apply map_lookup_filter_Some in E as [E _]. rewrite E. split; [|lra]. intros b' [= <-]. specialize (Hf b E). lia.
    + split; [done|]. destruct (rl_buckets rl !! ip) as [b|] eqn:E2.
      2: { pose proof (worth_le (last - t) (last - now) ltac:(lia)). lra. }
      apply map_lookup_filter_None in E as [E|E]; [congruence|]. specialize (E b E2). specialize (Hf b eq_refl). cbn in E.
      apply dec_stable in E. unfold Time_Add, Time_UnixNano in E.
      rewrite wrap64_id in E by (unfold is_int64, in_unix_range, min_int64, max_int64 in *; lia).
      pose proof (worth_interval (t - unix_epoch - bk_lastRefill b) ltac:(lia)) as Hw.
      replace (last - unix_epoch - bk_lastRefill b) with (t - unix_epoch - bk_lastRefill b + (last - t)) by lia.
      rewrite worth_add. lra.
Qed.

Lemma rl_step_same o rl : rl_rate (rl_step o rl).2 = rl_rate rl ∧ rl_burst (rl_step o rl).2 = rl_burst rl.
Proof. destruct o as [c|i t]; unfold rl_step; [rewrite Allow_step|]; done. Qed.

Lemma clock_end_range ops now :
  in_unix_range now → clocked interval now ops → in_unix_range (clock_end now ops) →
  match ops with
  | o :: ops' => clocked interval now [o] ∧ in_unix_range (op_time o) ∧ clocked interval (op_time o) ops' ∧
      op_time o ≤ clock_end now ops
  | [] => True
  end.
Proof.
  intros Hn Hc Hl. destruct ops as [|o ops]; [done|]. cbn [clock_end] in *.
  destruct o as [c|i t]; cbn [clocked op_time] in *; destruct Hc as (? & Hc); [|destruct Hc as (? & Hc)];
    pose proof (clock_end_ge _ _ _ Hc); unfold in_unix_range in *; split_and!; (done || lia).
Qed.

Lemma prospect_nonneg rl ip now last :
  refilled_by rl ip now → now ≤ last → (0 <= prospect rl ip now last)%Q.
Proof.
  intros Hf Hle. assert (worth * inject_Z 0 == 0)%Q as H0 by ring. unfold prospect.
  destruct (rl_buckets rl !! ip) as [b|] eqn:E.
  - specialize (Hf b E). pose proof (worth_le 0 (last - unix_epoch - bk_lastRefill b) ltac:(lia)). lra.
  - pose proof (worth_le 0 (last - now) ltac:(lia)). assert (0 <= inject_Z (Z.max 0 burst))%Q by (rewrite <- (Zle_Qle 0); lia). lra.
Qed.

Lemma rl_run_prospect ip ops now rl :
  rl_inv rl → rl_rate rl = rate → rl_burst rl = burst → refilled_by rl ip now → in_unix_range now →
  clocked interval now ops → in_unix_range (clock_end now ops) →
  ∃ l rl', rl_run ops rl = (Ret l, rl') ∧ rl_inv rl' ∧
    (inject_Z (grants ip ops l) <= inject_Z (at_hand rl ip) + prospect rl ip now (clock_end now ops))%Q.
Proof.
  revert now rl. induction ops as [|o ops IH]; intros now rl Hinv Hr Hb Hf Hn Hc Hl.
  - exists [], rl. split_and!; [done|done|]. cbn [grants clock_end].
    pose proof (prospect_nonneg rl ip now now Hf ltac:(lia)). pose proof (at_hand_nonneg rl ip) as Ha.
    rewrite Zle_Qle in Ha. change (inject_Z 0) with 0%Q in *. lra.
  - destruct (clock_end_range (o :: ops) now Hn Hc Hl) as (Hc1 & Hn' & Hc' & Hle). cbn [clock_end] in *.
    destruct (rl_run_cons o ops rl) as (a & rl1 & E & ->).
    destruct (rl_step_inv o rl Hinv) as [H1 _]. destruct (rl_step_same o rl) as [Hr1 Hb1].
    destruct (rl_step_prospect o rl ip now (clock_end (op_time o) ops)) as [Hf1 Hs]; try done.
    rewrite E in *. cbn [fst snd] in *.
    destruct (IH (op_time o) rl1) as (l & rl2 & -> & H2 & Hg); try congruence; try done.
    exists (a :: l), rl2. split_and!; [done|done|]. rewrite grants_cons. rewrite inject_Z_plus in *. lra.
Qed.
End rate.

(** C38. The limiter enforces its rate: over any sequence of calls by any
    clients and any rounds of its cleanup, on a clock that does not go back and
    stays within the years that [UnixNano] can express, no call panics, the
    tokens of every bucket stay at most the burst, and over a period of [T]
    nanoseconds a client is let through at most [rate * T] times, up to the
    rounding of the floats (one part in [2 ^ 50]), plus one burst at the start
    and one burst per [interval] of the cleanup, which may forget a client that
    was idle for that long.  A rate that is not a positive number grants
    nothing beyond the bursts. *)
Theorem RateLimiter_budget ip rate burst interval t0 ops :
  is_int64 burst → 0 < interval ≤ max_int64 →
  clocked interval t0 ops → unix_epoch ≤ t0 → clock_end t0 ops ≤ unix_epoch + max_int64 →
  let T := inject_Z (clock_end t0 ops - t0) in
  ∃ l rl, rl_run ops (NewRateLimiter rate burst) = (Ret l, rl) ∧
    map_Forall (λ _ b, bk_tokens b ≤ rl_burst rl) (rl_buckets rl) ∧
    (inject_Z (grants ip ops l) <=
      inject_Z (Z.max 0 burst) * (1 + T / inject_Z interval) + slack * (T / inject_Z Second) * f64_pos rate)%Q.
Proof.
  intros Hb Hi Hc H0 Hl T. pose proof (clock_end_ge _ _ _ Hc) as Hge.
  destruct (rl_run_prospect rate burst interval Hi ip ops t0 (NewRateLimiter rate burst)) as (l & rl & E & H & Hg); try done.
  - unfold in_unix_range. lia.
  - unfold in_unix_range. lia.
  - exists l, rl. split; [done|]. split; [intros i b E1; apply (proj2 H i b E1)|].
    eapply Qle_trans; [exact Hg|]. apply Qle_lteq. right.
    unfold prospect, worth, at_hand, NewRateLimiter, Qdiv. cbn [rl_buckets]. rewrite lookup_empty. fold T.
    change (inject_Z 0) with 0%Q. ring.
Qed.

(** ** Starvation *)

(** Calls of one client, each too soon after the previous one to earn a token. *)
Fixpoint too_soon (rate : float64) (last : Z) (cs : list rcall) : Prop :=
  match cs with
  | [] => True
  | c :: cs' =>
      refill_amount rate (wrap64 (Time_UnixNano (rc_t2 c) - last)) ≤ 0 ∧
      too_soon rate (Time_UnixNano (rc_t2 c)) cs'
  end.

Lemma rl_run_starved ip rate burst n last cs rl :
  Forall (λ c, rc_ip c = ip) cs → too_soon rate last cs →
  rl_rate rl = rate → rl_burst rl = burst → Z.of_nat n ≤ max_int64 →
  rl_buckets rl !! ip = Some (mkBucket (Z.of_nat n) last) →
  ∃ rl', rl_run (RLAllow <$> cs) rl =
    (Ret (replicate (min n (length cs)) (Some true) ++
          replicate (length cs - n) (Some false)), rl').
Proof.
  intros Hip. revert n last rl. induction Hip as [|c cs Hc _ IH]; intros n last rl Hs Hr Hb Hn Hl.
  - rewrite Nat.min_0_r. by exists rl.
  - destruct Hs as [Hs0 Hs]. rewrite fmap_cons.
    destruct (rl_run_cons (RLAllow c) (RLAllow <$> cs) rl) as (a & rl1 & E & ->).
    unfold rl_step in E. rewrite Allow_step in E. cbn [fst snd] in E.
    assert (available rl c = Z.of_nat n) as Ha.
    { unfold available, earned, bucket_at. rewrite Hc, Hl, Hr. simpl.
      by rewrite decide_False by lia. }
    rewrite Ha, Hc in E. simplify_eq/=. destruct n as [|n].
    + rewrite bool_decide_eq_false_2, decide_False by lia. simpl.
      destruct (IH 0%nat (Time_UnixNano (rc_t2 c))
        (set_bucket (rc_ip c) (mkBucket 0 (Time_UnixNano (rc_t2 c))) rl)) as [rl' E'];
        try done; [by simpl; rewrite lookup_insert_eq|].
      simpl in E'. rewrite Nat.sub_0_r in E'. exists rl'. change (Z.of_nat 0) with 0. by rewrite E'.
    + rewrite bool_decide_eq_true_2, decide_True by lia.
      rewrite wrap64_id by (unfold is_int64, min_int64; lia).
      replace (Z.of_nat (S n) - 1) with (Z.of_nat n) by lia.
      destruct (IH n (Time_UnixNano (rc_t2 c))
        (set_bucket (rc_ip c) (mkBucket (Z.of_nat n) (Time_UnixNano (rc_t2 c))) rl)) as [rl' E'];
        try done; [lia|by simpl; rewrite lookup_insert_eq|].
      exists rl'. by rewrite E'.
Qed.

(** A steady client is starved: the clock of the last refill moves forward
    at every call even when no whole token was earned, so a client whose calls
    each come too soon to earn one gets the initial burst and is then refused
    for ever, whatever the configured rate would have granted over the whole
    period. *)
Theorem RateLimiter_starves ip rate n c cs :
  Z.of_nat n ≤ max_int64 →
  Forall (λ c, rc_ip c = ip) (c :: cs) →
  too_soon rate (Time_UnixNano (rc_t1 c)) (c :: cs) →
  ∃ rl', rl_run (RLAllow <$> c :: cs) (NewRateLimiter rate (Z.of_nat n)) =
    (Ret (replicate (min n (length (c :: cs))) (Some true) ++
          replicate (length (c :: cs) - n) (Some false)), rl').
Proof.
  intros Hn Hip Hs.
  destruct (rl_run_starved ip rate (Z.of_nat n) n (Time_UnixNano (rc_t1 c)) (c :: cs)
    (set_bucket ip (mkBucket (Z.of_nat n) (Time_UnixNano (rc_t1 c)))
       (NewRateLimiter rate (Z.of_nat n)))) as [rl' E]; try done.
  - simpl. by rewrite lookup_insert_eq.
  - exists rl'. rewrite <- E. rewrite fmap_cons. apply Forall_cons in Hip as [Hc _].
    cbn [rl_run]. unfold mbind, M_bind. rewrite !Allow_step.
    unfold available, earned, bucket_at. rewrite Hc. cbn [set_bucket rl_buckets NewRateLimiter].
    rewrite lookup_insert_eq, lookup_empty. cbn [default rl_rate rl_burst].
    unfold set_bucket. cbn [rl_rate rl_burst rl_buckets]. by rewrite insert_insert_eq.
Qed.

(** ** Interleavings *)

(** The stores of a refill along a schedule. *)
Fixpoint stores (rate : float64) (burst : Z) (sched : list (nat * Z)) (c : rconf) : Z :=
  match sched with
  | [] => 0
  | s :: sched' =>
      (match rc_pcs c !! s.1 with Some (RStore _) => 1 | _ => 0 end) +
      stores rate burst sched' (rstep rate burst s c)
  end.

(** What a goroutine holds in its local variables. *)
Definition rpc_ok (burst : Z) (p : rpc) : Prop :=
  match p with
  | RStore v => v ≤ burst
  | RCas cur => 0 < cur ≤ burst
  | _ => True
  end.

Definition rconf_ok (burst : Z) (c : rconf) : Prop :=
  bk_tokens (rc_bucket c) ≤ burst ∧ Forall (rpc_ok burst) (rc_pcs c).

Lemma rstep_ok rate burst s c :
  0 ≤ burst ≤ max_int64 → rconf_ok burst c →
  let c' := rstep rate burst s c in
  rconf_ok burst c' ∧
  ∀ A, Z.of_nat (admitted c) + Z.max 0 (bk_tokens (rc_bucket c)) ≤ A →
    Z.of_nat (admitted c') + Z.max 0 (bk_tokens (rc_bucket c')) ≤
      A + burst * stores rate burst [s] c.
Proof.
  intros Hb [Ht Hpcs]. unfold rstep. cbn [stores].
  destruct (rc_pcs c !! s.1) as [p|] eqn:Ep; [|split; [done|intros; lia]].
  pose proof (Forall_lookup_1 _ _ _ _ Hpcs Ep) as Hp.
  destruct (rpc_step rate burst s.2 (rc_bucket c) p) as [b p'] eqn:E.
  assert (bk_tokens b ≤ burst ∧ rpc_ok burst p' ∧
    (if decide (p' = RDone true) then 1 else 0) + Z.max 0 (bk_tokens b) ≤
    (if decide (p = RDone true) then 1 else 0) + Z.max 0 (bk_tokens (rc_bucket c)) +
    burst * (match p with RStore _ => 1 | _ => 0 end)) as (H1 & H2 & H3).
  { destruct p; simpl in E, Hp; repeat case_decide; simplify_eq/=; split_and!; try done; try lia;
      unfold refilled_tokens, min_int64, max_int64 in *; repeat case_decide; simpl; try done; try lia;
      rewrite wrap64_id by (unfold is_int64, min_int64, max_int64; lia); lia. }
  split.
  - split; cbn [rc_bucket rc_pcs]; [exact H1|by apply Forall_insert].
  - intros A HA. unfold admitted in *. cbn [rc_pcs rc_bucket].
    pose proof (occ_insert (RDone true) p p' (rc_pcs c) s.1 Ep) as Ho.
    destruct (decide (p = RDone true)), (decide (p' = RDone true)); lia.
Qed.

Lemma stores_cons rate burst s sched c :
  stores rate burst (s :: sched) c =
    stores rate burst [s] c + stores rate burst sched (rstep rate burst s c).
Proof. cbn [stores]. lia. Qed.

Lemma rrun_ok rate burst sched c A :
  0 ≤ burst ≤ max_int64 → rconf_ok burst c →
  Z.of_nat (admitted c) + Z.max 0 (bk_tokens (rc_bucket c)) ≤ A →
  rconf_ok burst (rrun rate burst sched c) ∧
  Z.of_nat (admitted (rrun rate burst sched c)) ≤ A + burst * stores rate burst sched c.
Proof.
  intros Hb. revert c A. induction sched as [|s sched IH]; intros c A Hc HA.
  - simpl. split; [done|]. lia.
  - destruct (rstep_ok rate burst s c Hb Hc) as [Hc' Ha].
    destruct (IH _ _ Hc' (Ha A HA)) as [H1 H2]. split; [exact H1|].
    rewrite stores_cons, Z.mul_add_distr_l. unfold rrun in *. cbn [foldl]. lia.
Qed.

(** Under every interleaving of the atomic operations of any number of
    concurrent [Allow]s on a bucket, the bucket never holds more than the burst
    and at most one burst per refill stored, plus the initial one, is let
    through. *)
Theorem RateLimiter_conc_bounded rate burst n t sched :
  0 ≤ burst ≤ max_int64 →
  let c := rrun rate burst sched (rinitial burst n t) in
  bk_tokens (rc_bucket c) ≤ burst ∧
  Z.of_nat (admitted c) ≤ burst * (1 + stores rate burst sched (rinitial burst n t)).
Proof.
  intros Hb c. destruct (rrun_ok rate burst sched (rinitial burst n t) burst Hb) as [[H _] Ha].
  - split; simpl; [lia|]. by apply Forall_replicate.
  - unfold admitted, rinitial. simpl.
    rewrite (occ_not_elem _ (replicate _ _)); [lia|]. by intros [? ?]%elem_of_replicate.
  - split; [exact H|]. rewrite Z.mul_add_distr_l, Z.mul_1_r. exact Ha.
Qed.

(** *** A lost update *)

(** Lets the goroutines [i], ..., [i + k - 1] run to their end in turn. *)
Definition drive (i k : nat) (now : Z) : list (nat * Z) :=
  flat_map (λ j, [(j, now); (j, now); (j, now)]) (seq i k).

Lemma rrun_app rate burst s1 s2 c :
  rrun rate burst (s1 ++ s2) c = rrun rate burst s2 (rrun rate burst s1 c).
Proof. apply foldl_app. Qed.

Lemma rstep_at rate burst i now b l1 p l2 :
  i = length l1 →
  rstep rate burst (i, now) (mkRconf b (l1 ++ p :: l2)) =
    let '(b', p') := rpc_step rate burst now b p in mkRconf b' (l1 ++ p' :: l2).
Proof.
  intros ->. unfold rstep. cbn [fst snd rc_pcs rc_bucket].
  rewrite list_lookup_middle by done. destruct (rpc_step rate burst now b p) as [b' p'].
  rewrite insert_app_r_alt by lia. by rewrite Nat.sub_diag.
Qed.

Lemma rstep_head rate burst now b p l :
  rstep rate burst (0%nat, now) (mkRconf b (p :: l)) =
    let '(b', p') := rpc_step rate burst now b p in mkRconf b' (p' :: l).
Proof. by apply (rstep_at rate burst 0 now b []). Qed.

Lemma rrun_cons rate burst s sched c :
  rrun rate burst (s :: sched) c = rrun rate burst sched (rstep rate burst s c).
Proof. done. Qed.

Lemma rrun_drive rate burst k m now l1 l2 :
  refill_amount rate 0 ≤ 0 → Z.of_nat (k + m) ≤ max_int64 →
  rrun rate burst (drive (length l1) k now)
    (mkRconf (mkBucket (Z.of_nat (k + m)) now) (l1 ++ replicate k RSwap ++ l2)) =
  mkRconf (mkBucket (Z.of_nat m) now) (l1 ++ replicate k (RDone true) ++ l2).
Proof.
  intros Hr. revert l1. induction k as [|k IH]; intros l1 Hm; [done|].
  unfold drive. cbn [seq flat_map replicate]. rewrite rrun_app.
  unfold rrun at 2. cbn [foldl]. cbn [app].
  rewrite rstep_at by done. cbn [rpc_step bk_lastRefill bk_tokens].
  rewrite Z.sub_diag. change (wrap64 0) with 0. rewrite decide_False by lia.
  rewrite rstep_at by done. cbn [rpc_step bk_lastRefill bk_tokens]. rewrite decide_False by lia.
  rewrite rstep_at by done. cbn [rpc_step bk_lastRefill bk_tokens]. rewrite decide_True by done.
  rewrite wrap64_id by (unfold is_int64, min_int64; lia).
  specialize (IH (l1 ++ [RDone true])). rewrite length_app in IH. cbn [length] in IH.
  rewrite Nat.add_1_r, <- !app_assoc in IH. cbn [app] in IH.
  replace (Z.of_nat (S k + m) - 1) with (Z.of_nat (k + m)) by lia.
  apply IH. lia.
Qed.

(** Refilling loses concurrent withdrawals: the tokens are read and written
    back in two operations, so a goroutine that earned a single refill can put
    back a full bucket after [n] others emptied it, and twice the burst is let
    through at one instant. *)
Theorem RateLimiter_conc_overspends rate n t now :
  (0 < n)%nat → 0 < refill_amount rate (wrap64 (now - t)) → refill_amount rate 0 ≤ 0 →
  Z.of_nat n + refill_amount rate (wrap64 (now - t)) ≤ max_int64 →
  let sched := [(0%nat, now); (0%nat, now)] ++ drive 1 n now ++
    [(0%nat, now); (0%nat, now); (0%nat, now)] ++ drive (S n) (n - 1) now in
  admitted (rrun rate (Z.of_nat n) sched (rinitial (Z.of_nat n) (n + n) t)) = (n + n)%nat.
Proof.
  intros Hn Hpos H0 Hmax. cbv zeta. destruct n as [|m]; [lia|]. set (n := S m) in *.
  unfold rinitial. replace (n + n)%nat with (S (n + m)) by lia.
  rewrite replicate_S, replicate_add.
  cbn [app]. rewrite !rrun_cons, rstep_head. cbn [rpc_step bk_lastRefill bk_tokens].
  rewrite decide_True by done.
  rewrite rstep_head. cbn [rpc_step bk_lastRefill bk_tokens].
  set (r := refill_amount rate (wrap64 (now - t))) in *.
  assert (refilled_tokens (Z.of_nat n) (Z.of_nat n) r = Z.of_nat n) as Hf.
  { unfold refilled_tokens. rewrite wrap64_id by (unfold is_int64, min_int64; lia).
    by rewrite decide_True by lia. }
  rewrite Hf.
  pose proof (rrun_drive rate (Z.of_nat n) n 0 now [RStore (Z.of_nat n)] (replicate m RSwap) H0
    ltac:(lia)) as E. rewrite Nat.add_0_r in E. cbn [app length] in E. rewrite rrun_app, E. clear E.
  rewrite !rrun_cons, rstep_head. cbn [rpc_step bk_lastRefill bk_tokens].
  rewrite rstep_head. cbn [rpc_step bk_lastRefill bk_tokens]. rewrite decide_False by lia.
  rewrite rstep_head. cbn [rpc_step bk_lastRefill bk_tokens].
  rewrite decide_True by done. rewrite wrap64_id by (unfold is_int64, min_int64; lia).
  replace (Z.of_nat n - 1) with (Z.of_nat (m + 0)) by lia.
  replace (n - 1)%nat with m by lia.
  pose proof (rrun_drive rate (Z.of_nat n) m 0 now (RDone true :: replicate n (RDone true)) [] H0
    ltac:(lia)) as E. cbn [app length] in E. rewrite length_replicate, !app_nil_r in E.
  rewrite E. unfold admitted. cbn [rc_pcs].
  by rewrite occ_cons, occ_app, !occ_replicate, decide_True.
Qed.

(** ** Witnesses *)

Definition at_ms (ip : string) (ms : Z) : rcall :=
  mkCall ip (unix_epoch + ms * Millisecond) (unix_epoch + ms * Millisecond).

Lemma RateLimiter_budget_witness :
  ∃ l rl, rl_run [RLAllow (at_ms "a" 0); RLAllow (at_ms "a" 1); RLAllow (at_ms "b" 2);
      RLCleanup Second (unix_epoch + 2 * Second); RLAllow (at_ms "a" 2500)]
      (NewRateLimiter (f64_of_Z 1) 1) = (Ret l, rl) ∧
    grants "a" [RLAllow (at_ms "a" 0); RLAllow (at_ms "a" 1); RLAllow (at_ms "b" 2);
      RLCleanup Second (unix_epoch + 2 * Second); RLAllow (at_ms "a" 2500)] l < 7.
Proof.
  destruct (RateLimiter_budget "a" (f64_of_Z 1) 1 Second unix_epoch [RLAllow (at_ms "a" 0); RLAllow (at_ms "a" 1);
    RLAllow (at_ms "b" 2); RLCleanup Second (unix_epoch + 2 * Second); RLAllow (at_ms "a" 2500)])
    as (l & rl & H1 & _ & H2).
  - vm_compute; split; discriminate.
  - vm_compute; split; [reflexivity|discriminate].
  - repeat split; vm_compute; discriminate.
  - vm_compute; discriminate.
  - vm_compute; discriminate.
  - exists l, rl. split; [exact H1|]. rewrite Zlt_Qlt. eapply Qle_lt_trans; [exact H2|]. vm_compute. reflexivity.
Defined.

(** One token per second, a call every 900 ms: only the first of five passes. *)
Lemma RateLimiter_starves_witness :
  ∃ rl', rl_run (RLAllow <$> [at_ms "a" 0; at_ms "a" 900; at_ms "a" 1800; at_ms "a" 2700;
      at_ms "a" 3600]) (NewRateLimiter (f64_of_Z 1) 1) =
    (Ret [Some true; Some false; Some false; Some false; Some false], rl').
Proof.
  apply (RateLimiter_starves "a" (f64_of_Z 1) 1 (at_ms "a" 0)
    [at_ms "a" 900; at_ms "a" 1800; at_ms "a" 2700; at_ms "a" 3600]).
  - vm_compute; discriminate.
  - repeat constructor.
  - repeat split; vm_compute; discriminate.
Defined.

Lemma RateLimiter_conc_bounded_witness :
  let c := rrun (f64_of_Z 1) 2 [(0%nat, Second); (1%nat, Second); (0%nat, 0); (0%nat, 0)]
             (rinitial 2 2 0) in
  bk_tokens (rc_bucket c) ≤ 2 ∧ Z.of_nat (admitted c) ≤ 2 * (1 + 1).
Proof.
  apply (RateLimiter_conc_bounded (f64_of_Z 1) 2 2 0
    [(0%nat, Second); (1%nat, Second); (0%nat, 0); (0%nat, 0)]).
  vm_compute; split; discriminate.
Defined.

Lemma RateLimiter_conc_overspends_witness :
  admitted (rrun (f64_of_Z 1) 3 ([(0%nat, Second); (0%nat, Second)] ++ drive 1 3 Second ++
    [(0%nat, Second); (0%nat, Second); (0%nat, Second)] ++ drive 4 2 Second)
    (rinitial 3 6 0)) = 6%nat.
Proof.
  apply (RateLimiter_conc_overspends (f64_of_Z 1) 3 0 Second); try (vm_compute; congruence).
  lia.
Defined.
