(* ===== verification/Trie.v ===== *)
(** The path-prefix trie (internal/routing/trie.go). *)

From S2P Require Export GoString GoHttp.

#[local] Open Scope Z_scope.

(** ** Data *)

(** [children] is never nil: every node is made with an empty map. *)
Inductive trieNode := TrieNode (children : gmap string trieNode) (pool : string).

Definition children (n : trieNode) : gmap string trieNode := let 'TrieNode c _ := n in c.
Definition pool (n : trieNode) : string := let 'TrieNode _ p := n in p.

Record PathTrie := mkPathTrie { root : trieNode }.

Definition emptyNode : trieNode := TrieNode ∅ "".
Definition NewPathTrie : PathTrie := mkPathTrie emptyNode.

(** ** Operations *)

(** The loop of [Add]: walks down, creating the missing nodes, and sets the
    pool of the node it ends on. *)
Fixpoint add_segments (segs : list string) (p : string) (n : trieNode) : trieNode :=
  match segs with
  | [] => TrieNode (children n) p
  | seg :: segs' =>
      if decide (seg = "") then add_segments segs' p n
      else
        let child := default emptyNode (children n !! seg) in
        TrieNode (<[seg := add_segments segs' p child]> (children n)) (pool n)
  end.

Definition PathTrie_Add (prefix p : string) (t : PathTrie) : PathTrie :=
  let prefix := trim slash prefix in
  let segments := split slash prefix in
  mkPathTrie (add_segments segments p (root t)).

(** The loop of [Match], [last_pool] being the deepest pool so far. *)
Fixpoint match_segments (segs : list string) (n : trieNode) (last_pool : string) : string :=
  match segs with
  | [] => last_pool
  | seg :: segs' =>
      if decide (seg = "") then match_segments segs' n last_pool
      else
        match children n !! seg with
        | None => last_pool
        | Some child =>
            match_segments segs' child (if decide (pool child ≠ "") then pool child else last_pool)
        end
  end.

Definition PathTrie_Match (r : Request) (t : PathTrie) : string * bool :=
  let path := trim slash (req_Path r) in
  let segments := split slash path in
  let last_pool := match_segments segments (root t) "" in
  if decide (last_pool ≠ "") then (last_pool, true)
  else if decide (pool (root t) ≠ "") then (pool (root t), true)
  else ("", false).

(** ** Specification: longest registered prefix *)

(** The non-empty segments of a path. *)
Definition segments_of (s : string) : list string := filter (λ seg, seg ≠ "") (split slash s).

(** The rules, as a map from segment lists; a later [Add] replaces an earlier one. *)
Definition rules_of (adds : list (string * string)) : gmap (list string) string :=
  foldl (λ m '(p, pl), <[segments_of p := pl]> m) ∅ adds.

(** The non-empty pool registered for exactly these segments. *)
Definition rule_at (m : gmap (list string) string) (segs : list string) : option string :=
  match m !! segs with Some p => if decide (p = "") then None else Some p | None => None end.

(** The rule of the longest prefix of [segs] among its prefixes of length at
    most [n]. *)
Fixpoint longest_rule (m : gmap (list string) string) (segs : list string) (n : nat) : option string :=
  match rule_at m (take n segs) with
  | Some p => Some p
  | None => match n with O => None | S n' => longest_rule m segs n' end
  end.

(** ** Lemmas on slashes *)

Lemma segments_cons_slash s : segments_of (String slash s) = segments_of s.
Proof.
  unfold segments_of. cbn [split]. rewrite decide_True by done.
  by rewrite filter_cons, decide_False by tauto.
Qed.

Lemma segments_trim_left s : segments_of (trim_left slash s) = segments_of s.
Proof.
  induction s as [|a s IH]; [done|]. simpl. case_decide as Ha; [|done].
  rewrite IH, Ha. by rewrite segments_cons_slash.
Qed.

(** The segments of two paths that differ only in trailing slashes. *)
Lemma split_trim_right s :
  ∃ k, split slash s = split slash (trim_right slash s) ++ replicate k "".
Proof.
  induction s as [|a s [k IH]]; [by exists 0%nat|]. cbn [split trim_right].
  destruct (trim_right slash s) as [|b t] eqn:E.
  - rewrite IH. simpl in *. case_decide.
    + exists (S k). done.
    + exists k. simpl. by rewrite decide_False by done.
  - rewrite IH. cbn [split]. case_decide.
    + exists k. done.
    + exists k. pose proof (split_not_nil slash (String b t)) as Hn. cbn [split] in Hn.
      destruct (if decide (b = slash) then _ else _) as [|h l]; [done|]. done.
Qed.

Lemma segments_trim s : segments_of (trim slash s) = segments_of s.
Proof.
  unfold trim. rewrite <- (segments_trim_left s). generalize (trim_left slash s). intros t.
  unfold segments_of. destruct (split_trim_right t) as [k ->].
  rewrite filter_app. replace (filter _ (replicate k "")) with (@nil string); [by rewrite app_nil_r|].
  symmetry. apply filter_none. apply Forall_replicate. tauto.
Qed.

(** ** The loops skip empty segments *)

Lemma add_segments_filter segs p n :
  add_segments segs p n = add_segments (filter (λ s, s ≠ "") segs) p n.
Proof.
  revert n. induction segs as [|s segs IH]; intros n; [done|].
  rewrite filter_cons. cbn [add_segments]. destruct (decide (s = "")) as [->|Hs].
  - rewrite decide_False by tauto. apply IH.
  - rewrite decide_True by done. cbn [add_segments]. rewrite decide_False by done. by rewrite IH.
Qed.

Lemma match_segments_filter segs n lp :
  match_segments segs n lp = match_segments (filter (λ s, s ≠ "") segs) n lp.
Proof.
  revert n lp. induction segs as [|s segs IH]; intros n lp; [done|].
  rewrite filter_cons. cbn [match_segments]. destruct (decide (s = "")) as [->|Hs].
  - rewrite decide_False by tauto. apply IH.
  - rewrite decide_True by done. cbn [match_segments]. rewrite decide_False by done.
    destruct (children n !! s); [apply IH|done].
Qed.

(** ** The map a trie stands for *)

(** The pool at the end of a path of segments, empty when there is none. *)
Fixpoint pool_at (n : trieNode) (segs : list string) : string :=
  match segs with
  | [] => pool n
  | seg :: segs' => match children n !! seg with Some c => pool_at c segs' | None => "" end
  end.

Lemma pool_at_empty segs : pool_at emptyNode segs = "".
Proof. by destruct segs. Qed.

Lemma pool_at_child n seg segs :
  pool_at (default emptyNode (children n !! seg)) segs = pool_at n (seg :: segs).
Proof. simpl. destruct (children n !! seg); [done|]. apply pool_at_empty. Qed.

Lemma pool_at_add segs p n segs' :
  Forall (λ s, s ≠ "") segs →
  pool_at (add_segments segs p n) segs' = if decide (segs = segs') then p else pool_at n segs'.
Proof.
  intros H. revert n segs'. induction H as [|s segs Hs _ IH]; intros n segs'; simpl.
  - destruct segs' as [|s' segs']; [by rewrite decide_True|]. by rewrite decide_False.
  - rewrite decide_False by done. destruct segs' as [|s' segs']; simpl.
    + go_cases.
    + destruct (decide (s = s')) as [<-|Hne].
      * rewrite lookup_insert_eq, IH, pool_at_child. simpl.
        destruct (decide (segs = segs')) as [->|Hn]; [by rewrite decide_True|].
        by rewrite decide_False by congruence.
      * rewrite lookup_insert_ne by done. by rewrite decide_False by congruence.
Qed.

(** The deepest pool along a path, [lp] when there is none. *)
Fixpoint deepest (n : trieNode) (segs : list string) (lp : string) : string :=
  match segs with
  | [] => lp
  | seg :: segs' =>
      match children n !! seg with
      | None => lp
      | Some c => deepest c segs' (if decide (pool c ≠ "") then pool c else lp)
      end
  end.

Lemma match_segments_deepest segs n lp :
  Forall (λ s, s ≠ "") segs → match_segments segs n lp = deepest n segs lp.
Proof.
  intros H. revert n lp. induction H as [|s segs Hs _ IH]; intros n lp; simpl; [done|].
  rewrite decide_False by done. destruct (children n !! s); [apply IH|done].
Qed.

(** The search over the prefixes of [segs], on the trie. *)
Fixpoint longest_at (n : trieNode) (segs : list string) (k : nat) : option string :=
  match k with
  | O => None
  | S k' => let p := pool_at n (take k segs) in if decide (p ≠ "") then Some p else longest_at n segs k'
  end.

Lemma longest_at_child n seg c segs k :
  children n !! seg = Some c →
  longest_at n (seg :: segs) (S k) =
    match longest_at c segs k with
    | Some p => Some p
    | None => if decide (pool c ≠ "") then Some (pool c) else None
    end.
Proof.
  intros Hc. induction k as [|k IH].
  - simpl. by rewrite Hc.
  - cbn [longest_at take pool_at] in *. rewrite Hc in *. destruct (decide (pool_at c (take (S k) segs) ≠ "")); [done|]. exact IH.
Qed.

Lemma longest_at_none n seg segs k :
  children n !! seg = None → longest_at n (seg :: segs) k = None.
Proof.
  intros Hc. induction k as [|k IH]; [done|]. cbn [longest_at take pool_at]. rewrite Hc.
  by rewrite decide_False by tauto.
Qed.

Lemma deepest_longest n segs lp :
  deepest n segs lp = default lp (longest_at n segs (length segs)).
Proof.
  revert n lp. induction segs as [|s segs IH]; intros n lp; [done|]. cbn [deepest length].
  destruct (children n !! s) as [c|] eqn:E.
  - rewrite (longest_at_child _ _ _ _ _ E), IH.
    destruct (longest_at c segs (length segs)); [done|]. simpl. go_cases.
  - by rewrite longest_at_none.
Qed.

(** ** The trie's properties *)

(** The trie holds the rules of a table. *)
Definition implements (n : trieNode) (m : gmap (list string) string) : Prop :=
  ∀ segs, pool_at n segs = default "" (m !! segs).

Definition add_all (adds : list (string * string)) (t : PathTrie) : PathTrie :=
  foldl (λ t '(p, pl), PathTrie_Add p pl t) t adds.

Lemma segments_of_Forall s : Forall (λ seg, seg ≠ "") (segments_of s).
Proof. unfold segments_of. apply Forall_forall. by intros x [? _]%list_elem_of_filter. Qed.

Lemma Add_implements p pl t m :
  implements (root t) m → implements (root (PathTrie_Add p pl t)) (<[segments_of p := pl]> m).
Proof.
  intros H segs. unfold PathTrie_Add. simpl. rewrite add_segments_filter.
  fold (segments_of (trim slash p)). rewrite segments_trim.
  rewrite pool_at_add by apply segments_of_Forall.
  destruct (decide (segments_of p = segs)) as [<-|Hne].
  - by rewrite lookup_insert_eq.
  - by rewrite lookup_insert_ne.
Qed.

Lemma add_all_implements adds t m :
  implements (root t) m →
  implements (root (add_all adds t)) (foldl (λ m '(p, pl), <[segments_of p := pl]> m) m adds).
Proof.
  revert t m. induction adds as [|[p pl] adds IH]; intros t m H; [done|]. simpl.
  by apply IH, Add_implements.
Qed.

Lemma rule_at_implements n m segs :
  implements n m →
  rule_at m segs = let p := pool_at n segs in if decide (p ≠ "") then Some p else None.
Proof.
  intros H. unfold rule_at. rewrite (H segs). destruct (m !! segs) as [p|]; simpl; go_cases.
Qed.

Lemma longest_rule_implements n m segs k :
  implements n m →
  longest_rule m segs k =
    match longest_at n segs k with
    | Some p => Some p
    | None => if decide (pool n ≠ "") then Some (pool n) else None
    end.
Proof.
  intros H. induction k as [|k IH]; cbn [longest_rule longest_at];
    rewrite (rule_at_implements n m) by done.
  - cbn [take pool_at]. go_cases.
  - cbv zeta. rewrite IH. by destruct (decide (pool_at n (take (S k) segs) ≠ "")).
Qed.

(** C26. The trie implements longest-prefix routing: after any sequence of
    [Add]s, [Match] answers the pool of the longest registered prefix of the
    request's path, compared segment by segment with empty segments (leading,
    trailing and doubled slashes) ignored, a later rule replacing an earlier
    one for the same segments and rules with an empty pool ignored; it answers
    no match exactly when no registered prefix applies. *)
Theorem PathTrie_longest_prefix adds r :
  PathTrie_Match r (add_all adds NewPathTrie) =
    let segs := segments_of (req_Path r) in
    match longest_rule (rules_of adds) segs (length segs) with
    | Some p => (p, true)
    | None => ("", false)
    end.
Proof.
  assert (implements (root (add_all adds NewPathTrie)) (rules_of adds)) as H.
  { apply add_all_implements. intros segs. simpl. by rewrite pool_at_empty. }
  unfold PathTrie_Match. rewrite match_segments_filter.
  fold (segments_of (trim slash (req_Path r))). rewrite segments_trim.
  rewrite match_segments_deepest by apply segments_of_Forall.
  rewrite deepest_longest. cbv zeta. rewrite (longest_rule_implements _ _ _ _ H).
  set (n := root _) in *. set (segs := segments_of _).
  assert (∀ k p, longest_at n segs k = Some p → p ≠ "") as Hne.
  { induction k as [|k IH]; simpl; [done|]. intros p. case_decide; [by intros [= <-]|auto]. }
  destruct (longest_at n segs (length segs)) as [p|] eqn:E; simpl.
  - by rewrite decide_True by eauto.
  - destruct (decide (pool n = "")) as [->|Hp]; simpl; [done|].
    by rewrite !decide_True by done.
Qed.

Definition ex_path (p : string) : Request := mkRequest "GET" "" "" ∅ "http" "" p "" false [].

Example PathTrie_ex :
  (λ p, PathTrie_Match (ex_path p) (add_all [("/api", "api-pool"); ("/api/v2/", "v2-pool");
     ("/", "default-pool")] NewPathTrie)) <$> ["/api/users"; "/api//v2/x"; "/apix"; "/"] =
  [("api-pool", true); ("v2-pool", true); ("default-pool", true); ("default-pool", true)].
Proof. vm_compute. reflexivity. Qed.
