(* ===== verification/Routers.v ===== *)
(** The host, header and canary routers and traffic shadowing
    (internal/routing/host.go, header.go, canary.go, shadow.go). *)

From Stdlib Require Import Ascii SpecFloat.
From S2P Require Export GoString GoHttp GoFloat.

#[local] Open Scope Z_scope.

(** ** Virtual hosts *)

Record HostRouter := mkHostRouter { host_rules : gmap string string }.

Definition NewHostRouter : HostRouter := mkHostRouter ∅.

Definition HostRouter_Add (host p : string) (h : HostRouter) : HostRouter :=
  mkHostRouter (<[host := p]> (host_rules h)).

(** The loop of [Match]: cut at the last colon, unless the host is empty or
    ends with a bracket. *)
Definition strip_port (host : string) : string :=
  match last_byte host with
  | None => host
  | Some c =>
      if decide (c = rbracket) then host
      else match last_index_byte colon host with Some j => str_take j host | None => host end
  end.

Definition HostRouter_Match (r : Request) (h : HostRouter) : option string :=
  host_rules h !! strip_port (req_Host r).

(** ** Headers *)

Section header_router.
(** A compiled regular expression. *)
Context {regexp : Type}.

(** [HeaderRule]: [hr_re] is the [re] field, nil for an exact rule. *)
Record HeaderRule := mkHeaderRule {
  hr_Header : string;
  hr_Value : string;
  hr_re : option regexp;
  hr_Pool : string;
}.

Abbreviation HeaderRouter := (list HeaderRule).

Definition NewHeaderRouter : HeaderRouter := [].

Definition HeaderRouter_AddExact (header value p : string) (hr : HeaderRouter) : HeaderRouter :=
  hr ++ [mkHeaderRule header value None p].

(** [regexp.Compile], or the text of its error. *)
Variable regexp_Compile : string → regexp + string.
(** [re.MatchString]. *)
Variable MatchString : regexp → string → bool.

Definition HeaderRouter_AddRegex (header pattern p : string) : M HeaderRouter (option string) := λ hr,
  match regexp_Compile pattern with
  | inr err => (Ret (Some err), hr)
  | inl re => (Ret None, hr ++ [mkHeaderRule header "" (Some re) p])
  end.

Fixpoint HeaderRouter_Match (r : Request) (hr : HeaderRouter) : string * bool :=
  match hr with
  | [] => ("", false)
  | rule :: hr' =>
      let val := Header_Get (req_Header r) (hr_Header rule) in
      if decide (val = "") then HeaderRouter_Match r hr'
      else
        match hr_re rule with
        | Some re => if MatchString re val then (hr_Pool rule, true) else HeaderRouter_Match r hr'
        | None => if decide (val = hr_Value rule) then (hr_Pool rule, true) else HeaderRouter_Match r hr'
        end
  end.

(** When a rule applies to a request. *)
Definition applies (r : Request) (rule : HeaderRule) : Prop :=
  let val := Header_Get (req_Header r) (hr_Header rule) in
  val ≠ "" ∧ match hr_re rule with Some re => MatchString re val = true | None => val = hr_Value rule end.

#[local] Instance applies_dec r rule : Decision (applies r rule).
Proof. unfold applies. destruct (hr_re rule); apply _. Defined.

Lemma Match_applies r rule hr :
  HeaderRouter_Match r (rule :: hr) =
    if decide (applies r rule) then (hr_Pool rule, true) else HeaderRouter_Match r hr.
Proof.
  cbn [HeaderRouter_Match]. destruct (decide (applies r rule)) as [[Hv H]|Hn].
  - rewrite decide_False by done. destruct (hr_re rule); [by rewrite H|by rewrite decide_True].
  - unfold applies in Hn. case_decide as Hv; [done|].
    destruct (hr_re rule) as [re|].
    + destruct (MatchString re _); [|done]. exfalso. by apply Hn.
    + case_decide as Hx; [|done]. exfalso. by apply Hn.
Qed.
End header_router.
Arguments HeaderRule : clear implicits.

(** ** Canary *)

Section canary.
(** The generator behind [c.rng]: [Float64] and its next state. *)
Context {rng : Type}.
Variable rng_Float64 : rng → float64 * rng.

Record CanaryRouter := mkCanary {
  StablePool : string;
  CanaryPool : string;
  CanaryWeight : float64;
  canary_rng : rng;
}.

(** [rand_New seed] is [rand.New(rand.NewSource(seed))]. *)
Definition NewCanaryRouter (rand_New : Z → rng) (stable canary : string) (weight : float64) : CanaryRouter :=
  mkCanary stable canary weight (rand_New 42).

Definition CanaryRouter_Route : M CanaryRouter string := λ c,
  let '(f, g) := rng_Float64 (canary_rng c) in
  let c' := mkCanary (StablePool c) (CanaryPool c) (CanaryWeight c) g in
  (Ret (if f64_ltb f (CanaryWeight c) then CanaryPool c else StablePool c), c').

(** The values the generator yields next. *)
Fixpoint draws (n : nat) (g : rng) : list float64 :=
  match n with O => [] | S k => let '(f, g') := rng_Float64 g in f :: draws k g' end.

Lemma Route_draws n c :
  ∃ c', repeatM n CanaryRouter_Route c =
    (Ret ((λ f, if f64_ltb f (CanaryWeight c) then CanaryPool c else StablePool c) <$>
       draws n (canary_rng c)), c').
Proof.
  revert c. induction n as [|n IH]; intros c; [by eexists|].
  cbn [repeatM draws]. unfold mbind, M_bind, CanaryRouter_Route at 1.
  destruct (rng_Float64 (canary_rng c)) as [f g].
  destruct (IH (mkCanary (StablePool c) (CanaryPool c) (CanaryWeight c) g)) as [c' E].
  rewrite E. by eexists.
Qed.
End canary.
Arguments CanaryRouter : clear implicits.

(** ** Shadowing *)

(** A request body as read to its end: the bytes got, and whether reading
    stopped on an error. *)
Record Body := mkBody { body_bytes : string; body_failed : bool }.

(** The request sent to the shadow target. *)
Record shadow_request := mkShadow {
  sh_Method : string;
  sh_URL : string;
  sh_Header : Header;
  sh_Body : string;
}.

Section shadow.
(** [r.URL.RequestURI()], and whether [http.NewRequestWithContext] accepts a
    method and address. *)
Variable RequestURI : Request → string.
Variable valid_request : string → string → bool.

(** [Shadow]: the body the caller's request is left with, and the request the
    goroutine sends, if any.  A nil body is [None]. *)
Definition Shadow (r : Request) (body : option Body) (targetURL : string)
    : option Body * option shadow_request :=
  let bodyBytes := match body with Some b => body_bytes b | None => "" end in
  let body' := match body with Some _ => Some (mkBody bodyBytes false) | None => None end in
  let url := targetURL +:+ RequestURI r in
  (body', if valid_request (req_Method r) url
          then Some (mkShadow (req_Method r) url (req_Header r) bodyBytes) else None).

(** [ShadowMiddleware]: the wrapped handler sees the request with the body put
    back. *)
Definition ShadowMiddleware {A} (shadowURL : string) (next : Request → option Body → A)
    (r : Request) (body : option Body) : A :=
  next r (Shadow r body shadowURL).1.
End shadow.

(** ** Properties of the host router *)

(** A name that can stand in a Host header before its port. *)
Definition plain_host (h : string) : Prop := last_index_byte colon h = None.

#[export] Instance plain_host_dec h : Decision (plain_host h).
Proof. unfold plain_host. apply _. Defined.

Lemma strip_port_plain h : plain_host h → strip_port h = h.
Proof. unfold plain_host, strip_port. intros ->. by repeat case_match. Qed.

Lemma strip_port_port h p :
  plain_host p → last_byte (String colon p) ≠ Some rbracket →
  strip_port (h +:+ String colon p) = h.
Proof.
  unfold plain_host, strip_port. intros Hp Hb. rewrite last_byte_app by done.
  destruct (last_byte (String colon p)) as [c|] eqn:E.
  - rewrite decide_False by congruence. rewrite last_index_byte_app by done. apply str_take_app.
  - exfalso. clear Hp Hb. revert E. generalize colon. induction p as [|a p IH]; [done|].
    intros b. simpl. apply IH.
Qed.

(** The Host headers of a name: the bare name, or the name with a port. *)
Inductive host_header (h : string) : string → Prop :=
| HostBare : host_header h h
| HostPort p : plain_host p → last_byte (String colon p) ≠ Some rbracket →
    host_header h (h +:+ String colon p).

(** Virtual hosting ignores the port: whatever rules were added, a request
    for a host name, with or without a port, is routed by the rule registered
    for the bare name; in particular a rule registered with a port, which [Add]
    documents, never routes any such request. *)
Theorem HostRouter_bare_names h r router :
  plain_host h → host_header h (req_Host r) →
  HostRouter_Match r router = host_rules router !! h ∧
  ∀ k port p, HostRouter_Match r (HostRouter_Add (k +:+ String colon port) p router) =
    HostRouter_Match r router.
Proof.
  intros Hh Hr. assert (strip_port (req_Host r) = h) as E.
  { destruct Hr as [|p Hp Hb]; [by apply strip_port_plain|by apply strip_port_port]. }
  unfold HostRouter_Match. rewrite E. split; [done|]. intros k port p. simpl.
  apply lookup_insert_ne. intros <-. unfold plain_host in Hh.
  clear E Hr. induction k as [|a k IH].
  - rewrite str_app_nil_l in Hh. simpl in Hh. by destruct (last_index_byte colon port).
  - rewrite str_app_cons in Hh. simpl in Hh. apply IH.
    by destruct (last_index_byte colon (k +:+ String colon port)).
Qed.

(** ** Properties of the header router *)

(** The first matching header rule wins: [Match] answers the pool of the
    first rule, in the order added, whose header is present and non-empty and
    matches its pattern or value, and no match when there is none; so a rule
    added later never changes the route of a request already matched. *)
Theorem HeaderRouter_first_match {regexp} (MatchString : regexp → string → bool) r
    (hr : list (HeaderRule regexp)) :
  (∀ i rule, hr !! i = Some rule → applies MatchString r rule →
    (∀ j rule', (j < i)%nat → hr !! j = Some rule' → ¬ applies MatchString r rule') →
    ∀ later, HeaderRouter_Match MatchString r (hr ++ later) = (hr_Pool rule, true)) ∧
  ((∀ rule, rule ∈ hr → ¬ applies MatchString r rule) →
    HeaderRouter_Match MatchString r hr = ("", false)).
Proof.
  induction hr as [|x hr [IH1 IH2]].
  - split; [by intros i rule|done].
  - split.
    + intros [|i] rule Hi Ha Hj later; simpl in Hi; cbn [app]; rewrite Match_applies.
      * simplify_eq. by rewrite decide_True.
      * rewrite decide_False by (apply (Hj 0%nat); [lia|done]).
        eapply (IH1 i); [done|done|]. intros j rule' Hlt Hl.
        apply (Hj (S j)); [lia|done].
    + intros Hn. rewrite Match_applies, decide_False.
      * apply IH2. intros rule Hin. apply Hn. by apply elem_of_cons; right.
      * apply Hn. by apply elem_of_cons; left.
Qed.

(** ** Properties of the canary *)

(** A draw of [Float64]: in [0, 1). *)
Definition unit_draw (f : float64) : Prop :=
  f64_leb (S754_zero false) f = true ∧ f64_ltb f (f64_of_Z 1) = true.

Lemma unit_draw_nonneg f : unit_draw f → f64_ltb f (S754_zero false) = false.
Proof. intros [H _]. by destruct f as [[]|[]| |[] m e]. Qed.

(** The canary split: over any number of requests exactly the draws below
    the weight go to the canary pool; weight 0 sends every request to the
    stable pool and weight 1 every request to the canary. *)
Theorem CanaryRouter_split {rng} (F : rng → float64 * rng) n (c : CanaryRouter rng) :
  StablePool c ≠ CanaryPool c →
  ∃ pools c', repeatM n (CanaryRouter_Route F) c = (Ret pools, c') ∧
    occ (CanaryPool c) pools =
      length (filter (λ f, f64_ltb f (CanaryWeight c) = true) (draws F n (canary_rng c))) ∧
    (Forall unit_draw (draws F n (canary_rng c)) →
     (CanaryWeight c = f64_of_Z 0 → pools = replicate n (StablePool c)) ∧
     (CanaryWeight c = f64_of_Z 1 → pools = replicate n (CanaryPool c))).
Proof.
  intros Hne. destruct (Route_draws F n c) as [c' E]. eexists _, c'. split; [exact E|].
  assert (length (draws F n (canary_rng c)) = n) as Hlen.
  { clear. revert c. generalize (@canary_rng rng). intros f c. generalize (f c). clear.
    induction n as [|n IH]; intros g; simpl; [done|]. destruct (F g). simpl. by rewrite IH. }
  clear E c'. set (ds := draws F n (canary_rng c)) in *. clearbody ds. subst n. split.
  - induction ds as [|d ds IH]; [done|]. rewrite fmap_cons, occ_cons, filter_cons, IH.
    destruct (f64_ltb d (CanaryWeight c)); [by rewrite !decide_True|by rewrite !decide_False].
  - intros Hu. split; intros ->.
    + induction Hu as [|d ds Hd _ IH]; [done|]. rewrite fmap_cons. simpl. f_equal; [|exact IH].
      by rewrite (unit_draw_nonneg d Hd).
    + induction Hu as [|d ds Hd _ IH]; [done|]. rewrite fmap_cons. cbn [length replicate].
      by rewrite (proj2 Hd), IH.
Qed.

(** ** Properties of shadowing *)

(** Shadowing is transparent to the caller exactly when the body could be
    read: the wrapped handler then sees the same request and the same body,
    and the shadow target gets a copy of it.  A read error is swallowed, and
    the handler is given the truncated body as if it were complete. *)
Theorem Shadow_transparent URI valid url r body {A} (next : Request → option Body → A) :
  ((∀ b, body = Some b → body_failed b = false) →
    ShadowMiddleware URI valid url next r body = next r body) ∧
  (∀ b, body = Some b → body_failed b = true →
    ShadowMiddleware URI valid url next r body = next r (Some (mkBody (body_bytes b) false))) ∧
  (∀ s, (Shadow URI valid r body url).2 = Some s →
    sh_Method s = req_Method r ∧ sh_Header s = req_Header r ∧
    sh_Body s = match body with Some b => body_bytes b | None => "" end).
Proof.
  unfold ShadowMiddleware, Shadow. split_and!.
  - intros H. destruct body as [[bs f]|]; [|done]. simpl in *. by rewrite <- (H _ eq_refl).
  - intros [bs f] -> Hf. done.
  - intros s. simpl. case_match; [|done]. by intros [= <-].
Qed.

(** ** Witnesses *)

Lemma HostRouter_bare_names_witness :
  let router := HostRouter_Add "api.example.com" "api" NewHostRouter in
  let r := mkRequest "GET" "api.example.com:8080" "" ∅ "http" "" "/" "" false [] in
  HostRouter_Match r router = Some "api" ∧
  ∀ k port p, HostRouter_Match r (HostRouter_Add (k +:+ String colon port) p router) = Some "api".
Proof.
  apply (HostRouter_bare_names "api.example.com"
    (mkRequest "GET" "api.example.com:8080" "" ∅ "http" "" "/" "" false [])
    (HostRouter_Add "api.example.com" "api" NewHostRouter)).
  - reflexivity.
  - apply (HostPort "api.example.com" "8080"); [reflexivity|discriminate].
Defined.

(** A generator that counts down from a half. *)
Definition ex_rng (g : nat) : float64 * nat :=
  match g with O => (f64_of_Z 0, O) | S k => (f64_lit 5 1, k) end.

Lemma CanaryRouter_split_witness :
  ∃ pools c', repeatM 4 (CanaryRouter_Route ex_rng) (mkCanary "stable" "canary" (f64_lit 1 1) 2%nat)
    = (Ret pools, c') ∧ occ "canary" pools = 2%nat.
Proof.
  destruct (CanaryRouter_split ex_rng 4 (mkCanary "stable" "canary" (f64_lit 1 1) 2%nat))
    as (pools & c' & H1 & H2 & _).
  - discriminate.
  - exists pools, c'. split; [exact H1|]. exact H2.
Defined.
