(* ===== verification/SNI.v ===== *)
(** Reading the server name of a TLS ClientHello without decrypting
    (internal/tls/passthrough.go).  Bytes are integers between 0 and 255. *)

From S2P Require Export GoInt.

#[local] Open Scope Z_scope.

(** ** Slices of bytes *)

Abbreviation bytes := (list Z).

Definition is_byte (z : Z) : Prop := 0 ≤ z < 256.

(** [data[a:b]] *)
Definition go_slice {A} (l : list A) (a b : Z) : outcome (list A) :=
  if decide (0 ≤ a ∧ a ≤ b ∧ b ≤ zlen l)
  then Ret (take (Z.to_nat (b - a)) (drop (Z.to_nat a) l)) else Panic SliceOutOfRange.

(** [uint16(data[i])<<8 | uint16(data[i+1])] *)
Definition be16_at (data : bytes) (i : Z) : outcome Z :=
  hi ← go_index data i;
  lo ← go_index data (i + 1);
  mret (Z.lor (u16 (Z.shiftl (u16 hi) 8)) (u16 lo)).

(** ** extractSNI *)

(** Up to the extensions: where they start and end, or nothing for an early
    [return ""]. *)
Definition sni_prelude (data : bytes) : outcome (option (Z * Z)) :=
  if decide (zlen data < 5) then mret None else
  t ← go_index data 0;
  if decide (t ≠ 22) then mret None else
  recordLen ← be16_at data 3;
  if decide (zlen data < 5 + recordLen) then mret None else
  let pos := 5 in
  h ← go_index data pos;
  if decide (h ≠ 1) then mret None else
  let pos := pos + 4 in
  if decide (pos + 35 > zlen data) then mret None else
  let pos := pos + (2 + 32) in
  sessionLen ← go_index data pos;
  let pos := pos + (1 + sessionLen) in
  if decide (pos + 2 > zlen data) then mret None else
  cipherLen ← be16_at data pos;
  let pos := pos + (2 + cipherLen) in
  if decide (pos + 1 > zlen data) then mret None else
  compLen ← go_index data pos;
  let pos := pos + (1 + compLen) in
  if decide (pos + 2 > zlen data) then mret None else
  extTotal ← be16_at data pos;
  let pos := pos + 2 in
  mret (Some (pos, pos + extTotal)).

(** The body of the loop over the extensions: [inl] returns, [inr] goes on at
    the next position. *)
Definition sni_extension (data : bytes) (pos : Z) : outcome (bytes + Z) :=
  extType ← be16_at data pos;
  extLen ← be16_at data (pos + 2);
  let pos := pos + 4 in
  if decide (extType = 0 ∧ pos + extLen ≤ zlen data) then
    if decide (extLen < 5) then mret (inl []) else
    nameLen ← be16_at data (pos + 3);
    if decide (pos + 5 + nameLen ≤ zlen data) then
      name ← go_slice data (pos + 5) (pos + 5 + nameLen); mret (inl name)
    else mret (inr (pos + extLen))
  else mret (inr (pos + extLen)).

(** The loop; [None] when the fuel runs out. *)
Fixpoint sni_loop (fuel : nat) (data : bytes) (pos stop : Z) : option (outcome bytes) :=
  match fuel with
  | O => None
  | S k =>
      if decide (pos + 4 ≤ stop ∧ pos + 4 ≤ zlen data) then
        match sni_extension data pos with
        | Panic w => Some (Panic w)
        | Ret (inl name) => Some (Ret name)
        | Ret (inr pos') => sni_loop k data pos' stop
        end
      else Some (Ret [])
  end.

(** Every extension is at least four bytes long, so the length of the data is
    fuel enough. *)
Definition extractSNI (data : bytes) : option (outcome bytes) :=
  match sni_prelude data with
  | Panic w => Some (Panic w)
  | Ret None => Some (Ret [])
  | Ret (Some (pos, stop)) => sni_loop (S (length data)) data pos stop
  end.

(** ** PeekSNI and the replaying connection *)

(** The errors of [Read]: [io.EOF], or another with its text. *)
Inductive read_error := EOF | ReadFailed (err : string).

(** What a connection has yet to deliver, each [Read] getting bytes of the first
    segment only, and how it ends. *)
Record Conn := mkConn { segments : list bytes; conn_end : read_error }.

(** [Read(b)] with [k = len(b)]: the bytes read and the error. *)
Definition conn_Read (k : nat) : M Conn (bytes * option read_error) := λ c,
  match segments c with
  | [] => (Ret ([], Some (conn_end c)), c)
  | s :: ss =>
      (Ret (take k s, None), mkConn (if decide (length s ≤ k)%nat then ss else drop k s :: ss) (conn_end c))
  end.

Record bufConn := mkBufConn { bc_reader : bytes; bc_conn : Conn }.

(** [c.r.Len() > 0] chooses the peeked bytes. *)
Definition bufConn_Read (k : nat) : M bufConn (bytes * option read_error) := λ c,
  match bc_reader c with
  | [] => let '(o, cn) := conn_Read k (bc_conn c) in (o, mkBufConn [] cn)
  | r => (Ret (take k r, None), mkBufConn (drop k r) (bc_conn c))
  end.

(** [PeekSNI(conn)]: the name and the replaying connection, or the error. *)
Definition PeekSNI (c : Conn) : option (outcome ((bytes * bufConn) + string)) :=
  match conn_Read 4096 c with
  | (Ret (_, Some (ReadFailed err)), _) => Some (Ret (inr ("peek SNI read: " +:+ err)))
  | (Ret (buf, _), c') =>
      match extractSNI buf with
      | Some (Ret name) => Some (Ret (inl (name, mkBufConn buf c')))
      | Some (Panic w) => Some (Panic w)
      | None => None
      end
  | (Panic w, _) => Some (Panic w)
  end.

(** ** Lemmas on reads *)

Lemma be16_value hi lo :
  is_byte hi → is_byte lo → Z.lor (u16 (Z.shiftl (u16 hi) 8)) (u16 lo) = hi * 256 + lo.
Proof.
  unfold is_byte, u16. intros Hh Hl.
  rewrite (Z.mod_small hi), (Z.mod_small lo), Z.shiftl_mul_pow2 by lia.
  rewrite Z.mod_small by lia. change (2 ^ 8) with 256.
  rewrite <- Z.add_lor_land. replace (Z.land (hi * 256) lo) with 0; [lia|].
  symmetry. apply Z.bits_inj'. intros n Hn. rewrite Z.land_spec, Z.bits_0.
  destruct (decide (n < 8)).
  - change 256 with (2 ^ 8). by rewrite Z.mul_pow2_bits_low.
  - rewrite <- (Z.mod_small lo (2 ^ 8)) by lia. rewrite Z.mod_pow2_bits_high by lia.
    by rewrite andb_false_r.
Qed.

(** A byte that is there. *)
Lemma byte_at data i :
  Forall is_byte data → 0 ≤ i < zlen data →
  ∃ x, go_index data i = Ret x ∧ is_byte x ∧ data !! Z.to_nat i = Some x.
Proof.
  intros Hd Hi. destruct (go_index_in_range data i Hi) as (x & E & Hx).
  exists x. split_and!; [done| |done]. by eapply Forall_lookup_1.
Qed.

Lemma be16_at_range data i :
  Forall is_byte data → 0 ≤ i → i + 2 ≤ zlen data →
  ∃ v, be16_at data i = Ret v ∧ 0 ≤ v < 65536.
Proof.
  intros Hd Hi Hl. unfold be16_at.
  destruct (byte_at data i Hd ltac:(lia)) as (x & -> & Hx & _).
  destruct (byte_at data (i + 1) Hd ltac:(lia)) as (y & -> & Hy & _).
  cbn [mbind outcome_bind mret outcome_ret]. rewrite be16_value by done.
  eexists. split; [done|]. unfold is_byte in *. lia.
Qed.

(** Steps through a parser: a decided guard, a byte or a length that is there. *)
Ltac sni_guard :=
  match goal with
  | |- context [if decide ?P then mret None else _] =>
      destruct (decide P); [cbn [mbind outcome_bind mret outcome_ret]; try by eauto|]
  end.
Ltac sni_byte Hd x Hx :=
  match goal with
  | |- context [go_index ?data ?i] =>
      destruct (byte_at data i Hd ltac:(lia)) as (x & -> & Hx & ?);
      cbn [mbind outcome_bind mret outcome_ret]; unfold is_byte in Hx
  end.
Ltac sni_length Hd x Hx :=
  match goal with
  | |- context [be16_at ?data ?i] =>
      destruct (be16_at_range data i Hd ltac:(lia) ltac:(lia)) as (x & -> & Hx);
      cbn [mbind outcome_bind mret outcome_ret]
  end.

(** The five-byte record header with an empty record: the byte after it is
    read without a check. *)
Definition short_record (data : bytes) : Prop :=
  ∃ a b, data = [22; a; b; 0; 0].

Lemma sni_prelude_cases data :
  Forall is_byte data → ¬ short_record data →
  sni_prelude data = Ret None ∨
  ∃ pos stop, sni_prelude data = Ret (Some (pos, stop)) ∧ 0 ≤ pos.
Proof.
  intros Hd Hs. unfold sni_prelude. sni_guard.
  sni_byte Hd t Ht. sni_guard.
  assert (zlen data = 5 → be16_at data 3 ≠ Ret 0) as H5.
  { intros Hl E. apply Hs. unfold zlen in Hl.
    destruct data as [|x0 [|x1 [|x2 [|x3 [|x4 [|]]]]]]; simpl in *; try lia.
    unfold be16_at, go_index in E. simpl in E. rewrite !Forall_cons in Hd.
    destruct Hd as (_ & _ & _ & H3 & H4 & _).
    cbn [mbind outcome_bind mret outcome_ret] in E. rewrite be16_value in E by done.
    unfold is_byte in *. injection E as E. exists x1, x2.
    assert (x0 = t) as -> by congruence. repeat f_equal; [by apply dec_stable|lia|lia]. }
  destruct (be16_at_range data 3 Hd ltac:(lia) ltac:(lia)) as (rl & E3 & Hrl).
  rewrite E3 in *. cbn [mbind outcome_bind]. sni_guard.
  assert (zlen data = 5 → rl ≠ 0) as H5' by (intros Hl ->; by apply H5).
  assert (6 ≤ zlen data) by lia.
  sni_byte Hd h Hh. sni_guard. sni_guard.
  sni_byte Hd sl Hsl. sni_guard. sni_length Hd cl Hcl. sni_guard.
  sni_byte Hd cm Hcm. sni_guard. sni_length Hd et Het.
  right. eexists _, _. split; [done|]. lia.
Qed.

Lemma sni_extension_cases data pos :
  Forall is_byte data → 0 ≤ pos → pos + 4 ≤ zlen data →
  (∃ name, sni_extension data pos = Ret (inl name) ∧
     (name = [] ∨ ∃ a b, 0 ≤ a ∧ b ≤ zlen data ∧ go_slice data a b = Ret name)) ∨
  ∃ pos', sni_extension data pos = Ret (inr pos') ∧ pos + 4 ≤ pos'.
Proof.
  intros Hd H0 Hl. unfold sni_extension.
  sni_length Hd ty Hty. sni_length Hd el Hel.
  case_decide as Hc; [|right; eexists; split; [done|]; lia].
  case_decide as H5; [left; eexists; split; [done|]; by left|].
  sni_length Hd nl Hnl. case_decide as Hn; [|right; eexists; split; [done|]; lia].
  left. unfold go_slice. rewrite decide_True by lia. cbn [mbind outcome_bind mret outcome_ret].
  eexists. split; [done|]. right. exists (pos + 4 + 5), (pos + 4 + 5 + nl).
  split_and!; [lia|lia|by rewrite decide_True by lia].
Qed.

Lemma sni_loop_total fuel data pos stop :
  Forall is_byte data → 0 ≤ pos → (0 < fuel)%nat → zlen data < pos + 4 * Z.of_nat fuel →
  ∃ name, sni_loop fuel data pos stop = Some (Ret name) ∧
    (name = [] ∨ ∃ a b, 0 ≤ a ∧ b ≤ zlen data ∧ go_slice data a b = Ret name).
Proof.
  intros Hd. revert pos. induction fuel as [|k IH]; intros pos H0 Hk Hf; [lia|].
  cbn [sni_loop]. case_decide as Hg; [|exists []; by auto].
  destruct (sni_extension_cases data pos Hd H0 ltac:(lia))
    as [(name & -> & Hn)|(pos' & -> & Hp)]; [by eauto|].
  apply IH; lia.
Qed.

(** ** Totality and safety *)

(** C28. [extractSNI] terminates on every input and panics on exactly one kind:
    a record of five bytes, a handshake header announcing an empty record,
    after which the handshake type is read out of range.  On every other input
    it returns, and a non-empty name it returns is a slice of the input. *)
Theorem extractSNI_panics_iff data :
  Forall is_byte data →
  ∃ o, extractSNI data = Some o ∧
    (o = Panic IndexOutOfRange ↔ short_record data) ∧
    (∀ w, o = Panic w → w = IndexOutOfRange) ∧
    (∀ name, o = Ret name →
      name = [] ∨ ∃ a b, 0 ≤ a ∧ b ≤ zlen data ∧ go_slice data a b = Ret name).
Proof.
  intros Hd. destruct (decide (extractSNI data = Some (Panic IndexOutOfRange) ∧
    take 1 data = [22] ∧ drop 3 data = [0; 0])) as [(E & H1 & H2)|Hn].
  - exists (Panic IndexOutOfRange). split_and!; try done; [|by intros ? [= ->]].
    split; [|done]. intros _. destruct data as [|x0 [|x1 [|x2 l]]]; try done.
    simpl in H1, H2. rewrite drop_0 in H2. injection H1 as ->. rewrite H2. by exists x1, x2.
  - assert (¬ short_record data) as Hs by (intros (a & b & ->); by apply Hn).
    assert (∃ name, extractSNI data = Some (Ret name) ∧
      (name = [] ∨ ∃ a b, 0 ≤ a ∧ b ≤ zlen data ∧ go_slice data a b = Ret name)) as (name & E & H).
    { unfold extractSNI.
      destruct (sni_prelude_cases data Hd Hs) as [->|(pos & stop & -> & H0)]; [exists []; by auto|].
      apply sni_loop_total; [done..|lia|unfold zlen; lia]. }
    exists (Ret name). split; [done|]. split; [by split|]. split; [done|]. by intros ? [= <-].
Qed.

(** ** Round trip with a ClientHello *)

Definition enc16 (n : Z) : bytes := [n / 256; n mod 256].
Definition enc24 (n : Z) : bytes := [n / 65536; (n / 256) mod 256; n mod 256].

(** An extension: its type and its body. *)
Definition enc_ext (e : Z * bytes) : bytes := enc16 e.1 ++ enc16 (zlen e.2) ++ e.2.

(** The server_name extension with one host name (RFC 6066). *)
Definition sni_ext (name : bytes) : Z * bytes :=
  (0, enc16 (zlen name + 3) ++ [0] ++ enc16 (zlen name) ++ name).

Record client_hello := mkHello {
  ch_record_version : Z * Z;
  ch_version : Z * Z;
  ch_random : bytes;
  ch_session : bytes;
  ch_ciphers : bytes;
  ch_compression : bytes;
  ch_before : list (Z * bytes);   (* extensions before server_name *)
  ch_name : bytes;
  ch_after : bytes;               (* the encoding of those after it *)
}.

Definition enc_exts (ch : client_hello) : bytes :=
  concat (enc_ext <$> ch_before ch) ++ enc_ext (sni_ext (ch_name ch)) ++ ch_after ch.

Definition enc_hello_body (ch : client_hello) : bytes :=
  [(ch_version ch).1; (ch_version ch).2] ++ ch_random ch ++
  [zlen (ch_session ch)] ++ ch_session ch ++
  enc16 (zlen (ch_ciphers ch)) ++ ch_ciphers ch ++
  [zlen (ch_compression ch)] ++ ch_compression ch ++
  enc16 (zlen (enc_exts ch)) ++ enc_exts ch.

Definition enc_handshake (ch : client_hello) : bytes :=
  [1] ++ enc24 (zlen (enc_hello_body ch)) ++ enc_hello_body ch.

(** The TLS record holding the ClientHello. *)
Definition enc_record (ch : client_hello) : bytes :=
  [22; (ch_record_version ch).1; (ch_record_version ch).2] ++
  enc16 (zlen (enc_handshake ch)) ++ enc_handshake ch.

(** The sizes the protocol's length fields allow. *)
Definition hello_ok (ch : client_hello) : Prop :=
  zlen (ch_random ch) = 32 ∧ zlen (ch_session ch) < 256 ∧ zlen (ch_ciphers ch) < 65536 ∧
  zlen (ch_compression ch) < 256 ∧
  Forall (λ e, 0 < e.1 < 65536 ∧ zlen e.2 < 65536) (ch_before ch) ∧
  zlen (enc_handshake ch) < 65536.

#[export] Instance hello_ok_dec ch : Decision (hello_ok ch).
Proof. unfold hello_ok. apply _. Defined.

(** *** Reading at a cursor *)

(** The bytes of [data] from [pos] on are [rest]. *)
Definition cursor (data : bytes) (pos : Z) (rest : bytes) : Prop :=
  0 ≤ pos ∧ pos + zlen rest = zlen data ∧ drop (Z.to_nat pos) data = rest.

Lemma zlen_app {A} (l1 l2 : list A) : zlen (l1 ++ l2) = zlen l1 + zlen l2.
Proof. unfold zlen. rewrite length_app. lia. Qed.

Lemma zlen_cons {A} (x : A) l : zlen (x :: l) = 1 + zlen l.
Proof. unfold zlen. simpl. lia. Qed.

Lemma zlen_nonneg {A} (l : list A) : 0 ≤ zlen l.
Proof. unfold zlen. lia. Qed.

Lemma cursor_start data : cursor data 0 data.
Proof. unfold cursor. split_and!; [lia|lia|done]. Qed.

Lemma cursor_skip data pos l rest : cursor data pos (l ++ rest) → cursor data (pos + zlen l) rest.
Proof.
  intros (H0 & Hl & Hd). pose proof (zlen_nonneg l). rewrite zlen_app in Hl.
  split_and!; [lia|lia|]. replace (Z.to_nat (pos + zlen l)) with (Z.to_nat pos + length l)%nat
    by (unfold zlen; lia).
  rewrite <- drop_drop, Hd. apply drop_app_length.
Qed.

Lemma cursor_byte data pos x rest :
  cursor data pos (x :: rest) → go_index data pos = Ret x ∧ cursor data (pos + 1) rest.
Proof.
  intros H. split; [|by apply (cursor_skip data pos [x])]. destruct H as (H0 & _ & Hd).
  unfold go_index. rewrite decide_True by done.
  assert (drop (Z.to_nat pos) data !! 0%nat = Some x) as E by (by rewrite Hd).
  rewrite lookup_drop, Nat.add_0_r in E. by rewrite E.
Qed.

Lemma cursor_be16 data pos n rest :
  cursor data pos (enc16 n ++ rest) → 0 ≤ n < 65536 →
  be16_at data pos = Ret n ∧ cursor data (pos + 2) rest.
Proof.
  intros H Hn. split; [|by apply (cursor_skip data pos (enc16 n))].
  destruct (cursor_byte _ _ _ _ H) as [E1 H1]. destruct (cursor_byte _ _ _ _ H1) as [E2 _].
  unfold be16_at. rewrite E1. cbn [mbind outcome_bind]. rewrite E2.
  cbn [mbind outcome_bind mret outcome_ret].
  pose proof (Z.mod_pos_bound n 256 ltac:(lia)). pose proof (Z.div_mod n 256 ltac:(lia)).
  rewrite be16_value by (unfold is_byte; lia). f_equal. lia.
Qed.

Lemma cursor_slice data pos l rest :
  cursor data pos (l ++ rest) → go_slice data pos (pos + zlen l) = Ret l.
Proof.
  intros (H0 & Hl & Hd). pose proof (zlen_nonneg l). pose proof (zlen_nonneg rest).
  rewrite zlen_app in Hl. unfold go_slice. rewrite decide_True by lia. rewrite Hd.
  replace (Z.to_nat (pos + zlen l - pos)) with (length l) by (unfold zlen; lia).
  by rewrite take_app_length.
Qed.

Lemma cursor_bound data pos l rest : cursor data pos (l ++ rest) → pos + zlen l ≤ zlen data.
Proof. intros (_ & Hl & _). rewrite zlen_app in Hl. pose proof (zlen_nonneg rest). lia. Qed.

Lemma zlen_enc16 n : zlen (enc16 n) = 2.
Proof. done. Qed.

Ltac zlen_simpl :=
  repeat (rewrite zlen_app || rewrite zlen_enc16 || rewrite zlen_cons);
  change (zlen (@nil Z)) with 0.

(** *** The extensions *)

Lemma sni_extension_skip data pos e rest :
  cursor data pos (enc_ext e ++ rest) → 0 < e.1 < 65536 → zlen e.2 < 65536 →
  sni_extension data pos = Ret (inr (pos + zlen (enc_ext e))).
Proof.
  intros H Ht Hl. unfold enc_ext in *. rewrite <- !app_assoc in H. pose proof (zlen_nonneg e.2).
  destruct (cursor_be16 _ _ _ _ H ltac:(lia)) as [E1 H1].
  destruct (cursor_be16 _ _ _ _ H1 ltac:(lia)) as [E2 H2].
  unfold sni_extension. rewrite E1. cbn [mbind outcome_bind]. rewrite E2.
  cbn [mbind outcome_bind]. rewrite decide_False by lia. do 2 f_equal.
  zlen_simpl. lia.
Qed.

Lemma sni_extension_name data pos name rest :
  cursor data pos (enc_ext (sni_ext name) ++ rest) → zlen name + 5 < 65536 →
  sni_extension data pos = Ret (inl name).
Proof.
  intros H Hl. unfold enc_ext, sni_ext in H. cbn [fst snd] in H. rewrite <- !app_assoc in H.
  pose proof (zlen_nonneg name).
  destruct (cursor_be16 _ _ _ _ H ltac:(lia)) as [E1 H1].
  destruct (cursor_be16 _ _ _ _ H1) as [E2 H2]. { zlen_simpl. lia. }
  destruct (cursor_be16 _ _ _ _ H2 ltac:(lia)) as [_ H3].
  destruct (cursor_byte _ _ _ _ H3) as [_ H4].
  destruct (cursor_be16 _ _ _ _ H4 ltac:(lia)) as [E5 H5].
  pose proof (cursor_slice _ _ _ _ H5) as E6. pose proof (cursor_bound _ _ _ _ H5) as Hb.
  unfold sni_extension. rewrite E1. cbn [mbind outcome_bind]. rewrite E2.
  cbn [mbind outcome_bind].
  rewrite decide_True by (zlen_simpl; lia).
  rewrite decide_False by (zlen_simpl; lia).
  replace (pos + 4 + 3) with (pos + 2 + 2 + 2 + 1) by lia. rewrite E5. cbn [mbind outcome_bind].
  replace (pos + 4 + 5) with (pos + 2 + 2 + 2 + 1 + 2) by lia.
  rewrite decide_True by lia. by rewrite E6.
Qed.

Lemma enc_ext_len e : 4 ≤ zlen (enc_ext e).
Proof. unfold enc_ext. zlen_simpl. pose proof (zlen_nonneg e.2). lia. Qed.

Lemma sni_loop_finds data pos stop fuel before name after rest :
  cursor data pos ((concat (enc_ext <$> before) ++ enc_ext (sni_ext name) ++ after) ++ rest) →
  Forall (λ e, 0 < e.1 < 65536 ∧ zlen e.2 < 65536) before → zlen name + 5 < 65536 →
  stop = pos + zlen (concat (enc_ext <$> before) ++ enc_ext (sni_ext name) ++ after) →
  (length before < fuel)%nat →
  sni_loop fuel data pos stop = Some (Ret name).
Proof.
  intros Hc Hb Hn. revert pos fuel Hc. induction Hb as [|e before He _ IH];
    intros pos fuel Hc Hs Hf; (destruct fuel as [|fuel]; [simpl in Hf; lia|]).
  - cbn [fmap list_fmap concat app] in *. rewrite <- app_assoc in Hc.
    pose proof (cursor_bound _ _ _ _ Hc). pose proof (enc_ext_len (sni_ext name)).
    pose proof (zlen_nonneg after). rewrite zlen_app in Hs. cbn [sni_loop].
    rewrite decide_True by lia. by rewrite (sni_extension_name _ _ _ _ Hc).
  - rewrite fmap_cons in *. cbn [concat] in *. rewrite <- !app_assoc in *.
    pose proof (cursor_bound _ _ _ _ Hc). pose proof (enc_ext_len e).
    cbn [sni_loop]. rewrite decide_True
      by (rewrite zlen_app in Hs; pose proof (zlen_nonneg (concat (enc_ext <$> before) ++
            enc_ext (sni_ext name) ++ after)); lia).
    rewrite (sni_extension_skip _ _ _ _ Hc) by apply He.
    apply IH; [|rewrite zlen_app in Hs; lia|simpl in Hf; lia].
    by apply cursor_skip.
Qed.

Lemma length_concat_exts before :
  (length before ≤ length (concat (enc_ext <$> before)))%nat.
Proof.
  induction before as [|e before IH]; [done|]. rewrite fmap_cons. simpl.
  pose proof (enc_ext_len e). unfold zlen in *. rewrite length_app. lia.
Qed.

Lemma zlen_handshake ch :
  zlen (enc_handshake ch) = 4 + (2 + zlen (ch_random ch) + 1 + zlen (ch_session ch) + 2 +
    zlen (ch_ciphers ch) + 1 + zlen (ch_compression ch) + 2 + zlen (enc_exts ch)).
Proof. unfold enc_handshake, enc24, enc_hello_body. zlen_simpl. lia. Qed.

(** Rewrites a read whose position is written differently. *)
Ltac at_byte B :=
  match type of B with go_index _ ?p = _ =>
    match goal with |- context [go_index _ ?q] => replace q with p by lia end end;
  rewrite B; cbn [mbind outcome_bind].
Ltac at_length B :=
  match type of B with be16_at _ ?p = _ =>
    match goal with |- context [be16_at _ ?q] => replace q with p by lia end end;
  rewrite B; cbn [mbind outcome_bind].

Lemma sni_prelude_hello ch trailing :
  hello_ok ch →
  ∃ pos, sni_prelude (enc_record ch ++ trailing) = Ret (Some (pos, pos + zlen (enc_exts ch))) ∧
    cursor (enc_record ch ++ trailing) pos (enc_exts ch ++ trailing).
Proof.
  intros (Hr & Hs & Hci & Hco & _ & Hh). set (data := enc_record ch ++ trailing).
  pose proof (cursor_start data) as C. unfold data in C at 2. unfold enc_record in C.
  rewrite <- !app_assoc in C. cbn [app] in C.
  pose proof (zlen_nonneg (ch_session ch)). pose proof (zlen_nonneg (ch_ciphers ch)).
  pose proof (zlen_nonneg (ch_compression ch)). pose proof (zlen_nonneg (enc_exts ch)).
  pose proof (zlen_nonneg trailing).
  destruct (cursor_byte _ _ _ _ C) as [B0 C1].
  destruct (cursor_byte _ _ _ _ C1) as [_ C2]. destruct (cursor_byte _ _ _ _ C2) as [_ C3].
  destruct (cursor_be16 _ _ _ _ C3) as [B3 C5]; [pose proof (zlen_nonneg (enc_handshake ch)); lia|].
  pose proof (cursor_bound _ _ _ _ C5) as Hb5.
  pose proof (zlen_handshake ch) as Hhs.
  unfold enc_handshake in C5. rewrite <- !app_assoc in C5. cbn [app] in C5.
  destruct (cursor_byte _ _ _ _ C5) as [B5 C6].
  pose proof (cursor_skip _ _ _ _ C6) as C9. change (zlen (enc24 _)) with 3 in C9.
  unfold enc_hello_body in C9. rewrite <- !app_assoc in C9. cbn [app] in C9.
  destruct (cursor_byte _ _ _ _ C9) as [_ C10]. destruct (cursor_byte _ _ _ _ C10) as [_ C11].
  apply cursor_skip in C11. rewrite Hr in C11.
  destruct (cursor_byte _ _ _ _ C11) as [Bs Cs]. apply cursor_skip in Cs.
  destruct (cursor_be16 _ _ _ _ Cs ltac:(lia)) as [Bc Cc]. apply cursor_skip in Cc.
  destruct (cursor_byte _ _ _ _ Cc) as [Bm Cm]. apply cursor_skip in Cm.
  destruct (cursor_be16 _ _ _ _ Cm ltac:(lia)) as [Be Ce].
  pose proof (cursor_bound _ _ _ _ Ce) as Hbe.
  eexists. split; [|exact Ce].
  assert (5 ≤ zlen data) by lia. simpl in *.
  change (0 + 1 + 1 + 1) with 3 in *. change (3 + 2) with 5 in *.
  unfold sni_prelude. rewrite decide_False by lia. rewrite B0. cbn [mbind outcome_bind].
  rewrite decide_False by tauto. rewrite B3. cbn [mbind outcome_bind].
  rewrite decide_False by lia. rewrite B5. cbn [mbind outcome_bind].
  rewrite decide_False by tauto. cbv zeta. rewrite decide_False by lia.
  at_byte Bs. rewrite decide_False by lia. at_length Bc. rewrite decide_False by lia.
  at_byte Bm. rewrite decide_False by lia. at_length Be. cbn [mret outcome_ret].
  repeat f_equal; lia.
Qed.

(** C27. Round trip: the server name of every ClientHello that respects the
    protocol's field sizes, whatever extensions come before and after it and
    whatever bytes follow the record, is what [extractSNI] returns. *)
Theorem extractSNI_roundtrip ch trailing :
  hello_ok ch → extractSNI (enc_record ch ++ trailing) = Some (Ret (ch_name ch)).
Proof.
  intros Hok. destruct (sni_prelude_hello ch trailing Hok) as (pos & E & C).
  unfold extractSNI. rewrite E. destruct Hok as (_ & _ & _ & _ & Hb & Hh).
  eapply sni_loop_finds; [exact C|done| |done|].
  - rewrite zlen_handshake in Hh. unfold enc_exts in Hh. rewrite !zlen_app in Hh.
    assert (zlen (enc_ext (sni_ext (ch_name ch))) = 9 + zlen (ch_name ch)) as Hx
      by (unfold enc_ext, sni_ext; cbn [fst snd]; zlen_simpl; lia).
    pose proof (zlen_nonneg (ch_random ch)). pose proof (zlen_nonneg (ch_session ch)).
    pose proof (zlen_nonneg (ch_ciphers ch)). pose proof (zlen_nonneg (ch_compression ch)).
    pose proof (zlen_nonneg (ch_after ch)).
    pose proof (zlen_nonneg (concat (enc_ext <$> ch_before ch))). lia.
  - pose proof (length_concat_exts (ch_before ch)). destruct C as (H0 & Hl & _).
    unfold zlen, enc_exts in Hl. rewrite !length_app in Hl. rewrite length_app. lia.
Qed.

(** ** The replaying connection *)

(** The bytes a connection will deliver in all. *)
Definition stream (c : Conn) : bytes := concat (segments c).
Definition buf_stream (c : bufConn) : bytes := bc_reader c ++ stream (bc_conn c).

(** Successive reads with the given buffer sizes, and the bytes they got. *)
Fixpoint buf_reads (ks : list nat) : M bufConn bytes :=
  match ks with
  | [] => mret []
  | k :: ks' => o ← bufConn_Read k; l ← buf_reads ks'; mret (o.1 ++ l)
  end.

Lemma conn_Read_stream k c :
  (0 < k)%nat → ∃ o c', conn_Read k c = (Ret o, c') ∧ stream c = o.1 ++ stream c'.
Proof.
  intros Hk. unfold conn_Read, stream. destruct (segments c) as [|s ss] eqn:E.
  - eexists _, c. split; [done|]. by rewrite E.
  - eexists (take k s, None), _. split; [done|]. simpl. case_decide.
    + by rewrite take_ge by lia.
    + simpl. by rewrite app_assoc, take_drop.
Qed.

Lemma bufConn_Read_stream k c :
  (0 < k)%nat → ∃ o c', bufConn_Read k c = (Ret o, c') ∧ buf_stream c = o.1 ++ buf_stream c'.
Proof.
  intros Hk. unfold bufConn_Read, buf_stream. destruct (bc_reader c) as [|x r] eqn:E.
  - destruct (conn_Read_stream k (bc_conn c) Hk) as (o & c' & -> & Hs).
    by exists o, (mkBufConn [] c').
  - eexists (take k (x :: r), None), _. split; [done|]. cbn [fst bc_reader bc_conn].
    by rewrite app_assoc, take_drop.
Qed.

Lemma buf_reads_stream ks c :
  Forall (λ k, 0 < k)%nat ks →
  ∃ l c', buf_reads ks c = (Ret l, c') ∧ buf_stream c = l ++ buf_stream c'.
Proof.
  intros H. revert c. induction H as [|k ks Hk _ IH]; intros c; [by exists [], c|].
  destruct (bufConn_Read_stream k c Hk) as (o & c1 & E1 & Hs1).
  destruct (IH c1) as (l & c2 & E2 & Hs2). exists (o.1 ++ l), c2.
  cbn [buf_reads]. rewrite (bind_Ret _ _ _ _ _ E1), (bind_Ret _ _ _ _ _ E2).
  split; [done|]. by rewrite Hs1, Hs2, app_assoc.
Qed.

(** Unless the bytes are the short record, there is a name for them. *)
Lemma extractSNI_total data :
  Forall is_byte data → ¬ short_record data → ∃ name, extractSNI data = Some (Ret name).
Proof.
  intros Hb Hs. unfold extractSNI. destruct (sni_prelude_cases _ Hb Hs) as [->|(pos & stop & -> & H0)]; [eauto|].
  destruct (sni_loop_total (S (length data)) data pos stop) as (name & -> & _); [done|done|lia|unfold zlen; lia|]. eauto.
Qed.

(** C29. Peeking loses nothing: when the connection breaks before the first
    byte, [PeekSNI] returns that error and no connection; otherwise, unless the
    first segment is the short record, it returns, the name is the one of the
    first bytes read, and any later reads on the connection it gives back
    deliver, in order and from the first byte on, the bytes of the original
    connection. *)
Theorem PeekSNI_replays c ks :
  Forall (Forall is_byte) (segments c) → ¬ short_record (take 4096 (default [] (head (segments c)))) →
  Forall (λ k, 0 < k)%nat ks →
  (∃ err, segments c = [] ∧ conn_end c = ReadFailed err ∧ PeekSNI c = Some (Ret (inr ("peek SNI read: " +:+ err)))) ∨
  (segments c ≠ [] ∨ conn_end c = EOF) ∧
  ∃ name c' l c'', PeekSNI c = Some (Ret (inl (name, c'))) ∧
    extractSNI (take 4096 (default [] (head (segments c)))) = Some (Ret name) ∧
    buf_reads ks c' = (Ret l, c'') ∧ stream c = l ++ buf_stream c''.
Proof.
  intros Hb Hs Hk.
  destruct (conn_Read_stream 4096 c ltac:(lia)) as (o & c' & E & Hst).
  assert (Forall is_byte (take 4096 (default [] (head (segments c))))) as Hbb.
  { apply Forall_take. destruct Hb; [constructor|done]. }
  destruct (extractSNI_total _ Hbb Hs) as [name En].
  assert (∀ e, o = (take 4096 (default [] (head (segments c))), e) → e = None ∨ e = Some EOF →
    ∃ name c' l c'', PeekSNI c = Some (Ret (inl (name, c'))) ∧
      extractSNI (take 4096 (default [] (head (segments c)))) = Some (Ret name) ∧
      buf_reads ks c' = (Ret l, c'') ∧ stream c = l ++ buf_stream c'') as Hgo.
  { intros e -> He. set (buf := take 4096 _) in *.
    destruct (buf_reads_stream ks (mkBufConn buf c') Hk) as (l & c2 & E2 & Hl).
    exists name, (mkBufConn buf c'), l, c2. split_and!; [|done|done|by rewrite Hst, <- Hl].
    unfold PeekSNI. rewrite E. by destruct He as [->| ->]; rewrite En. }
  unfold conn_Read in E. destruct (segments c) as [|s ss] eqn:Es; injection E as <- <-.
  - destruct (conn_end c) as [|err] eqn:Ee.
    + right. split; [by right|]. apply (Hgo _ eq_refl). by right.
    + left. exists err. split_and!; [done|done|]. unfold PeekSNI, conn_Read. by rewrite Es, Ee.
  - right. split; [by left|]. apply (Hgo _ eq_refl). by left.
Qed.

(** ** Witnesses *)

Definition ex_hello : client_hello :=
  mkHello (3, 1) (3, 3) (replicate 32 7) [1; 2; 3] [19; 1] [0] [(10, [0; 2; 0; 23])]
    [97; 46; 98] (enc_ext (16, [1])).

Lemma ex_hello_ok : hello_ok ex_hello.
Proof. apply (bool_decide_eq_true_1 _). vm_compute. reflexivity. Qed.

Lemma extractSNI_panics_iff_witness :
  ∃ o, extractSNI [22; 3; 1; 0; 0] = Some o ∧ o = Panic IndexOutOfRange.
Proof.
  destruct (extractSNI_panics_iff [22; 3; 1; 0; 0]) as (o & H1 & H2 & _).
  - repeat constructor; vm_compute; congruence.
  - exists o. split; [exact H1|]. apply H2. exists 3, 1. reflexivity.
Defined.

Lemma extractSNI_roundtrip_witness :
  extractSNI (enc_record ex_hello ++ [23; 3; 3]) = Some (Ret [97; 46; 98]).
Proof. apply (extractSNI_roundtrip ex_hello [23; 3; 3] ex_hello_ok). Defined.

Lemma PeekSNI_replays_witness :
  ∃ name c' l c'', PeekSNI (mkConn [enc_record ex_hello; [1; 2; 3]] EOF) = Some (Ret (inl (name, c'))) ∧
    extractSNI (take 4096 (enc_record ex_hello)) = Some (Ret name) ∧
    buf_reads [10; 4096; 4096]%nat c' = (Ret l, c'') ∧
    stream (mkConn [enc_record ex_hello; [1; 2; 3]] EOF) = l ++ buf_stream c''.
Proof.
  destruct (PeekSNI_replays (mkConn [enc_record ex_hello; [1; 2; 3]] EOF) [10; 4096; 4096]%nat)
    as [(err & H & _)|(_ & H)].
  - vm_compute. repeat constructor; congruence.
  - intros (a & b & H). vm_compute in H. discriminate.
  - repeat constructor; lia.
  - discriminate H.
  - exact H.
Defined.
