(* ===== verification/TLS.v ===== *)
(** TLS termination (internal/tls/termination.go), client authentication
    (mtls.go) and the certificate watcher (watcher.go).  Certificates, pools of
    authorities, files and connections are crypto/tls's and the operating
    system's; the model keeps which of them ends up where. *)

From S2P Require Export GoInt.

#[local] Open Scope Z_scope.

Section tls.
Context {Cert CertPool Conn : Type}.

(** ** Configurations *)

(** The callback of [storeCert]: it reads the configuration cell of its listener
    and takes what it finds for a certificate. *)
Inductive cert_callback := LoadCell.

(** [tls.NoClientCert] is the zero value. *)
Inductive client_auth := NoClientCert | RequireAndVerifyClientCert.

Definition VersionTLS12 : Z := 771.

(** The fields of [tls.Config] that the program sets; the rest is zero. *)
Record tls_Config := mkTlsConfig {
  tc_Certificates : list Cert;
  tc_GetCertificate : option cert_callback;
  tc_ClientCAs : option CertPool;
  tc_ClientAuth : client_auth;
  tc_MinVersion : Z;
}.

(** ** The terminating listener *)

(** The atomic pointer to the configuration in force. *)
Record TerminationListener := mkTerminationListener { tl_cfg : option tls_Config }.

(** The certificate is dropped; only the callback is installed. *)
Definition TerminationListener_storeCert (cert : Cert) : M TerminationListener () :=
  let cfg := mkTlsConfig [] (Some LoadCell) None NoClientCert VersionTLS12 in
  modify (λ _, mkTerminationListener (Some cfg)).

(** [tls.LoadX509KeyPair(certFile, keyFile)] on the files as they are at the
    call, with the text of its error. *)
Abbreviation disk := (string → string → Cert + string).

Definition NewTerminationListener (LoadX509KeyPair : disk) (certFile keyFile : string)
    : outcome (TerminationListener + string) :=
  match LoadX509KeyPair certFile keyFile with
  | inr err => Ret (inr ("load cert/key: " +:+ err))
  | inl cert =>
      let '(o, tl) := TerminationListener_storeCert cert (mkTerminationListener None) in
      _ ← o; Ret (inl tl)
  end.

Definition TerminationListener_ReloadCert (LoadX509KeyPair : disk) (certFile keyFile : string)
    : M TerminationListener (option string) :=
  match LoadX509KeyPair certFile keyFile with
  | inr err => mret (Some ("reload cert: " +:+ err))
  | inl cert =>
      let cfg := mkTlsConfig [cert] None None NoClientCert VersionTLS12 in
      modify (λ _, mkTerminationListener (Some cfg));; mret None
  end.

(** [Accept]: the connection of the inner listener, to be served with the
    configuration in force, or the inner error. *)
Definition TerminationListener_Accept (inner : Conn + string)
    : M TerminationListener ((Conn * option tls_Config) + string) :=
  match inner with
  | inr err => mret (inr err)
  | inl conn => cfg ← gets tl_cfg; mret (inl (conn, cfg))
  end.

Definition NewTLSListener (cfg : tls_Config) (inner : Conn + string) : (Conn * option tls_Config) + string :=
  match inner with inr err => inr err | inl conn => inl (conn, Some cfg) end.

(** ** What a handshake presents *)

(** A certificate pointer of the running program: to a certificate, or to a
    configuration that is taken for one. *)
Inductive cert_ptr :=
| CertPtr (c : Cert)
| ConfigAsCert (cfg : tls_Config).

(** The callback returns whatever the cell of the listener points to. *)
Definition run_callback (cb : cert_callback) (tl : TerminationListener) : option cert_ptr :=
  match cb with LoadCell => ConfigAsCert <$> tl_cfg tl end.

(** How crypto/tls chooses: the callback is called when there are no
    certificates; otherwise the first certificate is the default. *)
Definition presented (tl : TerminationListener) (cfg : tls_Config) : option cert_ptr :=
  match tc_Certificates cfg, tc_GetCertificate cfg with
  | [], Some cb => run_callback cb tl
  | [], None => None
  | c :: _, _ => Some (CertPtr c)
  end.

(** ** Client authentication *)

Section mtls.
(** [os.ReadFile] and [AppendCertsFromPEM] on an empty pool. *)
Variable ReadFile : string → string + string.
Variable AppendCertsFromPEM : string → option CertPool.

Definition MTLSConfig (LoadX509KeyPair : disk) (certFile keyFile caFile : string) : tls_Config + string :=
  match LoadX509KeyPair certFile keyFile with
  | inr err => inr ("load server cert: " +:+ err)
  | inl cert =>
      match ReadFile caFile with
      | inr err => inr ("read CA file: " +:+ err)
      | inl caPEM =>
          match AppendCertsFromPEM caPEM with
          | None => inr ("no valid CA certs found in " +:+ caFile)
          | Some caPool =>
              inl (mkTlsConfig [cert] None (Some caPool) RequireAndVerifyClientCert VersionTLS12)
          end
      end
  end.
End mtls.

(** The handler it should return is never built. *)
Definition RedirectHandler (httpsHost : string) : option (Conn → Conn) := None.

(** ** The watcher *)

Record CertReloader := mkCertReloader { cr_certFile : string; cr_keyFile : string }.

Definition NewCertReloader (certFile keyFile : string) : CertReloader :=
  mkCertReloader certFile keyFile.

(** What the [select] of the loop receives. *)
Inductive watch_event :=
| WDone                        (* ctx.Done() *)
| WEvent (write create : bool) (* a file event with these bits *)
| WEventsClosed
| WError
| WErrorsClosed.

Inductive watch_result := Returned (err : option string) | Waiting.

Section watch.
Context {S : Type}.
(** The reload function, on the files as they are when it runs. *)
Variable reloadFn : disk → string → string → M S (option string).

(** The loop over the events of the watcher, each with the files at that time;
    when the list is used up the loop waits. *)
Fixpoint watch_loop (cr : CertReloader) (evs : list (disk * watch_event)) : M S watch_result :=
  match evs with
  | [] => mret Waiting
  | (d, ev) :: evs' =>
      match ev with
      | WDone | WEventsClosed | WErrorsClosed => mret (Returned None)
      | WError => watch_loop cr evs'
      | WEvent write create =>
          if write || create then
            _ ← reloadFn d (cr_certFile cr) (cr_keyFile cr);
            watch_loop cr evs'
          else watch_loop cr evs'
      end
  end.

(** [newWatcher] and [add] are the errors of [fsnotify.NewWatcher] and
    [w.Add]. *)
Definition CertReloader_Watch (newWatcher : option string) (add : string → option string)
    (cr : CertReloader) (evs : list (disk * watch_event)) : M S watch_result :=
  match newWatcher with
  | Some err => mret (Returned (Some err))
  | None =>
      match add (cr_certFile cr) with
      | Some err => mret (Returned (Some err))
      | None =>
          match add (cr_keyFile cr) with
          | Some err => mret (Returned (Some err))
          | None => watch_loop cr evs
          end
      end
  end.
End watch.

(** ** Specification *)

(** Whether an event ends the watch. *)
Definition stops (ev : watch_event) : bool :=
  match ev with WDone | WEventsClosed | WErrorsClosed => true | _ => false end.
Definition reloads (ev : watch_event) : bool :=
  match ev with WEvent write create => write || create | _ => false end.

(** The last certificate that a reload could load, up to the end of the watch. *)
Fixpoint last_good (cr : CertReloader) (evs : list (disk * watch_event)) (cur : option Cert) : option Cert :=
  match evs with
  | [] => cur
  | (d, ev) :: evs' =>
      if stops ev then cur
      else last_good cr evs'
             (if reloads ev then
                match d (cr_certFile cr) (cr_keyFile cr) with inl c => Some c | inr _ => cur end
              else cur)
  end.

(** The configuration the listener holds when [cur] is the last certificate
    loaded by a reload. *)
Definition config_for (cur : option Cert) : tls_Config :=
  match cur with
  | Some c => mkTlsConfig [c] None None NoClientCert VersionTLS12
  | None => mkTlsConfig [] (Some LoadCell) None NoClientCert VersionTLS12
  end.

Lemma ReloadCert_spec d certFile keyFile cur :
  ∃ e, TerminationListener_ReloadCert d certFile keyFile (mkTerminationListener (Some (config_for cur))) =
    (Ret e, mkTerminationListener (Some (config_for
       (match d certFile keyFile with inl c => Some c | inr _ => cur end)))).
Proof. unfold TerminationListener_ReloadCert. destruct (d certFile keyFile); eexists; reflexivity. Qed.

Lemma watch_loop_spec cr evs cur :
  watch_loop TerminationListener_ReloadCert cr evs (mkTerminationListener (Some (config_for cur))) =
    (Ret (if existsb (λ e, stops e.2) evs then Returned None else Waiting),
     mkTerminationListener (Some (config_for (last_good cr evs cur)))).
Proof.
  revert cur. induction evs as [|[d ev] evs IH]; intros cur; [done|].
  destruct ev as [|write create| | |]; try done; cbn [watch_loop last_good stops existsb snd reloads orb].
  - destruct (write || create); [|apply IH].
    destruct (ReloadCert_spec d (cr_certFile cr) (cr_keyFile cr) cur) as [e E].
    rewrite (bind_Ret _ _ _ _ _ E). apply IH.
  - apply IH.
Qed.

(** ** Properties *)

(** C39. Hot swapping certificates: a listener opened on a loadable pair and
    watched over any sequence of file events, whatever the files hold at each,
    serves every later connection with the last pair that could be loaded when
    an event asked for it; failed reloads change nothing, and the watch returns
    without an error exactly when it was told to stop. Until the first
    successful reload, though, no certificate is in force: the pair it was
    opened with is dropped, and the callback hands the handshake the
    configuration itself in place of a certificate. *)
Theorem cert_hot_swap (d0 : disk) certFile keyFile cert0 evs conn :
  d0 certFile keyFile = inl cert0 →
  let cr := NewCertReloader certFile keyFile in
  ∃ tl tl' cfg, NewTerminationListener d0 certFile keyFile = Ret (inl tl) ∧
    CertReloader_Watch TerminationListener_ReloadCert None (λ _, None) cr evs tl =
      (Ret (if existsb (λ e, stops e.2) evs then Returned None else Waiting), tl') ∧
    TerminationListener_Accept (inl conn) tl' = (Ret (inl (conn, Some cfg)), tl') ∧
    presented tl' cfg = Some (match last_good cr evs None with
                              | Some c => CertPtr c
                              | None => ConfigAsCert cfg
                              end).
Proof.
  intros H0 cr. unfold NewTerminationListener. rewrite H0.
  exists (mkTerminationListener (Some (config_for None))).
  eexists (mkTerminationListener (Some (config_for (last_good cr evs None)))), _.
  split_and!; [reflexivity| |reflexivity|].
  - apply watch_loop_spec.
  - by destruct (last_good cr evs None).
Qed.

(** Mutual TLS fails closed: a configuration is returned only when the
    server's pair loads, the authority file can be read and it holds a
    certificate; it then demands and verifies a client certificate against
    exactly those authorities, from TLS 1.2 on. *)
Theorem MTLSConfig_fails_closed ReadFile AppendCertsFromPEM (d : disk) certFile keyFile caFile cfg :
  MTLSConfig ReadFile AppendCertsFromPEM d certFile keyFile caFile = inl cfg ↔
  ∃ cert pem cas, d certFile keyFile = inl cert ∧ ReadFile caFile = inl pem ∧
    AppendCertsFromPEM pem = Some cas ∧
    cfg = mkTlsConfig [cert] None (Some cas) RequireAndVerifyClientCert VersionTLS12.
Proof.
  unfold MTLSConfig. split.
  - intros H. repeat (case_match; simplify_eq). eauto 10.
  - intros (cert & pem & cas & -> & -> & -> & ->). done.
Qed.
End tls.

(** ** Witnesses *)

(** The files change before the third event, and cannot be read at the second. *)
Definition ex_disk (c : nat + string) : string → string → nat + string := λ _ _, c.

Lemma cert_hot_swap_witness :
  ∃ tl tl' cfg, NewTerminationListener (CertPool := unit) (ex_disk (inl 1%nat)) "cert" "key" = Ret (inl tl) ∧
    CertReloader_Watch TerminationListener_ReloadCert None (λ _, None) (NewCertReloader "cert" "key")
      [(ex_disk (inl 2%nat), WEvent false false); (ex_disk (inr "bad"), WEvent true false);
       (ex_disk (inl 3%nat), WEvent false true); (ex_disk (inl 4%nat), WDone)] tl =
      (Ret (Returned None), tl') ∧
    TerminationListener_Accept (inl tt) tl' = (Ret (inl (tt, Some cfg)), tl') ∧
    presented tl' cfg = Some (CertPtr 3%nat).
Proof.
  apply (cert_hot_swap (ex_disk (inl 1%nat)) "cert" "key" 1%nat
    [(ex_disk (inl 2%nat), WEvent false false); (ex_disk (inr "bad"), WEvent true false);
     (ex_disk (inl 3%nat), WEvent false true); (ex_disk (inl 4%nat), WDone)] tt).
  reflexivity.
Defined.
