(* ===== verification/HttpProxy.v ===== *)
(** The HTTP reverse proxy, the middleware chain and the TCP proxy
    (internal/proxy/http.go, middleware.go, tcp.go).  The proxy is written
    against the [Selector] interface only. *)

From Stdlib Require Import Ascii.
From S2P Require Export Selector.
From S2P Require Import SelRoundRobin.

#[local] Open Scope Z_scope.

(** ** Requests and responses *)

Record Response := mkResponse {
  resp_Status : Z;
  resp_Header : Header;
  resp_Body : string;
}.

Definition newline : string := String (Ascii.ascii_of_nat 10) "".

(** [http.Error(w, msg, code)] on a response not yet started. *)
Definition http_Error (msg : string) (code : Z) : Response :=
  mkResponse code
    (Header_Set "X-Content-Type-Options" "nosniff"
       (Header_Set "Content-Type" "text/plain; charset=utf-8" ∅))
    (msg +:+ newline).

Definition with_header (h : Header) (r : Request) : Request :=
  mkRequest (req_Method r) (req_Host r) (req_RemoteAddr r) h (req_Scheme r) (req_URLHost r)
    (req_Path r) (req_RawQuery r) (req_TLS r) (req_Ctx r).

(** ** The director *)

Definition singleJoiningSlash (a b : string) : string :=
  let aslash := bool_decide (last_byte a = Some slash) in
  let bslash := bool_decide (head_byte b = Some slash) in
  if aslash && bslash then a +:+ str_drop 1 b
  else if negb aslash && negb bslash then
    if decide (b = "") then a else a +:+ String slash b
  else a +:+ b.

Definition scheme (r : Request) : string := if req_TLS r then "https" else "http".

Definition join_query (target q : string) : string :=
  if decide (target = "" ∨ q = "") then target +:+ q else target +:+ String "&" q.

(** The client address the director reports. *)
Definition forwarded_ip (r : Request) : string :=
  match SplitHostPort (req_RemoteAddr r) with inl (ip, _) => ip | inr _ => req_RemoteAddr r end.

Definition forwarded_for (prior ip : string) : string :=
  if decide (prior ≠ "") then prior +:+ ", " +:+ ip else ip.

Definition director (target : URL) (r : Request) : Request :=
  let clientIP := forwarded_for (Header_Get (req_Header r) "X-Forwarded-For") (forwarded_ip r) in
  let h := Header_Set "X-Forwarded-Proto" (scheme r) (Header_Set "X-Forwarded-For" clientIP (req_Header r)) in
  mkRequest (req_Method r) (url_Host target) (req_RemoteAddr r) h
    (url_Scheme target) (url_Host target)
    (singleJoiningSlash (url_Path target) (req_Path r))
    (join_query (url_RawQuery target) (req_RawQuery r)) (req_TLS r) (req_Ctx r).

(** *** httputil.ReverseProxy *)

(** [textproto.TrimString] and [httpguts]' [trimOWS] are the two uses. *)
Fixpoint trim_left_by (space : ascii → bool) (s : string) : string :=
  match s with
  | EmptyString => EmptyString
  | String a s' => if space a then trim_left_by space s' else s
  end.
Fixpoint trim_right_by (space : ascii → bool) (s : string) : string :=
  match s with
  | EmptyString => EmptyString
  | String a s' =>
      let t := trim_right_by space s' in
      if space a && bool_decide (t = "") then EmptyString else String a t
  end.
Definition trim_by (space : ascii → bool) (s : string) : string := trim_right_by space (trim_left_by space s).

Definition comma : ascii := ","%char.
Definition is_ows (a : ascii) : bool := bool_decide (N_of_ascii a ∈ [32; 9]%N).
Definition is_space (a : ascii) : bool := bool_decide (N_of_ascii a ∈ [32; 9; 10; 13]%N).

Fixpoint lower_ascii (s : string) : string :=
  match s with EmptyString => EmptyString | String a s' => String (to_lower a) (lower_ascii s') end.

(** [httpguts.HeaderValuesContainsToken], for a token in lower case. *)
Definition contains_token (values : list string) (token : string) : bool :=
  existsb (λ v, existsb (λ t, bool_decide (lower_ascii (trim_by is_ows t) = token)) (GoString.split comma v)) values.

(** The names that the Connection header lists. *)
Definition connection_names (h : Header) : list string :=
  filter (λ n, n ≠ "") (trim_by is_space <$> (default [] (h !! canonical_key "Connection") ≫= GoString.split comma)).

(** The hop-by-hop headers it removes. *)
Definition hop_headers : list string :=
  ["Connection"; "Proxy-Connection"; "Keep-Alive"; "Proxy-Authenticate"; "Proxy-Authorization";
   "Te"; "Trailer"; "Transfer-Encoding"; "Upgrade"].

Definition Header_Del_all (ks : list string) (h : Header) : Header := foldl (λ h k, Header_Del k h) h ks.

Definition removeHopByHopHeaders (h : Header) : Header :=
  Header_Del_all hop_headers (Header_Del_all (connection_names h) h).

(** X-Forwarded-For of the outgoing request: the client's address once more. *)
Definition append_forwarded (remote : string) (h : Header) : Header :=
  match SplitHostPort remote with
  | inr _ => h
  | inl (ip, _) =>
      match h !! canonical_key "X-Forwarded-For" with
      | Some (v :: vs) => Header_Set "X-Forwarded-For" (strings_Join (v :: vs) ", " +:+ ", " +:+ ip) h
      | Some [] => h
      | None => Header_Set "X-Forwarded-For" ip h
      end
  end.

(** What [ServeHTTP] of a [ReverseProxy] with a [Director] sends: after the
    director it drops the headers that Connection names and the hop-by-hop
    ones, keeps the announcement of trailers, appends the client's address to
    X-Forwarded-For, and keeps the transport from adding a User-Agent.
    Protocol upgrades are left out. *)
Definition reverse_request (dir : Request → Request) (r : Request) : Request :=
  let out := dir r in
  let h := removeHopByHopHeaders (req_Header out) in
  let h := if contains_token (default [] (req_Header r !! "Te")) "trailers" then Header_Set "Te" "trailers" h else h in
  let h := append_forwarded (req_RemoteAddr r) h in
  let h := match h !! "User-Agent" with Some _ => h | None => Header_Set "User-Agent" "" h end in
  with_header h out.

(** *** The backend in the context *)

Definition ctxKeyBackend : ctx_key := mkCtxKey "proxy.ctxKey" "backend".

(** [r.WithContext(context.WithValue(r.Context(), ctxKeyBackend, b))] *)
Definition with_backend (b : loc) (r : Request) : Request :=
  WithContext (context_WithValue (req_Ctx r) ctxKeyBackend (CtxPointer b)) r.

Definition BackendFromContext (c : context) : option loc :=
  match context_Value c ctxKeyBackend with Some (CtxPointer b) => Some b | _ => None end.

(** What the transport gets for a request that the backend [b] was picked for. *)
Definition upstream_request (b : loc) (target : URL) (r : Request) : Request :=
  reverse_request (director target) (with_backend b r).

(** ** The proxy *)

Section proxy.
Context {St : Type} `{Selector St}.

(** [h.transport.RoundTrip] and the copying of the answer: the response as it
    reaches the client, without its hop-by-hop headers, or nothing for an error.
    While it runs, other goroutines act on the backends; copying the answer may
    panic with [http.ErrAbortHandler]. *)
Variable RoundTrip : Request → M store (option Response).

(** The selector's state and the backends. *)
Abbreviation pstate := (St * store)%type.

Definition on_backends {A} (m : M store A) : M pstate A := λ s,
  let '(o, σ') := m s.2 in (o, (s.1, σ')).
Definition on_selector {A} (m : M St A) : M pstate A := λ s,
  let '(o, t') := m s.1 in (o, (t', s.2)).

(** [rp.ServeHTTP(w, r)] for the backend [b]; the error handler answers 502. *)
Definition ReverseProxy_ServeHTTP (target : URL) (r : Request) : M store Response :=
  res ← RoundTrip (reverse_request (director target) r);
  mret (match res with Some resp => resp | None => http_Error "bad gateway" 502 end).

Definition HTTPProxy_ServeHTTP (p : Pool) (r : Request) : M pstate Response :=
  σ ← gets snd;
  backends ← lift (Pool_Healthy σ p);
  if decide (zlen backends = 0) then mret (http_Error "no healthy backends" 502)
  else
    sel ← on_selector (Next r backends σ);
    match sel with
    | (_, Some _) => mret (http_Error "service unavailable" 503)
    | (None, None) => raise NilDeref
    | (Some b, None) =>
        on_backends (Backend_IncConns b);;
        defer (on_backends (Backend_DecConns b))
          (σ ← gets snd;
           bk ← lift (deref σ b);
           on_backends (ReverseProxy_ServeHTTP (BURL bk) (with_backend b r)))
    end.
End proxy.

(** ** The middleware chain *)

(** [for i := len(middlewares) - 1; i >= 0; i-- { h = middlewares[i](h) }] *)
Fixpoint chain_loop {H} (middlewares : list (H → H)) (i : nat) (h : H) : H :=
  match i with
  | O => h
  | S k => chain_loop middlewares k (match middlewares !! k with Some m => m h | None => h end)
  end.
Definition Chain {H} (h : H) (middlewares : list (H → H)) : H :=
  chain_loop middlewares (length middlewares) h.

(** ** The TCP proxy *)

Section tcp.
(** [net.DialTimeout] to a host, and [tunnel], which runs until both sides
    closed. *)
Variable dial : string → bool.
Variable tunnel : string → M store ().

(** [handleConn]: the host that was tunnelled to, if any. *)
Definition TCPProxy_handleConn (p : Pool) : M store (option string) :=
  σ ← gets id;
  backends ← lift (Pool_Healthy σ p);
  match backends with
  | [] => mret None
  | b :: _ =>
      Backend_IncConns b;;
      defer (Backend_DecConns b)
        (σ ← gets id;
         bk ← lift (deref σ b);
         if dial (url_Host (BURL bk))
         then tunnel (url_Host (BURL bk));; mret (Some (url_Host (BURL bk)))
         else mret None)
  end.
End tcp.

(** ** Lemmas *)

Lemma chain_loop_foldr {H} (ms : list (H → H)) i h :
  (i ≤ length ms)%nat → chain_loop ms i h = foldr (λ m h, m h) h (take i ms).
Proof.
  revert h. induction i as [|i IH]; intros h Hi; [done|]. cbn [chain_loop].
  destruct (lookup_lt_is_Some_2 ms i) as [m Hm]; [lia|]. rewrite Hm, IH by lia.
  by rewrite (take_S_r _ _ _ Hm), foldr_app.
Qed.

Lemma head_byte_cons s : head_byte s = Some slash → s = String slash (str_drop 1 s).
Proof. destruct s as [|a s]; [done|]. by intros [= ->]. Qed.

Lemma last_byte_snoc s : last_byte s = Some slash → s = trim_suffix "/" s +:+ "/".
Proof.
  intros Hs. assert (∃ t, s = t +:+ "/") as [t ->]; [|by rewrite trim_suffix_app].
  induction s as [|a s IH]; [done|]. cbn [last_byte] in Hs. destruct s as [|b s].
  - injection Hs as ->. by exists "".
  - destruct (IH Hs) as [t Ht]. exists (String a t). by rewrite str_app_cons, <- Ht.
Qed.

Lemma trim_suffix_none s : last_byte s ≠ Some slash → trim_suffix "/" s = s.
Proof.
  intros Hs. unfold trim_suffix. destruct (has_suffix "/" s) eqn:E; [|done].
  exfalso. apply Hs. unfold has_suffix in E. apply andb_true_iff in E as [_ E].
  apply bool_decide_eq_true in E. revert E. generalize (String.length s - String.length "/")%nat.
  clear Hs. induction s as [|a s IH]; intros n E; [by destruct n|].
  destruct n as [|n]; [by injection E as -> ->|]. cbn [last_byte str_drop] in *.
  destruct s as [|b s]; [by destruct n|]. by apply (IH n).
Qed.

Lemma trim_prefix_slash s :
  trim_prefix "/" s = if decide (head_byte s = Some slash) then str_drop 1 s else s.
Proof.
  unfold trim_prefix. destruct s as [|a s]; [done|]. cbn [String.prefix head_byte]. fold slash.
  destruct (Ascii.ascii_dec slash a) as [<-|Hn].
  - rewrite decide_True by done. by destruct s.
  - by rewrite decide_False by congruence.
Qed.

Lemma DecConns_live σ b bk :
  σ !! b = Some bk →
  Backend_DecConns b σ = (Ret tt, <[b := set_activeConns (wrap64 (activeConns bk + -1)) bk]> σ).
Proof. intros H. unfold Backend_DecConns. by rewrite (update_live _ _ _ _ H). Qed.

(** The store while a request to [b] is in flight, and after it. *)
Definition with_conn (σ : store) (b : loc) : store := (Backend_IncConns b σ).2.
Definition without_conn (σ : store) (b : loc) : store := (Backend_DecConns b σ).2.

Lemma IncConns_live σ b :
  is_Some (σ !! b) → Backend_IncConns b σ = (Ret tt, with_conn σ b).
Proof. intros [bk H]. unfold with_conn, Backend_IncConns. by rewrite (update_live _ _ _ _ H). Qed.

Lemma with_conn_lookup σ b bk :
  σ !! b = Some bk →
  with_conn σ b !! b = Some (set_activeConns (wrap64 (activeConns bk + 1)) bk).
Proof.
  intros H. unfold with_conn, Backend_IncConns. rewrite (update_live _ _ _ _ H). simpl.
  by rewrite lookup_insert_eq.
Qed.

(** ** Properties of the URL rewriting *)

(** The backend's path and the request's path are joined by exactly one
    slash, whatever slashes they end and start with; only an empty request path
    on a base without trailing slash leaves the base alone. *)
Theorem singleJoiningSlash_joins a b :
  singleJoiningSlash a b =
    if decide (b = "" ∧ last_byte a ≠ Some slash) then a
    else trim_suffix "/" a +:+ String slash (trim_prefix "/" b).
Proof.
  unfold singleJoiningSlash. rewrite trim_prefix_slash.
  destruct (decide (last_byte a = Some slash)) as [Ha|Ha];
    destruct (decide (head_byte b = Some slash)) as [Hb|Hb];
    rewrite ?(bool_decide_eq_true_2 _ Ha), ?(bool_decide_eq_false_2 _ Ha),
      ?(bool_decide_eq_true_2 _ Hb), ?(bool_decide_eq_false_2 _ Hb); cbn [andb negb].
  - rewrite decide_False by tauto. rewrite (last_byte_snoc a Ha) at 1.
    by rewrite <- str_app_assoc.
  - rewrite decide_False by tauto. rewrite (last_byte_snoc a Ha) at 1.
    by rewrite <- str_app_assoc.
  - rewrite decide_False by (intros [-> _]; done).
    rewrite trim_suffix_none by done. by rewrite <- (head_byte_cons b Hb).
  - rewrite trim_suffix_none by done.
    destruct (decide (b = "")) as [->|He]; [by rewrite decide_True|by rewrite decide_False by tauto].
Qed.

Lemma lookup_Del_all ks h k :
  Header_Del_all ks h !! k = if decide (k ∈ canonical_key <$> ks) then None else h !! k.
Proof.
  unfold Header_Del_all. revert h. induction ks as [|x ks IH]; intros h; [done|]. cbn [foldl].
  rewrite IH. unfold Header_Del. rewrite lookup_delete, fmap_cons. repeat case_decide; set_solver.
Qed.

Lemma lookup_hop k h :
  k ∉ canonical_key <$> hop_headers →
  removeHopByHopHeaders h !! k = if decide (k ∈ canonical_key <$> connection_names h) then None else h !! k.
Proof. intros Hk. unfold removeHopByHopHeaders. by rewrite !lookup_Del_all, (decide_False _ _ Hk). Qed.

Lemma lookup_Header_Set_ne k k' v h : canonical_key k ≠ k' → Header_Set k v h !! k' = h !! k'.
Proof. intros Hn. unfold Header_Set. by rewrite lookup_insert_ne. Qed.

(** The last steps leave the other headers alone. *)
Lemma lookup_reverse_header dir r k :
  k ∉ ["Te"; "X-Forwarded-For"; "User-Agent"] →
  req_Header (reverse_request dir r) !! k = removeHopByHopHeaders (req_Header (dir r)) !! k.
Proof.
  intros Hk. rewrite !not_elem_of_cons in Hk. destruct Hk as (Ht & Hx & Hu & _).
  unfold reverse_request. cbn [with_header req_Header]. generalize (removeHopByHopHeaders (req_Header (dir r))).
  intros h0. set (h1 := if contains_token _ _ then _ else _).
  assert (h1 !! k = h0 !! k) as <-.
  { subst h1. destruct (contains_token _ _); [|done]. apply lookup_Header_Set_ne. by intros <-. }
  assert (append_forwarded (req_RemoteAddr r) h1 !! k = h1 !! k) as <-.
  { unfold append_forwarded. destruct (SplitHostPort _) as [[ip ?]|]; [|done].
    destruct (h1 !! _) as [[|v vs]|]; [done|..]; apply lookup_Header_Set_ne; by intros <-. }
  destruct (append_forwarded _ _ !! "User-Agent"); [done|]. apply lookup_Header_Set_ne. by intros <-.
Qed.

Lemma lookup_append_forwarded remote ip port h :
  SplitHostPort remote = inl (ip, port) → h !! "X-Forwarded-For" ≠ Some [] →
  append_forwarded remote h !! "X-Forwarded-For" =
    Some [match h !! "X-Forwarded-For" with
          | Some (v :: vs) => strings_Join (v :: vs) ", " +:+ ", " +:+ ip
          | _ => ip
          end].
Proof.
  intros Hip Hne. unfold append_forwarded. rewrite Hip. change (canonical_key "X-Forwarded-For") with "X-Forwarded-For".
  destruct (h !! "X-Forwarded-For") as [[|v vs]|] eqn:E1; [done|..]; apply lookup_insert_eq.
Qed.

Lemma lookup_reverse_forwarded dir r ip port :
  SplitHostPort (req_RemoteAddr r) = inl (ip, port) →
  removeHopByHopHeaders (req_Header (dir r)) !! "X-Forwarded-For" ≠ Some [] →
  req_Header (reverse_request dir r) !! "X-Forwarded-For" =
    Some [match removeHopByHopHeaders (req_Header (dir r)) !! "X-Forwarded-For" with
          | Some (v :: vs) => strings_Join (v :: vs) ", " +:+ ", " +:+ ip
          | _ => ip
          end].
Proof.
  intros Hip. unfold reverse_request. cbn [with_header req_Header]. generalize (removeHopByHopHeaders (req_Header (dir r))).
  intros h0 Hne. set (h1 := if contains_token _ _ then _ else _).
  assert (h1 !! "X-Forwarded-For" = h0 !! "X-Forwarded-For") as E.
  { subst h1. destruct (contains_token _ _); [|done]. by apply lookup_Header_Set_ne. }
  rewrite <- E in *. rewrite <- (lookup_append_forwarded _ ip port h1) by done.
  destruct (append_forwarded _ _ !! "User-Agent"); [done|]. by apply lookup_Header_Set_ne.
Qed.

(** What goes upstream: the request keeps its method, addresses the
    backend with the backend's host in the Host header and the joined path and
    query, and its context has the backend that was picked.  X-Forwarded-Proto
    is the protocol the client used, and X-Forwarded-For the first value the
    client sent, if any, followed by the client's address twice, once from the
    director and once from the reverse proxy; but a client that names one of
    the two in its Connection header takes what the director wrote away again:
    the upstream then gets no X-Forwarded-Proto, and the address only once. *)
Theorem reverse_request_upstream b target r ip port :
  SplitHostPort (req_RemoteAddr r) = inl (ip, port) →
  let out := upstream_request b target r in
  let named k := k ∈ canonical_key <$> connection_names (req_Header r) in
  BackendFromContext (req_Ctx out) = Some b ∧
  req_Method out = req_Method r ∧ req_Host out = url_Host target ∧
  req_Scheme out = url_Scheme target ∧ req_URLHost out = url_Host target ∧
  req_Path out = singleJoiningSlash (url_Path target) (req_Path r) ∧
  req_RawQuery out = join_query (url_RawQuery target) (req_RawQuery r) ∧
  req_Header out !! "X-Forwarded-Proto" =
    (if decide (named "X-Forwarded-Proto") then None else Some [scheme r]) ∧
  req_Header out !! "X-Forwarded-For" =
    Some [if decide (named "X-Forwarded-For") then ip
          else forwarded_for (Header_Get (req_Header r) "X-Forwarded-For") ip +:+ ", " +:+ ip].
Proof.
  intros Hip out named. subst out. unfold upstream_request. set (r' := with_backend b r).
  assert (connection_names (req_Header (director target r')) = connection_names (req_Header r)) as Hn.
  { unfold connection_names. do 3 f_equal. unfold director. cbn [req_Header].
    by rewrite !Header_Set_lookup, !decide_False by done. }
  assert (req_Header (director target r') !! "X-Forwarded-For" =
    Some [forwarded_for (Header_Get (req_Header r) "X-Forwarded-For") ip]) as Hf.
  { unfold director, forwarded_ip. change (req_RemoteAddr r') with (req_RemoteAddr r). rewrite Hip. cbn [req_Header].
    rewrite lookup_Header_Set_ne by done. apply lookup_insert_eq. }
  split_and!; try done.
  - rewrite lookup_reverse_header by (vm_compute; set_solver). rewrite lookup_hop by (vm_compute; set_solver).
    rewrite Hn. unfold named. destruct (decide _); [done|]. apply lookup_insert_eq.
  - assert (removeHopByHopHeaders (req_Header (director target r')) !! "X-Forwarded-For" =
      if decide (named "X-Forwarded-For") then None
      else Some [forwarded_for (Header_Get (req_Header r) "X-Forwarded-For") ip]) as E.
    { rewrite lookup_hop by (vm_compute; set_solver). by rewrite Hn, Hf. }
    rewrite (lookup_reverse_forwarded (director target) r' ip port) by (done || (rewrite E; by case_decide)).
    rewrite E. by case_decide.
Qed.

(** ** Properties of the proxy *)

Lemma defer_result {S A} (d : M S ()) (m : M S A) s o s' s'' :
  m s = (o, s') → o ≠ Panic Deadlock → d s' = (Ret tt, s'') → defer d m s = (o, s'').
Proof.
  intros Hm Ho Hd. unfold defer. rewrite Hm.
  destruct o as [a|[]]; rewrite ?Hd; done.
Qed.

(** The exchange with the backend the selector picked. *)
Lemma ServeHTTP_picked {St} `{Selector St} (RT : Request → M store (option Response)) p r s σ
    b bk s' res σ1 bk1 :
  live σ (backends p) → filter (healthy_at σ) (backends p) ≠ [] →
  Next r (filter (healthy_at σ) (backends p)) σ s = (Ret (Some b, None), s') →
  σ !! b = Some bk →
  RT (upstream_request b (BURL bk) r) (with_conn σ b) = (res, σ1) →
  res ≠ Panic Deadlock → σ1 !! b = Some bk1 →
  HTTPProxy_ServeHTTP RT p r (s, σ) =
    (match res with
     | Ret (Some resp) => Ret resp
     | Ret None => Ret (http_Error "bad gateway" 502)
     | Panic w => Panic w
     end, (s', <[b := set_activeConns (wrap64 (activeConns bk1 + -1)) bk1]> σ1)).
Proof.
  intros Hl Hne En Hbk ERT Hdl Hbk1. pose proof (Pool_Healthy_filter σ p Hl) as E.
  unfold HTTPProxy_ServeHTTP, mbind at 1 2 3 4, M_bind, gets, lift, on_selector, on_backends. cbn [fst snd].
  rewrite E. rewrite decide_False by (by rewrite zlen_zero). cbn [fst snd]. rewrite En. cbn [fst snd].
  rewrite (IncConns_live σ b) by eauto. cbn [fst snd].
  eapply defer_result with (s' := (s', σ1)).
  - cbv [ReverseProxy_ServeHTTP mbind M_bind mret M_ret gets lift on_backends]. cbn [fst snd].
    rewrite (deref_live _ _ _ (with_conn_lookup _ _ _ Hbk)). cbn [fst snd BURL set_activeConns].
    unfold upstream_request in ERT. rewrite ERT. by destruct res as [[resp|]|w].
  - destruct res as [[resp|]|w]; congruence.
  - cbn [fst snd]. by rewrite (DecConns_live _ _ _ Hbk1).
Qed.

(** Every exit of [ServeHTTP]. *)
Lemma ServeHTTP_cases {St} `{SelectorLaws St} (RT : Request → M store (option Response)) p r s σ :
  live σ (backends p) → sel_ready r (filter (healthy_at σ) (backends p)) σ s →
  (∀ req σ1, dom (RT req σ1).2 = dom σ1 ∧ (RT req σ1).1 ≠ Panic Deadlock) →
  (filter (healthy_at σ) (backends p) = [] ∧
    HTTPProxy_ServeHTTP RT p r (s, σ) = (Ret (http_Error "no healthy backends" 502), (s, σ))) ∨
  ∃ b bk s', b ∈ backends p ∧ healthy_at σ b ∧ σ !! b = Some bk ∧
    let '(res, σ1) := RT (upstream_request b (BURL bk) r) (with_conn σ b) in
    HTTPProxy_ServeHTTP RT p r (s, σ) =
      (match res with
       | Ret (Some resp) => Ret resp
       | Ret None => Ret (http_Error "bad gateway" 502)
       | Panic w => Panic w
       end, (s', without_conn σ1 b)) ∧
    ∃ bk1, σ1 !! b = Some bk1 ∧
      without_conn σ1 b = <[b := set_activeConns (wrap64 (activeConns bk1 + -1)) bk1]> σ1.
Proof.
  intros Hl Hr HRT. pose proof (Pool_Healthy_filter σ p Hl) as E.
  pose proof (filter_healthy_live σ (backends p)) as Hlive.
  destruct (decide (filter (healthy_at σ) (backends p) = [])) as [Hnil|Hne].
  - left. split; [done|]. unfold HTTPProxy_ServeHTTP, mbind, M_bind, gets, lift. simpl.
    rewrite E, Hnil. done.
  - right. destruct (next_picks r _ σ s Hne Hlive Hr) as (b & s' & En & Hb).
    apply list_elem_of_filter in Hb as [Hh Hb].
    destruct (live_elem _ _ _ Hl Hb) as [bk Hbk]. exists b, bk, s'. split_and!; try done.
    destruct (RT _ (with_conn σ b)) as [res σ1] eqn:ERT.
    destruct (HRT (upstream_request b (BURL bk) r) (with_conn σ b)) as [Hdom Hdl].
    rewrite ERT in Hdom, Hdl. cbn [fst snd] in Hdom, Hdl.
    assert (is_Some (σ1 !! b)) as [bk1 Hbk1].
    { apply elem_of_dom. rewrite Hdom. apply elem_of_dom. rewrite (with_conn_lookup _ _ _ Hbk). eauto. }
    assert (without_conn σ1 b = <[b := set_activeConns (wrap64 (activeConns bk1 + -1)) bk1]> σ1) as Hw
      by (unfold without_conn; by rewrite (DecConns_live _ _ _ Hbk1)).
    split; [|by exists bk1]. rewrite Hw. by eapply ServeHTTP_picked.
Qed.

(** C1. [ServeHTTP] keeps the promises the proxy makes, for every algorithm
    that satisfies the selector's laws: with no healthy backend it answers 502
    and touches nothing; otherwise it sends the rewritten request to one backend
    that is in the pool and healthy, with that backend's connection count one
    higher while the request is in flight, answers what the upstream answered
    or 502 on an upstream error, and takes the connection off the count again
    whether the exchange returned or panicked. *)
Theorem ServeHTTP_correct {St} `{SelectorLaws St} (RT : Request → M store (option Response)) p r s σ :
  live σ (backends p) → sel_ready r (filter (healthy_at σ) (backends p)) σ s →
  (∀ req σ1, dom (RT req σ1).2 = dom σ1 ∧ (RT req σ1).1 ≠ Panic Deadlock) →
  (filter (healthy_at σ) (backends p) = [] ∧
    HTTPProxy_ServeHTTP RT p r (s, σ) = (Ret (http_Error "no healthy backends" 502), (s, σ))) ∨
  ∃ b bk s', b ∈ backends p ∧ healthy_at σ b ∧ σ !! b = Some bk ∧
    let '(res, σ1) := RT (upstream_request b (BURL bk) r) (with_conn σ b) in
    HTTPProxy_ServeHTTP RT p r (s, σ) =
      (match res with
       | Ret (Some resp) => Ret resp
       | Ret None => Ret (http_Error "bad gateway" 502)
       | Panic w => Panic w
       end, (s', without_conn σ1 b)) ∧
    ∃ bk1, σ1 !! b = Some bk1 ∧
      without_conn σ1 b = <[b := set_activeConns (wrap64 (activeConns bk1 + -1)) bk1]> σ1.
Proof. apply ServeHTTP_cases. Qed.

(** ** Properties of the chain *)

(** The first middleware is the outermost: a chain of a middleware and a
    rest is the middleware around the rest's chain, a chain can be built in two
    parts, and no middleware is dropped or repeated. *)
Theorem Chain_order {H} (h : H) (m : H → H) (ms1 ms2 : list (H → H)) :
  Chain h [] = h ∧ Chain h (m :: ms1) = m (Chain h ms1) ∧
  Chain h (ms1 ++ ms2) = Chain (Chain h ms2) ms1 ∧
  Chain h (ms1 ++ ms2) = foldr (λ m h, m h) h (ms1 ++ ms2).
Proof.
  assert (∀ ms h, Chain h ms = foldr (λ m (h : H), m h) h ms) as E.
  { intros ms h'. unfold Chain. by rewrite chain_loop_foldr, firstn_all by done. }
  rewrite !E. split_and!; [done|done| |done]. by rewrite foldr_app.
Qed.

(** ** Properties of the TCP proxy *)

(** The connections of a TCP client load: one after the other. *)
Definition tcp_run (dial : string → bool) (tunnel : string → M store ()) (p : Pool) (n : nat)
    : M store (list (option string)) := repeatM n (TCPProxy_handleConn dial tunnel p).

Lemma filter_healthy_inv σ p b bs :
  filter (healthy_at σ) (backends p) = b :: bs → b ∈ backends p ∧ healthy_at σ b.
Proof.
  intros E. assert (b ∈ filter (healthy_at σ) (backends p)) as Hin by (rewrite E; by left).
  apply list_elem_of_filter in Hin. tauto.
Qed.

Lemma set_activeConns_back b :
  is_int64 (activeConns b) →
  set_activeConns (wrap64 (activeConns (set_activeConns (wrap64 (activeConns b + 1)) b) + -1))
    (set_activeConns (wrap64 (activeConns b + 1)) b) = b.
Proof.
  intros H. destruct b as [i u w n h]. cbn in *.
  by rewrite (wrap64_succ_pred n H : wrap64 (wrap64 (n + 1) + -1) = n).
Qed.

Lemma handleConn_step dial tunnel p σ b bs bk :
  live σ (backends p) → filter (healthy_at σ) (backends p) = b :: bs → σ !! b = Some bk →
  is_int64 (activeConns bk) →
  (∀ h σ1, tunnel h σ1 = (Ret tt, σ1)) →
  TCPProxy_handleConn dial tunnel p σ =
    (Ret (if dial (url_Host (BURL bk)) then Some (url_Host (BURL bk)) else None), σ).
Proof.
  intros Hl E Hbk Hint Ht. unfold TCPProxy_handleConn.
  unfold mbind at 1 2 3, M_bind, gets, lift. cbn [id].
  rewrite Pool_Healthy_filter by done. rewrite E. rewrite (IncConns_live σ b) by eauto.
  eapply (defer_result _ _ _ _ (with_conn σ b)).
  - cbv [mbind M_bind mret M_ret gets lift id].
    rewrite (deref_live _ _ _ (with_conn_lookup _ _ _ Hbk)). cbn [BURL set_activeConns].
    destruct (dial _); [by rewrite Ht|done].
  - by destruct (dial _).
  - rewrite (DecConns_live _ _ _ (with_conn_lookup _ _ _ Hbk)).
    rewrite set_activeConns_back by done.
    unfold with_conn, Backend_IncConns. rewrite (update_live _ _ _ _ Hbk). simpl.
    by rewrite insert_insert_eq, insert_id.
Qed.

(** The TCP proxy does not balance: any number of connections, one after
    the other, all go to the same backend, the first healthy one of the pool,
    although the code calls this a simple round-robin; each leaves the
    connection counts as it found them. *)
Theorem TCPProxy_always_first dial tunnel p n σ b bs bk :
  live σ (backends p) → filter (healthy_at σ) (backends p) = b :: bs → σ !! b = Some bk →
  is_int64 (activeConns bk) → dial (url_Host (BURL bk)) = true →
  (∀ h σ1, tunnel h σ1 = (Ret tt, σ1)) →
  tcp_run dial tunnel p n σ = (Ret (replicate n (Some (url_Host (BURL bk)))), σ).
Proof.
  intros Hl E Hbk Hint Hd Ht. unfold tcp_run.
  pose proof (handleConn_step dial tunnel p σ b bs bk Hl E Hbk Hint Ht) as Hs. rewrite Hd in Hs.
  induction n as [|n IH]; [done|]. cbn [repeatM replicate].
  by rewrite (bind_Ret _ _ _ _ _ Hs), (bind_Ret _ _ _ _ _ IH).
Qed.

(** ** Witnesses *)

Definition ex_client : Request :=
  mkRequest "GET" "lb" "10.0.0.1:5000" ∅ "" "" "/x" "" false [].

(** An upstream that answers 200 with the path it was asked for. *)
Definition ex_upstream : Request → M store (option Response) :=
  λ r σ, (Ret (Some (mkResponse 200 ∅ (req_Path r))), σ).

Lemma reverse_request_upstream_witness :
  req_Header (upstream_request 0%nat (ex_url "b0") ex_client) !! "X-Forwarded-For"
    = Some ["10.0.0.1, 10.0.0.1"].
Proof.
  apply (reverse_request_upstream 0%nat (ex_url "b0") ex_client "10.0.0.1" "5000").
  vm_compute. reflexivity.
Defined.

Lemma ServeHTTP_correct_witness :
  (filter (healthy_at ex_store) (backends ex_pool) = [] ∧
    HTTPProxy_ServeHTTP ex_upstream ex_pool ex_client (NewRoundRobin, ex_store) =
      (Ret (http_Error "no healthy backends" 502), (NewRoundRobin, ex_store))) ∨
  ∃ b bk s', b ∈ backends ex_pool ∧ healthy_at ex_store b ∧ ex_store !! b = Some bk ∧
    let '(res, σ1) := ex_upstream (upstream_request b (BURL bk) ex_client)
                        (with_conn ex_store b) in
    HTTPProxy_ServeHTTP ex_upstream ex_pool ex_client (NewRoundRobin, ex_store) =
      (match res with
       | Ret (Some resp) => Ret resp
       | Ret None => Ret (http_Error "bad gateway" 502)
       | Panic w => Panic w
       end, (s', without_conn σ1 b)) ∧
    ∃ bk1, σ1 !! b = Some bk1 ∧
      without_conn σ1 b = <[b := set_activeConns (wrap64 (activeConns bk1 + -1)) bk1]> σ1.
Proof.
  apply (ServeHTTP_correct ex_upstream ex_pool ex_client NewRoundRobin ex_store ex_pool_live).
  { vm_compute. split; discriminate. }
  intros req σ1. split; [reflexivity|discriminate].
Defined.

Lemma TCPProxy_always_first_witness :
  tcp_run (λ _, true) (λ _ σ, (Ret tt, σ)) ex_pool 3 ex_store =
    (Ret (replicate 3 (Some "b0")), ex_store).
Proof.
  apply (TCPProxy_always_first (λ _, true) (λ _ σ, (Ret tt, σ)) ex_pool 3 ex_store 0%nat [2%nat]
    (ex_backend "b0" 1 HealthHealthy) ex_pool_live); try (vm_compute; reflexivity).
  - vm_compute. split; discriminate.
Defined.
