(* ===== verification/Monitor.v ===== *)
(** The active checker (internal/health/checker.go) and the HTTP proxy
    (internal/proxy/http.go) on one pool: what rounds of concurrent probes mean
    for the requests that follow. *)

From S2P Require Export CheckerConc HttpProxy.
From S2P Require Import SelRoundRobin.

#[local] Open Scope Z_scope.

(** Ticks of [Run], each with what the network answers at that time. *)
Fixpoint ticks (es : list probe_env) : M (Checker * store) () :=
  match es with
  | [] => mret tt
  | e :: es' => Checker_tick (pe_dial e) (pe_get e);; ticks es'
  end.

(** Ticks that do not overlap: each with what the network answers and with an
    interleaving of the steps of its probes, which all end before the next tick;
    nothing when the program does not survive or a probe has not ended.  The
    goroutines of a round that is over are gone. *)
Abbreviation round := (probe_env * list nat)%type.

Fixpoint conc_ticks (rs : list round) (w : Checker * store) : option (Checker * store) :=
  match rs with
  | [] => Some w
  | (e, sched) :: rs' =>
      w' ← run_acts (pe_dial e) (pe_get e) (ATick :: (AProbe <$> sched)) (run_start w.1 w.2);
      if decide (all_done w') then conc_ticks rs' (sh_checker (rn_shared w'), sh_store (rn_shared w')) else None
  end.

(** What the probes of a backend find over the ticks. *)
Definition outcomes (c : Checker) (b : Backend) (es : list probe_env) : list bool :=
  (λ e, probe_outcome (pe_dial e) (pe_get e) c b) <$> es.

(** ** Lemmas *)

Ltac in_range := unfold is_int64, min_int64, max_int64 in *; lia.

(** *** The automaton of one backend *)

Definition ck_fold (cfg : HealthConfig) (os : list bool) (v : (Z * Z) * Health) : (Z * Z) * Health :=
  fold_left (λ v o, ck_step cfg o v) os v.

Lemma ck_fold_app cfg os1 os2 v : ck_fold cfg (os1 ++ os2) v = ck_fold cfg os2 (ck_fold cfg os1 v).
Proof. apply fold_left_app. Qed.

(** Counters in range for the next [n] probes. *)
Definition counts_in (m : Z) (v : (Z * Z) * Health) : Prop := 0 ≤ v.1.1 ≤ m ∧ 0 ≤ v.1.2 ≤ m.

Lemma ck_fold_counts cfg os m v :
  counts_in m v → m + zlen os ≤ max_int64 → counts_in (m + zlen os) (ck_fold cfg os v).
Proof.
  unfold zlen. revert m v. induction os as [|o os IH]; intros m v Hv Hm; cbn [ck_fold fold_left length] in *.
  - by rewrite Z.add_0_r.
  - replace (m + Z.of_nat (S (length os))) with ((m + 1) + Z.of_nat (length os)) by lia. apply IH; [|lia].
    destruct v as [[f s] h]. unfold counts_in in *. cbn in *.
    destruct o; cbn; rewrite wrap64_id by in_range; lia.
Qed.

(** A streak of one outcome counts up its counter and clears the other. *)
Lemma ck_fold_streak cfg o n f s h :
  0 ≤ f → 0 ≤ s → f + s + Z.of_nat (S n) ≤ max_int64 →
  (ck_fold cfg (replicate (S n) o) ((f, s), h)).1 =
    if o then (0, s + Z.of_nat (S n)) else (f + Z.of_nat (S n), 0).
Proof.
  revert f s h. induction n as [|n IH]; intros f s h Hf Hs Hm.
  - cbn. destruct o; cbn; by rewrite wrap64_id by in_range.
  - change (ck_fold cfg (replicate (S (S n)) o) ((f, s), h)) with
      (ck_fold cfg (replicate (S n) o) (ck_step cfg o ((f, s), h))).
    unfold ck_step. destruct o; rewrite wrap64_id by in_range; rewrite IH by lia; f_equal; lia.
Qed.

(** The counters before the last of a streak. *)
Lemma ck_fold_before cfg o n v m :
  counts_in m v → m + m + Z.of_nat n ≤ max_int64 →
  ∃ f s, (ck_fold cfg (replicate n o) v).1 = (f, s) ∧ 0 ≤ f ≤ m + Z.of_nat n ∧ 0 ≤ s ≤ m + Z.of_nat n ∧
    Z.of_nat n ≤ (if o then s else f).
Proof.
  destruct v as [[f s] h]. unfold counts_in. cbn [fst snd]. intros [Hf Hs] Hm. destruct n as [|n].
  - exists f, s. cbn. split_and!; try lia; try done. destruct o; lia.
  - rewrite ck_fold_streak by lia. destruct o; eexists _, _; split_and!; try reflexivity; lia.
Qed.

Lemma ck_fold_last cfg o n v :
  ck_fold cfg (replicate (S n) o) v = ck_step cfg o (ck_fold cfg (replicate n o) v).
Proof. by rewrite replicate_S_end, ck_fold_app. Qed.

Definition thresholds_pos (cfg : HealthConfig) : Prop :=
  0 < hc_FailureThreshold cfg ∧ 0 < hc_SuccessThreshold cfg.

(** As many failures as the threshold take a backend out. *)
Lemma ck_fold_ejects cfg n v m :
  thresholds_pos cfg → counts_in m v → m + m + Z.of_nat n < max_int64 → hc_FailureThreshold cfg ≤ Z.of_nat n →
  (ck_fold cfg (replicate n false) v).2 ≠ HealthHealthy.
Proof.
  intros [HF HS] Hv Hm Hn. destruct n as [|n]; [lia|]. rewrite ck_fold_last.
  destruct (ck_fold_before cfg false n v m Hv) as (f & s & E & H1 & H2 & H3); [lia|].
  destruct (ck_fold cfg (replicate n false) v) as [fs h]. cbn [fst] in E. subst fs. unfold ck_step.
  rewrite wrap64_id by in_range. cbn [fst snd]. destruct h; repeat case_decide; try done; lia.
Qed.

Lemma ck_fold_not_disabled cfg os v : v.2 ≠ HealthDisabled → (ck_fold cfg os v).2 ≠ HealthDisabled.
Proof.
  revert v. induction os as [|o os IH]; intros [[f s] h] Hv; [done|]. apply IH. cbn in *.
  destruct h; repeat case_decide; done.
Qed.

(** One success more than the threshold brings it back. *)
Lemma ck_fold_recovers cfg n v m :
  thresholds_pos cfg → counts_in m v → m + m + Z.of_nat n < max_int64 → hc_SuccessThreshold cfg < Z.of_nat n →
  v.2 ≠ HealthDisabled → (ck_fold cfg (replicate n true) v).2 = HealthHealthy.
Proof.
  intros [HF HS] Hv Hm Hn Hd. destruct n as [|[|n]]; [lia|lia|]. rewrite !ck_fold_last.
  destruct (ck_fold_before cfg true n v m Hv) as (f & s & E & H1 & H2 & H3); [lia|].
  pose proof (ck_fold_not_disabled cfg (replicate n true) v Hd) as Hd'.
  destruct (ck_fold cfg (replicate n true) v) as [fs h]. cbn [fst snd] in *. subst fs. unfold ck_step at 2.
  rewrite wrap64_id by in_range. unfold ck_step. rewrite wrap64_id by in_range. cbn [fst snd].
  destruct h; try done; repeat (case_decide; try done); lia.
Qed.

(** *** Many rounds *)

(** Probes change the counters and the health of backends, nothing else. *)
Definition kept (w w' : Checker * store) : Prop :=
  ck_cfg w'.1 = ck_cfg w.1 ∧ ck_pool w'.1 = ck_pool w.1 ∧ ∀ l, ∃ h, w'.2 !! l = set_health h <$> w.2 !! l.

#[export] Instance kept_preorder : PreOrder kept.
Proof.
  split.
  - intros w. split_and!; [done..|]. intros l. destruct (w.2 !! l) as [b|]; [|by exists HealthHealthy].
    exists (health b). cbn. by rewrite set_health_id.
  - intros w1 w2 w3 (C1 & P1 & H1) (C2 & P2 & H2). split_and!; [congruence..|]. intros l.
    destruct (H1 l) as [h1 E1], (H2 l) as [h2 E2]. exists h2. rewrite E2, E1. by destruct (w1.2 !! l).
Qed.

Lemma kept_effect dial get l b w : w.2 !! l = Some b → kept w (probe_effect dial get l b w).
Proof.
  intros Hb. split_and!; cbn; try apply Checker_count_cfg. intros l'. rewrite lookup_insert. case_decide as Hl.
  - subst l'. rewrite Hb. by eexists.
  - destruct (w.2 !! l') as [b'|]; [|by exists HealthHealthy]. exists (health b'). cbn. by rewrite set_health_id.
Qed.

Lemma kept_forM dial get ls w :
  live w.2 ls → ∃ w', forM ls (Checker_probe dial get) w = (Ret tt, w') ∧ kept w w'.
Proof.
  revert w. induction ls as [|l ls IH]; intros w Hl; [by exists w|].
  apply Forall_cons in Hl as [[b Hb] Hl].
  destruct (IH (probe_effect dial get l b w)) as (w' & E & K).
  { eapply Forall_impl; [exact Hl|]. intros l' Hl'. simpl. by apply lookup_insert_is_Some'; right. }
  exists w'. cbn [forM]. rewrite (bind_Ret _ _ _ _ _ (Checker_probe_effect dial get l b w Hb)).
  split; [done|]. etrans; [by apply kept_effect|done].
Qed.

Lemma kept_separate w w' ls : kept w w' → separate w.2 ls → separate w'.2 ls.
Proof.
  intros (_ & _ & H) (H1 & H2 & H3). split_and!; [| |done].
  - eapply Forall_impl; [exact H1|]. intros l [b Hb]. destruct (H l) as [h ->]. rewrite Hb. by eexists.
  - eapply distinct_ids_same; [|exact H2]. intros l. unfold id_of. destruct (H l) as [h ->]. by destruct (w.2 !! l).
Qed.

Lemma kept_lookup w w' l b : kept w w' → w.2 !! l = Some b → ∃ h, w'.2 !! l = Some (set_health h b).
Proof. intros (_ & _ & H) Hb. destruct (H l) as [h E]. exists h. by rewrite E, Hb. Qed.

Lemma kept_outcomes w w' h b es : kept w w' → outcomes w'.1 (set_health h b) es = outcomes w.1 b es.
Proof.
  intros (Hc & _). apply list_fmap_ext. intros _ e _. by rewrite (probe_outcome_cfg _ _ w.1).
Qed.

(** Ticks run every backend through its own automaton. *)
Lemma ticks_views es w :
  separate w.2 (backends (ck_pool w.1)) →
  ∃ w', ticks es w = (Ret tt, w') ∧ kept w w' ∧
    ∀ l b, l ∈ backends (ck_pool w.1) → w.2 !! l = Some b →
      backend_view w' l = Some (ck_fold (ck_cfg w.1) (outcomes w.1 b es) (ck_view w.1 (ID b), health b)).
Proof.
  revert w. induction es as [|e es IH]; intros w Hs.
  - exists w. split_and!; try done. intros l b _ Hb. unfold backend_view. by rewrite Hb.
  - destruct (kept_forM (pe_dial e) (pe_get e) _ w (proj1 Hs)) as (w1 & E1 & K1).
    destruct w as [c σ]. cbn [fst snd] in *.
    destruct (Checker_round (pe_dial e) (pe_get e) c σ _ Hs (Permutation_refl _)) as (w1' & E1' & Et & Hv).
    rewrite E1 in E1'. injection E1' as <-.
    pose proof K1 as (Hc & Hp & _). cbn [fst snd] in *.
    destruct (IH w1) as (w' & E & K & H); [rewrite Hp; by apply (kept_separate (c, σ))|].
    exists w'. cbn [ticks]. rewrite (bind_Ret _ _ _ _ _ Et). split_and!; [done|by etrans|].
    intros l b Hl Hb. destruct (kept_lookup (c, σ) w1 l b K1 Hb) as [h Hb1].
    rewrite (H l (set_health h b)) by (by rewrite ?Hp). rewrite Hc.
    rewrite (kept_outcomes (c, σ) w1 h b es K1). cbn [fst outcomes fmap list_fmap].
    specialize (Hv l b Hl Hb). unfold backend_view in Hv. rewrite Hb1 in Hv. cbn [mbind option_bind] in Hv.
    apply (inj Some) in Hv. cbn [ck_fold fold_left]. by rewrite <- Hv.
Qed.

(** Concurrent rounds do what serial ones do. *)
Lemma conc_ticks_serial rs w w' :
  separate w.2 (backends (ck_pool w.1)) → conc_ticks rs w = Some w' → ticks rs.*1 w = (Ret tt, w').
Proof.
  revert w. induction rs as [|[e sched] rs IH]; intros w Hs H; [by injection H as ->|].
  cbn [conc_ticks] in H. apply bind_Some in H as (w1 & E & H). case_decide as Hd; [|done].
  destruct w as [c σ]. cbn [fst snd] in *.
  assert (no_tick (AProbe <$> sched)) as Hnt by (unfold no_tick; by apply Forall_fmap, Forall_true).
  destruct (run_round_tick (pe_dial e) (pe_get e) c σ _ w1 Hs Hnt E Hd) as [Et _].
  destruct (kept_forM (pe_dial e) (pe_get e) _ (c, σ) (proj1 Hs)) as (w2 & E2 & K).
  assert (w2 = (sh_checker (rn_shared w1), sh_store (rn_shared w1))) as ->.
  { unfold Checker_tick, mbind, M_bind, gets, id in Et. cbn [fst snd] in *. unfold Pool_Backends in Et.
    rewrite E2 in Et. by injection Et as ->. }
  cbn [fmap list_fmap fst ticks]. rewrite (bind_Ret _ _ _ _ _ Et). apply IH; [|done].
  pose proof K as (_ & -> & _). by apply (kept_separate (c, σ)).
Qed.

Lemma view_healthy w l v h : backend_view w l = Some (v, h) → healthy_at w.2 l ↔ h = HealthHealthy.
Proof.
  unfold backend_view, healthy_at. intros H. apply bind_Some in H as (b & -> & [= _ <-]). cbn.
  split; [by intros [= ?]|by intros ->].
Qed.

(** What a final streak of one outcome makes of a backend. *)
Lemma ticks_streak pool cfg σ l b es es' o c' σ' :
  separate σ (backends pool) → l ∈ backends pool → σ !! l = Some b →
  let c := NewChecker pool cfg in
  zlen es < max_int64 → outcomes c b es' = replicate (length es') o →
  ticks (es ++ es') (c, σ) = (Ret tt, (c', σ')) →
  ∃ v, live σ' (backends pool) ∧
    counts_in (zlen es) v ∧ (health b ≠ HealthDisabled → v.2 ≠ HealthDisabled) ∧
    (healthy_at σ' l ↔ (ck_fold cfg (replicate (length es') o) v).2 = HealthHealthy).
Proof.
  intros Hs Hl Hb c Hlen Hos Hrun.
  destruct (ticks_views (es ++ es') (c, σ) Hs) as (w & E & K & Hv). rewrite Hrun in E. injection E as <-.
  specialize (Hv l b Hl Hb). cbn [fst snd] in Hv. unfold outcomes in Hv. rewrite fmap_app, ck_fold_app in Hv.
  fold (outcomes c b es) (outcomes c b es') in Hv. rewrite Hos in Hv.
  exists (ck_fold cfg (outcomes c b es) (ck_view c (ID b), health b)). split_and!.
  - by apply (kept_separate (c, σ) (c', σ')).
  - replace (zlen es) with (0 + zlen (outcomes c b es)) by (unfold zlen, outcomes; rewrite length_fmap; lia).
    apply ck_fold_counts; [done|]. unfold zlen, outcomes in *. rewrite length_fmap. lia.
  - intros Hd. by apply ck_fold_not_disabled.
  - change (ck_cfg c) with cfg in Hv.
    destruct (ck_fold cfg (replicate (length es') o) _) as [cnt h]. exact (view_healthy (c', σ') l cnt h Hv).
Qed.

Lemma conc_ticks_streak pool cfg σ l b rs rs' o c' σ' :
  separate σ (backends pool) → l ∈ backends pool → σ !! l = Some b →
  let c := NewChecker pool cfg in
  zlen rs < max_int64 → outcomes c b rs'.*1 = replicate (length rs') o →
  conc_ticks (rs ++ rs') (c, σ) = Some (c', σ') →
  ∃ v, live σ' (backends pool) ∧
    counts_in (zlen rs) v ∧ (health b ≠ HealthDisabled → v.2 ≠ HealthDisabled) ∧
    (healthy_at σ' l ↔ (ck_fold cfg (replicate (length rs') o) v).2 = HealthHealthy).
Proof.
  intros Hs Hl Hb c Hlen Hos Hrun. apply conc_ticks_serial in Hrun; [|done]. rewrite fmap_app in Hrun.
  assert (zlen rs = zlen rs.*1) as Hzl by (unfold zlen; by rewrite length_fmap). rewrite Hzl in *.
  rewrite <- (length_fmap fst rs') in *. by apply (ticks_streak pool cfg σ l b rs.*1 rs'.*1 o c' σ').
Qed.

(** ** Properties *)

(** C10. Failing health checks take a backend out of the traffic.  The backends
    of the pool have distinct ids and the thresholds are positive.  In each of any
    number of rounds that do not overlap (fewer than 2^62 in all) a tick starts
    the probes of all backends, which interleave in any way that the program
    survives.  When the probes of a backend have failed in the last rounds, at
    least as many as the failure threshold, whatever happened before and to
    other backends, then no request is sent to it by the proxy: for any algorithm
    that is lawful and ready, and an exchange that removes no backend and does
    not block for ever, the answer is 502 without an exchange, or comes from the
    exchange with another, healthy backend. *)
Theorem failing_backend_loses_traffic {St} `{SelectorLaws St} pool cfg σ l b rs rs' c' σ' :
  separate σ (backends pool) → thresholds_pos cfg → l ∈ backends pool → σ !! l = Some b →
  2 * zlen rs + zlen rs' < max_int64 →
  let c := NewChecker pool cfg in
  conc_ticks (rs ++ rs') (c, σ) = Some (c', σ') →
  outcomes c b rs'.*1 = replicate (length rs') false → hc_FailureThreshold cfg ≤ zlen rs' →
  ∀ (RT : Request → M store (option Response)) r s,
    (∀ req σ1, dom (RT req σ1).2 = dom σ1 ∧ (RT req σ1).1 ≠ Panic Deadlock) →
    sel_ready r (filter (healthy_at σ') (backends pool)) σ' s →
    (HTTPProxy_ServeHTTP RT pool r (s, σ')).1 = Ret (http_Error "no healthy backends" 502) ∨
    ∃ l' b', l' ∈ backends pool ∧ l' ≠ l ∧ healthy_at σ' l' ∧ σ' !! l' = Some b' ∧
      (HTTPProxy_ServeHTTP RT pool r (s, σ')).1 =
        match (RT (upstream_request l' (BURL b') r) (with_conn σ' l')).1 with
        | Ret (Some resp) => Ret resp
        | Ret None => Ret (http_Error "bad gateway" 502)
        | Panic w => Panic w
        end.
Proof.
  intros Hs Hth Hl Hb Hlen c Hrun Hos Hn. unfold zlen in *.
  destruct (conc_ticks_streak pool cfg σ l b rs rs' false c' σ' Hs Hl Hb) as (v & Hlive & Hin & _ & Hh);
    [unfold zlen; lia|done|done|].
  assert (¬ healthy_at σ' l) as Hun.
  { rewrite Hh. apply (ck_fold_ejects _ _ _ _ Hth Hin); unfold zlen; lia. }
  intros RT r s HRT Hr.
  destruct (ServeHTTP_cases RT pool r s σ' Hlive Hr HRT) as [[_ ->]|(l' & b' & s' & H1 & H2 & H3 & H4)]; [by left|right].
  exists l', b'. split_and!; try done; [by intros ->|].
  destruct (RT (upstream_request l' (BURL b') r) (with_conn σ' l')) as [res σ1].
  destruct H4 as [-> _]. done.
Qed.

(** C11. A backend that passes its checks again gets traffic again.  The backends
    of the pool have distinct ids and the thresholds are positive; rounds are
    those of C10.  Unless an operator disabled it, a backend whose probes have
    succeeded in the last rounds, more of them than the success threshold,
    whatever happened before, is among the backends that the proxy offers to its
    algorithm.  The active checker waits for no backoff. *)
Theorem recovered_backend_is_offered pool cfg σ l b rs rs' c' σ' :
  separate σ (backends pool) → thresholds_pos cfg → l ∈ backends pool → σ !! l = Some b →
  2 * zlen rs + zlen rs' < max_int64 → health b ≠ HealthDisabled →
  let c := NewChecker pool cfg in
  conc_ticks (rs ++ rs') (c, σ) = Some (c', σ') →
  outcomes c b rs'.*1 = replicate (length rs') true → hc_SuccessThreshold cfg < zlen rs' →
  ∃ bs, Pool_Healthy σ' pool = Ret bs ∧ l ∈ bs.
Proof.
  intros Hs Hth Hl Hb Hlen Hd c Hrun Hos Hn. unfold zlen in *.
  destruct (conc_ticks_streak pool cfg σ l b rs rs' true c' σ' Hs Hl Hb) as (v & Hlive & Hin & Hnd & Hh);
    [unfold zlen; lia|done|done|].
  exists (filter (healthy_at σ') (backends pool)).
  split; [by apply Pool_Healthy_filter|]. apply list_elem_of_filter. split; [|done].
  apply Hh, (ck_fold_recovers _ _ _ _ Hth Hin); [unfold zlen; lia|lia|by apply Hnd].
Qed.

(** ** Witnesses *)

(** A network on which the health endpoint of one backend answers [down], the
    others 200. *)
Definition ex_net (host : string) (down : Z) : probe_env :=
  mkEnv (λ _ _ _, false) (λ url, Some (if decide (url = ("http://" +:+ host) +:+ "/health") then down else 200)) 0 0.

Lemma ex_thresholds : thresholds_pos DefaultHealthConfig.
Proof. by split. Qed.

(** Three probes interleaved so that the program survives. *)
Definition ex_sched : list nat :=
  ([0; 1; 2; 1; 1; 0; 0; 1; 1; 2; 2; 0; 0; 2; 2] ++ concat (replicate 5 [2; 0; 1]))%nat.
Definition ex_rounds (host : string) (down : Z) (n : nat) : list round := replicate n (ex_net host down, ex_sched).

(** b0 fails three probes, after one that it passed; b2 answers. *)
Lemma failing_backend_loses_traffic_witness :
  ∃ c' σ', conc_ticks (ex_rounds "b0" 200 1 ++ ex_rounds "b0" 503 3) (NewChecker ex_pool DefaultHealthConfig, ex_store) =
      Some (c', σ') ∧
    ((HTTPProxy_ServeHTTP ex_upstream ex_pool ex_client (NewRoundRobin, σ')).1 =
       Ret (http_Error "no healthy backends" 502) ∨
     ∃ l' b', l' ∈ backends ex_pool ∧ l' ≠ 0%nat ∧ healthy_at σ' l' ∧ σ' !! l' = Some b' ∧
       (HTTPProxy_ServeHTTP ex_upstream ex_pool ex_client (NewRoundRobin, σ')).1 =
         match (ex_upstream (upstream_request l' (BURL b') ex_client) (with_conn σ' l')).1 with
         | Ret (Some resp) => Ret resp
         | Ret None => Ret (http_Error "bad gateway" 502)
         | Panic w => Panic w
         end).
Proof.
  destruct (conc_ticks (ex_rounds "b0" 200 1 ++ ex_rounds "b0" 503 3) (NewChecker ex_pool DefaultHealthConfig, ex_store))
    as [[c' σ']|] eqn:E; [|vm_compute in E; discriminate E].
  exists c', σ'. split; [reflexivity|].
  apply (failing_backend_loses_traffic (St := RoundRobin) ex_pool DefaultHealthConfig ex_store 0%nat
    (ex_backend "b0" 1 HealthHealthy) (ex_rounds "b0" 200 1) (ex_rounds "b0" 503 3) c' σ' ex_pool_separate ex_thresholds).
  - vm_compute. left.
  - vm_compute. reflexivity.
  - vm_compute. reflexivity.
  - exact E.
  - vm_compute. reflexivity.
  - vm_compute. discriminate.
  - intros req σ1. split; [reflexivity|discriminate].
  - vm_compute in E. injection E as _ <-. vm_compute. split; discriminate.
Defined.

Lemma recovered_backend_is_offered_witness :
  ∃ c' σ' bs, conc_ticks (ex_rounds "b1" 503 1 ++ ex_rounds "b1" 200 3) (NewChecker ex_pool DefaultHealthConfig, ex_store) =
      Some (c', σ') ∧ Pool_Healthy σ' ex_pool = Ret bs ∧ 1%nat ∈ bs.
Proof.
  destruct (conc_ticks (ex_rounds "b1" 503 1 ++ ex_rounds "b1" 200 3) (NewChecker ex_pool DefaultHealthConfig, ex_store))
    as [[c' σ']|] eqn:E; [|vm_compute in E; discriminate E].
  exists c', σ'.
  destruct (recovered_backend_is_offered ex_pool DefaultHealthConfig ex_store 1%nat (ex_backend "b1" 2 HealthUnhealthy)
    (ex_rounds "b1" 503 1) (ex_rounds "b1" 200 3) c' σ' ex_pool_separate ex_thresholds) as (bs & H1 & H2).
  - vm_compute. right. left.
  - vm_compute. reflexivity.
  - vm_compute. reflexivity.
  - discriminate.
  - exact E.
  - vm_compute. reflexivity.
  - vm_compute. reflexivity.
  - exists bs. split; [reflexivity|]. split; [exact H1|exact H2].
Defined.
