(* ===== verification/Transport.v ===== *)
(** The upstream transport and connections with deadlines
    (internal/proxy/transport.go, and the transport that NewHTTPProxy of http.go
    builds in place). *)

From S2P Require Export GoInt.

#[local] Open Scope Z_scope.

(** ** Settings *)

Record TransportConfig := mkTransportConfig {
  tr_DialTimeout : Duration;
  tr_KeepAlive : Duration;
  tr_MaxIdleConns : Z;
  tr_MaxIdleConnsPerHost : Z;
  tr_IdleConnTimeout : Duration;
  tr_TLSHandshakeTimeout : Duration;
  tr_ResponseHeaderTimeout : Duration;
  tr_InsecureSkipVerify : bool;
}.

Definition DefaultTransportConfig : TransportConfig :=
  mkTransportConfig (10 * Second) (30 * Second) 200 20 (90 * Second) (10 * Second) (30 * Second) false.

(** The fields of [http.Transport] and of its dialer that the program sets; the
    TLS client configuration is kept as its [InsecureSkipVerify], nothing when
    it is not set. *)
Record http_Transport := mkTransport {
  ht_dial_Timeout : Duration;
  ht_dial_KeepAlive : Duration;
  ht_MaxIdleConns : Z;
  ht_MaxIdleConnsPerHost : Z;
  ht_IdleConnTimeout : Duration;
  ht_TLSHandshakeTimeout : Duration;
  ht_ResponseHeaderTimeout : Duration;
  ht_TLSClientConfig : option bool;
}.

Definition NewTransport (cfg : TransportConfig) : http_Transport :=
  mkTransport (tr_DialTimeout cfg) (tr_KeepAlive cfg) (tr_MaxIdleConns cfg) (tr_MaxIdleConnsPerHost cfg)
    (tr_IdleConnTimeout cfg) (tr_TLSHandshakeTimeout cfg) (tr_ResponseHeaderTimeout cfg)
    (Some (tr_InsecureSkipVerify cfg)).

(** The transport of [NewHTTPProxy]. *)
Definition proxy_transport : http_Transport :=
  mkTransport (10 * Second) (30 * Second) 200 20 (90 * Second) (10 * Second) (30 * Second) None.

(** Whether the server certificate of an upstream is verified. *)
Definition verifies_upstream (t : http_Transport) : bool := negb (default false (ht_TLSClientConfig t)).

(** ** Deadlines *)

(** A connection under a [deadlineConn]: the deadlines in force, if any, and
    for each operation when it would complete. *)
Record timed_conn := mkTimedConn {
  tcn_readDeadline : option Time;
  tcn_writeDeadline : option Time;
}.

Record deadlineConn := mkDeadlineConn {
  dc_conn : timed_conn;
  dc_read : Duration;
  dc_write : Duration;
}.

(** [Conn.Read] that starts at [now] and would have data at [ready]: it is cut
    off at the deadline in force. [true] is success. *)
Definition completes (deadline : option Time) (ready : Time) : bool :=
  match deadline with None => true | Some d => bool_decide (ready < d) end.

Definition deadlineConn_Read (now ready : Time) : M deadlineConn bool := λ d,
  let c := dc_conn d in
  let c := if decide (0 < dc_read d)
           then mkTimedConn (Some (Time_Add now (dc_read d))) (tcn_writeDeadline c) else c in
  (Ret (completes (tcn_readDeadline c) ready), mkDeadlineConn c (dc_read d) (dc_write d)).

Definition deadlineConn_Write (now ready : Time) : M deadlineConn bool := λ d,
  let c := dc_conn d in
  let c := if decide (0 < dc_write d)
           then mkTimedConn (tcn_readDeadline c) (Some (Time_Add now (dc_write d))) else c in
  (Ret (completes (tcn_writeDeadline c) ready), mkDeadlineConn c (dc_read d) (dc_write d)).

Inductive conn_call := CallRead (now ready : Time) | CallWrite (now ready : Time).

Definition conn_call_run (c : conn_call) : M deadlineConn bool :=
  match c with CallRead n r => deadlineConn_Read n r | CallWrite n r => deadlineConn_Write n r end.

Fixpoint conn_run (cs : list conn_call) : M deadlineConn (list bool) :=
  match cs with
  | [] => mret []
  | c :: cs' => b ← conn_call_run c; bs ← conn_run cs'; mret (b :: bs)
  end.

(** ** Properties *)

(** The transport that the proxy builds in place has the settings of the
    default configuration, and both verify the upstream's certificate. *)
Theorem proxy_transport_is_default :
  proxy_transport = mkTransport
    (ht_dial_Timeout (NewTransport DefaultTransportConfig)) (ht_dial_KeepAlive (NewTransport DefaultTransportConfig))
    (ht_MaxIdleConns (NewTransport DefaultTransportConfig)) (ht_MaxIdleConnsPerHost (NewTransport DefaultTransportConfig))
    (ht_IdleConnTimeout (NewTransport DefaultTransportConfig))
    (ht_TLSHandshakeTimeout (NewTransport DefaultTransportConfig))
    (ht_ResponseHeaderTimeout (NewTransport DefaultTransportConfig)) None ∧
  verifies_upstream proxy_transport = true ∧ verifies_upstream (NewTransport DefaultTransportConfig) = true.
Proof. by vm_compute. Qed.

(** Deadlines are per operation: on a fresh connection, whatever calls came
    before, an operation completes exactly when it would be ready within its
    limit from its own start, and always when its limit is not positive; an
    earlier operation never cuts a later one short. *)
Theorem deadlines_per_operation rd wr cs d :
  dc_conn d = mkTimedConn None None → dc_read d = rd → dc_write d = wr →
  ∃ d', conn_run cs d = (Ret ((λ c,
    match c with
    | CallRead now ready => bool_decide (rd ≤ 0 ∨ ready < Time_Add now rd)
    | CallWrite now ready => bool_decide (wr ≤ 0 ∨ ready < Time_Add now wr)
    end) <$> cs), d').
Proof.
  intros Hc Hr Hw.
  assert ((rd ≤ 0 → tcn_readDeadline (dc_conn d) = None) ∧ (wr ≤ 0 → tcn_writeDeadline (dc_conn d) = None))
    as H by (by rewrite Hc).
  clear Hc. revert d Hr Hw H. induction cs as [|c cs IH]; intros d Hr Hw [H1 H2]; [by exists d|].
  cbn [conn_run]. rewrite fmap_cons.
  assert (∃ d1, conn_call_run c d = (Ret (match c with
    | CallRead now ready => bool_decide (rd ≤ 0 ∨ ready < Time_Add now rd)
    | CallWrite now ready => bool_decide (wr ≤ 0 ∨ ready < Time_Add now wr) end), d1) ∧
    dc_read d1 = rd ∧ dc_write d1 = wr ∧
    (rd ≤ 0 → tcn_readDeadline (dc_conn d1) = None) ∧ (wr ≤ 0 → tcn_writeDeadline (dc_conn d1) = None)) as (d1 & E & Hr1 & Hw1 & H').
  { destruct c as [now ready|now ready]; cbn [conn_call_run];
      unfold deadlineConn_Read, deadlineConn_Write; rewrite ?Hr, ?Hw;
      (match goal with |- context [decide (0 < ?x)] => destruct (decide (0 < x)) as [Hd|Hd] end); eexists;
      (split; [apply (f_equal2 pair); [apply f_equal|reflexivity]|split_and!; simpl; try done; lia || auto]).
    - apply bool_decide_ext. lia.
    - rewrite H1 by lia. symmetry. apply bool_decide_eq_true. lia.
    - apply bool_decide_ext. lia.
    - rewrite H2 by lia. symmetry. apply bool_decide_eq_true. lia. }
  rewrite (bind_Ret _ _ _ _ _ E). destruct (IH d1 Hr1 Hw1 H') as [d2 E2].
  exists d2. by rewrite (bind_Ret _ _ _ _ _ E2).
Qed.

(** ** Witness *)

Lemma deadlines_per_operation_witness :
  ∃ d', conn_run [CallRead 0 4; CallWrite 100 900; CallRead 10 16]
      (mkDeadlineConn (mkTimedConn None None) 5 0) = (Ret [true; true; false], d').
Proof.
  apply (deadlines_per_operation 5 0 [CallRead 0 4; CallWrite 100 900; CallRead 10 16]
    (mkDeadlineConn (mkTimedConn None None) 5 0)); reflexivity.
Defined.
