(* ===== verification/Admin.v ===== *)
(** The admin API and the drainer (internal/admin/server.go, drain.go,
    reload.go): HTTP handlers over the pool and its backends. *)

From S2P Require Export HttpProxy.

#[local] Open Scope Z_scope.

(** ** Handlers *)

(** The pool the server points to, and the backends. *)
Abbreviation astate := (Pool * store)%type.

Definition on_pool {A} (m : M Pool A) : M astate A := λ s,
  let '(o, p) := m s.1 in (o, (p, s.2)).
Definition on_bs {A} (m : M store A) : M astate A := λ s,
  let '(o, σ) := m s.2 in (o, (s.1, σ)).

(** [backend %q not found] *)
Definition pool_error_text (e : pool_error) : string :=
  match e with
  | BackendNotFound id =>
      let quote := String (Ascii.ascii_of_nat 34) "" in
      "backend " +:+ quote +:+ id +:+ quote +:+ " not found"
  end.

Definition backends_prefix : string := "/admin/backends/".

(** ** Draining *)

Record Drainer := mkDrainer { dr_timeout : Duration }.

Definition NewDrainer (timeout : Duration) : Drainer :=
  mkDrainer (if decide (timeout = 0) then 30 * Second else timeout).

(** [atomic.LoadInt64(p)] where [p] may be nil. *)
Definition atomic_LoadInt64 (p : option loc) : M store Z :=
  match p with None => raise NilDeref | Some _ => mret 0 end.

(** The goroutine that polls: one round per tick of 50 ms that fires before the
    timeout.  The loads stand in the order of the [||]; a panic in a goroutine
    is not recovered and ends the process. *)
Fixpoint drain_poll (l : loc) (ticks : nat) : M store bool :=
  match ticks with
  | O => mret false
  | S k =>
      n ← atomic_LoadInt64 None;
      if decide (n = 0) then mret true
      else
        σ ← gets (λ σ, σ);
        c ← lift (Backend_ActiveConns σ l);
        if decide (c = 0) then mret true else drain_poll l k
  end.

(** [Drain]: whether the backend was drained before the timeout. *)
Definition Drainer_Drain (d : Drainer) (l : loc) : M store bool :=
  Backend_SetHealth l HealthDisabled;;
  drain_poll l (Z.to_nat ((dr_timeout d - 1) / (50 * Millisecond))).

(** ** The reloadable configuration *)

Section reloader.
Context {Config : Type}.
(** [config.Load]. *)
Variable config_Load : string → Config + string.

(** The pointer is nil until something is stored. *)
Record ConfigReloader := mkReloader { cr_ptr : option Config }.

Definition ConfigReloader_Store (cfg : option Config) : M ConfigReloader () := modify (λ _, mkReloader cfg).
Definition ConfigReloader_Load : M ConfigReloader (option Config) := gets cr_ptr.

Definition NewConfigReloader (initial : option Config) : ConfigReloader :=
  (ConfigReloader_Store initial (mkReloader None)).2.

Definition ConfigReloader_Reload (path : string) : M ConfigReloader (option string) :=
  match config_Load path with
  | inr err => mret (Some err)
  | inl cfg => ConfigReloader_Store (Some cfg);; mret None
  end.
End reloader.
Arguments ConfigReloader : clear implicits.

(** ** Handlers of the server *)

Section server.
(** [url.Parse]. *)
Variable url_Parse : string → URL + string.
(** [json.NewDecoder(r.Body).Decode] into the two request types: the fields,
    or the text of the error. *)
Variable decode_add : string → (string * string * Z) + string.
Variable decode_weight : string → Z + string.
(** [json.NewEncoder(w).Encode] of a snapshot and of the list of them. *)
Variable encode_snapshot : Snapshot → string.
Variable encode_list : list Snapshot → string.

Definition writeJSON (code : Z) (body : string) : Response :=
  mkResponse code (Header_Set "Content-Type" "application/json" ∅) body.

Definition handleListBackends : M astate Response :=
  s ← gets id;
  snaps ← lift (Pool_Snapshots s.2 s.1);
  mret (writeJSON 200 (encode_list snaps)).

Definition handleAddBackend (body : string) : M astate Response :=
  match decode_add body with
  | inr err => mret (http_Error err 400)
  | inl (id, addr, weight) =>
      b ← on_bs (Backend_New url_Parse id addr weight);
      match b with
      | inr err => mret (http_Error err 400)
      | inl l =>
          on_pool (Pool_Add l);;
          s ← gets (λ s, s);
          snap ← lift (Backend_Snapshot s.2 l);
          mret (writeJSON 201 (encode_snapshot snap))
      end
  end.

Definition handleRemoveBackend (path : string) : M astate Response :=
  let id := trim_prefix backends_prefix path in
  s ← gets (λ s, s);
  err ← on_pool (Pool_Remove s.2 id);
  match err with
  | Some e => mret (http_Error (pool_error_text e) 404)
  | None => mret (mkResponse 204 ∅ "")
  end.

(** The weight is assigned to the field as it was sent. *)
Definition handleUpdateWeight (path body : string) : M astate Response :=
  let id := trim_suffix "/weight" (trim_prefix backends_prefix path) in
  match decode_weight body with
  | inr err => mret (http_Error err 400)
  | inl weight =>
      s ← gets (λ s, s);
      b ← lift (Pool_Get s.2 s.1 id);
      match b with
      | None => mret (http_Error "not found" 404)
      | Some l =>
          on_bs (update l (set_Weight weight));;
          s ← gets (λ s, s);
          snap ← lift (Backend_Snapshot s.2 l);
          mret (writeJSON 200 (encode_snapshot snap))
      end
  end.

Definition handleReload : M astate Response := mret (mkResponse 202 ∅ "").

(** The requests the mux dispatches. *)
Inductive admin_request :=
| AList
| AAdd (body : string)
| ARemove (path : string)
| AWeight (path body : string)
| AReload.

Definition admin_serve (r : admin_request) : M astate Response :=
  match r with
  | AList => handleListBackends
  | AAdd body => handleAddBackend body
  | ARemove path => handleRemoveBackend path
  | AWeight path body => handleUpdateWeight path body
  | AReload => handleReload
  end.

Fixpoint admin_run (rs : list admin_request) : M astate (list Z) :=
  match rs with
  | [] => mret []
  | r :: rs' => resp ← admin_serve r; l ← admin_run rs'; mret (resp_Status resp :: l)
  end.

(** ** Specification: a map from ids to weights *)

(** The weight a backend is created with. *)
Definition initial_weight (w : Z) : Z := if decide (w ≤ 0) then 1 else w.

(** One request on the map: the status and the new map; nothing when the
    request adds an id that is already there. *)
Definition admin_spec (r : admin_request) (m : gmap string Z) : option (Z * gmap string Z) :=
  match r with
  | AList => Some (200, m)
  | AReload => Some (202, m)
  | AAdd body =>
      match decode_add body with
      | inr _ => Some (400, m)
      | inl (id, addr, w) =>
          match url_Parse addr with
          | inr _ => Some (400, m)
          | inl _ => match m !! id with
                     | Some _ => None
                     | None => Some (201, <[id := initial_weight w]> m)
                     end
          end
      end
  | ARemove path =>
      let id := trim_prefix backends_prefix path in
      match m !! id with Some _ => Some (204, delete id m) | None => Some (404, m) end
  | AWeight path body =>
      let id := trim_suffix "/weight" (trim_prefix backends_prefix path) in
      match decode_weight body with
      | inr _ => Some (400, m)
      | inl w => match m !! id with Some _ => Some (200, <[id := w]> m) | None => Some (404, m) end
      end
  end.

Fixpoint admin_spec_run (rs : list admin_request) (m : gmap string Z)
    : option (list Z * gmap string Z) :=
  match rs with
  | [] => Some ([], m)
  | r :: rs' =>
      match admin_spec r m with
      | None => None
      | Some (c, m') =>
          match admin_spec_run rs' m' with Some (l, m'') => Some (c :: l, m'') | None => None end
      end
  end.

(** The map a pool stands for. *)
Definition weights (s : astate) : gmap string Z :=
  omap (λ l, Weight <$> s.2 !! l) (registry s.2 (backends s.1)).

Definition admin_inv (s : astate) : Prop :=
  live s.2 (backends s.1) ∧ distinct_ids s.2 (backends s.1) ∧ NoDup (backends s.1).

(** ** Lemmas *)

Lemma registry_ext σ σ' bs :
  Forall (λ l, id_of σ' l = id_of σ l) bs → registry σ' bs = registry σ bs.
Proof. induction 1 as [|l bs H _ IH]; [done|]. simpl. by rewrite H, IH. Qed.

Lemma distinct_ids_ext σ σ' bs :
  Forall (λ l, id_of σ' l = id_of σ l) bs → distinct_ids σ bs → distinct_ids σ' bs.
Proof.
  unfold distinct_ids. intros H. replace (omap (id_of σ') bs) with (omap (id_of σ) bs); [done|].
  induction H as [|l bs Hl _ IH]; [done|]. simpl. rewrite Hl.
  destruct (id_of σ l); [f_equal|]; exact IH.
Qed.

Lemma registry_elem σ bs id l : registry σ bs !! id = Some l → l ∈ bs ∧ id_of σ l = Some id.
Proof.
  induction bs as [|x bs IH]; [done|]. simpl. destruct (id_of σ x) as [i|] eqn:E.
  - destruct (decide (i = id)) as [->|Hne].
    + rewrite lookup_insert_eq. intros [= ->]. split; [by left|done].
    + rewrite lookup_insert_ne by done. intros [? ?]%IH. split; [by right|done].
  - intros [? ?]%IH. split; [by right|done].
Qed.

Lemma snapshots_live σ bs : live σ bs → ∃ ss, snapshots_loop σ bs = Ret ss.
Proof.
  induction 1 as [|l bs [b Hb] _ [ss IH]]; [by eexists|]. simpl.
  unfold Backend_Snapshot. rewrite (deref_live _ _ _ Hb). simpl. rewrite IH. by eexists.
Qed.

Lemma weights_lookup s id :
  weights s !! id = registry s.2 (backends s.1) !! id ≫= λ l, Weight <$> s.2 !! l.
Proof. unfold weights. apply lookup_omap. Qed.

Lemma weights_some s id l b :
  registry s.2 (backends s.1) !! id = Some l → s.2 !! l = Some b → weights s !! id = Some (Weight b).
Proof. destruct s as [p σ]. simpl. intros H1 H2. rewrite weights_lookup. simpl. by rewrite H1; simpl; rewrite H2. Qed.

(** A registered id has a live backend of that id. *)
Lemma weights_inv s id w :
  weights s !! id = Some w →
  ∃ l b, registry s.2 (backends s.1) !! id = Some l ∧ s.2 !! l = Some b ∧ Weight b = w ∧ ID b = id.
Proof.
  destruct s as [p σ]. rewrite weights_lookup. simpl.
  destruct (registry _ _ !! id) as [l|] eqn:E; [|done]. simpl.
  destruct (σ !! l) as [b|] eqn:Eb; [|done]. simpl. intros [= Hw].
  apply registry_elem in E as [_ Hid]. unfold id_of in Hid. rewrite Eb in Hid.
  injection Hid as Hid. eauto 10.
Qed.

Lemma weights_none s id :
  live s.2 (backends s.1) → weights s !! id = None → registry s.2 (backends s.1) !! id = None.
Proof.
  destruct s as [p σ]. simpl. intros Hl. rewrite weights_lookup. simpl.
  destruct (registry _ _ !! id) as [l|] eqn:E; [|done]. simpl.
  apply registry_elem in E as [Hin _]. destruct (live_elem _ _ _ Hl Hin) as [b ->]. done.
Qed.

(** *** The operations on the map *)

Lemma add_refines s b :
  admin_inv s → weights s !! ID b = None →
  let l := fresh (dom s.2) in
  let s' := (mkPool (backends s.1 ++ [l]), <[l := b]> s.2) in
  admin_inv s' ∧ weights s' = <[ID b := Weight b]> (weights s).
Proof.
  intros (Hl & Hd & Hn) Hw l. destruct s as [[bs] σ]. simpl in *.
  assert (σ !! l = None) as Hfresh by (apply not_elem_of_dom, is_fresh).
  assert (l ∉ bs) as Hnotin.
  { intros Hin. destruct (live_elem _ _ _ Hl Hin) as [? ?]. congruence. }
  assert (Forall (λ l', id_of (<[l := b]> σ) l' = id_of σ l') bs) as Hext.
  { apply Forall_forall. intros l' Hin. unfold id_of. rewrite lookup_insert_ne; [done|].
    by intros <-. }
  pose proof (weights_none (mkPool bs, σ) (ID b) Hl Hw) as Hreg. simpl in Hreg.
  assert (id_of (<[l := b]> σ) l = Some (ID b)) as Hid
    by (unfold id_of; by rewrite lookup_insert_eq).
  split.
  - split_and!; simpl.
    + unfold live. apply Forall_app. split; [|by constructor; [rewrite lookup_insert_eq; eauto|]].
      eapply Forall_impl; [exact Hl|]. intros l' Hl'. simpl. by apply lookup_insert_is_Some'; right.
    + unfold distinct_ids. rewrite omap_app. simpl. rewrite Hid. apply NoDup_app. split_and!.
      * by apply (distinct_ids_ext σ).
      * intros id Hin Hin'. apply list_elem_of_singleton in Hin' as ->.
        apply registry_dom in Hin. rewrite (registry_ext σ) in Hin by done.
        rewrite Hreg in Hin. by destruct Hin.
      * apply NoDup_singleton.
    + apply NoDup_app. split_and!; [done| |apply NoDup_singleton].
      intros x Hx ->%list_elem_of_singleton. done.
  - apply map_eq. intros id. rewrite weights_lookup. simpl. rewrite registry_app.
    rewrite (registry_ext σ) by done. simpl. rewrite Hid, lookup_union.
    destruct (decide (id = ID b)) as [->|Hne].
    + by rewrite Hreg, !lookup_insert_eq, (left_id_L None (∪)); simpl; rewrite lookup_insert_eq.
    + rewrite !lookup_insert_ne by done. rewrite weights_lookup. simpl.
      rewrite lookup_empty. destruct (registry σ bs !! id) as [l'|] eqn:E; [|done]. simpl.
      apply registry_elem in E as [Hin _].
      rewrite lookup_insert_ne; [done|]. by intros <-.
Qed.

Lemma remove_refines s id l pre post :
  admin_inv s → backends s.1 = pre ++ l :: post → id_of s.2 l = Some id →
  let s' := (mkPool (pre ++ post), s.2) in
  admin_inv s' ∧ weights s' = delete id (weights s).
Proof.
  intros (Hl & Hd & Hn) Hbs Hid. destruct s as [[bs] σ]. simpl in *. subst bs.
  split; [split_and!; simpl|].
  - unfold live in *. apply Forall_app in Hl as [? [? ?]%Forall_cons]. by apply Forall_app.
  - by eapply distinct_ids_remove.
  - apply NoDup_app in Hn as (H1 & H2 & [H3 H4]%NoDup_cons). apply NoDup_app. split_and!; [done| |done].
    intros x Hx Hx'. apply (H2 x Hx). by right.
  - unfold weights. simpl. rewrite (registry_remove σ pre l post id) by done.
    apply omap_delete.
Qed.

Lemma weight_refines s id l b w :
  admin_inv s → registry s.2 (backends s.1) !! id = Some l → s.2 !! l = Some b →
  let s' := (s.1, <[l := set_Weight w b]> s.2) in
  admin_inv s' ∧ weights s' = <[id := w]> (weights s).
Proof.
  intros (Hl & Hd & Hn) Hr Hb. destruct s as [[bs] σ]. simpl in *.
  assert (∀ l', id_of (<[l := set_Weight w b]> σ) l' = id_of σ l') as Hext.
  { intros l'. unfold id_of. destruct (decide (l = l')) as [<-|];
      [rewrite lookup_insert_eq, Hb; done|by rewrite lookup_insert_ne]. }
  split; [split_and!; simpl|].
  - eapply Forall_impl; [exact Hl|]. intros l' Hl'. simpl. by apply lookup_insert_is_Some'; right.
  - apply (distinct_ids_ext σ); [by apply Forall_forall|done].
  - done.
  - apply map_eq. intros i. rewrite weights_lookup. simpl.
    rewrite (registry_ext σ) by (by apply Forall_forall).
    destruct (decide (i = id)) as [->|Hne].
    + rewrite Hr, lookup_insert_eq. simpl. by rewrite lookup_insert_eq.
    + rewrite lookup_insert_ne by done. rewrite weights_lookup. simpl.
      destruct (registry σ bs !! i) as [l'|] eqn:E; [|done]. simpl.
      rewrite lookup_insert_ne; [done|]. intros <-.
      apply registry_elem in Hr as [_ H1], E as [_ H2]. congruence.
Qed.

(** *** One request *)

Lemma admin_serve_add body id addr w u s :
  decode_add body = inl (id, addr, w) → url_Parse addr = inl u →
  let b := mkBackend id u (initial_weight w) 0 HealthHealthy in
  let l := fresh (dom s.2) in
  ∃ resp, handleAddBackend body s =
    (Ret resp, (mkPool (backends s.1 ++ [l]), <[l := b]> s.2)) ∧ resp_Status resp = 201.
Proof.
  intros Hdec Hurl b l. destruct s as [[bs] σ]. unfold handleAddBackend. rewrite Hdec.
  unfold Backend_New. rewrite Hurl. fold (initial_weight w).
  cbv [mbind M_bind mret M_ret on_bs on_pool alloc Pool_Add modify gets lift]. cbn [fst snd backends].
  unfold Backend_Snapshot. fold l. fold b. rewrite (deref_live _ l b) by apply lookup_insert_eq.
  cbn [mbind outcome_bind mret outcome_ret]. eexists. split; [reflexivity|done].
Qed.

Lemma admin_serve_refines r s c m' :
  admin_inv s → admin_spec r (weights s) = Some (c, m') →
  ∃ resp s', admin_serve r s = (Ret resp, s') ∧ resp_Status resp = c ∧ admin_inv s' ∧ weights s' = m'.
Proof.
  intros Hinv. pose proof Hinv as (Hl & Hd & _). destruct r as [|body|path|path body|]; cbn [admin_spec admin_serve].
  - intros [= <- <-]. unfold handleListBackends.
    destruct (snapshots_live s.2 (backends s.1) Hl) as [ss E].
    cbv [mbind M_bind mret M_ret gets lift id]. unfold Pool_Snapshots. rewrite E.
    eexists _, s. split; [reflexivity|done].
  - destruct (decode_add body) as [[[id addr] w]|err] eqn:Edec.
    + destruct (url_Parse addr) as [u|err] eqn:Eurl.
      * destruct (weights s !! id) eqn:Ew; [done|]. intros [= <- <-].
        destruct (admin_serve_add body id addr w u s Edec Eurl) as (resp & E & Hc).
        destruct (add_refines s (mkBackend id u (initial_weight w) 0 HealthHealthy) Hinv Ew) as [H1 H2].
        eexists _, _. split; [exact E|]. done.
      * intros [= <- <-]. unfold handleAddBackend, Backend_New. rewrite Edec, Eurl.
        destruct s as [p σ]. eexists _, _. split; [reflexivity|done].
    + intros [= <- <-]. unfold handleAddBackend. rewrite Edec. eexists _, s. split; [reflexivity|done].
  - set (id := trim_prefix backends_prefix path).
    pose proof (Pool_Remove_spec s.2 s.1 id Hl) as HR.
    destruct (weights s !! id) as [w|] eqn:Ew.
    + intros [= <- <-]. destruct (weights_inv _ _ _ Ew) as (l & b & Hr & _). rewrite Hr in HR.
      destruct HR as (pre & post & Hbs & Hid & _ & E).
      destruct (remove_refines s id l pre post Hinv Hbs Hid) as [H1 H2].
      eexists _, (mkPool (pre ++ post), s.2). split; [|split; [|split; [exact H1|exact H2]]].
      * unfold handleRemoveBackend. fold id. cbv [mbind M_bind mret M_ret gets on_pool]. rewrite E. reflexivity.
      * done.
    + intros [= <- <-]. pose proof (weights_none s id Hl Ew) as Hr. rewrite Hr in HR.
      eexists _, s. split; [|split; [|split; [done|done]]].
      * unfold handleRemoveBackend. fold id. cbv [mbind M_bind mret M_ret gets on_pool]. rewrite HR.
        destruct s. reflexivity.
      * done.
  - set (id := trim_suffix "/weight" (trim_prefix backends_prefix path)).
    destruct (decode_weight body) as [w|err] eqn:Edec.
    + unfold handleUpdateWeight. fold id. rewrite Edec. cbv [mbind M_bind mret M_ret gets lift on_bs].
      rewrite Pool_Get_registry by done.
      destruct (weights s !! id) as [w'|] eqn:Ew; intros [= <- <-].
      * destruct (weights_inv _ _ _ Ew) as (l & b & Hr & Hb & _). rewrite Hr.
        rewrite (update_live _ _ _ _ Hb). cbn [fst snd].
        unfold Backend_Snapshot. rewrite (deref_live _ l (set_Weight w b)) by apply lookup_insert_eq.
        destruct (weight_refines s id l b w Hinv Hr Hb) as [H1 H2].
        eexists _, _. split; [reflexivity|]. done.
      * rewrite (weights_none s id Hl Ew). eexists _, s. split; [reflexivity|done].
    + intros [= <- <-]. unfold handleUpdateWeight. rewrite Edec. eexists _, s. split; [reflexivity|done].
  - intros [= <- <-]. eexists _, s. split; [reflexivity|done].
Qed.

Lemma admin_run_refines rs s codes m' :
  admin_inv s → admin_spec_run rs (weights s) = Some (codes, m') →
  ∃ s', admin_run rs s = (Ret codes, s') ∧ admin_inv s' ∧ weights s' = m'.
Proof.
  revert s codes. induction rs as [|r rs IH]; intros s codes Hinv; cbn [admin_spec_run admin_run].
  - intros [= <- <-]. by exists s.
  - destruct (admin_spec r (weights s)) as [[c m1]|] eqn:E; [|done].
    destruct (admin_serve_refines r s c m1 Hinv E) as (resp & s1 & E1 & Hc & H1 & <-).
    destruct (admin_spec_run rs (weights s1)) as [[l m2]|] eqn:E2; [|done]. intros [= <- <-].
    destruct (IH s1 l H1 E2) as (s2 & E3 & H2 & H3). exists s2.
    rewrite (bind_Ret _ _ _ _ _ E1), (bind_Ret _ _ _ _ _ E3), Hc. done.
Qed.
End server.

(** ** Properties *)

(** The admin API implements a map from backend ids to weights: from a
    pool of live backends with distinct ids, any sequence of requests that adds
    no id already present is answered with the status codes, and leaves the
    registry, of the map specification (create, list, delete, set weight, 400
    on a bad body or address, 404 on an unknown id), and no request panics. *)
Theorem admin_refines_map url_Parse da dw es el rs s codes m' :
  admin_inv s → admin_spec_run url_Parse da dw rs (weights s) = Some (codes, m') →
  ∃ s', admin_run url_Parse da dw es el rs s = (Ret codes, s') ∧ admin_inv s' ∧ weights s' = m'.
Proof. apply admin_run_refines. Qed.

Lemma find_first σ id pre l post :
  live σ (pre ++ l :: post) → id_of σ l = Some id → id ∉ omap (id_of σ) pre →
  Pool_Get σ (mkPool (pre ++ l :: post)) id = Ret (Some l).
Proof.
  intros Hl Hid Hpre. rewrite Pool_Get_registry by done. simpl.
  rewrite registry_app, lookup_union, (registry_None _ _ _ Hpre). simpl.
  by rewrite Hid, lookup_insert_eq.
Qed.

(** Ids are not kept unique: adding a backend with an id already in the
    pool answers 201, the new backend takes traffic but cannot be looked up,
    and deleting the id answers 204 while a backend with that id stays in the
    pool, now the duplicate. *)
Theorem duplicate_survives_delete url_Parse da dw es el body id addr w u s l0 :
  admin_inv s → da body = inl (id, addr, w) → url_Parse addr = inl u →
  registry s.2 (backends s.1) !! id = Some l0 →
  let l := fresh (dom s.2) in
  ∃ s', admin_run url_Parse da dw es el [AAdd body; ARemove (backends_prefix +:+ id)] s =
      (Ret [201; 204], s') ∧
    Pool_Get (<[l := mkBackend id u (initial_weight w) 0 HealthHealthy]> s.2) s'.1 id = Ret (Some l) ∧
    healthy_at s'.2 l ∧ l ∈ backends s'.1.
Proof.
  intros (Hl & Hd & Hn) Hda Hurl Hreg l. destruct s as [[bs] σ]. simpl in Hl, Hd, Hn, Hreg, l.
  set (b := mkBackend id u (initial_weight w) 0 HealthHealthy).
  destruct (admin_serve_add url_Parse da es body id addr w u (mkPool bs, σ) Hda Hurl)
    as (resp & E1 & Hc). cbn [fst snd backends] in E1. fold l b in E1.
  set (σ1 := <[l := b]> σ) in *.
  assert (σ !! l = None) as Hfresh by (apply not_elem_of_dom, is_fresh).
  assert (Forall (λ l', id_of σ1 l' = id_of σ l') bs) as Hext.
  { apply Forall_forall. intros l' Hin. unfold id_of, σ1. rewrite lookup_insert_ne; [done|].
    intros <-. destruct (live_elem _ _ _ Hl Hin). congruence. }
  assert (live σ1 (bs ++ [l])) as Hl1.
  { unfold live. apply Forall_app. split; [|by constructor; [unfold σ1; rewrite lookup_insert_eq; eauto|]].
    eapply Forall_impl; [exact Hl|]. intros l' Hl'. simpl. by apply lookup_insert_is_Some'; right. }
  assert (id_of σ1 l = Some id) as Hid by (unfold id_of, σ1; by rewrite lookup_insert_eq).
  pose proof (Pool_Remove_spec σ1 (mkPool (bs ++ [l])) id Hl1) as HR. simpl in HR.
  rewrite registry_app, lookup_union, (registry_ext σ) in HR by done. rewrite Hreg in HR.
  rewrite union_Some_l in HR.
  destruct HR as (pre & post & Hbs & Hid0 & Hpre & E2).
  assert (l0 ∈ bs) as Hin0 by (by apply registry_elem in Hreg as [? _]).
  assert (∃ post', post = post' ++ [l] ∧ bs = pre ++ l0 :: post') as (post' & -> & Hbs').
  { destruct (exists_last (l := l0 :: post)) as (q & x & Hq); [done|].
    assert (bs = pre ++ q ∧ l = x) as [Hb ->].
    { rewrite Hq, app_assoc in Hbs. by apply app_inj_tail in Hbs. }
    destruct q as [|y q]; simplify_eq/=.
    - exfalso. destruct (live_elem _ _ _ Hl Hin0). congruence.
    - by exists q. }
  exists (mkPool (pre ++ post' ++ [l]), σ1). split_and!.
  - cbn [admin_run admin_serve]. rewrite (bind_Ret _ _ _ _ _ E1), Hc.
    unfold handleRemoveBackend. rewrite trim_prefix_app.
    cbv [mbind M_bind mret M_ret gets on_pool]. cbn [fst snd]. fold l. fold σ1. by rewrite E2.
  - simpl. rewrite app_assoc. apply find_first; [|done|].
    + rewrite <- app_assoc. unfold live in *. rewrite Hbs' in Hl1.
      rewrite !Forall_app, ?Forall_cons in Hl1. rewrite !Forall_app, Forall_cons. tauto.
    + rewrite omap_app. intros [Hin|Hin]%elem_of_app; [done|].
      rewrite Hbs' in Hd. unfold distinct_ids in Hd. rewrite omap_app in Hd.
      apply NoDup_app in Hd as (_ & _ & Hd). simpl in Hd.
      rewrite Hbs' in Hext. apply Forall_app in Hext as [_ [H0 Hext]%Forall_cons].
      rewrite <- H0, Hid0 in Hd. apply NoDup_cons in Hd as [Hd _]. apply Hd.
      apply list_elem_of_omap in Hin as (x & Hx & Hxid). apply list_elem_of_omap.
      exists x. split; [done|]. rewrite Forall_forall in Hext. by rewrite <- (Hext x Hx).
  - unfold healthy_at. simpl. unfold σ1. by rewrite lookup_insert_eq.
  - simpl. rewrite !elem_of_app, list_elem_of_singleton. auto.
Qed.

(** Draining crashes: for every timeout longer than one polling period,
    whatever connections the backend has, [Drain] marks it disabled and then
    panics in its polling goroutine at the first tick, because the first
    operand of the test loads through a nil pointer; it never waits for the
    connections to finish. *)
Theorem Drain_panics timeout σ l b :
  σ !! l = Some b → (timeout = 0 ∨ 50 * Millisecond < timeout) →
  Drainer_Drain (NewDrainer timeout) l σ =
    (Panic NilDeref, <[l := set_health HealthDisabled b]> σ).
Proof.
  intros Hb Ht. unfold Drainer_Drain, Backend_SetHealth.
  rewrite (bind_Ret _ _ _ _ _ (update_live _ _ _ _ Hb)). unfold NewDrainer. simpl.
  set (t := if decide (timeout = 0) then _ else _).
  assert (50 * Millisecond < t) as Hlt
    by (subst t; case_decide; unfold Millisecond, Second in *; lia).
  destruct (Z.to_nat ((t - 1) / (50 * Millisecond))) as [|k] eqn:E; [exfalso|reflexivity].
  assert (1 ≤ (t - 1) / (50 * Millisecond)); [|lia].
  apply Z.div_le_lower_bound; unfold Millisecond in *; lia.
Qed.

(** ** Witnesses *)

Definition ex_decode_add (body : string) : (string * string * Z) + string :=
  if decide (body = "bad") then inr "invalid" else inl (body, "http://" +:+ body, 0).
Definition ex_decode_weight (body : string) : Z + string :=
  if decide (body = "bad") then inr "invalid" else inl 7.
Definition ex_url_parse (s : string) : URL + string := inl (ex_url s).

Lemma ex_admin_inv : admin_inv (ex_pool, ex_store).
Proof.
  split_and!; [exact ex_pool_live|exact ex_pool_distinct|].
  apply (bool_decide_eq_true_1 _). vm_compute. reflexivity.
Qed.

Lemma admin_refines_map_witness :
  ∃ s', admin_run ex_url_parse ex_decode_add ex_decode_weight (λ _, "") (λ _, "")
      [AAdd "b9"; ARemove "/admin/backends/b1"; AWeight "/admin/backends/b0/weight" "x";
       ARemove "/admin/backends/b1"; AAdd "bad"] (ex_pool, ex_store) =
      (Ret [201; 204; 200; 404; 400], s') ∧ admin_inv s' ∧
    weights s' = <["b0" := 7]> (delete "b1" (<["b9" := 1]> (weights (ex_pool, ex_store)))).
Proof.
  apply (admin_refines_map ex_url_parse ex_decode_add ex_decode_weight (λ _, "") (λ _, "")).
  - exact ex_admin_inv.
  - vm_compute. reflexivity.
Defined.

Lemma duplicate_survives_delete_witness :
  ∃ s' l, admin_run ex_url_parse ex_decode_add ex_decode_weight (λ _, "") (λ _, "")
      [AAdd "b0"; ARemove (backends_prefix +:+ "b0")] (ex_pool, ex_store) = (Ret [201; 204], s') ∧
    healthy_at s'.2 l ∧ l ∈ backends s'.1.
Proof.
  destruct (duplicate_survives_delete ex_url_parse ex_decode_add ex_decode_weight (λ _, "")
    (λ _, "") "b0" "b0" "http://b0" 0 (ex_url "http://b0") (ex_pool, ex_store) 0%nat ex_admin_inv)
    as (s' & H1 & _ & H2 & H3); try (vm_compute; reflexivity).
  exists s'. eexists. split; [exact H1|]. split; [exact H2|exact H3].
Defined.

Lemma Drain_panics_witness :
  Drainer_Drain (NewDrainer 0) 0%nat ex_store =
    (Panic NilDeref, <[0%nat := ex_backend "b0" 1 HealthDisabled]> ex_store).
Proof.
  apply (Drain_panics 0 ex_store 0%nat (ex_backend "b0" 1 HealthHealthy)).
  - vm_compute. reflexivity.
  - left. reflexivity.
Defined.
