(* ===== verification/App.v ===== *)
(** The assembly of the program: the algorithm factory
    (internal/balancer/factory.go), the configuration (config/config.go) and
    the startup of cmd/gobalancer/main.go. *)

From S2P Require Export SelRoundRobin SelWeightedRR SelLeastConn SelP2C SelIPHash SelConsistentHash.
From S2P Require Export HttpProxy Config.

#[local] Open Scope Z_scope.

(** ** The factory *)

Section factory.
(** The generator behind [P2C] and how it is seeded, as in SelP2C.v. *)
Context {Rng : Type}.
Variable Intn : Z → Rng → Z * Rng.
Variable rand_New : Z → Rng.

(** An interface value: one of the algorithms with its state. *)
Inductive AnySelector :=
| SelRR (s : RoundRobin)
| SelWRR (s : WeightedRoundRobin)
| SelLC (s : LeastConnections)
| SelIPH (s : IPHash)
| SelCH (s : ConsistentHash)
| SelPTC (s : P2C Rng).

(** The text of the error is left out. *)
Inductive factory_error := UnknownAlgorithm (name : string).

Definition NewSelector (algorithm : string) : AnySelector + factory_error :=
  if decide (algorithm = "round_robin") then inl (SelRR NewRoundRobin)
  else if decide (algorithm = "weighted_round_robin") then inl (SelWRR NewWeightedRoundRobin)
  else if decide (algorithm = "least_connections") then inl (SelLC NewLeastConnections)
  else if decide (algorithm = "ip_hash") then inl (SelIPH NewIPHash)
  else if decide (algorithm = "consistent_hash") then inl (SelCH (NewConsistentHash defaultVirtualNodes))
  else if decide (algorithm = "p2c") then inl (SelPTC (NewP2C rand_New))
  else inr (UnknownAlgorithm algorithm).

(** A method call on the interface value. *)
Definition wrap_next {St} (inj : St → AnySelector) (m : M St selection) (s : St)
    : outcome selection * AnySelector :=
  let '(o, s') := m s in (o, inj s').

#[local] Instance Any_Selector : Selector AnySelector := λ r bs σ a,
  match a with
  | SelRR s => wrap_next SelRR (RoundRobin_Next r bs σ) s
  | SelWRR s => wrap_next SelWRR (WeightedRoundRobin_Next r bs σ) s
  | SelLC s => wrap_next SelLC (LeastConnections_Next r bs σ) s
  | SelIPH s => wrap_next SelIPH (IPHash_Next r bs σ) s
  | SelCH s => wrap_next SelCH (ConsistentHash_Next r bs σ) s
  | SelPTC s => wrap_next SelPTC (P2C_Next Intn r bs σ) s
  end.

(** When the algorithm behind the interface is ready. *)
Definition any_ready (r : Request) (bs : list loc) (σ : store) (a : AnySelector) : Prop :=
  match a with
  | SelRR s => @sel_ready _ _ RoundRobin_Laws r bs σ s
  | SelWRR s => @sel_ready _ _ WeightedRoundRobin_Laws r bs σ s
  | SelLC s => @sel_ready _ _ LeastConnections_Laws r bs σ s
  | SelIPH s => @sel_ready _ _ IPHash_Laws r bs σ s
  | SelCH s => @sel_ready _ _ ConsistentHash_Laws r bs σ s
  | SelPTC s => @sel_ready _ _ (P2C_Laws Intn) r bs σ s
  end.

Lemma wrap_picks {St} (inj : St → AnySelector) (m : M St selection) s (bs : list loc) :
  (∃ b s', m s = (Ret (Some b, None), s') ∧ b ∈ bs) →
  ∃ b a', wrap_next inj m s = (Ret (Some b, None), a') ∧ b ∈ bs.
Proof. intros (b & s' & E & Hb). unfold wrap_next. rewrite E. eauto. Qed.

Lemma wrap_empty {St} (inj : St → AnySelector) (m : M St selection) s :
  (∃ s', m s = (Ret (None, Some ErrNoBackends), s')) →
  ∃ a', wrap_next inj m s = (Ret (None, Some ErrNoBackends), a').
Proof. intros (s' & E). unfold wrap_next. rewrite E. eauto. Qed.

(** The interface value keeps the interface's promise. *)
#[local, program] Instance Any_Laws : SelectorLaws AnySelector := {| sel_ready := any_ready |}.
Next Obligation.
  intros r bs σ a Hne Hl Hr.
  destruct a; apply wrap_picks; simpl in Hr.
  - by apply (@next_picks _ _ RoundRobin_Laws r bs σ).
  - by apply (@next_picks _ _ WeightedRoundRobin_Laws r bs σ).
  - by apply (@next_picks _ _ LeastConnections_Laws r bs σ).
  - by apply (@next_picks _ _ IPHash_Laws r bs σ).
  - by apply (@next_picks _ _ ConsistentHash_Laws r bs σ).
  - by apply (@next_picks _ _ (P2C_Laws Intn) r bs σ).
Qed.
Next Obligation.
  intros r σ a Hr. destruct a; apply wrap_empty; simpl in Hr.
  - by apply (@next_empty _ _ RoundRobin_Laws r σ).
  - by apply (@next_empty _ _ WeightedRoundRobin_Laws r σ).
  - by apply (@next_empty _ _ LeastConnections_Laws r σ).
  - by apply (@next_empty _ _ IPHash_Laws r σ).
  - by apply (@next_empty _ _ ConsistentHash_Laws r σ).
  - by apply (@next_empty _ _ (P2C_Laws Intn) r σ).
Qed.

(** The names the factory knows. *)
Definition algorithms : list string :=
  ["round_robin"; "weighted_round_robin"; "least_connections"; "ip_hash"; "consistent_hash"; "p2c"].
End factory.
Arguments AnySelector : clear implicits.

(** ** Startup *)

Section main.
(** [url.Parse]. *)
Variable url_Parse : string → URL + string.

(** The loop that creates the backends; the first bad address ends the process. *)
Fixpoint create_backends (bcs : list BackendConfig) (backends : list loc)
    : M store (list loc + string) :=
  match bcs with
  | [] => mret (inl backends)
  | bc :: bcs' =>
      b ← Backend_New url_Parse (bc_ID bc) (bc_Addr bc) (bc_Weight bc);
      match b with
      | inr err => mret (inr err)
      | inl l => create_backends bcs' (backends ++ [l])
      end
  end.

(** [main] up to the server: the pool and the selector it serves with, or the
    error it exits with. *)
Definition main_setup (cfg : Config) : M store ((Pool * RoundRobin) + string) :=
  poolCfg ← lift (go_index (cfg_Pools cfg) 0);
  bs ← create_backends (pc_Backends poolCfg) [];
  match bs with
  | inr err => mret (inr err)
  | inl backends => mret (inl (NewPool backends, NewRoundRobin))
  end.
End main.

(** ** Properties of the factory *)

Lemma NewSelector_known {Rng} (rand_New : Z → Rng) name :
  (∃ a, NewSelector rand_New name = inl a) ↔ name ∈ algorithms.
Proof.
  unfold NewSelector, algorithms. rewrite !elem_of_cons, elem_of_nil. split.
  - intros [a H]. repeat case_decide; tauto || done.
  - intros H. repeat case_decide; eauto. tauto.
Qed.

(** The factory keeps the selector contract: it succeeds exactly on the six
    algorithm names the configuration accepts, and the selector it returns, at
    its first call on any nonempty list of healthy backends that are below the
    connection limit, picks one of the backends offered. *)
Theorem NewSelector_serves {Rng} (Intn : Z → Rng → Z * Rng) rand_New name r bs σ :
  Intn_in_range Intn → bs ≠ [] → Forall (healthy_at σ) bs → Forall (λ l, conns σ l < max_int64) bs →
  (name ∈ algorithms ↔ ∃ a, NewSelector rand_New name = inl a) ∧
  (∀ a, NewSelector rand_New name = inl a →
    ∃ b a', Any_Selector Intn r bs σ a = (Ret (Some b, None), a') ∧ b ∈ bs).
Proof.
  intros Hrng Hne Hh Hc. split; [by rewrite NewSelector_known|]. intros a Ha.
  assert (live σ bs) as Hl.
  { unfold live. eapply Forall_impl; [exact Hh|]. intros l. apply healthy_at_live. }
  apply (@next_picks _ _ (Any_Laws Intn)); [done|done|].
  unfold NewSelector in Ha. repeat case_decide; simplify_eq/=.
  - unfold max_int64. lia.
  - split; [unfold max_int64; lia|]. by split; [constructor|].
  - right. destruct bs as [|b bs]; [done|]. apply Exists_cons_hd. by apply Forall_cons in Hc as [? _].
  - done.
  - split; [unfold defaultVirtualNodes; simpl; lia|]. split; [|done]. intros k Hk. by apply elem_of_nil in Hk.
  - done.
Qed.

(** ** Startup and service *)

(** The backend behind [l] is the one the configuration entry asks for. *)
Definition created (url_Parse : string → URL + string) (σ : store) (bc : BackendConfig) (l : loc) : Prop :=
  ∃ u, url_Parse (bc_Addr bc) = inl u ∧
    σ !! l = Some (mkBackend (bc_ID bc) u (Z.max 1 (bc_Weight bc)) 0 HealthHealthy).

Lemma create_backends_spec url_Parse bcs acc σ :
  Forall (λ bc, ∃ u, url_Parse (bc_Addr bc) = inl u) bcs →
  ∃ ls σ', create_backends url_Parse bcs acc σ = (Ret (inl (acc ++ ls)), σ') ∧
    length ls = length bcs ∧ NoDup ls ∧ Forall (λ l, l ∉ dom σ) ls ∧
    (∀ l b, σ !! l = Some b → σ' !! l = Some b) ∧
    Forall2 (created url_Parse σ') bcs ls.
Proof.
  intros H. revert acc σ. induction H as [|bc bcs [u Hu] _ IH]; intros acc σ.
  - exists [], σ. rewrite app_nil_r. split_and!; try done; constructor.
  - cbn [create_backends]. unfold Backend_New. rewrite Hu.
    set (b := mkBackend _ _ _ _ _). set (l := fresh (dom σ)).
    assert (l ∉ dom σ) as Hf by apply is_fresh.
    destruct (IH (acc ++ [l]) (<[l := b]> σ)) as (ls & σ' & E & Hlen & Hnd & Hnew & Hkeep & Hall).
    exists (l :: ls), σ'. unfold mbind, M_bind, mret, M_ret, alloc. fold l b.
    rewrite E, <- app_assoc. split_and!; simpl.
    + done.
    + by rewrite Hlen.
    + apply NoDup_cons. split; [|done]. intros Hin. rewrite Forall_forall in Hnew.
      apply (Hnew l Hin). rewrite dom_insert. apply elem_of_union_l, elem_of_singleton_2. done.
    + constructor; [done|]. eapply Forall_impl; [exact Hnew|]. intros l' Hl' Hin. apply Hl'.
      rewrite dom_insert. by apply elem_of_union_r.
    + intros l' b' Hb'. apply Hkeep. rewrite lookup_insert_ne; [done|].
      intros <-. apply Hf. by apply elem_of_dom_2 in Hb'.
    + constructor; [|done]. exists u. split; [done|].
      replace (Z.max 1 (bc_Weight bc)) with (if decide (bc_Weight bc ≤ 0) then 1 else bc_Weight bc)
        by (case_decide; lia).
      apply Hkeep. apply lookup_insert_eq.
Qed.

(** The address behind a pointer. *)
Definition url_at (σ : store) (l : loc) : URL :=
  match σ !! l with Some b => BURL b | None => mkURL "" "" "" "" "" end.

(** A backend in service: healthy, its count in range. *)
Definition in_service (σ : store) (l : loc) : Prop :=
  ∃ b, σ !! l = Some b ∧ health b = HealthHealthy ∧ is_int64 (activeConns b).

(** What an upstream does with a request: it answers, fails, or the exchange
    panics; it leaves the backends alone. *)
Abbreviation upstream := (Request → outcome (option Response)).
Definition exchange (u : upstream) : Request → M store (option Response) := λ req σ, (u req, σ).

(** What the client of a request sent to [l] gets. *)
Definition relayed (σ : store) (l : loc) (q : Request * upstream) : outcome Response :=
  match q.2 (upstream_request l (url_at σ l) q.1) with
  | Ret (Some resp) => Ret resp
  | Ret None => Ret (http_Error "bad gateway" 502)
  | Panic w => Panic w
  end.

(** Requests one after the other; net/http recovers from the panic of one. *)
Fixpoint serve_all {St} `{Selector St} (p : Pool) (qs : list (Request * upstream)) : M (St * store) (list (outcome Response)) :=
  match qs with
  | [] => mret []
  | (r, u) :: qs' => λ s,
      let '(o, s1) := HTTPProxy_ServeHTTP (exchange u) p r s in
      (l ← serve_all p qs'; mret (o :: l)) s1
  end.

Lemma serve_round_robin q ls σ c :
  (∀ req, q.2 req ≠ Panic Deadlock) →
  ls ≠ [] → Forall (in_service σ) ls → 0 ≤ c < max_int64 →
  ∃ l, ls !! (Z.to_nat c mod length ls)%nat = Some l ∧
    HTTPProxy_ServeHTTP (exchange q.2) (NewPool ls) q.1 (mkRoundRobin c, σ) =
      (relayed σ l q, (mkRoundRobin (c + 1), σ)).
Proof.
  intros Hq Hne Hs Hc. destruct q as [r u]. cbn [fst snd] in *.
  assert (live σ ls) as Hl by (eapply Forall_impl; [exact Hs|]; intros l (b & -> & _); eauto).
  assert (filter (healthy_at σ) ls = ls) as Hf.
  { apply filter_all. eapply Forall_impl; [exact Hs|].
    intros l (b & Hb & Hh & _). unfold healthy_at. rewrite Hb. simpl. by rewrite Hh. }
  destruct (RoundRobin_Next_step r ls σ c Hne ltac:(lia)) as (l & Hlk & En).
  exists l. split; [done|]. rewrite wrap64_id in En by (unfold is_int64, min_int64, max_int64 in *; lia).
  destruct (Forall_lookup_1 _ _ _ _ Hs Hlk) as (b & Hb & _ & Hint).
  pose proof (ServeHTTP_picked (exchange u) (NewPool ls) r (mkRoundRobin c) σ l b (mkRoundRobin (c + 1))
    (u (upstream_request l (BURL b) r)) (with_conn σ l)
    (set_activeConns (wrap64 (activeConns b + 1)) b)) as E.
  cbn [NewPool backends] in E. rewrite Hf in E. unfold relayed, url_at. cbn [fst snd]. rewrite Hb.
  rewrite E; [|done|done|exact En|done|done|done|by apply with_conn_lookup].
  do 2 f_equal. rewrite set_activeConns_back by done.
  unfold with_conn, Backend_IncConns. rewrite (update_live _ _ _ _ Hb). simpl.
  by rewrite insert_insert_eq, insert_id.
Qed.

Lemma serve_run qs ls σ c :
  Forall (λ q : Request * upstream, ∀ req, q.2 req ≠ Panic Deadlock) qs →
  ls ≠ [] → Forall (in_service σ) ls → 0 ≤ c → c + zlen qs ≤ max_int64 →
  serve_all (NewPool ls) qs (mkRoundRobin c, σ) =
    (Ret (zip_with (relayed σ) (cyclic ls (Z.to_nat c) (length qs)) qs), (mkRoundRobin (c + zlen qs), σ)).
Proof.
  intros Hqs Hne Hs. unfold zlen. revert c. induction Hqs as [|q qs Hq _ IH]; intros c Hc Hle.
  - simpl. by rewrite Z.add_0_r.
  - cbn [length] in *. destruct (serve_round_robin q ls σ c Hq Hne Hs ltac:(lia)) as (l & Hl & E).
    destruct q as [r u]. cbn [serve_all fst snd cyclic] in *. rewrite E, Hl. cbn [zip_with].
    rewrite (bind_Ret _ _ _ _ _ (IH (c + 1) ltac:(lia) ltac:(lia))).
    replace (Z.to_nat (c + 1)) with (S (Z.to_nat c)) by lia. unfold mret, M_ret. do 3 f_equal. lia.
Qed.

(** C4. End to end, the program is a round robin, whatever the configured
    algorithm and weights.  For every configuration whose first pool has at
    least one backend and whose addresses parse, startup succeeds.  Then any
    [k * n] requests, different ones or the same, over the [n] backends, one
    after the other and at most 2^63-1 of them, with upstreams that leave the
    backends alone and do not block for ever: exactly [k] go to each backend;
    each is answered with what the upstream answers, with 502 when the upstream
    fails, or unwinds with the panic of the exchange; and every connection count
    is left as it was. *)
Theorem main_serves_round_robin url_Parse cfg pc pools qs k :
  cfg_Pools cfg = pc :: pools → pc_Backends pc ≠ [] →
  Forall (λ bc, ∃ u, url_Parse (bc_Addr bc) = inl u) (pc_Backends pc) →
  Forall (λ q : Request * upstream, ∀ req, q.2 req ≠ Panic Deadlock) qs →
  length qs = (k * length (pc_Backends pc))%nat → zlen qs ≤ max_int64 →
  ∃ ls σ picks st, main_setup url_Parse cfg ∅ = (Ret (inl (NewPool ls, NewRoundRobin)), σ) ∧
    NoDup ls ∧ length ls = length (pc_Backends pc) ∧
    serve_all (NewPool ls) qs (NewRoundRobin, σ) = (Ret (zip_with (relayed σ) picks qs), (st, σ)) ∧
    length picks = length qs ∧ ∀ l, l ∈ ls → occ l picks = k.
Proof.
  intros Hp Hne Hu Hqs Hk Hle.
  destruct (create_backends_spec url_Parse (pc_Backends pc) [] ∅ Hu)
    as (ls & σ & E & Hlen & Hnd & _ & _ & Hall).
  assert (ls ≠ []) as Hls by (intros ->; by destruct (pc_Backends pc)).
  assert (Forall (in_service σ) ls) as Hs.
  { eapply Forall2_Forall_r; [exact Hall|]. apply Forall_true. intros bc l (u & _ & Hb).
    eexists. split_and!; [exact Hb|done|]. unfold is_int64, min_int64, max_int64; simpl; lia. }
  assert (cyclic ls 0 (length qs) ≡ₚ concat (replicate k ls)) as Hcy by (rewrite Hk, <- Hlen; by apply cyclic_turns).
  exists ls, σ. eexists _, _. split_and!; [|done|done|by apply (serve_run qs ls σ 0)| |].
  - unfold main_setup. rewrite Hp. unfold mbind, M_bind, lift. simpl. by rewrite E.
  - change (length (cyclic ls 0 (length qs)) = length qs). rewrite Hcy, Hk, <- Hlen. clear. induction k as [|k IH]; [done|]. simpl. rewrite length_app. lia.
  - intros l Hin. change (occ l (cyclic ls 0 (length qs)) = k). rewrite Hcy, occ_concat_replicate by done.
    rewrite <- (Nat.mul_1_r k) at 2. f_equal.
    apply list_elem_of_split in Hin as (l1 & l2 & ->).
    apply NoDup_app in Hnd as (_ & H1 & [H2 _]%NoDup_cons).
    rewrite occ_app, occ_cons, decide_True by done.
    assert (l ∉ l1) as H3 by (intros H3; apply (H1 l H3); by left).
    by rewrite !occ_not_elem by done.
Qed.

(** ** Witnesses *)

Definition ex_pool_config : PoolConfig :=
  mkPoolConfig "default" "least_connections"
    [mkBackendConfig "b1" "http://b1" 1; mkBackendConfig "b2" "http://b2" 5] []
    (mkHealthSettings (10 * Second) (2 * Second) "/health" 3 2 "http" Minute (f64_lit 3 1)).
Definition ex_config : Config :=
  mkConfig (mkServerConfig ":8080" (30 * Second) (30 * Second) (120 * Second) None) [ex_pool_config]
    (mkAdminConfig ":9001") (mkMetricsConfig true "/metrics") (mkLoggingConfig "info" "json").

Lemma NewSelector_serves_witness :
  ∃ a, NewSelector (λ _, 0%nat) "p2c" = inl a ∧
  ∃ b a', Any_Selector (λ (n : Z) (g : nat), (0, S g)) (ex_request "1.2.3.4:5") [0; 2]%nat ex_store a
    = (Ret (Some b, None), a') ∧ b ∈ [0; 2]%nat.
Proof.
  destruct (NewSelector_serves (λ (n : Z) (g : nat), (0, S g)) (λ _, 0%nat) "p2c" (ex_request "1.2.3.4:5")
    [0; 2]%nat ex_store) as [H1 H2].
  - intros n g Hn. simpl. lia.
  - discriminate.
  - repeat constructor; vm_compute; reflexivity.
  - repeat constructor; vm_compute; reflexivity.
  - eexists. split; [reflexivity|]. apply H2. reflexivity.
Defined.

(** Requests of two clients; one upstream answers, one fails, one panics. *)
Definition ex_visits : list (Request * upstream) :=
  concat (replicate 2
    [(ex_client, λ req, Ret (Some (mkResponse 200 ∅ (req_Path req))));
     (ex_request "1.2.3.4:5", λ _, Ret None); (ex_client, λ _, Panic Explicit)]).

Lemma main_serves_round_robin_witness :
  ∃ ls σ picks st, main_setup (λ s, inl (ex_url s)) ex_config ∅ =
      (Ret (inl (NewPool ls, NewRoundRobin)), σ) ∧
    NoDup ls ∧ length ls = 2%nat ∧
    serve_all (NewPool ls) ex_visits (NewRoundRobin, σ) = (Ret (zip_with (relayed σ) picks ex_visits), (st, σ)) ∧
    length picks = length ex_visits ∧ ∀ l, l ∈ ls → occ l picks = 3%nat.
Proof.
  apply (main_serves_round_robin (λ s, inl (ex_url s)) ex_config ex_pool_config [] ex_visits 3).
  - reflexivity.
  - discriminate.
  - repeat constructor; eexists; reflexivity.
  - unfold ex_visits. cbn. repeat constructor; cbn; discriminate.
  - reflexivity.
  - vm_compute. discriminate.
Defined.
