(* ===== verification/Main.v ===== *)
(** The program from its command line to its exit code (cmd/gobalancer/main.go),
    over the loading of Config.v and the startup of App.v, and the server
    functions of internal/proxy/http.go. *)

From S2P Require Export App Admin.

#[local] Open Scope Z_scope.

(** ** The HTTP server *)

(** The fields of [http.Server] that the program sets; the handler is the proxy
    that [main] builds. *)
Record HTTPServer := mkHTTPServer {
  hsrv_Addr : string;
  hsrv_ReadTimeout : Duration;
  hsrv_WriteTimeout : Duration;
  hsrv_IdleTimeout : Duration;
}.

Definition NewHTTPServer (addr : string) (readTimeout writeTimeout idleTimeout : Duration) : HTTPServer :=
  mkHTTPServer addr readTimeout writeTimeout idleTimeout.

(** What [srv.ListenAndServe] and [srv.Shutdown] return: nil,
    [http.ErrServerClosed] or another error. *)
Inductive server_error := ErrServerClosed | ServerError (text : string).

#[export] Instance server_error_eq_dec : EqDecision server_error.
Proof. solve_decision. Defined.

(** What the [select] of [main] and of [ListenAndServe] receives first. *)
Inductive server_event :=
| CtxDone (shutdown : option server_error)   (* the context ends; what Shutdown returns *)
| Served (err : option server_error).        (* ListenAndServe returned *)

(** [ListenAndServe(ctx, srv)] of the proxy package. *)
Definition ListenAndServe (e : server_event) : option server_error :=
  match e with
  | CtxDone shutdown => shutdown
  | Served err =>
      match err with
      | None => None
      | Some ErrServerClosed => None
      | Some (ServerError text) => Some (ServerError ("http server: " +:+ text))
      end
  end.

(** ** main *)

Section program.
Context {Settings : Type}.
Variable ReadInConfig : list (string * setting) → string → Settings + string.
Variable Unmarshal : Settings → Config + string.
Variable validator_Struct : Config → list (string * string).
Variable url_Parse : string → URL + string.

(** [main] up to the goroutine that listens: the exit code, or the proxy's pool
    and selector with the server they are put behind. *)
Definition main_start (cfgPath : string) : M store (Z + (Pool * RoundRobin * HTTPServer)) :=
  match Load ReadInConfig Unmarshal validator_Struct cfgPath with
  | inr _ => mret (inl 1)
  | inl cfg =>
      r ← main_setup url_Parse cfg;
      match r with
      | inr _ => mret (inl 1)
      | inl (pool, sel) =>
          mret (inr (pool, sel,
            NewHTTPServer (srv_Addr (cfg_Server cfg)) (srv_ReadTimeout (cfg_Server cfg))
              (srv_WriteTimeout (cfg_Server cfg)) (srv_IdleTimeout (cfg_Server cfg))))
      end
  end.

(** The [select] at the end of [main]: the exit code. *)
Definition main_exit (e : server_event) : Z :=
  match e with
  | CtxDone None => 0
  | CtxDone (Some _) => 1
  | Served None => 0
  | Served (Some err) => if decide (err = ErrServerClosed) then 0 else 1
  end.

Definition main (cfgPath : string) (e : server_event) : M store Z :=
  r ← main_start cfgPath;
  mret (match r with inl code => code | inr _ => main_exit e end).
End program.

(** ** Lemmas *)

Lemma created_live url_Parse σ bcs ls :
  Forall2 (created url_Parse σ) bcs ls → Forall (healthy_at σ) ls.
Proof.
  induction 1 as [|bc l bcs ls (u & _ & Hb) _ IH]; constructor; [|done].
  unfold healthy_at. by rewrite Hb.
Qed.

Lemma algorithm_known name : name ∈ algorithm_names ↔ name ∈ algorithms.
Proof. reflexivity. Qed.

(** ** Reloading *)

(** A reload finds the files as they are at that moment: each has its own
    reader. *)
Definition reload_step {Settings} Unmarshal validator_Struct
    (rd : (list (string * setting) → string → Settings + string) * string) : M (ConfigReloader Config) (option string) :=
  ConfigReloader_Reload (Load rd.1 Unmarshal validator_Struct) rd.2.

Fixpoint reload_run {Settings} Unmarshal validator_Struct
    (rds : list ((list (string * setting) → string → Settings + string) * string))
    : M (ConfigReloader Config) (list (option string)) :=
  match rds with
  | [] => mret []
  | rd :: rds' =>
      e ← reload_step Unmarshal validator_Struct rd;
      es ← reload_run Unmarshal validator_Struct rds';
      mret (e :: es)
  end.

(** The specification: the last configuration that loaded. *)
Definition last_loaded {Settings} Unmarshal validator_Struct
    (rds : list ((list (string * setting) → string → Settings + string) * string)) (cfg : Config) : Config :=
  fold_left (λ cur rd, match Load rd.1 Unmarshal validator_Struct rd.2 with
                       | inl cfg => cfg | inr _ => cur end) rds cfg.

Lemma reload_step_spec {Settings} Unmarshal validator_Struct
    (rd : (list (string * setting) → string → Settings + string) * string) cfg :
  reload_step Unmarshal validator_Struct rd (NewConfigReloader (Some cfg)) =
    match Load rd.1 Unmarshal validator_Struct rd.2 with
    | inl cfg' => (Ret None, NewConfigReloader (Some cfg'))
    | inr err => (Ret (Some err), NewConfigReloader (Some cfg))
    end.
Proof. unfold reload_step, ConfigReloader_Reload. by destruct (Load _ _ _ _). Qed.

(** ** Properties *)

(** C3. What the validation accepts, the program can run: when the tags mean
    what they say and the addresses they accept parse, a path either fails to
    load and the process exits with 1 before it touches anything, or loads and
    [main] reaches its server without a panic, with one healthy, unloaded
    backend of positive weight per entry of the first pool, in order, at least
    one of them; and the factory knows the algorithm of every pool. *)
Theorem loaded_config_starts {Settings} (ReadInConfig : list (string * setting) → string → Settings + string)
    Unmarshal validator_Struct is_url url_Parse path :
  validator_sound is_url validator_Struct →
  (∀ a, is_url a = true → ∃ u, url_Parse a = inl u) →
  match Load ReadInConfig Unmarshal validator_Struct path with
  | inr _ => main_start ReadInConfig Unmarshal validator_Struct url_Parse path ∅ = (Ret (inl 1), ∅)
  | inl cfg =>
      ∃ pc pools ls σ srv, cfg_Pools cfg = pc :: pools ∧
        main_start ReadInConfig Unmarshal validator_Struct url_Parse path ∅ =
          (Ret (inr (NewPool ls, NewRoundRobin, srv)), σ) ∧
        ls ≠ [] ∧ NoDup ls ∧ Forall (healthy_at σ) ls ∧
        Forall2 (created url_Parse σ) (pc_Backends pc) ls ∧
        Forall (λ p, ∀ seed : (), ∃ a, NewSelector (λ _, seed) (pc_Algorithm p) = inl a) (cfg_Pools cfg)
  end.
Proof.
  intros Hv Hu. unfold main_start.
  destruct (Load ReadInConfig Unmarshal validator_Struct path) as [cfg|err] eqn:EL; [|done].
  apply Load_inl, Hv, tags_ok_pools in EL as [Hne Hp].
  destruct (cfg_Pools cfg) as [|pc pools] eqn:Ec; [done|].
  pose proof (Forall_inv Hp) as (_ & Hbne & Hbs).
  destruct (create_backends_spec url_Parse (pc_Backends pc) [] ∅) as (ls & σ & E & Hlen & Hnd & _ & _ & Hc).
  { eapply Forall_impl; [exact Hbs|]. intros b (_ & Hb & _). eauto. }
  exists pc, pools, ls, σ. eexists. split_and!; [done| | |done| |done|].
  - unfold main_setup. rewrite Ec. unfold mbind, M_bind, lift. simpl. by rewrite E.
  - intros ->. by destruct (pc_Backends pc).
  - by eapply created_live.
  - eapply Forall_impl; [exact Hp|]. intros p (Ha & _) seed.
    by apply NewSelector_known, algorithm_known.
Qed.

(** The exit code: the process ends with 0 exactly when the configuration
    loaded, the backends were created, and the server was shut down cleanly or
    closed; a failure of any of these gives 1. *)
Theorem main_exit_codes {Settings} (ReadInConfig : list (string * setting) → string → Settings + string)
    Unmarshal validator_Struct url_Parse path e code σ σ' :
  main ReadInConfig Unmarshal validator_Struct url_Parse path e σ = (Ret code, σ') →
  (code = 0 ∨ code = 1) ∧
  (code = 0 ↔
    (∃ x, (main_start ReadInConfig Unmarshal validator_Struct url_Parse path σ).1 = Ret (inr x)) ∧
    (e = CtxDone None ∨ e = Served None ∨ e = Served (Some ErrServerClosed))).
Proof.
  unfold main. intros H.
  assert (∀ x, (main_start ReadInConfig Unmarshal validator_Struct url_Parse path σ).1 = Ret (inl x) → x = 1) as H1.
  { unfold main_start. intros x Hx. destruct (Load _ _ _ _) as [cfg|]; [|by simplify_eq/=].
    unfold mbind, M_bind in Hx. destruct (main_setup _ _ σ) as [[[[]|]|] ?]; by simplify_eq/=. }
  unfold mbind, M_bind in H.
  destruct (main_start ReadInConfig Unmarshal validator_Struct url_Parse path σ) as [[[x|x]|w] σ1] eqn:E;
    simplify_eq/=.
  - unfold mret, M_ret in H. rewrite (H1 x eq_refl) in H. simplify_eq. split; [by right|].
    split; [done|]. by intros [[y ?] _].
  - unfold mret, M_ret in H. simplify_eq. unfold main_exit. split; [destruct e as [[?|]|[[|?]|]]; auto|].
    split; [|by intros [_ [-> | [-> | ->]]]].
    intros Hc. split; [eauto|]. destruct e as [[?|]|[[|?]|]]; by auto.
Qed.

Lemma reload_run_spec {Settings} Unmarshal validator_Struct
    (rds : list ((list (string * setting) → string → Settings + string) * string)) cfg :
  reload_run Unmarshal validator_Struct rds (NewConfigReloader (Some cfg)) =
    (Ret ((λ rd, match Load rd.1 Unmarshal validator_Struct rd.2 with
                 | inl _ => None | inr err => Some err end) <$> rds),
     NewConfigReloader (Some (last_loaded Unmarshal validator_Struct rds cfg))).
Proof.
  revert cfg. induction rds as [|rd rds IH]; intros cfg; [done|].
  cbn [reload_run last_loaded fold_left]. unfold mbind, M_bind. rewrite reload_step_spec, fmap_cons.
  destruct (Load rd.1 Unmarshal validator_Struct rd.2) as [cfg'|err]; by rewrite IH.
Qed.

Lemma last_loaded_valid {Settings} Unmarshal validator_Struct is_url
    (rds : list ((list (string * setting) → string → Settings + string) * string)) cfg :
  validator_sound is_url validator_Struct → tags_ok is_url cfg = true →
  tags_ok is_url (last_loaded Unmarshal validator_Struct rds cfg) = true.
Proof.
  intros Hv. revert cfg. induction rds as [|rd rds IH]; intros cfg Hc; [done|].
  cbn [last_loaded fold_left]. destruct (Load rd.1 Unmarshal validator_Struct rd.2) as [cfg'|err] eqn:E; [|by apply IH].
  apply IH. by apply Hv, (Load_inl _ _ _ _ _ E).
Qed.

(** Hot reload is safe: over any sequence of reloads, whatever the files
    hold when they are read, the configuration in force is the last one that
    loaded, a failed reload answers its error and changes nothing, and so the
    configuration in force always passes the validation. *)
Theorem reload_keeps_valid {Settings} Unmarshal validator_Struct is_url
    (rds : list ((list (string * setting) → string → Settings + string) * string)) cfg :
  validator_sound is_url validator_Struct → tags_ok is_url cfg = true →
  (reload_run Unmarshal validator_Struct rds;; ConfigReloader_Load) (NewConfigReloader (Some cfg)) =
    (Ret (Some (last_loaded Unmarshal validator_Struct rds cfg)),
     NewConfigReloader (Some (last_loaded Unmarshal validator_Struct rds cfg))) ∧
  (reload_run Unmarshal validator_Struct rds (NewConfigReloader (Some cfg))).1 =
    Ret ((λ rd, match Load rd.1 Unmarshal validator_Struct rd.2 with
                | inl _ => None | inr err => Some err end) <$> rds) ∧
  tags_ok is_url (last_loaded Unmarshal validator_Struct rds cfg) = true.
Proof.
  intros Hv Hc. rewrite (bind_Ret _ _ _ _ _ (reload_run_spec _ _ _ _)), reload_run_spec.
  split_and!; [done..|by apply last_loaded_valid].
Qed.

(** ** Witnesses *)

(** A validator that does what the tags say, and a reader of one file. *)
Definition ex_is_url (s : string) : bool := bool_decide (String.length s ≠ 0%nat).
Definition ex_validator (cfg : Config) : list (string * string) :=
  if tags_ok ex_is_url cfg then [] else [("Config", "required")].
Definition ex_reader (_ : list (string * setting)) (path : string) : unit + string :=
  if decide (path = "config.yaml") then inl tt else inr "no such file".

Lemma ex_validator_sound : validator_sound ex_is_url ex_validator.
Proof. intros cfg. unfold ex_validator. by destruct (tags_ok ex_is_url cfg). Qed.

Lemma loaded_config_starts_witness :
  ∃ pc pools ls σ srv, cfg_Pools ex_config = pc :: pools ∧
    main_start ex_reader (λ _, inl ex_config) ex_validator (λ s, inl (ex_url s)) "config.yaml" ∅ =
      (Ret (inr (NewPool ls, NewRoundRobin, srv)), σ) ∧
    ls ≠ [] ∧ NoDup ls ∧ Forall (healthy_at σ) ls ∧
    Forall2 (created (λ s, inl (ex_url s)) σ) (pc_Backends pc) ls ∧
    Forall (λ p, ∀ seed : (), ∃ a, NewSelector (λ _, seed) (pc_Algorithm p) = inl a) (cfg_Pools ex_config).
Proof.
  apply (loaded_config_starts ex_reader (λ _, inl ex_config) ex_validator ex_is_url
    (λ s, inl (ex_url s)) "config.yaml" ex_validator_sound).
  intros a _. by eexists.
Defined.

Lemma main_exit_codes_witness :
  ∃ code σ', main ex_reader (λ _, inl ex_config) ex_validator (λ s, inl (ex_url s)) "missing.yaml"
      (CtxDone None) ∅ = (Ret code, σ') ∧ (code = 0 ∨ code = 1).
Proof.
  exists 1, ∅. split; [reflexivity|].
  apply (main_exit_codes ex_reader (λ _, inl ex_config) ex_validator (λ s, inl (ex_url s)) "missing.yaml"
    (CtxDone None) 1 ∅ ∅). reflexivity.
Defined.

Lemma reload_keeps_valid_witness :
  tags_ok ex_is_url (last_loaded (λ _ : unit, inl ex_config) ex_validator
    [(ex_reader, "config.yaml"); (ex_reader, "missing.yaml")] ex_config) = true.
Proof.
  apply (reload_keeps_valid (λ _ : unit, inl ex_config) ex_validator ex_is_url
    [(ex_reader, "config.yaml"); (ex_reader, "missing.yaml")] ex_config ex_validator_sound).
  vm_compute. reflexivity.
Defined.
