(* ===== verification/AdminServer.v ===== *)
(** The admin server as its clients see it (internal/admin/server.go, [New],
    [Start] and the mux): requests of a method, the target of the request line
    as it was sent and a body, dispatched by the patterns that [New] registers
    to the handlers of Admin.v. *)

From S2P Require Export GoMux Main.

#[local] Open Scope Z_scope.

(** ** Answers that no handler gives *)

Definition http_NotFound : Response := http_Error "404 page not found" 404.

Definition with_resp_header (k v : string) (r : Response) : Response :=
  mkResponse (resp_Status r) (Header_Set k v (resp_Header r)) (resp_Body r).

(** [http.Redirect] to a path of this server; the HTML note is left out. *)
Definition http_Redirect (path query : string) : Response :=
  let loc := if decide (query = "") then path_escape path else path_escape path +:+ "?" +:+ query in
  mkResponse 301 (Header_Set "Location" loc ∅) "".

(** The answer of the server to a request line that does not parse. *)
Definition bad_request : Response :=
  mkResponse 400 (Header_Set "Connection" "close" (Header_Set "Content-Type" "text/plain; charset=utf-8" ∅))
    "400 Bad Request".

(** The request with the path and the query of its target. *)
Definition with_target (path query : string) (r : Request) : Request :=
  mkRequest (req_Method r) (req_Host r) (req_RemoteAddr r) (req_Header r) (req_Scheme r) (req_URLHost r)
    path query (req_TLS r) (req_Ctx r).

(** What the mux writes for a dispatch that is not a handler. *)
Definition mux_answer {H A} (d : dispatch H) (query : string) (handle : H → A) (answer : Response → A) : A :=
  match d with
  | DHandle h => handle h
  | DRedirect path => answer (http_Redirect path query)
  | DMethodNotAllowed allow => answer (with_resp_header "Allow" allow (http_Error "Method Not Allowed" 405))
  | DNotFound => answer http_NotFound
  end.

Section server.
(** [url.parseAuthority], [url.Parse], the JSON decoders and encoders. *)
Variable valid_authority : string → bool.
Variable url_Parse : string → URL + string.
Variable decode_add : string → (string * string * Z) + string.
Variable decode_weight : string → Z + string.
Variable encode_snapshot : Snapshot → string.
Variable encode_list : list Snapshot → string.

(** A handler gets the request and its body. *)
Abbreviation handler := (Request → string → M astate Response).

(** [Server] with the fields of its [http.Server]; the pool it points to is the
    state of the handlers. *)
Record Server := mkServer {
  as_Addr : string;
  as_Handler : list (pattern * handler);
  as_ReadTimeout : Duration;
  as_WriteTimeout : Duration;
}.

(** The registrations of [New], in order. *)
Definition New_routes : M (list (pattern * handler)) () :=
  HandleFunc "GET /admin/backends" (λ _ _, handleListBackends encode_list);;
  HandleFunc "POST /admin/backends" (λ _ body, handleAddBackend url_Parse decode_add encode_snapshot body);;
  HandleFunc "DELETE /admin/backends/" (λ r _, handleRemoveBackend (req_Path r));;
  HandleFunc "PUT /admin/backends/" (λ r body, handleUpdateWeight decode_weight encode_snapshot (req_Path r) body);;
  HandleFunc "POST /admin/reload" (λ _ _, handleReload).

Definition New (addr : string) : outcome Server :=
  match New_routes [] with
  | (Ret _, mux) => Ret (mkServer addr mux (10 * Second) (10 * Second))
  | (Panic why, _) => Panic why
  end.

(** One request to the server, with a method that is a valid token: [target] is
    the request target.  net/http parses it before any handler runs; the target
    [*] never gets to one. *)
Definition Server_ServeHTTP (s : Server) (r : Request) (target body : string) : M astate Response :=
  match read_target valid_authority (req_Method r) target with
  | None => mret bad_request
  | Some (raw, query) =>
      match path_unescape raw with
      | None => mret bad_request
      | Some path =>
          if decide (target = "*") then
            mret (if decide (req_Method r = "OPTIONS") then mkResponse 200 ∅ ""
                  else mkResponse 400 (Header_Set "Connection" "close" ∅) "")
          else
            mux_answer (mux_dispatch (as_Handler s) (req_Method r) (escaped_path raw path) path)
              query (λ h, h (with_target path query r) body) mret
      end
  end.

(** [Start]: what it returns once [ListenAndServe] has returned; the goroutine
    that waits for the context makes it return [ErrServerClosed]. *)
Definition Server_Start (served : option server_error) : option server_error :=
  match served with
  | Some (ServerError text) => Some (ServerError text)
  | Some ErrServerClosed | None => None
  end.
End server.

(** ** Specification: the table of endpoints *)

Inductive endpoint := EList | EAdd | ERemove | EWeight | EReload.

#[export] Instance endpoint_eq_dec : EqDecision endpoint.
Proof. solve_decision. Defined.

(** The endpoint of a method and the decoded segments of a clean path. *)
Definition admin_table (method : string) (segs : list string) (slashed : string) : dispatch endpoint :=
  if decide (segs = ["admin"; "backends"]) then
    if decide (method = "GET" ∨ method = "HEAD") then DHandle EList
    else if decide (method = "POST") then DHandle EAdd
    else if decide (method = "DELETE" ∨ method = "PUT") then DRedirect slashed
    else DMethodNotAllowed "DELETE, GET, HEAD, POST, PUT"
  else if decide (take 2 segs = ["admin"; "backends"]) then
    if decide (method = "DELETE") then DHandle ERemove
    else if decide (method = "PUT") then DHandle EWeight
    else DMethodNotAllowed "DELETE, PUT"
  else if decide (segs = ["admin"; "reload"]) then
    if decide (method = "POST") then DHandle EReload else DMethodNotAllowed "POST"
  else DNotFound.

(** The request an endpoint makes of the pool. *)
Definition endpoint_request (e : endpoint) (path body : string) : admin_request :=
  match e with
  | EList => AList
  | EAdd => AAdd body
  | ERemove => ARemove path
  | EWeight => AWeight path body
  | EReload => AReload
  end.

(** What a request means: a request to the pool, or an answer without one. *)
Definition admin_route (valid_authority : string → bool) (method target body : string) : admin_request + Response :=
  match read_target valid_authority method target with
  | None => inr bad_request
  | Some (raw, query) =>
      match path_unescape raw with
      | None => inr bad_request
      | Some path =>
          if decide (target = "*") then
            inr (if decide (method = "OPTIONS") then mkResponse 200 ∅ ""
                 else mkResponse 400 (Header_Set "Connection" "close" ∅) "")
          else
            let escaped := escaped_path raw path in
            let p := if decide (method = "CONNECT") then escaped else clean_path escaped in
            let d := admin_table method (unesc <$> path_segs p) (clean_path path +:+ "/") in
            let d := match d with
                     | DRedirect _ => d
                     | _ => if decide (method ≠ "CONNECT" ∧ p ≠ escaped) then DRedirect p else d
                     end in
            mux_answer d query (λ e, inl (endpoint_request e path body)) inr
      end
  end.

(** A target that is no URL: a byte that may not stand in it, or neither a path,
    nor [*], nor anything with a scheme. *)
Definition malformed_target (method target : string) : Prop :=
  target_bytes target = false ∨
  method ≠ "CONNECT" ∧ head_byte target ≠ Some slash ∧ target ≠ "*" ∧ index_byte colon target = None.

(** ** Lemmas *)

(** The patterns that [New] registers. *)
Definition admin_mux {H : Type} (hl ha hr hw hre : H) : list (pattern * H)%type :=
  [(mkPattern "GET" ["admin"; "backends"] false, hl);
   (mkPattern "POST" ["admin"; "backends"] false, ha);
   (mkPattern "DELETE" ["admin"; "backends"] true, hr);
   (mkPattern "PUT" ["admin"; "backends"] true, hw);
   (mkPattern "POST" ["admin"; "reload"] false, hre)].

Definition endpoint_handler {H} (hl ha hr hw hre : H) (e : endpoint) : H :=
  match e with EList => hl | EAdd => ha | ERemove => hr | EWeight => hw | EReload => hre end.

Lemma New_mux up da dw es el addr :
  New up da dw es el addr =
    Ret (mkServer addr
      (admin_mux (λ _ _, handleListBackends el) (λ _ body, handleAddBackend up da es body)
         (λ r _, handleRemoveBackend (req_Path r)) (λ r body, handleUpdateWeight dw es (req_Path r) body)
         (λ _ _, handleReload)) (10 * Second) (10 * Second)).
Proof. vm_compute. reflexivity. Qed.

(** The methods the patterns name, HEAD, and any other. *)
Ltac method_cases m :=
  destruct (decide (m = "GET")) as [->|];
  [|destruct (decide (m = "POST")) as [->|];
  [|destruct (decide (m = "DELETE")) as [->|];
  [|destruct (decide (m = "PUT")) as [->|];
  [|destruct (decide (m = "HEAD")) as [->|]]]]].

Section dispatch.
Context {H : Type} (hl ha hr hw hre : H).
Abbreviation mux := (admin_mux hl ha hr hw hre).

(** The two paths of the table and the subtree, on encoded segments. *)
Definition is_backends (segs : list string) : bool := match_segs ["admin"; "backends"] false segs.
Definition in_backends (segs : list string) : bool := match_segs ["admin"; "backends"] true segs.
Definition is_reload (segs : list string) : bool := match_segs ["admin"; "reload"] false segs.

(** What the patterns of a method match. *)
Definition path_admin (m : string) (b i r : bool) : option (pattern * H) :=
  if decide (m = "GET") then (if b then Some (mkPattern "GET" ["admin"; "backends"] false, hl) else None)
  else if decide (m = "POST") then
    (if b then Some (mkPattern "POST" ["admin"; "backends"] false, ha)
     else if r then Some (mkPattern "POST" ["admin"; "reload"] false, hre) else None)
  else if decide (m = "DELETE") then
    (if i then Some (mkPattern "DELETE" ["admin"; "backends"] true, hr) else None)
  else if decide (m = "PUT") then
    (if i then Some (mkPattern "PUT" ["admin"; "backends"] true, hw) else None)
  else None.

Lemma match_path_admin m segs :
  match_path mux m segs = path_admin m (is_backends segs) (in_backends segs) (is_reload segs).
Proof.
  unfold match_path, admin_mux. cbn [List.filter fst pt_method pt_lits pt_multi].
  fold (is_backends segs) (in_backends segs) (is_reload segs).
  generalize (is_backends segs) (in_backends segs) (is_reload segs). intros b i r. unfold path_admin.
  method_cases m; try (destruct b, i, r; reflexivity).
  rewrite !bool_decide_eq_false_2 by (intros E; by rewrite E in *). cbn [andb]. by repeat case_decide.
Qed.

Definition any_admin (m : string) (b i r : bool) : bool :=
  (b && bool_decide (m = "GET" ∨ m = "HEAD" ∨ m = "POST")) ||
  (i && bool_decide (m = "DELETE" ∨ m = "PUT")) || (r && bool_decide (m = "POST")).

Lemma method_matches_admin segs m :
  method_matches mux segs m = any_admin m (is_backends segs) (in_backends segs) (is_reload segs).
Proof.
  unfold method_matches, admin_mux. cbn [existsb fst pt_method pt_lits pt_multi].
  fold (is_backends segs) (in_backends segs) (is_reload segs).
  generalize (is_backends segs) (in_backends segs) (is_reload segs). intros b i r. unfold any_admin.
  method_cases m; try (destruct b, i, r; reflexivity).
  rewrite (bool_decide_eq_false_2 (m = "GET" ∨ m = "HEAD" ∨ m = "POST")),
    (bool_decide_eq_false_2 (m = "DELETE" ∨ m = "PUT")), (bool_decide_eq_false_2 (m = "POST")) by tauto.
  repeat (case_bool_decide; [exfalso; intuition congruence|]). by destruct b, i, r.
Qed.

(** What the patterns say of the segments, and of the segments with a slash
    added. *)
Inductive shape (segs : list string) : bool → bool → bool → bool → Prop :=
| ShBackends :
    unesc <$> segs = ["admin"; "backends"] → shape segs true false false true
| ShSub :
    unesc <$> segs ≠ ["admin"; "backends"] → take 2 (unesc <$> segs) = ["admin"; "backends"] →
    (2 < length segs)%nat → shape segs false true false true
| ShReload :
    unesc <$> segs = ["admin"; "reload"] → shape segs false false true false
| ShOther :
    unesc <$> segs ≠ ["admin"; "backends"] → take 2 (unesc <$> segs) ≠ ["admin"; "backends"] →
    unesc <$> segs ≠ ["admin"; "reload"] → shape segs false false false false.

Lemma segs_shape segs :
  shape segs (is_backends segs) (in_backends segs) (is_reload segs) (in_backends (app segs [""])) ∧
  is_backends (app segs [""]) = false ∧ is_reload (app segs [""]) = false.
Proof.
  unfold is_backends, in_backends, is_reload.
  rewrite !match_segs_exact, !match_segs_multi, unesc_slash, length_app.
  assert (length segs = length (unesc <$> segs)) as Hlen by (by rewrite length_fmap).
  set (ls := unesc <$> segs) in *. assert (unesc <$> segs = ls) as E by done. clearbody ls. rewrite Hlen.
  destruct (decide (ls = ["admin"; "backends"])) as [->|H1]; [split; [by constructor|done]|].
  destruct (decide (ls = ["admin"; "reload"])) as [->|H2]; [split; [by constructor|done]|].
  split; [|split; apply bool_decide_eq_false_2; by destruct ls as [|? [|? []]]].
  rewrite (bool_decide_eq_false_2 _ H1), (bool_decide_eq_false_2 _ H2). cbn [length].
  destruct (decide (take 2 ls = ["admin"; "backends"])) as [H3|H3].
  - assert (2 < length ls)%nat as Hl.
    { destruct ls as [|a [|b [|x l]]]; simplify_eq/=; lia. }
    rewrite take_app_le by lia. rewrite !bool_decide_eq_true_2 by (split; [done|lia]).
    apply ShSub; by rewrite ?E, ?Hlen.
  - rewrite !bool_decide_eq_false_2; [by apply ShOther; rewrite E| |by intros []].
    intros [H4 _]. destruct ls as [|a [|b ls]]; simplify_eq/=.
Qed.

(** A dispatch of the table with the registered handlers. *)
Definition with_handlers (d : dispatch endpoint) : dispatch H :=
  match d with
  | DHandle e => DHandle (endpoint_handler hl ha hr hw hre e)
  | DRedirect q => DRedirect q
  | DMethodNotAllowed a => DMethodNotAllowed a
  | DNotFound => DNotFound
  end.

Definition redirect_unclean {E} (unclean : bool) (p : string) (d : dispatch E) : dispatch E :=
  match d with DRedirect _ => d | _ => if unclean then DRedirect p else d end.


Lemma mux_match_admin m segs :
  mux_match mux m segs =
    path_admin (if decide (m = "HEAD") then "GET" else m) (is_backends segs) (in_backends segs) (is_reload segs).
Proof.
  unfold mux_match. rewrite !match_path_admin.
  generalize (is_backends segs) (in_backends segs) (is_reload segs). intros b i r.
  method_cases m; try (destruct b, i, r; reflexivity).
  by destruct (path_admin m b i r).
Qed.

Lemma matching_methods_admin p :
  let bits f := f (is_backends (path_segs p)) (in_backends (path_segs p)) (is_reload (path_segs p)) in
  let bits' f := f (is_backends (path_segs (p +:+ "/"))) (in_backends (path_segs (p +:+ "/")))
                   (is_reload (path_segs (p +:+ "/"))) in
  matching_methods mux p = List.filter (λ m, bits (any_admin m) || bits' (any_admin m)) http_methods.
Proof.
  intros bits bits'. unfold matching_methods. apply filter_ext. intros m. by rewrite !method_matches_admin.
Qed.

Lemma exact_subtree segs m h :
  exact_match (Some (mkPattern m ["admin"; "backends"] true, h : H)) segs =
    bool_decide (last segs = Some "") && bool_decide (length segs = 3%nat).
Proof. done. Qed.

(** Evaluate what is decided by known methods and bits. *)
Ltac eval_in t := let v := eval vm_compute in t in change t with v.
Ltac eval_methods :=
  repeat match goal with
  | |- context [path_admin ?m ?b ?i ?r] =>
      eval_in (path_admin m b i r)
  | |- context [List.filter ?f http_methods] => eval_in (List.filter f http_methods)
  end.

Ltac close_dispatch unclean :=
  rewrite ?(decide_False (P := _ = "GET" ∨ _ = "HEAD")), ?(decide_False (P := _ = "DELETE" ∨ _ = "PUT"))
    by tauto; destruct unclean; reflexivity.

Lemma path_admin_other m b i r :
  m ≠ "GET" → m ≠ "POST" → m ≠ "DELETE" → m ≠ "PUT" → path_admin m b i r = None.
Proof. intros. unfold path_admin. by rewrite !decide_False. Qed.

(** The mux computes the table. *)
Lemma mux_dispatch_table m escaped path :
  let p := if decide (m = "CONNECT") then escaped else clean_path escaped in
  (m ≠ "CONNECT" → head_byte p = Some slash) →
  mux_dispatch mux m escaped path =
    redirect_unclean (negb (bool_decide (m = "CONNECT")) && negb (bool_decide (p = escaped))) p
      (with_handlers (admin_table m (unesc <$> path_segs p) (clean_path path +:+ "/"))).
Proof.
  intros p Hhead. unfold mux_dispatch.
  assert ((if bool_decide (m = "CONNECT") then escaped else clean_path escaped) = p) as ->
    by (unfold p; case_bool_decide; [by rewrite decide_True|by rewrite decide_False]).
  clearbody p. rewrite matching_methods_admin, !mux_match_admin, path_segs_slash.
  destruct (decide (p = "")) as [->|Hp].
  { destruct (decide (m = "CONNECT")) as [->|Hm]; [reflexivity|by apply Hhead in Hm]. }
  rewrite (bool_decide_eq_false_2 (p = "")) by done.
  set (slashed := clean_path path +:+ "/"). clearbody slashed.
  set (unclean := negb _ && negb (bool_decide (p = escaped))). clearbody unclean.
  destruct (segs_shape (path_segs p)) as (Hs & -> & ->).
  assert (m ≠ "CONNECT" → unesc <$> path_segs p = ["admin"; "backends"] →
    bool_decide (last_byte p = Some slash) = false) as Hlast.
  { intros Hm E. apply bool_decide_eq_false_2. rewrite last_byte_segs by auto.
    destruct (path_segs p) as [|a [|b [|]]]; simplify_eq/=. intros [= ->]. done. }
  assert (last (app (path_segs p) [""]) = Some "") as Hl by apply last_snoc.
  assert (length (app (path_segs p) [""]) = S (length (path_segs p))) as Hn by (rewrite length_app; simpl; lia).
  unfold admin_table.
  inversion Hs as [E|E1 E2 E3|E|E1 E2 E3]; clear Hs.
  - rewrite (decide_True _ _ E). specialize (λ H, Hlast H E) as Hlast'.
    assert (length (path_segs p) = 2%nat) as E2 by (by rewrite <- (length_fmap unesc), E).
    method_cases m; rewrite ?path_admin_other by done; eval_methods; rewrite ?Hlast' by done;
      rewrite ?exact_subtree, ?Hl, ?Hn, ?E2, ?andb_false_r; close_dispatch unclean.
  - rewrite (decide_False _ _ E1), (decide_True _ _ E2).
    assert (bool_decide (length (app (path_segs p) [""]) = 3%nat) = false) as E4
      by (apply bool_decide_eq_false_2; lia).
    method_cases m; rewrite ?path_admin_other by done; eval_methods;
      rewrite ?exact_subtree, ?E4, ?andb_false_r; close_dispatch unclean.
  - rewrite E. rewrite (decide_False (P := _ = ["admin"; "backends"])), (decide_False (P := _ = ["admin"; "backends"])),
      (decide_True (P := ["admin"; "reload"] = _)) by done.
    method_cases m; rewrite ?path_admin_other by done; eval_methods; rewrite ?andb_false_r; close_dispatch unclean.
  - rewrite (decide_False _ _ E1), (decide_False _ _ E2), (decide_False _ _ E3).
    method_cases m; rewrite ?path_admin_other by done; eval_methods; rewrite ?andb_false_r; close_dispatch unclean.
Qed.
End dispatch.

Lemma clean_path_head p : head_byte (clean_path p) = Some slash.
Proof.
  unfold clean_path. set (q := if decide (head_byte p = Some slash) then p else String slash p).
  assert (head_byte (path_Clean q) = Some slash) as H.
  { unfold path_Clean. case_decide as Hq; [done|]. by destruct (clean_loop [] (GoString.split slash q)). }
  case_decide; [|done]. by destruct (path_Clean q).
Qed.

(** *** Addressing a backend by its id *)

Lemma route_escaped va m raw path body e :
  read_target va m raw = Some (raw, "") →
  raw ≠ "*" → path ≠ "*" → path_unescape raw = Some path → valid_encoded raw = true → clean_path raw = raw →
  admin_table m (unesc <$> path_segs raw) (clean_path path +:+ "/") = DHandle e →
  admin_route va m raw body = inl (endpoint_request e path body).
Proof.
  intros H0 H1 H2 H3 H4 H5 H6. unfold admin_route. rewrite H0, H3, decide_False by done.
  rewrite escaped_path_valid by done. rewrite H5.
  replace (if decide (m = "CONNECT") then raw else raw) with raw by (by case_decide).
  rewrite H6. rewrite decide_False; [done|]. by intros [_ ?].
Qed.

Lemma read_target_path va m s :
  m ≠ "CONNECT" → target_bytes s = true → head_byte s = Some slash → index_byte question s = None →
  read_target va m s = Some (s, "").
Proof.
  intros Hm Hb Hh Hq. unfold read_target. rewrite decide_False by (by intros [? _]). by apply ParseRequestURI_path.
Qed.

Lemma read_target_malformed va m s : malformed_target m s → read_target va m s = None.
Proof.
  unfold read_target. intros [H|(Hm & Hh & Hs & Hc)].
  - case_decide; apply ParseRequestURI_bytes; [by rewrite target_bytes_app, H|done].
  - rewrite decide_False by (by intros [? _]). by apply ParseRequestURI_relative.
Qed.

(** The target of an id in percent escapes, with any plain end. *)
Lemma read_target_id va m id post :
  m ≠ "CONNECT" → target_bytes post = true → index_byte question post = None →
  read_target va m (backends_prefix +:+ percent_all id +:+ post) = Some (backends_prefix +:+ percent_all id +:+ post, "").
Proof.
  intros Hm Hb Hq. destruct (percent_all_target id) as [H1 H2]. apply read_target_path; [done| |done|].
  - by rewrite !target_bytes_app, H1, Hb.
  - by repeat apply index_byte_app_None.
Qed.

Lemma backends_rooted id : backends_prefix +:+ id = rooted ["admin"; "backends"; id].
Proof. unfold backends_prefix. cbn [rooted]. by rewrite !str_app_nil_r. Qed.

Lemma weight_rooted id : backends_prefix +:+ id +:+ "/weight" = rooted ["admin"; "backends"; id; "weight"].
Proof. reflexivity. Qed.

(** DELETE with the id written in percent escapes reaches the removal of that id. *)
Lemma route_delete va id body :
  admin_route va "DELETE" (backends_prefix +:+ percent_all id) body = inl (ARemove (backends_prefix +:+ id)).
Proof.
  destruct (decide (id = "")) as [->|Hid]; [reflexivity|].
  assert (Forall plain_seg ["admin"; "backends"; percent_all id]) as Hp.
  { repeat apply Forall_cons_2; try done; by apply percent_all_plain. }
  apply (route_escaped va "DELETE" _ _ body ERemove).
  - rewrite <- (str_app_nil_r (percent_all id)). by apply read_target_id.
  - done.
  - done.
  - rewrite unescape_app_plain by done. by rewrite unescape_percent_all.
  - by rewrite valid_encoded_app, percent_all_valid.
  - rewrite backends_rooted. by apply clean_path_rooted.
  - rewrite backends_rooted, path_segs_rooted by (by apply plain_no_slash).
    rewrite !fmap_cons. unfold admin_table. rewrite decide_False by done.
    rewrite decide_True by reflexivity. by rewrite decide_True.
Qed.

Lemma route_weight va id body :
  id ≠ "" →
  admin_route va "PUT" (backends_prefix +:+ percent_all id +:+ "/weight") body =
    inl (AWeight (backends_prefix +:+ id +:+ "/weight") body).
Proof.
  intros Hid.
  assert (Forall plain_seg ["admin"; "backends"; percent_all id; "weight"]) as Hp.
  { repeat apply Forall_cons_2; try done; by apply percent_all_plain. }
  apply (route_escaped va "PUT" _ _ body EWeight).
  - by apply read_target_id.
  - done.
  - done.
  - rewrite unescape_app_plain by done.
    assert (path_unescape (percent_all id +:+ "/weight") = Some (id +:+ "/weight")) as ->; [|done].
    clear. induction id as [|a id IH]; [done|]. cbn [percent_all].
    change (percent_encode a (percent_all id) +:+ "/weight") with (percent_encode a (percent_all id +:+ "/weight")).
    by rewrite unescape_percent_encode, IH.
  - by rewrite !valid_encoded_app, percent_all_valid.
  - rewrite weight_rooted. by apply clean_path_rooted.
  - rewrite weight_rooted, path_segs_rooted by (by apply plain_no_slash).
    rewrite !fmap_cons. unfold admin_table. rewrite decide_False by done.
    rewrite decide_True by reflexivity. rewrite decide_False, decide_True by done. done.
Qed.

(** ** Requests of clients *)

(** A request as the server reads it: its target as it was sent, and its body. *)
Record client_request := mkClient { cr_req : Request; cr_target : string; cr_body : string }.

Section clients.
Context (va : string → bool) (up : string → URL + string) (da : string → (string * string * Z) + string)
  (dw : string → Z + string) (es : Snapshot → string) (el : list Snapshot → string).

Fixpoint server_run (s : Server) (cs : list client_request) : M astate (list Z) :=
  match cs with
  | [] => mret []
  | c :: cs' =>
      resp ← Server_ServeHTTP va s (cr_req c) (cr_target c) (cr_body c);
      l ← server_run s cs'; mret (resp_Status resp :: l)
  end.

Definition client_route (c : client_request) : admin_request + Response :=
  admin_route va (req_Method (cr_req c)) (cr_target c) (cr_body c).

(** The specification on the map of Admin.v: answers without a handler leave
    it alone. *)
Definition client_spec (c : client_request) (m : gmap string Z) : option (Z * gmap string Z) :=
  match client_route c with
  | inl a => admin_spec up da dw a m
  | inr resp => Some (resp_Status resp, m)
  end.

Fixpoint client_spec_run (cs : list client_request) (m : gmap string Z) : option (list Z * gmap string Z) :=
  match cs with
  | [] => Some ([], m)
  | c :: cs' =>
      '(code, m1) ← client_spec c m;
      '(l, m2) ← client_spec_run cs' m1;
      Some (code :: l, m2)
  end.

Lemma Server_routes addr s r target body st :
  New up da dw es el addr = Ret s →
  Server_ServeHTTP va s r target body st =
    match admin_route va (req_Method r) target body with
    | inl a => admin_serve up da dw es el a st
    | inr resp => (Ret resp, st)
    end.
Proof.
  rewrite New_mux. intros [= <-]. unfold Server_ServeHTTP, admin_route. cbn [as_Handler].
  destruct (read_target va (req_Method r) target) as [[raw query]|]; [|done].
  destruct (path_unescape raw) as [path|]; [|done]. case_decide; [by case_decide|].
  set (m := req_Method r). set (escaped := escaped_path raw path).
  rewrite mux_dispatch_table.
  2:{ intros Hm. rewrite decide_False by done. apply clean_path_head. }
  set (p := if decide (m = "CONNECT") then escaped else clean_path escaped).
  set (slashed := clean_path path +:+ "/"). set (d := admin_table _ _ _).
  assert (negb (bool_decide (m = "CONNECT")) && negb (bool_decide (p = escaped)) =
          bool_decide (m ≠ "CONNECT" ∧ p ≠ escaped)) as -> by (by rewrite bool_decide_and, !bool_decide_not).
  destruct (decide (m ≠ "CONNECT" ∧ p ≠ escaped)) as [Hu|Hu];
    [rewrite (bool_decide_eq_true_2 _ Hu)|rewrite (bool_decide_eq_false_2 _ Hu)];
    destruct d as [[]| | |]; reflexivity.
Qed.

Lemma server_step s addr c st code m' :
  New up da dw es el addr = Ret s → admin_inv st → client_spec c (weights st) = Some (code, m') →
  ∃ resp st', Server_ServeHTTP va s (cr_req c) (cr_target c) (cr_body c) st = (Ret resp, st') ∧
    resp_Status resp = code ∧ admin_inv st' ∧ weights st' = m'.
Proof.
  intros Hs Hi. unfold client_spec. rewrite (Server_routes _ _ _ _ _ _ Hs). fold (client_route c).
  destruct (client_route c) as [a|resp].
  - by apply admin_serve_refines.
  - intros [= <- <-]. by exists resp, st.
Qed.
End clients.

(** ** Properties *)

(** C21. The server routes exactly by its table of endpoints: for every request
    whose method is a token, whatever its target (a path, percent-encoded,
    unclean or malformed, with or without a query, a URL, an authority, [*], or
    no URL at all) and its body, the request runs the handler that the table
    gives for the decoded segments (GET and HEAD list, POST adds, DELETE and PUT
    below /admin/backends/ remove and set the weight, POST /admin/reload), or is
    answered without touching the pool: 400 for a target that does not parse or
    decode, 301 for an unclean path or a missing slash, 405 with the methods that
    are allowed, 404 otherwise.  In particular a target with a control byte or a
    space, and one that is neither a path nor a URL, is answered 400.  None of
    the registrations panics. *)
Theorem admin_server_routes va up da dw es el addr :
  ∃ s, New up da dw es el addr = Ret s ∧ as_Addr s = addr ∧
    (∀ r target body st, Server_ServeHTTP va s r target body st =
      match admin_route va (req_Method r) target body with
      | inl a => admin_serve up da dw es el a st
      | inr resp => (Ret resp, st)
      end) ∧
    (∀ r target body st, malformed_target (req_Method r) target →
      Server_ServeHTTP va s r target body st = (Ret bad_request, st)).
Proof.
  eexists. split; [apply New_mux|split; [done|split]].
  - intros. eapply Server_routes. apply New_mux.
  - intros r target body st H. unfold Server_ServeHTTP. by rewrite read_target_malformed.
Qed.

(** C20. The admin server implements a map from ids to weights over HTTP: from a
    pool of live backends with distinct ids, any sequence of client requests,
    whatever their methods and targets, that adds no id already present is
    answered with the status codes of the specification and leaves its map, and
    no request panics. *)
Theorem admin_server_refines_map va up da dw es el addr s cs st codes m' :
  New up da dw es el addr = Ret s → admin_inv st →
  client_spec_run va up da dw cs (weights st) = Some (codes, m') →
  ∃ st', server_run va s cs st = (Ret codes, st') ∧ admin_inv st' ∧ weights st' = m'.
Proof.
  intros Hs. revert st codes. induction cs as [|c cs IH]; intros st codes Hi; cbn [client_spec_run server_run].
  - intros [= <- <-]. by exists st.
  - intros H. apply bind_Some in H as ([code m1] & H1 & H).
    apply bind_Some in H as ([l m2] & H2 & [= <- <-]).
    destruct (server_step va up da dw es el s addr c st code m1 Hs Hi H1) as (resp & st1 & E & <- & Hi1 & <-).
    destruct (IH st1 l Hi1 H2) as (st2 & E2 & Hi2 & Hw). exists st2.
    by rewrite (bind_Ret _ _ _ _ _ E), (bind_Ret _ _ _ _ _ E2).
Qed.

(** Every backend can be addressed, whatever bytes its id consists of (a
    slash, a dot segment, a space): a client that writes the id in percent
    escapes removes exactly that backend with DELETE, and sets exactly its
    weight with PUT and the suffix /weight when the id is not empty. *)
Theorem admin_addresses_every_id va up da dw es el addr s r st id w body w' :
  New up da dw es el addr = Ret s → admin_inv st → weights st !! id = Some w → dw body = inl w' →
  (req_Method r = "DELETE" → ∃ resp st',
    Server_ServeHTTP va s r (backends_prefix +:+ percent_all id) body st = (Ret resp, st') ∧
    resp_Status resp = 204 ∧ weights st' = delete id (weights st)) ∧
  (req_Method r = "PUT" → id ≠ "" → ∃ resp st',
    Server_ServeHTTP va s r (backends_prefix +:+ percent_all id +:+ "/weight") body st = (Ret resp, st') ∧
    resp_Status resp = 200 ∧ weights st' = <[id := w']> (weights st)).
Proof.
  intros Hs Hi Hw Hdw. split; intros Hm.
  - destruct (server_step va up da dw es el s addr (mkClient r (backends_prefix +:+ percent_all id) body) st
      204 (delete id (weights st)) Hs Hi) as (resp & st' & E & H1 & _ & H2); [|by exists resp, st'].
    unfold client_spec, client_route. cbn [cr_req cr_target cr_body]. rewrite Hm, route_delete.
    cbn [admin_spec]. by rewrite trim_prefix_app, Hw.
  - intros Hid.
    destruct (server_step va up da dw es el s addr (mkClient r (backends_prefix +:+ percent_all id +:+ "/weight") body) st
      200 (<[id := w']> (weights st)) Hs Hi) as (resp & st' & E & H1 & _ & H2); [|by exists resp, st'].
    unfold client_spec, client_route. cbn [cr_req cr_target cr_body]. rewrite Hm, route_weight by done.
    cbn [admin_spec]. by rewrite Hdw, trim_prefix_app, trim_suffix_app, Hw.
Qed.

(** ** Witnesses *)

Definition ex_admin_server : outcome Server :=
  New ex_url_parse ex_decode_add ex_decode_weight (λ _, "") (λ _, "") ":9001".

Lemma ex_admin_server_starts : ∃ s, ex_admin_server = Ret s.
Proof. eexists. apply New_mux. Qed.

Definition ex_client (method target body : string) : client_request :=
  mkClient (mkRequest method "admin" "10.0.0.1:5" ∅ "" "" "" "" false []) target body.

(** Authorities that are a name and a port. *)
Definition ex_authority (s : string) : bool := bool_decide (is_Some (index_byte colon s)).

Lemma admin_server_refines_map_witness :
  ∃ s st', ex_admin_server = Ret s ∧
    server_run ex_authority s [ex_client "POST" "/admin/backends" "b9"; ex_client "DELETE" "/admin/backends/%62%31" "";
                  ex_client "PUT" "/admin/backends/b0/weight" "x"; ex_client "PATCH" "/admin/backends" "";
                  ex_client "DELETE" "/admin/backends" ""; ex_client "GET" "/admin//backends" "";
                  ex_client "HEAD" "/admin/backends" ""; ex_client "GET" "/%zz" "";
                  ex_client "DELETE" (String (tab) "/admin/backends/b0") "";
                  ex_client "GET" "http://lb:9001/admin/backends?x" ""] (ex_pool, ex_store) =
      (Ret [201; 204; 200; 405; 301; 301; 200; 400; 400; 200], st') ∧
    weights st' = <["b0" := 7]> (delete "b1" (<["b9" := 1]> (weights (ex_pool, ex_store)))).
Proof.
  destruct ex_admin_server_starts as [s Hs].
  destruct (admin_server_refines_map ex_authority ex_url_parse ex_decode_add ex_decode_weight (λ _, "") (λ _, "") ":9001" s
    [ex_client "POST" "/admin/backends" "b9"; ex_client "DELETE" "/admin/backends/%62%31" "";
     ex_client "PUT" "/admin/backends/b0/weight" "x"; ex_client "PATCH" "/admin/backends" "";
     ex_client "DELETE" "/admin/backends" ""; ex_client "GET" "/admin//backends" "";
     ex_client "HEAD" "/admin/backends" ""; ex_client "GET" "/%zz" "";
     ex_client "DELETE" (String (tab) "/admin/backends/b0") "";
     ex_client "GET" "http://lb:9001/admin/backends?x" ""] (ex_pool, ex_store)
    [201; 204; 200; 405; 301; 301; 200; 400; 400; 200]
    (<["b0" := 7]> (delete "b1" (<["b9" := 1]> (weights (ex_pool, ex_store))))) Hs ex_admin_inv)
    as (st' & E & _ & Hw); [vm_compute; reflexivity|].
  exists s, st'. split; [exact Hs|]. split; [exact E|exact Hw].
Defined.

Lemma admin_addresses_every_id_witness :
  ∃ s resp st', ex_admin_server = Ret s ∧
    Server_ServeHTTP ex_authority s (cr_req (ex_client "DELETE" "" "")) "/admin/backends/%62%31" "x" (ex_pool, ex_store) =
      (Ret resp, st') ∧ resp_Status resp = 204 ∧ weights st' = delete "b1" (weights (ex_pool, ex_store)).
Proof.
  destruct ex_admin_server_starts as [s Hs].
  assert (weights (ex_pool, ex_store) !! "b1" = Some 2) as Hw by (vm_compute; reflexivity).
  assert (ex_decode_weight "x" = inl 7) as Hd by (vm_compute; reflexivity).
  destruct (admin_addresses_every_id ex_authority ex_url_parse ex_decode_add ex_decode_weight (λ _, "") (λ _, "") ":9001" s
    (cr_req (ex_client "DELETE" "" "")) (ex_pool, ex_store) "b1" 2 "x" 7 Hs ex_admin_inv Hw Hd)
    as [(resp & st' & H1 & H2 & H3) _]; [reflexivity|].
  exists s, resp, st'. split; [exact Hs|]. split; [exact H1|]. split; [exact H2|exact H3].
Defined.
