(* ===== verification/Tunnel.v ===== *)
(** Joining two connections (internal/proxy/tunnel.go, and [tunnel] of
    tcp.go): two goroutines copy in opposite directions and report on a
    channel, and the caller waits for both.  The goroutines are interleaved
    arbitrarily; the peers of the two connections follow scripts in which they
    may wait for what the other side sends, so that reads block.  A write does
    not wait: the peers take what they are sent. *)

From S2P Require Export GoInt.

(** ** State *)

Abbreviation chunk := (list Z).

(** Which of the two functions runs: [pipe] closes the write side of TCP
    connections only, [tunnel] asserts that the connection is one. *)
Inductive joiner := Pipe | Tunnel.

#[export] Instance joiner_eq_dec : EqDecision joiner.
Proof. solve_decision. Defined.

(** What the program at the far end of a connection does: send a chunk, or wait
    until it has received so many bytes in all ([None]: any number) or the end
    of its incoming stream.  It ends its own stream at the end of its script. *)
Inductive peer_op :=
| Send (c : chunk)
| Await (n : option nat).

(** The bytes of a script. *)
Definition sent (script : list peer_op) : list Z :=
  flat_map (λ op, match op with Send c => c | Await _ => [] end) script.

(** Enough bytes have come for a wait. *)
Definition arrived (n : option nat) (bytes : nat) : bool :=
  match n with Some n => bool_decide (n ≤ bytes)%nat | None => false end.

(** Where a copying goroutine is. *)
Inductive copy_pc :=
| C_read                            (* io.Copy: read from the source *)
| C_write (c : chunk)               (* io.Copy: write what was read *)
| C_close (err : option string)     (* close the write side of the destination *)
| C_send (err : option string)      (* report on the channel *)
| C_done
| C_panicked.

#[export] Instance copy_pc_eq_dec : EqDecision copy_pc.
Proof. solve_decision. Defined.

(** One direction: what the peer of the source still does, how its stream ends
    ([None] is EOF), whether the destination is a TCP connection, what was
    written to it and whether its write side is closed. *)
Record copier := mkCopier {
  cp_pc : copy_pc;
  cp_src : list peer_op;
  cp_end : option string;
  cp_dst_tcp : bool;
  cp_written : list Z;
  cp_closed : bool;
}.

(** The two directions, the channel of capacity two, and what the caller
    received from it. *)
Record joined := mkJoined {
  j_ab : copier;
  j_ba : copier;
  j_errc : list (option string);
  j_received : list (option string);
}.

(** ** Steps *)

(** What the destination of a direction has got so far: bytes, and the end of
    the stream once the write side is closed. *)
Definition heard (c : copier) : nat * bool := (length (cp_written c), cp_closed c).

(** One operation of a copying goroutine, whose source has heard [h] from the
    other direction: a read waits while the peer of the source does.  [w] is what
    a write does: everything, or some bytes and an error.  The second component
    is what it sends. *)
Definition copy_step (k : joiner) (w : option (nat * string)) (h : nat * bool) (c : copier)
    : copier * option (option string) :=
  let to p := mkCopier p (cp_src c) (cp_end c) (cp_dst_tcp c) (cp_written c) (cp_closed c) in
  match cp_pc c with
  | C_read =>
      match cp_src c with
      | [] => (to (C_close (cp_end c)), None)
      | Send ch :: rest => (mkCopier (C_write ch) rest (cp_end c) (cp_dst_tcp c) (cp_written c) (cp_closed c), None)
      | Await n :: rest =>
          if arrived n h.1 || h.2
          then (mkCopier C_read rest (cp_end c) (cp_dst_tcp c) (cp_written c) (cp_closed c), None)
          else (c, None)
      end
  | C_write ch =>
      match w with
      | None => (mkCopier C_read (cp_src c) (cp_end c) (cp_dst_tcp c) (cp_written c ++ ch) (cp_closed c), None)
      | Some (n, err) =>
          (mkCopier (C_close (Some err)) (cp_src c) (cp_end c) (cp_dst_tcp c)
             (cp_written c ++ take n ch) (cp_closed c), None)
      end
  | C_close err =>
      if cp_dst_tcp c then
        (mkCopier (C_send err) (cp_src c) (cp_end c) (cp_dst_tcp c) (cp_written c) true, None)
      else match k with Pipe => (to (C_send err), None) | Tunnel => (to C_panicked, None) end
  | C_send err => (to C_done, Some err)
  | C_done | C_panicked => (c, None)
  end.

Inductive turn :=
| TurnAB (w : option (nat * string))
| TurnBA (w : option (nat * string))
| TurnMain.

(** A panic of a copying goroutine is not recovered: it ends the process. *)
Definition crashed (j : joined) : Prop := cp_pc (j_ab j) = C_panicked ∨ cp_pc (j_ba j) = C_panicked.
#[export] Instance crashed_dec j : Decision (crashed j).
Proof. unfold crashed. apply _. Defined.

(** A send on a full channel and a receive from an empty one wait. *)
Definition send_blocked (c : copier) (ch : list (option string)) : Prop :=
  match cp_pc c with C_send _ => (2 ≤ length ch)%nat | _ => False end.
#[export] Instance send_blocked_dec c ch : Decision (send_blocked c ch).
Proof. unfold send_blocked. destruct (cp_pc c); apply _. Defined.

Definition join_step (k : joiner) (t : turn) (j : joined) : joined :=
  if decide (crashed j) then j
  else match t with
  | TurnAB w =>
      if decide (send_blocked (j_ab j) (j_errc j)) then j
      else
        let '(c, s) := copy_step k w (heard (j_ba j)) (j_ab j) in
        mkJoined c (j_ba j) (j_errc j ++ option_list s) (j_received j)
  | TurnBA w =>
      if decide (send_blocked (j_ba j) (j_errc j)) then j
      else
        let '(c, s) := copy_step k w (heard (j_ab j)) (j_ba j) in
        mkJoined (j_ab j) c (j_errc j ++ option_list s) (j_received j)
  | TurnMain =>
      if decide (2 ≤ length (j_received j))%nat then j
      else match j_errc j with
           | [] => j
           | e :: rest => mkJoined (j_ab j) (j_ba j) rest (j_received j ++ [e])
           end
  end.

Definition join_run (k : joiner) (sched : list turn) (j : joined) : joined :=
  fold_left (λ j t, join_step k t j) sched j.

(** [isConnClosed(err)] decides only what is logged: [nil] and EOF are [None]
    here; [timeout err] is what a net.Error answers, [None] for other errors. *)
Definition isConnClosed (timeout : string → option bool) (err : option string) : bool :=
  match err with
  | None => true
  | Some e => match timeout e with Some t => negb t | None => false end
  end.

(** The call: both goroutines start copying. *)
Definition start_copier (tcp : bool) (src : list peer_op) (e : option string) : copier :=
  mkCopier C_read src e tcp [] false.
Definition start_join (a_tcp b_tcp : bool) (peer_a peer_b : list peer_op) (end_a end_b : option string) : joined :=
  mkJoined (start_copier a_tcp peer_b end_b) (start_copier b_tcp peer_a end_a) [] [].

(** The caller has both reports and returns. *)
Definition returned (j : joined) : Prop := length (j_received j) = 2%nat.
#[export] Instance returned_dec j : Decision (returned j).
Proof. unfold returned. apply _. Defined.

(** ** Specification: the two peers connected directly *)

(** Two peers that have received [na] and [nb] bytes finish their scripts when
    they talk to each other over one connection; a peer whose flag is false
    never sees the end of the other's stream. *)
Inductive converses (a_eof b_eof : bool) : nat → nat → list peer_op → list peer_op → Prop :=
| conv_end na nb : converses a_eof b_eof na nb [] []
| conv_send_a na nb c sa sb :
    converses a_eof b_eof na (nb + length c) sa sb → converses a_eof b_eof na nb (Send c :: sa) sb
| conv_send_b na nb c sa sb :
    converses a_eof b_eof (na + length c) nb sa sb → converses a_eof b_eof na nb sa (Send c :: sb)
| conv_await_a na nb n sa sb :
    arrived n na = true ∨ a_eof = true ∧ sb = [] →
    converses a_eof b_eof na nb sa sb → converses a_eof b_eof na nb (Await n :: sa) sb
| conv_await_b na nb n sa sb :
    arrived n nb = true ∨ b_eof = true ∧ sa = [] →
    converses a_eof b_eof na nb sa sb → converses a_eof b_eof na nb sa (Await n :: sb).

(** ** Invariant *)

(** What is written is what was read, in order; the write side closes last. *)
Definition copier_ok (stream : list Z) (c : copier) : Prop :=
  match cp_pc c with
  | C_read => cp_written c ++ sent (cp_src c) = stream
  | C_write ch => cp_written c ++ ch ++ sent (cp_src c) = stream
  | _ => ∃ rest, cp_written c ++ rest = stream
  end ∧
  match cp_pc c with
  | C_send _ | C_done => cp_closed c = cp_dst_tcp c
  | _ => cp_closed c = false
  end.

(** And all of it, when no write failed. *)
Definition copier_clean (stream : list Z) (c : copier) : Prop :=
  match cp_pc c with
  | C_close _ | C_send _ | C_done => cp_written c = stream
  | _ => True
  end.

Definition reported (c : copier) : nat := match cp_pc c with C_done => 1 | _ => 0 end.

(** Operations left to a copier. *)
Definition copier_left (c : copier) : nat :=
  match cp_pc c with
  | C_read => 2 * length (cp_src c) + 3
  | C_write _ => 2 * length (cp_src c) + 4
  | C_close _ => 2
  | C_send _ => 1
  | C_done | C_panicked => 0
  end.
Definition join_left (j : joined) : nat :=
  copier_left (j_ab j) + copier_left (j_ba j) + (2 - length (j_received j)).

(** What is left of the script of a source, and what its destination has got
    or will have after the write in progress. *)
Definition to_read (c : copier) : list peer_op :=
  match cp_pc c with C_read | C_write _ => cp_src c | _ => [] end.
Definition got (c : copier) : nat :=
  length (cp_written c) + match cp_pc c with C_write ch => length ch | _ => 0 end.

(** The rest of the conversation, were it direct. *)
Definition converses_on (j : joined) : Prop :=
  converses (cp_dst_tcp (j_ab j)) (cp_dst_tcp (j_ba j)) (got (j_ab j)) (got (j_ba j))
    (to_read (j_ba j)) (to_read (j_ab j)).

Record join_ok (k : joiner) (a_tcp b_tcp : bool) (sa sb : list Z) (j : joined) : Prop := {
  jok_ab : copier_ok sb (j_ab j);
  jok_ba : copier_ok sa (j_ba j);
  jok_reports : (length (j_errc j) + length (j_received j) = reported (j_ab j) + reported (j_ba j))%nat;
  jok_tcp : cp_dst_tcp (j_ab j) = a_tcp ∧ cp_dst_tcp (j_ba j) = b_tcp;
  jok_crash : crashed j → k = Tunnel ∧ (a_tcp = false ∨ b_tcp = false);
}.

(** ** Lemmas *)

(** *** The conversation *)

Lemma converses_swap ea eb na nb sa sb : converses ea eb na nb sa sb → converses eb ea nb na sb sa.
Proof. induction 1; by constructor. Qed.

(** A peer that goes on does not spoil the conversation. *)
Lemma converses_send ea eb na nb c sa sb :
  converses ea eb na nb (Send c :: sa) sb → converses ea eb na (nb + length c) sa sb.
Proof.
  intros H. remember (Send c :: sa) as s eqn:Es. revert sa Es.
  induction H as [|na nb d s sb H IH|na nb d s sb H IH|na nb n s sb Hn H IH|na nb n s sb Hn H IH]; intros sa0 Es; subst; simplify_eq.
  - done.
  - apply conv_send_b. by apply IH.
  - apply conv_await_b; [|by apply IH]. left. destruct Hn as [Hn|[_ ?]]; [|done].
    destruct n as [n|]; [|done]. simpl in *. apply bool_decide_eq_true in Hn. apply bool_decide_eq_true. lia.
Qed.

Lemma converses_await ea eb na nb n sa sb :
  converses ea eb na nb (Await n :: sa) sb → converses ea eb na nb sa sb.
Proof.
  intros H. remember (Await n :: sa) as s eqn:Es. revert sa Es.
  induction H as [|na nb d s sb H IH|na nb d s sb H IH|na nb m s sb Hn H IH|na nb m s sb Hn H IH]; intros sa0 Es; subst; simplify_eq.
  - apply conv_send_b. by apply IH.
  - done.
  - apply conv_await_b; [|by apply IH]. left. by destruct Hn as [Hn|[_ ?]].
Qed.

(** Nothing holds up a peer that has seen the other's end. *)
Lemma converses_over ea na nb sb : converses ea true na nb [] sb.
Proof.
  revert na. induction sb as [|[c|n] sb IH]; intros na; [constructor|by constructor|].
  constructor; [by right|done].
Qed.

(** *** One operation *)

Lemma met_got c h n : h = heard c → arrived n h.1 = true → arrived n (got c) = true.
Proof.
  intros -> H. destruct n as [n|]; [|done]. unfold heard, got in *. simpl in *.
  apply bool_decide_eq_true in H. apply bool_decide_eq_true. lia.
Qed.

(** One operation keeps the invariant of its direction, reports once at most,
    leaves it less to do or changes nothing, and panics in one case only. *)
Lemma copy_step_ok k w h stream c c' s :
  copy_step k w h c = (c', s) → copier_ok stream c →
  copier_ok stream c' ∧ cp_dst_tcp c' = cp_dst_tcp c ∧
  reported c' = (reported c + length (option_list s))%nat ∧
  (c' = c ∧ s = None ∨ copier_left c' < copier_left c)%nat ∧
  (cp_pc c' = C_panicked → cp_pc c = C_panicked ∨ k = Tunnel ∧ cp_dst_tcp c = false).
Proof.
  intros E [Hs Hc]. destruct c as [pc src e tcp wr cl].
  unfold copy_step, copier_ok, reported, copier_left in *. simpl in *.
  destruct pc as [|ch|err|err| |]; [destruct src as [|[ch|n] rest]|destruct w as [[n err]|]| | | |];
    simplify_eq/=.
  - split_and!; try done; [exists []; by rewrite app_nil_r|right; lia].
  - split_and!; try done. right. lia.
  - destruct (arrived n h.1 || h.2); simplify_eq/=; split_and!; try done; [right; lia|by left].
  - split_and!; try done; [|right; lia]. exists (drop n ch ++ sent src).
    rewrite <- app_assoc, (app_assoc (take n ch)), take_drop. done.
  - split_and!; try done; [by rewrite <- app_assoc|right; lia].
  - destruct tcp; simplify_eq/=; [split_and!; try done; right; lia|].
    destruct k; simplify_eq/=; split_and!; try done; try (right; lia). by right.
  - split_and!; try done. right. lia.
  - split_and!; try done. by left.
  - split_and!; try done; by left.
Qed.

Lemma copy_step_clean k h stream c c' s :
  copy_step k None h c = (c', s) → copier_ok stream c → copier_clean stream c → copier_clean stream c'.
Proof.
  intros E [Hs _] Hcl. destruct c as [pc src e tcp wr cl].
  unfold copy_step, copier_ok, copier_clean in *. simpl in *.
  destruct pc as [|ch|err|err| |]; [destruct src as [|[ch|n] rest]| | | | |]; simplify_eq/=; try done.
  - by rewrite app_nil_r.
  - by destruct (arrived n h.1 || h.2); simplify_eq/=.
  - by destruct tcp, k; simplify_eq/=.
Qed.

(** What an operation does to the conversation, seen from its source: nothing
    worse, unless a write fails on a connection that is not TCP. *)
Lemma copy_step_converses k w h c c' s ea na so :
  copy_step k w h c = (c', s) → w = None ∨ cp_dst_tcp c = true →
  converses ea (cp_dst_tcp c) na (got c) (to_read c) so →
  converses ea (cp_dst_tcp c') na (got c') (to_read c') so.
Proof.
  intros E Hw H. destruct c as [pc src e tcp wr cl]. unfold copy_step, got, to_read in *. simpl in *.
  destruct pc as [|ch|err|err| |]; [destruct src as [|[ch|n] rest]|destruct w as [[n err]|]| | | |];
    simplify_eq/=; rewrite ?Nat.add_0_r in *; try done.
  - by apply converses_send.
  - destruct (arrived n h.1 || h.2); simplify_eq/=; [|by rewrite Nat.add_0_r].
    rewrite Nat.add_0_r. by eapply converses_await.
  - destruct Hw as [?| ->]; [done|]. apply converses_over.
  - by rewrite length_app.
  - destruct tcp; simplify_eq/=; [by rewrite Nat.add_0_r|].
    destruct k; simplify_eq/=; by rewrite Nat.add_0_r.
Qed.

(** And nothing better: [o] is the other direction, from which the source
    hears. *)
Lemma copy_step_converses_back k c c' s o stream :
  copy_step k None (heard o) c = (c', s) → copier_ok stream o →
  converses (cp_dst_tcp o) (cp_dst_tcp c') (got o) (got c') (to_read c') (to_read o) →
  converses (cp_dst_tcp o) (cp_dst_tcp c) (got o) (got c) (to_read c) (to_read o).
Proof.
  intros E [_ Ho] H. destruct c as [pc src e tcp wr cl]. unfold copy_step in *. simpl in *.
  destruct pc as [|ch|err|err| |]; [destruct src as [|[ch|n] rest]| | | | |];
    simplify_eq/=; unfold got at 2, to_read at 1 in H; unfold got at 2, to_read at 1;
    simpl in *; rewrite ?Nat.add_0_r, ?length_app in *; try done.
  - by constructor.
  - destruct (arrived n (length (cp_written o)) || cp_closed o) eqn:Em; simplify_eq/=; rewrite ?Nat.add_0_r in *; [|done].
    constructor; [|done]. apply orb_true_iff in Em as [Em|Em]; [left; by eapply met_got|right].
    rewrite Em in Ho. unfold to_read. by destruct (cp_pc o).
  - destruct tcp; simplify_eq/=; [by rewrite Nat.add_0_r in *|].
    destruct k; simplify_eq/=; by rewrite Nat.add_0_r in *.
Qed.

(** A direction that does not move has ended, or its source waits. *)
Lemma copy_step_stuck k w h c :
  copy_step k w h c = (c, None) →
  cp_pc c = C_done ∨ cp_pc c = C_panicked ∨
  cp_pc c = C_read ∧ ∃ n rest, cp_src c = Await n :: rest ∧ arrived n h.1 = false ∧ h.2 = false.
Proof.
  destruct c as [pc src e tcp wr cl]. unfold copy_step. simpl.
  destruct pc as [|ch|err|err| |]; [destruct src as [|[ch|n] rest]|destruct w as [[n err]|]| | | |];
    intros E; simplify_eq/=; auto.
  - destruct (arrived n h.1 || h.2) eqn:Em; simplify_eq/=.
    + exfalso. match goal with H : _ = _ :: _ |- _ => apply (f_equal length) in H; simpl in H; lia end.
    + apply orb_false_iff in Em. right. right. split; [done|]. by eexists _, _.
  - destruct tcp, k; simplify_eq/=.
Qed.

(** *** Both directions *)

Lemma reported_le c : (reported c ≤ 1)%nat.
Proof. unfold reported. destruct (cp_pc c); lia. Qed.

Lemma not_blocked k ta tb sa sb j :
  join_ok k ta tb sa sb j → ¬ send_blocked (j_ab j) (j_errc j) ∧ ¬ send_blocked (j_ba j) (j_errc j).
Proof.
  intros [_ _ Hr _ _]. pose proof (reported_le (j_ab j)). pose proof (reported_le (j_ba j)).
  unfold send_blocked, reported in *.
  split; intros Hb; destruct (cp_pc (j_ab j)), (cp_pc (j_ba j)); simpl in *; done || lia.
Qed.

(** The same state with the names of the connections exchanged. *)
Definition swap_join (j : joined) : joined := mkJoined (j_ba j) (j_ab j) (j_errc j) (j_received j).
Definition swap_turn (t : turn) : turn :=
  match t with TurnAB w => TurnBA w | TurnBA w => TurnAB w | TurnMain => TurnMain end.

Lemma swap_swap j : swap_join (swap_join j) = j.
Proof. by destruct j. Qed.

Lemma crashed_swap j : crashed (swap_join j) ↔ crashed j.
Proof. unfold crashed. simpl. tauto. Qed.

Lemma join_step_swap k t j : join_step k (swap_turn t) (swap_join j) = swap_join (join_step k t j).
Proof.
  destruct j as [ab ba ch rc]. unfold join_step.
  destruct (decide (crashed (mkJoined ab ba ch rc))) as [Hc|Hc].
  - by rewrite decide_True by (by apply crashed_swap).
  - rewrite decide_False by (by rewrite crashed_swap). destruct t as [w|w|]; simpl.
    + case_decide; [done|]. by destruct (copy_step k w _ ab).
    + case_decide; [done|]. by destruct (copy_step k w _ ba).
    + case_decide; [done|]. by destruct ch.
Qed.

Lemma join_ok_swap k ta tb sa sb j : join_ok k ta tb sa sb j → join_ok k tb ta sb sa (swap_join j).
Proof.
  intros [H1 H2 H3 [H4 H5] H6]. constructor; simpl; try done; [by rewrite H3, Nat.add_comm|].
  intros Hc%crashed_swap%H6. tauto.
Qed.

Lemma join_left_swap j : join_left (swap_join j) = join_left j.
Proof. unfold join_left. simpl. lia. Qed.

Lemma join_step_ok k ta tb sa sb t j :
  join_ok k ta tb sa sb j →
  join_ok k ta tb sa sb (join_step k t j) ∧
  (join_step k t j = j ∨ join_left (join_step k t j) < join_left j)%nat.
Proof.
  assert (∀ ta tb sa sb w j, join_ok k ta tb sa sb j →
    join_ok k ta tb sa sb (join_step k (TurnAB w) j) ∧
    (join_step k (TurnAB w) j = j ∨ join_left (join_step k (TurnAB w) j) < join_left j)%nat) as HAB.
  { clear. intros ta tb sa sb w j H. pose proof H as [Hab Hba Hr [Ht1 Ht2] Hx]. destruct (not_blocked _ _ _ _ _ _ H) as [Hb1 _].
    unfold join_step, join_left. case_decide as Hcr; [by auto|]. rewrite decide_False by done.
    destruct (copy_step k w (heard (j_ba j)) (j_ab j)) as [c s] eqn:E.
    destruct (copy_step_ok _ _ _ sb _ _ _ E Hab) as (H1 & H2 & H3 & H4 & H5). split.
    - constructor; simpl; rewrite ?H2; try done; [rewrite length_app; lia|].
      intros [Hp|Hp]; simpl in Hp; [|by apply Hx; right].
      destruct (H5 Hp) as [?|[-> Hf]]; [by apply Hx; left|]. split; [done|]. left. congruence.
    - destruct H4 as [[-> ->]|H4]; [left|right; simpl; lia].
      destruct j; simpl. by rewrite app_nil_r. }
  intros H. destruct t as [w|w|]; [by apply HAB| |].
  - change (TurnBA w) with (swap_turn (TurnAB w)). rewrite <- (swap_swap j), join_step_swap, join_left_swap, join_left_swap.
    destruct (HAB tb ta sb sa w (swap_join j)) as [H1 H2]; [by apply join_ok_swap|]. split; [by apply join_ok_swap|].
    destruct H2 as [H2|H2]; [left; by rewrite H2|by right].
  - pose proof H as [Hab Hba Hr Ht Hx]. unfold join_step, join_left. case_decide; [by auto|].
    case_decide as Hl; [by auto|]. destruct (j_errc j) as [|e rest] eqn:Ee; [by auto|].
    split; [|right; simpl; rewrite length_app; simpl; lia].
    constructor; simpl; try done. rewrite length_app. simpl in *. lia.
Qed.

Lemma join_run_ok k ta tb sa sb sched j :
  join_ok k ta tb sa sb j →
  join_ok k ta tb sa sb (join_run k sched j) ∧
  (join_run k sched j = j ∨ join_left (join_run k sched j) < join_left j)%nat.
Proof.
  unfold join_run. revert j. induction sched as [|t sched IH]; intros j H; cbn [fold_left]; [by auto|].
  destruct (join_step_ok k ta tb sa sb t j H) as [H1 Hs]. destruct (IH _ H1) as [H2 Hr].
  split; [done|]. destruct Hs as [Es|Hs], Hr as [Er|Hr]; rewrite ?Er.
  - left. exact Es.
  - right. by rewrite Es in *.
  - by right.
  - right. lia.
Qed.

Lemma start_join_ok k a_tcp b_tcp peer_a peer_b end_a end_b :
  join_ok k a_tcp b_tcp (sent peer_a) (sent peer_b) (start_join a_tcp b_tcp peer_a peer_b end_a end_b).
Proof. constructor; try done. by intros [?|?]. Qed.

Lemma received_bound k ta tb sa sb j : join_ok k ta tb sa sb j → (length (j_received j) ≤ 2)%nat.
Proof. intros [_ _ Hr _ _]. pose proof (reported_le (j_ab j)). pose proof (reported_le (j_ba j)). lia. Qed.

(** When the caller has returned, both goroutines have ended. *)
Lemma returned_done k ta tb sa sb j :
  join_ok k ta tb sa sb j → returned j → cp_pc (j_ab j) = C_done ∧ cp_pc (j_ba j) = C_done.
Proof.
  intros [_ _ Hr _ _] Hret. unfold returned, reported in *.
  destruct (cp_pc (j_ab j)), (cp_pc (j_ba j)); simpl in *; done || lia.
Qed.

(** A crash is the assertion's: one of the connections is not TCP. *)
Lemma join_step_crash t j :
  ¬ crashed j → crashed (join_step Tunnel t j) → cp_dst_tcp (j_ab j) = false ∨ cp_dst_tcp (j_ba j) = false.
Proof.
  assert (∀ k w h c c' s, copy_step k w h c = (c', s) → cp_pc c' = C_panicked →
    cp_pc c = C_panicked ∨ cp_dst_tcp c = false) as Hc.
  { clear. intros k w h [pc src e tcp wr cl] c' s E Hp. unfold copy_step in E. simpl in *.
    destruct pc as [|ch|err|err| |]; [destruct src as [|[ch|n] rest]|destruct w as [[n err]|]| | | |]; simplify_eq/=; auto.
    - by destruct (arrived n h.1 || h.2); simplify_eq/=.
    - destruct tcp, k; simplify_eq/=; auto. }
  intros Hn. unfold join_step. rewrite decide_False by done. intros Hcr. destruct t as [w|w|].
  - case_decide; [done|]. destruct (copy_step Tunnel w _ (j_ab j)) as [c s] eqn:E.
    destruct Hcr as [Hp|Hp]; simpl in Hp; [|by destruct Hn; right].
    destruct (Hc _ _ _ _ _ _ E Hp); [by destruct Hn; left|by left].
  - case_decide; [done|]. destruct (copy_step Tunnel w _ (j_ba j)) as [c s] eqn:E.
    destruct Hcr as [Hp|Hp]; simpl in Hp; [by destruct Hn; left|].
    destruct (Hc _ _ _ _ _ _ E Hp); [by destruct Hn; right|by right].
  - case_decide; [done|]. by destruct (j_errc j).
Qed.

(** *** Schedules that stand still *)

Lemma join_run_stuck k ta tb sa sb sched j t :
  join_ok k ta tb sa sb j → join_run k sched j = j → t ∈ sched → join_step k t j = j.
Proof.
  intros H Hr Hin. apply list_elem_of_split in Hin as (s1 & s2 & ->).
  unfold join_run in Hr. rewrite fold_left_app in Hr. cbn [fold_left] in Hr.
  fold (join_run k s1 j) in Hr. destruct (join_run_ok k ta tb sa sb s1 j H) as [H1 M1].
  destruct (join_step_ok k ta tb sa sb t _ H1) as [H2 M2].
  destruct (join_run_ok k ta tb sa sb s2 _ H2) as [_ M3].
  change (join_run k s2 (join_step k t (join_run k s1 j)) = j) in Hr. rewrite Hr in M3.
  set (j1 := join_run k s1 j) in *. set (j2 := join_step k t j1) in *.
  assert (j1 = j ∨ join_left j1 < join_left j)%nat as N1 by done.
  assert (join_left j ≤ join_left j2)%nat as N3 by (destruct M3 as [<-|]; lia).
  destruct N1 as [N1|N1], M2 as [M2|M2].
  - subst j2. by rewrite N1 in M2.
  - rewrite N1 in M2. lia.
  - rewrite M2 in N3. lia.
  - lia.
Qed.

(** A source whose peer waits although its next wait is over, or has nothing
    more to do, is not stuck. *)
Lemma stuck_waits k w o c stream :
  copy_step k w (heard o) c = (c, None) → cp_pc c ≠ C_panicked → copier_ok stream c →
  (cp_pc c = C_done ∧ cp_closed c = cp_dst_tcp c ∧ to_read c = [] ∨
   cp_pc c = C_read ∧ ∃ n rest, to_read c = Await n :: rest ∧
     arrived n (length (cp_written o)) = false ∧ cp_closed o = false) ∧
  got c = length (cp_written c).
Proof.
  intros E Hp [_ Hc]. destruct (copy_step_stuck _ _ _ _ E) as [Hd|[?|[Hd (n & rest & Hs & H1 & H2)]]]; [|done|];
    unfold to_read, got; rewrite Hd in *; (split; [|lia]).
  - by left.
  - right. split; [done|]. by exists n, rest.
Qed.

(** No deadlock: until the caller returns, one of the three goroutines can
    move, provided that the peers would finish. *)
Lemma join_progress k ta tb sa sb j w1 w2 :
  join_ok k ta tb sa sb j → ¬ crashed j → converses_on j →
  join_step k (TurnAB w1) j = j → join_step k (TurnBA w2) j = j →
  join_step k TurnMain j = j → (2 ≤ length (j_received j))%nat.
Proof.
  intros H Hcr Hcv E1 E2 E3. pose proof H as [Hab Hba Hr _ _].
  destruct (not_blocked _ _ _ _ _ _ H) as [Hb1 Hb2]. unfold join_step in *.
  rewrite !decide_False in E1 by done. rewrite !decide_False in E2 by done. rewrite (decide_False (P := crashed j)) in E3 by done.
  assert (cp_pc (j_ab j) ≠ C_panicked) as Hc1 by (intros ?; apply Hcr; by left).
  assert (cp_pc (j_ba j) ≠ C_panicked) as Hc2 by (intros ?; apply Hcr; by right).
  destruct (copy_step k w1 (heard (j_ba j)) (j_ab j)) as [c1 s1] eqn:C1.
  destruct (copy_step k w2 (heard (j_ab j)) (j_ba j)) as [c2 s2] eqn:C2.
  destruct j as [ab ba ch rc]. injection E1 as -> Es1. injection E2 as -> Es2. simpl in *.
  destruct (copy_step_ok _ _ _ sb _ _ _ C1 Hab) as (_ & _ & R1 & _ & _).
  destruct (copy_step_ok _ _ _ sa _ _ _ C2 Hba) as (_ & _ & R2 & _ & _).
  assert (s1 = None) as -> by (destruct s1; simpl in R1; [lia|done]).
  assert (s2 = None) as -> by (destruct s2; simpl in R2; [lia|done]).
  destruct (stuck_waits _ _ _ _ _ C1 Hc1 Hab) as [S1 G1]. destruct (stuck_waits _ _ _ _ _ C2 Hc2 Hba) as [S2 G2].
  assert (cp_pc ab = C_done ∧ cp_pc ba = C_done) as [D1 D2].
  { unfold converses_on in Hcv. simpl in Hcv. rewrite G1, G2 in Hcv.
    destruct S1 as [(D1 & L1 & T1)|(D1 & n1 & rest1 & T1 & A1 & B1)], S2 as [(D2 & L2 & T2)|(D2 & n2 & rest2 & T2 & A2 & B2)];
      [done|exfalso..]; rewrite T1, T2 in Hcv; inversion Hcv; subst;
      match goal with H : _ ∨ _ |- _ => destruct H as [?|[??]]; congruence end. }
  unfold reported in Hr. rewrite D1, D2 in Hr. case_decide; [done|]. destruct ch as [|e rest]; [simpl in *; lia|].
  apply (f_equal (λ j, length (j_received j))) in E3. simpl in E3. rewrite length_app in E3. simpl in E3. lia.
Qed.

(** *** Schedules without failing writes *)

Definition writes_ok (sched : list turn) : Prop :=
  Forall (λ t, match t with TurnAB w | TurnBA w => w = None | TurnMain => True end) sched.

(** A write may fail on a TCP connection only, whose peer then sees the end. *)
Definition writes_end (a_tcp b_tcp : bool) (t : turn) : Prop :=
  a_tcp = true ∧ b_tcp = true ∨ match t with TurnAB w | TurnBA w => w = None | TurnMain => True end.

Lemma join_step_converses k ta tb sa sb t j :
  join_ok k ta tb sa sb j → writes_end ta tb t → converses_on j → converses_on (join_step k t j).
Proof.
  intros [_ _ _ [Ht1 Ht2] _] Hw H. unfold converses_on in *. unfold join_step. case_decide; [done|].
  destruct t as [w|w|].
  - case_decide; [done|]. destruct (copy_step k w (heard (j_ba j)) (j_ab j)) as [c s] eqn:E. simpl.
    apply converses_swap. eapply copy_step_converses; [exact E| |by apply converses_swap].
    rewrite Ht1. destruct Hw as [[? _]|?]; auto.
  - case_decide; [done|]. destruct (copy_step k w (heard (j_ab j)) (j_ba j)) as [c s] eqn:E. simpl.
    eapply copy_step_converses; [exact E| |done]. rewrite Ht2. destruct Hw as [[_ ?]|?]; auto.
  - case_decide; [done|]. by destruct (j_errc j).
Qed.

Lemma join_step_converses_back k ta tb sa sb t j :
  join_ok k ta tb sa sb j → match t with TurnAB w | TurnBA w => w = None | TurnMain => True end →
  converses_on (join_step k t j) → converses_on j.
Proof.
  intros [Hab Hba _ _ _] Hw. unfold converses_on, join_step. case_decide; [done|]. destruct t as [w|w|]; subst.
  - case_decide; [done|]. destruct (copy_step k None (heard (j_ba j)) (j_ab j)) as [c s] eqn:E. simpl.
    intros Hcv%converses_swap. apply converses_swap. eapply copy_step_converses_back; [exact E|exact Hba|].
    done.
  - case_decide; [done|]. destruct (copy_step k None (heard (j_ab j)) (j_ba j)) as [c s] eqn:E. simpl.
    intros Hcv. eapply copy_step_converses_back; [exact E|exact Hab|done].
  - case_decide; [done|]. by destruct (j_errc j).
Qed.

Lemma join_run_converses k ta tb sa sb sched j :
  join_ok k ta tb sa sb j → Forall (writes_end ta tb) sched → converses_on j → converses_on (join_run k sched j).
Proof.
  intros H Hw. revert j H. unfold join_run. induction Hw as [|t sched Ht _ IH]; intros j H Hc; cbn [fold_left]; [done|].
  apply IH; [by apply join_step_ok|by eapply join_step_converses].
Qed.

Lemma join_run_converses_back k ta tb sa sb sched j :
  join_ok k ta tb sa sb j → writes_ok sched → converses_on (join_run k sched j) → converses_on j.
Proof.
  intros H Hw. revert j H. unfold join_run. induction Hw as [|t sched Ht _ IH]; intros j H Hc; cbn [fold_left] in *; [done|].
  eapply join_step_converses_back; [done|done|]. apply IH; [by apply join_step_ok|done].
Qed.

Lemma join_run_clean k ta tb sa sb sched j :
  join_ok k ta tb sa sb j → writes_ok sched →
  copier_clean sb (j_ab j) → copier_clean sa (j_ba j) →
  copier_clean sb (j_ab (join_run k sched j)) ∧ copier_clean sa (j_ba (join_run k sched j)).
Proof.
  intros H Hw. revert j H. unfold join_run. induction Hw as [|t sched Ht _ IH]; intros j H C1 C2; cbn [fold_left]; [done|].
  destruct (join_step_ok k ta tb sa sb t j H) as [H' _]. apply IH; [done| |]; unfold join_step; (case_decide; [done|]);
    destruct t as [w|w|]; subst; simpl; try done.
  - case_decide; [done|]. destruct (copy_step k None _ (j_ab j)) as [c s] eqn:E.
    eapply copy_step_clean; [exact E|apply H|done].
  - case_decide; [done|]. by destruct (copy_step k None _ (j_ba j)).
  - case_decide; [done|]. by destruct (j_errc j).
  - case_decide; [done|]. by destruct (copy_step k None _ (j_ab j)).
  - case_decide; [done|]. destruct (copy_step k None _ (j_ba j)) as [c s] eqn:E.
    eapply copy_step_clean; [exact E|apply H|done].
  - case_decide; [done|]. by destruct (j_errc j).
Qed.

(** *** Rounds *)

(** A round gives each of the three goroutines a turn, in any order and with any
    others. *)
Definition is_round (r : list turn) : Prop :=
  (∃ w, TurnAB w ∈ r) ∧ (∃ w, TurnBA w ∈ r) ∧ TurnMain ∈ r.

Lemma round_progress k ta tb sa sb r j :
  join_ok k ta tb sa sb j → ¬ crashed j → converses_on j → is_round r → ¬ (2 ≤ length (j_received j))%nat →
  (join_left (join_run k r j) < join_left j)%nat.
Proof.
  intros H Hcr Hcv ([w1 R1] & [w2 R2] & R3) Hn.
  destruct (join_run_ok k ta tb sa sb r j H) as [_ [E|?]]; [|done]. exfalso. apply Hn.
  eapply (join_progress k ta tb sa sb j w1 w2 H Hcr Hcv); by eapply join_run_stuck.
Qed.

Lemma received_mono k sched j :
  (2 ≤ length (j_received j))%nat → (2 ≤ length (j_received (join_run k sched j)))%nat.
Proof.
  unfold join_run. revert j. induction sched as [|t sched IH]; intros j H; cbn [fold_left]; [done|].
  apply IH. unfold join_step. case_decide; [done|]. destruct t; simpl.
  - case_decide; [done|]. by destruct (copy_step _ _ _ _).
  - case_decide; [done|]. by destruct (copy_step _ _ _ _).
  - by rewrite decide_True.
Qed.

Lemma rounds_return k ta tb sa sb rounds j :
  k = Pipe ∨ ta = true ∧ tb = true →
  join_ok k ta tb sa sb j → Forall is_round rounds → Forall (writes_end ta tb) (concat rounds) → converses_on j →
  (join_left j ≤ length rounds)%nat →
  (2 ≤ length (j_received (join_run k (concat rounds) j)))%nat.
Proof.
  intros Hk H Hr. revert j H. induction Hr as [|r rounds Hr _ IH]; intros j H Hw Hcv Hle.
  - unfold join_left in Hle. simpl in *. lia.
  - simpl in Hw |- *. apply Forall_app in Hw as [Hw1 Hw2]. unfold join_run. rewrite fold_left_app. fold (join_run k r j).
    fold (join_run k (concat rounds) (join_run k r j)).
    destruct (decide (2 ≤ length (j_received j))%nat) as [Hd|Hd]; [by apply received_mono, received_mono|].
    apply IH; [by apply join_run_ok|done|by eapply join_run_converses|].
    assert (¬ crashed j) as Hcr by (intros Hx; apply H in Hx as [-> [? | ?]]; destruct Hk as [?|[??]]; congruence).
    pose proof (round_progress k ta tb sa sb r j H Hcr Hcv Hr Hd). simpl in Hle. lia.
Qed.

(** ** Properties *)

(** C30. A tunnel delivers: under every interleaving of the two copying
    goroutines and their caller, and whatever the peers wait for, what is
    written to each side is at every moment a prefix of what the other side
    sends, and a side whose write side is closed was sent everything when no
    write failed.  A copying goroutine panics only in [tunnel], and only when one
    of the two connections is not a TCP connection.  If the caller has returned,
    the write side of every TCP connection has been closed, and when no write
    failed both sides got everything in order. *)
Theorem tunnel_delivers k a_tcp b_tcp peer_a peer_b end_a end_b sched :
  let j := join_run k sched (start_join a_tcp b_tcp peer_a peer_b end_a end_b) in
  cp_written (j_ab j) `prefix_of` sent peer_b ∧ cp_written (j_ba j) `prefix_of` sent peer_a ∧
  (crashed j → k = Tunnel ∧ (a_tcp = false ∨ b_tcp = false)) ∧
  (writes_ok sched →
    (cp_closed (j_ab j) = true → cp_written (j_ab j) = sent peer_b) ∧
    (cp_closed (j_ba j) = true → cp_written (j_ba j) = sent peer_a)) ∧
  (returned j →
    cp_closed (j_ab j) = a_tcp ∧ cp_closed (j_ba j) = b_tcp ∧
    (writes_ok sched → cp_written (j_ab j) = sent peer_b ∧ cp_written (j_ba j) = sent peer_a)).
Proof.
  intros j. pose proof (start_join_ok k a_tcp b_tcp peer_a peer_b end_a end_b) as H0.
  destruct (join_run_ok k _ _ _ _ sched _ H0) as [H _]. fold j in H.
  pose proof H as [[Hab Hca] [Hba Hcb] Hr [Ht1 Ht2] Hx].
  assert (∀ s c, copier_ok s c → cp_written c `prefix_of` s) as Hpre.
  { intros s c [Hs _]. destruct (cp_pc c); try (eexists; symmetry; exact Hs);
      destruct Hs as [rest Hs]; by exists rest. }
  assert (∀ s c, copier_ok s c → copier_clean s c → cp_closed c = true → cp_written c = s) as Hcl.
  { intros s c [_ Hc] Hcl Hc'. unfold copier_clean in Hcl. by destruct (cp_pc c); try congruence. }
  split_and!; [by apply Hpre, H|by apply Hpre, H|exact Hx|..].
  - intros Hw. destruct (join_run_clean k _ _ _ _ sched _ H0 Hw) as [C1 C2]; [done|done|]. fold j in C1, C2.
    split; apply Hcl; try done; apply H.
  - intros Hret. destruct (returned_done _ _ _ _ _ _ H Hret) as [D1 D2]. rewrite D1 in Hca. rewrite D2 in Hcb.
    split_and!; [congruence|congruence|]. intros Hw.
    destruct (join_run_clean k _ _ _ _ sched _ H0 Hw) as [C1 C2]; [done|done|]. fold j in C1, C2.
    unfold copier_clean in C1, C2. by rewrite D1 in C1; rewrite D2 in C2.
Qed.

(** C31. A tunnel ends exactly when the peers would: let the connections be such
    that [tunnel] does not panic (both TCP, or [pipe] is used).  If the two
    scripts finish when the peers are connected directly, where a peer sees the
    end of the other's stream only if its connection is TCP and can be half
    closed, then every schedule that gives each of the three goroutines enough
    turns, in any order, makes the call return, if the peers take what they are
    sent, so that no write waits: two rounds per operation of
    the scripts and eight more (writes may fail when both connections are TCP).
    And if the call returns in some schedule without failing writes, the scripts
    do finish directly: an idle peer, or two that wait for each other, hold the
    tunnel for ever. *)
Theorem tunnel_terminates k a_tcp b_tcp peer_a peer_b end_a end_b :
  k = Pipe ∨ a_tcp = true ∧ b_tcp = true →
  (converses a_tcp b_tcp 0 0 peer_a peer_b →
   ∀ rounds, Forall is_round rounds →
     writes_ok (concat rounds) ∨ a_tcp = true ∧ b_tcp = true →
     (2 * (length peer_a + length peer_b) + 8 ≤ length rounds)%nat →
     returned (join_run k (concat rounds) (start_join a_tcp b_tcp peer_a peer_b end_a end_b))) ∧
  (∀ sched, writes_ok sched →
     returned (join_run k sched (start_join a_tcp b_tcp peer_a peer_b end_a end_b)) →
     converses a_tcp b_tcp 0 0 peer_a peer_b).
Proof.
  intros Hk. pose proof (start_join_ok k a_tcp b_tcp peer_a peer_b end_a end_b) as H0. split.
  - intros Hc rounds Hr Hw Hle.
    assert (Forall (writes_end a_tcp b_tcp) (concat rounds)) as Hw'.
    { destruct Hw as [Hw|Hw]; [|apply Forall_forall; intros t _; by left].
      eapply Forall_impl; [exact Hw|]. intros t Ht. by right. }
    pose proof (rounds_return k _ _ _ _ rounds _ Hk H0 Hr Hw' Hc) as H.
    destruct (join_run_ok k _ _ _ _ (concat rounds) _ H0) as [H1 _]. apply received_bound in H1.
    unfold returned. unfold join_left, copier_left in H. simpl in H. lia.
  - intros sched Hw Hret. destruct (join_run_ok k _ _ _ _ sched _ H0) as [H _].
    apply (join_run_converses_back k _ _ _ _ sched _ H0 Hw). unfold converses_on, to_read.
    destruct (returned_done _ _ _ _ _ _ H Hret) as [-> ->]. constructor.
Qed.

(** ** Witnesses *)

Definition ex_round (w : option (nat * string)) : list turn := [TurnBA None; TurnMain; TurnAB w].

(** A client that asks, waits for the first byte, asks again and then reads to
    the end; a server that waits for two bytes, answers and ends. *)
Definition ex_asks : list peer_op := [Send [1; 2]%Z; Await (Some 1%nat); Send [3]%Z; Await None].
Definition ex_answers : list peer_op := [Await (Some 2%nat); Send [7; 8]%Z].

Lemma tunnel_delivers_witness :
  let j := join_run Tunnel (concat (replicate 20 (ex_round None)))
             (start_join true true ex_asks ex_answers None (Some "reset")) in
  returned j ∧ cp_written (j_ba j) = [1; 2; 3]%Z ∧ cp_written (j_ab j) = [7; 8]%Z.
Proof.
  intros j. assert (returned j) as Hr by (vm_compute; reflexivity). split; [exact Hr|].
  destruct (tunnel_delivers Tunnel true true ex_asks ex_answers None (Some "reset")
    (concat (replicate 20 (ex_round None)))) as (_ & _ & _ & _ & H).
  destruct (H Hr) as (_ & _ & H'). destruct H' as [H1 H2]; [repeat constructor|]. split; [exact H2|exact H1].
Defined.

Lemma tunnel_terminates_witness :
  returned (join_run Tunnel (concat (replicate 20 (ex_round (Some (1%nat, "broken pipe")))))
    (start_join true true ex_asks ex_answers None None)) ∧
  ∀ sched, writes_ok sched → ¬ returned (join_run Pipe sched (start_join false true ex_asks ex_answers None None)).
Proof.
  split.
  - apply (tunnel_terminates Tunnel true true ex_asks ex_answers None None).
    + right. split; reflexivity.
    + unfold ex_asks, ex_answers. apply conv_send_a, conv_await_b; [left; reflexivity|].
      apply conv_send_b, conv_await_a; [left; reflexivity|]. apply conv_send_a, conv_await_a; [right; split; reflexivity|].
      apply conv_end.
    + apply Forall_replicate. split; [|split].
      * eexists. right. right. left.
      * eexists. left.
      * right. left.
    + right. split; reflexivity.
    + vm_compute. lia.
  - intros sched Hw Hr.
    destruct (tunnel_terminates Pipe false true ex_asks ex_answers None None) as [_ H]; [left; reflexivity|].
    specialize (H sched Hw Hr). clear Hr. unfold ex_asks, ex_answers in H.
    repeat match goal with
    | H : converses _ _ _ _ _ _ |- _ => inversion H; clear H; subst
    | H : _ ∨ _ |- _ => destruct H as [H|[H ?]]; try discriminate
    end.
Defined.
