(* ===== verification/TcpServer.v ===== *)
(** The accept loop of the TCP proxy (internal/proxy/tcp.go): one goroutine per
    connection, counted by a wait group, and a shutdown that waits for them. *)

From S2P Require Export GoInt.

#[local] Open Scope Z_scope.

(** ** State *)

(** Where [Serve] is. *)
Inductive serve_pc :=
| S_accept                            (* listener.Accept() *)
| S_wait                              (* wg.Wait() *)
| S_returned (err : option string).

#[export] Instance serve_pc_eq_dec : EqDecision serve_pc.
Proof. solve_decision. Defined.

(** Whether the context is done and the listener closed, the wait group's
    counter, and the connections whose goroutine has not ended. *)
Record tcp_server := mkTcpServer {
  ts_pc : serve_pc;
  ts_done : bool;
  ts_closed : bool;
  ts_wg : Z;
  ts_running : gset nat;
}.

(** [NewTCPProxy]: the dial timeout in force, or the error of [net.Listen]. *)
Definition NewTCPProxy (listen : string → option string) (addr : string) (dialTimeout : Duration)
    : Duration + string :=
  match listen addr with
  | Some err => inr ("tcp listen " +:+ addr +:+ ": " +:+ err)
  | None => inl (if decide (dialTimeout = 0) then 10 * Second else dialTimeout)
  end.

Definition start_serve : tcp_server := mkTcpServer S_accept false false 0 ∅.

(** ** Steps *)

Inductive serve_action :=
| Cancel                       (* the context ends *)
| CloseListener                (* the goroutine that waits for the context closes the listener *)
| Accepted (id : nat)          (* Accept returns a connection: wg.Add(1), go handleConn *)
| AcceptFails (err : string)   (* Accept returns an error: the select on ctx.Done() *)
| HandlerEnds (id : nat)       (* handleConn returns: the deferred wg.Done() *)
| WaitEnds.                    (* wg.Wait() returns *)

Definition serve_step (a : serve_action) (s : tcp_server) : tcp_server :=
  match a with
  | Cancel => mkTcpServer (ts_pc s) true (ts_closed s) (ts_wg s) (ts_running s)
  | CloseListener =>
      if ts_done s then mkTcpServer (ts_pc s) (ts_done s) true (ts_wg s) (ts_running s) else s
  | Accepted id =>
      match ts_pc s with
      | S_accept =>
          if ts_closed s || bool_decide (id ∈ ts_running s) then s
          else mkTcpServer S_accept (ts_done s) (ts_closed s) (ts_wg s + 1) ({[ id ]} ∪ ts_running s)
      | _ => s
      end
  | AcceptFails err =>
      match ts_pc s with
      | S_accept =>
          mkTcpServer (if ts_done s then S_wait else S_returned (Some ("accept: " +:+ err)))
            (ts_done s) (ts_closed s) (ts_wg s) (ts_running s)
      | _ => s
      end
  | HandlerEnds id =>
      if decide (id ∈ ts_running s)
      then mkTcpServer (ts_pc s) (ts_done s) (ts_closed s) (ts_wg s - 1) (ts_running s ∖ {[ id ]})
      else s
  | WaitEnds =>
      match ts_pc s with
      | S_wait =>
          if decide (ts_wg s = 0)
          then mkTcpServer (S_returned None) (ts_done s) (ts_closed s) (ts_wg s) (ts_running s) else s
      | _ => s
      end
  end.

Definition serve_run_tcp (acts : list serve_action) (s : tcp_server) : tcp_server :=
  fold_left (λ s a, serve_step a s) acts s.

(** ** Invariant *)

Record serve_ok (s : tcp_server) : Prop := {
  sok_wg : ts_wg s = Z.of_nat (size (ts_running s));
  sok_closed : ts_closed s = true → ts_done s = true;
  sok_wait : ts_pc s = S_wait → ts_done s = true;
  sok_returned : ts_pc s = S_returned None → ts_done s = true ∧ ts_running s = ∅;
}.

Lemma start_serve_ok : serve_ok start_serve.
Proof. by constructor. Qed.

Lemma serve_step_ok a s : serve_ok s → serve_ok (serve_step a s).
Proof.
  intros Hok. pose proof Hok as [Hw Hc Hs Hr].
  destruct a as [| |id|err|id|]; unfold serve_step.
  - constructor; simpl; auto. intros H. by destruct (Hr H).
  - destruct (ts_done s) eqn:E; [|exact Hok]. constructor; simpl; auto.
  - destruct (ts_pc s) eqn:E; try exact Hok.
    destruct (ts_closed s) eqn:Ec; [exact Hok|]. case_bool_decide; [exact Hok|].
    constructor; simpl; try done. rewrite size_union by set_solver. rewrite size_singleton. lia.
  - destruct (ts_pc s) eqn:E; try exact Hok.
    destruct (ts_done s) eqn:Ed; constructor; simpl; auto; done.
  - case_decide as Hin; [|exact Hok]. constructor; simpl; auto.
    + assert (size ({[ id ]} : gset nat) ≤ size (ts_running s))%nat by (apply subseteq_size; set_solver).
      rewrite size_difference by set_solver. rewrite size_singleton in *. lia.
    + intros H. destruct (Hr H) as [? ->]. set_solver.
  - destruct (ts_pc s) eqn:E; try exact Hok. case_decide as Hz; [|exact Hok].
    constructor; simpl; auto.
    intros _. split; [auto|]. apply leibniz_equiv, size_empty_inv. lia.
Qed.

Lemma serve_run_ok acts s : serve_ok s → serve_ok (serve_run_tcp acts s).
Proof.
  unfold serve_run_tcp. revert s. induction acts as [|a acts IH]; intros s H; simpl; [done|].
  by apply IH, serve_step_ok.
Qed.

(** The handlers that are running end, in any order. *)
Definition ends (l : list nat) : list serve_action := HandlerEnds <$> l.

Lemma serve_ends l s :
  ts_pc s = S_wait → NoDup l → (∀ id, id ∈ l ↔ id ∈ ts_running s) →
  ts_pc (serve_run_tcp (ends l) s) = S_wait ∧ ts_running (serve_run_tcp (ends l) s) = ∅.
Proof.
  unfold serve_run_tcp. revert s. induction l as [|id l IH]; intros s Hp Hn Hl; cbn [ends fold_left fmap list_fmap].
  - split; [done|]. apply leibniz_equiv. intros id. rewrite <- Hl, elem_of_nil. set_solver.
  - apply NoDup_cons in Hn as [Hid Hn]. simpl.
    rewrite decide_True by (apply Hl; left). apply IH; simpl; [done|done|].
    intros id'. rewrite elem_of_difference, elem_of_singleton, <- Hl, elem_of_cons.
    split; [|naive_solver]. intros H. split; [by right|]. by intros ->.
Qed.

(** ** Properties *)

(** C32. Graceful shutdown of the TCP proxy: under every interleaving of
    connections, cancellation and handlers, the wait group counts exactly the
    running handlers and never goes below zero; [Serve] returns nil only after
    the context ended and every handler returned. And it does return then: once
    it waits, letting the running handlers end, in any order, is enough. *)
Theorem Serve_graceful acts :
  let s := serve_run_tcp acts start_serve in
  ts_wg s = Z.of_nat (size (ts_running s)) ∧
  (ts_pc s = S_returned None → ts_done s = true ∧ ts_running s = ∅) ∧
  (ts_pc s = S_wait → ∀ l, NoDup l → (∀ id, id ∈ l ↔ id ∈ ts_running s) →
    ts_pc (serve_run_tcp (ends l ++ [WaitEnds]) s) = S_returned None).
Proof.
  intros s. pose proof (serve_run_ok acts start_serve start_serve_ok) as H. fold s in H.
  split_and!; [apply H|apply H|]. intros Hp l Hn Hl.
  unfold serve_run_tcp. rewrite fold_left_app. fold (serve_run_tcp (ends l) s).
  destruct (serve_ends l s Hp Hn Hl) as [Hp' Hr']. cbn [fold_left]. unfold serve_step.
  rewrite Hp'. pose proof (serve_run_ok (ends l) s H) as [Hw _ _ _].
  rewrite decide_True by (by rewrite Hw, Hr', size_empty). done.
Qed.

(** ** Witness *)

(** A connection arrives, the context ends, and [Serve] waits for it. *)
Lemma Serve_graceful_witness :
  let s := serve_run_tcp [Accepted 7; Cancel; CloseListener; AcceptFails "closed"; WaitEnds] start_serve in
  ts_pc s = S_wait ∧ ts_running s = {[ 7%nat ]} ∧
  ts_pc (serve_run_tcp (ends [7%nat] ++ [WaitEnds]) s) = S_returned None.
Proof.
  intros s. split; [reflexivity|]. split; [reflexivity|].
  apply (Serve_graceful [Accepted 7; Cancel; CloseListener; AcceptFails "closed"; WaitEnds]).
  - reflexivity.
  - apply (bool_decide_eq_true_1 _). reflexivity.
  - intros id. change (id ∈ [7%nat] ↔ id ∈ ({[7%nat]} : gset nat)).
    rewrite elem_of_singleton, list_elem_of_singleton. reflexivity.
Defined.
