(* ===== verification/Middleware.v ===== *)
(** The HTTP middleware (internal/middleware, internal/proxy/middleware.go): what each does to the response of an
    arbitrary handler.

    A handler is a program over the [http.ResponseWriter] it is given, so that
    a middleware can hand it a wrapped writer. *)

From S2P Require Export RateLimit HttpProxy.

#[local] Open Scope Z_scope.

(** ** Response writers *)

(** [http.ResponseWriter]: the header map, by pointer, and the two methods.
    [WriteHeader] may panic; [Write] gives the number of bytes taken. *)
Class ResponseWriter (W : Type) := {
  w_Header : W → Header;
  w_update : (Header → Header) → W → W;
  w_WriteHeader : Z → M W ();
  w_Write : string → W → Z * W;
}.

(** The server's writer: the live header map, the informational responses sent
    so far, what was sent as the response (the status and a copy of the headers
    at that moment), and the body. *)
Record RW := mkRW {
  rw_header : Header;
  rw_info : list (Z * Header);
  rw_sent : option (Z * Header);
  rw_body : string;
}.

Definition RW_new : RW := mkRW ∅ [] None "".

(** [checkWriteHeaderCode] panics outside of this range. *)
Definition valid_code (code : Z) : Prop := 100 ≤ code ≤ 999.
(** Sent ahead of the response: every 1xx but 101. *)
Definition informational (code : Z) : Prop := 100 ≤ code ≤ 199 ∧ code ≠ 101.
(** [bodyAllowedForStatus] *)
Definition body_allowed (code : Z) : Prop := ¬ (100 ≤ code ≤ 199) ∧ code ≠ 204 ∧ code ≠ 304.

#[export] Instance valid_code_dec code : Decision (valid_code code).
Proof. unfold valid_code. apply _. Defined.
#[export] Instance informational_dec code : Decision (informational code).
Proof. unfold informational. apply _. Defined.
#[export] Instance body_allowed_dec code : Decision (body_allowed code).
Proof. unfold body_allowed. apply _. Defined.

Definition RW_send (code : Z) (w : RW) : RW :=
  match rw_sent w with
  | Some _ => w
  | None => mkRW (rw_header w) (rw_info w) (Some (code, rw_header w)) (rw_body w)
  end.

(** A call after the response was begun is ignored; an informational status is
    sent at once and does not begin it. *)
Definition RW_WriteHeader (code : Z) : M RW () := λ w,
  match rw_sent w with
  | Some _ => (Ret tt, w)
  | None =>
      if decide (valid_code code) then
        if decide (informational code)
        then (Ret tt, mkRW (rw_header w) (rw_info w ++ [(code, rw_header w)]) None (rw_body w))
        else (Ret tt, RW_send code w)
      else (Panic Explicit, w)
  end.

(** The body goes out when the status of the response allows one. *)
Definition RW_has_body (w : RW) : Prop :=
  match rw_sent w with Some (code, _) => body_allowed code | None => False end.
#[export] Instance RW_has_body_dec w : Decision (RW_has_body w).
Proof. unfold RW_has_body. destruct (rw_sent w) as [[]|]; apply _. Defined.

(** [Write] begins the response with status 200 if need be.  The sniffed
    Content-Type and the limit of a declared Content-Length are left out; the
    bytes count as the body for HEAD too. *)
Definition RW_Write (s : string) (w : RW) : Z * RW :=
  let w := RW_send 200 w in
  if decide (RW_has_body w)
  then (Z.of_nat (String.length s), mkRW (rw_header w) (rw_info w) (rw_sent w) (rw_body w +:+ s))
  else (0, w).

#[export] Instance RW_ResponseWriter : ResponseWriter RW := {|
  w_Header := rw_header;
  w_update f w := mkRW (f (rw_header w)) (rw_info w) (rw_sent w) (rw_body w);
  w_WriteHeader := RW_WriteHeader;
  w_Write := RW_Write;
|}.

(** What the client gets as the response once the handler chain returned. *)
Definition RW_finish (w : RW) : Response :=
  match rw_sent w with
  | Some (code, h) => mkResponse code h (rw_body w)
  | None => mkResponse 200 (rw_header w) (rw_body w)
  end.

(** ** Handlers *)

(** What a handler does to its writer. *)
Inductive prog :=
| PDone
| PPanic (why : panic)
| PHeader (f : Header → Header) (k : prog)
| PRead (k : Header → prog)
| PWriteHeader (code : Z) (k : prog)
| PWrite (s : string) (k : prog).

Fixpoint exec {W} `{ResponseWriter W} (p : prog) : M W () := λ w,
  match p with
  | PDone => (Ret tt, w)
  | PPanic why => (Panic why, w)
  | PHeader f k => exec k (w_update f w)
  | PRead k => exec (k (w_Header w)) w
  | PWriteHeader c k =>
      match w_WriteHeader c w with
      | (Ret _, w') => exec k w'
      | (Panic why, w') => (Panic why, w')
      end
  | PWrite s k => exec k (w_Write s w).2
  end.

Abbreviation Handler := (Request → prog).

(** ** The recording writer *)

(** [responseRecorder]; proxy's [responseWriter] is the same type again. *)
Record recorder (W : Type) := mkRecorder {
  rec_inner : W;
  rec_status : Z;
  rec_bytes : Z;
}.
Arguments mkRecorder {W}.
Arguments rec_inner {W}.
Arguments rec_status {W}.
Arguments rec_bytes {W}.

Definition newResponseRecorder {W} (w : W) : recorder W := mkRecorder w 200 0.

(** The status is noted before the call goes on. *)
Definition recorder_WriteHeader {W} `{ResponseWriter W} (code : Z) : M (recorder W) () := λ r,
  let '(o, w) := w_WriteHeader code (rec_inner r) in (o, mkRecorder w code (rec_bytes r)).
Definition recorder_Write {W} `{ResponseWriter W} (s : string) (r : recorder W) : Z * recorder W :=
  let '(n, w) := w_Write s (rec_inner r) in
  (n, mkRecorder w (rec_status r) (wrap64 (rec_bytes r + n))).

#[export] Instance recorder_ResponseWriter `{ResponseWriter W} : ResponseWriter (recorder W) := {|
  w_Header r := w_Header (rec_inner r);
  w_update f r := mkRecorder (w_update f (rec_inner r)) (rec_status r) (rec_bytes r);
  w_WriteHeader := recorder_WriteHeader;
  w_Write := recorder_Write;
|}.

(** ** Middlewares *)

Record log_line := mkLog {
  log_method : string;
  log_path : string;
  log_status : Z;
  log_bytes : Z;
  log_client : string;
}.

(** [AccessLogger]: nothing is logged when the handler panics. *)
Definition AccessLogger (next : Handler) (r : Request) : M RW (option log_line) := λ w,
  match exec (next r) (newResponseRecorder w) with
  | (Ret _, rec) =>
      (Ret (Some (mkLog (req_Method r) (req_Path r) (rec_status rec) (rec_bytes rec)
         (RateLimit_clientIP r))), rec_inner rec)
  | (Panic why, rec) => (Panic why, rec_inner rec)
  end.

Record HeaderRewriter := mkHeaderRewriter {
  hw_adds : gmap string string;
  hw_removes : list string;
  hw_sets : gmap string string;
}.

Definition NewHeaderRewriter : HeaderRewriter := mkHeaderRewriter ∅ [] ∅.
Definition HeaderRewriter_Add (name value : string) (h : HeaderRewriter) : HeaderRewriter :=
  mkHeaderRewriter (<[name := value]> (hw_adds h)) (hw_removes h) (hw_sets h).
Definition HeaderRewriter_Remove (name : string) (h : HeaderRewriter) : HeaderRewriter :=
  mkHeaderRewriter (hw_adds h) (hw_removes h ++ [name]) (hw_sets h).
Definition HeaderRewriter_Set (name value : string) (h : HeaderRewriter) : HeaderRewriter :=
  mkHeaderRewriter (hw_adds h) (hw_removes h) (<[name := value]> (hw_sets h)).

(** The three loops; Go ranges over a map in any order, here the order of
    [map_to_list]. *)

Definition HeaderRewriter_rules (h : HeaderRewriter) (hd : Header) : Header :=
  let hd := foldl (λ hd '(k, v), if decide (Header_Get hd k = "") then Header_Set k v hd else hd) hd (map_to_list (hw_adds h)) in
  let hd := foldl (λ hd k, Header_Del k hd) hd (hw_removes h) in
  foldl (λ hd '(k, v), Header_Set k v hd) hd (map_to_list (hw_sets h)).

(** The rules run after the handler. *)
Definition HeaderRewriter_Middleware (h : HeaderRewriter) (next : Handler) (r : Request) : M RW () :=
  exec (next r);; modify (w_update (HeaderRewriter_rules h)).

Definition security_headers (hd : Header) : Header :=
  Header_Set "Referrer-Policy" "strict-origin-when-cross-origin"
    (Header_Set "X-Content-Type-Options" "nosniff"
      (Header_Set "X-Frame-Options" "DENY"
        (Header_Set "Strict-Transport-Security" "max-age=63072000; includeSubDomains" hd))).

Definition SecurityHeaders (next : Handler) (r : Request) : M RW () :=
  exec (next r);; modify (w_update security_headers).

(** [RequestID]: the request handed on and the response header; [uuid] is the
    fresh identifier. *)
Definition ctxRequestID : ctx_key := mkCtxKey "middleware.ctxKey" "request_id".

Definition RequestID (uuid : string) (next : Handler) (r : Request) : M RW () :=
  let id := Header_Get (req_Header r) "X-Request-ID" in
  let id := if decide (id = "") then uuid else id in
  let r := WithContext (context_WithValue (req_Ctx r) ctxRequestID (CtxString id)) r in
  let r := with_header (Header_Set "X-Request-ID" id (req_Header r)) r in
  modify (w_update (Header_Set "X-Request-ID" id));;
  exec (next r).

Definition RequestIDFromContext (c : context) : string :=
  match context_Value c ctxRequestID with Some (CtxString id) => id | _ => "" end.

(** The program [http.Error] runs. *)
Definition error_prog (msg : string) (code : Z) : prog :=
  PHeader (Header_Del "Content-Length")
    (PHeader (Header_Set "Content-Type" "text/plain; charset=utf-8")
      (PHeader (Header_Set "X-Content-Type-Options" "nosniff")
        (PWriteHeader code (PWrite (msg +:+ newline) PDone)))).

(** [{"error":"rate limit exceeded"}] *)
Definition limit_message : string :=
  let q := String (Ascii.ascii_of_nat 34) "" in
  "{" +:+ q +:+ "error" +:+ q +:+ ":" +:+ q +:+ "rate limit exceeded" +:+ q +:+ "}".

(** [RateLimiter.Middleware] as a handler, with the limiter's verdict. *)
Definition limited (ok : bool) (next : Handler) (r : Request) : prog :=
  if ok then next r else PHeader (Header_Set "Retry-After" "1") (error_prog limit_message 429).

Definition RateLimiter_Middleware (now1 now2 : Time) (next : Handler) (r : Request)
    : M (RateLimiter * RW) () := λ s,
  match RateLimiter_Allow (RateLimit_clientIP r) now1 now2 s.1 with
  | (Ret ok, rl) => let '(o, w) := exec (limited ok next r) s.2 in (o, (rl, w))
  | (Panic why, rl) => (Panic why, (rl, s.2))
  end.

(** *** Compression *)

Section gzip.
(** [gzip.Writer]: its state, the bytes a [Write] and a [Close] pass on. *)
Context {GZ : Type}.
Variable gz_new : GZ.
Variable gz_Write : string → GZ → GZ * string.
Variable gz_Close : GZ → string.

Record gzipW := mkGzipW { gz_inner : RW; gz_writer : GZ }.

(** Bytes that come out of the compressor go to the wrapped writer. *)
Definition gz_emit (out : string) (w : RW) : RW := if decide (out = "") then w else (w_Write out w).2.

#[local] Instance gzip_ResponseWriter : ResponseWriter gzipW := {|
  w_Header g := w_Header (gz_inner g);
  w_update f g := mkGzipW (w_update f (gz_inner g)) (gz_writer g);
  w_WriteHeader c g :=
    let '(o, w) := w_WriteHeader c (w_update (Header_Del "Content-Length") (gz_inner g)) in
    (o, mkGzipW w (gz_writer g));
  w_Write s g :=
    let '(z, out) := gz_Write s (gz_writer g) in
    (Z.of_nat (String.length s), mkGzipW (gz_emit out (gz_inner g)) z);
|}.

(** [GzipMiddleware(minBytes)]: the threshold is not used. *)
Definition GzipMiddleware (minBytes : Z) (next : Handler) (r : Request) : M RW () := λ w,
  if negb (str_contains (Header_Get (req_Header r) "Accept-Encoding") "gzip") then exec (next r) w
  else
    let w := w_update (Header_Del "Content-Length") (w_update (Header_Set "Content-Encoding" "gzip") w) in
    let '(o, g) := exec (next r) (mkGzipW w gz_new) in
    (o, gz_emit (gz_Close (gz_writer g)) (gz_inner g)).
End gzip.

(** ** The timeout middleware *)

(** [{"error":"request timeout"}] *)
Definition timeout_message : string :=
  let q := String (Ascii.ascii_of_nat 34) "" in
  "{" +:+ q +:+ "error" +:+ q +:+ ":" +:+ q +:+ "request timeout" +:+ q +:+ "}".

(** The first [n] operations of a handler; no outcome while it still runs. *)
Fixpoint exec_for {W} `{ResponseWriter W} (n : nat) (p : prog) (w : W) : option (outcome ()) * W :=
  match p, n with
  | PDone, _ => (Some (Ret tt), w)
  | PPanic why, _ => (Some (Panic why), w)
  | _, O => (None, w)
  | PHeader f k, S n => exec_for n k (w_update f w)
  | PRead k, S n => exec_for n (k (w_Header w)) w
  | PWriteHeader c k, S n =>
      match w_WriteHeader c w with
      | (Ret _, w') => exec_for n k w'
      | (Panic why, w') => (Some (Panic why), w')
      end
  | PWrite s k, S n => exec_for n k (w_Write s w).2
  end.

(** The writer of [http.TimeoutHandler]: its own headers, the first status it
    was given, whatever it is, and a buffer. *)
Record TW := mkTW { tw_header : Header; tw_code : option Z; tw_buf : string }.
Definition TW_new : TW := mkTW ∅ None "".

Definition TW_note (code : Z) (w : TW) : TW :=
  match tw_code w with Some _ => w | None => mkTW (tw_header w) (Some code) (tw_buf w) end.
Definition TW_WriteHeader (code : Z) : M TW () := λ w,
  if decide (valid_code code) then (Ret tt, TW_note code w) else (Panic Explicit, w).
Definition TW_Write (s : string) (w : TW) : Z * TW :=
  let w := TW_note 200 w in (Z.of_nat (String.length s), mkTW (tw_header w) (tw_code w) (tw_buf w +:+ s)).

#[export] Instance TW_ResponseWriter : ResponseWriter TW := {|
  w_Header := tw_header;
  w_update f w := mkTW (f (tw_header w)) (tw_code w) (tw_buf w);
  w_WriteHeader := TW_WriteHeader;
  w_Write := TW_Write;
|}.

(** [http.TimeoutHandler(next, d, message)]: the handler runs in a goroutine on
    a writer that buffers, of which [turns d r] operations come before the
    deadline; what it does later reaches nobody.  A handler that is done is
    copied to the client, its headers as they are by then; its panic is passed
    on; otherwise the client gets 503. *)
Definition TimeoutMiddleware (turns : Duration → Request → nat) (d : Duration) (next : Handler) (r : Request)
    : M RW () := λ w,
  match exec_for (turns d r) (next r) TW_new with
  | (Some (Ret _), tw) =>
      (w_WriteHeader (default 200 (tw_code tw));; modify (λ w, (w_Write (tw_buf tw) w).2))
        (w_update (λ h, tw_header tw ∪ h) w)
  | (Some (Panic why), _) => (Panic why, w)
  | (None, _) => (w_WriteHeader 503;; modify (λ w, (w_Write timeout_message w).2)) w
  end.

(** ** Lemmas *)

Lemma RW_send_sent code w : is_Some (rw_sent w) → RW_send code w = w.
Proof. intros [x Hx]. unfold RW_send. by rewrite Hx. Qed.

Lemma RW_Write_sent s w c : rw_sent w = Some c → rw_sent (w_Write s w).2 = Some c.
Proof. intros Hs. simpl. unfold RW_Write. rewrite RW_send_sent by eauto. by case_decide. Qed.

Lemma RW_WriteHeader_sent code w c : rw_sent w = Some c → w_WriteHeader code w = (Ret tt, w).
Proof. intros Hs. simpl. unfold RW_WriteHeader. by rewrite Hs. Qed.

(** Once the response is begun, it stays. *)
Lemma exec_sent p w o w' c :
  exec p w = (o, w') → rw_sent w = Some c → rw_sent w' = Some c.
Proof.
  revert w. induction p as [|why|f k IH|k IH|code k IH|s k IH]; intros w E Hs; cbn [exec] in E;
    simplify_eq; try done.
  - by apply (IH (w_update f w)).
  - by apply (IH (w_Header w) w).
  - rewrite (RW_WriteHeader_sent code w c Hs) in E. by apply (IH w).
  - apply (IH (w_Write s w).2); [done|]. by apply RW_Write_sent.
Qed.

(** Changing the header map after the header was sent changes nothing for the
    client. *)
Lemma finish_update f w :
  is_Some (rw_sent w) → RW_finish (w_update f w) = RW_finish w.
Proof. intros [[c h] Hs]. unfold RW_finish. simpl. by rewrite Hs. Qed.

Lemma finish_unsent w :
  rw_sent w = None → RW_finish w = mkResponse 200 (rw_header w) (rw_body w).
Proof. intros Hs. unfold RW_finish. by rewrite Hs. Qed.

(** The recorder changes nothing of what the handler does. *)
Lemma exec_recorder {W} `{ResponseWriter W} p (w : W) st n :
  ∃ st' n', exec p (mkRecorder w st n) =
    ((exec p w).1, mkRecorder (exec p w).2 st' n').
Proof.
  revert w st n. induction p as [|why|f k IH|k IH|code k IH|s k IH]; intros w st n; cbn [exec];
    [by eexists _, _|by eexists _, _|apply IH|apply IH|..].
  - cbn. unfold recorder_WriteHeader. cbn [rec_inner].
    destruct (w_WriteHeader code w) as [[[]|why] w']; [apply IH|by eexists _, _].
  - cbn. unfold recorder_Write. cbn [rec_inner]. destruct (w_Write s w) as [m w']. apply IH.
Qed.

(** How far a handler has got: nothing sent, informational responses sent, or
    the response begun. *)
Inductive phase := Fresh | Informed | Started.

(** Handlers that begin the response at most once, not with [WriteHeader] after
    [Write], and that follow an informational status by an explicit final one. *)
Fixpoint disciplined (ph : phase) (p : prog) : Prop :=
  match p with
  | PDone => ph ≠ Informed
  | PPanic _ => True
  | PHeader _ k => disciplined ph k
  | PRead k => ∀ h, disciplined ph (k h)
  | PWriteHeader code k =>
      ph ≠ Started ∧ disciplined (if decide (informational code) then Informed else Started) k
  | PWrite _ k => ph ≠ Informed ∧ disciplined Started k
  end.

(** The recorder agrees with the writer it wraps. *)
Definition recorded (ph : phase) (r : recorder RW) : Prop :=
  match ph with
  | Fresh => rw_sent (rec_inner r) = None ∧ rec_status r = 200
  | Informed => rw_sent (rec_inner r) = None
  | Started => ∃ h, rw_sent (rec_inner r) = Some (rec_status r, h)
  end ∧
  rec_bytes r = wrap64 (Z.of_nat (String.length (rw_body (rec_inner r)))).

Lemma recorded_WriteHeader ph code r r' :
  ph ≠ Started → recorded ph r → w_WriteHeader code r = (Ret tt, r') →
  recorded (if decide (informational code) then Informed else Started) r'.
Proof.
  intros Hph [Hs Hb] E. assert (rw_sent (rec_inner r) = None) as Hn by (by destruct ph; try apply Hs).
  destruct r as [[h i x b] st n]. cbn [rec_inner rw_sent] in Hn. subst x. cbn in E.
  unfold recorder_WriteHeader, w_WriteHeader in E. cbn in E. unfold RW_WriteHeader in E. cbn in E.
  destruct (decide (valid_code code)); [|done].
  destruct (decide (informational code)); injection E as <-; (split; [|exact Hb]); cbn; eauto.
Qed.

Lemma recorded_Write s ph r : ph ≠ Informed → recorded ph r → recorded Started (w_Write s r).2.
Proof.
  intros Hph [Hs Hb]. destruct r as [[h i x b] st n]. cbn in Hs, Hb.
  assert (∃ h', rw_sent (RW_send 200 (mkRW h i x b)) = Some (st, h')) as [h' Hx].
  { destruct ph; [destruct Hs as [-> ->]; by eexists|done|destruct Hs as [h' ->]; by eexists]. }
  assert (rw_body (RW_send 200 (mkRW h i x b)) = b) as Hbody by (by destruct x).
  cbn. unfold recorder_Write, w_Write. cbn. unfold RW_Write.
  destruct (decide (RW_has_body (RW_send 200 (mkRW h i x b)))); (split; [by eexists|]); cbn; rewrite Hbody, Hb.
  - rewrite str_length_app, wrap64_add_l. f_equal. lia.
  - by rewrite Z.add_0_r, (wrap64_id (wrap64 _)) by apply wrap64_range.
Qed.

Lemma exec_recorded p ph r r' :
  disciplined ph p → recorded ph r → exec p r = (Ret tt, r') → ∃ ph', ph' ≠ Informed ∧ recorded ph' r'.
Proof.
  revert ph r. induction p as [|why|f k IH|k IH|code k IH|s k IH]; intros ph r Hd Hr E;
    cbn [exec] in E; cbn [disciplined] in Hd; simplify_eq; [by exists ph|..].
  - apply (IH ph (w_update f r)); [done| |done]. destruct r as [[h i sent b] st n]. exact Hr.
  - exact (IH _ ph r (Hd _) Hr E).
  - destruct Hd as [Hp Hd]. destruct (w_WriteHeader code r) as [[[]|why] r1] eqn:Ew; [|done].
    eapply IH; [exact Hd| |exact E]. by eapply recorded_WriteHeader.
  - destruct Hd as [Hp Hd]. apply (IH Started (w_Write s r).2); [done| |done]. by apply (recorded_Write s ph).
Qed.

(** What the recorder around a fresh writer ends with. *)
Lemma exec_fresh_recorder p :
  disciplined Fresh p →
  ∃ st n, exec p (newResponseRecorder RW_new) = ((exec p RW_new).1, mkRecorder (exec p RW_new).2 st n) ∧
    ((exec p RW_new).1 = Ret tt → st = resp_Status (RW_finish (exec p RW_new).2) ∧
      n = wrap64 (Z.of_nat (String.length (resp_Body (RW_finish (exec p RW_new).2))))).
Proof.
  intros Hd. destruct (exec_recorder p RW_new 200 0) as (st & n & E). exists st, n. split; [done|]. intros Ho.
  destruct (exec_recorded p Fresh (newResponseRecorder RW_new) (mkRecorder (exec p RW_new).2 st n) Hd) as (ph & Hp & Hs & Hn).
  - by split_and!.
  - unfold newResponseRecorder. rewrite E, Ho. done.
  - simpl in *. unfold RW_finish. destruct ph; [destruct Hs as [-> ->]|done|destruct Hs as [h' ->]]; by split.
Qed.

(** ** Properties *)

(** The response-header middlewares come too late: they set their headers
    after the handler returned, so around every handler that sends a response
    of its own, [SecurityHeaders] and the header rewriter leave what the client
    gets unchanged; only a handler that sent nothing gets the headers. *)
Theorem late_headers_lost h next r w :
  exec (next r) RW_new = (Ret tt, w) →
  ∃ w1 w2, SecurityHeaders next r RW_new = (Ret tt, w1) ∧
    HeaderRewriter_Middleware h next r RW_new = (Ret tt, w2) ∧
    (is_Some (rw_sent w) → RW_finish w1 = RW_finish w ∧ RW_finish w2 = RW_finish w) ∧
    (rw_sent w = None → resp_Header (RW_finish w1) = security_headers (rw_header w) ∧
      resp_Header (RW_finish w2) = HeaderRewriter_rules h (rw_header w)).
Proof.
  intros E. exists (w_update security_headers w), (w_update (HeaderRewriter_rules h) w).
  split_and!.
  - unfold SecurityHeaders. by rewrite (bind_Ret _ _ _ _ _ E).
  - unfold HeaderRewriter_Middleware. by rewrite (bind_Ret _ _ _ _ _ E).
  - intros Hs. by rewrite !finish_update.
  - intros Hs. by rewrite !finish_unsent.
Qed.

(** The access log observes the response without changing it: around
    every handler that begins its response at most once and follows an
    informational status by a final one, [AccessLogger]
    leaves the response and the outcome as they are, and its line has the method
    and path of the request, the client's address, and the status and the
    body length that the client gets; a handler that panics is not logged. *)
Theorem access_log_is_accurate next r :
  disciplined Fresh (next r) →
  let '(o, w) := exec (next r) RW_new in
  let resp := RW_finish w in
  AccessLogger next r RW_new =
    (match o with
     | Ret _ => Ret (Some (mkLog (req_Method r) (req_Path r) (resp_Status resp)
                  (wrap64 (Z.of_nat (String.length (resp_Body resp)))) (RateLimit_clientIP r)))
     | Panic why => Panic why
     end, w).
Proof.
  intros Hd. destruct (exec_fresh_recorder (next r) Hd) as (st & n & E & Hrec).
  destruct (exec (next r) RW_new) as [o w]. cbn [fst snd] in E, Hrec.
  unfold AccessLogger. rewrite E. destruct o as [[]|why]; [|done]. by destruct Hrec as [-> ->].
Qed.

(** A request keeps its id: the handler under [RequestID] finds in the context,
    in its request header and in the header of its response the id the client
    sent, or the fresh one when the client sent none; and the proxy's own
    context value does not hide it. *)
Theorem RequestID_in_context uuid next r b :
  uuid ≠ "" →
  let id := if decide (Header_Get (req_Header r) "X-Request-ID" = "") then uuid
            else Header_Get (req_Header r) "X-Request-ID" in
  ∃ r', RequestID uuid next r RW_new =
      exec (next r') (w_update (Header_Set "X-Request-ID" id) RW_new) ∧ id ≠ "" ∧
    RequestIDFromContext (req_Ctx r') = id ∧ Header_Get (req_Header r') "X-Request-ID" = id ∧
    RequestIDFromContext (req_Ctx (with_backend b r')) = id ∧
    BackendFromContext (req_Ctx (with_backend b r')) = Some b.
Proof.
  intros Hu id. eexists. split; [unfold RequestID; by erewrite bind_Ret by reflexivity|].
  split_and!; [by subst id; case_decide|done| |done|done]. cbn. by rewrite Header_Get_Set_eq.
Qed.

(** How many operations a handler does. *)
Fixpoint prog_ops {W} `{ResponseWriter W} (p : prog) (w : W) : nat :=
  match p with
  | PDone | PPanic _ => 0
  | PHeader f k => S (prog_ops k (w_update f w))
  | PRead k => S (prog_ops (k (w_Header w)) w)
  | PWriteHeader c k =>
      S (match w_WriteHeader c w with (Ret _, w') => prog_ops k w' | (Panic _, _) => 0 end)
  | PWrite s k => S (prog_ops k (w_Write s w).2)
  end.

Lemma exec_for_spec {W} `{ResponseWriter W} n p (w : W) :
  if decide (prog_ops p w ≤ n)%nat then exec_for n p w = (Some (exec p w).1, (exec p w).2)
  else (exec_for n p w).1 = None.
Proof.
  revert n w. induction p as [|why|f k IH|k IH|code k IH|s k IH]; intros n w; cbn [prog_ops exec];
    [by destruct n|by destruct n|..]; (destruct n as [|n]; [done|]); cbn [exec_for].
  - specialize (IH n (w_update f w)). repeat case_decide; (done || lia).
  - specialize (IH (w_Header w) n w). repeat case_decide; (done || lia).
  - destruct (w_WriteHeader code w) as [[[]|why] w'].
    + specialize (IH n w'). repeat case_decide; (done || lia).
    + by rewrite decide_True by lia.
  - specialize (IH n (w_Write s w).2). repeat case_decide; (done || lia).
Qed.

(** The response the client gets from a buffering writer: an informational
    status is sent as such and leaves 200 to the response. *)
Definition TW_response (tw : TW) : Response :=
  let code := default 200 (tw_code tw) in
  if decide (informational code) then mkResponse 200 (tw_header tw) (tw_buf tw)
  else mkResponse code (tw_header tw) (if decide (body_allowed code) then tw_buf tw else "").

Lemma TW_code_valid p tw : exec p TW_new = (Ret tt, tw) → valid_code (default 200 (tw_code tw)).
Proof.
  assert (∀ tw, valid_code (default 200 (tw_code tw)) → ∀ o tw', exec p tw = (o, tw') → valid_code (default 200 (tw_code tw'))) as H.
  { induction p as [|why|f k IH|k IH|code k IH|s k IH]; intros tw0 H0 o tw' E; cbn [exec] in E; simplify_eq; try done.
    - by apply (IH (w_update f tw0)) in E.
    - by apply (IH _ tw0) in E.
    - simpl in E. unfold TW_WriteHeader in E. case_decide as Hc; [|by simplify_eq].
      apply IH in E; [done|]. unfold TW_note. by destruct (tw_code tw0) eqn:Et; rewrite ?Et.
    - apply IH in E; [done|]. simpl. unfold TW_note. by destruct (tw_code tw0) eqn:Et; rewrite ?Et. }
  apply (H TW_new). by split.
Qed.

(** The timeout is all or nothing: the client gets either what the handler
    left in the buffer, with its first status, its body and the headers it ended
    with, when the handler is done in time, or exactly the 503 and its message,
    whatever the handler had written by then; a panic in time is passed on. *)
Theorem TimeoutMiddleware_all_or_nothing turns d next r :
  let '(o, tw) := exec (next r) TW_new in
  let '(o', w') := TimeoutMiddleware turns d next r RW_new in
  if decide (prog_ops (next r) TW_new ≤ turns d r)%nat then
    o' = o ∧ (o = Ret tt → RW_finish w' = TW_response tw)
  else o' = Ret tt ∧ RW_finish w' = mkResponse 503 ∅ timeout_message.
Proof.
  pose proof (exec_for_spec (turns d r) (next r) TW_new) as E. unfold TimeoutMiddleware.
  pose proof (TW_code_valid (next r)) as Hv.
  destruct (exec (next r) TW_new) as [o tw]. destruct (exec_for _ _ _) as [res tw1]. cbn [fst snd] in E.
  case_decide; [|by subst res]. injection E as -> ->. destruct o as [[]|why]; [|done].
  specialize (Hv tw eq_refl). unfold TW_response. unfold mbind, M_bind. simpl. unfold RW_WriteHeader. simpl.
  rewrite decide_True by done. destruct (decide (informational (default 200 (tw_code tw)))) as [Hi|Hi].
  - split; [done|]. intros _. unfold RW_Write, RW_has_body, RW_finish. simpl. by rewrite (right_id_L ∅ (∪)).
  - split; [done|]. intros _. unfold RW_Write, RW_has_body, RW_finish, RW_send. simpl.
    destruct (decide (body_allowed _)); simpl; by rewrite (right_id_L ∅ (∪)).
Qed.

(** ** Witnesses *)

Definition ex_handler : Handler := λ _, PHeader (Header_Set "Content-Type" "text/plain")
  (PWriteHeader 404 (PWrite "gone" PDone)).

Lemma late_headers_lost_witness :
  ∃ w1 w2, SecurityHeaders ex_handler ex_client RW_new = (Ret tt, w1) ∧
    HeaderRewriter_Middleware (HeaderRewriter_Set "X-A" "b" NewHeaderRewriter) ex_handler ex_client RW_new
      = (Ret tt, w2) ∧
    Header_Get (resp_Header (RW_finish w1)) "X-Frame-Options" = "" ∧
    Header_Get (resp_Header (RW_finish w2)) "X-A" = "".
Proof.
  destruct (late_headers_lost (HeaderRewriter_Set "X-A" "b" NewHeaderRewriter) ex_handler ex_client
    (exec (ex_handler ex_client) RW_new).2) as (w1 & w2 & H1 & H2 & H3 & _).
  - vm_compute. reflexivity.
  - exists w1, w2. destruct H3 as [H4 H5]; [vm_compute; eexists; reflexivity|].
    split; [exact H1|]. split; [exact H2|]. rewrite H4, H5. split; vm_compute; reflexivity.
Defined.

Lemma access_log_is_accurate_witness :
  AccessLogger ex_handler ex_client RW_new =
    (Ret (Some (mkLog "GET" "/x" 404 4 "10.0.0.1")), (exec (ex_handler ex_client) RW_new).2).
Proof.
  apply (access_log_is_accurate ex_handler ex_client). vm_compute. repeat split; discriminate.
Defined.
