(* ===== verification/Metrics.v ===== *)
(** The metrics (internal/metrics/metrics.go, middleware.go): the registration
    of the collectors and the instrumentation of a handler, against an interface
    to the Prometheus library. *)

From Stdlib Require Import SpecFloat DecimalString.
From S2P Require Export Middleware.

#[local] Open Scope Z_scope.

(** ** The Prometheus library *)

(** The registry and the vectors of the library, and what the program calls.  A
    registration takes the name, the help text and the label names; [promauto]
    panics where it fails.  [WithLabelValues] panics where a call on a vector
    with label values gives nothing. *)
Class Prometheus := {
  registry_t : Type;
  counter_vec : Type;
  gauge_vec : Type;
  histogram_vec : Type;
  register_counter : string → string → list string → registry_t → option (counter_vec * registry_t);
  register_gauge : string → string → list string → registry_t → option (gauge_vec * registry_t);
  register_histogram : string → string → list string → registry_t → option (histogram_vec * registry_t);
  counter_inc : list string → counter_vec → option counter_vec;
  gauge_inc : list string → gauge_vec → option gauge_vec;
  gauge_dec : list string → gauge_vec → option gauge_vec;
  histogram_observe : list string → float64 → histogram_vec → option histogram_vec;
}.

Definition label_ascii (s : string) : Prop := Forall (λ c, (Ascii.N_of_ascii c < 128)%N) (String.list_ascii_of_string s).

(** One more at a label, for the values of counters and gauges. *)
Definition at_label (l l' : list string) (d : Z) : Z := if decide (l' = l) then d else 0.

(** What the library documents: a name is registered once, a vector takes as
    many label values as it has label names, each a valid text, and counts. *)
Class PrometheusLaws `{Prometheus} := {
  registered : registry_t → string → Prop;
  label_ok : string → Prop;
  counter_arity : counter_vec → nat;
  gauge_arity : gauge_vec → nat;
  histogram_arity : histogram_vec → nat;
  counter_value : counter_vec → list string → Z;
  gauge_value : gauge_vec → list string → Z;
  histogram_count : histogram_vec → list string → Z;
  ascii_label_ok s : label_ascii s → label_ok s;
  register_counter_fresh n help ls R :
    ¬ registered R n → ∃ v R', register_counter n help ls R = Some (v, R') ∧ counter_arity v = length ls ∧
      (∀ l, counter_value v l = 0) ∧ ∀ n', registered R' n' ↔ n' = n ∨ registered R n';
  register_gauge_fresh n help ls R :
    ¬ registered R n → ∃ v R', register_gauge n help ls R = Some (v, R') ∧ gauge_arity v = length ls ∧
      (∀ l, gauge_value v l = 0) ∧ ∀ n', registered R' n' ↔ n' = n ∨ registered R n';
  register_histogram_fresh n help ls R :
    ¬ registered R n → ∃ v R', register_histogram n help ls R = Some (v, R') ∧ histogram_arity v = length ls ∧
      (∀ l, histogram_count v l = 0) ∧ ∀ n', registered R' n' ↔ n' = n ∨ registered R n';
  register_counter_again n help ls R : registered R n → register_counter n help ls R = None;
  counter_inc_at ls v :
    length ls = counter_arity v → Forall label_ok ls →
    ∃ v', counter_inc ls v = Some v' ∧ counter_arity v' = counter_arity v ∧
      ∀ l, counter_value v' l = counter_value v l + at_label ls l 1;
  gauge_inc_at ls v :
    length ls = gauge_arity v → Forall label_ok ls →
    ∃ v', gauge_inc ls v = Some v' ∧ gauge_arity v' = gauge_arity v ∧
      ∀ l, gauge_value v' l = gauge_value v l + at_label ls l 1;
  gauge_dec_at ls v :
    length ls = gauge_arity v → Forall label_ok ls →
    ∃ v', gauge_dec ls v = Some v' ∧ gauge_arity v' = gauge_arity v ∧
      ∀ l, gauge_value v' l = gauge_value v l + at_label ls l (-1);
  histogram_observe_at ls x v :
    length ls = histogram_arity v → Forall label_ok ls →
    ∃ v', histogram_observe ls x v = Some v' ∧ histogram_arity v' = histogram_arity v ∧
      ∀ l, histogram_count v' l = histogram_count v l + at_label ls l 1;
}.

(** A call of the library that may panic, on a part of the state. *)
Definition must {S T} (get : S → T) (put : T → S → S) (f : T → option T) : M S () := λ s,
  match f (get s) with Some t => (Ret tt, put t s) | None => (Panic Explicit, s) end.

(** [promauto]: register, or panic. *)
Definition must_register {R V} (f : R → option (V * R)) : M R V := λ R,
  match f R with Some (v, R') => (Ret v, R') | None => (Panic Explicit, R) end.

(** ** The collector *)

Section metrics.
Context `{Prometheus}.

Record Collector := mkCollector {
  RequestsTotal : counter_vec;
  RequestDuration : histogram_vec;
  ActiveConns : gauge_vec;
  BackendHealth : gauge_vec;
  CircuitState : gauge_vec;
  UpstreamErrors : counter_vec;
}.

(** [New]: the registrations on the default registry. *)
Definition Metrics_New : M registry_t Collector :=
  requests ← must_register (register_counter "gobalancer_requests_total"
    "Total number of proxied requests." ["backend"; "status_class"]);
  duration ← must_register (register_histogram "gobalancer_request_duration_seconds"
    "Latency of proxied requests." ["backend"; "route"]);
  conns ← must_register (register_gauge "gobalancer_active_connections"
    "Number of active upstream connections per backend." ["backend"]);
  health ← must_register (register_gauge "gobalancer_backend_health"
    "Backend health: 0=down, 1=up, 2=probation." ["backend"]);
  circuit ← must_register (register_gauge "gobalancer_circuit_breaker_state"
    "Circuit breaker state: 0=closed, 1=open, 2=half-open." ["backend"]);
  errors ← must_register (register_counter "gobalancer_upstream_errors_total"
    "Number of upstream errors per backend and type." ["backend"; "type"]);
  mret (mkCollector requests duration conns health circuit errors).

Definition StatusClass (code : Z) : string :=
  if decide (code < 200) then "1xx"
  else if decide (code < 300) then "2xx"
  else if decide (code < 400) then "3xx"
  else if decide (code < 500) then "4xx"
  else "5xx".

(** ** The instrumented handler *)

(** [Duration.Seconds]. *)
Definition f64_add : float64 → float64 → float64 := SFadd prec64 emax64.
Definition Duration_Seconds (d : Duration) : float64 :=
  f64_add (f64_of_Z (Z.quot d Second)) (f64_div (f64_of_Z (Z.rem d Second)) (f64_of_Z Second)).

(** Calls on the vectors of the collector, which a handler shares with its
    writer. *)
Abbreviation mstate := (Collector * RW)%type.

Definition on_RequestsTotal (f : counter_vec → option counter_vec) : M mstate () :=
  must (λ s, RequestsTotal s.1) (λ v s, (mkCollector v (RequestDuration s.1) (ActiveConns s.1)
    (BackendHealth s.1) (CircuitState s.1) (UpstreamErrors s.1), s.2)) f.
Definition on_RequestDuration (f : histogram_vec → option histogram_vec) : M mstate () :=
  must (λ s, RequestDuration s.1) (λ v s, (mkCollector (RequestsTotal s.1) v (ActiveConns s.1)
    (BackendHealth s.1) (CircuitState s.1) (UpstreamErrors s.1), s.2)) f.
Definition on_ActiveConns (f : gauge_vec → option gauge_vec) : M mstate () :=
  must (λ s, ActiveConns s.1) (λ v s, (mkCollector (RequestsTotal s.1) (RequestDuration s.1) v
    (BackendHealth s.1) (CircuitState s.1) (UpstreamErrors s.1), s.2)) f.
Definition on_UpstreamErrors (f : counter_vec → option counter_vec) : M mstate () :=
  must (λ s, UpstreamErrors s.1) (λ v s, (mkCollector (RequestsTotal s.1) (RequestDuration s.1)
    (ActiveConns s.1) (BackendHealth s.1) (CircuitState s.1) v, s.2)) f.
End metrics.

(** [statusRecorder]: the writer it wraps and the status. *)
Record statusRecorder (W : Type) := mkStatus { sr_inner : W; sr_status : Z }.
Arguments mkStatus {W}.
Arguments sr_inner {W}.
Arguments sr_status {W}.

(** [Write] is the wrapped writer's. *)
#[export] Instance statusRecorder_ResponseWriter `{ResponseWriter W} : ResponseWriter (statusRecorder W) := {|
  w_Header r := w_Header (sr_inner r);
  w_update f r := mkStatus (w_update f (sr_inner r)) (sr_status r);
  w_WriteHeader code r := let '(o, w) := w_WriteHeader code (sr_inner r) in (o, mkStatus w code);
  w_Write s r := let '(n, w) := w_Write s (sr_inner r) in (n, mkStatus w (sr_status r));
|}.

Section instrument.
Context `{Prometheus}.

(** [h.ServeHTTP(rec, r)]: the status that [rec] has afterwards. *)
Definition serve_recorded (h : Handler) (r : Request) : M (Collector * RW) Z := λ s,
  let '(o, rec) := exec (h r) (mkStatus s.2 200) in
  (match o with Ret _ => Ret (sr_status rec) | Panic why => Panic why end, (s.1, sr_inner rec)).

(** [InstrumentHandler(backendID, route, h)] on one request; the clock is read
    before and after the handler. *)
Definition InstrumentHandler (backendID route : string) (h : Handler) (r : Request) (start now : Time)
    : M (Collector * RW) () :=
  on_ActiveConns (gauge_inc [backendID]);;
  defer (on_ActiveConns (gauge_dec [backendID]))
    (status ← serve_recorded h r;
     let class := StatusClass status in
     on_RequestsTotal (counter_inc [backendID; class]);;
     on_RequestDuration (histogram_observe [backendID; route] (Duration_Seconds (Time_Sub now start)));;
     if decide (500 ≤ status) then on_UpstreamErrors (counter_inc [backendID; itoa status]) else mret tt).
End instrument.

(** ** Lemmas *)

(** *** Labels *)

Lemma uint_ascii d : label_ascii (NilEmpty.string_of_uint d).
Proof. induction d; [by constructor|..]; (constructor; [done|exact IHd]). Qed.

Lemma itoa_ascii z : label_ascii (itoa z).
Proof.
  unfold itoa. destruct (Z.to_int z) as [d|d]; [|constructor; [done|]]; cbn;
    (destruct d; [by repeat constructor|..]); apply uint_ascii.
Qed.

Lemma class_ascii code : label_ascii (StatusClass code).
Proof. unfold StatusClass. repeat case_decide; by repeat constructor. Qed.

(** *** The status that is recorded *)

(** A [statusRecorder] is a [responseRecorder] without the byte count. *)
Definition forget {W} (r : recorder W) : statusRecorder W := mkStatus (rec_inner r) (rec_status r).

Lemma exec_forget {W} `{ResponseWriter W} p (r : recorder W) :
  exec p (forget r) = ((exec p r).1, forget (exec p r).2).
Proof.
  revert r. induction p as [|why|f k IH|k IH|code k IH|s k IH]; intros r; cbn [exec]; [done|done|..].
  - exact (IH (w_update f r)).
  - exact (IH _ r).
  - destruct r as [w st n]. cbn. unfold recorder_WriteHeader. cbn [rec_inner rec_bytes].
    destruct (w_WriteHeader code w) as [[[]|why] w']; [apply (IH (mkRecorder w' code n))|done].
  - destruct r as [w st n]. cbn. unfold recorder_Write. cbn [rec_inner rec_bytes rec_status].
    destruct (w_Write s w) as [m w']. apply (IH (mkRecorder w' st _)).
Qed.

(** A writer that a handler used leaves the recorder with the status that the
    client gets. *)
Lemma serve_recorded_fresh `{Prometheus} h r c :
  disciplined Fresh (h r) →
  serve_recorded h r (c, RW_new) =
    (match (exec (h r) RW_new).1 with
     | Ret _ => Ret (resp_Status (RW_finish (exec (h r) RW_new).2))
     | Panic why => Panic why
     end, (c, (exec (h r) RW_new).2)).
Proof.
  intros Hd. unfold serve_recorded. cbn [fst snd].
  change (mkStatus RW_new 200) with (forget (newResponseRecorder RW_new)).
  destruct (exec_fresh_recorder (h r) Hd) as (st & n & E & Hst). rewrite exec_forget, E.
  destruct (exec (h r) RW_new) as [[[]|why] w]; cbn in *; [|done]. by destruct Hst as [-> _].
Qed.

(** An informational status and a body. *)
Lemma informational_exec `{Prometheus} code body :
  informational code →
  let p := PWriteHeader code (PWrite body PDone) in
  RW_finish (exec p RW_new).2 = mkResponse 200 ∅ body ∧
  ∀ (s : Collector * RW) (r : Request), s.2 = RW_new →
    serve_recorded (λ _, p) r s = (Ret code, (s.1, (exec p RW_new).2)).
Proof.
  intros Hi. assert (valid_code code) as Hv by (destruct Hi; unfold valid_code; lia). split.
  - cbn. unfold RW_WriteHeader. cbn. by rewrite !decide_True.
  - intros s r Hs. unfold serve_recorded. rewrite Hs. cbn. unfold RW_WriteHeader. cbn. by rewrite !decide_True.
Qed.

Section laws.
Context `{PrometheusLaws}.

(** A collector whose vectors have the label names of [New]. *)
Definition collector_ok (c : Collector) : Prop :=
  counter_arity (RequestsTotal c) = 2%nat ∧ histogram_arity (RequestDuration c) = 2%nat ∧
  gauge_arity (ActiveConns c) = 1%nat ∧ gauge_arity (BackendHealth c) = 1%nat ∧
  gauge_arity (CircuitState c) = 1%nat ∧ counter_arity (UpstreamErrors c) = 2%nat.

(** Nothing counted yet. *)
Definition collector_zero (c : Collector) : Prop :=
  ∀ l, counter_value (RequestsTotal c) l = 0 ∧ histogram_count (RequestDuration c) l = 0 ∧
    gauge_value (ActiveConns c) l = 0 ∧ gauge_value (BackendHealth c) l = 0 ∧
    gauge_value (CircuitState c) l = 0 ∧ counter_value (UpstreamErrors c) l = 0.

Definition metric_names : list string :=
  ["gobalancer_requests_total"; "gobalancer_request_duration_seconds"; "gobalancer_active_connections";
   "gobalancer_backend_health"; "gobalancer_circuit_breaker_state"; "gobalancer_upstream_errors_total"].

(** *** One update of the collector *)

Lemma requests_step ls c w :
  collector_ok c → length ls = 2%nat → Forall label_ok ls →
  ∃ v, on_RequestsTotal (counter_inc ls) (c, w) = (Ret tt, (mkCollector v (RequestDuration c) (ActiveConns c)
      (BackendHealth c) (CircuitState c) (UpstreamErrors c), w)) ∧
    counter_arity v = 2%nat ∧ ∀ l, counter_value v l = counter_value (RequestsTotal c) l + at_label ls l 1.
Proof.
  intros (Ha & _) Hn Hl. destruct (counter_inc_at ls (RequestsTotal c)) as (v & E & Hv & Hc); [by rewrite Ha|done|].
  exists v. split_and!; [|by rewrite Hv|done]. unfold on_RequestsTotal, must. cbn [fst snd]. by rewrite E.
Qed.

Lemma errors_step ls c w :
  collector_ok c → length ls = 2%nat → Forall label_ok ls →
  ∃ v, on_UpstreamErrors (counter_inc ls) (c, w) = (Ret tt, (mkCollector (RequestsTotal c) (RequestDuration c)
      (ActiveConns c) (BackendHealth c) (CircuitState c) v, w)) ∧
    counter_arity v = 2%nat ∧ ∀ l, counter_value v l = counter_value (UpstreamErrors c) l + at_label ls l 1.
Proof.
  intros (_ & _ & _ & _ & _ & Ha) Hn Hl.
  destruct (counter_inc_at ls (UpstreamErrors c)) as (v & E & Hv & Hc); [by rewrite Ha|done|].
  exists v. split_and!; [|by rewrite Hv|done]. unfold on_UpstreamErrors, must. cbn [fst snd]. by rewrite E.
Qed.

Lemma duration_step ls x c w :
  collector_ok c → length ls = 2%nat → Forall label_ok ls →
  ∃ v, on_RequestDuration (histogram_observe ls x) (c, w) = (Ret tt, (mkCollector (RequestsTotal c) v (ActiveConns c)
      (BackendHealth c) (CircuitState c) (UpstreamErrors c), w)) ∧
    histogram_arity v = 2%nat ∧ ∀ l, histogram_count v l = histogram_count (RequestDuration c) l + at_label ls l 1.
Proof.
  intros (_ & Ha & _) Hn Hl.
  destruct (histogram_observe_at ls x (RequestDuration c)) as (v & E & Hv & Hc); [by rewrite Ha|done|].
  exists v. split_and!; [|by rewrite Hv|done]. unfold on_RequestDuration, must. cbn [fst snd]. by rewrite E.
Qed.

(** Up and down on the gauge of the connections. *)
Lemma conns_step (inc : bool) id c w :
  collector_ok c → label_ok id →
  ∃ v, on_ActiveConns (if inc then gauge_inc [id] else gauge_dec [id]) (c, w) =
      (Ret tt, (mkCollector (RequestsTotal c) (RequestDuration c) v (BackendHealth c) (CircuitState c) (UpstreamErrors c), w)) ∧
    gauge_arity v = 1%nat ∧
    ∀ l, gauge_value v l = gauge_value (ActiveConns c) l + at_label [id] l (if inc then 1 else -1).
Proof.
  intros (_ & _ & Ha & _) Hl.
  assert (∃ v, (if inc then gauge_inc [id] else gauge_dec [id]) (ActiveConns c) = Some v ∧ gauge_arity v = gauge_arity (ActiveConns c) ∧
    ∀ l, gauge_value v l = gauge_value (ActiveConns c) l + at_label [id] l (if inc then 1 else -1)) as (v & E & Hv & Hg).
  { destruct inc; [apply gauge_inc_at|apply gauge_dec_at]; try done; by constructor. }
  exists v. split_and!; [|by rewrite Hv|done]. unfold on_ActiveConns, must. cbn [fst snd]. by rewrite E.
Qed.

(** The body of the instrumented handler, after the gauge went up. *)
Lemma instrumented_body id route next r t1 t2 c :
  collector_ok c → label_ok id → label_ok route → disciplined Fresh (next r) →
  let '(o, w) := exec (next r) RW_new in
  let status := resp_Status (RW_finish w) in
  let counted d := match o with Ret _ => d | Panic _ => 0 end in
  ∃ c', (status ← serve_recorded next r;
      on_RequestsTotal (counter_inc [id; StatusClass status]);;
      on_RequestDuration (histogram_observe [id; route] (Duration_Seconds (Time_Sub t2 t1)));;
      if decide (500 ≤ status) then on_UpstreamErrors (counter_inc [id; itoa status]) else mret tt)
      (c, RW_new) = (o, (c', w)) ∧ collector_ok c' ∧ ActiveConns c' = ActiveConns c ∧
    ∀ l, counter_value (RequestsTotal c') l =
        counter_value (RequestsTotal c) l + counted (at_label [id; StatusClass status] l 1) ∧
      histogram_count (RequestDuration c') l =
        histogram_count (RequestDuration c) l + counted (at_label [id; route] l 1) ∧
      counter_value (UpstreamErrors c') l = counter_value (UpstreamErrors c) l +
        counted (if decide (500 ≤ status) then at_label [id; itoa status] l 1 else 0).
Proof.
  intros Hc Hid Hro Hd. pose proof (serve_recorded_fresh next r c Hd) as E.
  destruct (exec (next r) RW_new) as [o w]. cbn [fst snd] in E. cbv zeta. destruct o as [[]|why].
  2: { exists c. rewrite (bind_Panic _ _ _ _ _ E). split_and!; [done..|]. intros l. split_and!; lia. }
  rewrite (bind_Ret _ _ _ _ _ E). set (status := resp_Status (RW_finish w)).
  destruct (requests_step [id; StatusClass status] c w Hc) as (v1 & E1 & A1 & V1); [done| |].
  { repeat constructor; [done|]. apply ascii_label_ok, class_ascii. }
  rewrite (bind_Ret _ _ _ _ _ E1). set (c1 := mkCollector v1 _ _ _ _ _).
  assert (collector_ok c1) as Hc1 by (unfold collector_ok in *; cbn; tauto).
  destruct (duration_step [id; route] (Duration_Seconds (Time_Sub t2 t1)) c1 w Hc1) as (v2 & E2 & A2 & V2);
    [done|by repeat constructor|].
  rewrite (bind_Ret _ _ _ _ _ E2). set (c2 := mkCollector _ v2 _ _ _ _).
  assert (collector_ok c2) as Hc2 by (unfold collector_ok in *; cbn in *; tauto).
  destruct (decide (500 ≤ status)) as [H5|H5].
  - destruct (errors_step [id; itoa status] c2 w Hc2) as (v3 & E3 & A3 & V3); [done| |].
    { repeat constructor; [done|]. apply ascii_label_ok, itoa_ascii. }
    eexists. split; [exact E3|]. split; [unfold collector_ok in *; cbn in *; tauto|]. split; [done|].
    intros l. split_and!; [apply V1|apply V2|apply V3].
  - exists c2. split; [done|]. split; [done|]. split; [done|]. intros l. split_and!; [apply V1|apply V2|cbn; lia].
Qed.

(** ** Properties *)

(** The metrics are registered once: on a registry without the names of the
    program, [New] returns collectors that count nothing yet, each with the
    label names its users give values for, and registers exactly those names;
    calling it again panics. *)
Theorem Metrics_New_once R :
  Forall (λ n, ¬ registered R n) metric_names →
  ∃ c R', Metrics_New R = (Ret c, R') ∧ collector_ok c ∧ collector_zero c ∧
    (∀ n, registered R' n ↔ n ∈ metric_names ∨ registered R n) ∧ Metrics_New R' = (Panic Explicit, R').
Proof.
  unfold metric_names. rewrite !Forall_cons. intros (F1 & F2 & F3 & F4 & F5 & F6 & _).
  pose proof (register_counter_fresh "gobalancer_requests_total"
      "Total number of proxied requests." ["backend"; "status_class"] R F1)
    as (v1 & R1 & E1 & A1 & Z1 & N1).
  edestruct (register_histogram_fresh "gobalancer_request_duration_seconds"
      "Latency of proxied requests." ["backend"; "route"] R1)
    as (v2 & R2 & E2 & A2 & Z2 & N2); [rewrite N1; intros [?|?]; [discriminate|by apply F2]|].
  edestruct (register_gauge_fresh "gobalancer_active_connections"
      "Number of active upstream connections per backend." ["backend"] R2)
    as (v3 & R3 & E3 & A3 & Z3 & N3); [rewrite N2, N1; intros [?|[?|?]]; [discriminate..|by apply F3]|].
  edestruct (register_gauge_fresh "gobalancer_backend_health"
      "Backend health: 0=down, 1=up, 2=probation." ["backend"] R3)
    as (v4 & R4 & E4 & A4 & Z4 & N4); [rewrite N3, N2, N1; intros [?|[?|[?|?]]]; [discriminate..|by apply F4]|].
  edestruct (register_gauge_fresh "gobalancer_circuit_breaker_state"
      "Circuit breaker state: 0=closed, 1=open, 2=half-open." ["backend"] R4)
    as (v5 & R5 & E5 & A5 & Z5 & N5);
    [rewrite N4, N3, N2, N1; intros [?|[?|[?|[?|?]]]]; [discriminate..|by apply F5]|].
  edestruct (register_counter_fresh "gobalancer_upstream_errors_total"
      "Number of upstream errors per backend and type." ["backend"; "type"] R5)
    as (v6 & R6 & E6 & A6 & Z6 & N6);
    [rewrite N5, N4, N3, N2, N1; intros [?|[?|[?|[?|[?|?]]]]]; [discriminate..|by apply F6]|].
  exists (mkCollector v1 v2 v3 v4 v5 v6), R6. split_and!; try done.
  - unfold Metrics_New. repeat (erewrite bind_Ret by (unfold must_register; first
      [rewrite E1|rewrite E2|rewrite E3|rewrite E4|rewrite E5|rewrite E6]; reflexivity)). done.
  - intros n. rewrite N6, N5, N4, N3, N2, N1, !elem_of_cons, elem_of_nil. tauto.
  - unfold Metrics_New. apply bind_Panic. unfold must_register. rewrite register_counter_again; [done|].
    rewrite N6, N5, N4, N3, N2, N1. tauto.
Qed.

(** C40. The instrumentation is accurate and never fails, for labels that are
    valid texts, on collectors with the label names of [New], and around every
    handler that does not block for ever and uses its writer in order: informational statuses first, if
    any, and then an explicit final status, or else at most one final status,
    before the body.  [InstrumentHandler] then leaves the response and the
    outcome as they are, gives every vector the number of label values it was
    registered with, counts the request once under the class of the status that
    the client gets, observes its duration once, counts an upstream error
    exactly for statuses from 500 on, and leaves the connection gauge where it
    was; when the handler panics, only the gauge moves, and it comes back. *)
Theorem instrumentation_is_accurate id route next r t1 t2 c :
  collector_ok c → label_ok id → label_ok route → disciplined Fresh (next r) →
  (exec (next r) RW_new).1 ≠ Panic Deadlock →
  let '(o, w) := exec (next r) RW_new in
  let status := resp_Status (RW_finish w) in
  let counted d := match o with Ret _ => d | Panic _ => 0 end in
  ∃ c', InstrumentHandler id route next r t1 t2 (c, RW_new) = (o, (c', w)) ∧ collector_ok c' ∧
    ∀ l, gauge_value (ActiveConns c') l = gauge_value (ActiveConns c) l ∧
      counter_value (RequestsTotal c') l =
        counter_value (RequestsTotal c) l + counted (at_label [id; StatusClass status] l 1) ∧
      histogram_count (RequestDuration c') l =
        histogram_count (RequestDuration c) l + counted (at_label [id; route] l 1) ∧
      counter_value (UpstreamErrors c') l = counter_value (UpstreamErrors c) l +
        counted (if decide (500 ≤ status) then at_label [id; itoa status] l 1 else 0).
Proof.
  intros Hc Hid Hro Hd Hdl. destruct (conns_step true id c RW_new Hc Hid) as (v1 & E1 & A1 & V1).
  set (c1 := mkCollector _ _ v1 _ _ _) in E1. assert (collector_ok c1) as Hc1 by (unfold collector_ok in *; cbn; tauto).
  pose proof (instrumented_body id route next r t1 t2 c1 Hc1 Hid Hro Hd) as Hbody.
  destruct (exec (next r) RW_new) as [o w]. destruct Hbody as (c2 & E2 & Hc2 & Hg & Hcounts).
  destruct (conns_step false id c2 w Hc2 Hid) as (v3 & E3 & A3 & V3).
  exists (mkCollector (RequestsTotal c2) (RequestDuration c2) v3 (BackendHealth c2) (CircuitState c2) (UpstreamErrors c2)).
  split_and!.
  - unfold InstrumentHandler. rewrite (bind_Ret _ _ _ _ _ E1). exact (defer_result _ _ _ _ _ _ E2 Hdl E3).
  - unfold collector_ok in *. cbn in *. tauto.
  - intros l. split; [|apply Hcounts]. specialize (V1 l). specialize (V3 l). rewrite Hg in V3. cbn in *.
    unfold at_label in *. case_decide; lia.
Qed.

(** Without that order the count is wrong: a handler that sends an informational
    status, say 103, and then a body with no status of its own is answered 200
    and counted under 1xx. *)
Theorem informational_miscounted id route body t1 t2 c code r :
  collector_ok c → label_ok id → label_ok route → informational code →
  let next := λ _ : Request, PWriteHeader code (PWrite body PDone) in
  let resp := RW_finish (exec (next r) RW_new).2 in
  resp = mkResponse 200 ∅ body ∧
  ∃ c', InstrumentHandler id route next r t1 t2 (c, RW_new) = (Ret tt, (c', (exec (next r) RW_new).2)) ∧
    counter_value (RequestsTotal c') [id; "1xx"] = counter_value (RequestsTotal c) [id; "1xx"] + 1 ∧
    counter_value (RequestsTotal c') [id; "2xx"] = counter_value (RequestsTotal c) [id; "2xx"].
Proof.
  intros Hc Hid Hro Hcode next resp. destruct (informational_exec code body Hcode) as [E Ew].
  split; [by unfold resp, next; rewrite E|].
  destruct (conns_step true id c RW_new Hc Hid) as (v1 & E1 & A1 & V1).
  set (c1 := mkCollector _ _ v1 _ _ _) in E1. assert (collector_ok c1) as Hc1 by (unfold collector_ok in *; cbn; tauto).
  destruct (requests_step [id; StatusClass code] c1 (exec (next r) RW_new).2 Hc1) as (v2 & E2 & A2 & V2); [done| |].
  { repeat constructor; [done|]. apply ascii_label_ok, class_ascii. }
  set (c2 := mkCollector v2 _ _ _ _ _) in E2. assert (collector_ok c2) as Hc2 by (unfold collector_ok in *; cbn; tauto).
  destruct (duration_step [id; route] (Duration_Seconds (Time_Sub t2 t1)) c2 (exec (next r) RW_new).2 Hc2)
    as (v3 & E3 & A3 & V3); [done|by repeat constructor|].
  set (c3 := mkCollector _ v3 _ _ _ _) in E3. assert (collector_ok c3) as Hc3 by (unfold collector_ok in *; cbn in *; tauto).
  destruct (conns_step false id c3 (exec (next r) RW_new).2 Hc3 Hid) as (v4 & E4 & A4 & V4).
  assert (StatusClass code = "1xx") as Hcl by (unfold StatusClass; rewrite decide_True by (destruct Hcode; lia); done).
  rewrite Hcl in *.
  exists (mkCollector v2 v3 v4 (BackendHealth c) (CircuitState c) (UpstreamErrors c)). split_and!.
  - unfold InstrumentHandler. rewrite (bind_Ret _ _ _ _ _ E1). refine (defer_result _ _ _ _ _ _ _ _ E4); [|done].
    rewrite (bind_Ret _ _ _ _ _ (Ew (c1, RW_new) r eq_refl)). rewrite Hcl, (bind_Ret _ _ _ _ _ E2), (bind_Ret _ _ _ _ _ E3).
    rewrite decide_False by (destruct Hcode; lia). done.
  - rewrite V2. cbn. unfold at_label. by rewrite decide_True.
  - rewrite V2. cbn. unfold at_label. rewrite decide_False by done. lia.
Qed.
End laws.

(** ** Witnesses *)

(** A library with vectors as maps from label values, that checks their number. *)
Definition ex_vec : Type := nat * gmap (list string) Z.

Definition ex_add (d : Z) (ls : list string) (v : ex_vec) : option ex_vec :=
  if decide (length ls = v.1) then Some (v.1, <[ls := default 0 (v.2 !! ls) + d]> v.2) else None.

Definition ex_register (name help : string) (ls : list string) (R : list string) : option (ex_vec * list string) :=
  if decide (name ∈ R) then None else Some ((length ls, ∅), name :: R).

#[local] Instance ex_prometheus : Prometheus := {|
  registry_t := list string;
  counter_vec := ex_vec; gauge_vec := ex_vec; histogram_vec := ex_vec;
  register_counter := ex_register; register_gauge := ex_register; register_histogram := ex_register;
  counter_inc := ex_add 1; gauge_inc := ex_add 1; gauge_dec := ex_add (-1);
  histogram_observe ls _ := ex_add 1 ls;
|}.

Lemma ex_add_at d ls v :
  length ls = v.1 → ∃ v', ex_add d ls v = Some v' ∧ v'.1 = v.1 ∧
    ∀ l, default 0 (v'.2 !! l) = default 0 (v.2 !! l) + at_label ls l d.
Proof.
  intros Hn. unfold ex_add. rewrite decide_True by done. eexists. split_and!; [done..|]. intros l. cbn.
  unfold at_label. rewrite lookup_insert. repeat case_decide; subst; try done; cbn; lia.
Qed.

Lemma ex_register_fresh n help ls R :
  n ∉ R → ∃ v R', ex_register n help ls R = Some (v, R') ∧ v.1 = length ls ∧
    (∀ l, default 0 (v.2 !! l) = 0) ∧ ∀ n', n' ∈ R' ↔ n' = n ∨ n' ∈ R.
Proof.
  intros Hn. unfold ex_register. rewrite decide_False by done. eexists _, _. split_and!; [done..|].
  intros n'. apply elem_of_cons.
Qed.

#[local, program] Instance ex_prometheus_laws : PrometheusLaws := {|
  registered (R : list string) n := n ∈ R;
  label_ok _ := True;
  counter_arity (v : ex_vec) := v.1; gauge_arity (v : ex_vec) := v.1; histogram_arity (v : ex_vec) := v.1;
  counter_value (v : ex_vec) l := default 0 (v.2 !! l);
  gauge_value (v : ex_vec) l := default 0 (v.2 !! l);
  histogram_count (v : ex_vec) l := default 0 (v.2 !! l);
|}.
Next Obligation. done. Qed.
Next Obligation. apply ex_register_fresh. Qed.
Next Obligation. apply ex_register_fresh. Qed.
Next Obligation. apply ex_register_fresh. Qed.
Next Obligation. intros n help ls R Hn. cbn. unfold ex_register. by rewrite decide_True. Qed.
Next Obligation. intros ls v Hn _. by apply ex_add_at. Qed.
Next Obligation. intros ls v Hn _. by apply ex_add_at. Qed.
Next Obligation. intros ls v Hn _. by apply ex_add_at. Qed.
Next Obligation. intros ls x v Hn _. by apply ex_add_at. Qed.

Definition ex_collector : Collector :=
  mkCollector (2%nat, ∅) (2%nat, ∅) (1%nat, ∅) (1%nat, ∅) (1%nat, ∅) (2%nat, ∅).

(** A registry with a name of another package. *)
Definition ex_registry : @registry_t ex_prometheus := ["go_goroutines"].

Lemma Metrics_New_once_witness :
  ∃ c R', Metrics_New ex_registry = (Ret c, R') ∧ collector_ok c ∧ collector_zero c ∧
    (∀ n, registered R' n ↔ n ∈ metric_names ∨ registered ex_registry n) ∧
    Metrics_New R' = (Panic Explicit, R').
Proof.
  apply (Metrics_New_once ex_registry).
  repeat constructor; intros [H|H]%elem_of_cons; (discriminate || by apply elem_of_nil in H).
Defined.

Lemma instrumentation_is_accurate_witness :
  ∃ c', InstrumentHandler "b0" "/x" ex_handler ex_client 0 (3 * Second) (ex_collector, RW_new) =
      (Ret tt, (c', (exec (ex_handler ex_client) RW_new).2)) ∧
    counter_value (RequestsTotal c') ["b0"; "4xx"] = 1 ∧ counter_value (UpstreamErrors c') ["b0"; "404"] = 0 ∧
    gauge_value (ActiveConns c') ["b0"] = 0.
Proof.
  destruct (instrumentation_is_accurate "b0" "/x" ex_handler ex_client 0 (3 * Second) ex_collector)
    as (c' & E & _ & Hc).
  - repeat split.
  - exact I.
  - exact I.
  - vm_compute. repeat split; discriminate.
  - discriminate.
  - exists c'. split; [exact E|].
    destruct (Hc ["b0"; "4xx"]) as (_ & -> & _). destruct (Hc ["b0"; "404"]) as (_ & _ & _ & ->).
    destruct (Hc ["b0"]) as (-> & _). split; [|split]; vm_compute; reflexivity.
Defined.
