(* ===== verification/ProxyConc.v ===== *)
(** The HTTP proxy under concurrency: the requests that [main] serves with
    round robin (internal/proxy/http.go, internal/backend/pool.go,
    internal/balancer/roundrobin.go), cut at their atomic operations and lock
    operations and interleaved with each other, with health changes and with
    goroutines that change the pool, under an arbitrary scheduler.  The exchange
    with the upstream lasts until the environment ends it, and may panic. *)

From S2P Require Export HttpProxy SelRoundRobin.

#[local] Open Scope Z_scope.

(** ** Requests in progress *)

(** Where the goroutine of a request is in [ServeHTTP]; each constructor is the
    operation it does next. *)
Inductive qpc :=
| Q_start                          (* pool.Healthy: RLock, start of the loop *)
| Q_scan (out rest : list loc)     (* b.IsHealthy() for the next backend, or RUnlock *)
| Q_select (hs : list loc)         (* selector.Next on the local slice *)
| Q_inc (b : loc)                  (* b.IncConns() *)
| Q_flight (b : loc)               (* in rp.ServeHTTP: waits for the exchange to end *)
| Q_release (b : loc) (ok : bool)  (* the deferred b.DecConns(), returning or unwinding *)
| Q_answered (b : loc)             (* returned *)
| Q_aborted (b : loc)              (* unwound with the panic of the exchange *)
| Q_unavailable                    (* returned 502: no healthy backends *)
| Q_panicked.                      (* unwound with a panic of the proxy itself *)

#[export] Instance qpc_eq_dec : EqDecision qpc.
Proof. solve_decision. Defined.

(** What [Add] and [Remove] do to the pool. *)
Inductive pool_write :=
| PAdd (l : loc)
| PRemove (id : string).

(** Where a goroutine of the admin server is. *)
Inductive wpc :=
| W_new (b : Backend)         (* backend.New *)
| W_lock (w : pool_write)     (* mu.Lock(): waits for other writers, then keeps new readers out *)
| W_wait (w : pool_write)     (* mu.Lock(): waits for the readers *)
| W_write (w : pool_write)    (* the change *)
| W_unlock                    (* mu.Unlock() *)
| W_done.

#[export] Instance pool_write_eq_dec : EqDecision pool_write.
Proof. solve_decision. Defined.

Record pconf := mkPConf {
  cf_store : store;
  cf_pool : Pool;
  cf_rr : RoundRobin;
  cf_reqs : gmap nat qpc;
  cf_writers : gmap nat wpc;
}.

(** One operation of a goroutine, on the state it shares with the others. *)
Definition serve_local (r : Request) (q : qpc) (σ : store) (p : Pool) (rr : RoundRobin)
    : qpc * store * RoundRobin :=
  match q with
  | Q_start => (Q_scan [] (backends p), σ, rr)
  | Q_scan out [] => (Q_select out, σ, rr)
  | Q_scan out (b :: rest) =>
      match Backend_IsHealthy σ b with
      | Ret ok => (Q_scan (if (ok : bool) then out ++ [b] else out) rest, σ, rr)
      | Panic _ => (Q_panicked, σ, rr)
      end
  | Q_select hs =>
      if decide (zlen hs = 0) then (Q_unavailable, σ, rr)
      else
        match RoundRobin_Next r hs σ rr with
        | (Ret (Some b, None), rr') => (Q_inc b, σ, rr')
        | (Ret _, rr') => (Q_unavailable, σ, rr')
        | (Panic _, rr') => (Q_panicked, σ, rr')
        end
  | Q_inc b =>
      match Backend_IncConns b σ with
      | (Ret _, σ') => (Q_flight b, σ', rr)
      | (Panic _, σ') => (Q_panicked, σ', rr)
      end
  | Q_release b ok =>
      match Backend_DecConns b σ with
      | (Ret _, σ') => (if ok then Q_answered b else Q_aborted b, σ', rr)
      | (Panic _, σ') => (Q_panicked, σ', rr)
      end
  | Q_flight _ | Q_answered _ | Q_aborted _ | Q_unavailable | Q_panicked => (q, σ, rr)
  end.

(** The end of the exchange of a request: an answer, of the upstream or of the
    error handler, or a panic. *)
Definition reply_local (ok : bool) (q : qpc) : qpc :=
  match q with Q_flight b => Q_release b ok | _ => q end.

Definition pool_write_do (σ : store) (w : pool_write) (p : Pool) : Pool :=
  match w with PAdd l => (Pool_Add l p).2 | PRemove id => (Pool_Remove σ id p).2 end.

(** What the scheduler can let happen: an operation of a request, the end of its
    exchange, a health checker setting the health of a backend, or an operation
    of a goroutine that changes the pool. *)
Inductive action :=
| Serve (t : nat)
| Reply (t : nat) (ok : bool)
| ChangeHealth (l : loc) (h : Health)
| Writer (t : nat).

#[export] Instance action_eq_dec : EqDecision action.
Proof. solve_decision. Defined.

Definition pcs (c : pconf) : list qpc := (map_to_list (cf_reqs c)).*2.
Definition wcs (c : pconf) : list wpc := (map_to_list (cf_writers c)).*2.

(** The read lock of the pool is held; a writer keeps new readers out. *)
Definition reading (q : qpc) : bool := match q with Q_scan _ _ => true | _ => false end.
Definition announcing (w : wpc) : bool :=
  match w with W_wait _ | W_write _ | W_unlock => true | _ => false end.
Definition read_locked (c : pconf) : Prop := Exists (λ q, reading q = true) (pcs c).
Definition write_announced (c : pconf) : Prop := Exists (λ w, announcing w = true) (wcs c).
#[export] Instance read_locked_dec c : Decision (read_locked c).
Proof. unfold read_locked. apply _. Defined.
#[export] Instance write_announced_dec c : Decision (write_announced c).
Proof. unfold write_announced. apply _. Defined.

(** One operation of a goroutine that changes the pool. *)
Definition writer_act (t : nat) (w : wpc) (c : pconf) : pconf :=
  let to w' := mkPConf (cf_store c) (cf_pool c) (cf_rr c) (cf_reqs c) (<[t := w']> (cf_writers c)) in
  match w with
  | W_new b =>
      match alloc b (cf_store c) with
      | (Ret l, σ') => mkPConf σ' (cf_pool c) (cf_rr c) (cf_reqs c) (<[t := W_lock (PAdd l)]> (cf_writers c))
      | (Panic _, _) => c
      end
  | W_lock p => if decide (write_announced c) then c else to (W_wait p)
  | W_wait p => if decide (read_locked c) then c else to (W_write p)
  | W_write p =>
      mkPConf (cf_store c) (pool_write_do (cf_store c) p (cf_pool c)) (cf_rr c) (cf_reqs c)
        (<[t := W_unlock]> (cf_writers c))
  | W_unlock => to W_done
  | W_done => c
  end.

(** [RLock] waits while a writer is announced. *)
Definition act (r : Request) (a : action) (c : pconf) : pconf :=
  match a with
  | Serve t =>
      match cf_reqs c !! t with
      | None => c
      | Some q =>
          if decide (q = Q_start ∧ write_announced c) then c
          else
            let '(q', σ', rr') := serve_local r q (cf_store c) (cf_pool c) (cf_rr c) in
            mkPConf σ' (cf_pool c) rr' (<[t := q']> (cf_reqs c)) (cf_writers c)
      end
  | Reply t ok =>
      match cf_reqs c !! t with
      | None => c
      | Some q => mkPConf (cf_store c) (cf_pool c) (cf_rr c) (<[t := reply_local ok q]> (cf_reqs c)) (cf_writers c)
      end
  | ChangeHealth l h =>
      mkPConf (Backend_SetHealth l h (cf_store c)).2 (cf_pool c) (cf_rr c) (cf_reqs c) (cf_writers c)
  | Writer t =>
      match cf_writers c !! t with
      | None => c
      | Some w => writer_act t w c
      end
  end.

Definition prun (r : Request) (acts : list action) (c : pconf) : pconf :=
  fold_left (λ c a, act r a c) acts c.

(** ** Observations *)

(** The backend a request was sent to. *)
Definition picked (q : qpc) : option loc :=
  match q with
  | Q_inc b | Q_flight b | Q_release b _ | Q_answered b | Q_aborted b => Some b
  | _ => None
  end.

Definition finished (q : qpc) : Prop :=
  match q with Q_answered _ | Q_aborted _ | Q_unavailable | Q_panicked => True | _ => False end.

(** The backend a request is counted on: from [IncConns] to [DecConns]. *)
Definition holding (q : qpc) : option loc :=
  match q with Q_flight b | Q_release b _ => Some b | _ => None end.

(** The backends picked so far, one entry per request, in no order. *)
Definition picks (c : pconf) : list loc := omap picked (pcs c).

(** How many requests a backend has in flight. *)
Definition inflight (l : loc) (c : pconf) : nat := length (filter (λ q, holding q = Some l) (pcs c)).

(** A writer that has not begun. *)
Definition w_starting (w : wpc) : Prop :=
  match w with W_new _ | W_lock (PRemove _) => True | _ => False end.

(** Requests that have just arrived, and writers that have not begun, on a pool
    of live backends, with room in the counter for all requests. *)
Definition arriving (c : pconf) : Prop :=
  live (cf_store c) (backends (cf_pool c)) ∧
  map_Forall (λ _ q, q = Q_start) (cf_reqs c) ∧
  map_Forall (λ _ w, w_starting w) (cf_writers c) ∧
  0 ≤ rr_counter (cf_rr c) ∧
  rr_counter (cf_rr c) + Z.of_nat (length (pcs c)) ≤ max_int64.

(** ** Lemmas *)

(** Moving one goroutine exchanges one entry of the program counters. *)
Lemma pcs_insert {A} (m : gmap nat A) t q q' :
  m !! t = Some q →
  ∃ rest, (map_to_list m).*2 ≡ₚ q :: rest ∧ (map_to_list (<[t := q']> m)).*2 ≡ₚ q' :: rest.
Proof.
  intros H. exists (map_to_list (delete t m)).*2. split.
  - rewrite <- (insert_delete_id m t q H) at 1.
    rewrite map_to_list_insert by apply lookup_delete_eq. done.
  - rewrite <- insert_delete_eq, map_to_list_insert by apply lookup_delete_eq. done.
Qed.

Lemma pcs_elem c t q : cf_reqs c !! t = Some q → q ∈ pcs c.
Proof.
  intros H. unfold pcs. apply list_elem_of_fmap. exists (t, q). split; [done|].
  by apply elem_of_map_to_list.
Qed.

#[export] Instance omap_picked_proper : Proper ((≡ₚ) ==> (≡ₚ)) (omap picked).
Proof. intros l l' H. by rewrite H. Qed.

Lemma length_picked qs : (length (omap picked qs) ≤ length qs)%nat.
Proof. induction qs as [|q qs IH]; [done|]. csimpl. case_match; csimpl; lia. Qed.

(** The backends a goroutine refers to are live. *)
Definition pc_live (σ : store) (q : qpc) : Prop :=
  match q with
  | Q_scan out rest => live σ out ∧ live σ rest
  | Q_select hs => live σ hs
  | Q_inc b | Q_flight b | Q_release b _ | Q_answered b | Q_aborted b => is_Some (σ !! b)
  | Q_start | Q_unavailable | Q_panicked => True
  end.

(** So is the backend a writer adds. *)
Definition w_live (σ : store) (w : wpc) : Prop :=
  match w with
  | W_lock (PAdd l) | W_wait (PAdd l) | W_write (PAdd l) => is_Some (σ !! l)
  | _ => True
  end.

Lemma live_weaken σ σ' bs : dom σ ⊆ dom σ' → live σ bs → live σ' bs.
Proof.
  intros Hd H. eapply Forall_impl; [exact H|]. intros l. rewrite <- !elem_of_dom. set_solver.
Qed.

Lemma pc_live_weaken σ σ' q : dom σ ⊆ dom σ' → pc_live σ q → pc_live σ' q.
Proof.
  intros Hd. destruct q; simpl; rewrite <- ?elem_of_dom; try done; try apply Hd.
  - intros []. eauto using live_weaken.
  - eauto using live_weaken.
Qed.

Lemma w_live_weaken σ σ' w : dom σ ⊆ dom σ' → w_live σ w → w_live σ' w.
Proof. intros Hd. destruct w as [b|[l|id]|[l|id]|[l|id]| |]; simpl; rewrite <- ?elem_of_dom; try done; apply Hd. Qed.

(** What one entry contributes to the number of picks and of requests in
    flight. *)
Definition pick_count (q : qpc) : nat := length (option_list (picked q)).
Definition flight_count (l : loc) (q : qpc) : Z := if decide (holding q = Some l) then 1 else 0.

Lemma update_conns (σ : store) l k b :
  σ !! l = Some b →
  ∀ l0 b0, σ !! l0 = Some b0 → is_int64 (activeConns b0) →
  ∃ b', <[l := set_activeConns (wrap64 (activeConns b + k)) b]> σ !! l0 = Some b' ∧
    activeConns b' = wrap64 (activeConns b0 + (if decide (l = l0) then k else 0)).
Proof.
  intros Hb l0 b0 H0 Hr. destruct (decide (l = l0)) as [<-|Hne].
  - simplify_eq. eexists. by rewrite lookup_insert_eq.
  - exists b0. rewrite lookup_insert_ne by done. split; [done|].
    rewrite Z.add_0_r. by rewrite wrap64_id.
Qed.

Lemma RoundRobin_Next_inv r hs σ rr :
  hs ≠ [] → 0 ≤ rr_counter rr < max_int64 →
  ∃ b, b ∈ hs ∧ RoundRobin_Next r hs σ rr =
    (Ret (Some b, None), mkRoundRobin (rr_counter rr + 1)).
Proof.
  intros Hhs Hc. destruct rr as [n]. simpl in *.
  destruct (RoundRobin_Next_step r hs σ n) as (b & Hb & E); [done|lia|].
  exists b. split; [by eapply list_elem_of_lookup_2|].
  rewrite E, wrap64_id by (unfold is_int64, min_int64, max_int64 in *; lia). done.
Qed.

(** One operation of a request on live backends: it does not unwind, it moves
    the round-robin counter when it picks, and the connection count of each
    backend by what it adds to the requests in flight. *)
Lemma serve_local_spec r q σ p rr q' σ' rr' :
  serve_local r q σ p rr = (q', σ', rr') →
  live σ (backends p) → pc_live σ q → q ≠ Q_panicked → 0 ≤ rr_counter rr →
  (∀ hs, q = Q_select hs → rr_counter rr < max_int64) →
  pc_live σ' q' ∧ q' ≠ Q_panicked ∧ dom σ' = dom σ ∧
  rr_counter rr' + Z.of_nat (pick_count q) = rr_counter rr + Z.of_nat (pick_count q') ∧
  ∀ l b, σ !! l = Some b → is_int64 (activeConns b) →
    ∃ b', σ' !! l = Some b' ∧
      activeConns b' = wrap64 (activeConns b + (flight_count l q' - flight_count l q)).
Proof.
  intros E Hp Hq Hn Hc Hm.
  assert (∀ l b, σ !! l = Some b → is_int64 (activeConns b) →
    ∃ b', σ !! l = Some b' ∧ activeConns b' = wrap64 (activeConns b + (0 - 0))) as Hid.
  { intros l b H Hr. exists b. split; [done|]. change (0 - 0) with 0.
    rewrite Z.add_0_r. by rewrite wrap64_id. }
  destruct q as [|out [|b rest]|hs|b|b|b ok|b|b| |]; simpl in *; simplify_eq;
    unfold flight_count, pick_count; simpl.
  - split_and!; try done. constructor.
  - destruct Hq. split_and!; done.
  - destruct Hq as [Ho Hr]. apply Forall_cons in Hr as [Hb Hr].
    rewrite IsHealthy_live in E by done. simplify_eq.
    split_and!; try done. split; [|done]. case_bool_decide; [|done].
    unfold live. rewrite Forall_app. auto using Forall_singleton.
  - case_decide as Hz; simplify_eq; [split_and!; done|]. rewrite zlen_zero in Hz.
    destruct (RoundRobin_Next_inv r hs σ rr) as (b & Hb & E'); [done|split; [done|eauto]|].
    rewrite E' in E. simplify_eq. simpl. split_and!; try done; [|lia].
    by apply (live_elem _ hs).
  - destruct Hq as [bk Hbk]. unfold Backend_IncConns in E. rewrite (update_live _ _ _ _ Hbk) in E.
    simplify_eq. simpl. split_and!; try done.
    + rewrite lookup_insert_eq. eauto.
    + rewrite dom_insert_lookup_L; eauto.
    + intros l b0 H0 Hr. destruct (update_conns σ b 1 bk Hbk l b0 H0 Hr) as (b' & ? & ?).
      exists b'. split; [done|]. etransitivity; [done|]. do 2 f_equal. repeat case_decide; naive_solver.
  - split_and!; try done. intros l b0. unfold flight_count. simpl. rewrite Z.sub_diag. apply Hid.
  - destruct Hq as [bk Hbk]. unfold Backend_DecConns in E. rewrite (update_live _ _ _ _ Hbk) in E.
    assert (holding q' = None ∧ picked q' = Some b ∧ (q' = Q_answered b ∨ q' = Q_aborted b)) as (Hh & Hpk & Hq').
    { destruct ok; simplify_eq/=; auto. }
    destruct ok; simplify_eq/=; (split_and!; try done; [by rewrite lookup_insert_eq; eauto|rewrite dom_insert_lookup_L; eauto|];
      intros l b0 H0 Hr; destruct (update_conns σ b (-1) bk Hbk l b0 H0 Hr) as (b' & ? & ?);
      exists b'; (split; [done|]); etransitivity; [done|]; do 2 f_equal; repeat case_decide; naive_solver).
  - split_and!; done.
  - split_and!; done.
  - split_and!; done.
Qed.

Lemma Pool_Remove_subset σ id p l :
  l ∈ backends (Pool_Remove σ id p).2 → l ∈ backends p.
Proof.
  unfold Pool_Remove. go_step. destruct (find_id σ id 0 (backends p)) as [[i|]|w]; simpl; try done.
  intros [H|H]%elem_of_app; [by eapply elem_of_take in H as (?&?&?); eauto using list_elem_of_lookup_2|].
  eapply subseteq_drop; eauto.
Qed.

Lemma Pool_Remove_length σ id p :
  (length (backends (Pool_Remove σ id p).2) ≤ length (backends p))%nat.
Proof.
  unfold Pool_Remove. go_step. destruct (find_id σ id 0 (backends p)) as [[i|]|w]; simpl; try done.
  rewrite length_app, length_take, length_drop. lia.
Qed.

(** The other goroutines may change the health of backends and add new ones;
    they leave the connection counts alone. *)
Definition same_conns (σ σ' : store) : Prop :=
  ∀ l b, σ !! l = Some b → ∃ b', σ' !! l = Some b' ∧ activeConns b' = activeConns b.

Lemma same_conns_dom σ σ' : same_conns σ σ' → dom σ ⊆ dom σ'.
Proof.
  intros H l. rewrite !elem_of_dom. intros [b Hb]. destruct (H l b Hb) as (b' & -> & _). eauto.
Qed.

Lemma SetHealth_same_conns l h σ : same_conns σ (Backend_SetHealth l h σ).2.
Proof.
  intros k b Hk. unfold Backend_SetHealth, update. destruct (σ !! l) as [b0|] eqn:E; simpl; [|eauto].
  destruct (decide (l = k)) as [->|]; simplify_eq.
  - eexists. by rewrite lookup_insert_eq.
  - exists b. by rewrite lookup_insert_ne.
Qed.

Lemma alloc_same_conns b σ : same_conns σ (<[fresh (dom σ) := b]> σ).
Proof.
  intros k b0 Hk. exists b0. split; [|done]. rewrite lookup_insert_ne; [done|].
  intros <-. apply (is_fresh (dom σ)). apply elem_of_dom. eauto.
Qed.

(** What holds of every configuration reached from [c0]. *)
Record conc_ok (c0 c : pconf) : Prop := {
  ok_pool : live (cf_store c) (backends (cf_pool c));
  ok_refs : Forall (pc_live (cf_store c)) (pcs c);
  ok_writers : Forall (w_live (cf_store c)) (wcs c);
  ok_panic : Q_panicked ∉ pcs c;
  ok_counter : rr_counter (cf_rr c) = rr_counter (cf_rr c0) + Z.of_nat (length (picks c));
  ok_size : length (pcs c) = length (pcs c0);
  ok_conns : ∀ l b, cf_store c0 !! l = Some b → is_int64 (activeConns b) →
    ∃ b', cf_store c !! l = Some b' ∧
      activeConns b' = wrap64 (activeConns b + Z.of_nat (inflight l c));
}.

Lemma map_values {A} (P : A → Prop) (m : gmap nat A) :
  map_Forall (λ _ x, P x) m ↔ Forall P (map_to_list m).*2.
Proof.
  rewrite map_Forall_to_list, Forall_fmap. apply Forall_proper; [|done]. by intros [].
Qed.

Lemma inflight_none l c : (∀ q, q ∈ pcs c → holding q = None) → inflight l c = 0%nat.
Proof.
  intros H. unfold inflight. induction (pcs c) as [|q qs IH]; [done|]. rewrite filter_cons, decide_False.
  - apply IH. intros q' Hq'. apply H. by right.
  - rewrite (H q); [done|]. by left.
Qed.

Lemma omap_none {A B} (f : A → option B) l : (∀ x, x ∈ l → f x = None) → omap f l = [].
Proof.
  induction l as [|x l IH]; intros H; csimpl; [done|].
  rewrite (H x) by left. apply IH. intros y Hy. apply H. by right.
Qed.

Lemma pcs_starting c q : map_Forall (λ _ q, q = Q_start) (cf_reqs c) → q ∈ pcs c → q = Q_start.
Proof. intros H%map_values Hq. by apply (proj1 (Forall_forall _ _) H). Qed.

Lemma arriving_ok c : arriving c → conc_ok c c.
Proof.
  intros (Hp & Hs & Hw & _ & _).
  assert (picks c = []) as Hpk.
  { apply omap_none. intros q Hq. by rewrite (pcs_starting c q Hs Hq). }
  assert (∀ l, inflight l c = 0%nat) as Hf.
  { intros l. apply inflight_none. intros q Hq. by rewrite (pcs_starting c q Hs Hq). }
  constructor; try done.
  - apply Forall_forall. intros q Hq. by rewrite (pcs_starting c q Hs Hq).
  - apply map_values in Hw. eapply Forall_impl; [exact Hw|]. by intros [?|[|]|[|]|[|]| |].
  - intros Hq. by apply (pcs_starting c _ Hs) in Hq.
  - rewrite Hpk. simpl. lia.
  - intros l b Hb Hr. exists b. rewrite Hf, Z.add_0_r, wrap64_id by done. done.
Qed.

(** Operations that are not a request's keep it. *)
Lemma conc_ok_other c0 c σ' p' ws :
  conc_ok c0 c → same_conns (cf_store c) σ' → live σ' (backends p') →
  Forall (w_live σ') (map_to_list ws).*2 →
  conc_ok c0 (mkPConf σ' p' (cf_rr c) (cf_reqs c) ws).
Proof.
  intros [Hp Hr Hw Hn Hc Hz Hb] Hs Hl Hw'. constructor; try done.
  - eapply Forall_impl; [exact Hr|]. intros q. apply pc_live_weaken. by apply same_conns_dom.
  - intros l b H0 Hi. destruct (Hb l b H0 Hi) as (b' & H1 & H2).
    destruct (Hs l b' H1) as (b'' & H3 & H4). exists b''. split; [done|]. by rewrite H4.
Qed.

Lemma picks_bound qs hs rest :
  qs ≡ₚ Q_select hs :: rest → (length (omap picked qs) < length qs)%nat.
Proof. intros ->. csimpl. pose proof (length_picked rest). lia. Qed.

(** A request moves from [q] to [q'] on a heap that differs in the count of one
    backend at most. *)
Lemma conc_ok_move c0 c t q q' σ' rr' :
  conc_ok c0 c → cf_reqs c !! t = Some q →
  pc_live σ' q' → q' ≠ Q_panicked → dom σ' = dom (cf_store c) →
  rr_counter rr' + Z.of_nat (pick_count q) = rr_counter (cf_rr c) + Z.of_nat (pick_count q') →
  (∀ l b, cf_store c !! l = Some b → is_int64 (activeConns b) →
    ∃ b', σ' !! l = Some b' ∧
      activeConns b' = wrap64 (activeConns b + (flight_count l q' - flight_count l q))) →
  conc_ok c0 (mkPConf σ' (cf_pool c) rr' (<[t := q']> (cf_reqs c)) (cf_writers c)).
Proof.
  intros [Hp Hr Hw Hn Hc Hz Hb] Hq Hl Hnp Hd Hpk Hcn.
  destruct (pcs_insert _ t q q' Hq) as (rest & P1 & P2).
  set (c' := mkPConf σ' (cf_pool c) rr' (<[t:=q']> (cf_reqs c)) (cf_writers c)).
  assert (pcs c' ≡ₚ q' :: rest) as P2' by exact P2. fold (pcs c) in P1.
  assert (dom (cf_store c) ⊆ dom σ') as Hsub by (by rewrite Hd).
  constructor; simpl.
  - by eapply live_weaken.
  - rewrite P2'. constructor; [done|]. rewrite P1 in Hr. apply Forall_cons in Hr as [_ Hr].
    eapply Forall_impl; [exact Hr|]. intros ?. by apply pc_live_weaken.
  - eapply Forall_impl; [exact Hw|]. intros ?. by apply w_live_weaken.
  - rewrite P2'. rewrite P1 in Hn. apply not_elem_of_cons in Hn as [_ Hn].
    by apply not_elem_of_cons.
  - unfold picks in *. rewrite P2'. rewrite P1 in Hc. unfold pick_count in Hpk.
    csimpl in *. destruct (picked q), (picked q'); csimpl in *; lia.
  - rewrite P2'. rewrite P1 in Hz. simpl in *. lia.
  - intros l b Hlb Hi. destruct (Hb l b Hlb Hi) as (b1 & H1 & E1).
    destruct (Hcn l b1 H1) as (b2 & H2 & E2); [rewrite E1; apply wrap64_range|].
    exists b2. split; [done|]. rewrite E2, E1, wrap64_add_l. f_equal.
    unfold inflight. rewrite P1, P2', !filter_cons. unfold flight_count.
    repeat case_decide; simpl; lia.
Qed.

Lemma conc_ok_serve c0 c r t :
  rr_counter (cf_rr c0) + Z.of_nat (length (pcs c0)) ≤ max_int64 → 0 ≤ rr_counter (cf_rr c0) →
  conc_ok c0 c → conc_ok c0 (act r (Serve t) c).
Proof.
  intros Hmax H0 Hok. pose proof Hok as [Hp Hr Hw Hn Hc Hz Hb]. unfold act.
  destruct (cf_reqs c !! t) as [q|] eqn:Hq; [|done]. case_decide; [done|].
  destruct (serve_local r q (cf_store c) (cf_pool c) (cf_rr c)) as [[q' σ'] rr'] eqn:E.
  pose proof (pcs_elem c t q Hq) as Hin.
  destruct (pcs_insert _ t q q' Hq) as (rest & P1 & P2). fold (pcs c) in P1.
  destruct (serve_local_spec _ _ _ _ _ _ _ _ E) as (Hl & Hnp & Hd & Hpk & Hcn); try done.
  { by rewrite Forall_forall in Hr; apply Hr. }
  { by intros ->. }
  { lia. }
  { intros hs ->. pose proof (picks_bound _ _ _ P1). unfold picks in Hc. lia. }
  by eapply conc_ok_move.
Qed.

Lemma reply_flight ok q : holding (reply_local ok q) = holding q ∧ picked (reply_local ok q) = picked q.
Proof. by destruct q. Qed.

Lemma conc_ok_reply c0 c r t ok : conc_ok c0 c → conc_ok c0 (act r (Reply t ok) c).
Proof.
  intros Hok. pose proof Hok as [Hp Hr Hw Hn Hc Hz Hb]. unfold act.
  destruct (cf_reqs c !! t) as [q|] eqn:Hq; [|done]. pose proof (pcs_elem c t q Hq) as Hin.
  destruct (reply_flight ok q) as [Hh Hpk]. eapply conc_ok_move; try done.
  - rewrite Forall_forall in Hr. specialize (Hr q Hin). by destruct q.
  - intros E. by destruct q.
  - unfold pick_count. by rewrite Hpk.
  - intros l b Hb' Hi. exists b. split; [done|]. unfold flight_count. rewrite Hh, Z.sub_diag, Z.add_0_r.
    by rewrite wrap64_id.
Qed.

Lemma writers_insert (σ : store) (m : gmap nat wpc) t w w' :
  m !! t = Some w → Forall (w_live σ) (map_to_list m).*2 → w_live σ w' →
  Forall (w_live σ) (map_to_list (<[t := w']> m)).*2.
Proof.
  intros Ht H Hw. destruct (pcs_insert m t w w' Ht) as (rest & P1 & P2). rewrite P2.
  rewrite P1 in H. apply Forall_cons in H as [_ H]. by constructor.
Qed.

Lemma conc_ok_writer c0 c r t : conc_ok c0 c → conc_ok c0 (act r (Writer t) c).
Proof.
  intros Hok. pose proof Hok as [Hp Hr Hw Hn Hc Hz Hb]. unfold act.
  destruct (cf_writers c !! t) as [w|] eqn:Hq; [|done].
  assert (w_live (cf_store c) w) as Hlw.
  { apply (proj1 (Forall_forall _ _) Hw). unfold wcs. apply list_elem_of_fmap. exists (t, w).
    split; [done|]. by apply elem_of_map_to_list. }
  assert (same_conns (cf_store c) (cf_store c)) as Hid by (intros ?; eauto).
  destruct w as [b|p|p|p| |]; simpl; try done.
  - pose proof (alloc_same_conns b (cf_store c)) as Ha. pose proof (same_conns_dom _ _ Ha) as Hd.
    apply conc_ok_other; [done|done|by eapply live_weaken|].
    eapply writers_insert; [exact Hq| |simpl; rewrite lookup_insert_eq; eauto].
    eapply Forall_impl; [exact Hw|]. intros w. by apply w_live_weaken.
  - case_decide; [done|]. apply conc_ok_other; try done. by eapply writers_insert.
  - case_decide; [done|]. apply conc_ok_other; try done. by eapply writers_insert.
  - apply conc_ok_other; try done; [|by eapply writers_insert]. destruct p as [l|id]; simpl.
    + unfold live. rewrite Forall_app, Forall_singleton. by split.
    + apply Forall_forall. intros l Hl%Pool_Remove_subset. by eapply live_elem.
  - apply conc_ok_other; try done. by eapply writers_insert.
Qed.

Lemma conc_ok_act c0 c r a :
  rr_counter (cf_rr c0) + Z.of_nat (length (pcs c0)) ≤ max_int64 → 0 ≤ rr_counter (cf_rr c0) →
  conc_ok c0 c → conc_ok c0 (act r a c).
Proof.
  intros Hmax H0 H. destruct a as [t|t ok|l h|t].
  - by apply conc_ok_serve.
  - by apply conc_ok_reply.
  - pose proof (SetHealth_same_conns l h (cf_store c)) as Hs. pose proof (same_conns_dom _ _ Hs) as Hd.
    apply conc_ok_other; [done|done|eapply live_weaken; [exact Hd|apply H]|].
    eapply Forall_impl; [apply H|]. intros w. by apply w_live_weaken.
  - by apply conc_ok_writer.
Qed.

Lemma conc_ok_run c0 c r acts :
  rr_counter (cf_rr c0) + Z.of_nat (length (pcs c0)) ≤ max_int64 → 0 ≤ rr_counter (cf_rr c0) →
  conc_ok c0 c → conc_ok c0 (prun r acts c).
Proof.
  intros Hmax H0. unfold prun. revert c. induction acts as [|a acts IH]; intros c H; simpl; [done|].
  by apply IH, conc_ok_act.
Qed.

(** ** Round robin between concurrent requests *)

(** What a request knows while all backends of a fixed pool are healthy. *)
Definition pc_fair (bs : list loc) (q : qpc) : Prop :=
  match q with
  | Q_scan out rest => out ++ rest = bs
  | Q_select hs => hs = bs
  | Q_unavailable | Q_panicked => False
  | _ => True
  end.

Record fair_ok (c0 c : pconf) : Prop := {
  fair_conc : conc_ok c0 c;
  fair_pool : cf_pool c = cf_pool c0;
  fair_healthy : Forall (healthy_at (cf_store c)) (backends (cf_pool c0));
  fair_pcs : Forall (pc_fair (backends (cf_pool c0))) (pcs c);
  fair_picks : picks c ≡ₚ
    cyclic (backends (cf_pool c0)) (Z.to_nat (rr_counter (cf_rr c0))) (length (picks c));
}.

Lemma update_healthy l f σ k :
  (∀ b, health (f b) = health b) → healthy_at (update l f σ).2 k ↔ healthy_at σ k.
Proof.
  intros Hf. unfold healthy_at, update. destruct (σ !! l) as [b|] eqn:E; simpl; [|done].
  destruct (decide (l = k)) as [->|]; [rewrite lookup_insert_eq, E|by rewrite lookup_insert_ne].
  simpl. by rewrite Hf.
Qed.

Lemma serve_local_healthy r q σ p rr q' σ' rr' k :
  serve_local r q σ p rr = (q', σ', rr') → healthy_at σ' k ↔ healthy_at σ k.
Proof.
  intros E. destruct q as [|out [|b rest]|hs|b|b|b ok|b|b| |]; simpl in E; simplify_eq; try done.
  - repeat case_match; by simplify_eq.
  - repeat case_match; by simplify_eq.
  - pose proof (update_healthy b (λ b, set_activeConns (wrap64 (activeConns b + 1)) b) σ k) as H.
    unfold Backend_IncConns in E. destruct (update _ _ σ) as [[]?]; simplify_eq; by apply H.
  - pose proof (update_healthy b (λ b, set_activeConns (wrap64 (activeConns b + -1)) b) σ k) as H.
    unfold Backend_DecConns in E. destruct (update _ _ σ) as [[]?]; simplify_eq; by apply H.
Qed.

Lemma update_dom l f (σ : store) k : is_Some (σ !! k) → is_Some ((update l f σ).2 !! k).
Proof.
  unfold update. destruct (σ !! l) eqn:E; simpl; [|done]. rewrite lookup_insert.
  case_decide; eauto.
Qed.

Lemma serve_local_live r q σ p rr q' σ' rr' k :
  serve_local r q σ p rr = (q', σ', rr') → is_Some (σ !! k) → is_Some (σ' !! k).
Proof.
  intros E. destruct q as [|out [|b rest]|hs|b|b|b ok|b|b| |]; simpl in E; simplify_eq; try done.
  - repeat case_match; by simplify_eq.
  - repeat case_match; by simplify_eq.
  - unfold Backend_IncConns in E. intros H.
    apply (update_dom b (λ b, set_activeConns (wrap64 (activeConns b + 1)) b)) in H.
    destruct (update _ _ σ) as [[]?]; by simplify_eq.
  - unfold Backend_DecConns in E. intros H.
    apply (update_dom b (λ b, set_activeConns (wrap64 (activeConns b + -1)) b)) in H.
    destruct (update _ _ σ) as [[]?]; by simplify_eq.
Qed.

(** An operation picks the backend at the counter, and only [Next] picks. *)
Lemma serve_local_fair r q σ p rr q' σ' rr' :
  serve_local r q σ p rr = (q', σ', rr') → backends p ≠ [] →
  Forall (healthy_at σ) (backends p) → pc_fair (backends p) q → pc_live σ q →
  0 ≤ rr_counter rr → (∀ hs, q = Q_select hs → rr_counter rr < max_int64) →
  q' ≠ Q_panicked →
  pc_fair (backends p) q' ∧
  (picked q' = picked q ∨
   picked q = None ∧
   picked q' = backends p !! (Z.to_nat (rr_counter rr) mod length (backends p))%nat).
Proof.
  intros E Hne Hh Hq Hl Hc Hm Hn.
  destruct q as [|out [|b rest]|hs|b|b|b ok|b|b| |]; simpl in *; simplify_eq; simpl; try by auto.
  - rewrite app_nil_r in Hq. auto.
  - destruct Hl as [_ Hl]. apply Forall_cons in Hl as [Hb _].
    rewrite IsHealthy_live in E by done.
    assert (healthy_at σ b) as Hhb by (rewrite <- Hq, Forall_app, Forall_cons in Hh; tauto).
    rewrite bool_decide_true in E by done. simplify_eq. split; [|by left].
    simpl. by rewrite <- Hq, <- app_assoc.
  - rewrite decide_False in E by (by rewrite zlen_zero). destruct rr as [n]. simpl in *.
    destruct (RoundRobin_Next_step r (backends p) σ n Hne) as (b & Hb & E');
      [specialize (Hm _ eq_refl); lia|].
    rewrite E' in E. simplify_eq. simpl. rewrite Hb. auto.
  - destruct (Backend_IncConns b σ) as [[]?]; by simplify_eq; auto.
  - destruct (Backend_DecConns b σ) as [[]?]; destruct ok; by simplify_eq; auto.
Qed.

Lemma picks_insert c c' t q q' :
  cf_reqs c !! t = Some q → cf_reqs c' = <[t := q']> (cf_reqs c) →
  ∃ rest, picks c ≡ₚ option_list (picked q) ++ rest ∧ picks c' ≡ₚ option_list (picked q') ++ rest.
Proof.
  intros Hq H'. destruct (pcs_insert _ t q q' Hq) as (rest & P1 & P2).
  exists (omap picked rest). unfold picks, pcs. rewrite H'. rewrite P1, P2. csimpl.
  destruct (picked q), (picked q'); done.
Qed.

Lemma fair_ok_serve c0 c r t :
  0 ≤ rr_counter (cf_rr c0) →
  rr_counter (cf_rr c0) + Z.of_nat (length (pcs c0)) ≤ max_int64 →
  backends (cf_pool c0) ≠ [] → fair_ok c0 c → fair_ok c0 (act r (Serve t) c).
Proof.
  intros H0 Hmax Hne Hfair. pose proof Hfair as [Hok Hp Hh Hpc Hpk].
  pose proof (conc_ok_serve c0 c r t Hmax H0 Hok) as Hok'. revert Hok'. unfold act.
  destruct (cf_reqs c !! t) as [q|] eqn:Hq; [|done]. case_decide; [done|].
  destruct (serve_local r q (cf_store c) (cf_pool c) (cf_rr c)) as [[q' σ'] rr'] eqn:E.
  set (c' := mkPConf σ' (cf_pool c) rr' (<[t:=q']> (cf_reqs c)) (cf_writers c)). intros Hok'.
  pose proof (pcs_elem c t q Hq) as Hin.
  destruct (pcs_insert _ t q q' Hq) as (rest & P1 & P2). fold (pcs c) in P1.
  assert (pcs c' ≡ₚ q' :: rest) as P2' by exact P2.
  pose proof (ok_counter _ _ Hok) as Hc. pose proof (ok_size _ _ Hok) as Hz.
  rewrite <- Hp in *.
  destruct (serve_local_fair _ _ _ _ _ _ _ _ E) as [Hf Hpick]; try done.
  { rewrite Forall_forall in Hpc. by apply Hpc. }
  { pose proof (ok_refs _ _ Hok) as Hr. rewrite Forall_forall in Hr. by apply Hr. }
  { lia. }
  { intros hs ->. pose proof (picks_bound _ _ _ P1). unfold picks in Hc. lia. }
  { intros ->. apply (ok_panic _ _ Hok'). rewrite P2'. left. }
  constructor; try done; rewrite <- ?Hp.
  - eapply Forall_impl; [exact Hh|]. intros k. by eapply serve_local_healthy.
  - rewrite P2'. constructor; [done|]. rewrite P1 in Hpc. by apply Forall_cons in Hpc as [_ ?].
  - destruct (picks_insert c c' t q q' Hq eq_refl) as (ps & S1 & S2).
    destruct Hpick as [Hs|[Hs Hs']].
    + rewrite Hs, <- S1 in S2. by rewrite S2.
    + destruct (cyclic_lookup (backends (cf_pool c)) (Z.to_nat (rr_counter (cf_rr c))) Hne) as [b Hb].
      rewrite Hb in Hs'. rewrite Hs in S1. rewrite Hs' in S2. simpl in *.
      rewrite S2, <- S1. cbn [length]. rewrite <- Nat.add_1_r, cyclic_app by done. cbn [cyclic].
      replace (Z.to_nat (rr_counter (cf_rr c0)) + length (picks c))%nat
        with (Z.to_nat (rr_counter (cf_rr c))) by lia.
      rewrite Hb, <- Hpk. by rewrite Permutation_app_comm.
Qed.

Lemma fair_ok_reply c0 c r t ok : fair_ok c0 c → fair_ok c0 (act r (Reply t ok) c).
Proof.
  intros Hfair. pose proof Hfair as [Hok Hp Hh Hpc Hpk].
  pose proof (conc_ok_reply c0 c r t ok Hok) as Hok'. revert Hok'. unfold act.
  destruct (cf_reqs c !! t) as [q|] eqn:Hq; [|done]. intros Hok'.
  pose proof (pcs_elem c t q Hq) as Hin. destruct (reply_flight ok q) as [_ Hpick].
  destruct (pcs_insert _ t q (reply_local ok q) Hq) as (rest & P1 & P2). fold (pcs c) in P1.
  constructor; try done; simpl.
  - unfold pcs at 1. cbn [cf_reqs]. rewrite P2. rewrite P1 in Hpc. apply Forall_cons in Hpc as [Hpq ?].
    constructor; [by destruct q|done].
  - set (c' := mkPConf _ _ _ _ _). destruct (picks_insert c c' t q _ Hq eq_refl) as (ps & S1 & S2).
    rewrite Hpick, <- S1 in S2. by rewrite S2.
Qed.

(** The actions of requests and of their upstreams. *)
Definition request_act (a : action) : Prop :=
  match a with Serve _ | Reply _ _ => True | ChangeHealth _ _ | Writer _ => False end.

Lemma fair_ok_run c0 c r acts :
  0 ≤ rr_counter (cf_rr c0) →
  rr_counter (cf_rr c0) + Z.of_nat (length (pcs c0)) ≤ max_int64 →
  backends (cf_pool c0) ≠ [] → Forall request_act acts → fair_ok c0 c → fair_ok c0 (prun r acts c).
Proof.
  intros H0 Hmax Hne Ha. unfold prun. revert c.
  induction Ha as [|a acts Ha _ IH]; intros c H; simpl; [done|].
  apply IH. destruct a; try done; [by apply fair_ok_serve|by apply fair_ok_reply].
Qed.

Lemma arriving_fair c :
  arriving c → Forall (healthy_at (cf_store c)) (backends (cf_pool c)) → fair_ok c c.
Proof.
  intros Ha Hh. pose proof Ha as (_ & Hs & _ & _).
  assert (picks c = []) as Hpk.
  { apply omap_none. intros q Hq. by rewrite (pcs_starting c q Hs Hq). }
  constructor; try done.
  - by apply arriving_ok.
  - apply Forall_forall. intros q Hq. by rewrite (pcs_starting c q Hs Hq).
  - by rewrite Hpk.
Qed.

(** When every request has returned, and none unwound or found no backend, each
    has been sent somewhere. *)
Lemma all_picked qs bs :
  Forall finished qs → Forall (pc_fair bs) qs → length (omap picked qs) = length qs.
Proof.
  induction 1 as [|q qs Hq _ IH]; intros Hf; [done|]. apply Forall_cons in Hf as [Hf1 Hf].
  destruct q; try done; csimpl; by rewrite IH.
Qed.

(** ** Backends taken out of service *)

(** The request has not yet looked at the backend, or looked and left it
    out. *)
Definition pc_avoids (l : loc) (q : qpc) : Prop :=
  match q with
  | Q_scan out _ => l ∉ out
  | Q_select hs => l ∉ hs
  | Q_inc b | Q_flight b | Q_release b _ | Q_answered b | Q_aborted b => b ≠ l
  | _ => True
  end.

Lemma pc_avoids_picked l q : pc_avoids l q → picked q ≠ Some l.
Proof. destruct q; simpl; congruence. Qed.

Lemma serve_local_avoids r q σ p rr q' σ' rr' l :
  serve_local r q σ p rr = (q', σ', rr') → is_Some (σ !! l) → ¬ healthy_at σ l →
  pc_avoids l q → pc_avoids l q'.
Proof.
  intros E Hl Hh Hq.
  destruct q as [|out [|b rest]|hs|b|b|b ok|b|b| |]; simpl in *; simplify_eq; try done.
  - simpl. apply not_elem_of_nil.
  - destruct (decide (b = l)) as [->|Hne].
    + rewrite IsHealthy_live in E by done. rewrite bool_decide_false in E by done. by simplify_eq.
    + repeat case_match; simplify_eq; try done. simpl.
      rewrite not_elem_of_app, list_elem_of_singleton. naive_solver.
  - case_decide as Hz; simplify_eq; [done|]. unfold RoundRobin_Next in E.
    rewrite decide_False in E by done. go_step.
    destruct (go_index hs _) as [b|] eqn:Hi; simplify_eq; [|done].
    apply go_index_elem in Hi. simpl. by intros ->.
  - destruct (Backend_IncConns b σ) as [[]?]; by simplify_eq.
  - destruct (Backend_DecConns b σ) as [[]?]; destruct ok; by simplify_eq.
Qed.

(** [l] is out of service, and request [t] has not been sent to it. *)
Definition avoids (l : loc) (t : nat) (c : pconf) : Prop :=
  is_Some (cf_store c !! l) ∧ ¬ healthy_at (cf_store c) l ∧
  ∀ q, cf_reqs c !! t = Some q → pc_avoids l q.

Lemma avoids_act r a l t c :
  a ≠ ChangeHealth l HealthHealthy → avoids l t c → avoids l t (act r a c).
Proof.
  intros Ha Hav. pose proof Hav as (Hl & Hh & Hq). destruct a as [t'|t' ok|l' h|t']; unfold act.
  - destruct (cf_reqs c !! t') as [q'|] eqn:Hq'; [|done]. case_decide; [done|].
    destruct (serve_local r q' (cf_store c) (cf_pool c) (cf_rr c)) as [[q'' σ'] rr'] eqn:E.
    split_and!; simpl.
    + by apply (serve_local_live _ _ _ _ _ _ _ _ l E).
    + by rewrite (serve_local_healthy _ _ _ _ _ _ _ _ l E).
    + intros q. rewrite lookup_insert. case_decide as Ht; [|by apply Hq].
      intros [= <-]. subst. eapply serve_local_avoids; eauto.
  - destruct (cf_reqs c !! t') as [q'|] eqn:Hq'; [|done]. split_and!; simpl; [done|done|].
    intros q. rewrite lookup_insert. case_decide as Ht; [|by apply Hq].
    intros [= <-]. subst. specialize (Hq q' Hq'). by destruct q'.
  - split_and!; simpl; [|  |done].
    + pose proof (same_conns_dom _ _ (SetHealth_same_conns l' h (cf_store c)) l) as H.
      rewrite !elem_of_dom in H. auto.
    + unfold Backend_SetHealth, update, healthy_at.
      destruct (cf_store c !! l') as [b|] eqn:E; simpl; [|done].
      rewrite lookup_insert. case_decide; [|done]. subst. simpl. congruence.
  - destruct (cf_writers c !! t') as [w|]; [|done]. destruct w as [b|p|p|p| |]; simpl; try done.
    + assert (fresh (dom (cf_store c)) ≠ l) as Hf.
      { intros <-. apply (is_fresh (dom (cf_store c))). by apply elem_of_dom. }
      split_and!; simpl; [by rewrite lookup_insert_ne| |done].
      unfold healthy_at. by rewrite lookup_insert_ne.
    + by case_decide.
    + by case_decide.
Qed.

Lemma avoids_run r acts l t c :
  Forall (λ a, a ≠ ChangeHealth l HealthHealthy) acts → avoids l t c → avoids l t (prun r acts c).
Proof.
  intros Ha. unfold prun. revert c. induction Ha as [|a acts Ha _ IH]; intros c H; simpl; [done|].
  by apply IH, avoids_act.
Qed.

(** ** A request that runs alone *)

Lemma prun_app r a1 a2 c : prun r (a1 ++ a2) c = prun r a2 (prun r a1 c).
Proof. apply fold_left_app. Qed.

(** No goroutine changes the pool. *)
Abbreviation alone σ p rr reqs := (mkPConf σ p rr reqs ∅).

Lemma alone_unlocked σ p rr reqs : ¬ write_announced (alone σ p rr reqs).
Proof. unfold write_announced, wcs. cbn [cf_writers]. rewrite map_to_list_empty. intros H. inversion H. Qed.

Lemma act_serve r t q q' σ p rr σ' rr' reqs :
  reqs !! t = Some q → serve_local r q σ p rr = (q', σ', rr') →
  act r (Serve t) (alone σ p rr reqs) = alone σ' p rr' (<[t := q']> reqs).
Proof.
  intros Hq E. unfold act. cbn [cf_reqs]. rewrite Hq.
  rewrite decide_False by (intros [_ H]; by apply alone_unlocked in H). cbn [cf_store cf_pool cf_rr]. by rewrite E.
Qed.

Lemma act_reply r t ok q σ p rr reqs :
  reqs !! t = Some q → act r (Reply t ok) (alone σ p rr reqs) = alone σ p rr (<[t := reply_local ok q]> reqs).
Proof. intros Hq. unfold act. cbn [cf_reqs]. by rewrite Hq. Qed.

(** The loop of [Healthy], one test at a time. *)
Lemma solo_scan r t σ p rr reqs out rest :
  live σ rest → reqs !! t = Some (Q_scan out rest) →
  prun r (replicate (S (length rest)) (Serve t)) (alone σ p rr reqs) =
    alone σ p rr (<[t := Q_select (out ++ filter (healthy_at σ) rest)]> reqs).
Proof.
  revert out reqs. induction rest as [|b rest IH]; intros out reqs Hl Hq.
  - cbn [replicate length]. unfold prun. cbn [fold_left].
    erewrite act_serve; [|exact Hq|reflexivity]. by rewrite app_nil_r.
  - apply Forall_cons in Hl as [Hb Hl].
    change (replicate (S (length (b :: rest))) (Serve t))
      with ([Serve t] ++ replicate (S (length rest)) (Serve t)).
    rewrite prun_app. unfold prun at 2. cbn [fold_left].
    erewrite act_serve; [|exact Hq|simpl; by rewrite IsHealthy_live].
    erewrite IH; [|done|by rewrite lookup_insert_eq].
    rewrite insert_insert_eq, filter_cons. do 3 f_equal.
    case_bool_decide; case_decide; try done. by rewrite <- app_assoc.
Qed.

Lemma RoundRobin_Next_nonempty r hs σ rr :
  hs ≠ [] → match (RoundRobin_Next r hs σ rr).1 with
            | Ret (Some b, None) => b ∈ hs | Ret _ => False | Panic _ => True end.
Proof.
  intros Hhs. unfold RoundRobin_Next. rewrite decide_False by (by rewrite zlen_zero). go_step.
  destruct (go_index hs _) as [b|] eqn:E; simpl; [|done]. by apply go_index_elem in E.
Qed.

Lemma solo_healthy r t σ p rr reqs :
  live σ (backends p) → reqs !! t = Some Q_start →
  prun r (replicate (S (S (length (backends p)))) (Serve t)) (alone σ p rr reqs) =
    alone σ p rr (<[t := Q_select (filter (healthy_at σ) (backends p))]> reqs).
Proof.
  intros Hl Hq.
  change (replicate (S (S (length (backends p)))) (Serve t))
    with ([Serve t] ++ replicate (S (length (backends p))) (Serve t)).
  rewrite prun_app. unfold prun at 2. cbn [fold_left].
  erewrite act_serve; [|exact Hq|reflexivity].
  erewrite solo_scan; [|done|by rewrite lookup_insert_eq]. by rewrite insert_insert_eq.
Qed.

(** From the selection on: the remaining operations of a request that picks
    [b], with the end of its exchange. *)
Lemma solo_picked r t σ p rr rr' reqs hs b bk ok :
  reqs !! t = Some (Q_select hs) → hs ≠ [] →
  RoundRobin_Next r hs σ rr = (Ret (Some b, None), rr') → σ !! b = Some bk →
  prun r [Serve t; Serve t; Reply t ok; Serve t] (alone σ p rr reqs) =
    alone (<[b := set_activeConns (wrap64 (activeConns (set_activeConns (wrap64 (activeConns bk + 1)) bk) + -1))
                      (set_activeConns (wrap64 (activeConns bk + 1)) bk)]> (with_conn σ b)) p rr'
      (<[t := if ok : bool then Q_answered b else Q_aborted b]> reqs).
Proof.
  intros Hq Hne En Hbk. unfold prun. cbn [fold_left].
  erewrite act_serve; [|exact Hq|].
  2: { cbn [serve_local]. rewrite decide_False by (by rewrite zlen_zero). by rewrite En. }
  erewrite act_serve; [|by rewrite lookup_insert_eq|].
  2: { cbn [serve_local]. by rewrite (IncConns_live σ b) by eauto. }
  erewrite act_reply; [|by rewrite lookup_insert_eq]. cbn [reply_local].
  erewrite act_serve; [|by rewrite lookup_insert_eq|].
  2: { cbn [serve_local]. by rewrite (DecConns_live _ _ _ (with_conn_lookup _ _ _ Hbk)). }
  by rewrite !insert_insert_eq.
Qed.

(** What the goroutine's end says about the result. *)
Definition agrees (σ : store) (answer : Request → outcome (option Response)) (r : Request) (q : qpc)
    (res : outcome Response) : Prop :=
  match q with
  | Q_answered b => ∃ bk, σ !! b = Some bk ∧
      match answer (upstream_request b (BURL bk) r) with
      | Ret (Some resp) => res = Ret resp
      | Ret None => res = Ret (http_Error "bad gateway" 502)
      | Panic _ => False
      end
  | Q_aborted b => ∃ bk w, σ !! b = Some bk ∧ answer (upstream_request b (BURL bk) r) = Panic w ∧ res = Panic w
  | Q_unavailable => res = Ret (http_Error "no healthy backends" 502)
  | Q_panicked => ∃ w, res = Panic w
  | _ => False
  end.

(** ** Completion *)

(** The backends the pool has and those that writers may still add. *)
Definition adding (w : wpc) : bool :=
  match w with W_new _ | W_lock (PAdd _) | W_wait (PAdd _) | W_write (PAdd _) => true | _ => false end.
Definition cap (c : pconf) : nat :=
  length (backends (cf_pool c)) + length (filter (λ w, adding w = true) (wcs c)).

(** The operations a request has left, when it scans at most [n] backends, and
    those of a writer. *)
Definition remaining (n : nat) (q : qpc) : nat :=
  match q with
  | Q_start => n + 6
  | Q_scan _ rest => length rest + 5
  | Q_select _ => 4
  | Q_inc _ => 3
  | Q_flight _ => 2
  | Q_release _ _ => 1
  | Q_answered _ | Q_aborted _ | Q_unavailable | Q_panicked => 0
  end.
Definition wremaining (w : wpc) : nat :=
  match w with W_new _ => 5 | W_lock _ => 4 | W_wait _ => 3 | W_write _ => 2 | W_unlock => 1 | W_done => 0 end.

Definition total (c : pconf) : nat :=
  sum_list (remaining (cap c) <$> pcs c) + sum_list (wremaining <$> wcs c).

(** The same goroutines at the same operations, and the same pool. *)
Definition same (c c' : pconf) : Prop :=
  cf_reqs c' = cf_reqs c ∧ cf_writers c' = cf_writers c ∧ cf_pool c' = cf_pool c.

#[local] Instance same_preorder : PreOrder same.
Proof. split; [by intros c|]. intros c1 c2 c3 (?&?&?) (?&?&?). unfold same. split_and!; congruence. Qed.

Lemma same_total c c' : same c c' → total c' = total c ∧ cap c' = cap c.
Proof. intros (H1 & H2 & H3). unfold total, cap, pcs, wcs. by rewrite H1, H2, H3. Qed.

#[local] Instance sum_list_proper : Proper ((≡ₚ) ==> eq) sum_list.
Proof. intros l l' H. induction H; simpl; lia. Qed.

Lemma sum_remaining_mono n m qs : (n ≤ m → sum_list (remaining n <$> qs) ≤ sum_list (remaining m <$> qs))%nat.
Proof.
  intros H. induction qs as [|q qs IH]; csimpl; [done|]. assert (remaining n q ≤ remaining m q)%nat by (destruct q; simpl; lia). lia.
Qed.

Lemma serve_local_progress r q σ p rr q' σ' rr' n :
  serve_local r q σ p rr = (q', σ', rr') → (length (backends p) ≤ n)%nat →
  q' = q ∧ σ' = σ ∧ (finished q ∨ ∃ b, q = Q_flight b) ∨ (remaining n q' < remaining n q)%nat.
Proof.
  intros E Hn. destruct q as [|out [|b rest]|hs|b|b|b ok|b|b| |]; simpl in *; simplify_eq; simpl;
    try (right; lia); try (by left; auto); try (by left; split_and!; eauto); right;
    repeat (case_match; simplify_eq; simpl; try lia).
Qed.

(** Every action moves no goroutine, or leaves less to do. *)
Lemma act_total r a c : same c (act r a c) ∨ (total (act r a c) < total c)%nat.
Proof.
  destruct a as [t|t ok|l h|t]; unfold act.
  - destruct (cf_reqs c !! t) as [q|] eqn:Hq; [|by left]. case_decide; [by left|].
    destruct (serve_local r q (cf_store c) (cf_pool c) (cf_rr c)) as [[q' σ'] rr'] eqn:E.
    destruct (serve_local_progress _ _ _ _ _ _ _ _ (cap c) E) as [(-> & _)|Hlt]; [unfold cap; lia| |].
    + left. split_and!; simpl; [by apply insert_id|done..].
    + right. destruct (pcs_insert _ t q q' Hq) as (rest & P1 & P2). unfold total, pcs. cbn [cf_reqs].
      change (cap (mkPConf _ _ _ _ _)) with (cap c). rewrite P1, P2. csimpl. unfold wcs. cbn [cf_writers]. lia.
  - destruct (cf_reqs c !! t) as [q|] eqn:Hq; [|by left].
    destruct (pcs_insert _ t q (reply_local ok q) Hq) as (rest & P1 & P2).
    destruct q; try (left; split_and!; simpl; [by apply insert_id|done..]).
    right. unfold total, pcs. cbn [cf_reqs].
    change (cap (mkPConf _ _ _ _ _)) with (cap c). rewrite P1, P2. csimpl. unfold wcs. cbn [cf_writers]. lia.
  - by left.
  - destruct (cf_writers c !! t) as [w|] eqn:Hw; [|by left].
    assert (∀ w' p' σ', (wremaining w' < wremaining w)%nat →
      (length (backends p') + Nat.b2n (adding w') ≤ length (backends (cf_pool c)) + Nat.b2n (adding w))%nat →
      (total (mkPConf σ' p' (cf_rr c) (cf_reqs c) (<[t := w']> (cf_writers c))) < total c)%nat) as Hstep.
    { intros w' p' σ' Hlt Hcap. destruct (pcs_insert _ t w w' Hw) as (rest & P1 & P2).
      set (c' := mkPConf σ' p' (cf_rr c) (cf_reqs c) (<[t := w']> (cf_writers c))).
      assert (cap c' ≤ cap c)%nat as Hc.
      { unfold cap, wcs. cbn [cf_writers c']. rewrite P1, P2, !filter_cons. cbn [cf_pool c'].
        destruct (adding w), (adding w'); simpl in *; lia. }
      pose proof (sum_remaining_mono _ _ (pcs c) Hc). unfold total.
      change (pcs c') with (pcs c). unfold wcs. cbn [cf_writers c']. rewrite P1, P2. csimpl. lia. }
    destruct w as [b|p|p|p| |]; simpl.
    + right. apply Hstep; simpl; lia.
    + case_decide; [by left|]. right. apply Hstep; destruct p; simpl; lia.
    + case_decide; [by left|]. right. apply Hstep; destruct p; simpl; lia.
    + right. apply Hstep; destruct p as [l|id]; simpl; [lia|lia|rewrite length_app; simpl; lia|].
      pose proof (Pool_Remove_length (cf_store c) id (cf_pool c)). lia.
    + right. apply Hstep; simpl; lia.
    + by left.
Qed.

Lemma run_total r acts c : same c (prun r acts c) ∨ (total (prun r acts c) < total c)%nat.
Proof.
  unfold prun. revert c. induction acts as [|a acts IH]; intros c; cbn [fold_left]; [by left|].
  destruct (act_total r a c) as [H1|H1], (IH (act r a c)) as [H2|H2].
  - left. by etrans.
  - right. by rewrite (proj1 (same_total _ _ H1)) in H2.
  - right. by rewrite (proj1 (same_total _ _ H2)).
  - right. lia.
Qed.

(** When a run moves no goroutine, none of its actions does. *)
Lemma run_same_each r acts c a :
  same c (prun r acts c) → a ∈ acts → ∃ c1, same c c1 ∧ same c1 (act r a c1).
Proof.
  unfold prun. revert c. induction acts as [|a' acts IH]; intros c H Hin; [by apply elem_of_nil in Hin|].
  cbn [fold_left] in H. destruct (act_total r a' c) as [H1|H1].
  - apply elem_of_cons in Hin as [->|Hin]; [by exists c|].
    destruct (IH (act r a' c)) as (c1 & H2 & H3); [|done|].
    + destruct H as (?&?&?), H1 as (?&?&?). unfold same. split_and!; congruence.
    + exists c1. split; [by etrans|done].
  - exfalso. pose proof (run_total r acts (act r a' c)) as H2. unfold prun in H2.
    apply same_total in H as [H _]. destruct H2 as [H2%same_total|H2]; lia.
Qed.

(** A round gives every goroutine a turn, and ends the exchanges of the requests
    in [T], if they have begun; other actions may be among these. *)
Definition is_round (T : nat → Prop) (c : pconf) (rd : list action) : Prop :=
  (∀ t, is_Some (cf_reqs c !! t) → Serve t ∈ rd) ∧
  (∀ t, is_Some (cf_writers c !! t) → Writer t ∈ rd) ∧
  (∀ t, T t → ∃ ok, Reply t ok ∈ rd).

(** The writers are done, and so are the requests in [T]. *)
Definition settled (T : nat → Prop) (c : pconf) : Prop :=
  (∀ t w, cf_writers c !! t = Some w → w = W_done) ∧
  (∀ t q, T t → cf_reqs c !! t = Some q → finished q).

Lemma values_elem {A} (m : gmap nat A) x : x ∈ (map_to_list m).*2 → ∃ t, m !! t = Some x.
Proof. intros ([t y] & -> & H)%list_elem_of_fmap. exists t. by apply elem_of_map_to_list. Qed.

(** No deadlock: a round in which nothing moves finds everything settled. *)
Lemma stuck_settled T r rd c : is_round T c rd → same c (prun r rd c) → settled T c.
Proof.
  intros (R1 & R2 & R3) Hs.
  assert (∀ a, a ∈ rd → ∃ c1, same c c1 ∧ same c1 (act r a c1)) as Heach by (intros a; by apply run_same_each).
  assert (∀ t q, cf_reqs c !! t = Some q → finished q ∨ (∃ b, q = Q_flight b) ∨ q = Q_start ∧ write_announced c) as Hq.
  { intros t q Hq. destruct (Heach _ (R1 t (ex_intro _ q Hq))) as (c1 & (E1 & E2 & E3) & H1 & _). unfold act in H1.
    rewrite E1, Hq in H1. case_decide as Hd.
    - right. right. split; [by apply Hd|]. unfold write_announced, wcs in *. rewrite <- E2. apply Hd.
    - destruct (serve_local r q (cf_store c1) (cf_pool c1) (cf_rr c1)) as [[q' σ'] rr'] eqn:E. simpl in H1.
      destruct (serve_local_progress _ _ _ _ _ _ _ _ (length (backends (cf_pool c1))) E) as [(_ & _ & Hf)|Hlt]; [done|tauto|].
      exfalso. assert (<[t := q']> (cf_reqs c) !! t = Some q) as H2 by congruence.
      rewrite lookup_insert_eq in H2. injection H2 as ->. lia. }
  assert (¬ read_locked c) as Hnr.
  { intros H. apply Exists_exists in H as (q & (t & Ht)%values_elem & Hr).
    destruct (Hq t q Ht) as [Hf|[[b ->]|[-> _]]]; [by destruct q|done|done]. }
  assert (∀ t w, cf_writers c !! t = Some w → w = W_done ∨ ∃ p, w = W_lock p ∧ write_announced c) as Hw.
  { intros t w Hw. destruct (Heach _ (R2 t (ex_intro _ w Hw))) as (c1 & (E1 & E2 & E3) & _ & H2 & _). unfold act in H2.
    rewrite E2, Hw in H2. assert (∀ w', <[t := w']> (cf_writers c) = cf_writers c → w' = w) as Hx.
    { intros w' H. assert (<[t := w']> (cf_writers c) !! t = Some w) as H' by (by rewrite H).
      rewrite lookup_insert_eq in H'. congruence. }
    destruct w as [b|p|p|p| |]; simpl in H2.
    - rewrite E2 in H2. by apply Hx in H2.
    - case_decide as Hd; [|simpl in H2; rewrite E2 in H2; by apply Hx in H2].
      right. exists p. split; [done|]. unfold write_announced, wcs in *. by rewrite <- E2.
    - case_decide as Hd; [|simpl in H2; rewrite E2 in H2; by apply Hx in H2].
      exfalso. apply Hnr. unfold read_locked, pcs in *. by rewrite <- E1.
    - rewrite E2 in H2. by apply Hx in H2.
    - rewrite E2 in H2. by apply Hx in H2.
    - by left. }
  assert (¬ write_announced c) as Hna.
  { intros H. apply Exists_exists in H as (w & (t & Ht)%values_elem & Ha).
    destruct (Hw t w Ht) as [->|(p & -> & _)]; done. }
  split.
  - intros t w Ht. destruct (Hw t w Ht) as [?|(p & _ & ?)]; done.
  - intros t q HT Ht. destruct (Hq t q Ht) as [?|[[b ->]|[_ ?]]]; [done| |done]. exfalso.
    destruct (R3 t HT) as [ok Hin]. destruct (Heach _ Hin) as (c1 & (E1 & _) & H1 & _). unfold act in H1.
    rewrite E1, Ht in H1. simpl in H1.
    assert (<[t := Q_release b ok]> (cf_reqs c) !! t = Some (Q_flight b)) as H2 by congruence.
    rewrite lookup_insert_eq in H2. congruence.
Qed.

(** What is settled stays so, and no goroutine is lost. *)
Lemma act_keeps r a c :
  (∀ t, is_Some (cf_reqs (act r a c) !! t) ↔ is_Some (cf_reqs c !! t)) ∧
  (∀ t, is_Some (cf_writers (act r a c) !! t) ↔ is_Some (cf_writers c !! t)).
Proof.
  assert (∀ {A} (m : gmap nat A) t x y t', m !! t = Some x → is_Some (<[t := y]> m !! t') ↔ is_Some (m !! t')) as Hi.
  { intros A m t x y t' H. rewrite lookup_insert_is_Some'. split; [intros [<-|?]; eauto|by right]. }
  destruct a as [t|t ok|l h|t]; unfold act; try done.
  - destruct (cf_reqs c !! t) as [q|] eqn:E; [|done]. case_decide; [done|].
    destruct (serve_local _ _ _ _ _) as [[??]?]. split; [|done]. intros t'. by eapply Hi.
  - destruct (cf_reqs c !! t) as [q|] eqn:E; [|done]. split; [|done]. intros t'. by eapply Hi.
  - destruct (cf_writers c !! t) as [w|] eqn:E; [|done].
    destruct w; simpl; repeat case_decide; try done; (split; [done|]); intros t'; by eapply Hi.
Qed.

Lemma run_keeps r acts c :
  (∀ t, is_Some (cf_reqs (prun r acts c) !! t) ↔ is_Some (cf_reqs c !! t)) ∧
  (∀ t, is_Some (cf_writers (prun r acts c) !! t) ↔ is_Some (cf_writers c !! t)).
Proof.
  unfold prun. revert c. induction acts as [|a acts IH]; intros c; cbn [fold_left]; [done|].
  destruct (IH (act r a c)) as [H1 H2], (act_keeps r a c) as [H3 H4].
  split; intros t; [by rewrite H1, H3|by rewrite H2, H4].
Qed.

Lemma settled_act T r a c : settled T c → settled T (act r a c).
Proof.
  intros [Hw Hq]. destruct a as [t|t ok|l h|t]; unfold act; try done.
  - destruct (cf_reqs c !! t) as [q|] eqn:E; [|done]. case_decide; [done|].
    destruct (serve_local r q (cf_store c) (cf_pool c) (cf_rr c)) as [[q' σ'] rr'] eqn:Es. split; [done|]. simpl.
    intros t' q0 HT. rewrite lookup_insert. case_decide; [|by apply Hq]. intros [= <-]. subst.
    specialize (Hq t' q HT E). by destruct q; simplify_eq/=.
  - destruct (cf_reqs c !! t) as [q|] eqn:E; [|done]. split; [done|]. simpl.
    intros t' q0 HT. rewrite lookup_insert. case_decide; [|by apply Hq]. intros [= <-]. subst.
    specialize (Hq t' q HT E). by destruct q.
  - destruct (cf_writers c !! t) as [w|] eqn:E; [|done]. by rewrite (Hw t w E).
Qed.

Lemma settled_run T r acts c : settled T c → settled T (prun r acts c).
Proof. unfold prun. revert c. induction acts as [|a acts IH]; intros c H; simpl; [done|]. by apply IH, settled_act. Qed.

Lemma rounds_settle T r rounds c0 c :
  (∀ t, is_Some (cf_reqs c !! t) ↔ is_Some (cf_reqs c0 !! t)) →
  (∀ t, is_Some (cf_writers c !! t) ↔ is_Some (cf_writers c0 !! t)) →
  Forall (is_round T c0) rounds → (total c < length rounds)%nat →
  settled T (prun r (concat rounds) c).
Proof.
  intros Hd1 Hd2 Hr. revert c Hd1 Hd2. induction Hr as [|rd rounds Hrd _ IH]; intros c Hd1 Hd2 Hle; simpl in *; [lia|].
  rewrite prun_app. destruct (run_total r rd c) as [Hs|Hlt].
  - apply settled_run, settled_run. apply (stuck_settled T r rd); [|done]. destruct Hrd as (R1 & R2 & R3).
    split_and!; [|  |done]; intros t Ht; [apply R1, Hd1, Ht|apply R2, Hd2, Ht].
  - destruct (run_keeps r rd c) as [K1 K2].
    apply IH; [intros t; by rewrite K1|intros t; by rewrite K2|lia].
Qed.

(** The bound in terms of what there is at the start. *)
Lemma total_bound c :
  (total c ≤ (length (backends (cf_pool c)) + length (wcs c) + 6) * length (pcs c) + 5 * length (wcs c) +
    sum_list ((λ q, match q with Q_scan _ rest => length rest | _ => 0 end) <$> pcs c))%nat.
Proof.
  unfold total. assert (cap c ≤ length (backends (cf_pool c)) + length (wcs c))%nat as Hc.
  { unfold cap. pose proof (length_filter (λ w, adding w = true) (wcs c)). lia. }
  revert Hc. generalize (cap c) (length (backends (cf_pool c))). intros n m Hc.
  assert (sum_list (wremaining <$> wcs c) ≤ 5 * length (wcs c))%nat as Hw.
  { clear. induction (wcs c) as [|w ws IH]; csimpl; [done|]. destruct w; simpl; lia. }
  assert (∀ qs, (sum_list (remaining n <$> qs) ≤ (m + length (wcs c) + 6) * length qs +
    sum_list ((λ q, match q with Q_scan _ rest => length rest | _ => 0 end) <$> qs))%nat) as Hq.
  { clear -Hc. induction qs as [|q qs IH]; csimpl; [lia|]. destruct q; simpl in *; lia. }
  specialize (Hq (pcs c)). lia.
Qed.

(** ** The lock of the pool *)

Definition changing (w : wpc) : bool := match w with W_write _ | W_unlock => true | _ => false end.

(** What [RWMutex] ensures: one writer at a time, no reader while it is at work,
    and a reader that goes through the pool goes through the pool as it is. *)
Record lock_ok (c : pconf) : Prop := {
  lk_writer : ∀ t t' w w', cf_writers c !! t = Some w → cf_writers c !! t' = Some w' →
    announcing w = true → announcing w' = true → t = t';
  lk_excl : ∀ t w, cf_writers c !! t = Some w → changing w = true → ¬ read_locked c;
  lk_scan : ∀ t out rest, cf_reqs c !! t = Some (Q_scan out rest) → ∃ pre, backends (cf_pool c) = pre ++ rest;
}.

Lemma read_locked_iff c : read_locked c ↔ ∃ t out rest, cf_reqs c !! t = Some (Q_scan out rest).
Proof.
  unfold read_locked, pcs. split.
  - intros (q & (t & Ht)%values_elem & Hr)%Exists_exists. destruct q; try done. eauto.
  - intros (t & out & rest & H). apply Exists_exists. exists (Q_scan out rest). split; [|done]. by eapply (pcs_elem c).
Qed.

Lemma write_announced_iff c : write_announced c ↔ ∃ t w, cf_writers c !! t = Some w ∧ announcing w = true.
Proof.
  unfold write_announced, wcs. split.
  - intros (w & (t & Ht)%values_elem & Hr)%Exists_exists. eauto.
  - intros (t & w & H & Ha). apply Exists_exists. exists w. split; [|done].
    apply list_elem_of_fmap. exists (t, w). split; [done|]. by apply elem_of_map_to_list.
Qed.

Lemma changing_announcing w : changing w = true → announcing w = true.
Proof. by destruct w. Qed.

(** A request moves: it begins to scan only when no writer is announced. *)
Lemma lock_ok_request c t q' σ' rr' :
  lock_ok c →
  (∀ out rest, q' = Q_scan out rest → ¬ write_announced c ∧ (∃ pre, backends (cf_pool c) = pre ++ rest) ∨
    ∃ out' b, cf_reqs c !! t = Some (Q_scan out' (b :: rest))) →
  lock_ok (mkPConf σ' (cf_pool c) rr' (<[t := q']> (cf_reqs c)) (cf_writers c)).
Proof.
  intros [H1 H2 H3] Hq. constructor; simpl; [done| |].
  - intros t' w Ht' Hw (t0 & out & rest & H)%read_locked_iff. simpl in H. rewrite lookup_insert in H. case_decide as Htt.
    + injection H as ->. destruct (Hq out rest eq_refl) as [[Hn _]|(out' & b & H0)].
      * apply Hn, write_announced_iff. exists t', w. split; [done|by apply changing_announcing].
      * apply (H2 t' w Ht' Hw), read_locked_iff. eauto.
    + apply (H2 t' w Ht' Hw), read_locked_iff. eauto.
  - intros t0 out rest. rewrite lookup_insert. case_decide as Htt; [|by apply H3]. intros [= ->].
    destruct (Hq out rest eq_refl) as [[_ ?]|(out' & b & H0)]; [done|].
    destruct (H3 _ _ _ H0) as [pre ->]. exists (pre ++ [b]). by rewrite <- app_assoc.
Qed.

(** A writer moves. *)
Lemma lock_ok_writer c t w w' σ' p' :
  lock_ok c → cf_writers c !! t = Some w →
  (announcing w' = true → announcing w = true ∨ ¬ write_announced c) →
  (changing w' = true → changing w = true ∨ ¬ read_locked c) →
  p' = cf_pool c ∨ changing w = true →
  lock_ok (mkPConf σ' p' (cf_rr c) (cf_reqs c) (<[t := w']> (cf_writers c))).
Proof.
  intros [H1 H2 H3] Hw Ha Hc Hp.
  assert (∀ t1 w1, <[t := w']> (cf_writers c) !! t1 = Some w1 → announcing w1 = true → t1 ≠ t →
    announcing w' = true → False) as Hone.
  { intros t1 w1 E1 A1 Hne A. rewrite lookup_insert_ne in E1 by done. destruct (Ha A) as [Aw|Hn].
    - by apply Hne, (H1 t1 t w1 w).
    - apply Hn, write_announced_iff. eauto. }
  constructor; simpl.
  - intros t1 t2 w1 w2 E1 E2 A1 A2.
    destruct (decide (t1 = t)) as [->|N1], (decide (t2 = t)) as [->|N2]; [done|exfalso..|].
    + rewrite lookup_insert_eq in E1. injection E1 as <-. by apply (Hone t2 w2).
    + rewrite lookup_insert_eq in E2. injection E2 as <-. by apply (Hone t1 w1).
    + rewrite lookup_insert_ne in E1, E2 by done. by apply (H1 t1 t2 w1 w2).
  - intros t1 w1 E1 C1. change (¬ read_locked c). rewrite lookup_insert in E1. case_decide; [|by apply (H2 t1 w1)].
    injection E1 as <-. destruct (Hc C1) as [Cw|?]; [by apply (H2 t w)|done].
  - intros t0 out rest Ht. destruct Hp as [->|Cw]; [by apply (H3 t0 out rest)|].
    exfalso. apply (H2 t w Hw Cw), read_locked_iff. eauto.
Qed.

Lemma lock_ok_act r a c : lock_ok c → lock_ok (act r a c).
Proof.
  intros Hok. destruct a as [t|t ok|l h|t]; unfold act.
  - destruct (cf_reqs c !! t) as [q|] eqn:Hq; [|done]. case_decide as Hd; [done|].
    destruct (serve_local r q (cf_store c) (cf_pool c) (cf_rr c)) as [[q' σ'] rr'] eqn:E.
    apply lock_ok_request; [done|]. intros out' rest' ->.
    destruct q as [|out [|b rest]|hs|b|b|b ok|b|b| |]; simpl in E; simplify_eq.
    + left. split; [intros ?; by apply Hd|by exists []].
    + right. repeat case_match; simplify_eq; eauto.
    + by repeat case_match; simplify_eq.
    + by destruct (Backend_IncConns b _) as [[]?]; simplify_eq.
    + by destruct (Backend_DecConns b _) as [[]?]; destruct ok; simplify_eq.
  - destruct (cf_reqs c !! t) as [q|] eqn:Hq; [|done]. destruct q;
      try (by rewrite insert_id by done; destruct c); by apply lock_ok_request.
  - destruct Hok as [H1 H2 H3]. by constructor.
  - destruct (cf_writers c !! t) as [w|] eqn:Hw; [|done]. destruct w as [b|p|p|p| |]; simpl; try done.
    + eapply lock_ok_writer; try done. by left.
    + case_decide; [done|]. eapply lock_ok_writer; try done; auto.
    + case_decide; [done|]. eapply lock_ok_writer; try done; auto.
    + eapply lock_ok_writer; try done; auto.
    + eapply lock_ok_writer; try done; auto.
Qed.

Lemma arriving_lock_ok c : arriving c → lock_ok c.
Proof.
  intros (_ & Hs & Hw & _). constructor.
  - intros t t' w w' Ht _ Ha. specialize (Hw t w Ht). by destruct w as [?|[]|?|?| |].
  - intros t w Ht Hc. specialize (Hw t w Ht). by destruct w as [?|[]|?|?| |].
  - intros t out rest Ht. by specialize (Hs t _ Ht).
Qed.

Lemma flight_stays r acts c t b :
  Forall (λ a, ∀ ok, a ≠ Reply t ok) acts → cf_reqs c !! t = Some (Q_flight b) →
  cf_reqs (prun r acts c) !! t = Some (Q_flight b).
Proof.
  unfold prun. intros Ha. revert c. induction Ha as [|a acts Ha _ IH]; intros c Ht; cbn [fold_left]; [done|].
  apply IH. destruct a as [t'|t' ok|l h|t']; unfold act; [| |done|].
  - destruct (cf_reqs c !! t') as [q|] eqn:Hq; [|done]. case_decide; [done|].
    destruct (serve_local r q (cf_store c) (cf_pool c) (cf_rr c)) as [[q' σ'] rr'] eqn:E. simpl.
    rewrite lookup_insert. case_decide; [|done]. subst. rewrite Ht in Hq. injection Hq as <-. simpl in E. by simplify_eq.
  - destruct (cf_reqs c !! t') as [q|] eqn:Hq; [|done]. simpl. rewrite lookup_insert_ne; [done|].
    intros ->. by apply (Ha ok).
  - destruct (cf_writers c !! t') as [w|]; [|done]. destruct w; simpl; repeat case_decide; done.
Qed.

(** ** Properties *)

(** C5. Accounting under concurrency: however the operations of any number of
    requests, health changes and pool changes interleave, and whether the
    exchanges end with an answer, with a panic, or not at all, the connection
    count of every backend is its initial count plus the requests now between
    [IncConns] and the deferred [DecConns] on it; so once every request has
    returned or has been unwound by the panic of its exchange, the counts are
    the initial ones.  No request unwinds with a panic of the proxy itself, given
    that the counter of the round robin has room: its value plus the number of
    requests is at most 2^63-1 (beyond that [Next] does panic, C25). *)
Theorem inflight_accounting r acts c :
  arriving c →
  let c' := prun r acts c in
  (Q_panicked ∉ pcs c') ∧
  ∀ l b, cf_store c !! l = Some b → is_int64 (activeConns b) →
    ∃ b', cf_store c' !! l = Some b' ∧
      activeConns b' = wrap64 (activeConns b + Z.of_nat (inflight l c')) ∧
      (Forall finished (pcs c') → activeConns b' = activeConns b).
Proof.
  intros Ha c'. pose proof Ha as (_ & _ & _ & Hc0 & Hc1). assert (conc_ok c c') as [_ _ _ Hn _ _ Hb].
  { apply conc_ok_run; [done|done|]. by apply arriving_ok. }
  split; [done|]. intros l b H Hr. destruct (Hb l b H Hr) as (b' & H1 & E).
  exists b'. split_and!; [done|done|]. intros Hf. rewrite E.
  replace (inflight l c') with 0%nat; [by rewrite Z.add_0_r, wrap64_id|].
  symmetry. apply inflight_none. intros q Hq. rewrite Forall_forall in Hf. specialize (Hf q Hq). by destruct q.
Qed.

(** C6. Fairness under concurrency: while the pool does not change and its
    backends are distinct and healthy, under every interleaving of the requests
    (with room in the counter for all of them) and of the ends of their
    exchanges every backend has at each moment been picked [k / n] times or once
    more, [k] being the number of picks so far and [n] the number of backends;
    and when all requests have returned each of them was sent to a backend. *)
Theorem concurrent_fairness r acts c :
  arriving c → Forall (healthy_at (cf_store c)) (backends (cf_pool c)) →
  NoDup (backends (cf_pool c)) → backends (cf_pool c) ≠ [] →
  Forall request_act acts →
  let c' := prun r acts c in
  let n := length (backends (cf_pool c)) in
  let k := length (picks c') in
  (∀ l, l ∈ backends (cf_pool c) → (k / n ≤ occ l (picks c') ≤ S (k / n))%nat) ∧
  (Forall finished (pcs c') → k = length (pcs c)).
Proof.
  intros Ha Hh Hn Hne Hacts c' n k. pose proof Ha as (_ & _ & _ & Hc0 & Hc1). assert (fair_ok c c') as [Hok _ _ Hpc Hpk].
  { apply fair_ok_run; [done|done|done|done|]. by apply arriving_fair. }
  split.
  - intros l Hl. rewrite Hpk. by apply cyclic_balanced.
  - intros Hf. rewrite <- (ok_size _ _ Hok). by eapply all_picked.
Qed.

(** C8. Out of service means no new requests: from a moment at which a backend
    is not healthy, and until something sets it to [Healthy] again, no request
    that arrives is sent to it, whatever the other requests, the health checks
    and the administrator do meanwhile. *)
Theorem ejected_gets_no_requests r acts c l t q :
  is_Some (cf_store c !! l) → ¬ healthy_at (cf_store c) l →
  Forall (λ a, a ≠ ChangeHealth l HealthHealthy) acts →
  cf_reqs c !! t = Some Q_start → cf_reqs (prun r acts c) !! t = Some q →
  picked q ≠ Some l.
Proof.
  intros Hl Hh Ha Hs Hq. apply pc_avoids_picked.
  apply (avoids_run r acts l t c Ha); [|done].
  split_and!; [done|done|]. rewrite Hs. by intros ? [= <-].
Qed.

(** C9. Without interference the interleaved model is the sequential one: a
    request that runs alone reaches its end, by its own operations and the end
    of its exchange, with the store, the counter and the result that [ServeHTTP]
    gives, for every upstream that leaves the backends alone: one that answers,
    that fails, and one whose exchange panics. *)
Theorem solo_request (RT : Request → M store (option Response)) f r p σ (rr : RoundRobin) reqs t :
  (∀ req σ1, RT req σ1 = (f req, σ1)) → (∀ req, f req ≠ Panic Deadlock) →
  live σ (backends p) → reqs !! t = Some Q_start →
  let '(res, (rr', σ')) := HTTPProxy_ServeHTTP RT p r (rr, σ) in
  ∃ acts q, Forall (λ a, a = Serve t ∨ ∃ ok, a = Reply t ok) acts ∧
    prun r acts (mkPConf σ p rr reqs ∅) = mkPConf σ' p rr' (<[t := q]> reqs) ∅ ∧
    agrees σ f r q res.
Proof.
  intros HRT Hf Hl Hq. pose proof (solo_healthy r t σ p rr reqs Hl Hq) as Hsolo.
  set (hs := filter (healthy_at σ) (backends p)) in *.
  pose proof (Pool_Healthy_filter σ p Hl) as Eh. fold hs in Eh.
  assert (∀ n, Forall (λ a, a = Serve t ∨ ∃ ok, a = Reply t ok) (replicate n (Serve t))) as Hown
    by (intros n; apply Forall_replicate; by left).
  destruct (decide (hs = [])) as [He|Hne].
  - unfold HTTPProxy_ServeHTTP, mbind, M_bind, gets, lift. cbn [fst snd].
    rewrite Eh, decide_True by (by rewrite zlen_zero). unfold mret, M_ret.
    exists (replicate (S (S (length (backends p))) + 1) (Serve t)), Q_unavailable. split; [done|]. split; [|done].
    rewrite replicate_add, prun_app, Hsolo. unfold prun. cbn [replicate fold_left].
    erewrite act_serve; [|by rewrite lookup_insert_eq|simpl; by rewrite decide_True by (by rewrite zlen_zero)].
    by rewrite insert_insert_eq.
  - pose proof (RoundRobin_Next_nonempty r hs σ rr Hne) as Hin.
    destruct (RoundRobin_Next r hs σ rr) as [[[[b|] [err|]]|w] rr'] eqn:En; cbn [fst] in Hin; try done.
    + assert (is_Some (σ !! b)) as [bk Hbk] by (eapply live_elem; [apply filter_healthy_live|exact Hin]).
      pose proof (with_conn_lookup _ _ _ Hbk) as Hw.
      rewrite (@ServeHTTP_picked RoundRobin RoundRobin_Selector RT p r rr σ b bk rr' _ _ _
                 Hl Hne En Hbk (HRT _ _) (Hf _) Hw).
      set (ok := match f (upstream_request b (BURL bk) r) with Ret _ => true | Panic _ => false end).
      exists (replicate (S (S (length (backends p)))) (Serve t) ++ [Serve t; Serve t; Reply t ok; Serve t]),
        (if ok then Q_answered b else Q_aborted b). split.
      { apply Forall_app. split; [done|]. repeat apply Forall_cons_2; try apply Forall_nil_2; eauto. }
      split.
      * rewrite prun_app, Hsolo.
        rewrite (solo_picked r t σ p rr rr' _ hs b bk ok); [|by rewrite lookup_insert_eq|done|done|done].
        by rewrite insert_insert_eq.
      * unfold ok. destruct (f (upstream_request b (BURL bk) r)) as [[resp|]|w] eqn:Ef; exists bk; rewrite Ef; [done|done|].
        by exists w.
    + unfold HTTPProxy_ServeHTTP, mbind, M_bind, gets, lift, on_selector. cbn [fst snd].
      rewrite Eh, decide_False by (by rewrite zlen_zero).
      cbn [fst snd]. unfold Next, RoundRobin_Selector. rewrite En.
      exists (replicate (S (S (length (backends p))) + 1) (Serve t)), Q_panicked. split; [done|]. split; [|by exists w].
      rewrite replicate_add, prun_app, Hsolo. unfold prun. cbn [replicate fold_left].
      erewrite act_serve; [|by rewrite lookup_insert_eq|].
      2: { cbn [serve_local]. rewrite decide_False by (by rewrite zlen_zero). by rewrite En. }
      by rewrite insert_insert_eq.
Qed.

(** C7. No deadlock on the lock of the pool, and no request waits for another's
    upstream: however requests that have arrived and goroutines that change the
    pool, wherever these stand, interleave, with [RLock] waiting for an announced
    writer and [Lock] for the readers, enough rounds in which each of them gets a
    turn complete every change of the pool, and every request whose own exchange
    is ended, even if the exchanges of the others never end; the rounds needed
    are the backends plus the writers plus six for each request, and five for
    each writer.  A request in flight stays there until its exchange ends. *)
Theorem request_completes (T : nat → Prop) r rounds c :
  map_Forall (λ _ q, q = Q_start) (cf_reqs c) →
  Forall (is_round T c) rounds →
  ((length (backends (cf_pool c)) + length (wcs c) + 6) * length (pcs c) + 5 * length (wcs c) < length rounds)%nat →
  settled T (prun r (concat rounds) c) ∧
  (∀ t, is_Some (cf_reqs c !! t) → is_Some (cf_reqs (prun r (concat rounds) c) !! t)) ∧
  ∀ acts t b, Forall (λ a, ∀ ok, a ≠ Reply t ok) acts →
    cf_reqs (prun r (concat rounds) c) !! t = Some (Q_flight b) →
    cf_reqs (prun r acts (prun r (concat rounds) c)) !! t = Some (Q_flight b).
Proof.
  intros Hs Hr Hle. split; [|split; [|by intros acts t b; apply flight_stays]].
  2: { intros t Ht. by apply (proj1 (run_keeps r (concat rounds) c)). }
  apply (rounds_settle T r rounds c); [done|done|done|].
  pose proof (total_bound c) as H.
  assert (sum_list ((λ q, match q with Q_scan _ rest => length rest | _ => 0 end) <$> pcs c) = 0)%nat as H0; [|lia].
  assert (Forall (λ q, q = Q_start) (pcs c)) as Hall by (by apply map_values).
  clear -Hall. induction Hall as [|q qs -> _ IH]; csimpl; [done|]. by rewrite IH.
Qed.

(** The lock of the pool keeps writers apart from each other and from the
    requests that go through the pool: such a request sees the pool as it is,
    whatever is interleaved. *)
Theorem pool_lock_exclusive r acts c :
  arriving c → lock_ok (prun r acts c).
Proof.
  intros Ha%arriving_lock_ok. revert Ha. unfold prun. revert c. induction acts as [|a acts IH]; intros c H; simpl; [done|].
  by apply IH, lock_ok_act.
Qed.

(** ** Witnesses *)

(** Three requests, and two goroutines that add and remove a backend. *)
Definition ex_three (p : Pool) : pconf :=
  mkPConf ex_store p NewRoundRobin {[ 1%nat := Q_start; 2%nat := Q_start; 3%nat := Q_start ]}
    {[ 1%nat := W_new (ex_backend "b3" 1 HealthHealthy); 2%nat := W_lock (PRemove "b2") ]}.

Lemma ex_three_arriving p : live ex_store (backends p) → arriving (ex_three p).
Proof.
  intros Hl. split_and!; [done| | |vm_compute; discriminate|vm_compute; discriminate].
  - apply (bool_decide_eq_true_1 _). vm_compute. reflexivity.
  - intros t w Hw. cbn [cf_writers ex_three] in Hw. rewrite lookup_insert_Some, lookup_singleton_Some in Hw.
    by destruct Hw as [[_ <-]|[_ [_ <-]]].
Qed.

(** Two requests overlap; a health check ejects their backend and a backend is
    added meanwhile; one exchange panics, one answers, a third request is on its
    way. *)
Definition ex_overlap : list action :=
  (Serve <$> [1; 2; 1; 1; 2; 1; 2; 2; 1; 2; 1; 2; 1]%nat) ++
  [ChangeHealth 0 HealthUnhealthy; Writer 1; Writer 1; Serve 3; Writer 1; Writer 1; Writer 1] ++
  (Serve <$> [2; 1; 2; 3; 3; 2]%nat) ++ [Reply 1 false; Serve 1; Reply 2 true; Serve 2].

Lemma inflight_accounting_witness :
  let c' := prun (ex_request "1.2.3.4:5") ex_overlap (ex_three ex_pool) in
  cf_reqs c' !! 1%nat = Some (Q_aborted 0%nat) ∧ inflight 2 c' = 0%nat ∧
  (Q_panicked ∉ pcs c') ∧ ∃ b', cf_store c' !! 0%nat = Some b' ∧
    activeConns b' = wrap64 (0 + Z.of_nat (inflight 0 c')).
Proof.
  destruct (inflight_accounting (ex_request "1.2.3.4:5") ex_overlap (ex_three ex_pool)
    (ex_three_arriving _ ex_pool_live)) as [Hn Hb].
  split; [vm_compute; reflexivity|]. split; [vm_compute; reflexivity|]. split; [exact Hn|].
  destruct (Hb 0%nat (ex_backend "b0" 1 HealthHealthy)) as (b' & H1 & H2 & _).
  - vm_compute. reflexivity.
  - unfold is_int64. vm_compute. split; discriminate.
  - exists b'. split; [exact H1|exact H2].
Defined.

Definition ex_turns : list action :=
  concat (replicate 8 [Serve 1; Serve 2; Reply 2 true; Serve 3; Reply 1 false; Reply 3 true]).

Lemma concurrent_fairness_witness :
  let c' := prun (ex_request "1.2.3.4:5") ex_turns (ex_three (NewPool [0; 2]%nat)) in
  length (picks c') = 3%nat ∧ (1 ≤ occ 0 (picks c') ≤ 2)%nat.
Proof.
  destruct (concurrent_fairness (ex_request "1.2.3.4:5") ex_turns (ex_three (NewPool [0; 2]%nat)))
    as [H1 H2].
  - apply ex_three_arriving. repeat constructor; eexists; vm_compute; reflexivity.
  - apply (bool_decide_eq_true_1 _). vm_compute. reflexivity.
  - apply (bool_decide_eq_true_1 _). vm_compute. reflexivity.
  - discriminate.
  - unfold ex_turns. cbn. repeat constructor.
  - split; [vm_compute; reflexivity|]. apply (H1 0%nat). left.
Defined.

Lemma ejected_gets_no_requests_witness :
  ∃ q, cf_reqs (prun (ex_request "1.2.3.4:5") ex_turns (ex_three ex_pool)) !! 2%nat = Some q ∧
    picked q = Some 2%nat ∧ picked q ≠ Some 1%nat.
Proof.
  eexists. split; [vm_compute; reflexivity|]. split; [vm_compute; reflexivity|].
  apply (ejected_gets_no_requests (ex_request "1.2.3.4:5") ex_turns (ex_three ex_pool)
    1%nat 2%nat).
  - eexists. vm_compute. reflexivity.
  - vm_compute. discriminate.
  - unfold ex_turns. cbn. repeat constructor; discriminate.
  - vm_compute. reflexivity.
  - vm_compute. reflexivity.
Defined.

Lemma solo_request_witness :
  let '(res, (rr', σ')) := HTTPProxy_ServeHTTP ex_upstream ex_pool ex_client (NewRoundRobin, ex_store) in
  ∃ acts q, Forall (λ a, a = Serve 1 ∨ ∃ ok, a = Reply 1 ok) acts ∧
    prun ex_client acts (mkPConf ex_store ex_pool NewRoundRobin (cf_reqs (ex_three ex_pool)) ∅) =
      mkPConf σ' ex_pool rr' (<[1%nat := q]> (cf_reqs (ex_three ex_pool))) ∅ ∧
    agrees ex_store (λ r, Ret (Some (mkResponse 200 ∅ (req_Path r)))) ex_client q res.
Proof.
  apply (solo_request ex_upstream (λ r, Ret (Some (mkResponse 200 ∅ (req_Path r)))) ex_client ex_pool ex_store
    NewRoundRobin (cf_reqs (ex_three ex_pool)) 1%nat).
  - intros req σ1. reflexivity.
  - intros req. discriminate.
  - exact ex_pool_live.
  - vm_compute. reflexivity.
Defined.

(** The exchanges of requests 1 and 3 end, that of request 2 never does. *)
Definition ex_fair_round : list action :=
  [Serve 1; Writer 1; Serve 2; Reply 1 false; Serve 3; Writer 2; Reply 3 true].

Lemma request_completes_witness :
  let c' := prun (ex_request "1.2.3.4:5") (concat (replicate 60 ex_fair_round)) (ex_three ex_pool) in
  settled (λ t, t = 1%nat ∨ t = 3%nat) c' ∧ cf_reqs c' !! 2%nat = Some (Q_flight 2%nat) ∧
  cf_reqs c' !! 1%nat = Some (Q_aborted 0%nat).
Proof.
  split; [|split; vm_compute; reflexivity].
  refine (proj1 (request_completes (λ t, t = 1%nat ∨ t = 3%nat) (ex_request "1.2.3.4:5") (replicate 60 ex_fair_round)
    (ex_three ex_pool) _ _ _)).
  - apply (bool_decide_eq_true_1 _). vm_compute. reflexivity.
  - apply Forall_replicate. split; [|split].
    + intros t [q Hq]. cbn [cf_reqs ex_three] in Hq. rewrite !lookup_insert_Some, lookup_singleton_Some in Hq.
      destruct Hq as [[<- _]|[_ [[<- _]|[_ [<- _]]]]]; apply (bool_decide_eq_true_1 _); vm_compute; reflexivity.
    + intros t [w Hw]. cbn [cf_writers ex_three] in Hw. rewrite lookup_insert_Some, lookup_singleton_Some in Hw.
      destruct Hw as [[<- _]|[_ [<- _]]]; apply (bool_decide_eq_true_1 _); vm_compute; reflexivity.
    + intros t [-> | ->]; eexists; apply (bool_decide_eq_true_1 _); [instantiate (1 := false)|instantiate (1 := true)];
        vm_compute; reflexivity.
  - vm_compute. lia.
Defined.
