(* ===== verification/System.v ===== *)
(** The program as a whole: the HTTP proxy with any algorithm of the factory,
    the TCP proxy, the admin server and the three health checkers on one pool,
    as one state and a step per event; the typing of the heap of backends that
    they share, and its soundness. *)

From S2P Require Export AdminServer Monitor Passive Tunnel CheckerConc.

#[local] Open Scope Z_scope.

(** ** The heap of backends and its typing *)

(** Allocation goes on and connections balance: no cell disappears and every
    cell keeps its count, a new one starting at 0. *)
Definition grows (σ σ' : store) : Prop := dom σ ⊆ dom σ' ∧ ∀ l, conns σ' l = conns σ l.

#[export] Instance grows_preorder : PreOrder grows.
Proof.
  split; [by intros σ|]. intros σ1 σ2 σ3 [D1 C1] [D2 C2].
  split; [by etrans|]. intros l. by rewrite C2, C1.
Qed.

(** Room for one more connection everywhere. *)
Definition counts_ok (σ : store) : Prop := ∀ l, 0 ≤ conns σ l < max_int64.

Lemma conns_lookup σ l b : σ !! l = Some b → conns σ l = activeConns b.
Proof. unfold conns. by intros ->. Qed.

Lemma grows_alive σ σ' l : grows σ σ' → is_Some (σ !! l) → is_Some (σ' !! l).
Proof. intros [D _] Hl. apply elem_of_dom, D. by apply elem_of_dom. Qed.

Lemma grows_live σ σ' bs : grows σ σ' → live σ bs → live σ' bs.
Proof. intros G H. eapply Forall_impl; [exact H|]. intros l. by apply grows_alive. Qed.

Lemma grows_counts σ σ' : grows σ σ' → counts_ok σ → counts_ok σ'.
Proof. intros [_ C] H l. rewrite C. apply H. Qed.

(** A write that keeps the count. *)
Lemma grows_insert σ l b b' : σ !! l = Some b → activeConns b' = activeConns b → grows σ (<[l := b']> σ).
Proof.
  intros Hb Hc. split; [rewrite dom_insert; set_solver|]. intros l'. unfold conns.
  rewrite lookup_insert. case_decide; [|done]. subst l'. by rewrite Hb.
Qed.

Lemma grows_alloc σ b : activeConns b = 0 → grows σ (<[fresh (dom σ) := b]> σ).
Proof.
  intros Hc. split; [rewrite dom_insert; set_solver|]. intros l'. unfold conns.
  rewrite lookup_insert. case_decide as E; [|done]. subst l'. simpl.
  rewrite (not_elem_of_dom_1 σ); [done|apply is_fresh].
Qed.

(** ** Heap-typed algorithms *)

(** What a typed algorithm may answer: a pointer into the heap, its error, or
    an index panic; never a nil backend without an error. *)
Definition sel_result (σ : store) (o : outcome selection) : Prop :=
  match o with
  | Ret (Some b, _) => is_Some (σ !! b)
  | Ret (None, Some _) => True
  | Ret (None, None) => False
  | Panic w => w = IndexOutOfRange
  end.

(** The pointers in the private state of an algorithm are typed by the heap,
    and [Next] keeps that whatever it is offered. *)
Class HeapTyped (St : Type) `{Selector St} := {
  typed : store → St → Prop;
  typed_grows σ σ' s : grows σ σ' → typed σ s → typed σ' s;
  next_typed r bs σ s :
    live σ bs → counts_ok σ → typed σ s →
    sel_result σ (Next r bs σ s).1 ∧ typed σ (Next r bs σ s).2;
}.

(** The pointer read from a list of live pointers. *)
Lemma sel_index σ bs i e : live σ bs → sel_result σ (b ← go_index bs i; mret (Some b, e)).
Proof.
  intros Hl. destruct (go_index bs i) as [b|w] eqn:E; simpl.
  - eapply live_elem; [exact Hl|]. by eapply go_index_elem.
  - unfold go_index in E. go_cases.
Qed.

#[export, program] Instance RoundRobin_Typed : HeapTyped RoundRobin := {| typed _ _ := True |}.
Next Obligation. done. Qed.
Next Obligation.
  intros r bs σ [c] Hl _ _. split; [|done]. unfold Next, RoundRobin_Selector, RoundRobin_Next.
  case_decide; [done|]. go_step. pose proof (sel_index σ bs (go_rem (ticket c) (zlen bs)) None Hl) as Hi.
  by destruct (go_index bs _).
Qed.

#[export, program] Instance IPHash_Typed : @HeapTyped IPHash IPHash_Selector := {| typed _ _ := True |}.
Next Obligation. done. Qed.
Next Obligation.
  intros r bs σ s Hl _ _. split; [|done]. unfold Next, IPHash_Selector, IPHash_Next.
  case_decide; [done|]. go_step.
  pose proof (sel_index σ bs (go_rem (fnv32a (clientIP r)) (zlen bs)) None Hl) as Hi.
  by destruct (go_index bs _).
Qed.

#[export, program] Instance LeastConnections_Typed : @HeapTyped LeastConnections LeastConnections_Selector := {| typed _ _ := True |}.
Next Obligation. done. Qed.
Next Obligation.
  intros r bs σ s Hl Hc _. split; [|done]. unfold Next, LeastConnections_Selector, LeastConnections_Next.
  case_decide as Hn; [done|]. go_step.
  destruct (least_loop_spec σ None max_int64 bs Hl) as [[Hall ->]|(b & _ & (pre & post & -> & _) & ->)]; simpl.
  - destruct bs as [|b bs]; [done|]. apply Forall_cons in Hall as [Hb _]. specialize (Hc b). lia.
  - eapply live_elem; [exact Hl|set_solver].
Qed.

#[export, program] Instance P2C_Typed {Rng} (Intn : Z → Rng → Z * Rng) :
    @HeapTyped (P2C Rng) (P2C_Next Intn) := {| typed _ _ := True |}.
Next Obligation. done. Qed.
Next Obligation.
  intros Rng Intn r bs σ [g] Hl _ _. split; [|done]. unfold Next, P2C_Next. cbv zeta.
  case_decide; [done|]. case_decide; go_step.
  - pose proof (sel_index σ bs 0 None Hl) as Hi. by destruct (go_index bs 0).
  - unfold draw. cbn [p2c_rng]. destruct (Intn _ g) as [i g1]. cbn [p2c_rng]. destruct (Intn _ g1) as [j g2].
    set (j' := if decide (i ≤ j) then _ else _).
    pose proof (sel_index σ bs i None Hl) as Hi. pose proof (sel_index σ bs j' None Hl) as Hj.
    destruct (go_index bs i) as [a|wi]; [|done]. destruct (go_index bs j') as [b|wj]; [|done]. simpl in *.
    destruct Hi as [ba Ha], Hj as [bb Hb]. rewrite (ActiveConns_live _ _ _ Ha), (ActiveConns_live _ _ _ Hb).
    case_decide; simpl; eauto.
Qed.

#[export, program] Instance WeightedRoundRobin_Typed : HeapTyped WeightedRoundRobin :=
  {| typed σ w := live σ (wrr_slots w) |}.
Next Obligation. intros σ σ' [slots c]. apply grows_live. Qed.
Next Obligation.
  intros r bs σ [slots c] Hl _ Hs. cbn [wrr_slots] in Hs. unfold Next, WeightedRoundRobin_Selector, WeightedRoundRobin_Next.
  assert (∃ slots', live σ slots' ∧
    (if decide (zlen slots = 0) then WeightedRoundRobin_Rebuild σ bs else mret tt) (mkWRR slots c) =
      (Ret tt, mkWRR slots' c)) as (slots' & Hs' & E).
  { case_decide; [|by exists slots]. exists (slot_table σ bs). split.
    - apply Forall_forall. intros l Hin%slot_table_elem. exact (live_elem _ _ _ Hl Hin).
    - unfold WeightedRoundRobin_Rebuild. go_step. by rewrite rebuild_loop_spec. }
  rewrite (bind_Ret _ _ _ _ _ (eq_refl : gets wrr_slots _ = _)). cbn [wrr_slots].
  rewrite (bind_Ret _ _ _ _ _ E). clear E. go_step.
  case_decide; [done|]. go_step.
  destruct (go_index slots' _) as [b|w] eqn:Ei; cbn [fst snd wrr_slots].
  - assert (is_Some (σ !! b)) as Hb by exact (live_elem _ _ _ Hs' (go_index_elem _ _ _ Ei)).
    rewrite IsHealthy_live by done. case_bool_decide; cbn [negb]; [done|].
    rewrite first_healthy_spec by done. pose proof (filter_healthy_live σ bs) as Hf.
    destruct (filter _ bs) as [|fb ?]; [done|]. by apply Forall_cons in Hf as [? _].
  - unfold go_index in Ei. go_cases.
Qed.

Lemma built_wf σ vn bs ch : built σ vn bs ch → ring_wf bs ch.
Proof.
  intros (Hr & Hm & _) k. rewrite Hr, elem_of_sort_ring. intros [l Ho]%owner_is_Some.
  exists l. rewrite Hm, Ho. split; [done|]. by apply owner_Some in Ho as [? _].
Qed.

(** Every key of the ring has its backend in the node map. *)
#[export, program] Instance ConsistentHash_Typed : HeapTyped ConsistentHash :=
  {| typed σ ch := ∃ src, live σ src ∧ ring_wf src ch |}.
Next Obligation. intros σ σ' ch G (src & Hl & Hw). exists src. split; [by eapply grows_live|done]. Qed.
Next Obligation.
  intros r bs σ ch Hl _ (src & Hsrc & Hwf). unfold Next, ConsistentHash_Selector, ConsistentHash_Next.
  assert (∃ ch' src', live σ src' ∧ ring_wf src' ch' ∧
    (if decide (zlen (ch_ring ch) = 0) then ConsistentHash_Build σ bs else mret tt) ch = (Ret tt, ch'))
    as (ch' & src' & Hsrc' & Hwf' & E).
  { case_decide; [|by exists ch, src]. destruct (ConsistentHash_Build_built σ bs ch Hl) as (ch' & E & Hb).
    exists ch', bs. split_and!; [done| |done]. exact (built_wf _ _ _ _ Hb). }
  rewrite (bind_Ret _ _ _ _ _ (eq_refl : gets ch_ring _ = _)). rewrite (bind_Ret _ _ _ _ _ E). clear E. go_step.
  assert (∃ src, live σ src ∧ ring_wf src ch') as Ht by eauto.
  destruct (decide (zlen (ch_ring ch') = 0)); [done|]. go_step.
  destruct (go_index (ch_ring ch') _) as [k|w] eqn:Ei; cbn [fst snd].
  - destruct (Hwf' k) as (l & -> & Hin); [by eapply go_index_elem|].
    split; [|done]. exact (live_elem _ _ _ Hsrc' Hin).
  - split; [|done]. unfold go_index in Ei. go_cases.
Qed.

(** The interface value of the factory. *)
Definition any_typed {Rng} (σ : store) (a : AnySelector Rng) : Prop :=
  match a with
  | SelWRR s => typed σ s
  | SelCH s => typed σ s
  | SelRR _ | SelLC _ | SelIPH _ | SelPTC _ => True
  end.

Lemma wrap_typed {Rng St} `{HeapTyped St} (inj : St → AnySelector Rng) r bs σ s :
  (∀ s', typed σ s' → any_typed σ (inj s')) →
  live σ bs → counts_ok σ → typed σ s →
  sel_result σ (wrap_next inj (Next r bs σ) s).1 ∧ any_typed σ (wrap_next inj (Next r bs σ) s).2.
Proof.
  intros Hi Hl Hc Hs. destruct (next_typed r bs σ s Hl Hc Hs) as [H1 H2].
  unfold wrap_next. destruct (Next r bs σ s) as [o s']. split; [done|by apply Hi].
Qed.

#[export, program] Instance Any_Typed {Rng} (Intn : Z → Rng → Z * Rng) :
    @HeapTyped (AnySelector Rng) (Any_Selector Intn) := {| typed := any_typed |}.
Next Obligation. intros Rng Intn σ σ' [] G; try done; by apply typed_grows. Qed.
Next Obligation.
  intros Rng Intn r bs σ [s|s|s|s|s|s] Hl Hc Hs.
  - exact (wrap_typed (H := RoundRobin_Selector) SelRR r bs σ s (λ _ h, h) Hl Hc Hs).
  - exact (wrap_typed (H := WeightedRoundRobin_Selector) SelWRR r bs σ s (λ _ h, h) Hl Hc Hs).
  - exact (wrap_typed (H := LeastConnections_Selector) SelLC r bs σ s (λ _ h, h) Hl Hc Hs).
  - exact (wrap_typed (H := IPHash_Selector) SelIPH r bs σ s (λ _ h, h) Hl Hc Hs).
  - exact (wrap_typed (H := ConsistentHash_Selector) SelCH r bs σ s (λ _ h, h) Hl Hc Hs).
  - exact (wrap_typed (H := P2C_Next Intn) SelPTC r bs σ s (λ _ h, h) Hl Hc Hs).
Qed.

(** ** Typed handlers *)

(** What a handler of net/http may do: answer, or a panic that the server
    recovers from: an index panic, or [http.ErrAbortHandler]. *)
Definition answer_ok {A} (o : outcome A) : Prop :=
  match o with Ret _ => True | Panic w => w = IndexOutOfRange ∨ w = Explicit end.

(** The upstream exchange lets the heap grow, and panics with
    [http.ErrAbortHandler] only. *)
Definition RoundTrip_ok (RT : Request → M store (option Response)) : Prop :=
  ∀ req σ, grows σ (RT req σ).2 ∧ ∀ w, (RT req σ).1 = Panic w → w = Explicit.

(** Taking a connection, letting the heap grow and releasing it. *)
Lemma release_grows σ σ1 b bk bk1 :
  σ !! b = Some bk → counts_ok σ → grows (with_conn σ b) σ1 → σ1 !! b = Some bk1 →
  grows σ (<[b := set_activeConns (wrap64 (activeConns bk1 + -1)) bk1]> σ1).
Proof.
  intros Hb Hc [D C] Hb1. pose proof (Hc b) as Hn. rewrite (conns_lookup _ _ _ Hb) in Hn.
  pose proof (with_conn_lookup _ _ _ Hb) as Hw. assert (∀ l, l ≠ b → conns (with_conn σ b) l = conns σ l) as Ho.
  { intros l Hl. unfold with_conn, Backend_IncConns, conns. rewrite (update_live _ _ _ _ Hb). simpl.
    by rewrite lookup_insert_ne. }
  split.
  - rewrite dom_insert. etrans; [|apply union_subseteq_r]. etrans; [|exact D].
    unfold with_conn, Backend_IncConns. rewrite (update_live _ _ _ _ Hb). simpl. rewrite dom_insert. set_solver.
  - intros l. destruct (decide (l = b)) as [->|Hl].
    + unfold conns at 1. rewrite lookup_insert_eq, (conns_lookup _ _ _ Hb). simpl.
      specialize (C b). rewrite (conns_lookup _ _ _ Hb1), (conns_lookup _ _ _ Hw) in C. rewrite C. simpl.
      rewrite (wrap64_id (activeConns bk + 1)) by in_range. rewrite wrap64_id by in_range. lia.
    + unfold conns at 1. rewrite lookup_insert_ne by done. fold (conns σ1 l). by rewrite C, Ho.
Qed.

Lemma with_conn_grows_live σ σ1 b bk : σ !! b = Some bk → grows (with_conn σ b) σ1 → is_Some (σ1 !! b).
Proof. intros Hb G. eapply grows_alive; [exact G|]. rewrite (with_conn_lookup _ _ _ Hb). by eexists. Qed.

(** The exits of [ServeHTTP] before it takes a connection. *)
Lemma ServeHTTP_early {St} `{Selector St} RT p r s σ :
  live σ (backends p) →
  HTTPProxy_ServeHTTP RT p r (s, σ) =
    match filter (healthy_at σ) (backends p) with
    | [] => (Ret (http_Error "no healthy backends" 502), (s, σ))
    | bs =>
        match Next r bs σ s with
        | (Ret (Some _, None), _) => HTTPProxy_ServeHTTP RT p r (s, σ)
        | (Ret (_, Some _), s') => (Ret (http_Error "service unavailable" 503), (s', σ))
        | (Ret (None, None), s') => (Panic NilDeref, (s', σ))
        | (Panic w, s') => (Panic w, (s', σ))
        end
    end.
Proof.
  intros Hl. pose proof (Pool_Healthy_filter σ p Hl) as E.
  destruct (filter (healthy_at σ) (backends p)) as [|x bs] eqn:Ef.
  { unfold HTTPProxy_ServeHTTP, mbind at 1 2, M_bind, gets, lift. cbn [fst snd]. by rewrite E. }
  destruct (Next r (x :: bs) σ s) as [[[[b|] [e|]]|w] s'] eqn:En; [|done|..];
  unfold HTTPProxy_ServeHTTP, mbind at 1 2 3, M_bind, gets, lift, on_selector; cbn [fst snd];
    rewrite E, decide_False by (by rewrite zlen_zero); cbn [fst snd]; by rewrite En.
Qed.

Lemma ServeHTTP_typed {St} `{HeapTyped St} RT p r s σ :
  RoundTrip_ok RT → live σ (backends p) → counts_ok σ → typed σ s →
  let res := HTTPProxy_ServeHTTP RT p r (s, σ) in
  answer_ok res.1 ∧ grows σ res.2.2 ∧ typed res.2.2 res.2.1.
Proof.
  intros HRT Hl Hc Hs. cbv zeta. pose proof (ServeHTTP_early RT p r s σ Hl) as E.
  pose proof (filter_healthy_live σ (backends p)) as Hf.
  destruct (filter (healthy_at σ) (backends p)) as [|x bs] eqn:Ef; [by rewrite E|].
  assert (filter (healthy_at σ) (backends p) ≠ []) as Hne by (by rewrite Ef).
  destruct (next_typed r _ σ s Hf Hc Hs) as [Hr Ht].
  destruct (Next r (x :: bs) σ s) as [o s'] eqn:En. rewrite <- Ef in En. cbn [fst snd] in Hr, Ht.
  destruct o as [[[b|] [e|]]|w].
  2: { destruct Hr as [bk Hb].
    destruct (RT (upstream_request b (BURL bk) r) (with_conn σ b)) as [res σ1] eqn:ERT.
    destruct (HRT (upstream_request b (BURL bk) r) (with_conn σ b)) as [G Hp]. rewrite ERT in G, Hp.
    cbn [fst snd] in G, Hp. destruct (with_conn_grows_live _ _ _ _ Hb G) as [bk1 Hb1].
    rewrite (ServeHTTP_picked RT p r s σ b bk s' res σ1 bk1 Hl Hne En Hb ERT) by first [exact Hb1|intros Hd; by apply Hp in Hd].
    cbn [fst snd]. pose proof (release_grows _ _ _ _ _ Hb Hc G Hb1) as G'.
    split_and!; [|done|by eapply typed_grows].
    destruct res as [[resp|]|w]; try done. right. by apply Hp. }
  all: rewrite E; try done. split_and!; [by left|done|done].
Qed.

(** *** The admin server *)

(** A handler that answers without a write. *)
Ltac same_heap := eexists _, _, _; split; [reflexivity|by split].

Lemma admin_serve_typed up da dw es el a p σ :
  live σ (backends p) →
  ∃ resp p' σ', admin_serve up da dw es el a (p, σ) = (Ret resp, (p', σ')) ∧
    live σ' (backends p') ∧ grows σ σ'.
Proof.
  intros Hl. destruct a as [|body|path|path body|]; cbn [admin_serve].
  - unfold handleListBackends, Pool_Snapshots. destruct (snapshots_live σ _ Hl) as [ss E]. go_step. rewrite E. same_heap.
  - destruct (da body) as [[[id addr] w]|err] eqn:Ed; [|unfold handleAddBackend; rewrite Ed; same_heap].
    destruct (up addr) as [u|err] eqn:Eu.
    2: { unfold handleAddBackend, Backend_New. rewrite Ed, Eu. go_step. same_heap. }
    destruct (admin_serve_add up da es body id addr w u (p, σ) Ed Eu) as (resp & E & _). cbn [fst snd] in E.
    eexists _, _, _. split; [exact E|]. pose proof (grows_alloc σ (mkBackend id u (initial_weight w) 0 HealthHealthy) eq_refl) as G.
    split; [|done]. apply Forall_app. split; [by eapply grows_live|]. constructor; [|done].
    rewrite lookup_insert_eq. by eexists.
  - unfold handleRemoveBackend. pose proof (Pool_Remove_spec σ p (trim_prefix backends_prefix path) Hl) as HR.
    unfold on_pool. go_step. destruct (registry _ _ !! _).
    + destruct HR as (pre & post & Hbs & _ & _ & ->). eexists _, _, _. split; [reflexivity|]. split; [|done].
      rewrite Hbs in Hl. unfold live in *. rewrite Forall_app, Forall_cons in Hl. cbn [backends]. rewrite Forall_app. tauto.
    + rewrite HR. same_heap.
  - unfold handleUpdateWeight. destruct (dw body) as [w|err]; [|same_heap]. go_step.
    rewrite Pool_Get_registry by done. destruct (registry _ _ !! _) as [l|] eqn:Er; [|same_heap].
    apply registry_elem in Er as [Hin _]. destruct (live_elem _ _ _ Hl Hin) as [b Hb].
    unfold on_bs. cbn [fst snd]. rewrite (update_live _ _ _ _ Hb). cbn [fst snd]. unfold Backend_Snapshot.
    rewrite (deref_live _ l (set_Weight w b)) by apply lookup_insert_eq. go_step.
    assert (grows σ (<[l := set_Weight w b]> σ)) as G by (by eapply grows_insert).
    eexists _, _, _. split; [reflexivity|]. split; [by eapply grows_live|done].
  - unfold handleReload. go_step. same_heap.
Qed.

Lemma admin_server_typed va up da dw es el addr s r target body p σ :
  New up da dw es el addr = Ret s → live σ (backends p) →
  ∃ resp p' σ', Server_ServeHTTP va s r target body (p, σ) = (Ret resp, (p', σ')) ∧
    live σ' (backends p') ∧ grows σ σ'.
Proof.
  intros Hs Hl. rewrite (Server_routes _ _ _ _ _ _ _ _ _ _ _ _ Hs).
  destruct (admin_route _ _ _ _) as [a|resp]; [by apply admin_serve_typed|same_heap].
Qed.

(** *** The health checkers *)

(** Computations on some state with a heap that let the heap grow. *)
Section frames.
Context {W : Type} (π : W → store).

Definition frames {A} (m : M W A) : Prop := ∀ w, grows (π w) (π (m w).2).

Lemma frames_ret {A} (a : A) : frames (mret a).
Proof. by intros w. Qed.
Lemma frames_gets {A} (f : W → A) : frames (gets f).
Proof. by intros w. Qed.
Lemma frames_lift {A} (o : outcome A) : frames (lift o).
Proof. by intros w. Qed.
Lemma frames_modify f : (∀ w, π (f w) = π w) → frames (modify f).
Proof. intros H w. simpl. by rewrite H. Qed.

Lemma frames_bind {A B} (m : M W A) (f : A → M W B) : frames m → (∀ a, frames (f a)) → frames (m ≫= f).
Proof.
  intros Hm Hf w. unfold mbind, M_bind. specialize (Hm w).
  destruct (m w) as [[a|why] w']; [|done]. cbn [snd] in Hm. etrans; [exact Hm|apply Hf].
Qed.

Lemma frames_if {A} (b : bool) (m1 m2 : M W A) : frames m1 → frames m2 → frames (if b then m1 else m2).
Proof. by destruct b. Qed.
Lemma frames_decide {A} P `{Decision P} (m1 m2 : M W A) : frames m1 → frames m2 → frames (if decide P then m1 else m2).
Proof. by destruct (decide P). Qed.
Lemma frames_option {A B} (o : option B) (m1 : B → M W A) (m2 : M W A) :
  (∀ x, frames (m1 x)) → frames m2 → frames (match o with Some x => m1 x | None => m2 end).
Proof. by destruct o. Qed.
End frames.

Create HintDb frames discriminated.
#[export] Hint Resolve frames_ret frames_gets frames_lift frames_modify frames_bind frames_if frames_decide
  frames_option : frames.

Lemma SetHealth_grows l h σ : grows σ (Backend_SetHealth l h σ).2.
Proof.
  unfold Backend_SetHealth, update. destruct (σ !! l) as [b|] eqn:Hb; [|done]. by eapply grows_insert.
Qed.

Lemma SetHealth_frames {X} l h :
  frames snd (λ w : X * store, let '(o, σ') := Backend_SetHealth l h w.2 in (o, (w.1, σ'))).
Proof.
  intros [x σ]. cbn [fst snd]. pose proof (SetHealth_grows l h σ) as G.
  by destruct (Backend_SetHealth l h σ).
Qed.
#[export] Hint Resolve SetHealth_frames : frames.

Lemma passive_do_frames l o : frames snd (passive_do l o).
Proof.
  destruct o as [e now|now|h]; cbn [passive_do]; [unfold PassiveChecker_Observe|unfold PassiveChecker_TryReadmit|];
    repeat (intros; first [apply frames_bind | apply frames_modify; done | apply frames_option
      | progress cbv zeta | solve [auto with frames] | apply frames_decide | apply frames_if ]).
Qed.

Lemma passive_do_typed l o pc σ :
  is_Some (σ !! l) → ∃ pc' σ', passive_do l o (pc, σ) = (Ret tt, (pc', σ')) ∧ grows σ σ'.
Proof.
  intros [b Hb]. destruct (passive_do_step l o pc σ b Hb) as ([pc' σ'] & _ & E & _).
  exists pc', σ'. split; [done|]. pose proof (passive_do_frames l o (pc, σ)) as G. by rewrite E in G.
Qed.

Lemma Observe_typed l r sm σ :
  is_Some (σ !! l) →
  ∃ sm' σ', StateMachine_Observe l (pr_ok r) (pr_t1 r) (pr_t2 r) (sm, σ) = (Ret tt, (sm', σ')) ∧ grows σ σ'.
Proof.
  intros [b Hb]. rewrite (Observe_step l r sm σ b Hb). eexists _, _. split; [reflexivity|].
  by eapply grows_insert.
Qed.

(** *** The TCP proxy, cut at the tunnel *)

(** [handleConn] up to its call of [tunnel]: the backend that was dialled. *)
Definition handleConn_open (dial : string → bool) (p : Pool) : M store (option loc) :=
  σ ← gets id;
  backends ← lift (Pool_Healthy σ p);
  match backends with
  | [] => mret None
  | b :: _ =>
      Backend_IncConns b;;
      σ ← gets id;
      bk ← lift (deref σ b);
      if dial (url_Host (BURL bk)) then mret (Some b) else Backend_DecConns b;; mret None
  end.

(** The two parts make [handleConn] when the tunnel leaves the heap alone. *)
Lemma handleConn_split dial p σ :
  live σ (backends p) →
  TCPProxy_handleConn dial (λ _, mret ()) p σ =
    (o ← handleConn_open dial p;
     match o with
     | None => mret None
     | Some b => σ ← gets id; bk ← lift (deref σ b); Backend_DecConns b;; mret (Some (url_Host (BURL bk)))
     end) σ.
Proof.
  intros Hl. pose proof (filter_healthy_live σ (backends p)) as Hf. pose proof (Pool_Healthy_filter σ p Hl) as E.
  unfold TCPProxy_handleConn, handleConn_open, mbind, mret, M_bind, M_ret, gets, lift. cbn [id]. rewrite E.
  destruct (filter (healthy_at σ) (backends p)) as [|b bs]; [done|].
  apply Forall_cons in Hf as [[bk Hb] _]. rewrite (IncConns_live σ b) by eauto.
  pose proof (with_conn_lookup _ _ _ Hb) as Hw. unfold defer. cbn [id]. rewrite (deref_live _ _ _ Hw).
  destruct (dial _); cbn [id]; rewrite ?(deref_live _ _ _ Hw); destruct (Backend_DecConns b (with_conn σ b)) as [[[]|w] σ'] eqn:Ed; try done;
    rewrite (DecConns_live _ _ _ Hw) in Ed; done.
Qed.

(** Connections in progress per backend. *)
Definition open_on (l : loc) (ts : list (loc * joined)) : Z :=
  zlen (filter (λ t, t.1 = l) ts).

(** Another count for one backend: what changes the count of [l] by [n]. *)
Definition adds (l : loc) (n : Z) (σ σ' : store) : Prop :=
  dom σ ⊆ dom σ' ∧ ∀ l', conns σ' l' = conns σ l' + if decide (l' = l) then n else 0.

Lemma conns_insert σ l b l' : conns (<[l := b]> σ) l' = if decide (l' = l) then activeConns b else conns σ l'.
Proof.
  unfold conns. rewrite lookup_insert. repeat case_decide; try done; congruence.
Qed.

Lemma Inc_adds σ b bk : σ !! b = Some bk → counts_ok σ → adds b 1 σ (with_conn σ b).
Proof.
  intros Hb Hc. unfold with_conn, Backend_IncConns. rewrite (update_live _ _ _ _ Hb). simpl.
  split; [rewrite dom_insert; set_solver|]. intros l. rewrite conns_insert. simpl.
  pose proof (Hc b) as Hn. rewrite (conns_lookup _ _ _ Hb) in Hn.
  case_decide; [|lia]. subst. rewrite (conns_lookup _ _ _ Hb). apply wrap64_id. in_range.
Qed.

Lemma Dec_adds σ b bk :
  σ !! b = Some bk → 0 < conns σ b ≤ max_int64 →
  Backend_DecConns b σ = (Ret (), (Backend_DecConns b σ).2) ∧ adds b (-1) σ (Backend_DecConns b σ).2.
Proof.
  intros Hb Hn. unfold Backend_DecConns. rewrite (update_live _ _ _ _ Hb). simpl. split; [done|].
  split; [rewrite dom_insert; set_solver|]. intros l. rewrite conns_insert. simpl.
  rewrite (conns_lookup _ _ _ Hb) in Hn.
  case_decide; [|lia]. subst. rewrite (conns_lookup _ _ _ Hb). apply wrap64_id. in_range.
Qed.

Lemma handleConn_open_typed dial p σ :
  live σ (backends p) → counts_ok σ →
  ∃ o σ', handleConn_open dial p σ = (Ret o, σ') ∧
    match o with
    | None => grows σ σ'
    | Some b => is_Some (σ !! b) ∧ adds b 1 σ σ'
    end.
Proof.
  intros Hl Hc. pose proof (filter_healthy_live σ (backends p)) as Hf. pose proof (Pool_Healthy_filter σ p Hl) as E.
  unfold handleConn_open, mbind, mret, M_bind, M_ret, gets, lift. cbn [id]. rewrite E.
  destruct (filter (healthy_at σ) (backends p)) as [|b bs]; [by eexists _, _|].
  apply Forall_cons in Hf as [[bk Hb] _]. rewrite (IncConns_live σ b) by eauto. cbn [id].
  pose proof (with_conn_lookup _ _ _ Hb) as Hw. rewrite (deref_live _ _ _ Hw).
  pose proof (Inc_adds _ _ _ Hb Hc) as [D1 C1]. pose proof (Hc b) as Hb0.
  destruct (dial _); [eexists _, _; split; [done|]; split; [by eexists|done]|].
  destruct (Dec_adds (with_conn σ b) b _ Hw) as [Ed [D2 C2]]; [rewrite C1, decide_True by done; lia|].
  rewrite Ed. eexists _, _. split; [done|]. split; [by etrans|].
  intros l. rewrite C2, C1. case_decide; lia.
Qed.

(** ** The system *)

Section system.
(** The generator behind [P2C] and the libraries of the admin server, as in
    App.v and Admin.v. *)
Context {Rng : Type}.
Variable Intn : Z → Rng → Z * Rng.
Variable valid_authority : string → bool.
Variable url_Parse : string → URL + string.
Variable decode_add : string → (string * string * Z) + string.
Variable decode_weight : string → Z + string.
Variable encode_snapshot : Snapshot → string.
Variable encode_list : list Snapshot → string.

(** The shared pool and heap, the selector behind the proxy, the open
    connections of the TCP proxy with the backend each is counted on, what the
    checkers keep, and the goroutines of the active checker with its flags of
    maps being written.  The checker's pool is the pointer to the shared one. *)
Record system := mkSystem {
  sy_pool : Pool;
  sy_heap : store;
  sy_selector : AnySelector Rng;
  sy_tunnels : list (loc * joined);
  sy_checker : Checker;
  sy_wfailures : bool;
  sy_wsuccesses : bool;
  sy_probes : list (loc * ppc);
  sy_stopped : bool;
  sy_passive : PassiveChecker;
  sy_machine : StateMachine;
}.

(** One event, with what the world outside does during it: a request to the
    proxy or to the admin server; a connection to the TCP proxy, of which
    [a_tcp] and [b_tcp] say whether the two ends are TCP connections, and a turn
    of one of the three goroutines of an open connection; a tick of the active
    checker, the end of its context or one step of one of its probes; an outcome
    for the passive checker or for the state machine. *)
Inductive sys_event :=
| EHttp (r : Request) (RoundTrip : Request → M store (option Response))
| ETcp (dial : string → bool) (a_tcp b_tcp : bool) (peer_a peer_b : list peer_op) (end_a end_b : option string)
| ETunnel (i : nat) (t : turn)
| EAdmin (r : Request) (target body : string)
| EChecker (e : probe_env) (a : run_act)
| EPassive (i : nat) (o : passive_op)
| EObserve (i : nat) (r : probe_result).

(** What the client of an event sees. *)
Inductive sys_answer :=
| AnsHttp (o : outcome Response)
| AnsTcp (backend : option loc)
| AnsNone.

(** A step on some parts of the state. *)
Definition zoom {T A B} (get : system → T) (put : T → system → system) (k : outcome A → outcome B)
    (m : M T A) : M system B := λ s,
  let '(o, t) := m (get s) in (k o, put t s).

Definition put_heap (σ : store) (s : system) : system :=
  mkSystem (sy_pool s) σ (sy_selector s) (sy_tunnels s) (sy_checker s) (sy_wfailures s) (sy_wsuccesses s)
    (sy_probes s) (sy_stopped s) (sy_passive s) (sy_machine s).
Definition put_pool (p : Pool) (s : system) : system :=
  mkSystem p (sy_heap s) (sy_selector s) (sy_tunnels s) (sy_checker s) (sy_wfailures s) (sy_wsuccesses s)
    (sy_probes s) (sy_stopped s) (sy_passive s) (sy_machine s).
Definition put_selector (a : AnySelector Rng) (s : system) : system :=
  mkSystem (sy_pool s) (sy_heap s) a (sy_tunnels s) (sy_checker s) (sy_wfailures s) (sy_wsuccesses s)
    (sy_probes s) (sy_stopped s) (sy_passive s) (sy_machine s).
Definition put_tunnels (ts : list (loc * joined)) (s : system) : system :=
  mkSystem (sy_pool s) (sy_heap s) (sy_selector s) ts (sy_checker s) (sy_wfailures s) (sy_wsuccesses s)
    (sy_probes s) (sy_stopped s) (sy_passive s) (sy_machine s).
Definition put_passive (pc : PassiveChecker) (s : system) : system :=
  mkSystem (sy_pool s) (sy_heap s) (sy_selector s) (sy_tunnels s) (sy_checker s) (sy_wfailures s) (sy_wsuccesses s)
    (sy_probes s) (sy_stopped s) pc (sy_machine s).
Definition put_machine (sm : StateMachine) (s : system) : system :=
  mkSystem (sy_pool s) (sy_heap s) (sy_selector s) (sy_tunnels s) (sy_checker s) (sy_wfailures s) (sy_wsuccesses s)
    (sy_probes s) (sy_stopped s) (sy_passive s) sm.

(** The checker reads the shared pool. *)
Definition with_pool (p : Pool) (c : Checker) : Checker :=
  mkChecker p (ck_cfg c) (ck_failures c) (ck_successes c).

(** The active checker's part of the state, as [Run] and its probes see it. *)
Definition get_running (s : system) : running :=
  mkRunning (mkShared (with_pool (sy_pool s) (sy_checker s)) (sy_heap s) (sy_wfailures s) (sy_wsuccesses s))
    (sy_probes s) (sy_stopped s).
Definition put_running (w : running) (s : system) : system :=
  mkSystem (sy_pool s) (sh_store (rn_shared w)) (sy_selector s) (sy_tunnels s) (sh_checker (rn_shared w))
    (sh_wfailures (rn_shared w)) (sh_wsuccesses (rn_shared w)) (rn_probes w) (rn_stopped w) (sy_passive s) (sy_machine s).

(** net/http recovers from the panic of a handler. *)
Definition recovered (o : outcome Response) : outcome sys_answer :=
  match o with
  | Panic Deadlock => Panic Deadlock
  | Panic ConcurrentMapAccess => Panic ConcurrentMapAccess
  | _ => Ret (AnsHttp o)
  end.

Definition quiet (o : outcome ()) : outcome sys_answer := _ ← o; mret AnsNone.

(** The backend at an index of the pool, for the callers of the passive checker
    and of the state machine. *)
Definition pool_nth (i : nat) (f : loc → M system sys_answer) : M system sys_answer := λ s,
  match backends (sy_pool s) !! i with Some l => f l s | None => (Ret AnsNone, s) end.

(** A turn of an open connection: a panic of a copying goroutine ends the
    process; when [tunnel] returns, so does [handleConn], with its deferred
    [DecConns]. *)
Definition tunnel_step (i : nat) (t : turn) : M system sys_answer := λ s,
  match sy_tunnels s !! i with
  | None => (Ret AnsNone, s)
  | Some (b, j) =>
      let j' := join_step Tunnel t j in
      if decide (crashed j') then (Panic TypeAssertion, s)
      else if decide (returned j') then
        zoom sy_heap put_heap quiet (Backend_DecConns b) (put_tunnels (delete i (sy_tunnels s)) s)
      else (Ret AnsNone, put_tunnels (<[i := (b, j')]> (sy_tunnels s)) s)
  end.

(** An event of the active checker.  A step that finds no backend behind its
    pointer would be a nil dereference; any other that cannot be made is an
    overlapping access of a map. *)
Definition checker_step (e : probe_env) (a : run_act) : M system sys_answer := λ s,
  match run_step (pe_dial e) (pe_get e) a (get_running s) with
  | Some w => (Ret AnsNone, put_running w s)
  | None =>
      (Panic (match a with
              | AProbe i =>
                  match (sy_probes s !! i) ≫= (λ p, sy_heap s !! p.1) with
                  | None => NilDeref
                  | Some _ => ConcurrentMapAccess
                  end
              | _ => ConcurrentMapAccess
              end), s)
  end.

Definition sys_step (srv : Server) (e : sys_event) : M system sys_answer :=
  match e with
  | EHttp r RoundTrip => λ s,
      zoom (λ s, (sy_selector s, sy_heap s)) (λ t s, put_selector t.1 (put_heap t.2 s)) recovered
        (HTTPProxy_ServeHTTP (H := Any_Selector Intn) RoundTrip (sy_pool s) r) s
  | ETcp dial a_tcp b_tcp peer_a peer_b end_a end_b => λ s,
      match handleConn_open dial (sy_pool s) (sy_heap s) with
      | (Ret None, σ) => (Ret (AnsTcp None), put_heap σ s)
      | (Ret (Some b), σ) =>
          (Ret (AnsTcp (Some b)),
           put_tunnels (sy_tunnels s ++ [(b, start_join a_tcp b_tcp peer_a peer_b end_a end_b)]) (put_heap σ s))
      | (Panic w, σ) => (Panic w, put_heap σ s)
      end
  | ETunnel i t => tunnel_step i t
  | EAdmin r target body =>
      zoom (λ s, (sy_pool s, sy_heap s)) (λ t s, put_pool t.1 (put_heap t.2 s)) recovered
        (Server_ServeHTTP valid_authority srv r target body)
  | EChecker e a => checker_step e a
  | EPassive i o => pool_nth i (λ l,
      zoom (λ s, (sy_passive s, sy_heap s)) (λ t s, put_passive t.1 (put_heap t.2 s)) quiet (passive_do l o))
  | EObserve i r => pool_nth i (λ l,
      zoom (λ s, (sy_machine s, sy_heap s)) (λ t s, put_machine t.1 (put_heap t.2 s)) quiet
        (StateMachine_Observe l (pr_ok r) (pr_t1 r) (pr_t2 r)))
  end.

(** Events until one ends the process. *)
Fixpoint sys_run (srv : Server) (es : list sys_event) : M system (list sys_answer) :=
  match es with
  | [] => mret []
  | e :: es' => a ← sys_step srv e; l ← sys_run srv es'; mret (a :: l)
  end.

(** The system over a pool, before any event. *)
Definition sys_init (p : Pool) (σ : store) (a : AnySelector Rng) (cfg : HealthConfig) : system :=
  mkSystem p σ a [] (NewChecker p cfg) false false [] false (NewPassiveChecker cfg) (NewStateMachine cfg).

(** *** Typing *)

(** The pool points into the heap, so do the selector, the open connections and
    the probes; a backend counts exactly the connections that are open on it;
    and a map is flagged only while a probe writes it. *)
Record well_typed (s : system) : Prop := {
  wt_pool : live (sy_heap s) (backends (sy_pool s));
  wt_selector : any_typed (sy_heap s) (sy_selector s);
  wt_tunnels : live (sy_heap s) (sy_tunnels s).*1;
  wt_running : Forall (λ t, ¬ crashed t.2) (sy_tunnels s);
  wt_counts : ∀ l, conns (sy_heap s) l = open_on l (sy_tunnels s);
  wt_probes : live (sy_heap s) (sy_probes s).*1;
  wt_flags : flags_ok (get_running s);
}.

Definition event_ok (e : sys_event) : Prop :=
  match e with EHttp _ RoundTrip => RoundTrip_ok RoundTrip | _ => True end.

(** A request to the admin server never panics; one to the proxy may only
    panic as [answer_ok] says. *)
Definition answer_typed (e : sys_event) (a : sys_answer) : Prop :=
  match e, a with
  | EHttp _ _, AnsHttp o => answer_ok o
  | EAdmin _ _ _, AnsHttp (Ret _) => True
  | ETcp _ _ _ _ _ _ _, AnsTcp _ => True
  | (ETunnel _ _ | EChecker _ _ | EPassive _ _ | EObserve _ _), AnsNone => True
  | _, _ => False
  end.

(** The two ways in which an event ends the process: a probe accesses a map that
    another probe is writing; a connection of [tunnel] is not a TCP connection. *)
Definition fatal (e : sys_event) (s : system) (why : panic) : Prop :=
  (∃ env i, e = EChecker env (AProbe i) ∧ overlapping (sy_probes s) i ∧ why = ConcurrentMapAccess) ∨
  (∃ i t b j, e = ETunnel i t ∧ sy_tunnels s !! i = Some (b, j) ∧
    (cp_dst_tcp (j_ab j) = false ∨ cp_dst_tcp (j_ba j) = false) ∧ why = TypeAssertion).

(** What a step does from a typed state: it answers and keeps the typing, or
    ends the process in one of the two ways. *)
Definition step_typed (e : sys_event) (s : system) (res : outcome sys_answer * system) : Prop :=
  match res.1 with
  | Ret a =>
      answer_typed e a ∧ well_typed res.2 ∧ dom (sy_heap s) ⊆ dom (sy_heap res.2) ∧
      (length (sy_tunnels res.2) ≤ S (length (sy_tunnels s)))%nat
  | Panic why => fatal e s why
  end.

(** *** Preservation *)

Lemma open_on_bound l ts : 0 ≤ open_on l ts ≤ zlen ts.
Proof. unfold open_on, zlen. pose proof (length_filter (λ t : loc * joined, t.1 = l) ts). lia. Qed.

Lemma open_on_cons l b j ts : open_on l ((b, j) :: ts) = (if decide (l = b) then 1 else 0) + open_on l ts.
Proof.
  unfold open_on, zlen. rewrite filter_cons. cbn [fst].
  destruct (decide (b = l)), (decide (l = b)); cbn [length]; subst; done || lia.
Qed.

Lemma open_on_app l ts b j : open_on l (ts ++ [(b, j)]) = open_on l ts + if decide (l = b) then 1 else 0.
Proof.
  induction ts as [|[b' j'] ts IH]; cbn [app]; rewrite !open_on_cons; [unfold open_on, zlen; simpl; lia|].
  rewrite IH. lia.
Qed.

Lemma open_on_insert l i ts b j j' : ts !! i = Some (b, j) → open_on l (<[i := (b, j')]> ts) = open_on l ts.
Proof.
  revert i. induction ts as [|[b1 j1] ts IH]; intros [|i] Hi; simplify_eq/=; rewrite !open_on_cons; [done|].
  by rewrite (IH i).
Qed.

Lemma open_on_delete l i ts b j :
  ts !! i = Some (b, j) → open_on l ts = open_on l (delete i ts) + if decide (l = b) then 1 else 0.
Proof.
  revert i. induction ts as [|[b1 j1] ts IH]; intros [|i] Hi; simplify_eq/=; rewrite !open_on_cons; [lia|].
  rewrite (IH i) by done. lia.
Qed.

Lemma well_typed_counts s : well_typed s → zlen (sy_tunnels s) < max_int64 → counts_ok (sy_heap s).
Proof. intros Hw Hn l. rewrite (wt_counts _ Hw). pose proof (open_on_bound l (sy_tunnels s)). lia. Qed.

(** An event that lets the heap grow and leaves the connections and the active
    checker alone. *)
Lemma well_typed_grows s s' :
  well_typed s → grows (sy_heap s) (sy_heap s') →
  live (sy_heap s') (backends (sy_pool s')) → any_typed (sy_heap s') (sy_selector s') →
  sy_tunnels s' = sy_tunnels s → sy_probes s' = sy_probes s →
  sy_wfailures s' = sy_wfailures s → sy_wsuccesses s' = sy_wsuccesses s → well_typed s'.
Proof.
  intros [H1 H2 H3 H4 H5 H6 H7] G Hp Hs Et Ep Ef Es. constructor; rewrite ?Et, ?Ep; try done.
  - by eapply grows_live.
  - intros l. destruct G as [_ G]. by rewrite G.
  - by eapply grows_live.
  - intros m. specialize (H7 m). unfold flags_ok, get_running in *. cbn in *.
    intros Hm. rewrite Ep. apply H7. by destruct m; cbn in *; congruence.
Qed.

(** A new connection, and one that ends. *)
Lemma open_typed srv dial ta tb pa pb ea eb s :
  well_typed s → counts_ok (sy_heap s) →
  step_typed (ETcp dial ta tb pa pb ea eb) s (sys_step srv (ETcp dial ta tb pa pb ea eb) s).
Proof.
  intros Hw Hc. cbn [sys_step]. pose proof Hw as [H1 H2 H3 H4 H5 H6 H7].
  destruct (handleConn_open_typed dial (sy_pool s) (sy_heap s) H1 Hc) as ([b|] & σ & -> & H).
  - destruct H as [Hb [D C]].
    assert (∀ ls, live (sy_heap s) ls → live σ ls) as Hl.
    { intros ls Hls. eapply Forall_impl; [exact Hls|]. intros l Hl. apply elem_of_dom, D. by apply elem_of_dom. }
    split_and!; [done| |done|cbn; rewrite length_app; simpl; lia].
    constructor; cbn; try done.
    + by apply Hl.
    + destruct (sy_selector s); cbn in *; try done; [by apply Hl|].
      destruct H2 as (src & Hs & Hr). exists src. split; [by apply Hl|done].
    + rewrite fmap_app. apply Forall_app. split; [by apply Hl|]. constructor; [|done].
      apply elem_of_dom, D. by apply elem_of_dom.
    + apply Forall_app. split; [done|]. constructor; [|done]. by intros [?|?].
    + intros l. rewrite C, H5, open_on_app. done.
    + by apply Hl.
  - split_and!; [done| |apply H|cbn; lia]. eapply well_typed_grows; [exact Hw|exact H|..]; try done; cbn.
    + by eapply grows_live.
    + exact (typed_grows (H := Any_Selector Intn) _ _ _ H H2).
Qed.

Lemma tunnel_typed i t s :
  well_typed s → zlen (sy_tunnels s) < max_int64 → step_typed (ETunnel i t) s (tunnel_step i t s).
Proof.
  intros Hw Hn. pose proof Hw as [H1 H2 H3 H4 H5 H6 H7]. unfold tunnel_step.
  destruct (sy_tunnels s !! i) as [[b j]|] eqn:Ei; [|by split_and!; [| |done|cbn; lia]].
  assert (¬ crashed j) as Hj.
  { rewrite Forall_forall in H4. apply (H4 (b, j)). by eapply list_elem_of_lookup_2. }
  assert (is_Some (sy_heap s !! b)) as Hb.
  { eapply live_elem; [exact H3|]. apply list_elem_of_fmap. exists (b, j). split; [done|]. by eapply list_elem_of_lookup_2. }
  case_decide as Hcr.
  { right. exists i, t, b, j. split_and!; try done. by eapply join_step_crash. }
  case_decide as Hret.
  - pose proof (open_on_delete b i _ b j Ei) as Hd. rewrite decide_True in Hd by done.
    pose proof (open_on_bound b (delete i (sy_tunnels s))) as Hb1. pose proof (open_on_bound b (sy_tunnels s)) as Hb2.
    destruct Hb as [bk Hb].
    destruct (Dec_adds (sy_heap s) b bk Hb) as [Ed [D C]]; [rewrite H5; lia|].
    unfold zoom. cbn [sy_heap put_tunnels]. rewrite Ed. cbn [fst snd].
    assert (∀ ls, live (sy_heap s) ls → live (Backend_DecConns b (sy_heap s)).2 ls) as Hl.
    { intros ls Hls. eapply Forall_impl; [exact Hls|]. intros l Hl. apply elem_of_dom, D. by apply elem_of_dom. }
    pose proof (list_subseteq_delete i (sy_tunnels s)) as Hsub.
    split_and!; [done| |done|].
    2:{ cbn. rewrite length_delete by eauto. lia. }
    constructor; cbn; try done.
    + by apply Hl.
    + destruct (sy_selector s); cbn in *; try done; [by apply Hl|].
      destruct H2 as (src & Hs & Hr). exists src. split; [by apply Hl|done].
    + apply Hl. unfold live in *. rewrite Forall_forall in H3 |- *. intros l Hin.
      apply H3. apply list_elem_of_fmap in Hin as (t' & -> & Hin). apply list_elem_of_fmap. eauto.
    + rewrite Forall_forall in H4 |- *. auto.
    + intros l. rewrite C, H5, (open_on_delete l i _ b j Ei). case_decide; lia.
    + by apply Hl.
  - split_and!; [done| |done|cbn; rewrite length_insert; lia]. constructor; cbn; try done.
    + rewrite list_fmap_insert. cbn. rewrite list_insert_id; [done|]. by rewrite list_lookup_fmap, Ei.
    + apply Forall_insert; done.
    + intros l. by rewrite (open_on_insert l i _ b j).
Qed.

Lemma checker_typed env a s : well_typed s → step_typed (EChecker env a) s (checker_step env a s).
Proof.
  intros Hw. pose proof Hw as [H1 H2 H3 H4 H5 H6 H7]. unfold checker_step.
  destruct (run_step (pe_dial env) (pe_get env) a (get_running s)) as [w|] eqn:E.
  - destruct (run_step_kept _ _ _ _ _ H7 E) as (Hf & Hp & Hs & Hps).
    assert (grows (sy_heap s) (sh_store (rn_shared w))) as G.
    { destruct Hs as [Hs|(l & b & h & Hb & Hs)]; rewrite Hs; [done|]. by eapply grows_insert. }
    split_and!; [done| |apply G|cbn; lia]. constructor; cbn; try done.
    + by eapply grows_live.
    + exact (typed_grows (H := Any_Selector Intn) _ _ _ G H2).
    + by eapply grows_live.
    + intros l. destruct G as [_ G]. by rewrite G.
    + cbn in Hps. destruct Hps as [-> | ->]; [by eapply grows_live|].
      apply Forall_app. split; by eapply grows_live.
  - assert (Forall (λ p, is_Some (sy_heap s !! p.1)) (sy_probes s)) as H6'.
    { apply Forall_forall. intros p Hp. apply (proj1 (Forall_forall _ _) H6). apply list_elem_of_fmap. eauto. }
    destruct (run_step_None _ _ _ (get_running s) H7 H6' E) as (i & -> & Ho). left.
    assert (∃ p, sy_probes s !! i = Some p ∧ is_Some (sy_heap s !! p.1)) as ([l pc] & Hi & [b Hb]).
    { destruct Ho as (j & m & li & pi & lj & pj & _ & Hi & _). exists (li, pi). split; [exact Hi|].
      unfold live in H6. apply (proj1 (Forall_forall _ _) H6). apply list_elem_of_fmap. exists (li, pi).
      split; [done|]. by eapply list_elem_of_lookup_2. }
    exists env, i. split_and!; [done|exact Ho|]. rewrite Hi. cbn in *. by rewrite Hb.
Qed.

Lemma sys_step_typed srv addr e s :
  New url_Parse decode_add decode_weight encode_snapshot encode_list addr = Ret srv →
  event_ok e → well_typed s → zlen (sy_tunnels s) < max_int64 → step_typed e s (sys_step srv e s).
Proof.
  intros Hsrv He Hw Hn. pose proof (well_typed_counts _ Hw Hn) as Hc.
  pose proof Hw as [Hl Ht _ _ _ _ _].
  destruct e as [r RT|dial ta tb pa pb ea eb|i t|r target body|env a|i o|i r].
  - cbn [sys_step event_ok] in *. unfold zoom.
    pose proof (ServeHTTP_typed (St := AnySelector Rng) (H := Any_Selector Intn) RT (sy_pool s) r (sy_selector s) (sy_heap s) He Hl Hc Ht) as (H1 & H2 & H3).
    destruct (HTTPProxy_ServeHTTP (H := Any_Selector Intn) RT (sy_pool s) r (sy_selector s, sy_heap s)) as [o [a' σ']]. cbn [fst snd] in *.
    assert (recovered o = Ret (AnsHttp o)) as -> by (by destruct o as [|w]; [|destruct H1 as [-> | ->]]).
    split_and!; [done| |apply H2|cbn; lia]. eapply well_typed_grows; [exact Hw|..]; try done; cbn. by eapply grows_live.
  - by apply open_typed.
  - by apply tunnel_typed.
  - cbn [sys_step]. unfold zoom.
    destruct (admin_server_typed valid_authority _ _ _ _ _ addr srv r target body (sy_pool s) (sy_heap s) Hsrv Hl) as (resp & p' & σ' & -> & H1 & H2).
    split_and!; [done| |apply H2|cbn; lia]. eapply well_typed_grows; [exact Hw|..]; try done; cbn.
    exact (typed_grows (H := Any_Selector Intn) _ _ _ H2 Ht).
  - by apply checker_typed.
  - cbn [sys_step]. unfold pool_nth, zoom. destruct (backends (sy_pool s) !! i) as [l|] eqn:Ei; [|by split_and!; [| |done|cbn; lia]].
    destruct (passive_do_typed l o (sy_passive s) (sy_heap s)) as (pc' & σ' & -> & G); [by eapply live_elem, list_elem_of_lookup_2|].
    split_and!; [done| |apply G|cbn; lia]. eapply well_typed_grows; [exact Hw|..]; try done; cbn; [by eapply grows_live|].
    exact (typed_grows (H := Any_Selector Intn) _ _ _ G Ht).
  - cbn [sys_step]. unfold pool_nth, zoom. destruct (backends (sy_pool s) !! i) as [l|] eqn:Ei; [|by split_and!; [| |done|cbn; lia]].
    destruct (Observe_typed l r (sy_machine s) (sy_heap s)) as (sm' & σ' & -> & G); [by eapply live_elem, list_elem_of_lookup_2|].
    split_and!; [done| |apply G|cbn; lia]. eapply well_typed_grows; [exact Hw|..]; try done; cbn; [by eapply grows_live|].
    exact (typed_grows (H := Any_Selector Intn) _ _ _ G Ht).
Qed.

(** What a run of events does: all of them are answered, or the process ends at
    one of them in one of the two ways. *)
Definition run_typed (srv : Server) (es : list sys_event) (s : system) (P : system → Prop) : Prop :=
  (∃ answers s', sys_run srv es s = (Ret answers, s') ∧ Forall2 answer_typed es answers ∧
    well_typed s' ∧ P s') ∨
  (∃ pre e post answers s' why, es = pre ++ e :: post ∧ sys_run srv pre s = (Ret answers, s') ∧
    Forall2 answer_typed pre answers ∧ well_typed s' ∧ P s' ∧
    fatal e s' why ∧ (sys_run srv es s).1 = Panic why).

Lemma sys_run_typed srv addr es s :
  New url_Parse decode_add decode_weight encode_snapshot encode_list addr = Ret srv →
  Forall event_ok es → well_typed s → zlen (sy_tunnels s) + zlen es ≤ max_int64 →
  run_typed srv es s (λ s', dom (sy_heap s) ⊆ dom (sy_heap s')).
Proof.
  intros Hsrv He. revert s. induction He as [|e es He _ IH]; intros s Hw Hn.
  - left. by exists [], s.
  - unfold zlen in Hn. cbn [length] in Hn.
    assert (step_typed e s (sys_step srv e s)) as Hs by (apply (sys_step_typed srv addr); try done; unfold zlen; lia).
    destruct (sys_step srv e s) as [[a|why] s1] eqn:Es; unfold step_typed in Hs; cbn [fst snd] in Hs.
    + destruct Hs as (Ha & Hw1 & Hd & Hlen). destruct (IH s1 Hw1) as [(answers & s' & E2 & Hall & Hw' & Hd')|
        (pre & e' & post & answers & s' & why & -> & E2 & Hall & Hw' & Hd' & Hf & E3)]; [unfold zlen; lia|left|right].
      * exists (a :: answers), s'. cbn [sys_run]. rewrite (bind_Ret _ _ _ _ _ Es), (bind_Ret _ _ _ _ _ E2).
        split_and!; [done|by constructor|done|by etrans].
      * exists (e :: pre), e', post, (a :: answers), s', why. cbn [sys_run app].
        rewrite (bind_Ret _ _ _ _ _ Es), (bind_Ret _ _ _ _ _ E2). split_and!; [done|done|by constructor|done|by etrans|done|].
        rewrite (bind_Ret _ _ _ _ _ Es). unfold mbind, M_bind. destruct (sys_run srv (pre ++ e' :: post) s1) as [[l|w] s2]; [done|].
        cbn in *. congruence.
    + right. exists [], e, es, [], s, why. split_and!; try done. cbn [sys_run].
      unfold mbind, M_bind. by rewrite Es.
Qed.
End system.

(** Creating the backends of a configuration fills the heap. *)
Lemma create_backends_typed url_Parse bcs acc σ ls σ' :
  create_backends url_Parse bcs acc σ = (Ret (inl ls), σ') → live σ acc → live σ' ls ∧ grows σ σ'.
Proof.
  revert acc σ. induction bcs as [|bc bcs IH]; intros acc σ; cbn [create_backends]; [by intros [= <- <-]|].
  unfold Backend_New. destruct (url_Parse (bc_Addr bc)) as [u|err]; [|done]. cbv zeta.
  set (b := mkBackend _ _ _ _ _). intros E Hl. pose proof (grows_alloc σ b eq_refl) as G.
  unfold alloc, mbind, mret, M_bind, M_ret in E. destruct (IH _ _ E) as [H1 H2].
  - apply Forall_app. split; [by eapply grows_live|]. constructor; [|done]. rewrite lookup_insert_eq. by eexists.
  - split; [done|by etrans].
Qed.

Lemma NewSelector_typed {Rng} (rand_New : Z → Rng) name a σ : NewSelector rand_New name = inl a → any_typed σ a.
Proof.
  unfold NewSelector. repeat case_decide; intros [= <-]; try done; cbn; [by constructor|].
  exists []. split; [by constructor|]. intros k Hk. by apply elem_of_nil in Hk.
Qed.

(** ** Property *)

(** C2. Heap typing of the whole program: start it on the backends of any
    configuration with any algorithm the factory makes, and let HTTP requests
    (each as one step), connections to the TCP proxy with turns of their three
    goroutines, admin requests, ticks of the active checker and single steps of
    the probes they start, passive observations and state-machine observations
    come in any order, up to 2^63-1 of them.  Either every event is answered: a
    request to the proxy with a response or with a panic that net/http recovers
    from, an index out of range or that of the exchange; an admin request always
    with a response.  Or the process ends at one of the events, and then in one
    of two ways: a probe accesses a map of counters that another probe is
    writing, or a connection of [tunnel] is not a TCP connection, which those
    that net.Listen and net.DialTimeout make for it are.  Up to there every
    pointer of the pool, of the algorithm's tables, of the open connections and
    of the probes stays a pointer to a backend, also after removals, so that
    nothing dereferences nil, and every backend counts exactly the TCP
    connections that are open on it. *)
Theorem program_type_safe {Rng} (Intn : Z → Rng → Z * Rng) rand_New va up da dw es el addr srv bcs ls σ name a cfg evs :
  create_backends up bcs [] ∅ = (Ret (inl ls), σ) → NewSelector rand_New name = inl a →
  New up da dw es el addr = Ret srv → Forall event_ok evs → zlen evs ≤ max_int64 →
  run_typed Intn va srv evs (sys_init (NewPool ls) σ a cfg) (λ s', dom σ ⊆ dom (sy_heap s')).
Proof.
  intros Hb Ha Hs He Hn. destruct (create_backends_typed _ _ _ _ _ _ Hb) as [Hl [_ Hc]]; [by constructor|].
  apply (sys_run_typed Intn va up da dw es el srv addr evs (sys_init (NewPool ls) σ a cfg) Hs He); [|done].
  constructor; cbn; try done.
  - by eapply NewSelector_typed.
  - constructor.
  - constructor.
  - by intros [].
Qed.

(** ** Witness *)

(** Requests, a connection that is opened, carries a byte each way and ends, a
    probe round among them, and a removal. *)
Definition ex_events_all : list sys_event :=
  [EHttp HttpProxy.ex_client ex_upstream; EAdmin (cr_req (AdminServer.ex_client "POST" "" "")) "/admin/backends" "b9";
   ETcp (λ _, true) true true [Send [1]] [Send [2]] None None; EChecker (ex_net "b1" 503) ATick] ++
  flat_map (λ _, [ETunnel 0 (TurnAB None); ETunnel 0 (TurnBA None); EChecker (ex_net "b1" 503) (AProbe 1);
                  ETunnel 0 TurnMain]) (seq 0 9) ++
  [EPassive 1 (POutcome true 0); EObserve 0 (bad_at 1);
   EAdmin (cr_req (AdminServer.ex_client "DELETE" "" "")) "/admin/backends/b1" "";
   EHttp HttpProxy.ex_client (λ _ σ, (Panic Explicit, σ))].

(** The same, and then two probes that count at the same time. *)
Definition ex_events_race : list sys_event :=
  EChecker (ex_net "" 503) ATick :: ((λ i, EChecker (ex_net "" 503) (AProbe i)) <$> [0; 1; 0; 1]%nat).

Lemma ex_events_ok : Forall event_ok ex_events_all ∧ Forall event_ok ex_events_race.
Proof.
  split; repeat apply Forall_cons_2; try exact I; try apply Forall_nil_2; cbn [event_ok].
  - intros req σ. by split.
  - intros req σ. split; [done|]. by intros w [= <-].
Qed.

(** The example configuration with consistent hashing: the ring keeps the
    backend that is deleted. *)
Definition ex_boot : outcome (list loc + string) * store := create_backends ex_url_parse (pc_Backends ex_pool_config) [] ∅.
Definition ex_boot_list : list loc := match ex_boot.1 with Ret (inl ls) => ls | _ => [] end.
Definition ex_ring : AnySelector Z :=
  match NewSelector (λ seed, seed) "consistent_hash" with inl a => a | inr _ => SelRR NewRoundRobin end.
Definition ex_srv : Server :=
  match ex_admin_server with Ret s => s | Panic _ => mkServer "" [] 0 0 end.
Definition ex_system (es : list sys_event) : outcome (list sys_answer) * @system Z :=
  sys_run count_rng ex_authority ex_srv es (sys_init (NewPool ex_boot_list) ex_boot.2 ex_ring DefaultHealthConfig).
Definition returns {A} (o : outcome A) : bool := match o with Ret _ => true | Panic _ => false end.

Lemma ex_boot_parts :
  create_backends ex_url_parse (pc_Backends ex_pool_config) [] ∅ = (Ret (inl ex_boot_list), ex_boot.2) ∧
  NewSelector (λ seed, seed) "consistent_hash" = inl ex_ring ∧ ex_admin_server = Ret ex_srv.
Proof. split_and!; reflexivity. Qed.

Lemma program_type_safe_witness :
  ∃ answers s', ex_system ex_events_all = (Ret answers, s') ∧ Forall2 answer_typed ex_events_all answers ∧
    well_typed s' ∧ sy_tunnels s' = [] ∧
    ∃ pre e post (s1 : @system Z), ex_events_race = pre ++ e :: post ∧ fatal e s1 ConcurrentMapAccess ∧ well_typed s1.
Proof.
  destruct ex_boot_parts as (Eb & Ea & Hs). destruct ex_events_ok as [Hok1 Hok2].
  assert (returns (ex_system ex_events_all).1 = true) as R1 by (vm_compute; reflexivity).
  assert (sy_tunnels (ex_system ex_events_all).2 = []) as T1 by (vm_compute; reflexivity).
  assert ((ex_system ex_events_race).1 = Panic ConcurrentMapAccess) as R2 by (vm_compute; reflexivity).
  destruct (program_type_safe count_rng (λ seed, seed) ex_authority ex_url_parse ex_decode_add ex_decode_weight (λ _, "") (λ _, "") ":9001"
    ex_srv (pc_Backends ex_pool_config) ex_boot_list ex_boot.2 "consistent_hash" ex_ring DefaultHealthConfig ex_events_all Eb Ea Hs Hok1)
    as [(answers & s' & E & H1 & Hw & _)|(pre & e & post & answers & s' & why & _ & _ & _ & _ & _ & _ & E)];
    [vm_compute; discriminate| |exfalso; unfold ex_system in R1; rewrite E in R1; discriminate R1].
  exists answers, s'. split; [exact E|]. split; [exact H1|]. split; [exact Hw|].
  split; [unfold ex_system in T1; rewrite E in T1; exact T1|].
  destruct (program_type_safe count_rng (λ seed, seed) ex_authority ex_url_parse ex_decode_add ex_decode_weight (λ _, "") (λ _, "") ":9001"
    ex_srv (pc_Backends ex_pool_config) ex_boot_list ex_boot.2 "consistent_hash" ex_ring DefaultHealthConfig ex_events_race Eb Ea Hs Hok2)
    as [(answers' & s2 & E2 & _)|(pre & e & post & answers' & s2 & why & H3 & _ & _ & H4 & _ & H5 & E2)];
    [vm_compute; discriminate|unfold ex_system in R2; rewrite E2 in R2; discriminate R2|].
  exists pre, e, post, s2. split; [exact H3|]. split; [|exact H4].
  unfold ex_system in R2. rewrite E2 in R2. injection R2 as ->. exact H5.
Defined.
